(* ===== verification/_CoqProject ===== *)
-Q . S2P
Prelude.v
Decimal.v
Parser.v
Serializer.v
Client.v
PriorityQueue.v
Storage.v
StorageInv.v
StorageSpec.v
StorageConc.v
StorageLin.v
Sweeper.v
Dispatcher.v
BoundedBuffer.v
Sequencer.v
BoundedQueue.v
QueueWait.v
World.v
Wakeup.v
Io.v
Registry.v
EventLoop.v
EventLoopInv.v
EventLoopProps.v
EventLoopMain.v
WorkerPool.v
Logger.v
Timestamp.v
Cli.v
FileDescriptor.v
Listener.v
Main.v
Process.v
System.v
Framing.v
Server.v
Program.v
Bench.v
BenchStats.v
BenchRun.v
