(* ===== verification/Prelude.v ===== *)
(** * A verified model of cpp-kv-store

    cpp-kv-store is an in-memory key-value server.  One thread runs an epoll
    event loop: it accepts clients, reads bytes into a bounded input buffer,
    cuts them into RESP2 commands and pushes each command, with the number of
    its request, into a bounded work queue.  Worker threads pop the queue,
    execute the command on a sharded store whose keys may carry a deadline,
    and push the response into a bounded completion queue, which wakes the
    event loop through an eventfd.  The event loop puts the responses of a
    connection back into request order, appends them to a bounded output
    buffer and sends them.  A maintenance thread sweeps expired keys.

    This library models those parts as executable functions and step
    relations and proves what makes them correct.  Names are those of the
    source; paths below are relative to the repository.

    ** Files, state and operations

    - [Prelude]: bytes, machine integers ([u64], [i64] with their
      wrap-around), the option monad for undefined behaviour, [result] for
      exceptions, tactics, hint databases and shared lemmas.  [Decimal]:
      [std::to_string] and the reading of digits.
    - [Parser] (src/protocol/parser.cpp), [Serializer]
      (src/protocol/serializer.cpp), [Client] (the request encoder and the
      reply reader of benchmarks/client/kv_bench.cpp): functions on byte
      lists; every index and [substr] of the parser is partial.
    - [PriorityQueue]: the interface of [std::priority_queue], a class with
      its laws.  [Storage] (src/storage/shard.hpp, src/storage/store.cpp):
      [Shard], [Store], one function per critical section and one per
      operation; the clock reading is an argument.  [StorageInv]: the
      well-formedness invariant and the effect of each operation.
      [StorageSpec]: the map with deadlines of SPEC.md, and the refinement.
      [StorageConc]: threads that interleave the critical sections of a
      shard.  [StorageLin]: threads on the whole store, with a history of
      calls, linearization points and returns.  [Sweeper]
      (src/storage/ttl_sweeper.cpp).
    - [Dispatcher] (src/command/dispatcher.cpp): a command, a clock reading
      and a store give a store and a reply, in one call or one critical section
      at a time.
    - [BoundedBuffer] (src/net/bounded_buffer.cpp), [Sequencer]
      (src/net/response_sequencer.cpp), [Registry] (src/net/connection.cpp,
      src/net/connection_registry.cpp): records and functions on them.
    - [BoundedQueue] (include/kvstore/worker/bounded_queue.hpp): a call is its
      critical section, [None] where it blocks.  [QueueWait]: the same queue
      with sleeping threads, condition variables and notifications, as the
      step relation [wait_step].
    - [World]: the class of system calls and queue operations the event loop
      uses, the class [WorldView] of ghost observations and the class
      [WorldLaws] of what the event loop relies on.  [Io]
      (src/net/io.cpp) and [EventLoop] (src/net/event_loop.cpp,
      [Listener::accept_one]): every handler and one iteration of [run],
      against that interface.  [EventLoopInv], [EventLoopProps],
      [EventLoopMain]: the invariant of a connection, its preservation by
      each handler, the invariant of the loop and of all reachable states.
      [Wakeup]: [wake], [stop], the destructor and the phases of [run] as the
      step relation [wake_step], with the workers' callbacks interleaved.
    - [WorkerPool] (src/worker/worker_pool.cpp): workers as state machines
      over the queues and the store, under any schedule.
    - [Logger] and [Timestamp] (src/util/logger.cpp), [Cli] (src/cli/options.cpp),
      [FileDescriptor] (src/net/file_descriptor.cpp), [Listener]
      (src/net/listener.cpp and the descriptors of the [EventLoop]
      constructor, as programs of the monad [NetM] over the kernel's sockets,
      whose scopes run the destructors), [Main] (start of src/main.cpp),
      [Process] (the rest of src/main.cpp: all the
      threads of the process from the first constructor to the exit, as the
      step relation [proc_step]; of the event loop it has the use of the
      queues and the warnings).
    - [System]: the process with a scripted kernel as an instance of [World]
      and [WorldLaws], with a record of the commands executed; the event loop
      of [EventLoop] runs there as the main thread of the process, the other
      threads between its calls, and whole runs of the server evaluate.
      [Framing]: a splitter of whole byte streams as the reference for
      [process_input].  [Server]: the theorems on the whole server.
      [Program]: the way to [run] and what follows it.
    - [Bench] (benchmarks/client/kv_bench.cpp): options, sockets and the
      pre-population against the class [Net] of socket operations; the class
      [ServingNet] states what the client relies on, and the server's parser,
      dispatcher and store are an instance.  [BenchStats]: the percentiles.
      [BenchRun]: the threads of the connections and of [main] as the step
      relation [bench_step].

    ** What the theorems show

    - The server, end to end ([Server]): although the sections of the workers,
      of the sweeper and of the signal thread interleave, the commands of all
      clients take effect in one order, none twice, and the bytes sent to a
      registered client are the responses to its requests, in request order:
      an error for a malformed or refused request, and for every other one
      what the store answered at its place in that order, which is the reply
      of the map with deadlines as long as no operation applies a clock
      reading older than one already applied to its key; a request the server
      has not taken yet is executed after everything executed before, so a
      client that waits for a reply relies on its effect.
    - A connection ([EventLoopMain], [Framing]): in every reachable state
      what a client has been sent are the complete answers to its first
      requests in order; the rest is owed by the workers, each request once;
      an iteration of the loop returns, and throws only when [epoll_wait] or
      [accept4] fails; the open client sockets are those of
      the registry; what a connection is answered depends on its bytes alone,
      not on how they were cut into reads; no counter wraps around.
      [WorkerPool] discharges the workers' half: every accepted
      item is completed at most once, with the dispatcher's answer.
      [Dispatcher] says what the answer is, and [StorageSpec] that the store
      answers as one map in which expired keys are missing.
    - The wire format ([Parser], [Client], [Serializer]): the parser accepts
      exactly the grammar, never reads out of range, is stable under more
      input and reports prefixes as incomplete; requests and replies round
      trip.
    - The store ([StorageInv], [StorageSpec], [StorageConc], [StorageLin],
      [Sweeper]): construction, lifetime of a key, sweeps that are invisible,
      bounded and complete, safety of clean-up under any interleaving, and
      linearizability of all operations as long as no operation applies a
      clock reading older than one already applied to its key.
    - The queues ([BoundedQueue], [QueueWait], [WorkerPool], [Wakeup]): FIFO,
      capacity and close; a thread that sleeps in a queue although it could go
      on is owed a wake-up, and so is the event loop; when the pool's
      destructor returns.
    - The process ([Main], [Process], [Program]): exactly when it starts, and
      with which code it exits otherwise; every state in
      which it calls [run] is one the theorems on the server start from, and all
      the event loop does is a run of the process; no thread touches an object
      outside its life; how each iteration of [run] ends, and with which exit
      code and log the process then can end; when a shutdown completes.
    - Resources ([BoundedBuffer], [Io], [Registry], [FileDescriptor],
      [Listener], [Cli], [Timestamp]): caps, byte streams without loss, stale
      names, descriptors closed once, the listening socket bound as configured
      or closed, options, time stamps.
    - The benchmark client ([BenchRun], [BenchStats]): against a server that
      serves, however the bytes are cut and the threads interleaved, it stores
      its keys, ends when told to, without an error; its percentiles are order
      statistics.
    - Behaviour at odds with the documentation: a header of twenty digits
      split between CR and LF ([header_split_changes_result]), the overflow of
      EXPIRE ([expire_seconds_overflow]), client bytes in an error reply
      ([unknown_command_reply_splits]), the stale clock of EXPIRE
      ([stale_expire_revives]), [accept4] failing
      ([accept_failure_stops_run]), a connection closed at its in-flight cap
      ([full_input_closes]), a shutdown that hangs
      ([run_outcome]), an exception out of [run] that ends in
      [std::terminate] ([process_exit]) and a callback that outlives the event
      loop ([callback_outlives_loop]).

    ** Fuel

    A loop that is not structural takes fuel and returns [None] without it.
    Where the code gives a bound the definition passes it: [process_input]
    runs on the length of the input plus one (a round consumes bytes),
    [write_loop] on the length of the output plus one, [record] on the number
    of pending responses plus one, a sweep on the size of the heap.  Where the
    peers drive the loop the fuel is an argument, and [iteration_returns]
    gives an amount from which every larger one returns: the bytes a socket
    can still deliver below 2^64 for [read_loop], the answers owed plus the
    buffered input for [drain_completions], the wake-ups and connections that
    [WorldLaws] lets arrive during one drain for the eventfd and the
    listener.  Results do not depend on the fuel that gives them.

    ** Parameters and hypotheses

    [hash] is [std::hash]; only its range matters.  [PriorityQueue] leaves
    the order of equal candidates open and has an instance.  Clock readings
    are arguments; theorems that need a clock that does not go back, or
    nanosecond counts within a signed 64-bit integer, say so.  [WorldLaws]
    states the documented behaviour of stream sockets and that accepted work
    comes back once; [System] proves it for the real queues and threads, whose
    operations on the store overlap section by section.  Two of its laws are
    assumptions on the load and not on the kernel: only finitely many
    connections and wake-ups arrive while one call of a handler drains them
    ([backlog] and [wakeups]); against clients that connect without end the
    accept loop of the source does not return either.  [EventLoopCalls] holds
    what the system answers to the constructors of the listener and the event
    loop, [inet_pton] included.

    ** Not modelled

    [steady_clock], [std::hash] and the wall clock themselves (readings and
    hashes are arguments), failures of thread creation and of memory
    allocation, which end the process, and of the benchmark client the random
    numbers, the throughput and the printed text.  Which descriptors
    [epoll_wait] reports is left open in [System]; that a completion or a stop
    is always reported is the subject of [Wakeup].  The remaining lines of the
    sources are declarations of what is modelled, deleted copy operations and
    helpers that throw.

    ** Plan

    The plan is carried out: every component with state of its own is modelled
    and put together in [Program]. *)
From stdpp Require Export base tactics numbers option list gmap strings.
From Stdlib Require Export ZArith Lia Ascii.

#[export] Set Default Goal Selector "!".

(** ** Bytes

    [std::string] and [std::string_view] are sequences of bytes; a byte is an
    [ascii] (eight bits).  The notation is an abbreviation and not a
    definition so that the list lemmas apply to it as they are. *)
Abbreviation byte := ascii (only parsing).
Abbreviation bytes := (list ascii).

Open Scope Z_scope.

(** A C string literal. *)
Definition lit (s : string) : bytes := String.list_ascii_of_string s.

Definition CR : ascii := ascii_of_N 13.
Definition LF : ascii := ascii_of_N 10.
Definition crlf : bytes := [CR; LF].

(** The numeric value of a byte, in [0, 255]. *)
Definition code (c : ascii) : Z := Z.of_N (N_of_ascii c).
Definition chr (z : Z) : ascii := ascii_of_N (Z.to_N z).

(** [std::string_view::size]. *)
Definition len {A} (l : list A) : Z := Z.of_nat (length l).

(** ** Undefined behaviour and exceptions

    An operation that can read out of range, or that would run a loop the
    model bounds by fuel, lives in the option monad: [None] means that the
    C++ program has no defined result there.  An operation that throws
    returns a [result]. *)
Inductive exn :=
  | InvalidArgument (what : bytes)
  | OutOfRange (what : bytes)
  | RuntimeError (what : bytes)
  | SystemError (errno : Z) (what : bytes).

Inductive result (A : Type) :=
  | Ok (a : A)
  | Throw (e : exn).
Arguments Ok {A} _.
Arguments Throw {A} _.

#[export] Instance exn_eq_dec : EqDecision exn.
Proof. solve_decision. Defined.
#[export] Instance result_eq_dec `{EqDecision A} : EqDecision (result A).
Proof. solve_decision. Defined.

#[export] Instance result_ret : MRet result := @Ok.
#[export] Instance result_bind : MBind result := λ A B f m,
  match m with Ok a => f a | Throw e => Throw e end.

(** [s[i]] on a string view: undefined out of range. *)
Definition char_at (s : bytes) (i : Z) : option ascii :=
  if bool_decide (0 ≤ i) then s !! Z.to_nat i else None.

(** [s.substr(pos)]: throws [std::out_of_range] when [pos > size()]. *)
Definition substr (s : bytes) (pos : Z) : option bytes :=
  if bool_decide (0 ≤ pos ≤ len s) then Some (drop (Z.to_nat pos) s) else None.

(** [s.substr(pos, n)]. *)
Definition substr_n (s : bytes) (pos n : Z) : option bytes :=
  take (Z.to_nat n) <$> substr s pos.

(** [s.find] of the two-byte needle CR LF: the first position, or [npos]. *)
Fixpoint find_crlf (s : bytes) : option Z :=
  match s with
  | c :: t =>
      if bool_decide (c = CR ∧ head t = Some LF) then Some 0
      else Z.succ <$> find_crlf t
  | [] => None
  end.

(** ** Machine integers *)
Definition UINT64_MAX : Z := 2 ^ 64 - 1.
Definition INT64_MAX : Z := 2 ^ 63 - 1.
Definition INT64_MIN : Z := - 2 ^ 63.

(** Wrap-around of [std::uint64_t] and [std::size_t]. *)
Definition u64 (z : Z) : Z := z mod 2 ^ 64.

(** Two's complement result of a 64-bit signed operation.  The C++ standard
    leaves signed overflow undefined; where the code can overflow, a theorem
    says when [z] is in [in_i64], and the wrapped value is what the supported
    compilers' targets compute. *)
Definition i64 (z : Z) : Z := (z + 2 ^ 63) mod 2 ^ 64 - 2 ^ 63.

Definition in_u64 (z : Z) : Prop := 0 ≤ z ≤ UINT64_MAX.
Definition in_i64 (z : Z) : Prop := INT64_MIN ≤ z ≤ INT64_MAX.

(** ** Lemmas on machine integers *)
Create HintDb kv.
Create Rewrite HintDb kv.

Lemma u64_small z : in_u64 z → u64 z = z.
Proof. unfold in_u64, u64, UINT64_MAX. intros. apply Z.mod_small. lia. Qed.

Lemma u64_range z : in_u64 (u64 z).
Proof.
  unfold in_u64, u64, UINT64_MAX.
  pose proof (Z.mod_pos_bound z (2 ^ 64)). lia.
Qed.

Lemma i64_small z : in_i64 z → i64 z = z.
Proof.
  unfold in_i64, i64, INT64_MIN, INT64_MAX. intros.
  rewrite Z.mod_small; lia.
Qed.

Lemma i64_range z : in_i64 (i64 z).
Proof.
  unfold in_i64, i64, INT64_MIN, INT64_MAX.
  pose proof (Z.mod_pos_bound (z + 2 ^ 63) (2 ^ 64)). lia.
Qed.

#[export] Hint Resolve u64_range i64_range : kv.

(** ** Lemmas on bytes and lists *)
Lemma len_nonneg {A} (l : list A) : 0 ≤ len l.
Proof. unfold len. lia. Qed.
#[export] Hint Resolve len_nonneg : kv.

Lemma len_nil {A} : len (@nil A) = 0.
Proof. reflexivity. Qed.
Lemma len_cons {A} (x : A) l : len (x :: l) = 1 + len l.
Proof. unfold len. simpl. lia. Qed.
Lemma len_app {A} (l k : list A) : len (l ++ k) = len l + len k.
Proof. unfold len. rewrite length_app. lia. Qed.
Lemma len_take {A} n (l : list A) : 0 ≤ n → len (take (Z.to_nat n) l) = Z.min n (len l).
Proof. unfold len. rewrite length_take. lia. Qed.
Lemma len_drop {A} n (l : list A) : 0 ≤ n → len (drop (Z.to_nat n) l) = Z.max 0 (len l - n).
Proof. unfold len. rewrite length_drop. lia. Qed.
#[export] Hint Rewrite @len_nil @len_cons @len_app : kv.

Lemma len_zero_iff {A} (l : list A) : len l = 0 ↔ l = [].
Proof. destruct l; rewrite ?len_cons; [done|]. pose proof (len_nonneg l). split; [lia|done]. Qed.

Lemma take_app_len {A} (l k : list A) : take (Z.to_nat (len l)) (l ++ k) = l.
Proof. unfold len. rewrite Nat2Z.id. apply take_app_length. Qed.
Lemma drop_app_len {A} (l k : list A) : drop (Z.to_nat (len l)) (l ++ k) = k.
Proof. unfold len. rewrite Nat2Z.id. apply drop_app_length. Qed.

Lemma char_at_app_r (p s : bytes) i :
  0 ≤ i → char_at (p ++ s) (len p + i) = char_at s i.
Proof.
  intros. unfold char_at. pose proof (len_nonneg p).
  rewrite !bool_decide_true by lia.
  rewrite lookup_app_r by (unfold len; lia). f_equal. unfold len. lia.
Qed.

Lemma char_at_app_l (s t : bytes) i :
  i < len s → char_at (s ++ t) i = char_at s i.
Proof.
  intros. unfold char_at. case_bool_decide; [|done].
  rewrite lookup_app_l by (unfold len in *; lia). done.
Qed.

Lemma char_at_Some_iff (s : bytes) i : is_Some (char_at s i) ↔ 0 ≤ i < len s.
Proof.
  unfold char_at, len. case_bool_decide.
  - rewrite lookup_lt_is_Some. lia.
  - split; [intros [? [=]]|lia].
Qed.

Lemma substr_app_r (p s : bytes) i :
  0 ≤ i → substr (p ++ s) (len p + i) = substr s i.
Proof.
  intros. unfold substr. rewrite len_app. pose proof (len_nonneg p).
  case_bool_decide; case_bool_decide; try lia; [|done].
  f_equal. rewrite drop_app_ge by (unfold len; lia). f_equal. unfold len. lia.
Qed.

Lemma substr_Some (s : bytes) i : 0 ≤ i ≤ len s → substr s i = Some (drop (Z.to_nat i) s).
Proof. intros. unfold substr. by rewrite bool_decide_true. Qed.

(** Arithmetic on lengths: normalise [len], bring in the bounds, call [lia]. *)
Ltac len_norm :=
  autorewrite with kv in *;
  repeat match goal with
  | |- context [len ?l] =>
      lazymatch goal with H : 0 ≤ len l |- _ => fail | _ => idtac end;
      pose proof (len_nonneg l)
  | H0 : context [len ?l] |- _ =>
      lazymatch goal with H : 0 ≤ len l |- _ => fail | _ => idtac end;
      pose proof (len_nonneg l)
  end.
Ltac len_lia := len_norm; lia.

(** Splits every conjunction and existential of the context. *)
Ltac split_hyps :=
  repeat match goal with
  | H : _ ∧ _ |- _ => destruct H
  | H : ∃ _, _ |- _ => destruct H
  end.

(** Case analysis on the scrutinee of a [match] of the goal or of [H]. *)
Ltac cases_in H :=
  repeat (simplify_eq/=; match type of H with
  | context [match ?x with _ => _ end] => destruct x eqn:?
  end); simplify_eq/=.
Ltac cases_goal :=
  repeat (simplify_eq/=; match goal with
  | |- context [match ?x with _ => _ end] => destruct x eqn:?
  end); simplify_eq/=.

(** ** The search for CR LF *)
Lemma find_crlf_split s p :
  find_crlf s = Some p → ∃ a b, s = a ++ crlf ++ b ∧ len a = p.
Proof.
  revert p. induction s as [|c t IH]; intros p; simpl; [done|].
  case_bool_decide as Hc.
  - intros [= <-]. destruct Hc as [-> Ht]. destruct t as [|d t]; simplify_eq/=.
    by exists [], t.
  - intros [q [Hq ->]]%fmap_Some. destruct (IH q Hq) as (a & b & -> & <-).
    exists (c :: a), b. split; [done|len_lia].
Qed.

Lemma find_crlf_bounds s p : find_crlf s = Some p → 0 ≤ p ∧ p + 2 ≤ len s.
Proof. intros (a & b & -> & <-)%find_crlf_split. unfold crlf. len_lia. Qed.

Lemma find_crlf_app s t p : find_crlf s = Some p → find_crlf (s ++ t) = Some p.
Proof.
  revert p. induction s as [|c s IH]; intros p; simpl; [done|].
  case_bool_decide as Hc.
  - intros [= <-]. destruct Hc as [-> Hs]. destruct s; simplify_eq/=.
    done.
  - intros (q & Hq & ->)%fmap_Some. rewrite bool_decide_false, (IH q Hq); [done|].
    intros [-> Hh]. apply Hc. split; [done|]. by destruct s.
Qed.

Lemma find_crlf_no_cr a : CR ∉ a → find_crlf a = None.
Proof.
  induction a as [|c a IH]; simpl; [done|]. intros [Hc Ha]%not_elem_of_cons.
  rewrite bool_decide_false by naive_solver. by rewrite IH.
Qed.

Lemma find_crlf_no_cr_app a s :
  CR ∉ a → find_crlf (a ++ s) = Z.add (len a) <$> find_crlf s.
Proof.
  induction a as [|c a IH]; simpl; intros Ha.
  - destruct (find_crlf s); done.
  - apply not_elem_of_cons in Ha as [Hc Ha].
    rewrite bool_decide_false by naive_solver. rewrite IH by done.
    destruct (find_crlf s); simpl; [|done]. f_equal. len_lia.
Qed.

(** An occurrence that appears only after more bytes arrive starts at the
    last buffered byte or later; it starts there only if that byte is CR. *)
Lemma find_crlf_late s t p :
  find_crlf s = None → find_crlf (s ++ t) = Some p →
  len s ≤ p ∨ (p = len s - 1 ∧ last s = Some CR).
Proof.
  revert p. induction s as [|c s IH]; intros p; simpl.
  { intros _ [? _]%find_crlf_bounds. left. len_lia. }
  case_bool_decide as Hc; [done|]. intros Hs%fmap_None.
  case_bool_decide as Hc'.
  - intros [= <-]. destruct Hc' as [-> Hh]. destruct s; simpl in *; [|naive_solver].
    right. done.
  - intros (q & Hq & ->)%fmap_Some. destruct (IH q Hs Hq) as [?|[-> Hl]].
    + left. len_lia.
    + right. split; [len_lia|]. destruct s; done.
Qed.

(** A prefix [q] of [a], CR LF, [t], where [a] has no CR: it ends before the
    LF, and then no terminator is found in it, or it contains the line. *)
Lemma find_crlf_prefix a q s t :
  CR ∉ a → q ++ s = a ++ crlf ++ t →
  (find_crlf q = None ∧ len q ≤ len a + 1) ∨ ∃ q', q = a ++ crlf ++ q' ∧ q' ++ s = t.
Proof.
  intros Hcr Heq. apply app_eq_inv in Heq as [(k & -> & Hk)|(k & -> & _)].
  2: { left. apply not_elem_of_app in Hcr as [? _].
       split; [by apply find_crlf_no_cr|len_lia]. }
  destruct k as [|c k]; simplify_eq/=.
  { left. rewrite app_nil_r. split; [by apply find_crlf_no_cr|lia]. }
  destruct k as [|d k]; simplify_eq/=.
  { left. split; [by rewrite find_crlf_no_cr_app|len_lia]. }
  right. by exists k.
Qed.

(** The terminator of a line without CR. *)
Lemma find_crlf_line a t : CR ∉ a → find_crlf (a ++ crlf ++ t) = Some (len a).
Proof. intros. rewrite find_crlf_no_cr_app by done. simpl. f_equal. lia. Qed.

Lemma find_crlf_cons_line c a t :
  c ≠ CR → CR ∉ a → find_crlf (c :: a ++ crlf ++ t) = Some (1 + len a).
Proof.
  intros. rewrite <-(len_cons c). apply (find_crlf_line (c :: a)). by apply not_elem_of_cons.
Qed.

(** ** Lists of lists *)

(** One element replaced: the bags of the whole list differ by its own. *)
Lemma concat_insert {A B} (f : A → list B) (l : list A) i x y :
  l !! i = Some x → concat (f <$> l) ++ f y ≡ₚ concat (f <$> <[i := y]> l) ++ f x.
Proof.
  intros Hi. rewrite <-(take_drop_middle l i x Hi) at 1. rewrite insert_take_drop by (by eapply lookup_lt_Some).
  rewrite !fmap_app, !concat_app. simpl. rewrite <-!app_assoc. apply Permutation_app_head.
  generalize (concat (list_fmap A (list B) f (drop (S i) l))). intros D.
  by rewrite (Permutation_app_comm (f x) (D ++ f y)), (Permutation_app_comm D (f y)), <-app_assoc.
Qed.
