(* ===== verification/Decimal.v ===== *)
(** * Decimal text

    [std::to_string] on integers and the arithmetic of base-10 digit strings,
    shared by the serializer (which prints lengths and integers), the request
    parser (which reads them back), the command line and the benchmark
    client. *)
From S2P Require Import Prelude.

(** ['0' + d] for a digit [d]. *)
Definition digit_char (d : Z) : ascii := chr (48 + d).

(** [c >= '0' && c <= '9']. *)
Definition is_digit (c : ascii) : bool := (48 <=? code c) && (code c <=? 57).

(** [c - '0']. *)
Definition digit_value (c : ascii) : Z := code c - 48.

(** Digits of a nonnegative number, most significant first.  Every step
    divides by ten, so one more step than the position of the highest bit is
    enough (lemma [digits_fuel_enough]). *)
Fixpoint digits_fuel (fuel : nat) (z : Z) : bytes :=
  match fuel with
  | O => []
  | S fuel =>
      if z <? 10 then [digit_char z]
      else digits_fuel fuel (z / 10) ++ [digit_char (z mod 10)]
  end.

Definition digits (z : Z) : bytes := digits_fuel (S (Z.to_nat (Z.log2 z))) z.

(** [std::to_string]. *)
Definition to_string (z : Z) : bytes :=
  if z <? 0 then lit "-" ++ digits (- z) else digits z.

(** The number a digit string denotes, continued from [v]. *)
Definition dec_from (v : Z) (l : bytes) : Z :=
  foldl (λ v c, v * 10 + digit_value c) v l.
Definition dec_value (l : bytes) : Z := dec_from 0 l.

(** ** Facts *)
Lemma code_chr z : 0 ≤ z < 256 → code (chr z) = z.
Proof.
  intros. unfold code, chr. rewrite N_ascii_embedding by lia. lia.
Qed.

Lemma chr_code c : chr (code c) = c.
Proof. unfold code, chr. by rewrite N2Z.id, ascii_N_embedding. Qed.

Lemma code_range c : 0 ≤ code c < 256.
Proof. unfold code. pose proof (N_ascii_bounded c). lia. Qed.

Lemma digit_value_char d : 0 ≤ d < 10 → digit_value (digit_char d) = d.
Proof. intros. unfold digit_value, digit_char. rewrite code_chr; lia. Qed.

Lemma is_digit_char d : 0 ≤ d < 10 → is_digit (digit_char d) = true.
Proof. intros. unfold is_digit, digit_char. rewrite code_chr; lia. Qed.

Lemma is_digit_value c : is_digit c = true → 0 ≤ digit_value c < 10.
Proof. unfold is_digit, digit_value. lia. Qed.

Lemma is_digit_not_cr c : is_digit c = true → c ≠ CR.
Proof. intros H ->. vm_compute in H. done. Qed.

Lemma dec_from_app v l k : dec_from v (l ++ k) = dec_from (dec_from v l) k.
Proof. unfold dec_from. apply foldl_app. Qed.

Lemma dec_from_ge v l : 0 ≤ v → forallb is_digit l = true → v ≤ dec_from v l.
Proof.
  revert v. induction l as [|c l IH]; intros v Hv; simpl; [done|].
  intros [Hc Hl]%andb_prop. pose proof (is_digit_value c Hc).
  etrans; [|apply IH]; [lia..|done].
Qed.

Lemma digits_fuel_digits fuel z :
  0 ≤ z → forallb is_digit (digits_fuel fuel z) = true.
Proof.
  revert z. induction fuel as [|fuel IH]; intros z Hz; simpl; [done|].
  destruct (Z.ltb_spec z 10); simpl.
  - rewrite is_digit_char; [done|lia].
  - rewrite forallb_app, IH by (apply Z.div_pos; lia). simpl.
    rewrite is_digit_char by (apply Z.mod_pos_bound; lia). done.
Qed.

Lemma digits_fuel_enough fuel z :
  0 ≤ z < 2 ^ Z.of_nat fuel → dec_value (digits_fuel fuel z) = z.
Proof.
  revert z. induction fuel as [|fuel IH]; intros z Hz; simpl.
  { simpl in Hz. unfold dec_value, dec_from. simpl. lia. }
  rewrite Nat2Z.inj_succ, Z.pow_succ_r in Hz by lia.
  destruct (Z.ltb_spec z 10).
  - unfold dec_value, dec_from. simpl. rewrite digit_value_char; lia.
  - unfold dec_value. rewrite dec_from_app. fold (dec_value (digits_fuel fuel (z / 10))).
    assert (z / 10 < 2 ^ Z.of_nat fuel) by (apply Z.div_lt_upper_bound; lia).
    assert (0 ≤ z / 10) by (apply Z.div_pos; lia).
    rewrite IH by done. unfold dec_from. simpl.
    rewrite digit_value_char by (apply Z.mod_pos_bound; lia).
    pose proof (Z.div_mod z 10). lia.
Qed.

Lemma digits_fuel_length fuel z k :
  (0 < k)%nat → 0 ≤ z < 10 ^ Z.of_nat k → (length (digits_fuel fuel z) ≤ k)%nat.
Proof.
  revert z k. induction fuel as [|fuel IH]; intros z k Hk Hz; simpl; [lia|].
  destruct (Z.ltb_spec z 10); simpl; [lia|].
  destruct k as [|[|k]]; [lia|simpl in Hz; lia|].
  rewrite length_app. simpl.
  rewrite (Nat2Z.inj_succ (S k)), Z.pow_succ_r in Hz by lia.
  assert (z / 10 < 10 ^ Z.of_nat (S k)) by (apply Z.div_lt_upper_bound; lia).
  assert (0 ≤ z / 10) by (apply Z.div_pos; lia).
  pose proof (IH (z / 10) (S k)). lia.
Qed.

Lemma log2_fuel z : 0 ≤ z → z < 2 ^ Z.of_nat (S (Z.to_nat (Z.log2 z))).
Proof.
  intros Hz. pose proof (Z.log2_nonneg z).
  replace (Z.of_nat (S (Z.to_nat (Z.log2 z)))) with (Z.succ (Z.log2 z)) by lia.
  destruct (decide (z = 0)) as [->|]; [done|]. apply Z.log2_spec. lia.
Qed.

Lemma digits_value z : 0 ≤ z → dec_value (digits z) = z.
Proof. intros. apply digits_fuel_enough. split; [done|]. by apply log2_fuel. Qed.

Lemma digits_digits z : 0 ≤ z → forallb is_digit (digits z) = true.
Proof. apply digits_fuel_digits. Qed.

Lemma digits_nonempty z : digits z ≠ [].
Proof.
  unfold digits. simpl. destruct (z <? 10); [done|]. by destruct (digits_fuel _ _).
Qed.

Lemma digits_len z k : (0 < k)%nat → 0 ≤ z < 10 ^ Z.of_nat k → len (digits z) ≤ Z.of_nat k.
Proof.
  intros. unfold len. pose proof (digits_fuel_length (S (Z.to_nat (Z.log2 z))) z k).
  unfold digits. lia.
Qed.

Lemma digits_no_cr l : forallb is_digit l = true → CR ∉ l.
Proof.
  intros Hl Hin. rewrite forallb_forall in Hl.
  apply list_elem_of_In, Hl in Hin. vm_compute in Hin. done.
Qed.

Lemma to_string_nonneg z : 0 ≤ z → to_string z = digits z.
Proof. unfold to_string. intros. destruct (Z.ltb_spec z 0); [lia|done]. Qed.

Lemma to_string_no_cr z : CR ∉ to_string z.
Proof.
  unfold to_string. destruct (Z.ltb_spec z 0).
  - simpl. rewrite not_elem_of_cons. split; [done|].
    apply digits_no_cr, digits_digits. lia.
  - by apply digits_no_cr, digits_digits.
Qed.

#[export] Hint Resolve digits_nonempty digits_digits to_string_no_cr : kv.
