(* ===== verification/Parser.v ===== *)
(** * RESP2 request parser

    Models [src/include/kvstore/protocol/command.hpp],
    [src/include/kvstore/protocol/parser.hpp] and
    [src/src/protocol/parser.cpp].  The parser indexes a string view; every
    index and every [substr] of the code is a partial operation here ([None]
    when out of range), so that "never reads beyond the available input" is a
    theorem ([parse_command_defined]) and not an assumption. *)
From S2P Require Import Prelude Decimal.

(** ** command.hpp *)
Inductive CommandType := kPing | kSet | kGet | kDel | kExists | kExpire | kTtl.

Record Command := mkCommand {
  cmd_type : CommandType;
  cmd_key : bytes;
  cmd_value : bytes;
  cmd_seconds : Z;  (* std::chrono::seconds: a signed 64-bit count *)
}.

#[export] Instance CommandType_eq_dec : EqDecision CommandType.
Proof. solve_decision. Defined.
#[export] Instance Command_eq_dec : EqDecision Command.
Proof. solve_decision. Defined.

(** ** parser.hpp *)
Inductive ProtocolErrorCategory :=
  | kMalformedFrame | kFieldTooLarge | kWrongArity | kUnknownCommand | kInvalidInteger.

Record ProtocolError := mkProtocolError {
  category : ProtocolErrorCategory;
  message : bytes;
  recoverable : bool;
  err_consumed_bytes : Z;
}.

Inductive ParseResult :=
  | ParsedCommand (command : Command) (consumed_bytes : Z)
  | NeedMoreData
  | ParseError (e : ProtocolError).

#[export] Instance ProtocolErrorCategory_eq_dec : EqDecision ProtocolErrorCategory.
Proof. solve_decision. Defined.
#[export] Instance ProtocolError_eq_dec : EqDecision ProtocolError.
Proof. solve_decision. Defined.
#[export] Instance ParseResult_eq_dec : EqDecision ParseResult.
Proof. solve_decision. Defined.

(** ** parser.cpp: limits *)
Definition kMaxKeyLength : Z := 512.
Definition kMaxValueLength : Z := 1024 * 1024.
Definition kMaxBulkStringLength : Z := kMaxValueLength.
Definition kMaxArrayElements : Z := 3.
Definition kMaxHeaderLineLength : Z := 20.

(** ** parser.cpp: lines and integers *)
Inductive LineStatus := kFound | kNeedMoreData | kTooLong.

Record LineResult := mkLineResult {
  line_status : LineStatus;
  line_content : bytes;
  line_consumed : Z;
}.

Definition read_line (input : bytes) (max_length : Z) : LineResult :=
  match find_crlf input with
  | Some pos =>
      if bool_decide (pos > max_length) then mkLineResult kTooLong [] 0
      else mkLineResult kFound (take (Z.to_nat pos) input) (pos + 2)
  | None =>
      if bool_decide (len input > max_length) then mkLineResult kTooLong [] 0
      else mkLineResult kNeedMoreData [] 0
  end.

(** The loop of [parse_nonnegative_integer]; [value] is an [int64_t]. *)
Fixpoint parse_digits (value : Z) (text : bytes) : option Z :=
  match text with
  | [] => Some value
  | c :: text =>
      if (code c <? 48) || (code c >? 57) then None
      else
        let digit := code c - 48 in
        if value >? Z.quot (INT64_MAX - digit) 10 then None  (* overflow *)
        else parse_digits (i64 (i64 (value * 10) + digit)) text
  end.

Definition parse_nonnegative_integer (text : bytes) : option Z :=
  match text with
  | [] => None
  | _ => parse_digits 0 text
  end.

Definition to_upper_ascii (text : bytes) : bytes :=
  (λ c, if (97 <=? code c) && (code c <=? 122) then chr (code c - 97 + 65) else c) <$> text.

(** ** parser.cpp, phase 1: multi-bulk framing *)
Inductive FrameResult :=
  | FrameArgs (args : list bytes) (consumed_bytes : Z)
  | FrameNeedMoreData
  | FrameError (e : ProtocolError).

Definition malformed (msg : string) : FrameResult :=
  FrameError (mkProtocolError kMalformedFrame (lit msg) false 0).

(** The loop over the declared [array_len] bulk strings; [todo] elements are
    still to be read at offset [consumed]. *)
Fixpoint read_bulk_strings (input : bytes) (todo : nat) (consumed : Z) (args : list bytes)
    : option FrameResult :=
  match todo with
  | O => Some (FrameArgs args consumed)
  | S todo =>
      if bool_decide (consumed >= len input) then Some FrameNeedMoreData else
      c ← char_at input consumed;
      if bool_decide (c ≠ "$"%char) then Some (malformed "expected bulk string ('$')") else
      rest ← substr input (consumed + 1);
      let bulk_header := read_line rest kMaxHeaderLineLength in
      match line_status bulk_header with
      | kNeedMoreData => Some FrameNeedMoreData
      | kTooLong => Some (malformed "bulk string length header too long")
      | kFound =>
          match parse_nonnegative_integer (line_content bulk_header) with
          | None => Some (malformed "invalid bulk string length")
          | Some bulk_len =>
              if bool_decide (bulk_len > kMaxBulkStringLength) then
                Some (FrameError (mkProtocolError kFieldTooLarge
                  (lit "bulk string exceeds the maximum field size") false 0))
              else
                let consumed := consumed + (1 + line_consumed bulk_header) in
                if bool_decide (len input < consumed + bulk_len + 2) then Some FrameNeedMoreData
                else
                  cr ← char_at input (consumed + bulk_len);
                  lf ← char_at input (consumed + bulk_len + 1);
                  if bool_decide (cr ≠ CR ∨ lf ≠ LF) then
                    Some (malformed "bulk string missing terminator")
                  else
                    body ← substr_n input consumed bulk_len;
                    read_bulk_strings input todo (consumed + (bulk_len + 2)) (args ++ [body])
          end
      end
  end.

Definition read_multibulk_frame (input : bytes) : option FrameResult :=
  if bool_decide (input = []) then Some FrameNeedMoreData else
  c ← char_at input 0;
  if bool_decide (c ≠ "*"%char) then Some (malformed "expected RESP array ('*')") else
  rest ← substr input 1;
  let array_header := read_line rest kMaxHeaderLineLength in
  match line_status array_header with
  | kNeedMoreData => Some FrameNeedMoreData
  | kTooLong => Some (malformed "array length header too long")
  | kFound =>
      match parse_nonnegative_integer (line_content array_header) with
      | None => Some (malformed "invalid array length")
      | Some array_len =>
          if bool_decide (array_len > kMaxArrayElements) then
            Some (malformed "too many command arguments")
          else
            read_bulk_strings input (Z.to_nat array_len) (1 + line_consumed array_header) []
      end
  end.

(** ** parser.cpp, phase 2: command validation *)
Record SemanticError := mkSemanticError {
  sem_category : ProtocolErrorCategory;
  sem_message : bytes;
}.

Definition arity_error (name : bytes) : SemanticError :=
  mkSemanticError kWrongArity
    (lit "ERR wrong number of arguments for '" ++ name ++ lit "' command").

Definition check_key_length (key : bytes) : option SemanticError :=
  if bool_decide (len key > kMaxKeyLength) then
    Some (mkSemanticError kFieldTooLarge (lit "ERR key exceeds maximum size"))
  else None.

Definition build_command (args : list bytes) : Command + SemanticError :=
  match args with
  | [] => inr (mkSemanticError kUnknownCommand (lit "ERR unknown command ''"))
  | arg0 :: _ =>
      let name := to_upper_ascii arg0 in
      if bool_decide (name = lit "PING") then
        match args with
        | [_] => inl (mkCommand kPing [] [] 0)
        | _ => inr (arity_error name)
        end
      else if bool_decide (name = lit "SET") then
        match args with
        | [_; arg1; arg2] =>
            match check_key_length arg1 with
            | Some err => inr err
            | None =>
                if bool_decide (len arg2 > kMaxValueLength) then
                  inr (mkSemanticError kFieldTooLarge (lit "ERR value exceeds maximum size"))
                else inl (mkCommand kSet arg1 arg2 0)
            end
        | _ => inr (arity_error name)
        end
      else if bool_decide (name = lit "GET") then
        match args with
        | [_; arg1] =>
            match check_key_length arg1 with
            | Some err => inr err
            | None => inl (mkCommand kGet arg1 [] 0)
            end
        | _ => inr (arity_error name)
        end
      else if bool_decide (name = lit "DEL") then
        match args with
        | [_; arg1] =>
            match check_key_length arg1 with
            | Some err => inr err
            | None => inl (mkCommand kDel arg1 [] 0)
            end
        | _ => inr (arity_error name)
        end
      else if bool_decide (name = lit "EXISTS") then
        match args with
        | [_; arg1] =>
            match check_key_length arg1 with
            | Some err => inr err
            | None => inl (mkCommand kExists arg1 [] 0)
            end
        | _ => inr (arity_error name)
        end
      else if bool_decide (name = lit "EXPIRE") then
        match args with
        | [_; arg1; arg2] =>
            match check_key_length arg1 with
            | Some err => inr err
            | None =>
                match parse_nonnegative_integer arg2 with
                | None =>
                    inr (mkSemanticError kInvalidInteger
                      (lit "ERR value is not an integer or out of range"))
                | Some seconds => inl (mkCommand kExpire arg1 [] seconds)
                end
            end
        | _ => inr (arity_error name)
        end
      else if bool_decide (name = lit "TTL") then
        match args with
        | [_; arg1] =>
            match check_key_length arg1 with
            | Some err => inr err
            | None => inl (mkCommand kTtl arg1 [] 0)
            end
        | _ => inr (arity_error name)
        end
      else
        inr (mkSemanticError kUnknownCommand (lit "ERR unknown command '" ++ arg0 ++ lit "'"))
  end.

Definition parse_command (input : bytes) : option ParseResult :=
  frame ← read_multibulk_frame input;
  match frame with
  | FrameNeedMoreData => Some NeedMoreData
  | FrameError e => Some (ParseError e)
  | FrameArgs args consumed =>
      match build_command args with
      | inr error =>
          Some (ParseError (mkProtocolError (sem_category error) (sem_message error) true consumed))
      | inl command => Some (ParsedCommand command consumed)
      end
  end.

(** ** The wire grammar

    A header is a nonempty digit string of at most twenty characters; a bulk
    string is ['$'], the header of its length, CR LF, the body, CR LF; a frame
    is ['*'], the header of the number of elements, CR LF, the elements. *)
Definition header (h : bytes) (n : Z) : Prop :=
  h ≠ [] ∧ forallb is_digit h = true ∧ len h ≤ kMaxHeaderLineLength ∧ dec_value h = n.

Definition bulk_frame (body f : bytes) : Prop :=
  ∃ h, header h (len body) ∧ len body ≤ kMaxBulkStringLength ∧
    f = lit "$" ++ h ++ crlf ++ body ++ crlf.

Definition frame (args : list bytes) (f : bytes) : Prop :=
  ∃ h fs, header h (len args) ∧ len args ≤ kMaxArrayElements ∧
    Forall2 bulk_frame args fs ∧ f = lit "*" ++ h ++ crlf ++ concat fs.

(** One element read from the front of the unread bytes: the reference for
    one iteration of the index-based loop. *)
Inductive Bulk :=
  | BulkOk (body : bytes) (used : Z)
  | BulkNeed
  | BulkError (e : ProtocolError).

Definition next_bulk (rest : bytes) : Bulk :=
  match rest with
  | [] => BulkNeed
  | c :: t =>
      if bool_decide (c ≠ "$"%char) then
        BulkError (mkProtocolError kMalformedFrame (lit "expected bulk string ('$')") false 0)
      else
        let l := read_line t kMaxHeaderLineLength in
        match line_status l with
        | kNeedMoreData => BulkNeed
        | kTooLong => BulkError (mkProtocolError kMalformedFrame
                        (lit "bulk string length header too long") false 0)
        | kFound =>
            match parse_nonnegative_integer (line_content l) with
            | None => BulkError (mkProtocolError kMalformedFrame
                        (lit "invalid bulk string length") false 0)
            | Some n =>
                if bool_decide (n > kMaxBulkStringLength) then
                  BulkError (mkProtocolError kFieldTooLarge
                    (lit "bulk string exceeds the maximum field size") false 0)
                else
                  let t' := drop (Z.to_nat (line_consumed l)) t in
                  if bool_decide (len t' < n + 2) then BulkNeed
                  else if bool_decide (take 2 (drop (Z.to_nat n) t') = crlf) then
                    BulkOk (take (Z.to_nat n) t') (1 + line_consumed l + n + 2)
                  else BulkError (mkProtocolError kMalformedFrame
                         (lit "bulk string missing terminator") false 0)
            end
        end
  end.

(** ** Lines *)
Lemma read_line_found s m l :
  read_line s m = l → line_status l = kFound →
  ∃ rest, s = line_content l ++ crlf ++ rest ∧
    line_consumed l = len (line_content l) + 2 ∧ len (line_content l) ≤ m ∧
    drop (Z.to_nat (line_consumed l)) s = rest.
Proof.
  intros <-. unfold read_line. destruct (find_crlf s) as [pos|] eqn:E.
  2: { by case_bool_decide. }
  case_bool_decide; [done|]. intros _. simpl.
  apply find_crlf_split in E as (a & b & -> & <-). exists b.
  rewrite take_app_len. repeat split; [lia|].
  replace (a ++ crlf ++ b) with ((a ++ crlf) ++ b) by by rewrite <-app_assoc.
  replace (len a + 2) with (len (a ++ crlf)) by (unfold crlf; len_lia).
  apply drop_app_len.
Qed.

Lemma read_line_intro h rest m :
  CR ∉ h → len h ≤ m →
  read_line (h ++ crlf ++ rest) m = mkLineResult kFound h (len h + 2).
Proof.
  intros Hcr Hm. unfold read_line. rewrite find_crlf_line by done.
  rewrite bool_decide_false by lia. by rewrite take_app_len.
Qed.

(** ** Integers *)
Lemma parse_digits_spec v l :
  0 ≤ v ≤ INT64_MAX →
  parse_digits v l =
    if forallb is_digit l && (dec_from v l <=? INT64_MAX) then Some (dec_from v l) else None.
Proof.
  revert v. induction l as [|c l IH]; intros v Hv; simpl.
  { unfold dec_from. simpl. destruct (Z.leb_spec v INT64_MAX); [done|lia]. }
  unfold is_digit at 1. rewrite Z.gtb_ltb.
  destruct (Z.ltb_spec (code c) 48), (Z.ltb_spec 57 (code c)), (Z.leb_spec 48 (code c)),
    (Z.leb_spec (code c) 57); simpl; try lia; try done.
  change (dec_from v (c :: l)) with (dec_from (v * 10 + digit_value c) l).
  fold (digit_value c). assert (0 ≤ digit_value c < 10) by (unfold digit_value; lia).
  rewrite Z.quot_div_nonneg by (unfold INT64_MAX; lia).
  rewrite Z.gtb_ltb. destruct (Z.ltb_spec ((INT64_MAX - digit_value c) / 10) v) as [Hlt|Hle].
  - assert (INT64_MAX < v * 10 + digit_value c).
    { apply Z.nle_gt. intros ?. assert (v ≤ (INT64_MAX - digit_value c) / 10); [|lia].
      apply Z.div_le_lower_bound; lia. }
    destruct (forallb is_digit l) eqn:El; simpl; [|done].
    pose proof (dec_from_ge (v * 10 + digit_value c) l ltac:(lia) El).
    destruct (Z.leb_spec (dec_from (v * 10 + digit_value c) l) INT64_MAX); [lia|done].
  - assert (v * 10 + digit_value c ≤ INT64_MAX).
    { pose proof (Z.mul_div_le (INT64_MAX - digit_value c) 10). lia. }
    assert (in_i64 (v * 10)) by (unfold in_i64, INT64_MIN, INT64_MAX in *; lia).
    assert (in_i64 (v * 10 + digit_value c)) by (unfold in_i64, INT64_MIN, INT64_MAX in *; lia).
    rewrite (i64_small (v * 10)), i64_small by done. apply IH. lia.
Qed.

Lemma parse_nonneg_spec text :
  parse_nonnegative_integer text =
    if bool_decide (text ≠ []) && forallb is_digit text && (dec_value text <=? INT64_MAX)
    then Some (dec_value text) else None.
Proof.
  destruct text as [|c l]; [done|]. unfold parse_nonnegative_integer.
  rewrite parse_digits_spec by (unfold INT64_MAX; lia). done.
Qed.

Lemma parse_nonneg_header h n :
  header h n → n ≤ INT64_MAX → parse_nonnegative_integer h = Some n.
Proof.
  intros (? & Hd & _ & <-) ?. rewrite parse_nonneg_spec, bool_decide_true, Hd by done.
  simpl. destruct (Z.leb_spec (dec_value h) INT64_MAX); [done|lia].
Qed.

Lemma parse_nonneg_Some text n :
  parse_nonnegative_integer text = Some n →
  text ≠ [] ∧ forallb is_digit text = true ∧ dec_value text = n ∧ 0 ≤ n ≤ INT64_MAX.
Proof.
  rewrite parse_nonneg_spec. case_bool_decide; simpl; [|done].
  destruct (forallb is_digit text) eqn:E; simpl; [|done].
  destruct (Z.leb_spec (dec_value text) INT64_MAX); [|done]. intros [= <-].
  pose proof (dec_from_ge 0 text ltac:(lia) E). unfold dec_value in *. naive_solver lia.
Qed.

Lemma digits_header n : 0 ≤ n < 10 ^ 20 → header (digits n) n.
Proof.
  intros [Hn ?]. unfold header. split_and!; [auto with kv|auto with kv| |by apply digits_value].
  apply (digits_len n 20); simpl; lia.
Qed.

Lemma header_no_cr h n : header h n → CR ∉ h.
Proof. intros (_ & Hd & _). by apply digits_no_cr. Qed.

Lemma header_line h n rest :
  header h n → read_line (h ++ crlf ++ rest) kMaxHeaderLineLength = mkLineResult kFound h (len h + 2).
Proof. intros Hh. apply read_line_intro; [by eapply header_no_cr|]. apply Hh. Qed.

(** ** One element *)
Lemma next_bulk_intro body f rest :
  bulk_frame body f → next_bulk (f ++ rest) = BulkOk body (len f).
Proof.
  intros (h & Hh & Hlen & ->). change (lit "$") with ["$"%char].
  rewrite <-!app_assoc. cbn [app next_bulk]. rewrite bool_decide_false by naive_solver.
  rewrite (header_line h (len body)) by done. cbn [line_status line_content line_consumed].
  rewrite (parse_nonneg_header h (len body)) by (done || (unfold kMaxBulkStringLength,
    kMaxValueLength, INT64_MAX in *; lia)).
  rewrite bool_decide_false by lia.
  replace (drop (Z.to_nat (len h + 2)) (h ++ crlf ++ body ++ crlf ++ rest))
    with (body ++ crlf ++ rest).
  2: { rewrite (app_assoc h crlf). replace (len h + 2) with (len (h ++ crlf)) by (unfold crlf; len_lia).
       by rewrite drop_app_len. }
  rewrite bool_decide_false by (unfold crlf; len_lia).
  rewrite drop_app_len, take_app_len. rewrite bool_decide_true by done.
  f_equal. unfold crlf. len_lia.
Qed.

Lemma next_bulk_elim rest body used :
  next_bulk rest = BulkOk body used →
  ∃ f rest', rest = f ++ rest' ∧ bulk_frame body f ∧ used = len f.
Proof.
  destruct rest as [|c t]; [done|]. unfold next_bulk.
  case_bool_decide as Hc; [done|subst c].
  set (l := read_line t kMaxHeaderLineLength). cbv zeta.
  destruct (line_status l) eqn:Hs; [|done..].
  destruct (read_line_found t _ l eq_refl Hs) as (t' & Ht & Hcons & Hlen & Hdrop).
  destruct (parse_nonnegative_integer (line_content l)) as [n|] eqn:Hn; [|done].
  case_bool_decide; [done|]. rewrite Hdrop. case_bool_decide; [done|].
  case_bool_decide as Hcr; [|done]. intros [= <- <-].
  apply parse_nonneg_Some in Hn as (Hne & Hd & Hv & Hr).
  assert (len (take (Z.to_nat n) t') = n) as Hbody by (rewrite len_take; lia).
  exists (lit "$" ++ line_content l ++ crlf ++ take (Z.to_nat n) t' ++ crlf),
    (drop 2 (drop (Z.to_nat n) t')).
  split_and!.
  - rewrite <-Hcr at 2. rewrite <-!app_assoc. rewrite (take_drop 2), take_drop.
    by rewrite Ht at 1.
  - exists (line_content l). unfold header. rewrite Hbody. split_and!; by (done || lia).
  - rewrite Hcons. change (lit "$") with ["$"%char]. unfold crlf. len_norm. lia.
Qed.

(** One iteration of the loop depends only on the unread bytes. *)
Lemma read_bulk_strings_step pre rest todo args :
  read_bulk_strings (pre ++ rest) (S todo) (len pre) args =
  match next_bulk rest with
  | BulkOk body used => read_bulk_strings (pre ++ rest) todo (len pre + used) (args ++ [body])
  | BulkNeed => Some FrameNeedMoreData
  | BulkError e => Some (FrameError e)
  end.
Proof.
  destruct rest as [|c t].
  { simpl. rewrite bool_decide_true; [done|]. len_lia. }
  cbn [read_bulk_strings next_bulk].
  rewrite bool_decide_false by len_lia.
  rewrite <-(Z.add_0_r (len pre)), char_at_app_r by lia. change (char_at (c :: t) 0) with (Some c).
  cbn [mbind option_bind]. case_bool_decide; [done|].
  rewrite Z.add_0_r, substr_app_r by lia. rewrite substr_Some by len_lia.
  change (drop (Z.to_nat 1) (c :: t)) with t. cbn [mbind option_bind].
  set (l := read_line t kMaxHeaderLineLength). cbv zeta.
  destruct (line_status l) eqn:Hs; [|done..].
  destruct (read_line_found t _ l eq_refl Hs) as (t' & Ht & Hcons & Hlen & Hdrop).
  destruct (parse_nonnegative_integer (line_content l)) as [n|] eqn:Hn; [|done].
  case_bool_decide; [done|]. apply parse_nonneg_Some in Hn as (_ & _ & _ & Hr).
  rewrite Hdrop.
  assert (pre ++ c :: t = (pre ++ [c] ++ line_content l ++ crlf) ++ t') as ->.
  { rewrite Ht at 1. by rewrite <-!app_assoc. }
  set (pre' := pre ++ [c] ++ line_content l ++ crlf).
  assert (len pre + (1 + line_consumed l) = len pre') as ->.
  { unfold pre', crlf. len_lia. }
  replace (bool_decide (len (pre' ++ t') < len pre' + n + 2)) with (bool_decide (len t' < n + 2)).
  2: { apply bool_decide_ext. len_lia. }
  case_bool_decide as Hshort; [done|].
  rewrite <-(Z.add_assoc (len pre') n 1), !char_at_app_r by lia.
  destruct (char_at t' n) as [cr|] eqn:Ecr.
  2: { apply eq_None_not_Some in Ecr. rewrite char_at_Some_iff in Ecr. len_lia. }
  destruct (char_at t' (n + 1)) as [lf|] eqn:Elf.
  2: { apply eq_None_not_Some in Elf. rewrite char_at_Some_iff in Elf. len_lia. }
  cbn [mbind option_bind].
  assert (take 2 (drop (Z.to_nat n) t') = [cr; lf]) as ->.
  { unfold char_at in Ecr, Elf. rewrite bool_decide_true in Ecr, Elf by lia.
    replace (Z.to_nat (n + 1)) with (S (Z.to_nat n)) in Elf by lia.
    rewrite (drop_S _ _ _ Ecr), (drop_S _ _ _ Elf). done. }
  destruct (decide (cr = CR ∧ lf = LF)) as [[-> ->]|Hne].
  2: { rewrite bool_decide_true by (destruct (decide (cr = CR)); naive_solver).
       rewrite bool_decide_false; [done|]. unfold crlf. naive_solver. }
  rewrite bool_decide_false by naive_solver. rewrite bool_decide_true by done.
  unfold substr_n. rewrite <-(Z.add_0_r (len pre')) at 1. rewrite substr_app_r by lia.
  rewrite substr_Some by len_lia. change (drop (Z.to_nat 0) t') with t'. cbn [fmap option_fmap option_map mbind option_bind].
  f_equal. unfold pre', crlf. len_lia.
Qed.

(** ** The loop over the elements *)
Lemma read_bulk_strings_next pre body f rest todo args :
  bulk_frame body f →
  read_bulk_strings (pre ++ f ++ rest) (S todo) (len pre) args =
  read_bulk_strings ((pre ++ f) ++ rest) todo (len (pre ++ f)) (args ++ [body]).
Proof.
  intros Hf. rewrite read_bulk_strings_step, (next_bulk_intro body) by done.
  by rewrite len_app, app_assoc.
Qed.

(** The loop is defined on every input, and it ends in exactly one of three
    ways: all elements read, more bytes needed, or an error that gives up the
    framing. *)
Lemma read_bulk_strings_outcome todo pre rest args :
  match read_bulk_strings (pre ++ rest) todo (len pre) args with
  | Some (FrameArgs args' n) =>
      ∃ new fs rest', args' = args ++ new ∧ length new = todo ∧ Forall2 bulk_frame new fs ∧
        rest = concat fs ++ rest' ∧ n = len pre + len (concat fs)
  | Some FrameNeedMoreData => True
  | Some (FrameError e) => recoverable e = false ∧ err_consumed_bytes e = 0
  | None => False
  end.
Proof.
  revert pre rest args. induction todo as [|todo IH]; intros pre rest args.
  { simpl. exists [], [], rest. rewrite app_nil_r. split_and!; [done..|]. len_lia. }
  rewrite read_bulk_strings_step. destruct (next_bulk rest) as [body used| |e] eqn:E; [|done|].
  2: { revert E. unfold next_bulk. intros E. cases_in E; by repeat case_bool_decide; simplify_eq/=. }
  apply next_bulk_elim in E as (f & rest' & -> & Hf & ->).
  rewrite app_assoc, <-len_app. specialize (IH (pre ++ f) rest' (args ++ [body])).
  destruct (read_bulk_strings _ _ _ _) as [[args' n| |e]|]; [|done..].
  destruct IH as (new & fs & rest'' & -> & <- & Hfs & -> & ->).
  exists (body :: new), (f :: fs), rest''. simpl. rewrite <-!app_assoc.
  split_and!; [done|done|by constructor|done|]. len_lia.
Qed.

Lemma read_bulk_strings_intro new fs pre rest args :
  Forall2 bulk_frame new fs →
  read_bulk_strings (pre ++ concat fs ++ rest) (length new) (len pre) args =
  Some (FrameArgs (args ++ new) (len pre + len (concat fs))).
Proof.
  intros Hfs. revert pre args. induction Hfs as [|body f new fs Hf Hfs IH]; intros pre args.
  { simpl. rewrite app_nil_r. do 2 f_equal. len_lia. }
  cbn [concat length]. rewrite <-app_assoc, (read_bulk_strings_next pre body f) by done.
  rewrite IH. rewrite <-app_assoc. do 2 f_equal. len_lia.
Qed.

(** ** Frames *)
Lemma frame_prefix_step (t : bytes) :
  read_multibulk_frame ("*"%char :: t) =
  match line_status (read_line t kMaxHeaderLineLength) with
  | kNeedMoreData => Some FrameNeedMoreData
  | kTooLong => Some (malformed "array length header too long")
  | kFound =>
      match parse_nonnegative_integer (line_content (read_line t kMaxHeaderLineLength)) with
      | None => Some (malformed "invalid array length")
      | Some n =>
          if bool_decide (n > kMaxArrayElements) then Some (malformed "too many command arguments")
          else read_bulk_strings ("*"%char :: t) (Z.to_nat n)
                 (1 + line_consumed (read_line t kMaxHeaderLineLength)) []
      end
  end.
Proof.
  unfold read_multibulk_frame. rewrite bool_decide_false by done.
  change (char_at ("*"%char :: t) 0) with (Some "*"%char). cbn [mbind option_bind].
  rewrite bool_decide_false by naive_solver. by rewrite substr_Some by len_lia.
Qed.

(** Reading after the array header, as the loop on the bytes that follow it. *)
Lemma frame_after_header h n t :
  header h n → n ≤ kMaxArrayElements →
  read_multibulk_frame (lit "*" ++ h ++ crlf ++ t) =
  read_bulk_strings ((lit "*" ++ h ++ crlf) ++ t) (Z.to_nat n) (len (lit "*" ++ h ++ crlf)) [].
Proof.
  intros Hh Hn. change (lit "*") with ["*"%char]. cbn [app]. rewrite frame_prefix_step.
  rewrite (header_line h n) by done. cbn [line_status line_content line_consumed].
  rewrite (parse_nonneg_header h n) by (done || (unfold kMaxArrayElements, INT64_MAX in *; lia)).
  rewrite bool_decide_false by lia. rewrite <-app_assoc.
  f_equal. unfold crlf. len_lia.
Qed.

Lemma read_frame_intro args f rest :
  frame args f → read_multibulk_frame (f ++ rest) = Some (FrameArgs args (len f)).
Proof.
  intros (h & fs & Hh & Hn & Hfs & ->). rewrite <-!app_assoc.
  rewrite (frame_after_header h (len args)) by done. unfold len at 1. rewrite Nat2Z.id.
  rewrite read_bulk_strings_intro by done. rewrite <-len_app, <-!app_assoc. done.
Qed.

Lemma read_frame_outcome input :
  match read_multibulk_frame input with
  | Some (FrameArgs args n) => ∃ f rest, input = f ++ rest ∧ frame args f ∧ n = len f
  | Some FrameNeedMoreData => True
  | Some (FrameError e) => recoverable e = false ∧ err_consumed_bytes e = 0
  | None => False
  end.
Proof.
  destruct input as [|c t]; [done|]. destruct (decide (c = "*"%char)) as [->|Hc].
  2: { unfold read_multibulk_frame. rewrite bool_decide_false by done.
       change (char_at (c :: t) 0) with (Some c). cbn [mbind option_bind].
       by rewrite bool_decide_true. }
  rewrite frame_prefix_step. set (l := read_line t kMaxHeaderLineLength).
  destruct (line_status l) eqn:Hs; [|done..].
  destruct (read_line_found t _ l eq_refl Hs) as (t' & Ht & Hcons & Hlen & _).
  destruct (parse_nonnegative_integer (line_content l)) as [n|] eqn:Hn; [|done].
  case_bool_decide; [done|]. apply parse_nonneg_Some in Hn as (Hne & Hd & Hv & Hr).
  set (pre := lit "*" ++ line_content l ++ crlf).
  assert ("*"%char :: t = pre ++ t') as -> by (rewrite Ht at 1; unfold pre; by rewrite <-!app_assoc).
  assert (1 + line_consumed l = len pre) as ->.
  { unfold pre, crlf. change (lit "*") with ["*"%char]. len_lia. }
  pose proof (read_bulk_strings_outcome (Z.to_nat n) pre t' []) as Hout.
  destruct (read_bulk_strings _ _ _ _) as [[args used| |e]|]; [|done..].
  destruct Hout as (new & fs & rest & -> & Hnew & Hfs & -> & ->).
  exists (pre ++ concat fs), rest. rewrite <-app_assoc. split_and!; [done| |len_lia].
  exists (line_content l), fs. unfold header, pre. rewrite <-!app_assoc. simpl.
  assert (len new = n) as -> by (unfold len; lia). split_and!; (done || lia).
Qed.

(** ** Bytes still missing

    A header of fewer than twenty digits is recognised as incomplete at every
    split point. *)
Definition short_header (h : bytes) (n : Z) : Prop :=
  header h n ∧ len h < kMaxHeaderLineLength.
Definition short_bulk_frame (body f : bytes) : Prop :=
  ∃ h, short_header h (len body) ∧ len body ≤ kMaxBulkStringLength ∧
    f = lit "$" ++ h ++ crlf ++ body ++ crlf.
Definition short_frame (args : list bytes) (f : bytes) : Prop :=
  ∃ h fs, short_header h (len args) ∧ len args ≤ kMaxArrayElements ∧
    Forall2 short_bulk_frame args fs ∧ f = lit "*" ++ h ++ crlf ++ concat fs.

Lemma short_bulk_frame_frame body f : short_bulk_frame body f → bulk_frame body f.
Proof. intros (h & [Hh _] & ? & ->). by exists h. Qed.

Lemma short_frame_frame args f : short_frame args f → frame args f.
Proof.
  intros (h & fs & [Hh _] & ? & Hfs & ->). exists h, fs. split_and!; [done..| |done].
  eapply Forall2_impl; [done|]. apply short_bulk_frame_frame.
Qed.

(** A strict prefix of [h], CR, LF, [t]: it ends inside the line, or inside [t]. *)
Lemma line_prefix h n p s t :
  short_header h n → p ++ s = h ++ crlf ++ t →
  line_status (read_line p kMaxHeaderLineLength) = kNeedMoreData ∨
  ∃ p', p = h ++ crlf ++ p' ∧ p' ++ s = t.
Proof.
  intros [Hh Hlen] Heq.
  destruct (find_crlf_prefix h p s t) as [[Hf Hp]|?]; [by eapply header_no_cr|done| |by right].
  left. unfold read_line. by rewrite Hf, bool_decide_false by lia.
Qed.

Lemma next_bulk_prefix body f p s :
  short_bulk_frame body f → p ++ s = f → s ≠ [] → next_bulk p = BulkNeed.
Proof.
  intros (h & Hh & Hlen & ->) Heq Hs. destruct p as [|c p]; [done|].
  injection Heq as -> Heq. unfold next_bulk. rewrite bool_decide_false by naive_solver.
  destruct (line_prefix h (len body) p s (body ++ crlf)) as [->|(p' & -> & Heq')]; [done..|].
  rewrite (header_line h (len body)) by apply Hh. cbn [line_status line_content line_consumed].
  rewrite (parse_nonneg_header h (len body)) by (apply Hh || (unfold kMaxBulkStringLength,
    kMaxValueLength, INT64_MAX in *; lia)).
  rewrite bool_decide_false by lia.
  rewrite (app_assoc h). replace (len h + 2) with (len (h ++ crlf)) by (unfold crlf; len_lia).
  rewrite drop_app_len, bool_decide_true; [done|].
  apply (f_equal len) in Heq'. assert (len s ≠ 0) by (by rewrite len_zero_iff).
  unfold crlf in Heq'. len_lia.
Qed.

Lemma read_bulk_strings_prefix new fs pre p s args :
  Forall2 short_bulk_frame new fs → p ++ s = concat fs → s ≠ [] →
  read_bulk_strings (pre ++ p) (length new) (len pre) args = Some FrameNeedMoreData.
Proof.
  intros Hfs. revert pre p args. induction Hfs as [|body f new fs Hf Hfs IH]; intros pre p args Heq Hs.
  { simpl in Heq. by apply app_eq_nil in Heq as [_ ->]. }
  cbn [length]. apply app_eq_inv in Heq as [(k & -> & Hk)|(k & Hk & Heq)].
  - rewrite (read_bulk_strings_next pre body f) by by apply short_bulk_frame_frame.
    by apply IH.
  - destruct (decide (k = [])) as [->|Hne].
    + rewrite app_nil_r in Hk. subst f. rewrite <-(app_nil_r p).
      rewrite (read_bulk_strings_next pre body p) by by apply short_bulk_frame_frame.
      apply IH; [|done]. by rewrite Heq.
    + rewrite read_bulk_strings_step. by rewrite (next_bulk_prefix body f p k).
Qed.

Lemma read_frame_prefix args f p s :
  short_frame args f → p ++ s = f → s ≠ [] → read_multibulk_frame p = Some FrameNeedMoreData.
Proof.
  intros (h & fs & Hh & Hn & Hfs & ->) Heq Hs. destruct p as [|c p]; [done|].
  injection Heq as -> Heq.
  destruct (line_prefix h (len args) p s (concat fs)) as [Hp|(p' & -> & Heq')]; [done..| |].
  - rewrite frame_prefix_step. by rewrite Hp.
  - change ("*"%char :: h ++ crlf ++ p') with (lit "*" ++ h ++ crlf ++ p').
    rewrite (frame_after_header h (len args)) by (apply Hh || done).
    unfold len at 1. rewrite Nat2Z.id. by eapply read_bulk_strings_prefix.
Qed.

(** ** Commands *)
(** What a [Command] built by the parser satisfies. *)
Definition valid_command (c : Command) : Prop :=
  len (cmd_key c) ≤ kMaxKeyLength ∧ len (cmd_value c) ≤ kMaxValueLength ∧
  0 ≤ cmd_seconds c ≤ INT64_MAX ∧
  (cmd_type c = kPing → cmd_key c = []) ∧
  (cmd_type c ≠ kSet → cmd_value c = []) ∧
  (cmd_type c ≠ kExpire → cmd_seconds c = 0).

(** The canonical request for a command. *)
Definition request_args (c : Command) : list bytes :=
  match cmd_type c with
  | kPing => [lit "PING"]
  | kSet => [lit "SET"; cmd_key c; cmd_value c]
  | kGet => [lit "GET"; cmd_key c]
  | kDel => [lit "DEL"; cmd_key c]
  | kExists => [lit "EXISTS"; cmd_key c]
  | kExpire => [lit "EXPIRE"; cmd_key c; digits (cmd_seconds c)]
  | kTtl => [lit "TTL"; cmd_key c]
  end.

Lemma check_key_length_None k : check_key_length k = None ↔ len k ≤ kMaxKeyLength.
Proof. unfold check_key_length. case_bool_decide; split; (done || lia). Qed.

Lemma build_command_valid args c : build_command args = inl c → valid_command c.
Proof.
  unfold build_command, valid_command. intros H. cases_in H;
    repeat match goal with
    | E : check_key_length _ = None |- _ => apply check_key_length_None in E
    | E : parse_nonnegative_integer _ = Some _ |- _ => apply parse_nonneg_Some in E
    | E : bool_decide _ = false |- _ => apply bool_decide_eq_false in E
    end; unfold kMaxKeyLength, kMaxValueLength, INT64_MAX in *; split_and!; try done; try lia.
Qed.

Lemma build_command_request c : valid_command c → build_command (request_args c) = inl c.
Proof.
  destruct c as [t k v s]. intros (Hk & Hv & Hs & H1 & H2 & H3); simpl in *.
  assert (check_key_length k = None) as Hck by by apply check_key_length_None.
  assert (parse_nonnegative_integer (digits s) = Some s) as Hps.
  { apply parse_nonneg_header; [apply digits_header|]; unfold INT64_MAX in *; lia. }
  destruct t; cbn [request_args cmd_type cmd_key cmd_value cmd_seconds];
    unfold build_command; rewrite ?Hck, ?Hps;
    repeat match goal with
    | |- context [bool_decide (to_upper_ascii ?a = ?b)] =>
        let r := eval vm_compute in (bool_decide (to_upper_ascii a = b)) in
        change (bool_decide (to_upper_ascii a = b)) with r
    end; cbn iota;
    rewrite ?H1, ?H2, ?H3 by done; try done.
  rewrite bool_decide_false by (unfold kMaxValueLength in *; lia). done.
Qed.

(** ** Properties *)

Lemma parse_command_grammar_intro args f rest c input :
  input = f ++ rest → frame args f → build_command args = inl c → parse_command input = Some (ParsedCommand c (len f)).
Proof. intros -> Hf E. unfold parse_command. rewrite (read_frame_intro args) by done. cbn [mbind option_bind]. by rewrite E. Qed.

(** C7. The parser accepts exactly the frames of the wire grammar: it returns
    a command and a byte count if and only if the input starts with a frame
    whose arguments validate to that command, and the count is the length of
    the frame. *)
Theorem parse_command_grammar input c n :
  parse_command input = Some (ParsedCommand c n) ↔
  ∃ args f rest, input = f ++ rest ∧ frame args f ∧ build_command args = inl c ∧ n = len f.
Proof.
  unfold parse_command. split.
  - pose proof (read_frame_outcome input) as Hout.
    destruct (read_multibulk_frame input) as [[args used| |e]|]; [|done..].
    cbn [mbind option_bind]. destruct Hout as (f & rest & -> & Hf & ->).
    destruct (build_command args) eqn:E; [|done]. intros [= <- <-]. by exists args, f, rest.
  - intros (args & f & rest & -> & Hf & E & ->). by apply (parse_command_grammar_intro args f rest).
Qed.

(** C26. The parser is defined on every input (no index and no [substr] of it
    is ever out of range), a reported byte count is positive and never beyond
    the buffered input, and an error is recoverable exactly when its byte
    count says where the next frame starts. *)
Theorem parse_command_defined input :
  ∃ r, parse_command input = Some r ∧
    match r with
    | ParsedCommand c n => 0 < n ≤ len input ∧ valid_command c
    | NeedMoreData => True
    | ParseError e =>
        if recoverable e then 0 < err_consumed_bytes e ≤ len input
        else err_consumed_bytes e = 0
    end.
Proof.
  unfold parse_command. pose proof (read_frame_outcome input) as Hout.
  destruct (read_multibulk_frame input) as [[args used| |e]|]; cbn [mbind option_bind]; [| | |done].
  - destruct Hout as (f & rest & -> & (h & fs & _ & _ & _ & ->) & ->).
    change (lit "*") with ["*"%char].
    destruct (build_command args) as [c|err] eqn:E; eexists; (split; [done|]); simpl;
      [split; [len_lia|by eapply build_command_valid]|len_lia].
  - by eexists.
  - destruct Hout as [Hr Hc]. eexists. split; [done|]. simpl. by rewrite Hr.
Qed.

(** Fragmentation: a result that consumes a frame does not change when
    more bytes arrive behind it, so pipelined frames are read one by one. *)
Theorem parse_command_stable input more r :
  parse_command input = Some r →
  match r with
  | ParsedCommand _ _ => True
  | NeedMoreData => False
  | ParseError e => recoverable e = true
  end →
  parse_command (input ++ more) = Some r.
Proof.
  unfold parse_command. pose proof (read_frame_outcome input) as Hout.
  destruct (read_multibulk_frame input) as [[args used| |e]|]; cbn [mbind option_bind]; [| | |done].
  - destruct Hout as (f & rest & -> & Hf & ->). rewrite <-app_assoc.
    by rewrite (read_frame_intro args).
  - by intros [= <-].
  - destruct Hout as [Hr Hc]. intros [= <-]. by rewrite Hr.
Qed.

(** Fragmentation: every strict prefix of a frame whose length headers
    have fewer than twenty digits is reported as incomplete, never as an
    error. *)
Theorem parse_command_prefix args f p s :
  short_frame args f → p ++ s = f → s ≠ [] → parse_command p = Some NeedMoreData.
Proof. intros. unfold parse_command. by rewrite (read_frame_prefix args f p s). Qed.

(** The length and [seconds] reader accepts exactly the nonempty strings
    of ASCII digits whose value fits a signed 64-bit integer, and returns that
    value: its overflow guard is exact, and its arithmetic never wraps. *)
Theorem parse_nonnegative_integer_correct text n :
  parse_nonnegative_integer text = Some n ↔
  text ≠ [] ∧ forallb is_digit text = true ∧ dec_value text = n ∧ n ≤ INT64_MAX.
Proof.
  split.
  - intros H%parse_nonneg_Some. naive_solver.
  - intros (? & Hd & <- & ?). rewrite parse_nonneg_spec, bool_decide_true, Hd by done.
    simpl. destruct (Z.leb_spec (dec_value text) INT64_MAX); [done|lia].
Qed.

(** C37. A header of exactly twenty digits is judged by where the network
    splits the bytes.  Take any frame whose array header has twenty digits.  The
    whole frame is parsed.  Cut inside the header line, the parser waits for
    more data, as it should, at every place but one: when the buffer ends
    between the CR and the LF of the header, the CR is counted as content and
    the same frame is a fatal framing error. *)
Theorem header_split_changes_result args h fs c :
  header h (len args) → len h = 20 → len args ≤ kMaxArrayElements → Forall2 bulk_frame args fs →
  build_command args = inl c →
  let f := lit "*" ++ h ++ crlf ++ concat fs in
  parse_command f = Some (ParsedCommand c (len f)) ∧
  parse_command (lit "*" ++ h ++ [CR]) =
    Some (ParseError (mkProtocolError kMalformedFrame (lit "array length header too long") false 0)) ∧
  ∀ p s, p ++ s = lit "*" ++ h → parse_command p = Some NeedMoreData.
Proof.
  intros Hh Hlen Hn Hfs Hc f. assert (CR ∉ h) as Hcr by (by eapply header_no_cr).
  assert (find_crlf (h ++ [CR]) = None) as Hf by (rewrite find_crlf_no_cr_app by done; done).
  split_and!.
  - apply parse_command_grammar_intro with (args := args) (rest := []); [by rewrite app_nil_r| |done].
    by exists h, fs.
  - unfold parse_command. change (lit "*" ++ h ++ [CR]) with ("*"%char :: h ++ [CR]). rewrite frame_prefix_step.
    unfold read_line. rewrite Hf, bool_decide_true; [done|]. rewrite len_app, Hlen. by vm_compute.
  - intros p s Hp. destruct p as [|ch p]; [done|]. injection Hp as -> Hp. unfold parse_command. rewrite frame_prefix_step.
    assert (find_crlf p = None) as Hf' by (apply find_crlf_no_cr; rewrite <-Hp in Hcr; set_solver).
    unfold read_line. rewrite Hf', bool_decide_false; [done|]. rewrite <-Hp in Hlen.
    rewrite len_app in Hlen. unfold kMaxHeaderLineLength. len_lia.
Qed.

(** ** Witnesses *)
Definition ping_frame : bytes := lit "*1" ++ crlf ++ lit "$4" ++ crlf ++ lit "PING" ++ crlf.

Lemma ping_short_frame : short_frame [lit "PING"] ping_frame.
Proof.
  exists (lit "1"), [lit "$4" ++ crlf ++ lit "PING" ++ crlf].
  unfold short_header, header. split_and!; try done.
  constructor; [|done]. exists (lit "4"). unfold short_header, header. by split_and!.
Qed.

Lemma header_split_changes_result_witness :
  let h := replicate 19 "0"%char ++ lit "1" in
  parse_command (lit "*" ++ h ++ crlf ++ lit "$4" ++ crlf ++ lit "PING" ++ crlf) =
    Some (ParsedCommand (mkCommand kPing [] [] 0) 33) ∧
  parse_command (lit "*" ++ h ++ [CR]) =
    Some (ParseError (mkProtocolError kMalformedFrame (lit "array length header too long") false 0)).
Proof.
  intros h.
  destruct (header_split_changes_result [lit "PING"] h [lit "$4" ++ crlf ++ lit "PING" ++ crlf] (mkCommand kPing [] [] 0))
    as (H1 & H2 & _).
  - by vm_compute.
  - reflexivity.
  - by vm_compute.
  - constructor; [|constructor]. exists (lit "4"). unfold header. by split_and!.
  - reflexivity.
  - split; [exact H1|exact H2].
Defined.

Lemma parse_command_stable_witness :
  parse_command (ping_frame ++ lit "*") = Some (ParsedCommand (mkCommand kPing [] [] 0) 14).
Proof.
  apply (parse_command_stable ping_frame (lit "*") (ParsedCommand (mkCommand kPing [] [] 0) 14));
    [vm_compute; reflexivity|exact I].
Defined.

Lemma parse_command_prefix_witness : parse_command (lit "*1" ++ [CR]) = Some NeedMoreData.
Proof.
  apply (parse_command_prefix [lit "PING"] ping_frame (lit "*1" ++ [CR])
    ([LF] ++ lit "$4" ++ crlf ++ lit "PING" ++ crlf));
    [apply ping_short_frame|reflexivity|discriminate].
Defined.
