(* ===== verification/Serializer.v ===== *)
(** * RESP2 replies

    Models [src/src/protocol/serializer.cpp].  The encoders are checked
    against a reference decoder of the five RESP2 reply types. *)
From S2P Require Import Prelude Decimal.

Definition encode_simple_string (value : bytes) : bytes := lit "+" ++ value ++ crlf.
Definition encode_error (message : bytes) : bytes := lit "-" ++ message ++ crlf.
Definition encode_integer (value : Z) : bytes := lit ":" ++ to_string value ++ crlf.
Definition encode_bulk_string (value : bytes) : bytes :=
  lit "$" ++ to_string (len value) ++ crlf ++ value ++ crlf.
Definition encode_null_bulk_string : bytes := lit "$-1" ++ crlf.

(** ** Reference decoder *)
Inductive Reply :=
  | SimpleReply (s : bytes)
  | ErrorReply (s : bytes)
  | IntegerReply (z : Z)
  | BulkReply (s : bytes)
  | NullReply.

#[export] Instance Reply_eq_dec : EqDecision Reply.
Proof. solve_decision. Defined.

(** The reply as the server writes it. *)
Definition encode_reply (r : Reply) : bytes :=
  match r with
  | SimpleReply s => encode_simple_string s
  | ErrorReply s => encode_error s
  | IntegerReply z => encode_integer z
  | BulkReply s => encode_bulk_string s
  | NullReply => encode_null_bulk_string
  end.

Definition decode_number (t : bytes) : Z :=
  match t with
  | c :: u => if bool_decide (c = "-"%char) then - dec_value u else dec_value t
  | [] => 0
  end.

(** One reply and the bytes behind it, as RESP2 reads them: the type byte, a
    line, and for a bulk string with a nonnegative length the body. *)
Definition decode_typed (c : ascii) (line rest : bytes) : option (Reply * bytes) :=
  if bool_decide (c = "+"%char) then Some (SimpleReply line, rest)
  else if bool_decide (c = "-"%char) then Some (ErrorReply line, rest)
  else if bool_decide (c = ":"%char) then Some (IntegerReply (decode_number line), rest)
  else if bool_decide (c = "$"%char) then
    let n := decode_number line in
    if bool_decide (n < 0) then Some (NullReply, rest)
    else if bool_decide (n + 2 ≤ len rest) then
      Some (BulkReply (take (Z.to_nat n) rest), drop (Z.to_nat (n + 2)) rest)
    else None
  else None.

Definition decode_reply (input : bytes) : option (Reply * bytes) :=
  match input with
  | [] => None
  | c :: t =>
      pos ← find_crlf t;
      decode_typed c (take (Z.to_nat pos) t) (drop (Z.to_nat (pos + 2)) t)
  end.

(** The content a line-based reply may carry. *)
Definition reply_safe (r : Reply) : Prop :=
  match r with
  | SimpleReply s | ErrorReply s => CR ∉ s
  | _ => True
  end.

(** A reply that decodes to itself whatever follows it. *)
Definition self_delimiting (b : bytes) (r : Reply) : Prop :=
  ∀ rest, decode_reply (b ++ rest) = Some (r, rest).

Lemma decode_number_to_string z : decode_number (to_string z) = z.
Proof.
  unfold to_string. destruct (Z.ltb_spec z 0) as [Hz|Hz].
  - simpl. rewrite digits_value; lia.
  - pose proof (digits_digits z Hz) as Hd. pose proof (digits_nonempty z) as Hne.
    pose proof (digits_value z Hz) as Hv.
    destruct (digits z) as [|c u]; [done|]. cbn [decode_number].
    rewrite bool_decide_false; [done|]. intros ->. done.
Qed.

Lemma decode_line c line rest :
  CR ∉ line → decode_reply (c :: line ++ crlf ++ rest) = decode_typed c line rest.
Proof.
  intros Hcr. cbn [decode_reply]. rewrite find_crlf_line by done. cbn [mbind option_bind].
  rewrite take_app_len, app_assoc.
  replace (len line + 2) with (len (line ++ crlf)) by (unfold crlf; len_lia).
  by rewrite drop_app_len.
Qed.

(** Every reply whose line carries no CR is self-delimiting. *)
Lemma encode_reply_self_delimiting r : reply_safe r → self_delimiting (encode_reply r) r.
Proof.
  intros Hsafe rest. destruct r as [s|s|z|s|]; simpl in Hsafe; [| | | |done];
    unfold encode_reply, encode_simple_string, encode_error, encode_integer, encode_bulk_string;
    rewrite <-!app_assoc.
  - by apply (decode_line "+"%char).
  - by apply (decode_line "-"%char).
  - etrans; [apply (decode_line ":"%char); auto with kv|].
    unfold decode_typed. simpl. by rewrite decode_number_to_string.
  - etrans; [apply (decode_line "$"%char); auto with kv|].
    unfold decode_typed. simpl. rewrite decode_number_to_string.
    rewrite bool_decide_false by len_lia. rewrite bool_decide_true by (unfold crlf; len_lia).
    rewrite take_app_len. change (CR :: LF :: rest) with (crlf ++ rest). rewrite app_assoc.
    replace (len s + 2) with (len (s ++ crlf)) by (unfold crlf; len_lia). by rewrite drop_app_len.
Qed.

(** The five encoders are inverted by the RESP2 decoder, which leaves
    exactly the bytes written behind the reply: bulk strings for every
    content (they are binary safe), line replies for content without CR. *)
Theorem encode_reply_roundtrip r rest :
  reply_safe r → decode_reply (encode_reply r ++ rest) = Some (r, rest).
Proof. intros Hr. by apply encode_reply_self_delimiting. Qed.

Lemma encode_reply_roundtrip_witness :
  decode_reply (encode_reply (ErrorReply (lit "ERR x")) ++ lit ":1") =
    Some (ErrorReply (lit "ERR x"), lit ":1") .
Proof.
  apply (encode_reply_roundtrip (ErrorReply (lit "ERR x")) (lit ":1")).
  unfold reply_safe. apply (bool_decide_eq_true_1 _). vm_compute. reflexivity.
Defined.
