(* ===== verification/Client.v ===== *)
(** * The benchmark client's side of the wire

    Models the protocol code of [src/benchmarks/client/kv_bench.cpp]: the
    request encoder [encode_command], and the loop of [send_and_receive] that
    decides when one complete reply has arrived.  The encoder gives the round
    trip with the server's parser; the reply loop gives the round trip with
    the server's encoders. *)
From S2P Require Import Prelude Decimal Parser Serializer.

Definition encode_command (parts : list bytes) : bytes :=
  foldl (λ out part, out ++ lit "$" ++ to_string (len part) ++ crlf ++ part ++ crlf)
    (lit "*" ++ to_string (len parts) ++ crlf) parts.

(** [std::isspace] in the C locale. *)
Definition is_space (c : ascii) : bool :=
  (code c =? 32) || ((9 <=? code c) && (code c <=? 13)).

Fixpoint skip_space (s : bytes) : bytes :=
  match s with
  | c :: t => if is_space c then skip_space t else s
  | [] => []
  end.

Fixpoint take_digits (s : bytes) : bytes :=
  match s with
  | c :: t => if is_digit c then c :: take_digits t else []
  | [] => []
  end.

(** [std::strtol(s, nullptr, 10)] for a 64-bit [long]: white space, a sign,
    the longest digit string; out of range it saturates. *)
Definition strtol (s : bytes) : Z :=
  let clamp z := Z.max INT64_MIN (Z.min INT64_MAX z) in
  match skip_space s with
  | c :: t =>
      if bool_decide (c = "-"%char) then clamp (- dec_value (take_digits t))
      else if bool_decide (c = "+"%char) then clamp (dec_value (take_digits t))
      else clamp (dec_value (take_digits (c :: t)))
  | [] => 0
  end.

(** What one round of the receive loop decides about the bytes so far. *)
Inductive Scan := ScanDone | ScanContinue | ScanFail.

Definition scan_reply (buffer : bytes) : Scan :=
  match buffer with
  | [] => ScanContinue
  | type :: tail =>
      if bool_decide (type = "+"%char ∨ type = "-"%char ∨ type = ":"%char) then
        match find_crlf buffer with Some _ => ScanDone | None => ScanContinue end
      else if bool_decide (type = "$"%char) then
        match find_crlf buffer with
        | None => ScanContinue
        | Some header_end =>
            let length := strtol tail in
            if bool_decide (length < 0) then ScanDone
            else
              let total := header_end + 2 + length + 2 in
              if bool_decide (len buffer >= total) then ScanDone else ScanContinue
        end
      else ScanFail
  end.

(** The receive loop over what [::recv] returns: [None] for an error or end of
    file ([n <= 0]), [Some chunk] for data.  The result is [None] when the
    recorded outcomes end before the loop does, that is, while it waits. *)
Fixpoint receive_loop (buffer : bytes) (recvs : list (option bytes)) : option (bool * bytes) :=
  match recvs with
  | [] => None
  | None :: _ => Some (false, buffer)
  | Some chunk :: recvs =>
      let buffer := buffer ++ chunk in
      match scan_reply buffer with
      | ScanDone => Some (true, buffer)
      | ScanFail => Some (false, buffer)
      | ScanContinue => receive_loop buffer recvs
      end
  end.

Definition bench_key (index : Z) : bytes := lit "bench:" ++ to_string index.

(** ** The encoder produces frames of the grammar *)
Definition encode_bulk (part : bytes) : bytes :=
  lit "$" ++ to_string (len part) ++ crlf ++ part ++ crlf.

Lemma encode_parts_concat acc parts :
  foldl (λ out part, out ++ lit "$" ++ to_string (len part) ++ crlf ++ part ++ crlf) acc parts =
  acc ++ concat (encode_bulk <$> parts).
Proof.
  revert acc. induction parts as [|p parts IH]; intros acc.
  { by rewrite app_nil_r. }
  rewrite fmap_cons. cbn [foldl concat]. rewrite IH. unfold encode_bulk. by rewrite <-!app_assoc.
Qed.

Lemma encode_command_concat parts :
  encode_command parts = lit "*" ++ to_string (len parts) ++ crlf ++ concat (encode_bulk <$> parts).
Proof. unfold encode_command. rewrite encode_parts_concat. by rewrite <-!app_assoc. Qed.

Lemma to_string_short_header n : 0 ≤ n < 10 ^ 19 → short_header (to_string n) n.
Proof.
  intros Hn. rewrite to_string_nonneg by lia. split; [apply digits_header; lia|].
  pose proof (digits_len n 19 ltac:(lia)). unfold kMaxHeaderLineLength. simpl in *. lia.
Qed.

Lemma encode_command_frame parts :
  len parts ≤ kMaxArrayElements → Forall (λ p, len p ≤ kMaxBulkStringLength) parts →
  short_frame parts (encode_command parts).
Proof.
  intros Hn Hp. exists (to_string (len parts)), (encode_bulk <$> parts). split_and!.
  - apply to_string_short_header. unfold kMaxArrayElements in Hn. len_lia.
  - done.
  - induction Hp as [|p parts Hlen Hp IH]; constructor.
    + exists (to_string (len p)). split_and!; [|done|done]. apply to_string_short_header.
      unfold kMaxBulkStringLength, kMaxValueLength in Hlen. len_lia.
    + apply IH. len_lia.
  - apply encode_command_concat.
Qed.

Lemma request_args_fit c :
  valid_command c →
  len (request_args c) ≤ kMaxArrayElements ∧
  Forall (λ p, len p ≤ kMaxBulkStringLength) (request_args c).
Proof.
  intros (Hk & Hv & Hs & _). unfold kMaxBulkStringLength, kMaxKeyLength, kMaxValueLength in *.
  pose proof (digits_len (cmd_seconds c) 19 ltac:(lia)) as Hd. unfold INT64_MAX in Hs.
  simpl in Hd. unfold request_args.
  destruct (cmd_type c); (split; [done|]); repeat constructor; simpl; lia || done.
Qed.

(** ** The reply loop *)
Lemma take_digits_stop l c t :
  forallb is_digit l = true → is_digit c = false → take_digits (l ++ c :: t) = l.
Proof.
  intros Hl Hc. induction l as [|d l IH]; simpl in *; [by rewrite Hc|].
  apply andb_prop in Hl as [-> Hl]. by rewrite IH.
Qed.

Lemma is_digit_not_space c : is_digit c = true → is_space c = false.
Proof. unfold is_digit, is_space. lia. Qed.

Lemma strtol_length n t :
  0 ≤ n ≤ INT64_MAX → strtol (to_string n ++ crlf ++ t) = n.
Proof.
  intros Hn. rewrite to_string_nonneg by lia.
  pose proof (digits_digits n ltac:(lia)) as Hd. pose proof (digits_value n ltac:(lia)) as Hv.
  assert (Htd : take_digits (digits n ++ crlf ++ t) = digits n) by by apply take_digits_stop.
  pose proof (digits_nonempty n). unfold strtol.
  destruct (digits n) as [|c l]; [done|]. cbn [app] in *. cbn [skip_space].
  pose proof Hd as [Hc _]%andb_prop. rewrite (is_digit_not_space c Hc).
  rewrite !bool_decide_false by (intros ->; done). rewrite Htd, Hv.
  unfold INT64_MIN, INT64_MAX in *. lia.
Qed.

(** The replies the loop can wait for: line content without CR, and a bulk
    length that fits a [long]. *)
Definition reply_fits (r : Reply) : Prop :=
  reply_safe r ∧ match r with BulkReply s => len s ≤ INT64_MAX | _ => True end.

Lemma scan_line_complete c line :
  c = "+"%char ∨ c = "-"%char ∨ c = ":"%char → CR ∉ line →
  scan_reply (c :: line ++ crlf) = ScanDone.
Proof.
  intros Hc Hcr. cbn [scan_reply]. rewrite bool_decide_true by done.
  rewrite <-(app_nil_r crlf), find_crlf_cons_line; [done|naive_solver|done].
Qed.

Lemma scan_line_prefix c line p s :
  c = "+"%char ∨ c = "-"%char ∨ c = ":"%char → CR ∉ line →
  p ++ s = c :: line ++ crlf → s ≠ [] → scan_reply p = ScanContinue.
Proof.
  intros Hc Hcr Heq Hs. destruct p as [|d p]; [done|]. pose proof Heq as [= -> _].
  cbn [scan_reply]. rewrite bool_decide_true by done.
  destruct (find_crlf_prefix (c :: line) (c :: p) s []) as [[-> _]|(q' & _ & Hq)]; [..|done|].
  - apply not_elem_of_cons. naive_solver.
  - rewrite Heq. by rewrite app_nil_r.
  - by apply app_eq_nil in Hq as [_ ->].
Qed.

Lemma scan_bulk_complete body :
  len body ≤ INT64_MAX → scan_reply (encode_bulk_string body) = ScanDone.
Proof.
  intros Hlen. unfold encode_bulk_string. change (lit "$") with ["$"%char]. cbn [app scan_reply].
  rewrite bool_decide_false by naive_solver. rewrite bool_decide_true by done.
  rewrite find_crlf_cons_line by auto with kv. rewrite strtol_length by len_lia. rewrite bool_decide_false by len_lia.
  rewrite bool_decide_true; [done|]. unfold crlf. len_lia.
Qed.

Lemma scan_bulk_prefix body p s :
  len body ≤ INT64_MAX → p ++ s = encode_bulk_string body → s ≠ [] →
  scan_reply p = ScanContinue.
Proof.
  intros Hlen Heq Hs. destruct p as [|d p]; [done|].
  unfold encode_bulk_string in Heq. pose proof Heq as [= -> _].
  cbn [scan_reply]. rewrite bool_decide_false by naive_solver. rewrite bool_decide_true by done.
  destruct (find_crlf_prefix ("$"%char :: to_string (len body)) ("$"%char :: p) s (body ++ crlf))
    as [[-> _]|(q' & Hq & Heq')]; [apply not_elem_of_cons; auto with kv|done|done|].
  assert (p = to_string (len body) ++ crlf ++ q') as -> by by injection Hq.
  rewrite find_crlf_cons_line by auto with kv. rewrite strtol_length by len_lia. rewrite bool_decide_false by len_lia.
  rewrite bool_decide_false; [done|]. assert (len s ≠ 0) by (by rewrite len_zero_iff).
  apply (f_equal len) in Heq'. unfold crlf in *. len_lia.
Qed.

Lemma encode_reply_line r :
  reply_safe r →
  (∃ body, r = BulkReply body) ∨ r = NullReply ∨
  (∃ c line, encode_reply r = c :: (line ++ crlf) ∧ (CR ∉ line) ∧
    (c = "+"%char ∨ c = "-"%char ∨ c = ":"%char)).
Proof.
  destruct r as [s|s|z|s|]; simpl; intros Hs; [| | |by left; eexists|by right; left].
  - right; right. exists "+"%char, s. naive_solver.
  - right; right. exists "-"%char, s. naive_solver.
  - right; right. exists ":"%char, (to_string z). split_and!; [done|auto with kv|naive_solver].
Qed.

Lemma scan_complete r : reply_fits r → scan_reply (encode_reply r) = ScanDone.
Proof.
  intros [Hs Hf]. destruct (encode_reply_line r Hs) as [[body ->]|[->|(c & line & -> & Hcr & Hc)]].
  - by apply scan_bulk_complete.
  - done.
  - by apply scan_line_complete.
Qed.

Lemma scan_prefix r p s :
  reply_fits r → p ++ s = encode_reply r → s ≠ [] → scan_reply p = ScanContinue.
Proof.
  intros [Hs Hf] Heq Hne.
  destruct (encode_reply_line r Hs) as [[body ->]|[->|(c & line & Hr & Hcr & Hc)]].
  - by eapply scan_bulk_prefix.
  - unfold encode_reply, encode_null_bulk_string in Heq. destruct p as [|d p]; [done|].
    pose proof Heq as [= -> _]. cbn [scan_reply]. rewrite bool_decide_false by naive_solver.
    rewrite bool_decide_true by done.
    destruct (find_crlf_prefix (lit "$-1") ("$"%char :: p) s [])
      as [[-> _]|(q' & _ & Hq)]; [| |done|].
    + apply (bool_decide_eq_true_1 _). by vm_compute.
    + by rewrite app_nil_r.
    + by apply app_eq_nil in Hq as [_ ->].
  - rewrite Hr in Heq. by eapply scan_line_prefix.
Qed.

Lemma receive_loop_chunks r buffer chunks :
  reply_fits r → buffer ++ concat chunks = encode_reply r → concat chunks ≠ [] →
  Forall (λ c, c ≠ []) chunks →
  receive_loop buffer (Some <$> chunks) = Some (true, encode_reply r).
Proof.
  intros Hr. revert buffer. induction chunks as [|c chunks IH]; intros buffer Heq Hne Hall; [done|].
  apply Forall_cons in Hall as [Hc Hall]. rewrite fmap_cons. cbn [receive_loop].
  cbn [concat] in Heq. rewrite app_assoc in Heq. destruct (decide (concat chunks = [])) as [E|E].
  - rewrite E, app_nil_r in Heq. by rewrite Heq, scan_complete.
  - rewrite (scan_prefix r _ _ Hr Heq E). by apply IH.
Qed.

Lemma request_parses c rest :
  valid_command c →
  parse_command (encode_command (request_args c) ++ rest) =
    Some (ParsedCommand c (len (encode_command (request_args c)))).
Proof.
  intros Hc. destruct (request_args_fit c Hc) as [Hn Hp].
  unfold parse_command. rewrite (read_frame_intro (request_args c)).
  2: { by apply short_frame_frame, encode_command_frame. }
  cbn [mbind option_bind]. by rewrite build_command_request.
Qed.

(** ** Properties *)

(** C20. Round trip of requests: a valid command, encoded by the client and
    followed by any bytes, is parsed by the server back to the same command,
    and exactly the encoded bytes are consumed. *)
Theorem request_roundtrip c rest :
  valid_command c →
  parse_command (encode_command (request_args c) ++ rest) =
    Some (ParsedCommand c (len (encode_command (request_args c)))).
Proof.
  apply request_parses.
Qed.

(** A client request that arrives in pieces is never rejected early: on
    every strict prefix of it the server asks for more data. *)
Theorem request_prefix c p s :
  valid_command c → p ++ s = encode_command (request_args c) → s ≠ [] →
  parse_command p = Some NeedMoreData.
Proof.
  intros Hc Heq Hs. destruct (request_args_fit c Hc) as [Hn Hp].
  unfold parse_command. rewrite (read_frame_prefix (request_args c) (encode_command (request_args c)) p s); [done| |done|done].
  by apply encode_command_frame.
Qed.

(** Round trip of replies: however the network cuts a server reply into
    nonempty chunks, the client's receive loop succeeds with exactly the
    bytes of the reply, and not before the last chunk. *)
Theorem receive_loop_complete r chunks :
  reply_fits r → concat chunks = encode_reply r → Forall (λ c, c ≠ []) chunks →
  receive_loop [] (Some <$> chunks) = Some (true, encode_reply r).
Proof.
  intros Hr Heq Hall. apply receive_loop_chunks; [done|done| |done].
  rewrite Heq. by destruct r.
Qed.

(** The reply to an unknown command is not one reply: it repeats the
    client's bytes, and a name with CR LF in it makes a client read a forged
    second reply. *)
Theorem unknown_command_reply_splits :
  ∃ e rest,
    parse_command (encode_command [lit "x" ++ crlf ++ lit "+OK"]) = Some (ParseError e) ∧
    recoverable e = true ∧
    decode_reply (encode_error (message e)) = Some (ErrorReply (lit "ERR unknown command 'x"), rest) ∧
    decode_reply rest = Some (SimpleReply (lit "OK'"), []).
Proof.
  do 2 eexists. split_and!; vm_compute; reflexivity.
Qed.

(** ** Witnesses *)
Definition set_command : Command := mkCommand kSet (lit "name") (lit "Anish") 0.

Lemma set_command_valid : valid_command set_command.
Proof. unfold valid_command, INT64_MAX. split_and!; done. Qed.

Lemma request_roundtrip_witness :
  parse_command (encode_command (request_args set_command) ++ lit "*2") =
    Some (ParsedCommand set_command 34).
Proof. apply (request_roundtrip set_command (lit "*2") set_command_valid). Defined.

Lemma request_prefix_witness : parse_command (lit "*3") = Some NeedMoreData.
Proof.
  apply (request_prefix set_command (lit "*3")
    (drop 2 (encode_command (request_args set_command))) set_command_valid);
    [reflexivity|discriminate].
Defined.

Lemma receive_loop_complete_witness :
  receive_loop [] [Some (lit "$5"); Some (crlf ++ lit "val"); Some (lit "ue" ++ crlf)] =
    Some (true, lit "$5" ++ crlf ++ lit "value" ++ crlf).
Proof.
  apply (receive_loop_complete (BulkReply (lit "value"))
    [lit "$5"; crlf ++ lit "val"; lit "ue" ++ crlf]).
  - split; [exact I|vm_compute; discriminate].
  - reflexivity.
  - repeat constructor; discriminate.
Defined.
