(* ===== verification/PriorityQueue.v ===== *)
(** * std::priority_queue

    The storage engine orders expiration candidates with a
    [std::priority_queue].  The standard fixes what the adaptor's operations
    do and leaves the order among equal priorities to the implementation, so
    the engine is verified against the interface [PriorityQueue]: any
    container whose [top] is a maximal element for the comparator.  The
    instance at the end (a list kept sorted) shows the interface can be met
    and makes the engine executable. *)
From stdpp Require Import sorting.
From S2P Require Import Prelude.

(** [lower a b] is the comparator: [a] has lower priority than [b]. *)
Class PriorityQueue (A : Type) (lower : A → A → bool) (Q : Type) := {
  pq_empty : Q;
  pq_push : A → Q → Q;
  pq_top : Q → option A;  (* [None] exactly when [empty()] *)
  pq_pop : Q → Q;
  pq_elems : Q → list A;  (* the contents, in no particular order *)
  pq_elems_empty : pq_elems pq_empty = [];
  pq_elems_push a q : pq_elems (pq_push a q) ≡ₚ a :: pq_elems q;
  pq_top_None q : pq_top q = None ↔ pq_elems q = [];
  pq_top_pop q a : pq_top q = Some a → pq_elems q ≡ₚ a :: pq_elems (pq_pop q);
  pq_top_max q a b : pq_top q = Some a → b ∈ pq_elems q → lower a b = false;
}.

(** [size()]. *)
Definition pq_size {A lower Q} `{PriorityQueue A lower Q} (q : Q) : nat := length (pq_elems q).

Section Facts.
Context {A : Type} {lower : A → A → bool} {Q : Type} `{!PriorityQueue A lower Q}.

Lemma pq_elem_of_push a b q : b ∈ pq_elems (pq_push a q) ↔ b = a ∨ b ∈ pq_elems q.
Proof. rewrite pq_elems_push. apply elem_of_cons. Qed.

Lemma pq_elem_of_top q a : pq_top q = Some a → a ∈ pq_elems q.
Proof. intros Ht%pq_top_pop. rewrite Ht. apply elem_of_cons. by left. Qed.

Lemma pq_elem_of_pop q a b :
  pq_top q = Some a → b ∈ pq_elems q ↔ b = a ∨ b ∈ pq_elems (pq_pop q).
Proof. intros Ht%pq_top_pop. rewrite Ht. apply elem_of_cons. Qed.

Lemma pq_size_pop q a : pq_top q = Some a → pq_size q = S (pq_size (pq_pop q)).
Proof. intros Ht%pq_top_pop. unfold pq_size. by rewrite Ht. Qed.

Lemma pq_size_empty q : pq_top q = None ↔ pq_size q = 0%nat.
Proof. rewrite pq_top_None. unfold pq_size. by rewrite length_zero_iff_nil. Qed.
End Facts.

(** ** A sorted list *)
Section SortedList.
Context {A : Type} (lower : A → A → bool).

(** [a] goes behind the elements that do not have lower priority. *)
Fixpoint sorted_insert (a : A) (l : list A) : list A :=
  match l with
  | [] => [a]
  | b :: t => if lower b a then a :: l else b :: sorted_insert a t
  end.

Definition descending (l : list A) : Prop := Sorted (λ a b, lower a b = false) l.

Lemma sorted_insert_perm a l : sorted_insert a l ≡ₚ a :: l.
Proof.
  induction l as [|b t IH]; simpl; [done|]. destruct (lower b a); [done|].
  rewrite IH. apply Permutation_swap.
Qed.

Lemma sorted_insert_HdRel a b l :
  lower b a = false → HdRel (λ a b, lower a b = false) b l →
  HdRel (λ a b, lower a b = false) b (sorted_insert a l).
Proof.
  intros Hba Hl. destruct l as [|c t]; simpl; [by constructor|].
  destruct (lower c a); constructor; [done|]. by inversion Hl.
Qed.

(** The comparator orders by an integer rank. *)
Context (rank : A → Z) (lower_rank : ∀ a b, lower a b = (rank a >? rank b)).

Lemma sorted_insert_descending a l : descending l → descending (sorted_insert a l).
Proof using lower_rank.
  unfold descending. induction l as [|b t IH]; intros Hl; simpl.
  { repeat constructor. }
  destruct (lower b a) eqn:E.
  - constructor; [done|]. constructor. rewrite lower_rank in *. lia.
  - inversion Hl; subst. constructor; [by apply IH|]. by apply sorted_insert_HdRel.
Qed.

Lemma descending_top a l b : descending (a :: l) → b ∈ a :: l → lower a b = false.
Proof using lower_rank.
  unfold descending. intros Hs. apply Sorted_StronglySorted in Hs.
  2: { intros x y z. rewrite !lower_rank. lia. }
  inversion Hs as [|? ? _ Hall]; subst. rewrite Forall_forall in Hall.
  intros [->|Hb]%elem_of_cons; [|by apply Hall]. rewrite lower_rank. lia.
Qed.

Record SortedQueue := mkSortedQueue {
  queue_list : list A;
  queue_sorted : descending queue_list;
}.

Definition sorted_push (a : A) (q : SortedQueue) : SortedQueue :=
  mkSortedQueue (sorted_insert a (queue_list q))
    (sorted_insert_descending a _ (queue_sorted q)).

Lemma descending_tail l : descending l → descending (tail l).
Proof using. unfold descending. destruct l; [done|]. by inversion 1. Qed.

Definition sorted_pop (q : SortedQueue) : SortedQueue :=
  mkSortedQueue (tail (queue_list q)) (descending_tail _ (queue_sorted q)).

#[program] Definition sorted_priority_queue : PriorityQueue A lower SortedQueue := {|
  pq_empty := mkSortedQueue [] (Sorted_nil _);
  pq_push := sorted_push;
  pq_top q := head (queue_list q);
  pq_pop := sorted_pop;
  pq_elems := queue_list;
|}.
Next Obligation. done. Qed.
Next Obligation. intros a [l Hl]. apply sorted_insert_perm. Qed.
Next Obligation. intros [[|a l] Hl]; naive_solver. Qed.
Next Obligation. intros [[|b l] Hl] a; naive_solver. Qed.
Next Obligation. intros [[|c l] Hl] a b; [done|]. intros [= ->]. by apply descending_top. Qed.
End SortedList.
