(* ===== verification/Storage.v ===== *)
(** * Sharded storage engine

    Models [src/src/storage/shard.hpp], [src/src/storage/store.cpp] and the
    headers [store.hpp] and [types.hpp] of [src/include/kvstore/storage/].

    A time point is the nanosecond count of [std::chrono::steady_clock]; an
    operation receives the value its call of [clock_.now()] returned.  Each
    critical section of a shard's mutex is one function on a [Shard]; an
    operation of the store is the composition of its sections ([read_live]
    has two).  [hash] is [std::hash<std::string_view>]. *)
From S2P Require Import Prelude PriorityQueue.

(** ** shard.hpp *)
Record Entry := mkEntry {
  entry_value : bytes;
  deadline : option Z;
  generation : Z;
}.

Record ExpirationCandidate := mkExpirationCandidate {
  cand_deadline : Z;
  cand_generation : Z;
  cand_key : bytes;
}.

#[export] Instance Entry_eq_dec : EqDecision Entry.
Proof. solve_decision. Defined.
#[export] Instance ExpirationCandidate_eq_dec : EqDecision ExpirationCandidate.
Proof. solve_decision. Defined.

(** Soonest deadline first: the comparator of the max-heap is inverted. *)
Definition ExpirationCandidateOrder (a b : ExpirationCandidate) : bool :=
  cand_deadline a >? cand_deadline b.

(** The shard without its mutex; [Q] is the priority queue. *)
Record Shard (Q : Type) := mkShard {
  entries : gmap bytes Entry;
  next_generation : Z;
  expiration_heap : Q;
}.
Arguments mkShard {Q} _ _ _.
Arguments entries {Q} _.
Arguments next_generation {Q} _.
Arguments expiration_heap {Q} _.

Definition is_expired (entry : Entry) (now : Z) : bool :=
  match deadline entry with
  | Some d => d <=? now
  | None => false
  end.

(** ** types.hpp, store.hpp *)
Inductive TtlStatus := kMissing | kNoTtl | kHasTtl.
Record TtlResult := mkTtlResult { status : TtlStatus; remaining : option Z }.

#[export] Instance TtlStatus_eq_dec : EqDecision TtlStatus.
Proof. solve_decision. Defined.
#[export] Instance TtlResult_eq_dec : EqDecision TtlResult.
Proof. solve_decision. Defined.

Record Store (Q : Type) := mkStore {
  shard_count_ : Z;
  shards_ : list (Shard Q);
  active_expirations_ : Z;
}.
Arguments mkStore {Q} _ _ _.
Arguments shard_count_ {Q} _.
Arguments shards_ {Q} _.
Arguments active_expirations_ {Q} _.

(** [std::chrono] ticks: the clock counts nanoseconds. *)
Definition kNanosPerSecond : Z := 1000000000.

(** [now + ttl_seconds]: the seconds are converted to nanoseconds, then added. *)
Definition add_seconds (now ttl_seconds : Z) : Z :=
  i64 (now + i64 (ttl_seconds * kNanosPerSecond)).

(** [duration_cast<seconds>(deadline - now)]: division truncates. *)
Definition whole_seconds (d now : Z) : Z := Z.quot (i64 (d - now)) kNanosPerSecond.

(** [std::bit_ceil]: the smallest power of two that is not below [n]. *)
Definition bit_ceil (n : Z) : Z := 2 ^ Z.log2_up n.

Definition normalize_shard_count (requested : Z) : result Z :=
  if bool_decide (requested = 0) then
    Throw (InvalidArgument (lit "Store: shard_count must be greater than zero"))
  else Ok (bit_ceil requested).

Section Operations.
Context {Q : Type} `{!PriorityQueue ExpirationCandidate ExpirationCandidateOrder Q}.
Context (hash : bytes → Z).

(** The constructor. *)
Definition make_store (requested : Z) : result (Store Q) :=
  n ← normalize_shard_count requested;
  Ok (mkStore n (replicate (Z.to_nat n) (mkShard ∅ 0 pq_empty)) 0).

Definition shard_index (store : Store Q) (key : bytes) : Z :=
  Z.land (hash key) (shard_count_ store - 1).

Definition shard_for (store : Store Q) (key : bytes) : option (Shard Q) :=
  shards_ store !! Z.to_nat (shard_index store key).

(** Runs the critical sections [f] of one operation on the shard of [key]. *)
Definition with_shard {R} (store : Store Q) (key : bytes) (f : Shard Q → Shard Q * R)
    : option (Store Q * R) :=
  shard ← shard_for store key;
  let '(shard', r) := f shard in
  Some (mkStore (shard_count_ store)
          (<[Z.to_nat (shard_index store key) := shard']> (shards_ store))
          (active_expirations_ store), r).

(** *** Reads *)
Inductive ReadPhase := ReadLive (entry : Entry) | ReadMissing | ReadExpired.

(** The shared section of [read_live]. *)
Definition read_live_shared (shard : Shard Q) (now : Z) (key : bytes) : ReadPhase :=
  match entries shard !! key with
  | Some entry => if is_expired entry now then ReadExpired else ReadLive entry
  | None => ReadMissing
  end.

(** The exclusive section of [read_live], entered after the shared lock has
    been released: it looks the key up again. *)
Definition read_live_exclusive (shard : Shard Q) (now : Z) (key : bytes) : Shard Q :=
  match entries shard !! key with
  | Some entry =>
      if is_expired entry now then
        mkShard (delete key (entries shard)) (next_generation shard) (expiration_heap shard)
      else shard
  | None => shard
  end.

Definition read_live {R} (now : Z) (key : bytes) (on_live : Entry → R) (on_missing : R)
    (shard : Shard Q) : Shard Q * R :=
  match read_live_shared shard now key with
  | ReadLive entry => (shard, on_live entry)
  | ReadMissing => (shard, on_missing)
  | ReadExpired => (read_live_exclusive shard now key, on_missing)
  end.

Definition get (now : Z) (key : bytes) (store : Store Q) : option (Store Q * option bytes) :=
  with_shard store key (read_live now key (λ entry, Some (entry_value entry)) None).

Definition exists_ (now : Z) (key : bytes) (store : Store Q) : option (Store Q * bool) :=
  with_shard store key (read_live now key (λ _, true) false).

Definition ttl_of_entry (now : Z) (entry : Entry) : TtlResult :=
  match deadline entry with
  | None => mkTtlResult kNoTtl None
  | Some d => mkTtlResult kHasTtl (Some (whole_seconds d now))
  end.

Definition ttl (now : Z) (key : bytes) (store : Store Q) : option (Store Q * TtlResult) :=
  with_shard store key
    (read_live now key (ttl_of_entry now) (mkTtlResult kMissing None)).

(** *** Writes *)
Definition shard_set (key value : bytes) (shard : Shard Q) : Shard Q * unit :=
  let next := u64 (next_generation shard + 1) in
  (mkShard (<[key := mkEntry value None next]> (entries shard)) next (expiration_heap shard), tt).

Definition set (key value : bytes) (store : Store Q) : option (Store Q * unit) :=
  with_shard store key (shard_set key value).

Definition shard_del (now : Z) (key : bytes) (shard : Shard Q) : Shard Q * bool :=
  match entries shard !! key with
  | None => (shard, false)
  | Some entry =>
      (mkShard (delete key (entries shard)) (next_generation shard) (expiration_heap shard),
       negb (is_expired entry now))
  end.

Definition del (now : Z) (key : bytes) (store : Store Q) : option (Store Q * bool) :=
  with_shard store key (shard_del now key).

Definition shard_expire (now : Z) (key : bytes) (ttl_seconds : Z) (shard : Shard Q)
    : Shard Q * bool :=
  match entries shard !! key with
  | None => (shard, false)
  | Some entry =>
      if is_expired entry now then
        (mkShard (delete key (entries shard)) (next_generation shard) (expiration_heap shard),
         false)
      else
        let d := add_seconds now ttl_seconds in
        let next := u64 (next_generation shard + 1) in
        (mkShard (<[key := mkEntry (entry_value entry) (Some d) next]> (entries shard)) next
           (pq_push (mkExpirationCandidate d next key) (expiration_heap shard)), true)
  end.

Definition expire (now : Z) (key : bytes) (ttl_seconds : Z) (store : Store Q)
    : option (Store Q * bool) :=
  with_shard store key (shard_expire now key ttl_seconds).

(** *** Active expiration *)

(** Does the live entry still carry the candidate's deadline and generation? *)
Definition candidate_matches (candidate : ExpirationCandidate) (entry : Entry) : bool :=
  (generation entry =? cand_generation candidate) &&
  bool_decide (deadline entry = Some (cand_deadline candidate)).

(** The body of the sweep loop for a due candidate. *)
Definition sweep_candidate (candidate : ExpirationCandidate) (shard : Shard Q) : Shard Q * Z :=
  match entries shard !! cand_key candidate with
  | Some entry =>
      if candidate_matches candidate entry then
        (mkShard (delete (cand_key candidate) (entries shard)) (next_generation shard)
           (pq_pop (expiration_heap shard)), 1)
      else (mkShard (entries shard) (next_generation shard) (pq_pop (expiration_heap shard)), 0)
  | None => (mkShard (entries shard) (next_generation shard) (pq_pop (expiration_heap shard)), 0)
  end.

(** The loop of one shard; [None] if [fuel] iterations are not enough. *)
Fixpoint sweep_loop (fuel : nat) (now max_items processed : Z) (shard : Shard Q) (removed : Z)
    : option (Shard Q * Z) :=
  match fuel with
  | O => None
  | S fuel =>
      if processed <? max_items then
        match pq_top (expiration_heap shard) with
        | None => Some (shard, removed)
        | Some candidate =>
            if cand_deadline candidate >? now then Some (shard, removed)
            else
              let '(shard', n) := sweep_candidate candidate shard in
              sweep_loop fuel now max_items (processed + 1) shard' (removed + n)
        end
      else Some (shard, removed)
  end.

(** Every iteration pops the heap, so its size bounds the iterations. *)
Definition sweep_shard (now max_items : Z) (shard : Shard Q) : option (Shard Q * Z) :=
  sweep_loop (S (pq_size (expiration_heap shard))) now max_items 0 shard 0.

Fixpoint sweep_shards (now max_items : Z) (shards : list (Shard Q)) : option (list (Shard Q) * Z) :=
  match shards with
  | [] => Some ([], 0)
  | shard :: shards =>
      '(shard', n) ← sweep_shard now max_items shard;
      '(shards', m) ← sweep_shards now max_items shards;
      Some (shard' :: shards', n + m)
  end.

Definition sweep_expired (now max_items_per_shard : Z) (store : Store Q)
    : option (Store Q * Z) :=
  '(shards, total_removed) ← sweep_shards now max_items_per_shard (shards_ store);
  let active :=
    if total_removed >? 0 then u64 (active_expirations_ store + total_removed)
    else active_expirations_ store in
  Some (mkStore (shard_count_ store) shards active, total_removed).

Definition active_expiration_count (store : Store Q) : Z := active_expirations_ store.
End Operations.
