(* ===== verification/StorageInv.v ===== *)
(** * Invariant of the storage engine

    The well-formedness invariant of a store: a power-of-two number of
    shards, each key in the shard its hash selects, and every deadline tracked
    by a candidate of its shard's heap.  Every operation is defined on
    well-formed stores, preserves the invariant and touches only its key. *)
From S2P Require Import Prelude PriorityQueue Storage.

Section Invariant.
Context {Q : Type} `{!PriorityQueue ExpirationCandidate ExpirationCandidateOrder Q}.
Context (hash : bytes → Z).

(** Shard [i] of [n]. *)
Record shard_wf (n i : Z) (shard : Shard Q) : Prop := {
  shard_wf_keys : ∀ k e, entries shard !! k = Some e → Z.land (hash k) (n - 1) = i;
  shard_wf_generation : in_u64 (next_generation shard);
  shard_wf_deadline : ∀ k e d,
    entries shard !! k = Some e → deadline e = Some d → in_i64 d;
  shard_wf_tracked : ∀ k e d,
    entries shard !! k = Some e → deadline e = Some d →
    mkExpirationCandidate d (generation e) k ∈ pq_elems (expiration_heap shard);
}.

Record store_wf (store : Store Q) : Prop := {
  store_wf_count : ∃ p, 0 ≤ p ≤ 63 ∧ shard_count_ store = 2 ^ p;
  store_wf_length : len (shards_ store) = shard_count_ store;
  store_wf_shards : ∀ i shard, shards_ store !! i = Some shard →
    shard_wf (shard_count_ store) (Z.of_nat i) shard;
}.

(** The entry stored under a key, wherever its shard is. *)
Definition lookup_entry (store : Store Q) (key : bytes) : option Entry :=
  shard ← shard_for hash store key; entries shard !! key.

(** A section that keeps its shard well-formed and other keys as they are. *)
Definition local_section {R} (key : bytes) (f : Shard Q → Shard Q * R) : Prop :=
  ∀ n i shard, shard_wf n i shard → Z.land (hash key) (n - 1) = i →
    shard_wf n i (f shard).1 ∧
    ∀ k, k ≠ key → entries (f shard).1 !! k = entries shard !! k.

(** ** Shard selection *)
Lemma shard_index_mod (store : Store Q) key p :
  0 ≤ p → shard_count_ store = 2 ^ p → shard_index hash store key = hash key mod 2 ^ p.
Proof.
  intros Hp Hc. unfold shard_index. rewrite Hc.
  replace (2 ^ p - 1) with (Z.ones p) by (rewrite Z.ones_equiv; lia). by rewrite Z.land_ones by lia.
Qed.

Lemma shard_index_range (store : Store Q) key :
  store_wf store → 0 ≤ shard_index hash store key < shard_count_ store.
Proof.
  intros [(p & Hp & Hc) _ _]. rewrite (shard_index_mod store key p), Hc by (lia || done).
  apply Z.mod_pos_bound. apply Z.pow_pos_nonneg; lia.
Qed.

Lemma shard_for_wf (store : Store Q) key :
  store_wf store →
  ∃ shard, shard_for hash store key = Some shard ∧
    shard_wf (shard_count_ store) (shard_index hash store key) shard.
Proof.
  intros Hwf. pose proof (shard_index_range store key Hwf) as Hr.
  destruct (lookup_lt_is_Some_2 (shards_ store) (Z.to_nat (shard_index hash store key)))
    as [shard Hs].
  { pose proof (store_wf_length _ Hwf) as Hl. unfold len in Hl. lia. }
  exists shard. split; [done|]. pose proof (store_wf_shards _ Hwf _ _ Hs) as Hw.
  by rewrite Z2Nat.id in Hw by lia.
Qed.

(** ** Operations on one key *)
Lemma with_shard_local {R} (store : Store Q) key (f : Shard Q → Shard Q * R) :
  store_wf store → local_section key f →
  ∃ shard store',
    shard_for hash store key = Some shard ∧
    shard_wf (shard_count_ store) (shard_index hash store key) shard ∧
    with_shard hash store key f = Some (store', (f shard).2) ∧
    store_wf store' ∧
    shard_count_ store' = shard_count_ store ∧
    active_expirations_ store' = active_expirations_ store ∧
    ∀ k, lookup_entry store' k =
      if decide (k = key) then entries (f shard).1 !! key else lookup_entry store k.
Proof.
  intros Hwf Hf. destruct (shard_for_wf store key Hwf) as (shard & Hs & Hw).
  destruct (Hf _ _ shard Hw eq_refl) as [Hw' Hloc].
  pose proof (shard_index_range store key Hwf) as Hr.
  set (store' := mkStore (shard_count_ store)
    (<[Z.to_nat (shard_index hash store key) := (f shard).1]> (shards_ store))
    (active_expirations_ store)).
  exists shard, store'.
  assert (Hlen : (Z.to_nat (shard_index hash store key) < length (shards_ store))%nat).
  { pose proof (store_wf_length _ Hwf) as Hl. unfold len in Hl. lia. }
  split_and!; [done|done| | |done|done|].
  - unfold with_shard. rewrite Hs. cbn [mbind option_bind]. by destruct (f shard).
  - constructor; simpl.
    + apply Hwf.
    + unfold len. rewrite length_insert. apply Hwf.
    + intros i sh Hi. destruct (decide (i = Z.to_nat (shard_index hash store key))) as [->|Hne].
      * rewrite list_lookup_insert_eq in Hi by done. simplify_eq. by rewrite Z2Nat.id by lia.
      * rewrite list_lookup_insert_ne in Hi by done. by apply (store_wf_shards _ Hwf).
  - intros k. unfold lookup_entry, shard_for.
    change (shard_index hash store' k) with (shard_index hash store k). simpl.
    unfold shard_for in Hs.
    destruct (decide (Z.to_nat (shard_index hash store key) = Z.to_nat (shard_index hash store k)))
      as [Heq|Hne].
    + rewrite <-Heq, list_lookup_insert_eq, Hs by done. simpl.
      case_decide; [by subst|by apply Hloc].
    + rewrite list_lookup_insert_ne by done. by case_decide; subst.
Qed.

(** ** Each section is local *)
Lemma shard_wf_delete n i shard key :
  shard_wf n i shard →
  shard_wf n i (mkShard (delete key (entries shard)) (next_generation shard)
    (expiration_heap shard)).
Proof.
  intros [Hk Hg Hd Ht]. constructor; simpl; [|done|..].
  all: intros k e *; rewrite lookup_delete_Some; intros [_ ?]; eauto.
Qed.

Lemma read_live_local {R} now key (on_live : Entry → R) on_missing :
  local_section key (read_live now key on_live on_missing).
Proof.
  intros n i shard Hw _. unfold read_live, read_live_shared, read_live_exclusive.
  destruct (entries shard !! key) as [e|]; [|done]. destruct (is_expired e now); [|done].
  simpl. split; [by apply shard_wf_delete|]. intros k Hk. by rewrite lookup_delete_ne.
Qed.

Lemma shard_set_local key value : local_section key (shard_set key value).
Proof.
  intros n i shard Hw Hi. simpl. split; [|intros k Hk; by rewrite lookup_insert_ne].
  destruct Hw as [Hk Hg Hd Ht].
  constructor; simpl; [|auto with kv|..]; intros k e *; rewrite lookup_insert;
    case_decide; subst; naive_solver.
Qed.

Lemma shard_del_local now key : local_section key (shard_del now key).
Proof.
  intros n i shard Hw _. unfold shard_del. destruct (entries shard !! key); [|done]. simpl.
  split; [by apply shard_wf_delete|]. intros k Hk. by rewrite lookup_delete_ne.
Qed.

Lemma shard_expire_local now key secs : local_section key (shard_expire now key secs).
Proof.
  intros n i shard Hw Hi. unfold shard_expire. destruct (entries shard !! key) as [e|]; [|done].
  destruct (is_expired e now); simpl.
  { split; [by apply shard_wf_delete|]. intros k Hk. by rewrite lookup_delete_ne. }
  split; [|intros k Hk; by rewrite lookup_insert_ne]. destruct Hw as [Hk Hg Hd Ht].
  constructor; simpl; [|auto with kv|..]; intros k e' *; rewrite lookup_insert;
    case_decide; subst; intros; simplify_eq/=; rewrite ?pq_elem_of_push; eauto.
  apply i64_range.
Qed.

(** ** Active expiration *)

(** [m'] is [m] less some entries that are expired at [now]. *)
Definition expired_removed (now : Z) (m m' : gmap bytes Entry) : Prop :=
  ∀ k, m' !! k = m !! k ∨
    (m' !! k = None ∧ ∃ e, m !! k = Some e ∧ is_expired e now = true).

(** No candidate of the heap is due. *)
Definition none_due (now : Z) (shard : Shard Q) : Prop :=
  ∀ c, c ∈ pq_elems (expiration_heap shard) → now < cand_deadline c.

#[global] Instance expired_removed_preorder now : PreOrder (expired_removed now).
Proof.
  split.
  - intros m k. by left.
  - intros m1 m2 m3 H12 H23 k. destruct (H12 k) as [E12|(E12 & e & He & Hx)],
      (H23 k) as [E23|(E23 & e' & He' & Hx')]; [left; congruence|right..];
      (split; [congruence|]); try congruence; eexists; eauto; split; [|done]; congruence.
Qed.

Lemma sweep_candidate_wf n i c shard :
  shard_wf n i shard → pq_top (expiration_heap shard) = Some c →
  shard_wf n i (sweep_candidate c shard).1.
Proof.
  intros Hw Htop.
  assert (Hpop : ∀ m, (∀ k e, m !! k = Some e → entries shard !! k = Some e) →
    (∀ e, m !! cand_key c = Some e → candidate_matches c e = false) →
    shard_wf n i (mkShard m (next_generation shard) (pq_pop (expiration_heap shard)))).
  { intros m Hsub Hno. destruct Hw as [Hk Hg Hd Ht]. constructor; simpl; eauto.
    intros k e d Hm Hde. destruct (proj1 (pq_elem_of_pop _ c _ Htop) (Ht k e d (Hsub _ _ Hm) Hde))
      as [<-|?]; [|done].
    apply Hno in Hm. unfold candidate_matches in Hm. simpl in Hm.
    rewrite Z.eqb_refl, bool_decide_true in Hm by done. done. }
  unfold sweep_candidate. destruct (entries shard !! cand_key c) as [e|] eqn:E.
  - destruct (candidate_matches c e) eqn:Em; simpl; apply Hpop.
    + intros k e'. rewrite lookup_delete_Some. naive_solver.
    + intros e'. by rewrite lookup_delete_eq.
    + done.
    + intros e' He'. congruence.
  - apply Hpop; [done|]. intros e' He'. congruence.
Qed.

Lemma sweep_candidate_removed now c shard :
  cand_deadline c ≤ now →
  expired_removed now (entries shard) (entries (sweep_candidate c shard).1) ∧
  expiration_heap (sweep_candidate c shard).1 = pq_pop (expiration_heap shard) ∧
  (sweep_candidate c shard).2 + Z.of_nat (size (entries (sweep_candidate c shard).1)) =
    Z.of_nat (size (entries shard)).
Proof.
  intros Hdue. unfold sweep_candidate.
  destruct (entries shard !! cand_key c) as [e|] eqn:E; [|split_and!; [done|done|simpl; lia]].
  destruct (candidate_matches c e) eqn:Em; [|split_and!; [done|done|simpl; lia]].
  simpl. split_and!; [|done|].
  - intros k. destruct (decide (k = cand_key c)) as [->|]; [|left; by rewrite lookup_delete_ne].
    right. rewrite lookup_delete_eq. split; [done|]. exists e. split; [done|].
    unfold candidate_matches in Em. apply andb_prop in Em as [_ Em].
    apply bool_decide_eq_true in Em. unfold is_expired. rewrite Em. lia.
  - rewrite map_size_delete, E. pose proof (map_size_ne_0_lookup_2 (entries shard) (cand_key c)).
    assert (size (entries shard) ≠ 0%nat) by (apply H; eauto). lia.
Qed.

(** What one pass over a shard guarantees: [popped] candidates are taken
    from the heap, within the budget; what is removed is expired and
    counted; and a pass that stays below its budget leaves nothing due. *)
Record sweep_post (now budget : Z) (shard shard' : Shard Q) (removed popped : Z) : Prop := {
  sweep_popped : pq_size (expiration_heap shard) =
    (pq_size (expiration_heap shard') + Z.to_nat popped)%nat ∧ 0 ≤ popped;
  sweep_budget : popped ≤ Z.max 0 budget;
  sweep_count : removed + Z.of_nat (size (entries shard')) = Z.of_nat (size (entries shard));
  sweep_removed : expired_removed now (entries shard) (entries shard');
  sweep_complete : popped < budget → none_due now shard';
}.

Lemma sweep_loop_post fuel now max_items processed shard removed :
  (pq_size (expiration_heap shard) < fuel)%nat →
  ∃ shard' n popped,
    sweep_loop fuel now max_items processed shard removed = Some (shard', removed + n) ∧
    (∀ k i, shard_wf k i shard → shard_wf k i shard') ∧
    sweep_post now (max_items - processed) shard shard' n popped.
Proof.
  revert processed shard removed.
  induction fuel as [|fuel IH]; intros processed shard removed Hf; [lia|].
  assert (Hstop : (processed < max_items → none_due now shard) →
    ∃ shard' n popped, Some (shard, removed) = Some (shard', removed + n) ∧
      (∀ k i, shard_wf k i shard → shard_wf k i shard') ∧
      sweep_post now (max_items - processed) shard shard' n popped).
  { intros Hdue. exists shard, 0, 0. rewrite Z.add_0_r. split_and!; [done..|].
    constructor; [lia|lia|lia|done|]. intros. apply Hdue. lia. }
  cbn [sweep_loop]. destruct (Z.ltb_spec processed max_items) as [Hlt|Hge].
  2: { apply Hstop. lia. }
  destruct (pq_top (expiration_heap shard)) as [c|] eqn:Htop.
  2: { apply Hstop. intros _ c Hc. apply pq_top_None in Htop. rewrite Htop in Hc. by apply not_elem_of_nil in Hc. }
  rewrite Z.gtb_ltb. destruct (Z.ltb_spec now (cand_deadline c)) as [Hlater|Hdue].
  { apply Hstop. intros _ b Hb. pose proof (pq_top_max _ _ _ Htop Hb) as Hle.
    unfold ExpirationCandidateOrder in Hle. lia. }
  pose proof (sweep_candidate_removed now c shard Hdue) as (Hrem & Hheap & Hcount).
  pose proof (λ k i Hw, sweep_candidate_wf k i c shard Hw Htop) as Hwf.
  pose proof (pq_size_pop _ _ Htop) as Hsize.
  destruct (sweep_candidate c shard) as [shard1 n1]. cbn [fst snd] in *.
  destruct (IH (processed + 1) shard1 (removed + n1)) as (shard' & n & popped & Heq & Hwf' & Hpost).
  { rewrite Hheap. lia. }
  exists shard', (n1 + n), (popped + 1). rewrite Heq. split_and!.
  - do 2 f_equal. lia.
  - intros k i Hw. by apply Hwf', Hwf.
  - destruct Hpost as [[Hp Hp0] Hb Hc Hr Hd]. rewrite Hheap in Hp.
    constructor; [lia|lia|lia|by etrans|]. intros. apply Hd. lia.
Qed.

Lemma sweep_shard_post now max_items shard :
  ∃ shard' n popped,
    sweep_shard now max_items shard = Some (shard', n) ∧
    (∀ k i, shard_wf k i shard → shard_wf k i shard') ∧
    sweep_post now max_items shard shard' n popped.
Proof.
  destruct (sweep_loop_post (S (pq_size (expiration_heap shard))) now max_items 0 shard 0)
    as (shard' & n & popped & Heq & Hwf & Hpost); [lia|].
  rewrite Z.sub_0_r in Hpost. by exists shard', n, popped.
Qed.

(** ** A pass over the whole store *)
Definition entry_count (shards : list (Shard Q)) : Z :=
  Z.of_nat (sum_list_with (λ shard, size (entries shard)) shards).

Definition shard_swept (now max_items : Z) (shard shard' : Shard Q) : Prop :=
  (∀ k i, shard_wf k i shard → shard_wf k i shard') ∧
  ∃ n popped, sweep_post now max_items shard shard' n popped.

Lemma sweep_shards_post now max_items shards :
  ∃ shards' total,
    sweep_shards now max_items shards = Some (shards', total) ∧
    Forall2 (shard_swept now max_items) shards shards' ∧
    total + entry_count shards' = entry_count shards.
Proof.
  unfold entry_count. induction shards as [|shard shards (shards' & total & Heq & Hall & Hc)].
  { by exists [], 0. }
  destruct (sweep_shard_post now max_items shard) as (shard' & n & popped & Hs & Hwf & Hpost).
  exists (shard' :: shards'), (n + total). cbn [sweep_shards]. rewrite Hs. cbn [mbind option_bind].
  rewrite Heq. cbn [mbind option_bind]. split_and!; [done|constructor; [|done]|].
  - split; [done|]. by exists n, popped.
  - destruct Hpost as [_ _ Hn _ _]. simpl. lia.
Qed.

Lemma sweep_expired_post now max_items store :
  store_wf store →
  ∃ store' total,
    sweep_expired now max_items store = Some (store', total) ∧ store_wf store' ∧
    shard_count_ store' = shard_count_ store ∧
    Forall2 (shard_swept now max_items) (shards_ store) (shards_ store') ∧
    total + entry_count (shards_ store') = entry_count (shards_ store).
Proof.
  intros Hwf. unfold sweep_expired.
  destruct (sweep_shards_post now max_items (shards_ store)) as (shards' & total & -> & Hall & Hc).
  cbn [mbind option_bind]. eexists _, total. split_and!; [done| |done|done|done].
  destruct Hwf as [Hp Hl Hs]. constructor; simpl; [done| |].
  - unfold len in *. by rewrite <-(Forall2_length _ _ _ Hall).
  - intros i shard' Hi. destruct (Forall2_lookup_r _ _ _ _ _ Hall Hi) as (shard & Hi' & [Hw _]).
    by apply Hw, Hs.
Qed.

(** A pass removes nothing but entries that are expired at its time. *)
Lemma sweep_expired_lookup now max_items store store' total k :
  store_wf store → sweep_expired now max_items store = Some (store', total) →
  lookup_entry store' k = lookup_entry store k ∨
  (lookup_entry store' k = None ∧
   ∃ e, lookup_entry store k = Some e ∧ is_expired e now = true).
Proof.
  intros Hwf Heq. destruct (sweep_expired_post now max_items store Hwf)
    as (store1 & total1 & Heq1 & _ & Hcount & Hall & _).
  rewrite Heq in Heq1. injection Heq1 as <- <-.
  destruct (shard_for_wf store k Hwf) as (shard & Hs & _).
  unfold lookup_entry, shard_for, shard_index in *. rewrite Hcount, Hs.
  destruct (Forall2_lookup_l _ _ _ _ _ Hall Hs) as (shard' & Hs' & _ & n & popped & Hpost).
  rewrite Hs'. simpl. apply Hpost.
Qed.

(** A pass whose budget covers a shard's heap leaves no expired entry in it. *)
Lemma sweep_post_no_expired n i now budget shard shard' removed popped k e :
  shard_wf n i shard' → sweep_post now budget shard shard' removed popped →
  Z.of_nat (pq_size (expiration_heap shard)) ≤ budget →
  entries shard' !! k = Some e → is_expired e now = false.
Proof.
  intros Hw [[Hp Hp0] Hb _ _ Hdue] Hbudget He. unfold is_expired.
  destruct (deadline e) as [d|] eqn:Hd; [|done].
  pose proof (shard_wf_tracked _ _ _ Hw _ _ _ He Hd) as Hin.
  assert (now < d); [|lia]. destruct (decide (popped < budget)) as [Hlt|Hge].
  - by apply (Hdue Hlt) in Hin.
  - assert (pq_size (expiration_heap shard') = 0%nat) as Hz by lia.
    unfold pq_size in Hz. apply length_zero_iff_nil in Hz. rewrite Hz in Hin.
    by apply not_elem_of_nil in Hin.
Qed.

(** ** Construction *)
Lemma bit_ceil_power n :
  0 < n ≤ 2 ^ 63 → ∃ p, 0 ≤ p ≤ 63 ∧ bit_ceil n = 2 ^ p ∧ n ≤ 2 ^ p ∧ 2 ^ p < 2 * n.
Proof.
  intros Hn. exists (Z.log2_up n). unfold bit_ceil. pose proof (Z.log2_up_nonneg n).
  assert (Z.log2_up n ≤ 63). { change 63 with (Z.log2_up (2 ^ 63)). apply Z.log2_up_le_mono. lia. }
  split_and!; [done|done|done| |].
  - apply Z.log2_log2_up_spec. lia.
  - destruct (decide (n = 1)) as [->|]; [done|].
    destruct (Z.log2_up_spec n) as [Hlt _]; [lia|].
    rewrite <-(Z.succ_pred (Z.log2_up n)), Z.pow_succ_r; [lia|].
    pose proof (Z.log2_up_pos n). lia.
Qed.

Lemma make_store_wf n :
  0 < n ≤ 2 ^ 63 →
  ∃ store, make_store n = Ok store ∧ store_wf store ∧
    shard_count_ store = bit_ceil n ∧ ∀ k, lookup_entry store k = None.
Proof.
  intros Hn. destruct (bit_ceil_power n Hn) as (p & Hp & Hc & _).
  unfold make_store, normalize_shard_count. rewrite bool_decide_false by lia.
  eexists. split_and!; [done| |done|].
  - constructor; simpl; [by exists p| |].
    + unfold len. rewrite length_replicate, Z2Nat.id; [done|].
      rewrite Hc. apply Z.pow_nonneg. lia.
    + intros i shard [-> _]%lookup_replicate. constructor; simpl; [done|..|done|done].
      unfold in_u64, UINT64_MAX. lia.
  - intros k. unfold lookup_entry, shard_for. simpl.
    destruct (replicate _ _ !! _) as [shard|] eqn:E; [|done]. simpl.
    apply lookup_replicate in E as [-> _]. done.
Qed.

(** C30. Active expiration does its work: one sweep whose budget covers every
    heap leaves no expired entry in the store, and a sweep pops at most its
    budget from each heap. *)
Theorem sweep_complete_bounded now max_items (store : Store Q) :
  store_wf store →
  ∃ store' removed,
    sweep_expired now max_items store = Some (store', removed) ∧
    Forall2 (λ shard shard' : Shard Q,
      Z.of_nat (pq_size (expiration_heap shard)) - Z.max 0 max_items ≤
        Z.of_nat (pq_size (expiration_heap shard')) ∧
      (Z.of_nat (pq_size (expiration_heap shard)) ≤ max_items →
       ∀ k e, entries shard' !! k = Some e → is_expired e now = false))
      (shards_ store) (shards_ store').
Proof.
  intros Hwf.
  destruct (sweep_expired_post now max_items store Hwf)
    as (store' & total & Heq & Hwf' & Hc & Hall & _).
  exists store', total. split; [done|]. apply Forall2_same_length_lookup_2.
  { by eapply Forall2_length. }
  intros i shard shard' Hi Hi'.
  destruct (Forall2_lookup_l _ _ _ _ _ Hall Hi) as (sh & Hsh & _ & n & popped & Hpost).
  assert (sh = shard') as -> by congruence. split.
  - destruct Hpost as [[Hp Hp0] Hb _ _ _]. lia.
  - intros Hbudget k e He. eapply sweep_post_no_expired; [|done|done|done].
    by apply (store_wf_shards _ Hwf').
Qed.

(** Sharding.  The constructor throws on zero; otherwise it creates the
    smallest power of two of shards that is not below the request, and the
    mask of the hash selects, for every key, an existing shard: the remainder
    of the hash.  The new store is well-formed and empty. *)
Theorem store_construction n :
  make_store (Q := Q) 0 = Throw (InvalidArgument (lit "Store: shard_count must be greater than zero")) ∧
  (0 < n ≤ 2 ^ 63 →
   ∃ store p, make_store n = Ok store ∧ store_wf store ∧ shard_count_ store = 2 ^ p ∧
     n ≤ 2 ^ p < 2 * n ∧ (∀ key, lookup_entry store key = None) ∧
     ∀ key, shard_index hash store key = hash key mod 2 ^ p ∧ is_Some (shard_for hash store key)).
Proof.
  split; [done|]. intros Hn. destruct (make_store_wf n Hn) as (store & Hm & Hwf & Hc & Hl).
  destruct (bit_ceil_power n Hn) as (p & Hp & Hb & Hlo & Hhi). exists store, p.
  split_and!; try done; [congruence|]. intros key. split.
  - apply shard_index_mod; [lia|congruence].
  - destruct (shard_for_wf store key Hwf) as (shard & -> & _). by eexists.
Qed.
End Invariant.

#[export] Hint Resolve read_live_local shard_set_local shard_del_local shard_expire_local : kv.

(** ** A concrete engine, for the witnesses *)
Definition candidate_queue : Type := SortedQueue ExpirationCandidateOrder.

#[export] Instance candidate_queue_pq :
  PriorityQueue ExpirationCandidate ExpirationCandidateOrder candidate_queue :=
  sorted_priority_queue ExpirationCandidateOrder cand_deadline (λ _ _, eq_refl).

(** Some hash function. *)
Definition sum_hash (key : bytes) : Z := foldl (λ h c, u64 (h * 31 + code c)) 7 key.

Definition demo_store : Store candidate_queue :=
  mkStore 4 (replicate 4 (mkShard ∅ 0 pq_empty)) 0.

Lemma demo_store_made : make_store 3 = Ok demo_store.
Proof. vm_compute. reflexivity. Qed.

Lemma demo_store_wf : store_wf sum_hash demo_store.
Proof.
  destruct (make_store_wf sum_hash 3 (Q := candidate_queue)) as (s & Hs & Hwf & _); [lia|].
  rewrite demo_store_made in Hs. by injection Hs as <-.
Qed.

(** A store whose heap holds three candidates, which expire after a second. *)
Definition sweep_demo : Store candidate_queue :=
  let load k s := match set sum_hash k (lit "v") s with
    | Some (s, _) => match expire sum_hash 0 k 1 s with Some (s, _) => s | None => s end
    | None => s end in
  load (lit "c") (load (lit "b") (load (lit "a") (mkStore 1 [mkShard ∅ 0 pq_empty] 0))).

Lemma sweep_demo_wf : store_wf sum_hash sweep_demo.
Proof.
  unfold sweep_demo.
  destruct (make_store_wf (Q := candidate_queue) sum_hash 1) as (s0 & Hm & Hwf & _); [lia|].
  assert (s0 = mkStore 1 [mkShard ∅ 0 pq_empty] 0) as -> by (by vm_compute in Hm; simplify_eq).
  assert (∀ k s, store_wf sum_hash s → store_wf sum_hash match set sum_hash k (lit "v") s with
    | Some (s, _) => match expire sum_hash 0 k 1 s with Some (s, _) => s | None => s end
    | None => s end) as Hload; [|by repeat apply Hload].
  intros k s Hs. unfold set, expire.
  destruct (with_shard_local sum_hash s k (shard_set k (lit "v"))) as (? & s1 & _ & _ & -> & Hs1 & _); [done|auto with kv|].
  destruct (with_shard_local sum_hash s1 k (shard_expire 0 k 1)) as (? & s2 & _ & _ & -> & Hs2 & _); [done|auto with kv|].
  done.
Qed.

(** A budget of two leaves one of the three candidates at least, one of three
    leaves nothing that has expired. *)
Lemma sweep_complete_bounded_witness :
  pq_size ∘ expiration_heap <$> shards_ sweep_demo = [3%nat] ∧
  ∀ max_items, max_items = 2 ∨ max_items = 3 → ∃ store' removed,
    sweep_expired (2 * kNanosPerSecond) max_items sweep_demo = Some (store', removed) ∧
    Forall2 (λ shard shard' : Shard candidate_queue,
      Z.of_nat (pq_size (expiration_heap shard)) - Z.max 0 max_items ≤
        Z.of_nat (pq_size (expiration_heap shard')) ∧
      (Z.of_nat (pq_size (expiration_heap shard)) ≤ max_items →
       ∀ k e, entries shard' !! k = Some e → is_expired e (2 * kNanosPerSecond) = false))
      (shards_ sweep_demo) (shards_ store').
Proof.
  split; [vm_compute; reflexivity|]. intros max_items _.
  apply (sweep_complete_bounded sum_hash (2 * kNanosPerSecond) max_items sweep_demo), sweep_demo_wf.
Defined.

Lemma store_construction_witness :
  ∃ (store : Store candidate_queue) p, make_store 33 = Ok store ∧ shard_count_ store = 2 ^ p ∧ 33 ≤ 2 ^ p < 66.
Proof.
  destruct (proj2 (store_construction (Q := candidate_queue) sum_hash 33)) as (store & p & ? & _ & ? & ? & _); [lia|].
  exists store, p. split_and!; [assumption..|lia|lia].
Defined.
