(* ===== verification/StorageSpec.v ===== *)
(** * Specification of the store and refinement

    [SPEC.md] section 4 describes one map from keys to values with optional
    deadlines, in which an expired key behaves exactly like a missing one.
    [spec_exec] is that map; it never cleans up.  The refinement theorem says
    that the sharded engine, with its lazy and active clean-up, answers every
    sequence of timed operations as the map does. *)
From S2P Require Import Prelude PriorityQueue Storage StorageInv.

(** ** The abstract map *)
(** The operations of [Store], with the sweep of the maintenance thread. *)
Inductive Op :=
  | OpSet (key value : bytes)
  | OpGet (key : bytes)
  | OpDel (key : bytes)
  | OpExists (key : bytes)
  | OpExpire (key : bytes) (seconds : Z)
  | OpTtl (key : bytes)
  | OpSweep (max_items : Z).

Inductive Res :=
  | ResUnit
  | ResValue (v : option bytes)
  | ResBool (b : bool)
  | ResTtl (r : TtlResult).

#[export] Instance Res_eq_dec : EqDecision Res.
Proof. solve_decision. Defined.

Definition spec_live (now : Z) (m : gmap bytes (bytes * option Z)) (key : bytes)
    : option (bytes * option Z) :=
  '(v, d) ← m !! key;
  match d with
  | Some t => if t <=? now then None else Some (v, d)
  | None => Some (v, d)
  end.

Definition spec_exec (now : Z) (op : Op) (m : gmap bytes (bytes * option Z))
    : gmap bytes (bytes * option Z) * Res :=
  match op with
  | OpSet k v => (<[k := (v, None)]> m, ResUnit)
  | OpGet k => (m, ResValue (fst <$> spec_live now m k))
  | OpDel k => (delete k m, ResBool (bool_decide (is_Some (spec_live now m k))))
  | OpExists k => (m, ResBool (bool_decide (is_Some (spec_live now m k))))
  | OpExpire k s =>
      match spec_live now m k with
      | Some (v, _) => (<[k := (v, Some (now + s * kNanosPerSecond))]> m, ResBool true)
      | None => (m, ResBool false)
      end
  | OpTtl k =>
      (m, ResTtl match spec_live now m k with
          | None => mkTtlResult kMissing None
          | Some (_, None) => mkTtlResult kNoTtl None
          | Some (_, Some d) => mkTtlResult kHasTtl (Some ((d - now) / kNanosPerSecond))
          end)
  | OpSweep _ => (m, ResUnit)
  end.

Fixpoint spec_run (ops : list (Z * Op)) (m : gmap bytes (bytes * option Z))
    : gmap bytes (bytes * option Z) * list Res :=
  match ops with
  | [] => (m, [])
  | (now, op) :: ops =>
      let '(m, r) := spec_exec now op m in
      let '(m, rs) := spec_run ops m in
      (m, r :: rs)
  end.

(** A clock reading of [std::chrono::steady_clock], which starts at zero. *)
Definition clock_ok (now : Z) : Prop := 0 ≤ now ≤ INT64_MAX.

(** The deadline of an EXPIRE does not leave the range of the clock. *)
Definition op_in_range (now : Z) (op : Op) : Prop :=
  match op with
  | OpExpire _ s => in_i64 (s * kNanosPerSecond) ∧ in_i64 (now + s * kNanosPerSecond)
  | _ => True
  end.

(** The timed operations of a run: readings never go back. *)
Fixpoint timed (now : Z) (ops : list (Z * Op)) : Prop :=
  match ops with
  | [] => True
  | (t, op) :: ops => now ≤ t ∧ clock_ok t ∧ op_in_range t op ∧ timed t ops
  end.

Definition last_time (now : Z) (ops : list (Z * Op)) : Z := foldl (λ _ p, p.1) now ops.

Section Refinement.
Context {Q : Type} `{!PriorityQueue ExpirationCandidate ExpirationCandidateOrder Q}.
Context (hash : bytes → Z).

Definition exec (now : Z) (op : Op) (store : Store Q) : option (Store Q * Res) :=
  match op with
  | OpSet k v => '(s, _) ← set hash k v store; Some (s, ResUnit)
  | OpGet k => '(s, r) ← get hash now k store; Some (s, ResValue r)
  | OpDel k => '(s, r) ← del hash now k store; Some (s, ResBool r)
  | OpExists k => '(s, r) ← exists_ hash now k store; Some (s, ResBool r)
  | OpExpire k secs => '(s, r) ← expire hash now k secs store; Some (s, ResBool r)
  | OpTtl k => '(s, r) ← ttl hash now k store; Some (s, ResTtl r)
  | OpSweep n => '(s, _) ← sweep_expired now n store; Some (s, ResUnit)
  end.

Fixpoint run (ops : list (Z * Op)) (store : Store Q) : option (Store Q * list Res) :=
  match ops with
  | [] => Some (store, [])
  | (now, op) :: ops =>
      '(store, r) ← exec now op store;
      '(store, rs) ← run ops store;
      Some (store, r :: rs)
  end.

(** What a client can see of an entry at time [now]. *)
Definition visible (now : Z) (e : option Entry) : option (bytes * option Z) :=
  e ← e; if is_expired e now then None else Some (entry_value e, deadline e).

(** The simulation relation: the same keys are visible, with the same data. *)
Definition sim (now : Z) (store : Store Q) (m : gmap bytes (bytes * option Z)) : Prop :=
  store_wf hash store ∧
  ∀ k, visible now (lookup_entry hash store k) = spec_live now m k.

(** ** Time *)
Lemma visible_later now now' e e' :
  now ≤ now' → visible now e = visible now e' → visible now' e = visible now' e'.
Proof.
  intros Hle. unfold visible, is_expired.
  destruct e as [[v [d|] g]|], e' as [[v' [d'|] g']|]; simpl;
    repeat match goal with |- context [?a <=? ?b] => destruct (Z.leb_spec a b) end;
    intros; simplify_eq/=; try done; lia.
Qed.

Definition entry_of (p : bytes * option Z) : Entry := mkEntry p.1 p.2 0.

Lemma spec_live_visible now m k : spec_live now m k = visible now (entry_of <$> m !! k).
Proof. unfold spec_live, visible, is_expired. by destruct (m !! k) as [[v [d|]]|]. Qed.

Lemma sim_later now now' store m : now ≤ now' → sim now store m → sim now' store m.
Proof.
  intros Hle [Hwf Hv]. split; [done|]. intros k. specialize (Hv k).
  rewrite spec_live_visible in *. by eapply visible_later.
Qed.

(** ** Reads *)
Lemma visible_Some now e v d :
  visible now e = Some (v, d) ↔
  ∃ g, e = Some (mkEntry v d g) ∧ is_expired (mkEntry v d g) now = false.
Proof.
  unfold visible. destruct e as [[v' d' g']|]; simpl; [|naive_solver].
  destruct (is_expired _ _) eqn:E; split; [done| |intros [= -> ->]; eauto|].
  - intros (g & [= -> -> ->] & E'). congruence.
  - by intros (g & [= -> -> ->] & _).
Qed.

(** A read answers from the visible entry, and hides nothing at [now]. *)
Lemma read_live_visible {R} now key (on_live : Entry → R) on_missing store :
  store_wf hash store →
  ∃ store',
    with_shard hash store key (read_live now key on_live on_missing) =
      Some (store', match lookup_entry hash store key with
                    | Some e => if is_expired e now then on_missing else on_live e
                    | None => on_missing
                    end) ∧
    store_wf hash store' ∧
    ∀ k, visible now (lookup_entry hash store' k) = visible now (lookup_entry hash store k).
Proof.
  intros Hwf. destruct (with_shard_local hash store key (read_live now key on_live on_missing))
    as (shard & store' & Hs & Hw & -> & Hwf' & _ & _ & Hlook); [done|auto with kv|].
  exists store'. assert (Hl : lookup_entry hash store key = entries shard !! key).
  { unfold lookup_entry. by rewrite Hs. }
  rewrite Hl. unfold read_live, read_live_shared, read_live_exclusive in *.
  destruct (entries shard !! key) as [e|] eqn:He.
  2: { split_and!; [done..|]. intros k. rewrite Hlook. case_decide; subst; simpl; [|done].
       by rewrite He, Hl. }
  destruct (is_expired e now) eqn:Ex.
  - split_and!; [done..|]. intros k. rewrite Hlook. case_decide; subst; simpl; [|done].
    rewrite lookup_delete_eq, Hl. simpl. by rewrite Ex.
  - split_and!; [done..|]. intros k. rewrite Hlook. case_decide; subst; simpl; [|done].
    by rewrite He, Hl.
Qed.

(** ** One operation *)
Ltac start_local Hwf := lazymatch goal with
  | |- context [with_shard ?h ?s ?k ?f] =>
      let shard := fresh "shard" in
      let Hs := fresh "Hs" in let Hlook := fresh "Hlook" in
      destruct (with_shard_local h s k f)
        as (shard & store' & Hs & _ & -> & Hwf' & _ & _ & Hlook); [done|auto with kv|];
      assert (Hl : lookup_entry h s k = entries shard !! k)
        by (unfold lookup_entry; by rewrite Hs)
  end.

Lemma spec_live_insert now m k k' v d :
  spec_live now (<[k := (v, d)]> m) k' =
  if decide (k' = k) then visible now (Some (mkEntry v d 0)) else spec_live now m k'.
Proof.
  rewrite !spec_live_visible. rewrite lookup_insert.
  do 2 case_decide; try congruence; done.
Qed.

Lemma spec_live_delete now m k k' :
  spec_live now (delete k m) k' = if decide (k' = k) then None else spec_live now m k'.
Proof.
  unfold spec_live. rewrite lookup_delete. do 2 case_decide; try congruence; done.
Qed.

Lemma visible_entry now v d g g' :
  visible now (Some (mkEntry v d g)) = visible now (Some (mkEntry v d g')).
Proof. done. Qed.

Lemma is_Some_visible now e :
  bool_decide (is_Some (visible now e)) =
  match e with Some e => negb (is_expired e now) | None => false end.
Proof. destruct e as [e|]; simpl; [|done]. by destruct (is_expired e now). Qed.

Lemma set_sim now k v store m :
  sim now store m →
  ∃ store', exec now (OpSet k v) store = Some (store', ResUnit) ∧
    sim now store' (<[k := (v, None)]> m).
Proof.
  intros [Hwf Hv]. unfold exec, set. start_local Hwf. exists store'. split; [done|].
  split; [done|]. intros k'. rewrite Hlook, spec_live_insert. case_decide; [|done].
  simpl. by rewrite lookup_insert_eq.
Qed.

Lemma del_sim now k store m :
  sim now store m →
  ∃ store', exec now (OpDel k) store =
      Some (store', ResBool (bool_decide (is_Some (spec_live now m k)))) ∧
    sim now store' (delete k m).
Proof.
  intros [Hwf Hv]. unfold exec, del. start_local Hwf.
  rewrite <-Hv, is_Some_visible, Hl. exists store'. unfold shard_del in *.
  destruct (entries shard !! k) as [e|] eqn:He; (split; [done|]); (split; [done|]);
    intros k'; rewrite Hlook, spec_live_delete; (case_decide; [|done]); simpl.
  - by rewrite lookup_delete_eq.
  - by rewrite He.
Qed.

Lemma expire_sim now k secs store m :
  op_in_range now (OpExpire k secs) → sim now store m →
  ∃ store', exec now (OpExpire k secs) store =
      Some (store', (spec_exec now (OpExpire k secs) m).2) ∧
    sim now store' (spec_exec now (OpExpire k secs) m).1.
Proof.
  intros [Hr1 Hr2] [Hwf Hv]. unfold exec, expire. start_local Hwf. exists store'.
  unfold spec_exec. pose proof (Hv k) as Hk. rewrite Hl in Hk. unfold shard_expire in *.
  destruct (entries shard !! k) as [e|] eqn:He; simpl in Hk.
  - destruct (is_expired e now) eqn:Ex; rewrite <-Hk; simpl.
    + split; [done|]. split; [done|]. intros k'. rewrite Hlook. case_decide; [|done].
      subst. simpl. by rewrite lookup_delete_eq, <-Hk.
    + split; [done|]. split; [done|]. intros k'. rewrite Hlook, spec_live_insert.
      case_decide; [|done]. simpl. rewrite lookup_insert_eq.
      unfold add_seconds. by rewrite (i64_small (secs * _)), i64_small.
  - rewrite <-Hk. simpl. split; [done|]. split; [done|]. intros k'. rewrite Hlook.
    case_decide; [|done]. subst. simpl. by rewrite He, <-Hk.
Qed.

Lemma whole_seconds_div d now :
  clock_ok now → in_i64 d → now < d → whole_seconds d now = (d - now) / kNanosPerSecond.
Proof.
  unfold clock_ok, in_i64, INT64_MAX, INT64_MIN, whole_seconds. intros Hn Hd Hlt.
  rewrite i64_small by (unfold in_i64, INT64_MAX, INT64_MIN; lia).
  apply Z.quot_div_nonneg; unfold kNanosPerSecond; lia.
Qed.

Lemma read_sim now op store m :
  clock_ok now → sim now store m →
  (∃ k, op = OpGet k ∨ op = OpExists k ∨ op = OpTtl k) →
  ∃ store', exec now op store = Some (store', (spec_exec now op m).2) ∧ sim now store' m.
Proof.
  intros Hclock [Hwf Hv] [k Hop].
  destruct Hop as [->|[->| ->]]; unfold exec, get, exists_, ttl.
  - destruct (read_live_visible now k (λ e, Some (entry_value e)) None store Hwf)
      as (store' & -> & Hwf' & Hvis). exists store'. split.
    + simpl. do 3 f_equal. rewrite <-Hv. unfold visible.
      destruct (lookup_entry hash store k) as [e|]; simpl; [|done]. by destruct (is_expired e now).
    + split; [done|]. intros k'. by rewrite Hvis.
  - destruct (read_live_visible now k (λ _, true) false store Hwf)
      as (store' & -> & Hwf' & Hvis). exists store'. split.
    + simpl. do 3 f_equal. rewrite <-Hv, is_Some_visible.
      destruct (lookup_entry hash store k) as [e|]; simpl; [|done]. by destruct (is_expired e now).
    + split; [done|]. intros k'. by rewrite Hvis.
  - destruct (read_live_visible now k (ttl_of_entry now) (mkTtlResult kMissing None) store Hwf)
      as (store' & -> & Hwf' & Hvis). exists store'. split.
    + simpl. do 3 f_equal. rewrite <-Hv. unfold visible.
      destruct (lookup_entry hash store k) as [e|] eqn:He; simpl; [|done].
      destruct (is_expired e now) eqn:Ex; [done|]. unfold ttl_of_entry.
      destruct (deadline e) as [d|] eqn:Hd; [|done]. do 2 f_equal. apply whole_seconds_div; [done|..].
      * unfold lookup_entry in He. destruct (shard_for_wf hash store k Hwf) as (shard & Hs & Hw).
        rewrite Hs in He. by eapply (shard_wf_deadline _ _ _ _ Hw).
      * unfold is_expired in Ex. rewrite Hd in Ex. lia.
    + split; [done|]. intros k'. by rewrite Hvis.
Qed.

Lemma sweep_sim now n store m :
  sim now store m →
  ∃ store', exec now (OpSweep n) store = Some (store', ResUnit) ∧ sim now store' m.
Proof.
  intros [Hwf Hv]. unfold exec.
  destruct (sweep_expired_post hash now n store Hwf) as (store' & total & Heq & Hwf' & _).
  rewrite Heq. exists store'. split; [done|]. split; [done|]. intros k. rewrite <-Hv.
  destruct (sweep_expired_lookup hash now n store store' total k Hwf Heq) as [->|(-> & e & -> & Ex)];
    [done|]. simpl. by rewrite Ex.
Qed.

Lemma exec_sim now op store m :
  clock_ok now → op_in_range now op → sim now store m →
  ∃ store', exec now op store = Some (store', (spec_exec now op m).2) ∧
    sim now store' (spec_exec now op m).1.
Proof.
  intros Hclock Hop Hsim. destruct op.
  - by apply set_sim.
  - eapply read_sim; eauto.
  - by apply del_sim.
  - eapply read_sim; eauto.
  - by apply expire_sim.
  - eapply read_sim; eauto.
  - by apply sweep_sim.
Qed.

Lemma run_sim t0 ops store m :
  sim t0 store m → timed t0 ops →
  ∃ store', run ops store = Some (store', (spec_run ops m).2) ∧
    sim (last_time t0 ops) store' (spec_run ops m).1.
Proof.
  revert t0 store m. induction ops as [|[t op] ops IH]; intros t0 store m Hsim Ht.
  { by exists store. }
  destruct Ht as (Hle & Hc & Hop & Ht). apply (sim_later _ t) in Hsim; [|done].
  destruct (exec_sim t op store m Hc Hop Hsim) as (store1 & He & Hsim1).
  cbn [run spec_run]. rewrite He. cbn [mbind option_bind].
  destruct (spec_exec t op m) as [m1 r]. cbn [fst snd] in *.
  destruct (IH t store1 m1 Hsim1 Ht) as (store2 & Hr & Hsim2). rewrite Hr. cbn [mbind option_bind].
  destruct (spec_run ops m1) as [m2 rs]. exists store2. split; [done|]. apply Hsim2.
Qed.

Lemma make_store_sim n t :
  0 < n ≤ 2 ^ 63 →
  ∃ store, make_store n = Ok store ∧ sim t store ∅ ∧ shard_count_ store = bit_ceil n.
Proof.
  intros Hn. destruct (make_store_wf hash n Hn) as (store & Hm & Hwf & Hc & Hnone).
  exists store. split_and!; [done| |done]. split; [done|]. intros k.
  by rewrite Hnone.
Qed.

(** ** Operations that leave a key alone *)
Definition touches (key : bytes) (op : Op) : Prop :=
  match op with
  | OpSet k _ | OpDel k | OpExpire k _ => k = key
  | OpGet _ | OpExists _ | OpTtl _ | OpSweep _ => False
  end.

Lemma spec_exec_untouched now op m key :
  ~ touches key op → (spec_exec now op m).1 !! key = m !! key.
Proof.
  destruct op; simpl; intros Hk; try done.
  - by rewrite lookup_insert_ne.
  - by rewrite lookup_delete_ne.
  - destruct (spec_live _ _ _) as [[v d]|]; [|done]. simpl. by rewrite lookup_insert_ne.
Qed.

Lemma spec_run_untouched ops m key :
  Forall (λ p, ~ touches key p.2) ops → (spec_run ops m).1 !! key = m !! key.
Proof.
  revert m. induction ops as [|[t op] ops IH]; intros m Hall; [done|].
  apply Forall_cons in Hall as [Hop Hall]. simpl.
  pose proof (spec_exec_untouched t op m key Hop) as Hk.
  destruct (spec_exec t op m) as [m1 r]. specialize (IH m1 Hall).
  destruct (spec_run ops m1) as [m2 rs]. simpl in *. congruence.
Qed.

Lemma spec_run_app a b m :
  (spec_run (a ++ b) m).2 = (spec_run a m).2 ++ (spec_run b (spec_run a m).1).2.
Proof using.
  revert m. induction a as [|[t op] a IH]; intros m; [done|]. cbn [app spec_run].
  destruct (spec_exec t op m) as [m1 r]. specialize (IH m1).
  destruct (spec_run (a ++ b) m1), (spec_run a m1). simpl in *. by rewrite IH.
Qed.

Lemma spec_run_length ops m : length (spec_run ops m).2 = length ops.
Proof using.
  revert m. induction ops as [|[t op] ops IH]; intros m; [done|]. simpl.
  destruct (spec_exec t op m) as [m1 r]. specialize (IH m1).
  destruct (spec_run ops m1). simpl in *. lia.
Qed.

End Refinement.

(** ** Properties *)
Section Properties.
Context {Q : Type} `{!PriorityQueue ExpirationCandidate ExpirationCandidateOrder Q}.
Context (hash : bytes → Z).

(** C3. Refinement: a store built with any shard count answers every
    sequence of timed operations, sweeps included, exactly as one map with
    deadlines does; no operation is ever undefined. *)
Theorem store_refines_map n ops (store : Store Q) :
  0 < n ≤ 2 ^ 63 → make_store n = Ok store → timed 0 ops →
  ∃ store', run hash ops store = Some (store', (spec_run ops ∅).2) ∧
    sim hash (last_time 0 ops) store' (spec_run ops ∅).1.
Proof.
  intros Hn Hm Ht. destruct (make_store_sim hash n 0 Hn) as (store1 & Hm1 & Hsim & _).
  assert (store1 = store) as -> by congruence. by apply run_sim.
Qed.

(** C22. No stale expiration: whatever candidates the heap holds, a sweep at
    time [now] changes nothing a client can see at [now] or later; it counts
    exactly the entries it removed. *)
Theorem sweep_invisible now now' max_items (store : Store Q) :
  store_wf hash store → now ≤ now' →
  ∃ store' removed,
    sweep_expired now max_items store = Some (store', removed) ∧
    store_wf hash store' ∧
    removed = entry_count (shards_ store) - entry_count (shards_ store') ∧
    ∀ k, visible now' (lookup_entry hash store' k) = visible now' (lookup_entry hash store k).
Proof.
  intros Hwf Hle.
  destruct (sweep_expired_post hash now max_items store Hwf)
    as (store' & total & Heq & Hwf' & _ & _ & Hcount).
  exists store', total. split_and!; [done|done|lia|]. intros k. eapply visible_later; [done|].
  destruct (sweep_expired_lookup hash now max_items store store' total k Hwf Heq)
    as [->|(-> & e & -> & Ex)]; [done|]. simpl. by rewrite Ex.
Qed.

(** C25. The lifetime of a key: after SET and EXPIRE, and whatever operations
    on other keys, reads and sweeps follow, GET returns the value until the
    deadline and nothing from the deadline on, and TTL the whole seconds
    left. *)
Theorem expire_lifetime n (store : Store Q) k v secs t0 t1 t2 mid :
  0 < n ≤ 2 ^ 63 → make_store n = Ok store →
  timed 0 ([(t0, OpSet k v); (t1, OpExpire k secs)] ++ mid ++ [(t2, OpGet k); (t2, OpTtl k)]) →
  Forall (λ p, ~ touches k p.2) mid →
  ∃ store' rs, length rs = length mid ∧
    run hash ([(t0, OpSet k v); (t1, OpExpire k secs)] ++ mid ++ [(t2, OpGet k); (t2, OpTtl k)]) store =
      Some (store', [ResUnit; ResBool true] ++ rs ++
        if t2 <? t1 + secs * kNanosPerSecond
        then [ResValue (Some v);
              ResTtl (mkTtlResult kHasTtl (Some ((t1 + secs * kNanosPerSecond - t2) / kNanosPerSecond)))]
        else [ResValue None; ResTtl (mkTtlResult kMissing None)]).
Proof.
  intros Hn Hm Ht Hmid. destruct (make_store_sim hash n 0 Hn) as (store1 & Hm1 & Hsim & _).
  assert (store1 = store) as -> by congruence.
  destruct (run_sim hash 0 _ store ∅ Hsim Ht) as (store' & Hrun & _).
  exists store', (spec_run mid (<[k := (v, Some (t1 + secs * kNanosPerSecond))]> (<[k := (v, None)]> ∅))).2.
  split; [apply spec_run_length|]. rewrite Hrun. do 2 f_equal. cbn [app spec_run spec_exec].
  rewrite spec_live_insert. rewrite decide_True by done. cbn [visible mbind option_bind is_expired deadline].
  set (m := <[k := _]> _). pose proof (spec_run_untouched mid m k Hmid) as Hk.
  pose proof (spec_run_app mid [(t2, OpGet k); (t2, OpTtl k)] m) as Happ.
  destruct (spec_run (mid ++ _) m) as [m' rs]. cbn [snd] in *. rewrite Happ.
  simpl. do 3 f_equal. unfold spec_live. rewrite Hk. unfold m. rewrite lookup_insert_eq. simpl.
  destruct (Z.leb_spec (t1 + secs * kNanosPerSecond) t2), (Z.ltb_spec t2 (t1 + secs * kNanosPerSecond));
    try lia; done.
Qed.
End Properties.

(** ** Witnesses *)
Definition demo_ops : list (Z * Op) :=
  [(0, OpSet (lit "k") (lit "v")); (5, OpExpire (lit "k") 10)] ++
  [(6, OpSet (lit "a") (lit "b")); (7, OpSweep 20)] ++
  [(3000000000, OpGet (lit "k")); (3000000000, OpTtl (lit "k"))].

Ltac solve_timed :=
  unfold timed, clock_ok, op_in_range, in_i64, INT64_MAX, INT64_MIN, kNanosPerSecond; simpl;
  repeat split; lia.

Lemma demo_ops_timed : timed 0 demo_ops.
Proof. unfold demo_ops, app. solve_timed. Qed.

Lemma store_refines_map_witness :
  ∃ store', run sum_hash demo_ops demo_store = Some (store', (spec_run demo_ops ∅).2) ∧
    sim sum_hash 3000000000 store' (spec_run demo_ops ∅).1.
Proof.
  apply (store_refines_map sum_hash 3 demo_ops demo_store);
    [lia|apply demo_store_made|apply demo_ops_timed].
Defined.

(** Two of three expired entries are removed. *)
Lemma sweep_invisible_witness :
  let now := 2 * kNanosPerSecond in
  ∃ store' removed,
    sweep_expired now 2 sweep_demo = Some (store', removed) ∧ removed = 2 ∧
    removed = entry_count (shards_ sweep_demo) - entry_count (shards_ store') ∧
    ∀ k, visible now (lookup_entry sum_hash store' k) = visible now (lookup_entry sum_hash sweep_demo k).
Proof.
  intros now. destruct (sweep_invisible sum_hash now now 2 sweep_demo) as (s' & n & Hrun & _ & Hn & Hv);
    [apply sweep_demo_wf|lia|].
  exists s', n. split; [exact Hrun|]. split; [|split; [exact Hn|exact Hv]].
  assert (snd <$> sweep_expired now 2 sweep_demo = Some 2) as H2 by (vm_compute; reflexivity).
  rewrite Hrun in H2. by injection H2.
Defined.

Lemma expire_lifetime_witness :
  ∃ store' rs, length rs = 2%nat ∧
    run sum_hash demo_ops demo_store =
      Some (store', [ResUnit; ResBool true] ++ rs ++
        [ResValue (Some (lit "v")); ResTtl (mkTtlResult kHasTtl (Some 7))]).
Proof.
  apply (expire_lifetime sum_hash 3 demo_store (lit "k") (lit "v") 10 0 5 3000000000
    [(6, OpSet (lit "a") (lit "b")); (7, OpSweep 20)]);
    [lia|apply demo_store_made|apply demo_ops_timed|].
  repeat constructor; simpl; intros H; try discriminate H; exact H.
Defined.
