(* ===== verification/StorageConc.v ===== *)
(** * Concurrent access to a shard

    [Storage.v] runs an operation's critical sections back to back.  Here any
    number of threads share a shard: an operation reads the clock, then takes
    the lock; a read that finds an expired entry releases its shared lock and
    takes the exclusive one, and other threads may run in between and the
    clock may advance.  One transition is one critical section
    ([docs/CONCURRENCY.md], "Storage Locking"). *)
From stdpp Require Import relations.
From S2P Require Import Prelude PriorityQueue Storage StorageInv StorageSpec.

Section Conc.
Context {Q : Type} `{!PriorityQueue ExpirationCandidate ExpirationCandidateOrder Q}.

(** Where a thread is: no operation, before its first critical section with
    its reading of the clock, or between the two sections of [read_live] with
    the answer it will give. *)
Inductive Phase :=
  | Idle
  | Started (op : Op) (now : Z)
  | Recheck (key : bytes) (now : Z) (answer : Res).

Record Conc := mkConc {
  cc_clock : Z;
  cc_shard : Shard Q;
  cc_threads : list Phase;
}.

(** The shared section of a read: the answer, or the second section. *)
Definition read_section (now : Z) (key : bytes) (on_live : Entry → Res) (miss : Res) (shard : Shard Q)
    : Shard Q * Phase * option Res :=
  match read_live_shared shard now key with
  | ReadLive entry => (shard, Idle, Some (on_live entry))
  | ReadMissing => (shard, Idle, Some miss)
  | ReadExpired => (shard, Recheck key now miss, None)
  end.

(** The next critical section of a thread. *)
Definition section (ph : Phase) (shard : Shard Q) : option (Shard Q * Phase * option Res) :=
  match ph with
  | Idle => None
  | Recheck key now answer => Some (read_live_exclusive shard now key, Idle, Some answer)
  | Started op now =>
      match op with
      | OpGet k => Some (read_section now k (λ e, ResValue (Some (entry_value e))) (ResValue None) shard)
      | OpExists k => Some (read_section now k (λ _, ResBool true) (ResBool false) shard)
      | OpTtl k => Some (read_section now k (λ e, ResTtl (ttl_of_entry now e)) (ResTtl (mkTtlResult kMissing None)) shard)
      | OpSet k v => Some ((shard_set k v shard).1, Idle, Some ResUnit)
      | OpDel k => let '(shard', b) := shard_del now k shard in Some (shard', Idle, Some (ResBool b))
      | OpExpire k s => let '(shard', b) := shard_expire now k s shard in Some (shard', Idle, Some (ResBool b))
      | OpSweep n => '(shard', _) ← sweep_shard now n shard; Some (shard', Idle, Some ResUnit)
      end
  end.

Inductive Action :=
  | Tick (d : Z)
  | Begin (i : nat) (op : Op)
  | Enter (i : nat).

(** One transition; an answer when an operation returns. *)
Definition conc_step (a : Action) (s : Conc) : option (Conc * option Res) :=
  match a with
  | Tick d => if bool_decide (0 < d) then Some (mkConc (cc_clock s + d) (cc_shard s) (cc_threads s), None) else None
  | Begin i op =>
      match cc_threads s !! i with
      | Some Idle => Some (mkConc (cc_clock s) (cc_shard s) (<[i := Started op (cc_clock s)]> (cc_threads s)), None)
      | _ => None
      end
  | Enter i =>
      ph ← cc_threads s !! i;
      '(shard, ph, r) ← section ph (cc_shard s);
      Some (mkConc (cc_clock s) shard (<[i := ph]> (cc_threads s)), r)
  end.

Fixpoint conc_run (l : list Action) (s : Conc) : option (Conc * list Res) :=
  match l with
  | [] => Some (s, [])
  | a :: l =>
      '(s, r) ← conc_step a s;
      '(s, rs) ← conc_run l s;
      Some (s, option_list r ++ rs)
  end.

(** A thread's reading of the clock is not ahead of the clock. *)
Definition phase_ok (clock : Z) (ph : Phase) : Prop :=
  match ph with
  | Idle => True
  | Started _ now | Recheck _ now _ => now ≤ clock
  end.

Lemma conc_run_clock l s s' rs :
  conc_run l s = Some (s', rs) → Forall (phase_ok (cc_clock s)) (cc_threads s) →
  Forall (phase_ok (cc_clock s')) (cc_threads s').
Proof.
  revert s rs. induction l as [|a l IH]; intros s rs; simpl; [by intros [= <- _]|].
  intros ([s1 r] & Hs & ([s2 rs'] & Hr & [= <- _])%bind_Some)%bind_Some Hok. eapply IH; [done|].
  destruct a as [d|i op|i]; simpl in Hs.
  - case_bool_decide; [|done]. injection Hs as <- _. simpl. eapply Forall_impl; [done|].
    intros []; simpl; lia.
  - destruct (cc_threads s !! i) as [[]|]; try done. injection Hs as <- _.
    apply Forall_insert; [done|]. simpl. lia.
  - apply bind_Some in Hs as (ph & Hi & ([[sh ph'] r'] & Hsec & [= <- _])%bind_Some). simpl.
    apply Forall_insert; [done|]. pose proof (Forall_lookup_1 _ _ _ _ Hok Hi) as Hph.
    destruct ph as [|op now|key now ans]; simpl in *; [done| |by injection Hsec as _ <- _].
    unfold read_section in Hsec. destruct op; simpl in Hsec; cases_in Hsec; try done.
    all: apply bind_Some in Hsec as ([? ?] & _ & [= _ <- _]); done.
Qed.

(** The operations that write, and the key they write. *)
Definition writes (ph : Phase) : option bytes :=
  match ph with
  | Started (OpSet k _) _ | Started (OpDel k) _ | Started (OpExpire k _) _ => Some k
  | _ => None
  end.

Lemma visible_removed (now clock : Z) (m m' : gmap bytes Entry) (k : bytes) :
  now ≤ clock → expired_removed now m m' → visible clock (m' !! k) = visible clock (m !! k).
Proof.
  intros Hle Hrem. destruct (Hrem k) as [->|(-> & e & -> & Hex)]; [done|]. simpl.
  unfold is_expired in *. destruct (deadline e); [|done]. by replace (z <=? clock) with true by lia.
Qed.

Lemma read_section_spec now key on_live miss (shard shard' : Shard Q) ph r :
  read_section now key on_live miss shard = (shard', ph, r) →
  shard' = shard ∧
  match visible now (entries shard !! key) with
  | Some (v, d) => ph = Idle ∧ ∃ e, entries shard !! key = Some e ∧ entry_value e = v ∧ deadline e = d ∧ r = Some (on_live e)
  | None => (ph = Idle ∧ r = Some miss) ∨ (ph = Recheck key now miss ∧ r = None)
  end.
Proof.
  unfold read_section, read_live_shared, visible. destruct (entries shard !! key) as [e|]; simpl.
  - destruct (is_expired e now); intros [= <- <- <-]; split; auto. split; [done|]. by exists e.
  - intros [= <- <- <-]. auto.
Qed.

(** What one critical section may change, for a thread whose clock reading is
    [now ≤ clock]. *)
Lemma section_frame ph (shard shard' : Shard Q) ph' r clock :
  section ph shard = Some (shard', ph', r) → phase_ok clock ph →
  ∀ k, writes ph ≠ Some k → visible clock (entries shard' !! k) = visible clock (entries shard !! k).
Proof.
  intros Hs Hok k Hk. destruct ph as [|op now|key now ans]; simpl in *; [done| |].
  - destruct op as [k' v|k'|k'|k'|k' s|k'|n]; simpl in Hs.
    + injection Hs as <- _ _. simpl. by rewrite lookup_insert_ne by congruence.
    + injection Hs as Hs. apply read_section_spec in Hs as [-> _]. done.
    + unfold shard_del in Hs. destruct (entries shard !! k') eqn:E; simpl in Hs; injection Hs as <- _ _; [|done].
      simpl. by rewrite lookup_delete_ne by congruence.
    + injection Hs as Hs. apply read_section_spec in Hs as [-> _]. done.
    + unfold shard_expire in Hs. destruct (entries shard !! k') eqn:E; simpl in Hs; [|by injection Hs as <- _ _].
      destruct (is_expired e now); simpl in Hs; injection Hs as <- _ _; simpl.
      * by rewrite lookup_delete_ne by congruence.
      * by rewrite lookup_insert_ne by congruence.
    + injection Hs as Hs. apply read_section_spec in Hs as [-> _]. done.
    + destruct (sweep_shard_post (λ _, 0) now n shard) as (sh & m & popped & Heq & _ & Hpost).
      rewrite Heq in Hs. simpl in Hs. injection Hs as <- _ _.
      eapply visible_removed; [done|]. apply Hpost.
  - injection Hs as <- _ _. unfold read_live_exclusive.
    destruct (entries shard !! key) as [e|] eqn:E; [|done]. destruct (is_expired e now) eqn:Ex; [|done]. simpl.
    apply (visible_removed now); [done|]. intros k'. destruct (decide (k' = key)) as [->|].
    + right. rewrite lookup_delete_eq. eauto.
    + left. by rewrite lookup_delete_ne.
Qed.

(** The answer of a read for what is visible of its key. *)
Definition read_answer (op : Op) (now : Z) (e : option (bytes * option Z)) : option (bytes * Res) :=
  match op with
  | OpGet k => Some (k, ResValue (fst <$> e))
  | OpExists k => Some (k, ResBool (bool_decide (is_Some e)))
  | OpTtl k => Some (k, ResTtl match e with
      | None => mkTtlResult kMissing None
      | Some (_, None) => mkTtlResult kNoTtl None
      | Some (_, Some d) => mkTtlResult kHasTtl (Some (whole_seconds d now))
      end)
  | _ => None
  end.

(** A thread inside an operation is never stuck. *)
Lemma section_enabled ph (shard : Shard Q) : ph ≠ Idle → is_Some (section ph shard).
Proof.
  intros Hne. destruct ph as [|op now|key now ans]; simpl; [done| |by eexists].
  destruct op as [k v|k|k|k|k s|k|n]; try by eexists.
  - destruct (shard_del now k shard). by eexists.
  - destruct (shard_expire now k s shard). by eexists.
  - destruct (sweep_shard_post (λ _, 0) now n shard) as (sh & m & popped & -> & _). by eexists.
Qed.

(** C8. Clean-up is safe under concurrency.  Start any number of idle threads
    on a shard and interleave their operations and the clock in any way.  A
    thread inside an operation can always take its next step, and that step
    changes what is visible (now, at the current time) only of the key a SET,
    DEL or EXPIRE writes: reads, the second section of a lazy expiration and
    sweeps remove only entries that have expired, also when another thread has
    replaced the entry or its deadline between the two sections. *)
Theorem concurrent_cleanup_safe l s0 s rs i ph :
  Forall (λ ph, ph = Idle) (cc_threads s0) → conc_run l s0 = Some (s, rs) →
  cc_threads s !! i = Some ph → ph ≠ Idle →
  ∃ s' r, conc_step (Enter i) s = Some (s', r) ∧
    ∀ k, writes ph ≠ Some k →
      visible (cc_clock s) (entries (cc_shard s') !! k) = visible (cc_clock s) (entries (cc_shard s) !! k).
Proof.
  intros Hidle Hrun Hi Hne. destruct (section_enabled ph (cc_shard s) Hne) as [[[sh ph'] r] Hsec].
  simpl. rewrite Hi. simpl. rewrite Hsec. simpl. eexists _, _. split; [done|]. simpl.
  apply (section_frame _ _ _ _ _ _ Hsec).
  eapply Forall_lookup_1; [|exact Hi]. eapply conc_run_clock; [done|].
  eapply Forall_impl; [done|]. by intros ? ->.
Qed.

(** Reads answer at their first critical section.  A GET, EXISTS or TTL
    returns the answer for what its clock reading makes visible of its key in
    the shard at that section; if it needs a second section to remove an
    expired entry, the answer is that of a missing key whatever other threads
    do in between. *)
Theorem concurrent_read_answers s i op now key ans s' r :
  cc_threads s !! i = Some (Started op now) →
  read_answer op now (visible now (entries (cc_shard s) !! key)) = Some (key, ans) →
  conc_step (Enter i) s = Some (s', r) →
  cc_shard s' = cc_shard s ∧
  (r = Some ans ∨
   (r = None ∧ visible now (entries (cc_shard s) !! key) = None ∧
    ∀ s1, cc_threads s1 !! i = cc_threads s' !! i → snd <$> conc_step (Enter i) s1 = Some (Some ans))).
Proof.
  intros Hi Hans Hstep. simpl in Hstep. rewrite Hi in Hstep. cbn [mbind option_bind] in Hstep.
  assert (∀ on_live miss, section (Started op now) (cc_shard s) = Some (read_section now key on_live miss (cc_shard s)) →
    ans = match entries (cc_shard s) !! key with
          | Some e => if is_expired e now then miss else on_live e | None => miss end →
    cc_shard s' = cc_shard s ∧
    (r = Some ans ∨ (r = None ∧ visible now (entries (cc_shard s) !! key) = None ∧
      ∀ s1, cc_threads s1 !! i = cc_threads s' !! i → snd <$> conc_step (Enter i) s1 = Some (Some ans)))) as Hread.
  { intros on_live miss Hsec ->. rewrite Hsec in Hstep. unfold read_section, read_live_shared in Hstep.
    apply lookup_lt_Some in Hi as Hlt.
    destruct (entries (cc_shard s) !! key) as [e|] eqn:E; simpl in *.
    - destruct (is_expired e now) eqn:Ex; simpl in *; simplify_eq/=; [|auto].
      split; [done|right]. split_and!; [done..|]. intros s1 Hs1. rewrite Hs1, list_lookup_insert_eq by done. done.
    - simplify_eq/=. auto. }
  destruct op; simpl in Hans; simplify_eq; (eapply Hread; [reflexivity|]); unfold visible;
    destruct (entries (cc_shard s) !! key) as [e|]; simpl; try done;
    destruct (is_expired e now); done.
Qed.
End Conc.

(** ** An interleaving with a stale clock reading *)
Definition sec (n : Z) : Z := n * kNanosPerSecond.

Definition conc_start : @Conc candidate_queue :=
  mkConc 0 (mkShard ∅ 0 pq_empty) [Idle; Idle].

(** Thread 0 sets the key with five seconds to live and calls EXPIRE again
    after four; its clock reading is overtaken by thread 1, whose GET starts
    at six seconds. *)
Definition stale_expire : list Action :=
  let k := lit "k" in
  [Begin 0 (OpSet k (lit "v")); Enter 0; Begin 0 (OpExpire k 5); Enter 0; Tick (sec 4);
   Begin 0 (OpExpire k 10); Tick (sec 2); Begin 1 (OpGet k); Enter 1; Enter 0; Enter 1;
   Begin 1 (OpGet k); Enter 1].

(** C39. A stale clock reading revives an expired key.  [expire] reads the
    clock before it takes the lock.  In the interleaving above the EXPIRE
    called at 4 s reports success, an overlapping GET that starts at 6 s finds
    the key expired, and a later GET finds it again.  No order of the two
    overlapping calls at times inside their intervals gives these answers in
    the sequential store: an EXPIRE before the GET lets the GET see the value,
    an EXPIRE after it, at 6 s, fails. *)
Theorem stale_expire_revives :
  (snd <$> conc_run stale_expire conc_start =
    Some [ResUnit; ResBool true; ResBool true; ResValue None; ResValue (Some (lit "v"))]) ∧
  let m := {[ lit "k" := (lit "v", Some (sec 5)) ]} : gmap bytes (bytes * option Z) in
  (∀ t, sec 4 ≤ t < sec 5 →
    (spec_run [(t, OpExpire (lit "k") 10); (sec 6, OpGet (lit "k"))] m).2 = [ResBool true; ResValue (Some (lit "v"))]) ∧
  (∀ t, sec 5 ≤ t ≤ sec 6 →
    (spec_run [(t, OpExpire (lit "k") 10); (sec 6, OpGet (lit "k"))] m).2 = [ResBool false; ResValue None]) ∧
  (spec_run [(sec 6, OpGet (lit "k")); (sec 6, OpExpire (lit "k") 10)] m).2 = [ResValue None; ResBool false].
Proof.
  split; [by vm_compute|]. intros m.
  assert (Hm : ∀ t d, spec_live t (<[lit "k" := (lit "v", Some d)]> m) (lit "k") =
    if d <=? t then None else Some (lit "v", Some d)).
  { intros t d. unfold spec_live. by rewrite lookup_insert_eq. }
  assert (Hm0 : ∀ t, spec_live t m (lit "k") = if sec 5 <=? t then None else Some (lit "v", Some (sec 5))).
  { intros t. unfold spec_live, m. by rewrite lookup_singleton_eq. }
  split_and!; [| |by vm_compute]; intros t Ht; cbn [spec_run spec_exec]; rewrite Hm0.
  - replace (sec 5 <=? t) with false by lia. cbn [spec_run spec_exec snd fst]. rewrite Hm.
    by replace (t + 10 * kNanosPerSecond <=? sec 6) with false by (unfold sec, kNanosPerSecond in *; lia).
  - replace (sec 5 <=? t) with true by lia. cbn [spec_run spec_exec snd fst]. by rewrite Hm0.
Qed.

(** Thread 1 is about to enter its second section after EXPIRE moved the
    deadline: the entry stays. *)
Lemma concurrent_cleanup_safe_witness :
  ∃ s rs s' r, conc_run (take 10 stale_expire) conc_start = Some (s, rs) ∧
    cc_threads s !! 1%nat = Some (Recheck (lit "k") (sec 6) (ResValue None)) ∧
    conc_step (Enter 1) s = Some (s', r) ∧
    visible (sec 6) (entries (cc_shard s') !! lit "k") = Some (lit "v", Some (sec 14)).
Proof.
  assert (∃ s rs, conc_run (take 10 stale_expire) conc_start = Some (s, rs) ∧
    cc_threads s !! 1%nat = Some (Recheck (lit "k") (sec 6) (ResValue None)) ∧
    cc_clock s = sec 6 ∧ visible (sec 6) (entries (cc_shard s) !! lit "k") = Some (lit "v", Some (sec 14)))
    as (s & rs & Hrun & Hi & Hc & Hv).
  { eexists _, _. split; [vm_compute; reflexivity|]. split_and!; vm_compute; reflexivity. }
  destruct (concurrent_cleanup_safe (take 10 stale_expire) conc_start s rs 1 (Recheck (lit "k") (sec 6) (ResValue None))) as (s' & r & Hs & Hk);
    [by repeat constructor|exact Hrun|exact Hi|done|].
  exists s, rs, s', r. split_and!; [exact Hrun|exact Hi|exact Hs|].
  rewrite <-Hv, <-Hc. by apply Hk.
Defined.

Lemma concurrent_read_answers_witness :
  ∃ s s', cc_threads s !! 1%nat = Some (Started (OpGet (lit "k")) (sec 6)) ∧
    conc_step (Enter 1) s = Some (s', None) ∧ cc_shard s' = cc_shard s.
Proof.
  assert (∃ s rs s', conc_run (take 8 stale_expire) conc_start = Some (s, rs) ∧
    cc_threads s !! 1%nat = Some (Started (OpGet (lit "k")) (sec 6)) ∧
    read_answer (OpGet (lit "k")) (sec 6) (visible (sec 6) (entries (cc_shard s) !! lit "k")) =
      Some (lit "k", ResValue None) ∧
    conc_step (Enter 1) s = Some (s', None)) as (s & rs & s' & _ & Hi & Ha & Hs).
  { eexists _, _, _. split; [vm_compute; reflexivity|]. split_and!; vm_compute; reflexivity. }
  exists s, s'. split_and!; [exact Hi|exact Hs|].
  apply (concurrent_read_answers s 1 (OpGet (lit "k")) (sec 6) (lit "k") (ResValue None) s' None Hi Ha Hs).
Defined.
