(* ===== verification/StorageLin.v ===== *)
(** * Linearizability of the store

    [StorageConc.v] interleaves the critical sections of one shard.  Here any
    number of threads use the whole [Store] of [src/src/storage/store.cpp]: a
    keyed operation reads the clock and enters the sections of its key's
    shard, a sweep reads the clock once and enters the shards one after the
    other, then adds to the atomic counter.  A run records a history of
    invocations, linearization points and returns; the theorem is that the
    answers are those of the abstract map of [StorageSpec.v] applied to the
    operations in the order of their linearization points, as long as no
    operation applies a clock reading older than one already applied to its
    key. *)
From S2P Require Import Prelude PriorityQueue Storage StorageInv StorageSpec StorageConc.

(** The key of an operation; a sweep has none. *)
Definition op_key (op : Op) : option bytes :=
  match op with
  | OpSet k _ | OpGet k | OpDel k | OpExists k | OpExpire k _ | OpTtl k => Some k
  | OpSweep _ => None
  end.

(** [set] is the only operation that does not read the clock. *)
Definition reads_clock (op : Op) : bool := match op with OpSet _ _ => false | _ => true end.

#[export] Instance Op_eq_dec : EqDecision Op.
Proof. solve_decision. Defined.

Inductive Event :=
  | Invoke (i : nat) (op : Op)
  | Linearize (i : nat) (now : Z) (op : Op)
  | Return (i : nat) (r : Res).

Section Lin.
Context {Q : Type} `{!PriorityQueue ExpirationCandidate ExpirationCandidateOrder Q}.
Context (hash : bytes → Z).

(** A thread in a keyed operation, or in a sweep before its section of the
    shard [next]. *)
Inductive StorePhase :=
  | At (ph : Phase)
  | Sweeping (now max_items : Z) (next : nat) (removed : Z).

#[export] Instance Phase_eq_dec : EqDecision Phase.
Proof. solve_decision. Defined.
#[export] Instance StorePhase_eq_dec : EqDecision StorePhase.
Proof. solve_decision. Defined.

Record Concurrent := mkConcurrent {
  cs_clock : Z;
  cs_store : Store Q;
  cs_threads : list StorePhase;
}.

Definition phase_key (ph : Phase) : option bytes :=
  match ph with
  | Idle => None
  | Started op _ => op_key op
  | Recheck key _ _ => Some key
  end.

(** The next critical section of a thread on the shard it has locked. *)
Definition section_step (ph : Phase) (shard : Shard Q) : Shard Q * (Phase * option Res) :=
  match section ph shard with
  | Some (shard, ph, r) => (shard, (ph, r))
  | None => (shard, (ph, None))
  end.

(** The next section of a thread: the store, where the thread is after it, and
    its answer if the operation returns. *)
Definition store_section (ph : StorePhase) (store : Store Q) : option (Store Q * StorePhase * option Res) :=
  match ph with
  | At ph =>
      key ← phase_key ph;
      '(store, (ph, r)) ← with_shard hash store key (section_step ph);
      Some (store, At ph, r)
  | Sweeping now max_items next removed =>
      match shards_ store !! next with
      | Some shard =>
          '(shard, n) ← sweep_shard now max_items shard;
          Some (mkStore (shard_count_ store) (<[next := shard]> (shards_ store)) (active_expirations_ store),
                Sweeping now max_items (S next) (removed + n), None)
      | None =>
          Some (mkStore (shard_count_ store) (shards_ store)
                  (if removed >? 0 then u64 (active_expirations_ store + removed) else active_expirations_ store),
                At Idle, Some ResUnit)
      end
  end.

(** An operation linearizes at its first section. *)
Definition linearizes (ph : StorePhase) : option (Z * Op) :=
  match ph with
  | At (Started op now) => Some (now, op)
  | Sweeping now n 0 _ => Some (now, OpSweep n)
  | _ => None
  end.

Definition begin_op (op : Op) (now : Z) : StorePhase :=
  match op with
  | OpSweep n => Sweeping now n 0 0
  | _ => At (Started op now)
  end.

Definition store_step (a : Action) (s : Concurrent) : option (Concurrent * list Event) :=
  match a with
  | Tick d =>
      if bool_decide (0 < d) then Some (mkConcurrent (cs_clock s + d) (cs_store s) (cs_threads s), []) else None
  | Begin i op =>
      match cs_threads s !! i with
      | Some (At Idle) =>
          Some (mkConcurrent (cs_clock s) (cs_store s) (<[i := begin_op op (cs_clock s)]> (cs_threads s)),
                [Invoke i op])
      | _ => None
      end
  | Enter i =>
      ph ← cs_threads s !! i;
      '(store, ph', r) ← store_section ph (cs_store s);
      Some (mkConcurrent (cs_clock s) store (<[i := ph']> (cs_threads s)),
            option_list ((λ '(now, op), Linearize i now op) <$> linearizes ph) ++
            option_list (Return i <$> r))
  end.

(** The history of a run, in order. *)
Fixpoint store_run (l : list Action) (s : Concurrent) : option (Concurrent * list Event) :=
  match l with
  | [] => Some (s, [])
  | a :: l =>
      '(s, e) ← store_step a s;
      '(s, h) ← store_run l s;
      Some (s, e ++ h)
  end.

(** ** Reading a history *)
Definition linearization (h : list Event) : list (nat * (Z * Op)) :=
  omap (λ e, match e with Linearize i now op => Some (i, (now, op)) | _ => None end) h.

Definition returned (i : nat) (h : list Event) : list Res :=
  omap (λ e, match e with Return j r => if decide (j = i) then Some r else None | _ => None end) h.

(** The answers [rs] of the operations [lin], for those of thread [i]. *)
Definition answers_of (i : nat) (lin : list (nat * (Z * Op))) (rs : list Res) : list Res :=
  snd <$> filter (λ p, p.1.1 = i) (zip lin rs).

(** The answer of an operation that has linearized and not returned. *)
Definition pending (ph : StorePhase) : list Res :=
  match ph with
  | At (Recheck _ _ answer) => [answer]
  | Sweeping _ _ (S _) _ => [ResUnit]
  | _ => []
  end.

(** In the history of a thread every call is an invocation, the linearization
    of the operation invoked and a return, in this order; [None] if not. *)
Inductive CallState := Outside | Invoked (op : Op) | Applied.

Definition call_step (i : nat) (st : option CallState) (e : Event) : option CallState :=
  match e with
  | Invoke j op => if decide (j = i) then match st with Some Outside => Some (Invoked op) | _ => None end else st
  | Linearize j _ op =>
      if decide (j = i) then match st with
        | Some (Invoked op') => if decide (op = op') then Some Applied else None
        | _ => None end
      else st
  | Return j _ => if decide (j = i) then match st with Some Applied => Some Outside | _ => None end else st
  end.

Definition calls (i : nat) (h : list Event) : option CallState := foldl (call_step i) (Some Outside) h.

Definition call_state (ph : StorePhase) : CallState :=
  match ph with
  | At Idle => Outside
  | At (Started op _) => Invoked op
  | At (Recheck _ _ _) => Applied
  | Sweeping _ n 0 _ => Invoked (OpSweep n)
  | Sweeping _ _ (S _) _ => Applied
  end.

(** ** Clock readings *)

(** Does [op] apply its clock reading to [k]? *)
Definition applies (k : bytes) (op : Op) : bool :=
  reads_clock op && match op_key op with Some k' => bool_decide (k' = k) | None => true end.

(** The latest reading applied to [k]. *)
Definition last_applied (k : bytes) (l : list (Z * Op)) : Z :=
  foldl (λ t p, if applies k p.2 then Z.max t p.1 else t) 0 l.

(** No keyed operation applies a reading older than one applied to its key
    before; a sweep may. *)
Definition reading_fresh (past : list (Z * Op)) (p : Z * Op) : bool :=
  match op_key p.2 with
  | Some k => negb (reads_clock p.2) || (last_applied k past <=? p.1)
  | None => true
  end.

Fixpoint fresh_from (past l : list (Z * Op)) : bool :=
  match l with
  | [] => true
  | p :: l => reading_fresh past p && fresh_from (past ++ [p]) l
  end.

Definition fresh_readings (l : list (Z * Op)) : bool := fresh_from [] l.

Definition readings_ok (l : list (Z * Op)) : Prop :=
  Forall (λ p, clock_ok p.1 ∧ op_in_range p.1 p.2) l.
End Lin.

Section LinProofs.
Context {Q : Type} `{!PriorityQueue ExpirationCandidate ExpirationCandidateOrder Q}.
Context (hash : bytes → Z).

(** ** One section *)
Lemma section_step_local ph key :
  phase_key ph = Some key → local_section (Q := Q) hash key (section_step ph).
Proof.
  intros Hk n i shard Hw Hi. unfold section_step. destruct ph as [|op now|key' now ans]; simpl in *; [done| |].
  - destruct op as [k v|k|k|k|k s|k|?]; simplify_eq/=; try done;
      try (unfold read_section; destruct (read_live_shared shard now key); by split).
    + by apply (shard_set_local hash key v).
    + pose proof (shard_del_local hash now key n _ shard Hw eq_refl) as H. by destruct (shard_del now key shard).
    + pose proof (shard_expire_local hash now key s n _ shard Hw eq_refl) as H.
      by destruct (shard_expire now key s shard).
  - simplify_eq. unfold read_live_exclusive. destruct (entries shard !! key); [|done].
    destruct (is_expired _ _); [|done]. split; [by apply shard_wf_delete|].
    intros k Hk. simpl. by rewrite lookup_delete_ne.
Qed.

(** The first section of a keyed operation does what the map does: its key
    afterwards, and the answer, given at once or after the second section. *)
Lemma started_section op now k n i (shard : Shard Q) m t :
  op_key op = Some k → clock_ok now → op_in_range now op → shard_wf hash n i shard →
  (reads_clock op = true → t = now) →
  visible t (entries shard !! k) = spec_live t m k →
  let '(shard', (ph, r)) := section_step (Started op now) shard in
  visible t (entries shard' !! k) = spec_live t (spec_exec now op m).1 k ∧
  option_list r ++ pending (At ph) = [(spec_exec now op m).2] ∧
  call_state (At ph) = match r with Some _ => Outside | None => Applied end ∧
  match ph with Recheck key now' _ => key = k ∧ now' = now | Started _ _ => False | Idle => True end.
Proof.
  intros Hk Hc Hr Hw Ht Hv. unfold section_step.
  destruct op as [k' v|k'|k'|k'|k' s|k'|?]; simplify_eq/=; try (specialize (Ht eq_refl) as ->).
  - rewrite spec_live_insert, decide_True, lookup_insert_eq by done. done.
  - unfold read_section, read_live_shared. rewrite <-Hv.
    destruct (entries shard !! k) as [e|] eqn:He; simpl; [|by rewrite He].
    destruct (is_expired e now) eqn:Ex; simpl; rewrite He; simpl; by rewrite Ex.
  - rewrite <-Hv, is_Some_visible, spec_live_delete, decide_True by done. unfold shard_del.
    destruct (entries shard !! k) as [e|] eqn:He; simpl; [by rewrite lookup_delete_eq|by rewrite He].
  - unfold read_section, read_live_shared. rewrite <-Hv.
    destruct (entries shard !! k) as [e|] eqn:He; simpl; [|by rewrite He].
    destruct (is_expired e now) eqn:Ex; simpl; rewrite He; simpl; by rewrite Ex.
  - unfold shard_expire. destruct (entries shard !! k) as [e|] eqn:He; simpl in *.
    + destruct (is_expired e now) eqn:Ex; simpl in *; rewrite <-Hv; simpl.
      * by rewrite lookup_delete_eq, <-Hv.
      * rewrite spec_live_insert, decide_True, lookup_insert_eq by done. destruct Hr.
        unfold add_seconds. by rewrite (i64_small (s * _)), i64_small.
    + rewrite <-Hv. simpl. by rewrite He, <-Hv.
  - unfold read_section, read_live_shared. rewrite <-Hv.
    destruct (entries shard !! k) as [e|] eqn:He; simpl; [|by rewrite He].
    destruct (is_expired e now) eqn:Ex; simpl; rewrite He; simpl; rewrite Ex; [done|].
    split_and!; try done. unfold ttl_of_entry. destruct (deadline e) as [d|] eqn:Hd; [|done].
    do 4 f_equal. apply whole_seconds_div; [done|by eapply (shard_wf_deadline _ _ _ _ Hw)|].
    unfold is_expired in Ex. rewrite Hd in Ex. lia.
Qed.

(** Other sections only remove what has expired by [now]. *)
Lemma visible_mono now t (e e' : option Entry) :
  now ≤ t → e' = e ∨ (e' = None ∧ ∃ x, e = Some x ∧ is_expired x now = true) → visible t e' = visible t e.
Proof.
  intros Hle [->|(-> & x & -> & Hx)]; [done|]. simpl. unfold is_expired in *.
  destruct (deadline x); [|done]. by replace (z <=? t) with true by lia.
Qed.

Lemma sweep_section_lookup now max_items i store shard :
  store_wf hash store → shards_ store !! i = Some shard →
  ∃ shard' n, sweep_shard now max_items shard = Some (shard', n) ∧
    let store' := mkStore (shard_count_ store) (<[i := shard']> (shards_ store)) (active_expirations_ store) in
    store_wf hash store' ∧
    ∀ k, lookup_entry hash store' k = lookup_entry hash store k ∨
      (lookup_entry hash store' k = None ∧
       ∃ e, lookup_entry hash store k = Some e ∧ is_expired e now = true).
Proof.
  intros Hwf Hi. destruct (sweep_shard_post hash now max_items shard) as (shard' & n & popped & Heq & Hw & Hpost).
  exists shard', n. split; [done|]. apply lookup_lt_Some in Hi as Hlt. split.
  - destruct Hwf as [Hc Hl Hs]. constructor; simpl; [done|by unfold len; rewrite length_insert|].
    intros j sh Hj. apply list_lookup_insert_Some in Hj as [(<- & <- & _)|[_ Hj]]; eauto.
  - intros k. unfold lookup_entry, shard_for.
    change (shard_index hash (mkStore _ _ _) k) with (shard_index hash store k). simpl.
    destruct (decide (i = Z.to_nat (shard_index hash store k))) as [->|Hne].
    + rewrite list_lookup_insert_eq, Hi by done. simpl. apply (sweep_removed _ _ _ _ _ _ Hpost).
    + rewrite list_lookup_insert_ne by done. by left.
Qed.

Lemma last_applied_snoc k l p :
  last_applied k (l ++ [p]) = if applies k p.2 then Z.max (last_applied k l) p.1 else last_applied k l.
Proof. unfold last_applied. by rewrite foldl_app. Qed.

Lemma last_applied_le k l p : last_applied k l ≤ last_applied k (l ++ [p]).
Proof. rewrite last_applied_snoc. destruct (applies _ _); lia. Qed.

Lemma fresh_from_app past l l' :
  fresh_from past (l ++ l') = fresh_from past l && fresh_from (past ++ l) l'.
Proof.
  revert past. induction l as [|p l IH]; intros past; simpl; [by rewrite app_nil_r|].
  by rewrite IH, andb_assoc, <-app_assoc.
Qed.

Lemma fresh_readings_app l l' : fresh_readings (l ++ l') → fresh_readings l.
Proof. unfold fresh_readings. rewrite fresh_from_app. by intros [? _]%andb_True. Qed.

Lemma fresh_readings_snoc l now op k :
  fresh_readings (l ++ [(now, op)]) → op_key op = Some k → reads_clock op = true → last_applied k l ≤ now.
Proof.
  unfold fresh_readings. rewrite fresh_from_app. intros [_ H]%andb_True Hk Hr. simpl in H.
  unfold reading_fresh in H. simpl in H. rewrite Hk, Hr, andb_true_r in H. simpl in H.
  by apply Is_true_true, Z.leb_le in H.
Qed.

Lemma spec_run_snoc l p m :
  spec_run (l ++ [p]) m =
    ((spec_exec p.1 p.2 (spec_run l m).1).1, (spec_run l m).2 ++ [(spec_exec p.1 p.2 (spec_run l m).1).2]).
Proof.
  destruct p as [t op]. revert m. induction l as [|[t' op'] l IH]; intros m; simpl.
  - by destruct (spec_exec t op m).
  - destruct (spec_exec t' op' m) as [m1 r1]. rewrite IH. by destruct (spec_run l m1).
Qed.

(** ** The invariant *)
Definition ops (h : list Event) : list (Z * Op) := (linearization h).*2.

(** A reading kept by a thread past its linearization has been applied. *)
Definition phase_applied (l : list (Z * Op)) (ph : StorePhase) : Prop :=
  match ph with
  | At (Recheck key now _) => now ≤ last_applied key l
  | Sweeping now _ (S _) _ => ∀ k, now ≤ last_applied k l
  | _ => True
  end.

(** The store against the abstract map that has executed [l]: every key looks
    the same at the latest reading applied to it. *)
Record store_core (store : Store Q) (l : list (Z * Op)) : Prop := {
  sc_wf : store_wf hash store;
  sc_sim : ∀ k, let t := last_applied k l in
    visible t (lookup_entry hash store k) = spec_live t (spec_run l ∅).1 k;
}.

(** A section that only removes entries expired at an applied reading. *)
Lemma store_core_removed (store store' : Store Q) l (removed : bytes → Prop) now :
  store_core store l → store_wf hash store' →
  (∀ k, removed k → now ≤ last_applied k l) →
  (∀ k, lookup_entry hash store' k = lookup_entry hash store k ∨
    removed k ∧ lookup_entry hash store' k = None ∧
      ∃ e, lookup_entry hash store k = Some e ∧ is_expired e now = true) →
  store_core store' l.
Proof.
  intros [_ Hsim] Hwf Hle Hrem. constructor; [done|]. intros k t. unfold t. rewrite <-Hsim.
  destruct (Hrem k) as [->|(Hr & Hx)]; [done|]. apply (visible_mono now); [by apply Hle|by right].
Qed.

(** What holds after a section: [res] is its result, given or kept. *)
Definition section_post (store' : Store Q) (l : list (Z * Op)) (ph' : StorePhase) (r : option Res)
    (res : list Res) : Prop :=
  store_core store' l ∧ phase_applied l ph' ∧ option_list r ++ pending ph' = res ∧
  call_state ph' = match r with Some _ => Outside | None => Applied end.

Lemma started_core (store store' : Store Q) l op now ph' r :
  store_core store l → store_section hash (At (Started op now)) store = Some (store', ph', r) →
  fresh_readings (l ++ [(now, op)]) → readings_ok [(now, op)] →
  section_post store' (l ++ [(now, op)]) ph' r [(spec_exec now op (spec_run l ∅).1).2].
Proof.
  intros [Hwf Hsim] Hsec Hfresh Hr. apply Forall_singleton in Hr as [Hclock Hrange]. simpl in *.
  apply bind_Some in Hsec as (k & Hk & Hsec).
  destruct (with_shard_local hash store k (section_step (Started op now)))
    as (shard & store1 & Hs & Hw & Heq & Hwf1 & _ & _ & Hlook); [done|by apply section_step_local|].
  rewrite Heq in Hsec. simpl in Hsec.
  set (t := last_applied k (l ++ [(now, op)])).
  assert (Ht : reads_clock op = true → t = now).
  { intros Hrc. unfold t. rewrite last_applied_snoc. unfold applies. simpl. rewrite Hrc, Hk, bool_decide_true by done.
    simpl. pose proof (fresh_readings_snoc _ _ _ _ Hfresh Hk Hrc). lia. }
  pose proof (started_section op now k _ _ shard (spec_run l ∅).1 t Hk Hclock Hrange Hw Ht) as Hst.
  destruct (section_step (Started op now) shard) as [shard1 [ph1 r1]] eqn:E. simpl in *.
  destruct Hst as (Hv & Hans & Hcall & Hph).
  { specialize (Hsim k). simpl in Hsim. rewrite spec_live_visible in *.
    unfold lookup_entry in Hsim. rewrite Hs in Hsim. eapply visible_later; [|done]. apply last_applied_le. }
  injection Hsec as <- <- <-. split_and!; try done.
  - constructor; [done|]. intros k'. rewrite spec_run_snoc, Hlook. simpl. case_decide as Hkk; [by subst|].
    assert (applies k' op = false) as Hno.
    { unfold applies. rewrite Hk, bool_decide_false by done. by rewrite andb_false_r. }
    rewrite last_applied_snoc. simpl. rewrite Hno. rewrite (Hsim k'). unfold spec_live.
    rewrite spec_exec_untouched; [done|]. destruct op; simplify_eq/=; congruence.
  - destruct ph1 as [| |key now' ans]; try done. destruct Hph as [-> ->]. simpl. fold t.
    destruct (reads_clock op) eqn:Hrc; [by rewrite (Ht eq_refl)|]. destruct op; simplify_eq/=.
Qed.

Lemma recheck_core (store store' : Store Q) l key now ans ph' r :
  store_core store l → phase_applied l (At (Recheck key now ans)) →
  store_section hash (At (Recheck key now ans)) store = Some (store', ph', r) →
  section_post store' l ph' r [ans].
Proof.
  intros Hcore Happ Hsec. simpl in *.
  destruct (with_shard_local hash store key (section_step (Recheck key now ans)))
    as (shard & store1 & Hs & Hw & Heq & Hwf1 & _ & _ & Hlook); [apply Hcore|by apply section_step_local|].
  rewrite Heq in Hsec. injection Hsec as <- <- <-. split_and!; try done.
  apply (store_core_removed store store1 l (λ k, k = key) now); [done|done|by intros k ->|].
  intros k. rewrite Hlook. case_decide as Hk; [|by left]. subst. simpl. unfold read_live_exclusive.
  unfold lookup_entry. rewrite Hs. simpl. destruct (entries shard !! key) as [e|] eqn:He; [|by left].
  destruct (is_expired e now) eqn:Hx; simpl; [|by left]. right. rewrite lookup_delete_eq. eauto.
Qed.

(** The sections of a sweep; its first is its linearization. *)
Lemma sweep_core (store store' : Store Q) l now n next removed ph' r :
  let ph := Sweeping now n next removed in
  store_core store l → phase_applied l ph → store_section hash ph store = Some (store', ph', r) →
  section_post store' (l ++ option_list (linearizes ph)) ph' r [ResUnit].
Proof.
  intros ph Hcore Happ Hsec. set (l' := l ++ option_list (linearizes ph)).
  assert (Hle : ∀ k, last_applied k l ≤ last_applied k l').
  { intros k. unfold l', ph. destruct next; simpl; [apply last_applied_le|by rewrite app_nil_r]. }
  assert (Hnow : ∀ k, now ≤ last_applied k l').
  { intros k. unfold l', ph in *. destruct next; simpl in *; [rewrite last_applied_snoc; simpl; lia|].
    rewrite app_nil_r. apply Happ. }
  assert (Hcore' : store_core store l').
  { destruct Hcore as [Hwf Hsim]. constructor; [done|]. intros k. specialize (Hsim k). simpl in *.
    rewrite spec_live_visible in *. assert ((spec_run l' ∅).1 = (spec_run l ∅).1) as ->.
    { unfold l', ph. destruct next; simpl; [by rewrite spec_run_snoc|by rewrite app_nil_r]. }
    eapply visible_later; [apply Hle|done]. }
  clearbody l'. unfold ph in Hsec. cbn [store_section] in Hsec.
  destruct (shards_ store !! next) as [shard|] eqn:Hsh.
  - apply bind_Some in Hsec as ([shard' m] & Heq & [= <- <- <-]). split_and!; try done.
    destruct (sweep_section_lookup now n next store shard (sc_wf _ _ Hcore) Hsh) as (? & ? & Heq' & Hwf' & Hlook).
    rewrite Heq in Heq'. injection Heq' as <- <-.
    apply (store_core_removed store _ l' (λ _, True) now); [done|done|done|].
    intros k. destruct (Hlook k) as [|[]]; auto.
  - injection Hsec as <- <- <-. split_and!; try done. destruct Hcore' as [[] Hsim]. constructor; [by constructor|done].
Qed.

(** Any section of any thread. *)
Lemma section_core (store store' : Store Q) l ph ph' r :
  store_core store l → phase_applied l ph → store_section hash ph store = Some (store', ph', r) →
  fresh_readings (l ++ option_list (linearizes ph)) → readings_ok (option_list (linearizes ph)) →
  section_post store' (l ++ option_list (linearizes ph)) ph' r
    match linearizes ph with Some (now, op) => [(spec_exec now op (spec_run l ∅).1).2] | None => pending ph end.
Proof.
  intros Hcore Happ Hsec Hf Hr. destruct ph as [[|op now|key now ans]|now n next removed].
  - done.
  - by apply (started_core store).
  - simpl. rewrite app_nil_r. by apply (recheck_core store _ _ key now).
  - pose proof (sweep_core store store' l now n next removed ph' r Hcore Happ Hsec) as Hp. by destruct next.
Qed.

(** A section waits for nothing but its lock. *)
Definition in_operation (ph : StorePhase) : Prop :=
  match ph with
  | At Idle => False
  | At (Started op _) => is_Some (op_key op)
  | _ => True
  end.

Lemma store_section_total (store : Store Q) ph :
  store_wf hash store → in_operation ph →
  ∃ store' ph' r, store_section hash ph store = Some (store', ph', r) ∧ store_wf hash store'.
Proof.
  intros Hwf Hph. assert (∀ ph, is_Some (phase_key ph) → ∃ store' ph' r,
    store_section hash (At ph) store = Some (store', ph', r) ∧ store_wf hash store') as Hat.
  { clear ph Hph. intros ph [k Hk]. destruct (with_shard_local hash store k (section_step ph))
      as (shard & store1 & _ & _ & Heq & Hwf1 & _); [done|by apply section_step_local|].
    destruct (section_step ph shard) as [sh [ph1 r1]] eqn:E. simpl in Heq. exists store1, (At ph1), r1.
    split; [|done]. simpl. rewrite Hk. simpl. by rewrite Heq. }
  destruct ph as [[|op now|key now ans]|now n next removed].
  - done.
  - by apply Hat.
  - apply Hat. by eexists.
  - simpl. destruct (shards_ store !! next) as [shard|] eqn:Hsh.
    + destruct (sweep_section_lookup now n next store shard Hwf Hsh) as (sh & m & -> & Hwf' & _). simpl. eauto.
    + eexists _, _, _. split; [done|]. destruct Hwf. by constructor.
Qed.

(** ** Histories *)
Record thread_ok (h : list Event) (i : nat) (ph : StorePhase) : Prop := {
  to_applied : phase_applied (ops h) ph;
  to_answers : returned i h ++ pending ph = answers_of i (linearization h) (spec_run (ops h) ∅).2;
  to_calls : calls i h = Some (call_state ph);
}.

Record lin_inv (s : Concurrent (Q := Q)) (h : list Event) : Prop := {
  li_core : store_core (cs_store s) (ops h);
  li_threads : ∀ i ph, cs_threads s !! i = Some ph → thread_ok h i ph;
}.

Lemma ops_app h e : ops (h ++ e) = ops h ++ ops e.
Proof. unfold ops, linearization. by rewrite omap_app, fmap_app. Qed.

Lemma answers_of_snoc j lin rs p r :
  length lin = length rs →
  answers_of j (lin ++ [p]) (rs ++ [r]) = answers_of j lin rs ++ (if decide (p.1 = j) then [r] else []).
Proof.
  intros Hl. unfold answers_of. rewrite zip_with_app by done. rewrite filter_app, fmap_app. f_equal.
  simpl. rewrite filter_cons. simpl. by repeat case_decide.
Qed.

Lemma lin_ops_length h : length (linearization h) = length (spec_run (ops h) ∅).2.
Proof. rewrite spec_run_length. unfold ops. by rewrite length_fmap. Qed.

(** What a linearization adds for a thread. *)
Lemma answers_linearize j h i now op :
  answers_of j (linearization (h ++ [Linearize i now op])) (spec_run (ops (h ++ [Linearize i now op])) ∅).2 =
  answers_of j (linearization h) (spec_run (ops h) ∅).2 ++
    (if decide (i = j) then [(spec_exec now op (spec_run (ops h) ∅).1).2] else []).
Proof.
  rewrite ops_app. change (ops [Linearize i now op]) with [(now, op)].
  rewrite spec_run_snoc. unfold linearization at 1. rewrite omap_app. simpl.
  rewrite answers_of_snoc; [done|apply lin_ops_length].
Qed.

Definition event_thread (e : Event) : nat :=
  match e with Invoke i _ | Linearize i _ _ | Return i _ => i end.

Lemma phase_applied_app l l' ph : phase_applied l ph → phase_applied (l ++ l') ph.
Proof.
  revert l. induction l' as [|p l' IH]; intros l; [by rewrite app_nil_r|]. rewrite cons_middle, app_assoc.
  intros H. apply IH. pose proof (λ k, last_applied_le k l p) as Hle.
  destruct ph as [[| |key now ans]|now n [|i] r]; simpl in *; try done.
  - specialize (Hle key). lia.
  - intros k. specialize (H k). specialize (Hle k). lia.
Qed.

(** Events of other threads do not concern a thread. *)
Lemma thread_ok_other h e j ph : event_thread e ≠ j → thread_ok h j ph → thread_ok (h ++ [e]) j ph.
Proof.
  intros Hne [Hp Ha Hc]. constructor.
  - rewrite ops_app. by apply phase_applied_app.
  - assert (returned j (h ++ [e]) = returned j h) as ->.
    { unfold returned. rewrite omap_app. destruct e; simpl in *; rewrite ?decide_False by done; by rewrite app_nil_r. }
    rewrite Ha. destruct e as [i op|i now op|i r]; simpl in *.
    + unfold ops, linearization. rewrite !omap_app. simpl. by rewrite app_nil_r.
    + rewrite answers_linearize, decide_False, app_nil_r; done.
    + unfold ops, linearization. rewrite !omap_app. simpl. by rewrite app_nil_r.
  - unfold calls. rewrite foldl_app. fold (calls j h). rewrite Hc.
    destruct e; simpl in *; by rewrite decide_False.
Qed.

Lemma thread_ok_others h e j ph :
  Forall (λ e, event_thread e ≠ j) e → thread_ok h j ph → thread_ok (h ++ e) j ph.
Proof.
  intros He. revert h. induction He as [|ev e Hev _ IH]; intros h Hok; [by rewrite app_nil_r|].
  rewrite cons_middle, app_assoc. by apply IH, thread_ok_other.
Qed.

(** The events of the thread itself. *)
Lemma thread_ok_invoke h i op now :
  thread_ok h i (At Idle) → thread_ok (h ++ [Invoke i op]) i (begin_op op now).
Proof.
  intros [_ Ha Hc]. assert (ops (h ++ [Invoke i op]) = ops h ∧ linearization (h ++ [Invoke i op]) = linearization h)
    as [Ho Hl] by (unfold ops, linearization; rewrite !omap_app; simpl; by rewrite !app_nil_r).
  constructor.
  - by destruct op.
  - rewrite Ho, Hl, <-Ha. unfold returned. rewrite omap_app. by destruct op; simpl; rewrite !app_nil_r.
  - unfold calls in *. rewrite foldl_app, Hc. simpl. rewrite decide_True by done. by destruct op.
Qed.

(** A section adds its linearization and its return. *)
Lemma thread_ok_section h i ph ph' r res :
  thread_ok h i ph → ph ≠ At Idle →
  option_list r ++ pending ph' = match linearizes ph with
    | Some (now, op) => [(spec_exec now op (spec_run (ops h) ∅).1).2] | None => pending ph end →
  res = option_list ((λ '(now, op), Linearize i now op) <$> linearizes ph) ++ option_list (Return i <$> r) →
  phase_applied (ops (h ++ res)) ph' → call_state ph' = match r with Some _ => Outside | None => Applied end →
  (linearizes ph = None → call_state ph = Applied) →
  thread_ok (h ++ res) i ph'.
Proof.
  intros [Hap Ha Hc] Hni Hres -> Happ Hcs Hpast.
  assert (∀ h1 res1, calls i h1 = Some Applied → returned i h1 ++ [res1] = answers_of i (linearization h1) (spec_run (ops h1) ∅).2 →
    option_list r ++ pending ph' = [res1] → phase_applied (ops (h1 ++ option_list (Return i <$> r))) ph' →
    thread_ok (h1 ++ option_list (Return i <$> r)) i ph') as Hret.
  { clear -Hcs. intros h1 res1 Hc1 Ha1 Hr1 Happ. destruct r as [r|]; simpl in *.
    - assert (pending ph' = [] ∧ r = res1) as [Hp ->] by (by injection Hr1).
      constructor; [done| |].
      + rewrite Hp, app_nil_r. unfold ops, linearization, returned in *. rewrite !omap_app. simpl.
        by rewrite decide_True, app_nil_r.
      + unfold calls in *. rewrite foldl_app, Hc1, Hcs. simpl. by rewrite decide_True.
    - rewrite app_nil_r in *. constructor; [done|by rewrite Hr1|by rewrite Hc1, Hcs]. }
  destruct (linearizes ph) as [[now op]|] eqn:Hl; simpl in *.
  - rewrite cons_middle, app_assoc in *. eapply Hret; [| |done|done].
    + unfold calls in *. rewrite foldl_app, Hc. simpl. rewrite decide_True by done.
      destruct ph as [[]|? ? []]; simplify_eq/=; by rewrite decide_True.
    + rewrite answers_linearize, decide_True, <-Ha by done. unfold returned. rewrite omap_app. simpl.
      assert (pending ph = []) as -> by (by destruct ph as [[]|? ? []]). by rewrite !app_nil_r.
  - assert (∃ x, pending ph = [x]) as [x Hx] by (destruct ph as [[]|? ? []]; simplify_eq/=; eauto; by destruct Hni).
    rewrite Hx in *. eapply Hret; [|done|done|done]. rewrite Hc. by rewrite Hpast.
Qed.

(** ** Steps *)
Lemma store_step_inv a (s s' : Concurrent (Q := Q)) h e :
  lin_inv s h → store_step hash a s = Some (s', e) →
  fresh_readings (ops (h ++ e)) → readings_ok (ops (h ++ e)) → lin_inv s' (h ++ e).
Proof.
  intros Hinv Hstep Hfresh Hok.
  assert (∀ i ph' clock store', Forall (λ e, event_thread e = i) e → store_core store' (ops (h ++ e)) →
    thread_ok (h ++ e) i ph' → lin_inv (mkConcurrent clock store' (<[i := ph']> (cs_threads s))) (h ++ e)) as Hintro.
  { intros i ph' clock store' He Hcore Hth. constructor; [done|]. intros j ph1 Hj. simpl in Hj.
    apply list_lookup_insert_Some in Hj as [(<- & <- & _)|[Hne Hj]]; [done|].
    apply thread_ok_others; [|by apply Hinv]. eapply Forall_impl; [done|]. simpl. congruence. }
  destruct a as [d|i op|i]; simpl in Hstep.
  - case_bool_decide; [|done]. injection Hstep as <- <-. rewrite app_nil_r. by destruct Hinv.
  - destruct (cs_threads s !! i) as [[[]|]|] eqn:Hi; try done. injection Hstep as <- <-.
    apply Hintro; [by repeat constructor| |apply thread_ok_invoke; by apply Hinv].
    rewrite ops_app. change (ops [Invoke i op]) with (@nil (Z * Op)). rewrite app_nil_r. apply Hinv.
  - apply bind_Some in Hstep as (ph & Hi & ([[store' ph'] r] & Hsec & [= <- <-])%bind_Some).
    set (e := option_list _ ++ _) in *. assert (ops (h ++ e) = ops h ++ option_list (linearizes ph)) as Ho.
    { rewrite ops_app. unfold e. rewrite ops_app. destruct (linearizes ph) as [[now op]|], r; done. }
    pose proof (li_threads _ _ Hinv i ph Hi) as Hth. rewrite Ho in Hfresh, Hok. apply Forall_app in Hok as [_ Hok].
    destruct (section_core (cs_store s) store' (ops h) ph ph' r (li_core _ _ Hinv) (to_applied _ _ _ Hth) Hsec Hfresh Hok)
      as (Hcore & Happ & Hres & Hcs).
    apply Hintro; [|by rewrite Ho|].
    + unfold e. destruct (linearizes ph) as [[now op]|], r; repeat constructor.
    + apply (thread_ok_section h i ph ph' r e); try done; [by intros ->|by rewrite Ho|].
      by destruct ph as [[]|? ? []].
Qed.

Lemma store_run_inv l (s s' : Concurrent (Q := Q)) h0 h :
  lin_inv s h0 → store_run hash l s = Some (s', h) →
  fresh_readings (ops (h0 ++ h)) → readings_ok (ops (h0 ++ h)) → lin_inv s' (h0 ++ h).
Proof.
  revert s h0 h. induction l as [|a l IH]; intros s h0 h Hinv Hrun Hf Hr; simpl in Hrun.
  { injection Hrun as <- <-. by rewrite app_nil_r. }
  apply bind_Some in Hrun as ([s1 e] & Hs & ([s2 h'] & Hrun & [= <- <-])%bind_Some).
  rewrite app_assoc in *. apply (IH s1); [|done..]. rewrite ops_app in Hf, Hr.
  eapply store_step_inv; [done..|by eapply fresh_readings_app|by apply Forall_app in Hr as [? _]].
Qed.

Lemma store_core_start (store : Store Q) :
  store_wf hash store → (∀ k, lookup_entry hash store k = None) → store_core store [].
Proof. intros Hwf Hnone. constructor; [done|]. intros k. by rewrite Hnone. Qed.

Lemma lin_inv_start store threads :
  store_wf hash store → (∀ k, lookup_entry hash store k = None) → Forall (λ ph, ph = At Idle) threads →
  lin_inv (mkConcurrent (Q := Q) 0 store threads) [].
Proof.
  intros Hwf Hnone Hidle. constructor; simpl; [by apply store_core_start|].
  intros i ph Hi. apply (Forall_lookup_1 _ _ _ _ Hidle) in Hi as ->. by constructor.
Qed.

(** C4. The concurrent store is linearizable.  Build a store with any shard
    count, start any number of idle threads at time 0 and interleave their
    operations, their critical sections, sweeps and the clock in any way.  In
    the history of every thread each call is an invocation, a linearization
    point inside it and a return; and if no keyed operation applies a clock
    reading older than one applied to its key before, and the readings and the
    deadlines computed from them fit the clock, the answers a thread has got, with the one it is about to return, are the answers of the abstract
    map when it executes the operations of all threads in the order of their
    linearization points.  After the run the store shows the map's contents. *)
Theorem store_linearizable n (store : Store Q) threads l s h :
  0 < n ≤ 2 ^ 63 → make_store n = Ok store → Forall (λ ph, ph = At Idle) threads →
  store_run hash l (mkConcurrent 0 store threads) = Some (s, h) →
  fresh_readings (ops h) → readings_ok (ops h) →
  (∀ i ph, cs_threads s !! i = Some ph →
     calls i h = Some (call_state ph) ∧
     returned i h ++ pending ph = answers_of i (linearization h) (spec_run (ops h) ∅).2) ∧
  (∀ k, let t := last_applied k (ops h) in
     visible t (lookup_entry hash (cs_store s) k) = spec_live t (spec_run (ops h) ∅).1 k).
Proof.
  intros Hn Hm Hidle Hrun Hf Hr.
  destruct (make_store_wf hash n Hn) as (store1 & Hm1 & Hwf & _ & Hnone).
  assert (store1 = store) as -> by congruence.
  destruct (store_run_inv l _ s [] h (lin_inv_start store threads Hwf Hnone Hidle) Hrun Hf Hr) as [[_ Hsim] Hth].
  split; [|done]. intros i ph Hi. by destruct (Hth i ph Hi).
Qed.
End LinProofs.

(** ** Witness *)

(** A sweep and a read that expires its key lazily overlap a SET of the key. *)
Definition lin_demo : list Action :=
  let k := lit "k" in
  [Begin 0 (OpSet k (lit "v")); Enter 0; Begin 0 (OpExpire k 5); Enter 0; Tick (sec 6);
   Begin 2 (OpSweep 20); Begin 1 (OpGet k); Enter 1; Begin 0 (OpSet k (lit "w")); Enter 2; Enter 0;
   Enter 2; Enter 1; Begin 1 (OpGet k); Enter 2; Enter 1; Enter 2; Enter 2].

Definition lin_demo_start : Concurrent := mkConcurrent 0 demo_store [At Idle; At Idle; At Idle].

Lemma store_linearizable_witness :
  ∃ s h, store_run sum_hash lin_demo lin_demo_start = Some (s, h) ∧
    returned 1 h = [ResValue None; ResValue (Some (lit "w"))] ∧
    returned 1 h = answers_of 1 (linearization h) (spec_run (ops h) ∅).2.
Proof.
  assert (∃ s h, store_run sum_hash lin_demo lin_demo_start = Some (s, h) ∧
    cs_threads s !! 1%nat = Some (At Idle) ∧ fresh_readings (ops h) = true ∧
    forallb (λ p, (0 <=? p.1) && (p.1 <=? 6 * kNanosPerSecond)) (ops h) = true ∧
    forallb (λ p, match p.2 with OpExpire _ s => s =? 5 | _ => true end) (ops h) = true ∧
    returned 1 h = [ResValue None; ResValue (Some (lit "w"))])
    as (s & h & Hrun & Hi & Hf & Hc & He & Hr).
  { eexists _, _. split; [vm_compute; reflexivity|]. split_and!; vm_compute; reflexivity. }
  exists s, h. split_and!; [exact Hrun|exact Hr|]. rewrite <-(app_nil_r (returned 1 h)).
  apply (store_linearizable sum_hash 3 demo_store [At Idle; At Idle; At Idle] lin_demo s h)
    with (i := 1%nat) (ph := At Idle); [lia|apply demo_store_made|by repeat constructor|exact Hrun|by rewrite Hf| |exact Hi].
  apply Forall_forall. intros [t op] Hin.
  rewrite forallb_forall in Hc, He. specialize (Hc _ (proj1 (list_elem_of_In _ _) Hin)).
  specialize (He _ (proj1 (list_elem_of_In _ _) Hin)). simpl in *.
  unfold clock_ok, op_in_range, in_i64, INT64_MAX, INT64_MIN, kNanosPerSecond in *.
  clear -Hc He. split; [lia|]. destruct op; try exact I. split; lia.
Defined.
