(* ===== verification/Sweeper.v ===== *)
(** * TTL sweeper

    Models [src/src/storage/ttl_sweeper.cpp]: the maintenance thread sweeps,
    sleeps and sweeps again until it is stopped.  A tick is one evaluation of
    the loop condition: the state of the stop token and, if the loop goes on,
    what the clock reads during the sweep. *)
From S2P Require Import Prelude PriorityQueue Storage StorageInv.

Record TtlSweeperConfig := mkTtlSweeperConfig {
  interval_ms : Z;
  max_items_per_shard : Z;
}.

Definition default_sweeper : TtlSweeperConfig := mkTtlSweeperConfig 100 20.

Section Sweeper.
Context {Q : Type} `{!PriorityQueue ExpirationCandidate ExpirationCandidateOrder Q}.
Context (hash : bytes → Z).

(** [TtlSweeper::run]: [true] when the loop has ended. *)
Fixpoint sweeper_run (config : TtlSweeperConfig) (ticks : list (bool * Z)) (store : Store Q)
    : option (Store Q * bool) :=
  match ticks with
  | [] => Some (store, false)
  | (stop_requested, now) :: ticks =>
      if (stop_requested : bool) then Some (store, true)
      else
        '(store, _) ← sweep_expired now (max_items_per_shard config) store;
        sweeper_run config ticks store
  end.

(** No entry of the shard has expired at [t]. *)
Definition shard_clean (t : Z) (shard : Shard Q) : Prop :=
  ∀ k e, entries shard !! k = Some e → is_expired e t = false.

Lemma is_expired_mono e t t' : t ≤ t' → is_expired e t' = false → is_expired e t = false.
Proof. unfold is_expired. destruct (deadline e); [lia|done]. Qed.

(** One pass: a shard becomes clean, or its heap shrinks by the budget. *)
Lemma sweep_post_progress n i t now budget shard shard' removed popped :
  shard_wf hash n i shard' → t ≤ now → 0 ≤ budget →
  sweep_post now budget shard shard' removed popped →
  (shard_clean t shard → shard_clean t shard') ∧
  (shard_clean t shard' ∨
   Z.of_nat (pq_size (expiration_heap shard')) + budget = Z.of_nat (pq_size (expiration_heap shard))).
Proof.
  intros Hwf Ht Hb [[Hp Hp0] Hbud _ Hrem Hdue]. split.
  - intros Hc k e Hk. destruct (Hrem k) as [Heq|[Hn _]]; [|congruence]. rewrite Heq in Hk. eauto.
  - destruct (decide (popped < budget)) as [Hlt|]; [left|right; lia].
    intros k e Hk. apply (is_expired_mono _ t now Ht). unfold is_expired.
    destruct (deadline e) as [d|] eqn:Hd; [|done].
    pose proof (shard_wf_tracked _ _ _ _ Hwf k e d Hk Hd) as Hin. apply Hdue in Hin; [|done]. simpl in Hin. lia.
Qed.

Lemma empty_heap_clean n i t shard :
  shard_wf hash n i shard → pq_size (expiration_heap shard) = 0%nat → shard_clean t shard.
Proof.
  intros Hwf Hz k e Hk. unfold is_expired. destruct (deadline e) as [d|] eqn:Hd; [|done].
  pose proof (shard_wf_tracked _ _ _ _ Hwf k e d Hk Hd) as Hin.
  unfold pq_size in Hz. apply length_zero_iff_nil in Hz. rewrite Hz in Hin. by apply elem_of_nil in Hin.
Qed.

(** Every shard is clean or [n] passes away from an empty heap. *)
Definition nearly_clean (t budget : Z) (n : nat) (shard : Shard Q) : Prop :=
  shard_clean t shard ∨ Z.of_nat (pq_size (expiration_heap shard)) ≤ budget * Z.of_nat n.

Lemma sweeper_passes config t nows store :
  0 ≤ max_items_per_shard config → store_wf hash store → Forall (λ now, t ≤ now) nows →
  Forall (nearly_clean t (max_items_per_shard config) (length nows)) (shards_ store) →
  ∃ store', sweeper_run config (pair false <$> nows) store = Some (store', false) ∧ store_wf hash store' ∧
    Forall (shard_clean t) (shards_ store').
Proof.
  intros Hb. revert store. induction nows as [|now nows IH]; intros store Hwf Ht Hn.
  { exists store. split_and!; [done..|]. apply Forall_lookup. intros i shard Hi.
    destruct (Forall_lookup_1 _ _ _ _ Hn Hi) as [|Hz]; [done|].
    apply (empty_heap_clean (shard_count_ store) (Z.of_nat i)); [by apply Hwf|]. simpl in Hz. lia. }
  apply Forall_cons in Ht as [Hnow Ht]. cbn [fmap list_fmap sweeper_run].
  destruct (sweep_expired_post hash now (max_items_per_shard config) store Hwf)
    as (store1 & total & -> & Hwf1 & _ & Hall & _). cbn [mbind option_bind].
  apply IH; [done..|]. apply Forall_lookup. intros i shard1 Hi.
  destruct (Forall2_lookup_r _ _ _ _ _ Hall Hi) as (shard & Hi' & _ & removed & popped & Hpost).
  pose proof (store_wf_shards _ _ Hwf1 _ _ Hi) as Hw1.
  destruct (sweep_post_progress _ _ t now _ _ _ _ _ Hw1 Hnow Hb Hpost) as [Hkeep Hprog].
  destruct (Forall_lookup_1 _ _ _ _ Hn Hi') as [Hc|Hsz]; [left; auto|].
  destruct Hprog as [Hc|Hsz1]; [by left|right]. cbn [length] in Hsz. lia.
Qed.

(** C27. Active expiration catches up.  Whatever backlog of candidates the
    shards have, a sweeper that runs as many passes as the largest heap has
    multiples of its budget, at times not before [t], leaves no entry that had
    expired at [t], without any client touching the keys; the passes are
    always defined and keep the store well-formed, and once a stop is
    requested the loop ends without another sweep. *)
Theorem sweeper_catches_up config t nows (store : Store Q) rest later :
  0 ≤ max_items_per_shard config → store_wf hash store → Forall (λ now, t ≤ now) nows →
  (∀ i shard, shards_ store !! i = Some shard →
    Z.of_nat (pq_size (expiration_heap shard)) ≤ max_items_per_shard config * len nows) →
  ∃ store', sweeper_run config ((pair false <$> nows) ++ (true, later) :: rest) store = Some (store', true) ∧
    store_wf hash store' ∧ ∀ k e, lookup_entry hash store' k = Some e → is_expired e t = false.
Proof.
  intros Hb Hwf Ht Hsz. destruct (sweeper_passes config t nows store) as (store' & Hrun & Hwf' & Hc); try done.
  { apply Forall_lookup. intros i shard Hi. right. by apply (Hsz i). }
  exists store'. split_and!; [|done|].
  - clear -Hrun. revert store Hrun. induction nows as [|now nows IH]; intros store Hrun; simpl in *; [by simplify_eq|].
    destruct (sweep_expired _ _ store) as [[store1 n]|]; simpl in *; [by apply IH|done].
  - intros k e Hl. unfold lookup_entry in Hl. apply bind_Some in Hl as (shard & Hs & Hk).
    eapply (Forall_lookup_1 _ _ _ _ Hc); [exact Hs|exact Hk].
Qed.
End Sweeper.

(** Three expired entries, budget two: two passes. *)
Lemma sweeper_catches_up_witness :
  ∃ store', sweeper_run (mkTtlSweeperConfig 100 2)
      [(false, 2 * kNanosPerSecond); (false, 3 * kNanosPerSecond); (true, 0)] sweep_demo = Some (store', true) ∧
    store_wf sum_hash store' ∧
    ∀ k e, lookup_entry sum_hash store' k = Some e → is_expired e (2 * kNanosPerSecond) = false.
Proof.
  apply (sweeper_catches_up sum_hash (mkTtlSweeperConfig 100 2) (2 * kNanosPerSecond)
    [2 * kNanosPerSecond; 3 * kNanosPerSecond] sweep_demo [] 0).
  - done.
  - apply sweep_demo_wf.
  - repeat constructor; unfold kNanosPerSecond; lia.
  - intros [|i] shard; simpl; [|done]. intros [= <-]. by vm_compute.
Defined.
