(* ===== verification/Dispatcher.v ===== *)
(** * Command dispatcher

    Models [src/src/command/dispatcher.cpp]: a [Command] becomes a call of the
    store and its result a RESP reply.  [now] is what the store's clock
    returns during the call.  [dispatch] runs the sections of the call back to
    back; [dispatch_begin] and [dispatch_section] are the same call as a thread
    among others runs it, one critical section at a time. *)
From stdpp Require Import relations.
From S2P Require Import Prelude Decimal Parser Serializer Client.
From S2P Require Import PriorityQueue Storage StorageInv StorageSpec StorageConc StorageLin.

Section Dispatch.
Context {Q : Type} `{!PriorityQueue ExpirationCandidate ExpirationCandidateOrder Q}.
Context (hash : bytes → Z).

Definition dispatch_ping (store : Store Q) : option (Store Q * bytes) :=
  Some (store, encode_simple_string (lit "PONG")).

Definition dispatch_set (store : Store Q) (command : Command) : option (Store Q * bytes) :=
  '(store, _) ← set hash (cmd_key command) (cmd_value command) store;
  Some (store, encode_simple_string (lit "OK")).

Definition dispatch_get (now : Z) (store : Store Q) (command : Command)
    : option (Store Q * bytes) :=
  '(store, value) ← get hash now (cmd_key command) store;
  match value with
  | None => Some (store, encode_null_bulk_string)
  | Some v => Some (store, encode_bulk_string v)
  end.

Definition dispatch_del (now : Z) (store : Store Q) (command : Command)
    : option (Store Q * bytes) :=
  '(store, removed) ← del hash now (cmd_key command) store;
  Some (store, encode_integer (if (removed : bool) then 1 else 0)).

Definition dispatch_exists (now : Z) (store : Store Q) (command : Command)
    : option (Store Q * bytes) :=
  '(store, found) ← exists_ hash now (cmd_key command) store;
  Some (store, encode_integer (if (found : bool) then 1 else 0)).

Definition dispatch_expire (now : Z) (store : Store Q) (command : Command)
    : option (Store Q * bytes) :=
  '(store, set_ok) ← expire hash now (cmd_key command) (cmd_seconds command) store;
  Some (store, encode_integer (if (set_ok : bool) then 1 else 0)).

(** [result.remaining->count()] is undefined on an empty optional. *)
Definition dispatch_ttl (now : Z) (store : Store Q) (command : Command)
    : option (Store Q * bytes) :=
  '(store, r) ← ttl hash now (cmd_key command) store;
  match status r with
  | kMissing => Some (store, encode_integer (-2))
  | kNoTtl => Some (store, encode_integer (-1))
  | kHasTtl => count ← remaining r; Some (store, encode_integer count)
  end.

Definition dispatch (now : Z) (store : Store Q) (command : Command) : option (Store Q * bytes) :=
  match cmd_type command with
  | kPing => dispatch_ping store
  | kSet => dispatch_set store command
  | kGet => dispatch_get now store command
  | kDel => dispatch_del now store command
  | kExists => dispatch_exists now store command
  | kExpire => dispatch_expire now store command
  | kTtl => dispatch_ttl now store command
  end.
End Dispatch.

(** ** What the commands promise ([SPEC.md] section 3) *)
Definition command_op (c : Command) : option Op :=
  match cmd_type c with
  | kPing => None
  | kSet => Some (OpSet (cmd_key c) (cmd_value c))
  | kGet => Some (OpGet (cmd_key c))
  | kDel => Some (OpDel (cmd_key c))
  | kExists => Some (OpExists (cmd_key c))
  | kExpire => Some (OpExpire (cmd_key c) (cmd_seconds c))
  | kTtl => Some (OpTtl (cmd_key c))
  end.

Definition reply_of_res (r : Res) : Reply :=
  match r with
  | ResUnit => SimpleReply (lit "OK")
  | ResValue (Some v) => BulkReply v
  | ResValue None => NullReply
  | ResBool b => IntegerReply (if b then 1 else 0)
  | ResTtl r =>
      match status r, remaining r with
      | kMissing, _ => IntegerReply (-2)
      | kNoTtl, _ => IntegerReply (-1)
      | kHasTtl, Some n => IntegerReply n
      | kHasTtl, None => IntegerReply 0
      end
  end.

Definition spec_dispatch (now : Z) (c : Command) (m : gmap bytes (bytes * option Z))
    : gmap bytes (bytes * option Z) * Reply :=
  match command_op c with
  | None => (m, SimpleReply (lit "PONG"))
  | Some op => let '(m, r) := spec_exec now op m in (m, reply_of_res r)
  end.

(** ** The call in pieces *)

(** The reply made of the result of the store's operation. *)
Definition dispatch_return (c : Command) (r : Res) : option bytes :=
  match cmd_type c, r with
  | kSet, ResUnit => Some (encode_simple_string (lit "OK"))
  | kGet, ResValue None => Some encode_null_bulk_string
  | kGet, ResValue (Some v) => Some (encode_bulk_string v)
  | kDel, ResBool b | kExists, ResBool b | kExpire, ResBool b => Some (encode_integer (if b then 1 else 0))
  | kTtl, ResTtl r =>
      match status r with
      | kMissing => Some (encode_integer (-2))
      | kNoTtl => Some (encode_integer (-1))
      | kHasTtl => count ← remaining r; Some (encode_integer count)
      end
  | _, _ => None
  end.

(** Up to the first lock: a thread inside an operation of the store, or the
    reply. *)
Definition dispatch_begin (now : Z) (c : Command) : StorePhase + bytes :=
  match command_op c with
  | None => inr (encode_simple_string (lit "PONG"))
  | Some op => inl (begin_op op now)
  end.

Section Pieces.
Context {Q : Type} `{!PriorityQueue ExpirationCandidate ExpirationCandidateOrder Q}.
Context (hash : bytes → Z).

(** The next critical section. *)
Definition dispatch_section (c : Command) (ph : StorePhase) (store : Store Q)
    : option (Store Q * (StorePhase + bytes)) :=
  '(store, ph, r) ← store_section hash ph store;
  match r with
  | None => Some (store, inl ph)
  | Some r => response ← dispatch_return c r; Some (store, inr response)
  end.

(** Without other threads in between; an operation has at most two sections. *)
Fixpoint dispatch_alone (fuel : nat) (c : Command) (st : StorePhase + bytes) (store : Store Q)
    : option (Store Q * bytes) :=
  match st, fuel with
  | inr response, _ => Some (store, response)
  | inl _, O => None
  | inl ph, S fuel => '(store, st) ← dispatch_section c ph store; dispatch_alone fuel c st store
  end.

(** A thread in the middle of the call. *)
Definition executing (c : Command) (ph : StorePhase) : Prop :=
  ∃ op, command_op c = Some op ∧
    match ph with
    | At (Started op' _) => op' = op
    | At (Recheck _ _ answer) => is_Some (dispatch_return c answer)
    | _ => False
    end.

Lemma begin_executing now c ph : dispatch_begin now c = inl ph → executing c ph.
Proof.
  unfold executing, dispatch_begin, command_op. destruct (cmd_type c); intros [= <-]; eexists; split; reflexivity.
Qed.

(** The first section of an operation gives a result the reply can be made of,
    or keeps one. *)
Lemma started_return c op now (shard : Shard Q) :
  command_op c = Some op →
  match section_step (Started op now) shard with
  | (_, (_, Some r)) => is_Some (dispatch_return c r)
  | (_, (ph, None)) => ∃ key answer, ph = Recheck key now answer ∧ is_Some (dispatch_return c answer)
  end.
Proof.
  unfold command_op, section_step, dispatch_return.
  destruct (cmd_type c); intros [= <-]; simpl; unfold read_section; try done.
  - destruct (read_live_shared shard now (cmd_key c)); simpl; repeat eexists.
  - by destruct (shard_del now (cmd_key c) shard).
  - destruct (read_live_shared shard now (cmd_key c)); simpl; repeat eexists.
  - by destruct (shard_expire now (cmd_key c) (cmd_seconds c) shard).
  - destruct (read_live_shared shard now (cmd_key c)) as [e| |]; simpl; [|by repeat eexists..]. unfold ttl_of_entry. by destruct (deadline e).
Qed.

Lemma dispatch_section_total c ph (store : Store Q) :
  store_wf hash store → executing c ph →
  ∃ store' st, dispatch_section c ph store = Some (store', st) ∧ store_wf hash store' ∧
    match st with inl ph' => executing c ph' ∧ linearizes ph' = None ∧ is_Some (linearizes ph) | inr _ => True end.
Proof.
  intros Hwf (op & Hop & Hph). unfold dispatch_section. destruct ph as [[|op' now|key now answer]|]; try done.
  - subst op'. assert (is_Some (op_key op)) as [k Hk] by (unfold command_op in Hop; destruct (cmd_type c); simplify_eq/=; eauto).
    destruct (with_shard_local hash store k (section_step (Started op now)))
      as (shard & store1 & _ & _ & Heq & Hwf1 & _); [done|by apply section_step_local|].
    pose proof (started_return c op now shard Hop) as Hret. cbn [store_section phase_key]. rewrite Hk. simpl. rewrite Heq. simpl.
    destruct (section_step (Started op now) shard) as [sh [ph1 [r1|]]]; simpl.
    + destruct Hret as [resp ->]. simpl. eauto.
    + destruct Hret as (key & ans & -> & Hans). eexists _, _. split; [done|]. split_and!; try done. by exists op.
  - destruct (store_section_total hash store (At (Recheck key now answer)) Hwf) as (store1 & ph1 & r1 & Hsec & Hwf1); [done|].
    rewrite Hsec. simpl in Hsec. unfold with_shard in Hsec. apply bind_Some in Hsec as ([s2 [ph2 r2]] & Hw & [= <- <- <-]).
    apply bind_Some in Hw as (sh & _ & Hw). simpl in Hw. simplify_eq. simpl.
    destruct Hph as [resp ->]. simpl. eauto.
Qed.

(** A call that is not interrupted is [dispatch]. *)
Lemma dispatch_alone_dispatch now c (store : Store Q) :
  store_wf hash store → dispatch_alone 2 c (dispatch_begin now c) store = dispatch hash now store c.
Proof.
  intros Hwf. destruct (shard_for_wf hash store (cmd_key c) Hwf) as (shard & Hs & _).
  assert (Hid : mkStore (shard_count_ store) (<[Z.to_nat (shard_index hash store (cmd_key c)) := shard]> (shards_ store))
    (active_expirations_ store) = store) by (destruct store; simpl; f_equal; by apply list_insert_id).
  unfold dispatch_begin, command_op, dispatch, dispatch_ping, dispatch_set, dispatch_get, dispatch_del,
    dispatch_exists, dispatch_expire, dispatch_ttl, set, get, del, exists_, expire, ttl.
  destruct (cmd_type c) eqn:Hc; [done|..].
  all: cbn [dispatch_alone begin_op]; unfold dispatch_section, dispatch_return; rewrite Hc.
  all: cbn [store_section phase_key op_key mbind option_bind]; unfold with_shard; rewrite Hs; cbn [mbind option_bind].
  all: unfold section_step; cbn [section]; unfold read_section, read_live.
  all: repeat match goal with
  | |- context [read_live_shared ?s ?n ?k] => destruct (read_live_shared s n k) as [e| |] eqn:He; simpl
  | |- context [shard_del ?n ?k ?s] => destruct (shard_del n k s); simpl
  | |- context [shard_expire ?n ?k ?t ?s] => destruct (shard_expire n k t s); simpl
  end; try done; rewrite ?Hid; unfold with_shard; rewrite ?Hs; try done.
  destruct (ttl_of_entry now e) as [[] [n|]]; done.
Qed.
End Pieces.

(** The reply made of a result is the one [SPEC.md] describes. *)
Lemma dispatch_return_reply c r resp : dispatch_return c r = Some resp → resp = encode_reply (reply_of_res r).
Proof.
  unfold dispatch_return. destruct (cmd_type c), r as [|[v|]|b|[[] [n|]]]; simpl; try done; by intros [= <-].
Qed.

(** The response a thread will give, once it is settled: it has it, or it is
    between the two sections of a read. *)
Definition response_of (c : Command) (st : StorePhase + bytes) : option bytes :=
  match st with
  | inr response => Some response
  | inl (At (Recheck _ _ answer)) => dispatch_return c answer
  | inl _ => None
  end.

Lemma begin_started now c ph :
  dispatch_begin now c = inl ph → ∃ op, command_op c = Some op ∧ ph = At (Started op now).
Proof.
  unfold dispatch_begin, command_op. destruct (cmd_type c); intros [= <-]; eexists; split; reflexivity.
Qed.

Lemma begin_replies now c resp :
  dispatch_begin now c = inr resp → command_op c = None ∧ ∀ t m, resp = encode_reply (spec_dispatch t c m).2.
Proof. unfold dispatch_begin, spec_dispatch. destruct (command_op c); [done|]. by intros [= <-]. Qed.

Section PieceFacts.
Context {Q : Type} `{!PriorityQueue ExpirationCandidate ExpirationCandidateOrder Q}.
Context (hash : bytes → Z).

(** The first section settles the response; the second does not change it. *)
Lemma dispatch_section_settles c ph (store store' : Store Q) st :
  store_wf hash store → executing c ph → dispatch_section hash c ph store = Some (store', st) →
  is_Some (response_of c st) ∧ match linearizes ph with
    | Some (_, op) => command_op c = Some op ∧ response_of c (inl ph) = None
    | None => response_of c st = response_of c (inl ph) end.
Proof.
  intros Hwf Hex Hsec. destruct (dispatch_section_total hash c ph store Hwf Hex) as (s1 & st1 & Hsec' & _ & Hst).
  rewrite Hsec in Hsec'. injection Hsec' as <- <-. split.
  - destruct st as [ph'|resp]; [|by eexists]. destruct Hst as ((op & _ & Hph) & Hl & _).
    by destruct ph' as [[|op' now|key now ans]|? ? [] ?].
  - destruct Hex as (op & Hop & Hph). destruct ph as [[|op' now|key now ans]|]; try done; [by subst op'|].
    unfold dispatch_section in Hsec. simpl in *. unfold with_shard in Hsec.
    destruct (shard_for hash store key); simpl in Hsec; [|done]. destruct Hph as [resp Hresp]. rewrite Hresp in *.
    simpl in Hsec. by injection Hsec as <- <-.
Qed.

(** A section against the map: the response it settles is the map's. *)
Lemma dispatch_section_spec c ph (store store' : Store Q) st l :
  let l' := l ++ option_list (linearizes ph) in
  store_core hash store l → phase_applied l ph → executing c ph →
  dispatch_section hash c ph store = Some (store', st) → fresh_readings l' → readings_ok (option_list (linearizes ph)) →
  store_core hash store' l' ∧ match st with inl ph' => phase_applied l' ph' | inr _ => True end ∧
  ∀ now op, linearizes ph = Some (now, op) →
    response_of c st = Some (encode_reply (spec_dispatch now c (spec_run l ∅).1).2).
Proof.
  intros l' Hcore Happ Hex Hsec Hf Hr.
  destruct (dispatch_section_settles c ph store store' st (sc_wf _ _ _ Hcore) Hex Hsec) as [_ Hset].
  unfold dispatch_section in Hsec. apply bind_Some in Hsec as ([[store1 ph1] r] & Hsec & Hret).
  destruct (section_core hash store store1 l ph ph1 r Hcore Happ Hsec Hf Hr) as (Hcore' & Happ' & Hres & _).
  assert (store1 = store' ∧ ∀ res, option_list r ++ pending ph1 = [res] → ∀ now op, linearizes ph = Some (now, op) →
    response_of c st = dispatch_return c res) as [-> Hresp].
  { destruct r as [r|]; simpl in *.
    - apply bind_Some in Hret as (resp & Hresp & [= <- <-]). split; [done|]. intros res [= -> _] now op _. by rewrite Hresp.
    - injection Hret as <- <-. split; [done|]. intros res Hp now op Hl.
      destruct (dispatch_section_total hash c ph store (sc_wf _ _ _ Hcore) Hex) as (s2 & st2 & Hsec2 & _ & Hst2).
      unfold dispatch_section in Hsec2. rewrite Hsec in Hsec2. simpl in Hsec2. injection Hsec2 as <- <-.
      destruct Hst2 as ((op2 & _ & Hph2) & Hl2 & _).
      destruct ph1 as [[|op1 n1|key n1 ans]|]; try done. by injection Hp as ->. }
  split_and!; [done| |].
  - destruct r as [r|]; simpl in Hret; [by apply bind_Some in Hret as (resp & _ & [= <-])|by injection Hret as <-].
  - intros now op Hl. rewrite Hl in *. destruct Hset as [Hop _]. unfold spec_dispatch. rewrite Hop.
    rewrite (Hresp _ Hres now op eq_refl).
    assert (is_Some (dispatch_return c (spec_exec now op (spec_run l ∅).1).2)) as [resp Hd].
    { rewrite <-(Hresp _ Hres now op eq_refl).
      destruct (dispatch_section_settles c ph store store' st (sc_wf _ _ _ Hcore) Hex) as [H _]; [|done].
      unfold dispatch_section. rewrite Hsec. done. }
    rewrite Hd, (dispatch_return_reply _ _ _ Hd). by destruct (spec_exec now op _).
Qed.
End PieceFacts.

(** The deadline an EXPIRE sets stays in the clock's range. *)
Definition command_in_range (now : Z) (c : Command) : Prop :=
  cmd_type c = kExpire → now + cmd_seconds c * kNanosPerSecond ≤ INT64_MAX.

(** A session: timed commands executed one after the other, with the replies
    written back to back. *)
Fixpoint serve {Q} `{!PriorityQueue ExpirationCandidate ExpirationCandidateOrder Q}
    (hash : bytes → Z) (cmds : list (Z * Command)) (store : Store Q) : option (Store Q * bytes) :=
  match cmds with
  | [] => Some (store, [])
  | (now, c) :: cmds =>
      '(store, reply) ← dispatch hash now store c;
      '(store, out) ← serve hash cmds store;
      Some (store, reply ++ out)
  end.

Fixpoint spec_serve (cmds : list (Z * Command)) (m : gmap bytes (bytes * option Z)) : list Reply :=
  match cmds with
  | [] => []
  | (now, c) :: cmds => let '(m, r) := spec_dispatch now c m in r :: spec_serve cmds m
  end.

Fixpoint session_ok (t : Z) (cmds : list (Z * Command)) : Prop :=
  match cmds with
  | [] => True
  | (now, c) :: cmds =>
      t ≤ now ∧ clock_ok now ∧ valid_command c ∧ command_in_range now c ∧ session_ok now cmds
  end.

(** The map after a session. *)
Fixpoint spec_after (cmds : list (Z * Command)) (m : gmap bytes (bytes * option Z)) : gmap bytes (bytes * option Z) :=
  match cmds with
  | [] => m
  | (now, c) :: cmds => spec_after cmds (spec_dispatch now c m).1
  end.

Lemma spec_serve_snoc cmds now c m :
  spec_serve (cmds ++ [(now, c)]) m = spec_serve cmds m ++ [(spec_dispatch now c (spec_after cmds m)).2].
Proof.
  revert m. induction cmds as [|[t d] cmds IH]; intros m; simpl.
  - by destruct (spec_dispatch now c m).
  - destruct (spec_dispatch t d m) as [m1 r]. simpl. by rewrite IH.
Qed.

(** The client reads [n] replies. *)
Fixpoint decode_replies (n : nat) (input : bytes) : option (list Reply * bytes) :=
  match n with
  | O => Some ([], input)
  | S n =>
      '(r, rest) ← decode_reply input;
      '(rs, rest) ← decode_replies n rest;
      Some (r :: rs, rest)
  end.

Section DispatchFacts.
Context {Q : Type} `{!PriorityQueue ExpirationCandidate ExpirationCandidateOrder Q}.
Context (hash : bytes → Z).

(** A storage command is the operation of the store with its result encoded. *)
Lemma dispatch_exec now (store store' : Store Q) c op r :
  command_op c = Some op → exec hash now op store = Some (store', r) →
  (∀ t, r = ResTtl t → status t = kHasTtl → is_Some (remaining t)) →
  dispatch hash now store c = Some (store', encode_reply (reply_of_res r)).
Proof.
  unfold command_op, dispatch. destruct (cmd_type c); intros [= <-]; simpl;
    unfold dispatch_set, dispatch_get, dispatch_del, dispatch_exists, dispatch_expire, dispatch_ttl.
  all: intros (p & Hp & Hr)%bind_Some; rewrite Hp; destruct p as [s x]; simpl in *; intros Ht;
    simplify_eq; simpl; try done.
  - by destruct x.
  - specialize (Ht x eq_refl). destruct x as [[] [n|]]; simpl in *; try done.
    by destruct Ht.
Qed.

Lemma spec_exec_ttl now op m t :
  (spec_exec now op m).2 = ResTtl t → status t = kHasTtl → is_Some (remaining t).
Proof.
  destruct op; simpl; try done; [destruct (spec_live _ _ _) as [[??]|]; done|].
  destruct (spec_live _ _ _) as [[? [?|]]|]; intros [= <-]; naive_solver.
Qed.

Lemma dispatch_sim now (store : Store Q) m c :
  clock_ok now → 0 ≤ cmd_seconds c → command_in_range now c → sim hash now store m →
  ∃ store', dispatch hash now store c = Some (store', encode_reply (spec_dispatch now c m).2) ∧
    sim hash now store' (spec_dispatch now c m).1.
Proof.
  intros Hclock Hsec Hrange Hsim. unfold spec_dispatch.
  destruct (command_op c) as [op|] eqn:Hop.
  2: { unfold command_op in Hop. unfold dispatch. destruct (cmd_type c); try done.
       by exists store. }
  destruct (exec_sim hash now op store m Hclock) as (store' & He & Hsim'); [|done|].
  { unfold command_op, command_in_range in *. destruct (cmd_type c); simplify_eq; try done.
    specialize (Hrange eq_refl). unfold clock_ok in Hclock. simpl.
    unfold in_i64, INT64_MIN, INT64_MAX, kNanosPerSecond in *. lia. }
  pose proof (spec_exec_ttl now op m) as Ht.
  destruct (spec_exec now op m) as [m' r]. exists store'. split; [|done].
  eapply dispatch_exec; [done|done|]. intros t ->. by apply Ht.
Qed.

Lemma spec_dispatch_safe now c m : reply_safe (spec_dispatch now c m).2.
Proof.
  unfold spec_dispatch. destruct (command_op c) as [op|].
  2: { apply (bool_decide_eq_true_1 _). by vm_compute. }
  destruct (spec_exec now op m) as [m' [|[v|]|b|[[] [n|]]]]; simpl; try done.
  apply (bool_decide_eq_true_1 _). by vm_compute.
Qed.


Lemma serve_sim t0 cmds (store : Store Q) m rest :
  sim hash t0 store m → session_ok t0 cmds →
  ∃ store' out, serve hash cmds store = Some (store', out) ∧ store_wf hash store' ∧
    decode_replies (length cmds) (out ++ rest) = Some (spec_serve cmds m, rest).
Proof.
  revert t0 store m. induction cmds as [|[now c] cmds IH]; intros t0 store m Hsim Hok.
  { exists store, []. split_and!; [done|apply Hsim|done]. }
  destruct Hok as (Hle & Hclock & Hc & Hr & Hok). apply (sim_later _ _ now) in Hsim; [|done].
  destruct (dispatch_sim now store m c Hclock) as (store1 & Hd & Hsim1); [apply Hc|done|done|].
  pose proof (spec_dispatch_safe now c m) as Hsafe. cbn [serve spec_serve length].
  rewrite Hd. cbn [mbind option_bind]. destruct (spec_dispatch now c m) as [m1 r].
  destruct (IH now store1 m1 Hsim1 Hok) as (store2 & out & Hs & Hwf & Hdec). rewrite Hs.
  exists store2, (encode_reply r ++ out). split_and!; [done|done|]. cbn [decode_replies].
  rewrite <-app_assoc, (encode_reply_self_delimiting r Hsafe). cbn [mbind option_bind].
  by rewrite Hdec.
Qed.

(** Every command is answered, whatever the store holds and whatever the clock
    reads. *)
Lemma dispatch_total now (store : Store Q) c :
  store_wf hash store → ∃ store' resp, dispatch hash now store c = Some (store', resp) ∧ store_wf hash store'.
Proof.
  intros Hwf.
  assert (Hsec : ∀ {R} (f : Shard Q → Shard Q * R) key, local_section hash key f →
    ∃ store' r, with_shard hash store key f = Some (store', r) ∧ store_wf hash store').
  { intros R f key Hf. destruct (with_shard_local hash store key f) as (sh & store' & _ & _ & Heq & Hwf' & _); eauto. }
  unfold dispatch, dispatch_ping, dispatch_set, dispatch_get, dispatch_del, dispatch_exists, dispatch_expire,
    dispatch_ttl, set, get, del, exists_, expire, ttl.
  destruct (cmd_type c); [by eauto|..].
  all: try (edestruct Hsec as (store' & x & Heq & Hwf'); [|rewrite Heq; simpl; eauto]; auto with kv; fail).
  - edestruct Hsec as (store' & x & Heq & Hwf'); [|rewrite Heq; simpl]; [auto with kv|]. destruct x; eauto.
  - edestruct (with_shard_local hash store (cmd_key c)
      (read_live now (cmd_key c) (ttl_of_entry now) (mkTtlResult kMissing None)))
      as (sh & store' & _ & _ & Heq & Hwf' & _); [done|auto with kv|]. rewrite Heq. simpl.
    unfold read_live. destruct (read_live_shared sh now (cmd_key c)) as [e| |]; simpl; eauto.
    unfold ttl_of_entry. destruct (deadline e); simpl; eauto.
Qed.
End DispatchFacts.

Section Properties.
Context {Q : Type} `{!PriorityQueue ExpirationCandidate ExpirationCandidateOrder Q}.
Context (hash : bytes → Z).

(** C9. The seven commands keep their promises: from an empty store, every
    sequence of valid commands is answered, and a RESP2 client that decodes
    the answers reads exactly the replies of the abstract map. *)
Theorem session_correct n (store : Store Q) cmds :
  0 < n ≤ 2 ^ 63 → make_store n = Ok store → session_ok 0 cmds →
  ∃ store' out, serve hash cmds store = Some (store', out) ∧ store_wf hash store' ∧
    decode_replies (length cmds) out = Some (spec_serve cmds ∅, []).
Proof.
  intros Hn Hm Hok. destruct (make_store_sim hash n 0 Hn) as (store1 & Hm1 & Hsim & _).
  assert (store1 = store) as -> by congruence.
  destruct (serve_sim hash 0 cmds store ∅ [] Hsim Hok) as (store' & out & ? & ? & Hd).
  exists store', out. by rewrite app_nil_r in Hd.
Qed.
End Properties.

(** EXPIRE accepts a TTL that the clock cannot represent: the parser
    takes the largest 64-bit count of seconds, its conversion to nanoseconds
    overflows a signed 64-bit integer at every time, and with the wrapped
    value the command reports success and the key is gone at once. *)
Theorem expire_seconds_overflow :
  ∃ c n,
    parse_command (encode_command [lit "EXPIRE"; lit "k"; lit "9223372036854775807"]) =
      Some (ParsedCommand c n) ∧
    ~ in_i64 (cmd_seconds c * kNanosPerSecond) ∧
    snd <$> serve sum_hash
      [(10, mkCommand kSet (lit "k") (lit "v") 0); (10, c); (10, mkCommand kGet (lit "k") [] 0)]
      demo_store =
    Some (encode_simple_string (lit "OK") ++ encode_integer 1 ++ encode_null_bulk_string).
Proof.
  eexists _, _. split_and!; [vm_compute; reflexivity| |vm_compute; reflexivity].
  unfold in_i64, INT64_MIN, INT64_MAX, kNanosPerSecond. simpl. lia.
Qed.

Definition demo_session : list (Z * Command) :=
  [(0, mkCommand kSet (lit "k") (lit "v1") 0); (1, mkCommand kExpire (lit "k") [] 10);
   (2, mkCommand kTtl (lit "k") [] 0); (20000000000, mkCommand kGet (lit "k") [] 0)].

Lemma demo_session_ok : session_ok 0 demo_session.
Proof.
  unfold session_ok, demo_session, clock_ok, valid_command, command_in_range, INT64_MAX,
    kMaxKeyLength, kMaxValueLength, kNanosPerSecond, len; simpl.
  split_and!; first [lia | done | naive_solver].
Qed.

Lemma session_correct_witness :
  ∃ store' out, serve sum_hash demo_session demo_store = Some (store', out) ∧
    store_wf sum_hash store' ∧
    decode_replies 4 out =
      Some ([SimpleReply (lit "OK"); IntegerReply 1; IntegerReply 9; NullReply], []).
Proof.
  apply (session_correct sum_hash 3 demo_store demo_session);
    [lia|apply demo_store_made|apply demo_session_ok].
Defined.
