(* ===== verification/BoundedBuffer.v ===== *)
(** * Bounded byte buffers

    Models [src/src/net/bounded_buffer.cpp] and
    [src/include/kvstore/net/bounded_buffer.hpp]: the per-connection input and
    output buffers.  [capacity_ - data_.size()] is a [size_t] subtraction,
    kept with its wrap-around; the invariant [buffer_wf] is what makes it
    exact. *)
From S2P Require Import Prelude.

Record BoundedBuffer := mkBoundedBuffer {
  data_ : bytes;
  capacity_ : Z;
}.

#[export] Instance BoundedBuffer_eq_dec : EqDecision BoundedBuffer.
Proof. solve_decision. Defined.

Definition make_buffer (capacity : Z) : result BoundedBuffer :=
  if bool_decide (capacity = 0) then
    Throw (InvalidArgument (lit "BoundedBuffer: capacity must be greater than zero"))
  else Ok (mkBoundedBuffer [] capacity).

Definition buffer_append (data : bytes) (b : BoundedBuffer) : BoundedBuffer * bool :=
  if bool_decide (len data > u64 (capacity_ b - len (data_ b))) then (b, false)
  else (mkBoundedBuffer (data_ b ++ data) (capacity_ b), true).

Definition buffer_consume (count : Z) (b : BoundedBuffer) : BoundedBuffer :=
  if bool_decide (count >= len (data_ b)) then mkBoundedBuffer [] (capacity_ b)
  else mkBoundedBuffer (drop (Z.to_nat count) (data_ b)) (capacity_ b).

Definition buffer_view (b : BoundedBuffer) : bytes := data_ b.
Definition buffer_size (b : BoundedBuffer) : Z := len (data_ b).
Definition buffer_capacity (b : BoundedBuffer) : Z := capacity_ b.
Definition buffer_empty (b : BoundedBuffer) : bool := bool_decide (data_ b = []).

(** ** The cap *)
Definition buffer_wf (b : BoundedBuffer) : Prop :=
  len (data_ b) ≤ capacity_ b ≤ UINT64_MAX.

Lemma buffer_room b : buffer_wf b → u64 (capacity_ b - len (data_ b)) = capacity_ b - len (data_ b).
Proof. intros [? ?]. apply u64_small. unfold in_u64. len_lia. Qed.

Lemma buffer_append_spec data b :
  buffer_wf b →
  buffer_append data b =
    if bool_decide (len (data_ b) + len data ≤ capacity_ b)
    then (mkBoundedBuffer (data_ b ++ data) (capacity_ b), true) else (b, false).
Proof.
  intros Hwf. unfold buffer_append. rewrite buffer_room by done.
  repeat case_bool_decide; (done || lia).
Qed.

Lemma buffer_append_wf data b : buffer_wf b → buffer_wf (buffer_append data b).1.
Proof.
  intros Hwf. rewrite buffer_append_spec by done. case_bool_decide; [|done].
  destruct Hwf. split; simpl; len_lia.
Qed.

Lemma buffer_consume_data count b :
  0 ≤ count → data_ (buffer_consume count b) = drop (Z.to_nat count) (data_ b).
Proof.
  intros. unfold buffer_consume. case_bool_decide; [|done]. simpl.
  rewrite drop_ge; [done|]. unfold len in *. lia.
Qed.

Lemma buffer_consume_wf count b : 0 ≤ count → buffer_wf b → buffer_wf (buffer_consume count b).
Proof.
  intros Hc [? ?]. split.
  - rewrite buffer_consume_data, len_drop by done. unfold buffer_consume.
    case_bool_decide; simpl; len_lia.
  - unfold buffer_consume. by case_bool_decide.
Qed.

Lemma buffer_consume_capacity count b : capacity_ (buffer_consume count b) = capacity_ b.
Proof. unfold buffer_consume. by case_bool_decide. Qed.

Lemma buffer_append_capacity data b : capacity_ (buffer_append data b).1 = capacity_ b.
Proof. unfold buffer_append. by case_bool_decide. Qed.

#[export] Hint Resolve buffer_append_wf buffer_consume_wf : kv.

(** ** Traffic

    A buffer used by any sequence of appends and consumes. *)
Inductive BufferOp := BufAppend (data : bytes) | BufConsume (count : Z).

Definition buffer_step (op : BufferOp) (b : BoundedBuffer) : BoundedBuffer :=
  match op with
  | BufAppend data => (buffer_append data b).1
  | BufConsume count => buffer_consume count b
  end.

(** The bytes an operation lets in, and the number it lets out. *)
Definition accepted (op : BufferOp) (b : BoundedBuffer) : bytes :=
  match op with
  | BufAppend data => if (buffer_append data b).2 then data else []
  | BufConsume _ => []
  end.
Definition released (op : BufferOp) (b : BoundedBuffer) : Z :=
  match op with
  | BufAppend _ => 0
  | BufConsume count => Z.min count (len (data_ b))
  end.

Fixpoint buffer_run (ops : list BufferOp) (b : BoundedBuffer) : BoundedBuffer * bytes * Z :=
  match ops with
  | [] => (b, [], 0)
  | op :: ops =>
      let '(b', inn, out) := buffer_run ops (buffer_step op b) in
      (b', accepted op b ++ inn, released op b + out)
  end.

Definition buffer_op_ok (op : BufferOp) : Prop :=
  match op with BufAppend _ => True | BufConsume count => 0 ≤ count end.

Lemma buffer_step_stream op b :
  buffer_wf b → buffer_op_ok op →
  buffer_wf (buffer_step op b) ∧ capacity_ (buffer_step op b) = capacity_ b ∧
  0 ≤ released op b ≤ len (data_ b) ∧
  data_ (buffer_step op b) = drop (Z.to_nat (released op b)) (data_ b ++ accepted op b).
Proof.
  intros Hwf Hop. destruct op as [data|count]; simpl.
  - split_and!; [auto with kv|apply buffer_append_capacity|done|len_lia|].
    rewrite buffer_append_spec by done. rewrite drop_0.
    case_bool_decide; simpl; [done|by rewrite app_nil_r].
  - split_and!; [auto with kv|apply buffer_consume_capacity|simpl in Hop; len_lia|len_lia|].
    rewrite buffer_consume_data, app_nil_r by done. unfold len.
    destruct (decide (count ≤ len (data_ b))) as [Hle|Hgt]; unfold len in *.
    + by rewrite Z.min_l by lia.
    + rewrite Z.min_r by lia. rewrite !drop_ge by lia. done.
Qed.

(** The cap holds and no byte is lost or reordered: after any sequence of
    appends and consumes the buffer is within its capacity and holds exactly
    the accepted bytes less those consumed, in order. *)
Theorem buffer_stream ops b :
  buffer_wf b → Forall buffer_op_ok ops →
  let '(b', inn, out) := buffer_run ops b in
  buffer_wf b' ∧ capacity_ b' = capacity_ b ∧ 0 ≤ out ≤ len (data_ b ++ inn) ∧
  data_ b' = drop (Z.to_nat out) (data_ b ++ inn).
Proof.
  revert b. induction ops as [|op ops IH]; intros b Hwf Hops; cbn [buffer_run].
  { rewrite drop_0, app_nil_r. split_and!; [done..| |done]. len_lia. }
  apply Forall_cons in Hops as [Hop Hops].
  destruct (buffer_step_stream op b Hwf Hop) as (Hwf' & Hcap & Hrel & Hdata).
  specialize (IH (buffer_step op b) Hwf' Hops).
  destruct (buffer_run ops (buffer_step op b)) as [[b' inn] out].
  destruct IH as (Hwf'' & Hcap' & Hout & Hdata'). split_and!; [done|congruence|lia| |].
  - apply (f_equal len) in Hdata. rewrite len_drop in Hdata by lia. len_lia.
  - rewrite Hdata', Hdata, app_assoc. rewrite <-drop_app_le by (unfold len in *; rewrite length_app; lia).
    rewrite drop_drop. f_equal. lia.
Qed.

Lemma buffer_stream_witness :
  let '(b', inn, out) :=
    buffer_run [BufAppend (lit "abc"); BufAppend (lit "defg"); BufConsume 2; BufAppend (lit "xy")]
      (mkBoundedBuffer [] 5) in
  buffer_wf b' ∧ capacity_ b' = 5 ∧ 0 ≤ out ≤ len (inn) ∧ data_ b' = drop (Z.to_nat out) inn.
Proof.
  apply (buffer_stream
    [BufAppend (lit "abc"); BufAppend (lit "defg"); BufConsume 2; BufAppend (lit "xy")]
    (mkBoundedBuffer [] 5)).
  - unfold buffer_wf, UINT64_MAX. simpl. unfold len. simpl. lia.
  - repeat constructor; simpl; lia.
Defined.
