(* ===== verification/Sequencer.v ===== *)
(** * Response sequencer

    Models [src/src/net/response_sequencer.cpp] and
    [src/include/kvstore/net/response_sequencer.hpp]: workers finish out of
    order, the sequencer releases responses in request order.  The counters
    are [uint64_t] and wrap. *)
From S2P Require Import Prelude.

Record ResponseSequencer := mkResponseSequencer {
  next_request_sequence_ : Z;
  next_expected_ : Z;
  pending_ : gmap Z bytes;
}.

Definition make_sequencer : ResponseSequencer := mkResponseSequencer 0 0 ∅.

Definition next_request_sequence (s : ResponseSequencer) : ResponseSequencer * Z :=
  (mkResponseSequencer (u64 (next_request_sequence_ s + 1)) (next_expected_ s) (pending_ s),
   next_request_sequence_ s).

Definition in_flight_count (s : ResponseSequencer) : Z :=
  u64 (next_request_sequence_ s - next_expected_ s).

(** [pending_.emplace]: an existing element stays. *)
Definition emplace (k : Z) (r : bytes) (m : gmap Z bytes) : gmap Z bytes :=
  match m !! k with Some _ => m | None => <[k := r]> m end.

(** The release loop; every iteration erases an element of [pending_]. *)
Fixpoint release_loop (fuel : nat) (s : ResponseSequencer) (ready : list bytes)
    : option (ResponseSequencer * list bytes) :=
  match fuel with
  | O => None
  | S fuel =>
      match pending_ s !! next_expected_ s with
      | None => Some (s, ready)
      | Some r =>
          release_loop fuel
            (mkResponseSequencer (next_request_sequence_ s) (u64 (next_expected_ s + 1))
               (delete (next_expected_ s) (pending_ s)))
            (ready ++ [r])
      end
  end.

Definition record (sequence : Z) (response : bytes) (s : ResponseSequencer)
    : option (ResponseSequencer * list bytes) :=
  let pending := emplace sequence response (pending_ s) in
  release_loop (S (size pending))
    (mkResponseSequencer (next_request_sequence_ s) (next_expected_ s) pending) [].

(** The run of consecutive elements that starts at [k]. *)
Definition run_from (m : gmap Z bytes) (k : Z) (rs : list bytes) : Prop :=
  (∀ i r, rs !! i = Some r → m !! (k + Z.of_nat i) = Some r) ∧
  m !! (k + len rs) = None.

Lemma release_loop_spec fuel s ready :
  (size (pending_ s) < fuel)%nat →
  0 ≤ next_expected_ s →
  (∀ k r, pending_ s !! k = Some r → k < UINT64_MAX) →
  ∃ rs, release_loop fuel s ready =
      Some (mkResponseSequencer (next_request_sequence_ s) (next_expected_ s + len rs)
              (filter (λ p, p.1 < next_expected_ s ∨ next_expected_ s + len rs < p.1) (pending_ s)),
            ready ++ rs) ∧
    run_from (pending_ s) (next_expected_ s) rs.
Proof.
  revert s ready. induction fuel as [|fuel IH]; intros [nr ne pd] ready Hf Hne Hk; simpl in *; [lia|].
  destruct (pd !! ne) as [r|] eqn:E.
  - assert (ne < UINT64_MAX) by eauto. rewrite u64_small by (unfold in_u64; lia).
    edestruct (IH (mkResponseSequencer nr (ne + 1) (delete ne pd)) (ready ++ [r])) as (rs & Heq & Hrun).
    { simpl. pose proof (map_size_ne_0_lookup_2 pd ne (mk_is_Some _ _ E)).
      rewrite map_size_delete, E. simpl. lia. }
    { simpl. lia. }
    { simpl. intros k r' Hk'. apply lookup_delete_Some in Hk' as [_ ?]. eauto. }
    exists (r :: rs). rewrite Heq. simpl. rewrite <-app_assoc. split.
    + do 3 f_equal; [len_lia|]. apply map_eq. intros k. apply option_eq. intros x.
      rewrite !map_lookup_filter_Some, lookup_delete_Some. simpl.
      split; intros; split_hyps; split_and!; try done; try len_lia.
    + destruct Hrun as [Hrun Hend]. simpl in *. split.
      * intros [|i] r' Hi; simplify_eq/=; [by rewrite Z.add_0_r|].
        specialize (Hrun i r' Hi). apply lookup_delete_Some in Hrun as [_ Hrun].
        by replace (ne + Z.of_nat (S i)) with (ne + 1 + Z.of_nat i) by lia.
      * rewrite lookup_delete_ne in Hend by len_lia.
        by replace (ne + len (r :: rs)) with (ne + 1 + len rs) by len_lia.
  - exists []. rewrite app_nil_r. split.
    + simpl. rewrite len_nil, Z.add_0_r. do 3 f_equal. apply map_eq. intros k.
      apply option_eq. intros x. rewrite map_lookup_filter_Some. simpl.
      split; [|naive_solver]. intros Hx. split; [done|].
      destruct (decide (k = ne)) as [->|]; [congruence|lia].
    + split; [done|]. by rewrite len_nil, Z.add_0_r.
Qed.

(** ** Traces

    What the event loop does with a connection's sequencer: assign a sequence
    number to a parsed request, record a response. *)
Inductive SeqEvent :=
  | Assign
  | Record_ (sequence : Z) (response : bytes).

Definition seq_step (e : SeqEvent) (s : ResponseSequencer)
    : option (ResponseSequencer * list bytes) :=
  match e with
  | Assign => Some ((next_request_sequence s).1, [])
  | Record_ k r => record k r s
  end.

(** Runs the events and concatenates the released responses. *)
Fixpoint seq_run (es : list SeqEvent) (s : ResponseSequencer)
    : option (ResponseSequencer * list bytes) :=
  match es with
  | [] => Some (s, [])
  | e :: es =>
      '(s, out) ← seq_step e s;
      '(s, rest) ← seq_run es s;
      Some (s, out ++ rest)
  end.

(** The trace gives every assigned request at most one response: [n] requests
    are assigned and the responses of [g] recorded before it. *)
Fixpoint trace_ok (es : list SeqEvent) (n : Z) (g : gmap Z bytes) : bool :=
  match es with
  | [] => true
  | Assign :: es => trace_ok es (n + 1) g
  | Record_ k r :: es =>
      bool_decide (0 ≤ k < n) && bool_decide (g !! k = None) && trace_ok es n (<[k := r]> g)
  end.

Fixpoint assigned (es : list SeqEvent) : Z :=
  match es with
  | [] => 0
  | Assign :: es => 1 + assigned es
  | Record_ _ _ :: es => assigned es
  end.

(** The responses recorded by a trace. *)
Fixpoint recorded (es : list SeqEvent) (g : gmap Z bytes) : gmap Z bytes :=
  match es with
  | [] => g
  | Assign :: es => recorded es g
  | Record_ k r :: es => recorded es (<[k := r]> g)
  end.

(** ** The invariant over a trace

    [out] has been released, [g] recorded: [out] is the longest run of [g]
    from 0, and [pending_] holds the rest of [g]. *)
Record seq_inv (s : ResponseSequencer) (g : gmap Z bytes) (out : list bytes) : Prop := {
  inv_expected : next_expected_ s = len out;
  inv_run : run_from g 0 out;
  inv_pending : ∀ k, pending_ s !! k = if bool_decide (k < len out) then None else g !! k;
  inv_range : ∀ k r, g !! k = Some r → 0 ≤ k < next_request_sequence_ s;
  inv_bound : 0 ≤ next_request_sequence_ s ≤ UINT64_MAX;
}.

Lemma run_from_unique m k rs rs' : run_from m k rs → run_from m k rs' → rs = rs'.
Proof.
  intros [H1 E1] [H2 E2]. apply list_eq. intros i.
  assert (∀ rs rs' : list bytes, (∀ i r, rs !! i = Some r → m !! (k + Z.of_nat i) = Some r) →
     m !! (k + len rs') = None → (length rs ≤ length rs')%nat) as Hle.
  { clear. intros rs rs' H E. destruct (decide (length rs ≤ length rs')%nat) as [|Hgt]; [done|].
    destruct (lookup_lt_is_Some_2 rs (length rs')) as [r Hr]; [lia|].
    apply H in Hr. unfold len in E. congruence. }
  pose proof (Hle _ _ H1 E2). pose proof (Hle _ _ H2 E1).
  destruct (rs !! i) as [r|] eqn:E.
  - pose proof (lookup_lt_Some _ _ _ E). destruct (lookup_lt_is_Some_2 rs' i) as [r' E']; [lia|].
    rewrite E'. apply H1 in E. apply H2 in E'. congruence.
  - apply lookup_ge_None in E. symmetry. apply lookup_ge_None. lia.
Qed.

Lemma run_from_app m k rs rs' :
  (∀ i r, rs !! i = Some r → m !! (k + Z.of_nat i) = Some r) →
  run_from m (k + len rs) rs' → run_from m k (rs ++ rs').
Proof.
  intros H [H' E]. split.
  - intros i r [Hi|[Hi Hi']]%lookup_app_Some; [by apply H|].
    apply H' in Hi'. rewrite <-Hi'. f_equal. unfold len. lia.
  - rewrite len_app, Z.add_assoc. done.
Qed.

(** Recording a response that was not recorded before. *)
Lemma record_inv s g out k r :
  seq_inv s g out → 0 ≤ k < next_request_sequence_ s → g !! k = None →
  ∃ s' rs, record k r s = Some (s', rs) ∧ seq_inv s' (<[k := r]> g) (out ++ rs) ∧
    next_request_sequence_ s' = next_request_sequence_ s.
Proof.
  intros [He Hrun Hp Hr Hb] Hk Hg. destruct s as [nr ne pd]; simpl in *. subst ne.
  assert (Hout : ∀ j, 0 ≤ j < len out → is_Some (g !! j)).
  { intros j Hj. destruct (lookup_lt_is_Some_2 out (Z.to_nat j)) as [x Hx]; [unfold len in *; lia|].
    apply Hrun in Hx. rewrite Z.add_0_l, Z2Nat.id in Hx by lia. eauto. }
  assert (len out ≤ k) as Hkne.
  { destruct (decide (len out ≤ k)); [done|]. destruct (Hout k); [lia|congruence]. }
  unfold record, emplace; simpl. rewrite Hp, bool_decide_false, Hg by lia.
  assert (Hp' : ∀ j, <[k:=r]> pd !! j = if bool_decide (j < len out) then None else <[k:=r]> g !! j).
  { intros j. destruct (decide (j = k)) as [->|].
    - by rewrite !lookup_insert_eq, bool_decide_false by lia.
    - by rewrite !lookup_insert_ne, Hp by done. }
  edestruct (release_loop_spec (S (size (<[k:=r]> pd))) (mkResponseSequencer nr (len out) (<[k:=r]> pd)) [])
    as (rs & Heq & Hrs); simpl; [lia|apply len_nonneg| |].
  { intros j x Hj. rewrite Hp' in Hj. case_bool_decide; [done|].
    destruct (decide (j = k)) as [->|]; [lia|]. rewrite lookup_insert_ne in Hj by done.
    apply Hr in Hj. lia. }
  eexists _, rs. split; [exact Heq|]. simpl. split; [|done]. constructor; simpl.
  - len_lia.
  - apply run_from_app.
    + intros i x Hx. rewrite lookup_insert_ne; [by apply Hrun|].
      apply lookup_lt_Some in Hx. unfold len in *. lia.
    + destruct Hrs as [H1 H2]; simpl in *. rewrite Z.add_0_l. split.
      * intros i x Hx. apply H1 in Hx. rewrite Hp', bool_decide_false in Hx by lia. done.
      * rewrite Hp', bool_decide_false in H2 by len_lia. done.
  - intros j. apply option_eq. intros x. rewrite map_lookup_filter_Some, Hp'. simpl.
    destruct Hrs as [_ H2]; simpl in H2. rewrite Hp', bool_decide_false in H2 by len_lia.
    rewrite len_app. pose proof (len_nonneg rs).
    repeat case_bool_decide; try lia; [naive_solver| |].
    + split; [intros [_ [?|?]]; lia|done].
    + split; [by intros [? _]|]. intros Hx. split; [done|].
      destruct (decide (j = len out + len rs)) as [->|]; [congruence|lia].
  - intros j x Hx. destruct (decide (j = k)) as [->|]; [lia|].
    rewrite lookup_insert_ne in Hx by done. eauto.
  - done.
Qed.

Lemma assigned_nonneg es : 0 ≤ assigned es.
Proof. induction es as [|[]]; simpl; lia. Qed.

Lemma assign_inv s g out :
  seq_inv s g out → next_request_sequence_ s < UINT64_MAX →
  seq_inv (next_request_sequence s).1 g out ∧
  next_request_sequence_ (next_request_sequence s).1 = next_request_sequence_ s + 1.
Proof.
  intros [He Hrun Hp Hr Hb] Hlt. simpl. rewrite u64_small by (unfold in_u64; lia).
  split; [|done]. constructor; simpl; try done; [|lia].
  intros k r Hk. apply Hr in Hk. lia.
Qed.

Lemma seq_run_inv es s g out :
  seq_inv s g out → trace_ok es (next_request_sequence_ s) g = true →
  next_request_sequence_ s + assigned es ≤ UINT64_MAX →
  ∃ s' rs, seq_run es s = Some (s', rs) ∧ seq_inv s' (recorded es g) (out ++ rs) ∧
    next_request_sequence_ s' = next_request_sequence_ s + assigned es.
Proof.
  revert s g out. induction es as [|[|k r] es IH]; intros s g out Hinv Hok Hb;
    cbn [seq_run seq_step assigned recorded trace_ok] in *.
  - exists s, []. rewrite app_nil_r, Z.add_0_r. done.
  - pose proof (assigned_nonneg es). destruct (assign_inv s g out) as [Hinv' Hn]; [done|lia|].
    rewrite <-Hn in Hok. destruct (IH _ _ _ Hinv' Hok) as (s' & rs & Heq & Hinv'' & Hn'); [lia|].
    exists s', rs. cbn [mbind option_bind]. rewrite Heq. split_and!; [done..|lia].
  - apply andb_true_iff in Hok as [[Hk%bool_decide_eq_true Hg%bool_decide_eq_true]%andb_true_iff Hok].
    destruct (record_inv s g out k r Hinv Hk Hg) as (s1 & rs1 & Heq1 & Hinv1 & Hn1).
    rewrite <-Hn1 in Hok. destruct (IH _ _ _ Hinv1 Hok) as (s' & rs & Heq & Hinv'' & Hn'); [lia|].
    exists s', (rs1 ++ rs). rewrite Heq1. cbn [mbind option_bind]. rewrite Heq, app_assoc.
    split_and!; [done..|lia].
Qed.

Lemma make_sequencer_inv : seq_inv make_sequencer ∅ [].
Proof.
  constructor; simpl; try done.
  intros k. by case_bool_decide.
Qed.

Lemma seq_inv_released s g out : seq_inv s g out → len out ≤ next_request_sequence_ s.
Proof.
  intros [_ [Hrun _] _ Hr Hb]. destruct out as [|r out _] using rev_ind; [rewrite len_nil; lia|].
  rewrite len_app, len_cons, len_nil. specialize (Hrun (length out) r).
  rewrite lookup_app_r, Nat.sub_diag in Hrun by done. specialize (Hrun eq_refl).
  apply Hr in Hrun. unfold len. lia.
Qed.

Lemma seq_inv_in_flight s g out :
  seq_inv s g out → in_flight_count s = next_request_sequence_ s - len out.
Proof.
  intros Hinv. pose proof (seq_inv_released _ _ _ Hinv). destruct Hinv as [He _ _ _ Hbd].
  unfold in_flight_count. rewrite He, u64_small; [done|]. unfold in_u64. len_lia.
Qed.

(** C13. Response order.  Over any trace of assignments and completions in
    which every completion names an assigned request that has no response yet
    (and fewer than 2^64 requests), in whatever order the completions come,
    the responses released so far are exactly the longest run of recorded
    responses from the first request on: [out] at index [i] is the response to
    request [i], the response after the last released one is missing, and
    nothing is released twice.  [in_flight_count] is the number of requests
    assigned but not released, without wrap-around.  When every request has
    its response, all are released, in request order, and none waits. *)
Theorem responses_in_order es :
  trace_ok es 0 ∅ = true → assigned es ≤ UINT64_MAX →
  ∃ s out, seq_run es make_sequencer = Some (s, out) ∧
    run_from (recorded es ∅) 0 out ∧
    in_flight_count s = assigned es - len out ∧
    ((∀ k, 0 ≤ k < assigned es → is_Some (recorded es ∅ !! k)) →
      len out = assigned es ∧ in_flight_count s = 0 ∧ pending_ s = ∅).
Proof.
  intros Hok Hb. destruct (seq_run_inv es _ _ _ make_sequencer_inv Hok) as (s & out & Heq & Hinv & Hn);
    [done|]. pose proof (seq_inv_released _ _ _ Hinv) as Hle.
  pose proof (seq_inv_in_flight _ _ _ Hinv) as Hif. rewrite Hn in Hif. destruct Hinv as [He Hrun Hp Hr Hbd]. simpl in *. exists s, out.
  split_and!; [done..|]. intros Hall.
  assert (len out = assigned es) as Hlen.
  { destruct (decide (len out < assigned es)) as [Hlt|]; [|lia].
    destruct (Hall (len out)) as [r Hs]; [len_lia|]. destruct Hrun as [_ Hend].
    rewrite Z.add_0_l in Hend. congruence. }
  split_and!; [done|lia|]. apply map_empty. intros k. rewrite Hp. case_bool_decide; [done|].
  destruct (recorded es ∅ !! k) as [r|] eqn:E; [|done]. apply Hr in E. lia.
Qed.

Definition demo_trace : list SeqEvent :=
  [Assign; Assign; Record_ 1 (lit "b"); Assign; Record_ 2 (lit "c"); Record_ 0 (lit "a")].

Lemma responses_in_order_witness :
  trace_ok demo_trace 0 ∅ = true ∧
  ∃ s out, seq_run demo_trace make_sequencer = Some (s, out) ∧ run_from (recorded demo_trace ∅) 0 out ∧
    out = [lit "a"; lit "b"; lit "c"].
Proof.
  split; [by vm_compute|].
  destruct (responses_in_order demo_trace) as (s & out & Heq & Hrun & _);
    [by vm_compute|by vm_compute|].
  exists s, out. split_and!; [done..|].
  assert (seq_run demo_trace make_sequencer =
    Some (mkResponseSequencer 3 3 ∅, [lit "a"; lit "b"; lit "c"])) as E by (by vm_compute).
  rewrite E in Heq. by injection Heq as _ <-.
Defined.
