(* ===== verification/BoundedQueue.v ===== *)
(** * Bounded queues

    Models [src/include/kvstore/worker/bounded_queue.hpp].  Every member
    function holds [mutex_] for one critical section; the section is one
    transition of the queue, and [None] stands for a thread that stays in the
    wait of a condition variable.  The [on_push_] callback runs after the lock
    is released, so a push returns the callback the caller has to run.  The
    condition variables are the subject of [QueueWait.v]. *)
From S2P Require Import Prelude.

Inductive PushStatus := PushOk | PushFull | PushClosed.
Inductive PopStatus := PopOk | PopClosed | PopStopped.

#[export] Instance PushStatus_eq_dec : EqDecision PushStatus.
Proof. solve_decision. Defined.
#[export] Instance PopStatus_eq_dec : EqDecision PopStatus.
Proof. solve_decision. Defined.

(** [T] is the item type and [K] the type of the callback. *)
Record BoundedQueue (T K : Type) := mkBoundedQueue {
  items_ : list T;
  queue_capacity_ : Z;
  closed_ : bool;
  on_push_ : option K;
}.
Arguments mkBoundedQueue {T K} _ _ _ _.
Arguments items_ {T K} _.
Arguments queue_capacity_ {T K} _.
Arguments closed_ {T K} _.
Arguments on_push_ {T K} _.

Section Operations.
Context {T K : Type}.
Implicit Types (q : BoundedQueue T K) (x : T).

Definition make_queue (capacity : Z) : result (BoundedQueue T K) :=
  if bool_decide (capacity = 0) then
    Throw (InvalidArgument (lit "BoundedQueue: capacity must be greater than zero"))
  else Ok (mkBoundedQueue [] capacity false None).

Definition set_on_push (callback : option K) q : BoundedQueue T K :=
  mkBoundedQueue (items_ q) (queue_capacity_ q) (closed_ q) callback.

(** [items_.push_back(item)]. *)
Definition push_back x q : BoundedQueue T K :=
  mkBoundedQueue (items_ q ++ [x]) (queue_capacity_ q) (closed_ q) (on_push_ q).

(** The predicate [push] waits for. *)
Definition can_push q : bool :=
  closed_ q || bool_decide (len (items_ q) < queue_capacity_ q).

Definition push x q : option (BoundedQueue T K * PushStatus * option K) :=
  if can_push q then
    if closed_ q then Some (q, PushClosed, None)
    else Some (push_back x q, PushOk, on_push_ q)
  else None.

Definition try_push x q : BoundedQueue T K * PushStatus * option K :=
  if closed_ q then (q, PushClosed, None)
  else if bool_decide (len (items_ q) >= queue_capacity_ q) then (q, PushFull, None)
  else (push_back x q, PushOk, on_push_ q).

(** The predicate [pop] waits for. *)
Definition can_pop q : bool := closed_ q || negb (bool_decide (items_ q = [])).

(** [items_.front()] and [items_.pop_front()]. *)
Definition pop_front q : option (T * BoundedQueue T K) :=
  match items_ q with
  | x :: rest => Some (x, mkBoundedQueue rest (queue_capacity_ q) (closed_ q) (on_push_ q))
  | [] => None
  end.

(** [pop(out, token)].  The interruptible wait returns the value of the
    predicate once it holds or a stop is requested ([stop]). *)
Definition pop (stop : bool) q : option (BoundedQueue T K * PopStatus * option T) :=
  if can_pop q || stop then
    if negb (can_pop q) then Some (q, PopStopped, None)
    else match pop_front q with
         | None => Some (q, PopClosed, None)
         | Some (x, q') => Some (q', PopOk, Some x)
         end
  else None.

Definition try_pop q : BoundedQueue T K * option T :=
  match pop_front q with
  | None => (q, None)
  | Some (x, q') => (q', Some x)
  end.

Definition close q : BoundedQueue T K :=
  mkBoundedQueue (items_ q) (queue_capacity_ q) true (on_push_ q).

Definition closed q : bool := closed_ q.
Definition queue_size q : Z := len (items_ q).
Definition queue_capacity q : Z := queue_capacity_ q.

(** ** Histories

    The critical sections of all threads, in the order in which they got the
    lock.  A blocked call is one that has no transition yet. *)
Inductive QueueOp :=
  | OpPush (x : T)
  | OpTryPush (x : T)
  | OpPop (stop : bool)
  | OpTryPop
  | OpClose
  | OpSetOnPush (callback : option K).

(** One transition: the new queue, the item accepted, the item delivered. *)
Definition queue_step (o : QueueOp) q : option (BoundedQueue T K * option T * option T) :=
  match o with
  | OpPush x =>
      '(q, st, _) ← push x q; Some (q, if bool_decide (st = PushOk) then Some x else None, None)
  | OpTryPush x =>
      let '(q, st, _) := try_push x q in
      Some (q, if bool_decide (st = PushOk) then Some x else None, None)
  | OpPop stop => '(q, _, out) ← pop stop q; Some (q, None, out)
  | OpTryPop => let '(q, out) := try_pop q in Some (q, None, out)
  | OpClose => Some (close q, None, None)
  | OpSetOnPush k => Some (set_on_push k q, None, None)
  end.

(** Runs a history; the accepted and the delivered items, in order. *)
Fixpoint queue_run (os : list QueueOp) q : option (BoundedQueue T K * list T * list T) :=
  match os with
  | [] => Some (q, [], [])
  | o :: os =>
      '(q, a, d) ← queue_step o q;
      '(q, acc, del) ← queue_run os q;
      Some (q, option_list a ++ acc, option_list d ++ del)
  end.

(** ** The capacity and the order *)
Definition queue_wf q : Prop := len (items_ q) ≤ queue_capacity_ q.

Lemma push_inv x q q' st k :
  push x q = Some (q', st, k) →
  (closed_ q = true ∧ q' = q ∧ st = PushClosed ∧ k = None) ∨
  (closed_ q = false ∧ len (items_ q) < queue_capacity_ q ∧ q' = push_back x q ∧ st = PushOk ∧
   k = on_push_ q).
Proof.
  unfold push, can_push. destruct (closed_ q); simpl; [naive_solver|].
  case_bool_decide; naive_solver.
Qed.

Lemma try_push_inv x q q' st k :
  try_push x q = (q', st, k) →
  (closed_ q = true ∧ q' = q ∧ st = PushClosed ∧ k = None) ∨
  (closed_ q = false ∧ queue_capacity_ q ≤ len (items_ q) ∧ q' = q ∧ st = PushFull ∧ k = None) ∨
  (closed_ q = false ∧ len (items_ q) < queue_capacity_ q ∧ q' = push_back x q ∧ st = PushOk ∧
   k = on_push_ q).
Proof.
  unfold try_push. destruct (closed_ q); simpl; [naive_solver|].
  case_bool_decide; intros; simplify_eq; [right; left|right; right]; split_and!; auto; lia.
Qed.

Lemma pop_inv stop q q' st out :
  pop stop q = Some (q', st, out) →
  (q' = q ∧ items_ q = [] ∧ out = None ∧
    ((st = PopClosed ∧ closed_ q = true) ∨ (st = PopStopped ∧ stop = true ∧ closed_ q = false))) ∨
  (∃ x rest, items_ q = x :: rest ∧ out = Some x ∧ st = PopOk ∧
    q' = mkBoundedQueue rest (queue_capacity_ q) (closed_ q) (on_push_ q)).
Proof.
  unfold pop, can_pop, pop_front. destruct q as [[|x rest] c cl k]; simpl.
  - destruct cl, stop; naive_solver.
  - destruct cl; naive_solver.
Qed.

(** One transition keeps the capacity, and the accepted items are those
    delivered followed by those waiting. *)
Lemma queue_step_fifo o q q' a d :
  queue_step o q = Some (q', a, d) →
  items_ q ++ option_list a = option_list d ++ items_ q' ∧
  queue_capacity_ q' = queue_capacity_ q ∧ (queue_wf q → queue_wf q') ∧
  (closed_ q = true → closed_ q' = true ∧ a = None).
Proof.
  unfold queue_wf. destruct o as [x|x|stop| | |k]; simpl.
  - intros ([[q1 st] k] & Hp & Heq)%bind_Some. injection Heq as <- <- <-.
    apply push_inv in Hp as [(Hc & -> & -> & _)|(Hc & Hlt & -> & -> & _)]; simpl.
    + by rewrite app_nil_r.
    + split_and!; [done..|len_lia|congruence].
  - destruct (try_push x q) as [[q1 st] k] eqn:Hp. intros [= <- <- <-].
    apply try_push_inv in Hp as [(Hc & -> & -> & _)|[(Hc & Hle & -> & -> & _)|(Hc & Hlt & -> & -> & _)]];
      simpl; rewrite ?app_nil_r; split_and!; try done; [len_lia|congruence].
  - intros ([[q1 st] out] & Hp & Heq)%bind_Some. injection Heq as <- <- <-. rewrite app_nil_r.
    apply pop_inv in Hp as [(-> & _ & -> & _)|(x & rest & -> & -> & _ & ->)]; simpl; [done|].
    split_and!; try done. len_lia.
  - unfold try_pop, pop_front. destruct (items_ q) as [|x rest] eqn:E; intros [= <- <- <-];
      rewrite app_nil_r; simpl; rewrite ?E; split_and!; try done. len_lia.
  - intros [= <- <- <-]. rewrite app_nil_r. done.
  - intros [= <- <- <-]. rewrite app_nil_r. done.
Qed.

Lemma queue_run_fifo os q q' acc del :
  queue_run os q = Some (q', acc, del) →
  items_ q ++ acc = del ++ items_ q' ∧
  queue_capacity_ q' = queue_capacity_ q ∧ (queue_wf q → queue_wf q') ∧
  (closed_ q = true → closed_ q' = true ∧ acc = []).
Proof.
  revert q acc del. induction os as [|o os IH]; intros q acc del; simpl.
  { intros [= <- <- <-]. rewrite app_nil_r. done. }
  intros ([[q1 a] d] & Hs & ([[q2 acc'] del'] & Hr & Heq)%bind_Some)%bind_Some. injection Heq as <- <- <-.
  apply queue_step_fifo in Hs as (E1 & C1 & W1 & X1). apply IH in Hr as (E2 & C2 & W2 & X2).
  split_and!; [|congruence|auto|].
  - by rewrite app_assoc, E1, <-!app_assoc, E2.
  - intros Hc. destruct (X1 Hc) as [Hc1 ->]. destruct (X2 Hc1) as [Hc2 ->]. done.
Qed.

(** The calls that can block, and when. *)
Lemma push_blocks x q :
  push x q = None ↔ closed_ q = false ∧ queue_capacity_ q ≤ len (items_ q).
Proof.
  unfold push, can_push. destruct (closed_ q); simpl; [naive_solver|].
  case_bool_decide; split; intros; try naive_solver; lia.
Qed.

Lemma pop_blocks stop q :
  pop stop q = None ↔ closed_ q = false ∧ items_ q = [] ∧ stop = false.
Proof.
  unfold pop, can_pop, pop_front. destruct q as [[|x rest] c cl k]; simpl.
  - destruct cl, stop; naive_solver.
  - destruct cl; naive_solver.
Qed.

(** C21. FIFO, capacity and shutdown of a queue.  For every history of
    critical sections that starts from a new queue of a positive capacity, in
    any interleaving of producers and consumers: the items delivered followed
    by the items still waiting are exactly the items accepted, in the order of
    acceptance (none lost, duplicated or reordered); never more than
    [capacity] wait; a history that continues after [close] accepts nothing
    more, and neither a push nor a pop blocks: a push is refused with
    [kClosed], a pop delivers the oldest waiting item and, when none is left,
    reports [kClosed]. *)
Theorem queue_linear_fifo cap q0 os q acc del :
  make_queue cap = Ok q0 → 0 ≤ cap →
  queue_run os q0 = Some (q, acc, del) →
  acc = del ++ items_ q ∧ queue_size q ≤ cap ∧
  (∀ os' q' acc' del', queue_run os' (close q) = Some (q', acc', del') →
     acc' = [] ∧ items_ q = del' ++ items_ q' ∧
     ∀ x stop, push x q' = Some (q', PushClosed, None) ∧
       pop stop q' = Some (match items_ q' with
         | y :: rest => (mkBoundedQueue rest (queue_capacity_ q') true (on_push_ q'), PopOk, Some y)
         | [] => (q', PopClosed, None)
         end)).
Proof.
  intros Hmk Hcap Hrun. unfold make_queue in Hmk. case_bool_decide; [done|].
  injection Hmk as <-. apply queue_run_fifo in Hrun as (E & Hc & W & _). simpl in *.
  split_and!; [done|unfold queue_size; rewrite <-Hc; apply W; unfold queue_wf; simpl; len_lia|].
  intros os' q' acc' del' Hr. apply queue_run_fifo in Hr as (E' & _ & _ & X).
  destruct (X eq_refl) as [Hcl ->]. simpl in E'. rewrite app_nil_r in E'.
  split_and!; [done..|]. intros x stop. unfold push, pop, can_push, can_pop, pop_front.
  rewrite Hcl. simpl. split; [done|]. by destruct (items_ q').
Qed.
End Operations.
Arguments QueueOp : clear implicits.

Lemma queue_linear_fifo_witness :
  ∃ q : BoundedQueue Z unit, queue_run [OpTryPush 1; OpPush 2; OpTryPush 3; OpPop false; OpPush 4]
      (mkBoundedQueue [] 2 false None) = Some (q, [1; 2; 4], [1]) ∧ [1; 2; 4] = [1] ++ items_ q.
Proof.
  eexists. split; [reflexivity|].
  apply (queue_linear_fifo (K:=unit) 2 (mkBoundedQueue [] 2 false None)
    [OpTryPush 1; OpPush 2; OpTryPush 3; OpPop false; OpPush 4]); [reflexivity|lia|reflexivity].
Defined.
