(* ===== verification/QueueWait.v ===== *)
(** * The condition variables of a bounded queue

    [BoundedQueue.v] treats a blocked call as one without a transition.  Here
    the threads are in the model: a producer or consumer whose predicate is
    false goes to sleep in the wait of [not_full_] or [not_empty_]; the
    notification of a push, pop or [close] is sent after the lock is
    released, as in the source, so other threads may run in between; a woken
    thread has to get the lock again and test its predicate again.  The
    theorem is that no wake-up is lost. *)
From stdpp Require Import relations.
From S2P Require Import Prelude BoundedQueue.

Section Wait.
Context {T K : Type}.

Record WaitState := mkWaitState {
  ws_queue : BoundedQueue T K;
  push_asleep : nat;      (** producers in [not_full_.wait] *)
  push_woken : nat;       (** producers notified, waiting for the lock *)
  pop_asleep : nat;
  pop_woken : nat;
  full_notify : nat;      (** [not_full_.notify_one()] calls still to come *)
  empty_notify : nat;
  all_notify : nat;       (** [close] calls that have released the lock *)
}.

(** A producer runs its critical section. *)
Definition run_push (x : T) (w : WaitState) : WaitState :=
  match push x (ws_queue w) with
  | Some (q, st, _) =>
      mkWaitState q (push_asleep w) (push_woken w) (pop_asleep w) (pop_woken w)
        (full_notify w) (empty_notify w + if bool_decide (st = PushOk) then 1 else 0) (all_notify w)
  | None =>
      mkWaitState (ws_queue w) (S (push_asleep w)) (push_woken w) (pop_asleep w) (pop_woken w)
        (full_notify w) (empty_notify w) (all_notify w)
  end.

(** A consumer runs its critical section; [stop] is the state of its token. *)
Definition run_pop (stop : bool) (w : WaitState) : WaitState :=
  match pop stop (ws_queue w) with
  | Some (q, st, _) =>
      mkWaitState q (push_asleep w) (push_woken w) (pop_asleep w) (pop_woken w)
        (full_notify w + if bool_decide (st = PopOk) then 1 else 0) (empty_notify w) (all_notify w)
  | None =>
      mkWaitState (ws_queue w) (push_asleep w) (push_woken w) (S (pop_asleep w)) (pop_woken w)
        (full_notify w) (empty_notify w) (all_notify w)
  end.

Definition run_try_push (x : T) (w : WaitState) : WaitState :=
  let '(q, st, _) := try_push x (ws_queue w) in
  mkWaitState q (push_asleep w) (push_woken w) (pop_asleep w) (pop_woken w)
    (full_notify w) (empty_notify w + if bool_decide (st = PushOk) then 1 else 0) (all_notify w).

Definition run_try_pop (w : WaitState) : WaitState :=
  let '(q, out) := try_pop (ws_queue w) in
  mkWaitState q (push_asleep w) (push_woken w) (pop_asleep w) (pop_woken w)
    (full_notify w + match out with Some _ => 1 | None => 0 end) (empty_notify w) (all_notify w).

(** The two counters of a variable when [n] of its sleepers wake. *)
Definition wake_push (n : nat) (w : WaitState) : WaitState :=
  mkWaitState (ws_queue w) (push_asleep w - n) (push_woken w + Nat.min n (push_asleep w))
    (pop_asleep w) (pop_woken w) (full_notify w) (empty_notify w) (all_notify w).
Definition wake_pop (n : nat) (w : WaitState) : WaitState :=
  mkWaitState (ws_queue w) (push_asleep w) (push_woken w)
    (pop_asleep w - n) (pop_woken w + Nat.min n (pop_asleep w))
    (full_notify w) (empty_notify w) (all_notify w).

Definition take_woken_push (w : WaitState) : WaitState :=
  mkWaitState (ws_queue w) (push_asleep w) (pred (push_woken w)) (pop_asleep w) (pop_woken w)
    (full_notify w) (empty_notify w) (all_notify w).
Definition take_woken_pop (w : WaitState) : WaitState :=
  mkWaitState (ws_queue w) (push_asleep w) (push_woken w) (pop_asleep w) (pred (pop_woken w))
    (full_notify w) (empty_notify w) (all_notify w).
Definition with_notify (f e a : nat) (w : WaitState) : WaitState :=
  mkWaitState (ws_queue w) (push_asleep w) (push_woken w) (pop_asleep w) (pop_woken w) f e a.
Definition with_queue (q : BoundedQueue T K) (w : WaitState) : WaitState :=
  mkWaitState q (push_asleep w) (push_woken w) (pop_asleep w) (pop_woken w)
    (full_notify w) (empty_notify w) (all_notify w).

Inductive wait_step : WaitState → WaitState → Prop :=
  (* a call arrives and gets the lock *)
  | StepPush x w : wait_step w (run_push x w)
  | StepPop stop w : wait_step w (run_pop stop w)
  | StepTryPush x w : wait_step w (run_try_push x w)
  | StepTryPop w : wait_step w (run_try_pop w)
  | StepClose w :
      wait_step w (with_notify (full_notify w) (empty_notify w) (S (all_notify w))
                     (with_queue (close (ws_queue w)) w))
  (* a woken thread gets the lock back and tests its predicate *)
  | StepPushAgain x w : (0 < push_woken w)%nat → wait_step w (run_push x (take_woken_push w))
  | StepPopAgain stop w : (0 < pop_woken w)%nat → wait_step w (run_pop stop (take_woken_pop w))
  (* a notification is delivered; with nobody asleep it is a no-op *)
  | StepNotifyFull w : (0 < full_notify w)%nat →
      wait_step w (with_notify (pred (full_notify w)) (empty_notify w) (all_notify w) (wake_push 1 w))
  | StepNotifyEmpty w : (0 < empty_notify w)%nat →
      wait_step w (with_notify (full_notify w) (pred (empty_notify w)) (all_notify w) (wake_pop 1 w))
  | StepNotifyAll w : (0 < all_notify w)%nat →
      wait_step w (with_notify (full_notify w) (empty_notify w) (pred (all_notify w))
        (wake_push (push_asleep w) (wake_pop (pop_asleep w) w)))
  (* a stop request wakes a consumer, and wake-ups may be spurious *)
  | StepWakePush w : wait_step w (wake_push 1 w)
  | StepWakePop w : wait_step w (wake_pop 1 w).

Definition wait_init (q : BoundedQueue T K) : WaitState := mkWaitState q 0 0 0 0 0 0 0.

(** While the queue is open, there are at least as many producers on the way
    back (or notifications on the way) as free slots, unless nobody sleeps;
    and the same for consumers and items.  A closed queue leaves a sleeper
    only until its [notify_all] is delivered. *)
Record wait_inv (w : WaitState) : Prop := {
  wait_wf : queue_wf (ws_queue w);
  wait_push : closed_ (ws_queue w) = false → push_asleep w = 0%nat ∨
    queue_capacity_ (ws_queue w) - len (items_ (ws_queue w)) ≤
      Z.of_nat (push_woken w + full_notify w);
  wait_pop : closed_ (ws_queue w) = false → pop_asleep w = 0%nat ∨
    len (items_ (ws_queue w)) ≤ Z.of_nat (pop_woken w + empty_notify w);
  wait_closed : closed_ (ws_queue w) = true →
    (push_asleep w = 0%nat ∧ pop_asleep w = 0%nat) ∨ (0 < all_notify w)%nat;
}.

(** A producer's section, run by a thread that held [n] of the wake-ups. *)
Lemma run_push_inv x n w :
  (n ≤ push_woken w)%nat → (n ≤ 1)%nat → wait_inv w →
  wait_inv (run_push x (mkWaitState (ws_queue w) (push_asleep w) (push_woken w - n) (pop_asleep w)
    (pop_woken w) (full_notify w) (empty_notify w) (all_notify w))).
Proof.
  intros Hn Hn1 [Hwf Hpu Hpo Hcl]. unfold run_push; simpl.
  destruct (push x (ws_queue w)) as [[[q st] k]|] eqn:E.
  - apply push_inv in E as [(Hc & -> & -> & _)|(Hc & Hlt & -> & -> & _)];
      constructor; unfold queue_wf in *; simpl; try done; try congruence; intros; len_norm.
    + lia.
    + destruct Hpu; [done|left; done|right; lia].
    + destruct Hpo; [done|left; done|right; lia].
  - apply push_blocks in E as [Hc Hfull]. constructor; unfold queue_wf in *; simpl; try done; try congruence.
    intros. right. lia.
Qed.

Lemma run_pop_inv stop n w :
  (n ≤ pop_woken w)%nat → (n ≤ 1)%nat → wait_inv w →
  wait_inv (run_pop stop (mkWaitState (ws_queue w) (push_asleep w) (push_woken w) (pop_asleep w)
    (pop_woken w - n) (full_notify w) (empty_notify w) (all_notify w))).
Proof.
  intros Hn Hn1 [Hwf Hpu Hpo Hcl]. unfold run_pop; simpl.
  destruct (pop stop (ws_queue w)) as [[[q st] out]|] eqn:E.
  - apply pop_inv in E as [(-> & Hi & -> & Hst)|(x & rest & Hi & -> & -> & ->)].
    + assert (bool_decide (st = PopOk) = false) as ->
        by (apply bool_decide_false; destruct Hst as [[-> _]|[-> _]]; done).
      constructor; simpl; rewrite ?Nat.add_0_r; try done. intros. right. rewrite Hi. len_lia.
    + rewrite Hi in *. constructor; unfold queue_wf in *; simpl; try done; intros; rewrite ?Hi in *; len_norm.
      * lia.
      * destruct Hpu; [done|left; done|right; lia].
      * destruct Hpo; [done|left; done|right; lia].
  - apply pop_blocks in E as (Hc & Hi & _). constructor; unfold queue_wf in *; simpl; try done; try congruence.
    intros. right. rewrite Hi. len_lia.
Qed.

Lemma wake_push_inv n w : wait_inv w → wait_inv (wake_push n w).
Proof.
  intros [Hwf Hpu Hpo Hcl]. constructor; unfold queue_wf in *; simpl; try done.
  - intros Hc. destruct (Hpu Hc); [left; lia|right; lia].
  - intros Hc. destruct (Hcl Hc); [left; lia|right; lia].
Qed.

Lemma wake_pop_inv n w : wait_inv w → wait_inv (wake_pop n w).
Proof.
  intros [Hwf Hpu Hpo Hcl]. constructor; unfold queue_wf in *; simpl; try done.
  - intros Hc. destruct (Hpo Hc); [left; lia|right; lia].
  - intros Hc. destruct (Hcl Hc); [left; lia|right; lia].
Qed.

Lemma run_try_push_inv x w : wait_inv w → wait_inv (run_try_push x w).
Proof.
  intros [Hwf Hpu Hpo Hcl]. unfold run_try_push.
  destruct (try_push x (ws_queue w)) as [[q st] k] eqn:E.
  apply try_push_inv in E as [(Hc & -> & -> & _)|[(Hc & Hle & -> & -> & _)|(Hc & Hlt & -> & -> & _)]];
    constructor; unfold queue_wf in *; simpl; rewrite ?Nat.add_0_r; try done; intros; try congruence.
  - len_lia.
  - destruct Hpu; [done|left; done|right; len_lia].
  - destruct Hpo; [done|left; done|right; len_lia].
Qed.

Lemma run_try_pop_inv w : wait_inv w → wait_inv (run_try_pop w).
Proof.
  intros [Hwf Hpu Hpo Hcl]. unfold run_try_pop, try_pop, pop_front.
  destruct (items_ (ws_queue w)) as [|x rest] eqn:E;
    constructor; unfold queue_wf in *; simpl; rewrite ?Nat.add_0_r; rewrite ?E in *; try done; intros.
  - len_lia.
  - destruct Hpu; [done|left; done|right; len_lia].
  - destruct Hpo; [done|left; done|right; len_lia].
Qed.

(** Notifications that were delivered: one fewer to come, one more woken or
    nobody asleep. *)
Lemma notify_full_inv w :
  (0 < full_notify w)%nat → wait_inv w →
  wait_inv (with_notify (pred (full_notify w)) (empty_notify w) (all_notify w) (wake_push 1 w)).
Proof.
  intros Hn [Hwf Hpu Hpo Hcl]. constructor; simpl; try done.
  - intros Hc. destruct (Hpu Hc); [left; lia|]. destruct (push_asleep w) as [|[|n]]; [left; lia..|right; lia].
  - intros Hc. destruct (Hcl Hc); [left; lia|right; lia].
Qed.

Lemma notify_empty_inv w :
  (0 < empty_notify w)%nat → wait_inv w →
  wait_inv (with_notify (full_notify w) (pred (empty_notify w)) (all_notify w) (wake_pop 1 w)).
Proof.
  intros Hn [Hwf Hpu Hpo Hcl]. constructor; simpl; try done.
  - intros Hc. destruct (Hpo Hc); [left; lia|]. destruct (pop_asleep w) as [|[|n]]; [left; lia..|right; lia].
  - intros Hc. destruct (Hcl Hc); [left; lia|right; lia].
Qed.

Lemma wait_step_inv w w' : wait_step w w' → wait_inv w → wait_inv w'.
Proof.
  intros Hs Hinv. destruct Hs.
  - pose proof (run_push_inv x 0 w) as H. rewrite Nat.sub_0_r in H. destruct w. apply H; simpl; auto; lia.
  - pose proof (run_pop_inv stop 0 w) as H. rewrite Nat.sub_0_r in H. destruct w. apply H; simpl; auto; lia.
  - by apply run_try_push_inv.
  - by apply run_try_pop_inv.
  - destruct Hinv. constructor; simpl; try done. intros _. right. lia.
  - unfold take_woken_push. rewrite <-Nat.sub_1_r. apply run_push_inv; auto with lia.
  - unfold take_woken_pop. rewrite <-Nat.sub_1_r. apply run_pop_inv; auto with lia.
  - by apply notify_full_inv.
  - by apply notify_empty_inv.
  - destruct Hinv. constructor; simpl; try done; intros; left; lia.
  - by apply wake_push_inv.
  - by apply wake_pop_inv.
Qed.

Lemma wait_step_capacity w w' :
  wait_step w w' → queue_capacity_ (ws_queue w') = queue_capacity_ (ws_queue w).
Proof.
  intros []; try done.
  all: unfold run_push, run_pop, run_try_push, run_try_pop, take_woken_push, take_woken_pop,
    push, pop, try_push, try_pop, pop_front; simpl; by repeat case_match; simplify_eq.
Qed.

Lemma wait_reach q w :
  rtc wait_step (wait_init q) w → queue_wf q → wait_inv w ∧ queue_capacity_ (ws_queue w) = queue_capacity_ q.
Proof.
  intros Hsteps Hwf. assert (wait_inv (wait_init q)) as H0.
  { constructor; simpl; auto. }
  remember (wait_init q) as w0 eqn:E. assert (queue_capacity_ (ws_queue w0) = queue_capacity_ q) as <- by (by subst).
  clear E. induction Hsteps as [|w1 w2 w3 Hs _ IH]; [done|].
  rewrite <-(wait_step_capacity _ _ Hs). apply IH. by eapply wait_step_inv.
Qed.

(** C14. No lost wake-up.  Take a new queue and any number of threads that
    push, pop, try and close, interleaved in any way, with notifications
    delivered late, wake-ups that are spurious and wake-ups that find their
    slot taken.  In every reachable state: while the queue is open and a
    producer sleeps, at least as many producers are on their way back to the
    lock, or notifications on their way to one, as there are free slots; the
    same for consumers and items; once the queue is closed a thread sleeps
    only while a [notify_all] is still to come.  So a producer that sleeps
    although its push could go through is owed a wake-up, and with no producer
    woken and none to be notified a producer sleeps only behind a queue that
    is open and full; likewise a consumer only before one that is open and
    empty; and with nothing woken and nothing outstanding not both kinds
    sleep. *)
Theorem no_lost_wakeup cap q w :
  make_queue cap = Ok q → 0 ≤ cap →
  rtc wait_step (wait_init q) w →
  (closed (ws_queue w) = false → (0 < push_asleep w)%nat →
    cap - len (items_ (ws_queue w)) ≤ Z.of_nat (push_woken w + full_notify w)) ∧
  (closed (ws_queue w) = false → (0 < pop_asleep w)%nat →
    len (items_ (ws_queue w)) ≤ Z.of_nat (pop_woken w + empty_notify w)) ∧
  (closed (ws_queue w) = true → (0 < push_asleep w + pop_asleep w)%nat → (0 < all_notify w)%nat) ∧
  ((push_woken w + full_notify w + all_notify w = 0)%nat →
    (0 < push_asleep w)%nat → ∀ x, push x (ws_queue w) = None) ∧
  ((pop_woken w + empty_notify w + all_notify w = 0)%nat →
    (0 < pop_asleep w)%nat → pop false (ws_queue w) = None) ∧
  ((push_woken w + full_notify w + (pop_woken w + empty_notify w) + all_notify w = 0)%nat →
    push_asleep w = 0%nat ∨ pop_asleep w = 0%nat).
Proof.
  intros Hmk Hcap Hsteps. unfold make_queue in Hmk. case_bool_decide; [done|].
  injection Hmk as <-.
  destruct (wait_reach _ _ Hsteps) as [[Hwf Hpu Hpo Hcl] Hc]; [unfold queue_wf; simpl; len_lia|].
  simpl in Hc. unfold queue_wf, closed in *. rewrite Hc in *.
  assert (Hopen : ∀ P : Prop, (closed_ (ws_queue w) = true → P) → (closed_ (ws_queue w) = false → P) → P)
    by (intros P; destruct (closed_ (ws_queue w)); auto).
  split_and!.
  - intros Ho Hs. destruct (Hpu Ho); lia.
  - intros Ho Hs. destruct (Hpo Ho); lia.
  - intros Ho Hs. destruct (Hcl Ho); lia.
  - intros Hz Hs x. apply push_blocks. apply Hopen; intros Ho; [destruct (Hcl Ho); lia|].
    split; [done|]. destruct (Hpu Ho); lia.
  - intros Hz Hs. apply pop_blocks. apply Hopen; intros Ho; [destruct (Hcl Ho); lia|].
    split_and!; [done| |done]. apply len_zero_iff. destruct (Hpo Ho); [lia|]. len_lia.
  - intros Hz. apply Hopen; intros Ho; [destruct (Hcl Ho); lia|].
    specialize (Hpu Ho). specialize (Hpo Ho). lia.
Qed.
End Wait.

(** A producer sleeps behind a full queue; the first push's notification has
    been delivered to nobody. *)
Lemma no_lost_wakeup_witness :
  ∃ w : @WaitState Z unit,
    rtc wait_step (wait_init (mkBoundedQueue [] 1 false None)) w ∧ push_asleep w = 1%nat ∧
    push 3 (ws_queue w) = None.
Proof.
  set (w0 := wait_init (mkBoundedQueue [] 1 false None) : @WaitState Z unit).
  set (w1 := run_push 1 w0). set (w2 := run_push 2 w1).
  set (w3 := with_notify (full_notify w2) (pred (empty_notify w2)) (all_notify w2) (wake_pop 1 w2)).
  assert (rtc wait_step w0 w3) as Hr.
  { eapply rtc_l; [apply (StepPush 1)|]. eapply rtc_l; [apply (StepPush 2)|].
    eapply rtc_l; [apply StepNotifyEmpty; vm_compute; lia|]. apply rtc_refl. }
  exists w3. split_and!; [exact Hr|reflexivity|].
  apply (no_lost_wakeup 1 (mkBoundedQueue [] 1 false None) w3); try reflexivity; [lia|exact Hr|vm_compute; lia].
Defined.
