(* ===== verification/World.v ===== *)
(** * The environment of the event loop

    The event loop calls the operating system and shares two queues with the
    worker threads.  [World] is the interface it uses; [WorldLaws] says what
    it relies on: the documented behaviour of stream sockets, and that every
    work item accepted by the work queue comes back as one completion.  The
    theorems about the event loop are proved against these classes;
    [System.v] builds an instance from the real queues, workers and store.

    [src/include/kvstore/worker/work_item.hpp] is modelled here. *)
From S2P Require Import Prelude Parser BoundedQueue.

(** ** work_item.hpp *)
Record WorkItem := mkWorkItem {
  wi_connection_id : Z;
  wi_connection_generation : Z;
  wi_sequence : Z;
  wi_command : Command;
}.

Record Completion := mkCompletion {
  co_connection_id : Z;
  co_connection_generation : Z;
  co_sequence : Z;
  co_response : bytes;
}.

#[export] Instance WorkItem_eq_dec : EqDecision WorkItem.
Proof. solve_decision. Defined.
#[export] Instance Completion_eq_dec : EqDecision Completion.
Proof. solve_decision. Defined.

(** The completion is the one of the item. *)
Definition completes (item : WorkItem) (c : Completion) : Prop :=
  co_connection_id c = wi_connection_id item ∧
  co_connection_generation c = wi_connection_generation item ∧
  co_sequence c = wi_sequence item.

(** ** errno (the numbers of Linux, where EWOULDBLOCK is EAGAIN) *)
Definition EINTR : Z := 4.
Definition EAGAIN : Z := 11.
Definition EWOULDBLOCK : Z := EAGAIN.
Definition EMFILE : Z := 24.
Definition EPIPE : Z := 32.
Definition ECONNABORTED : Z := 103.
Definition ECONNRESET : Z := 104.

Definition EPOLLIN : Z := 1.
Definition EPOLLOUT : Z := 4.
Definition EPOLLERR : Z := 8.
Definition EPOLLHUP : Z := 16.
Inductive EpollOp := EPOLL_CTL_ADD | EPOLL_CTL_DEL | EPOLL_CTL_MOD.

(** ** The calls

    A failing system call returns [inr errno].  [recv] returns the bytes it
    stored (none at the orderly end of the stream), [send] their number,
    [accept4] the descriptor with the peer's address text and port.  The
    queue operations run between steps of other threads, which the new world
    accounts for. *)
Class World (W : Type) := {
  sys_recv : Z → Z → W → W * (bytes + Z);
  sys_send : Z → bytes → W → W * (Z + Z);
  sys_epoll_ctl : EpollOp → Z → Z → W → W * bool;
  sys_accept4 : W → W * (Z * bytes * Z + Z);
  sys_close : Z → W → W;
  sys_epoll_wait : W → W * (list (Z * Z) + Z);
  wakeup_read : W → W * bool;
  stop_requested : W → W * bool;
  work_try_push : WorkItem → W → W * PushStatus;
  completion_try_pop : W → W * option Completion;
  log_warn : bytes → W → W;
}.

(** ** What the event loop relies on

    Ghost observations of a world.  [socks] gives, for every open client
    socket, the bytes [recv] has delivered and the bytes [send] has taken since
    it was accepted; [ledger] every item the work queue ever accepted, marked
    [true] while its completion has not been popped; [answered] the responses
    the workers have given, which is never taken back in a later world
    ([extends]).  The bounds of the laws say that no connection carries 2^64
    bytes and that fewer than 2^64 connections are accepted.  [backlog] and
    [wakeups] bound the connections and wake-ups that arrive while one handler
    drains them: that they decrease is an assumption on the load, that clients
    do not connect, or abort connections, faster than the loop accepts for
    ever, and only the termination of the two drains rests on it. *)
Class WorldView (W : Type) := {
  world_inv : W → Prop;
  extends : relation W;
  answered : W → WorkItem → bytes → Prop;
  socks : W → gmap Z (bytes * bytes);
  accepts : W → Z;
  ledger : W → list (WorkItem * bool);
  backlog : W → nat;
  wakeups : W → nat;
}.

Definition owing (items : list WorkItem) : list (WorkItem * bool) := (λ it, (it, true)) <$> items.

Lemma owing_app items items' : owing (items ++ items') = owing items ++ owing items'.
Proof. apply fmap_app. Qed.

(** The items of a ledger that are still to be completed. *)
Definition unpaid (l : list (WorkItem * bool)) : list WorkItem := (filter (λ e, e.2 = true) l).*1.

Section View.
Context {W : Type} `{!WorldView W}.

Definition owed (w : W) : list WorkItem := unpaid (ledger w).
Definition issued (w : W) : list WorkItem := (ledger w).*1.

(** A good world that is not earlier than [w0]. *)
Definition world_ok (w0 w : W) : Prop := world_inv w ∧ extends w0 w.

(** Nothing the event loop relies on has changed. *)
Definition undisturbed (w0 w w' : W) : Prop :=
  world_ok w0 w' ∧ socks w' = socks w ∧ accepts w' = accepts w ∧ ledger w' ≡ₚ ledger w.
End View.

Class WorldLaws (W : Type) `{!World W, !WorldView W} := {
  #[global] extends_preorder :: PreOrder (extends (W := W));
  answered_mono (w w' : W) it resp : extends w w' → answered w it resp → answered w' it resp;
  answered_issued (w : W) it resp : world_inv w → answered w it resp → it ∈ issued w;

  stream_bound {w0 : W} (w : W) fd i o : world_ok w0 w → socks w !! fd = Some (i, o) → len i < UINT64_MAX;
  accepts_bound {w0 : W} (w : W) : world_ok w0 w → 0 ≤ accepts w < UINT64_MAX;

  recv_law {w0 : W} (w w' : W) fd n r i o :
    world_ok w0 w → socks w !! fd = Some (i, o) → 0 < n → sys_recv fd n w = (w', r) →
    world_ok w0 w' ∧ accepts w' = accepts w ∧ ledger w' ≡ₚ ledger w ∧
    match r with
    | inl d => len d ≤ n ∧ socks w' = <[fd := (i ++ d, o)]> (socks w)
    | inr _ => socks w' = socks w
    end;
  send_law {w0 : W} (w w' : W) fd d r i o :
    world_ok w0 w → socks w !! fd = Some (i, o) → d ≠ [] → sys_send fd d w = (w', r) →
    world_ok w0 w' ∧ accepts w' = accepts w ∧ ledger w' ≡ₚ ledger w ∧
    match r with
    | inl n => 0 ≤ n ≤ len d ∧ socks w' = <[fd := (i, o ++ take (Z.to_nat n) d)]> (socks w)
    | inr _ => socks w' = socks w
    end;
  accept_law {w0 : W} (w w' : W) r :
    world_ok w0 w → sys_accept4 w = (w', r) →
    world_ok w0 w' ∧ ledger w' ≡ₚ ledger w ∧
    match r with
    | inl (fd, _, _) =>
        0 ≤ fd ∧ socks w !! fd = None ∧ socks w' = <[fd := ([], [])]> (socks w) ∧
        accepts w' = accepts w + 1 ∧ (backlog w' < backlog w)%nat
    | inr e =>
        socks w' = socks w ∧ accepts w' = accepts w ∧
        (e = EINTR ∨ e = ECONNABORTED → (backlog w' < backlog w)%nat)
    end;
  close_law {w0 : W} (w : W) fd :
    world_ok w0 w →
    world_ok w0 (sys_close fd w) ∧ socks (sys_close fd w) = delete fd (socks w) ∧
    accepts (sys_close fd w) = accepts w ∧ ledger (sys_close fd w) ≡ₚ ledger w ∧
    (backlog (sys_close fd w) ≤ backlog w)%nat;
  epoll_law {w0 : W} (w w' : W) op fd ev ok :
    world_ok w0 w → sys_epoll_ctl op fd ev w = (w', ok) →
    undisturbed w0 w w' ∧ (backlog w' ≤ backlog w)%nat;
  epoll_wait_law {w0 : W} (w w' : W) r : world_ok w0 w → sys_epoll_wait w = (w', r) → undisturbed w0 w w';
  wakeup_law {w0 : W} (w w' : W) b :
    world_ok w0 w → wakeup_read w = (w', b) →
    undisturbed w0 w w' ∧ (b = true → (wakeups w' < wakeups w)%nat);
  stop_law {w0 : W} (w w' : W) b : world_ok w0 w → stop_requested w = (w', b) → undisturbed w0 w w';
  log_law {w0 : W} (w : W) text :
    world_ok w0 w → undisturbed w0 w (log_warn text w) ∧ (backlog (log_warn text w) ≤ backlog w)%nat;
  push_law {w0 : W} (w w' : W) item st :
    world_ok w0 w → work_try_push item w = (w', st) →
    world_ok w0 w' ∧ socks w' = socks w ∧ accepts w' = accepts w ∧
    ledger w' ≡ₚ owing (if bool_decide (st = PushOk) then [item] else []) ++ ledger w;
  pop_law {w0 : W} (w w' : W) r :
    world_ok w0 w → completion_try_pop w = (w', r) →
    world_ok w0 w' ∧ socks w' = socks w ∧ accepts w' = accepts w ∧
    match r with
    | None => ledger w' ≡ₚ ledger w
    | Some c => ∃ item l, completes item c ∧ answered w' item (co_response c) ∧
        ledger w ≡ₚ (item, true) :: l ∧ ledger w' ≡ₚ (item, false) :: l
    end;
}.
