(* ===== verification/Wakeup.v ===== *)
(** * Waking and stopping the event loop

    Models the wake-up protocol of [src/src/net/event_loop.cpp]: workers push
    completions and then run the [on_push_] callback they copied under the
    lock, which writes the eventfd; [stop] sets a flag and writes the eventfd;
    the event loop tests the flag, sleeps in [epoll_wait], and on a wake-up
    empties the eventfd and then the completion queue.  One transition is one
    system call, one access of the flag or one critical section, and the
    threads interleave freely.  The work of the other handlers ([EventLoop.v])
    does not touch this state. *)
From stdpp Require Import relations.
From S2P Require Import Prelude Parser BoundedQueue World.

(** The largest value of an eventfd counter; a write that would exceed it
    fails with EAGAIN and leaves it. *)
Definition EVENTFD_MAX : Z := 2 ^ 64 - 2.

Definition eventfd_write (counter : Z) : Z :=
  if bool_decide (counter + 1 <= EVENTFD_MAX) then counter + 1 else counter.

(** Where the thread of [run] is. *)
Inductive LoopPhase :=
  | Testing                    (** the condition of the loop *)
  | Polling                    (** in [epoll_wait] *)
  | Handling (wakeup : bool)   (** in the batch; is the eventfd still in it? *)
  | ReadingEventfd             (** the loop of [drain_wakeup] *)
  | PoppingCompletions         (** the loop of [drain_completions] *)
  | Left                       (** [run] has returned or thrown *)
  | Destroyed.                 (** [~EventLoop] has run *)

#[export] Instance LoopPhase_eq_dec : EqDecision LoopPhase.
Proof. solve_decision. Defined.

Record WakeState := mkWakeState {
  phase : LoopPhase;
  wake_counter : Z;                           (** of [wakeup_fd_] *)
  stop_requested_ : bool;
  completions : BoundedQueue Completion unit;
  callbacks : nat;   (** pushes between the unlock and the end of [wake] *)
  stoppers : nat;    (** calls of [stop] between the store and [wake] *)
}.

Definition with_phase (p : LoopPhase) (w : WakeState) : WakeState :=
  mkWakeState p (wake_counter w) (stop_requested_ w) (completions w) (callbacks w) (stoppers w).

Definition wake (w : WakeState) : WakeState :=
  mkWakeState (phase w) (eventfd_write (wake_counter w)) (stop_requested_ w) (completions w)
    (callbacks w) (stoppers w).

(** A worker pushes; the copy of the callback is still to run.  [None] while
    the push blocks. *)
Definition push_completion (x : Completion) (w : WakeState) : option WakeState :=
  '(q, _, callback) ← push x (completions w);
  Some (mkWakeState (phase w) (wake_counter w) (stop_requested_ w) q
          (callbacks w + match callback with Some _ => 1 | None => 0 end) (stoppers w)).

(** A worker runs the callback. *)
Definition run_callback (w : WakeState) : WakeState :=
  let w := wake w in
  mkWakeState (phase w) (wake_counter w) (stop_requested_ w) (completions w) (pred (callbacks w)) (stoppers w).

(** The two steps of [stop]. *)
Definition stop_store (w : WakeState) : WakeState :=
  mkWakeState (phase w) (wake_counter w) true (completions w) (callbacks w) (S (stoppers w)).
Definition stop_wake (w : WakeState) : WakeState :=
  let w := wake w in
  mkWakeState (phase w) (wake_counter w) (stop_requested_ w) (completions w) (callbacks w) (pred (stoppers w)).

(** What ends the wait of [epoll_wait]: a signal, a failure, or a batch with
    or without the eventfd. *)
Inductive PollResult := PollInterrupted | PollFailed | PollEvents (wakeup : bool).

(** One step of [run]; [None] when the thread cannot move.  The eventfd is in
    a batch only if its counter is positive. *)
Definition loop_step (poll : PollResult) (w : WakeState) : option WakeState :=
  match phase w with
  | Testing => Some (with_phase (if stop_requested_ w then Left else Polling) w)
  | Polling =>
      match poll with
      | PollInterrupted => Some (with_phase Testing w)
      | PollFailed => Some (with_phase Left w)
      | PollEvents wakeup =>
          if wakeup && bool_decide (wake_counter w = 0) then None
          else Some (with_phase (Handling wakeup) w)
      end
  | Handling true => Some (with_phase ReadingEventfd w)
  | Handling false => Some (with_phase Testing w)
  | ReadingEventfd =>
      if bool_decide (0 < wake_counter w)
      then Some (mkWakeState ReadingEventfd 0 (stop_requested_ w) (completions w) (callbacks w) (stoppers w))
      else Some (with_phase PoppingCompletions w)
  | PoppingCompletions =>
      let '(q, completion) := try_pop (completions w) in
      Some (mkWakeState (match completion with Some _ => PoppingCompletions | None => Handling false end)
              (wake_counter w) (stop_requested_ w) q (callbacks w) (stoppers w))
  | Left | Destroyed => None
  end.

(** [~EventLoop]. *)
Definition destroy_event_loop (w : WakeState) : WakeState :=
  mkWakeState Destroyed (wake_counter w) (stop_requested_ w) (set_on_push None (completions w))
    (callbacks w) (stoppers w).

(** A handler of a batch may throw ([accept4]). *)
Inductive wake_step : relation WakeState :=
  | WakePush x w w' : push_completion x w = Some w' → wake_step w w'
  | WakeCallback w : (0 < callbacks w)%nat → wake_step w (run_callback w)
  | WakeStop w : wake_step w (stop_store w)
  | WakeStopWrite w : (0 < stoppers w)%nat → wake_step w (stop_wake w)
  | WakeLoop poll w w' : loop_step poll w = Some w' → wake_step w w'
  | WakeThrow b w : phase w = Handling b → wake_step w (with_phase Left w)
  | WakeDestroy w : phase w = Left → wake_step w (destroy_event_loop w).

(** After the constructor: [set_on_push] is its last call. *)
Definition wake_init (q : BoundedQueue Completion unit) : WakeState :=
  mkWakeState Testing 0 false (set_on_push (Some tt) q) 0 0.

(** The loop by itself, when the kernel reports the eventfd whenever it is
    readable. *)
Fixpoint loop_alone (n : nat) (w : WakeState) : WakeState :=
  match n with
  | O => w
  | S n => match loop_step (PollEvents true) w with Some w' => loop_alone n w' | None => w end
  end.

(** ** Invariant

    A completion in the queue, or a stop request, is never forgotten: unless
    the loop is about to look, the eventfd is readable or a thread is about to
    write it. *)
Definition looking (p : LoopPhase) : bool :=
  match p with ReadingEventfd | PoppingCompletions | Destroyed => true | _ => false end.

Record wake_inv (w : WakeState) : Prop := {
  wk_counter : 0 ≤ wake_counter w ≤ EVENTFD_MAX;
  wk_callback : phase w ≠ Destroyed → on_push_ (completions w) = Some tt;
  wk_items : looking (phase w) = false →
    items_ (completions w) ≠ [] → 0 < wake_counter w ∨ (0 < callbacks w)%nat;
  wk_stop : phase w = Polling → stop_requested_ w = true →
    0 < wake_counter w ∨ (0 < stoppers w)%nat;
}.

Lemma eventfd_write_spec counter :
  0 ≤ counter ≤ EVENTFD_MAX → 0 < eventfd_write counter ≤ EVENTFD_MAX.
Proof. unfold eventfd_write, EVENTFD_MAX. case_bool_decide; lia. Qed.

Lemma loop_step_inv poll w w' : wake_inv w → loop_step poll w = Some w' → wake_inv w'.
Proof.
  intros [Hc Hcb Hi Hs]. unfold loop_step, try_pop, pop_front.
  destruct w as [[| |[]| | | |] c st [its cap cl cb] n m]; simpl in *; intros Heq;
    repeat case_match; simplify_eq/=; constructor; simpl in *; auto; try done.
Qed.

Lemma push_completion_inv x w w' : wake_inv w → push_completion x w = Some w' → wake_inv w'.
Proof.
  intros [Hc Hcb Hi Hs]. unfold push_completion, push.
  destruct w as [p c st [its cap cl cb] n m]; simpl in *; intros Heq.
  repeat case_match; simplify_eq/=; constructor; simpl; try rewrite Nat.add_0_r; auto; try done.
  all: intros Hp; assert (p ≠ Destroyed) by (by intros ->); first [naive_solver lia | naive_solver].
Qed.

Lemma wake_step_inv w w' : wake_inv w → wake_step w w' → wake_inv w'.
Proof.
  intros Hinv Hstep. destruct Hstep as [x w w' Hp|w _|w|w _|poll w w' Hl|b w Hb|w Hl];
    try by eauto using loop_step_inv, push_completion_inv.
  all: destruct Hinv as [Hc Hcb Hi Hs]; pose proof (eventfd_write_spec _ Hc).
  all: constructor; simpl; auto; try lia; try done.
  all: rewrite Hb in *; auto.
Qed.

Lemma wake_init_inv q : items_ q = [] → wake_inv (wake_init q).
Proof. intros Hq. constructor; simpl; done. Qed.

Lemma wake_reach q w : items_ q = [] → rtc wake_step (wake_init q) w → wake_inv w.
Proof.
  intros Hq. apply (rtc_ind_r wake_inv); [by apply wake_init_inv|]. eauto using wake_step_inv.
Qed.

(** ** The loop by itself *)
Definition live (p : LoopPhase) : Prop := p ≠ Left ∧ p ≠ Destroyed.

(** Nothing left to do: asleep with nothing in the queue, or out of [run]. *)
Definition settled (w : WakeState) : Prop :=
  if stop_requested_ w then phase w = Left
  else phase w = Polling ∧ wake_counter w = 0 ∧ items_ (completions w) = [].

(** Steps until the loop sleeps or leaves: a positive counter costs one more
    round, unless the loop is about to read it. *)
Definition rounds (w : WakeState) : nat :=
  let readable := bool_decide (0 < wake_counter w) in
  length (items_ (completions w)) +
  match phase w with
  | Polling => 0 + if readable then 7 else 0
  | Testing => 1 + if readable then 7 else 0
  | Handling false => 2 + if readable then 7 else 0
  | PoppingCompletions => 3 + if readable then 7 else 0
  | ReadingEventfd => 4 + if readable then 1 else 0
  | Handling true => 5 + if readable then 1 else 0
  | Left | Destroyed => 0
  end.

(** A step of the loop makes progress and leaves the other threads alone; it
    has one unless it sleeps with an unreadable eventfd. *)
Lemma loop_step_progress w :
  wake_inv w → live (phase w) →
  match loop_step (PollEvents true) w with
  | None => phase w = Polling ∧ wake_counter w = 0
  | Some w' =>
      callbacks w' = callbacks w ∧ stoppers w' = stoppers w ∧ stop_requested_ w' = stop_requested_ w ∧
      (phase w' = Left ∧ stop_requested_ w = true ∨ live (phase w') ∧ (rounds w' < rounds w)%nat)
  end.
Proof.
  intros [Hc _ _ _] [HL HD]. unfold loop_step, try_pop, pop_front, rounds, live.
  destruct w as [[| |[]| | | |] c st [its cap cl cb] n m]; simpl in *; try done;
    [destruct st|..|destruct its]; simpl; repeat case_bool_decide; simpl; split_and!; auto; try lia;
    right; (split; [done|simpl in *; lia]).
Qed.

Lemma loop_alone_settles m w :
  (rounds w < m)%nat → wake_inv w → live (phase w) → callbacks w = 0%nat → stoppers w = 0%nat →
  settled (loop_alone m w).
Proof.
  revert w. induction m as [|m IH]; intros w Hm Hinv Hl Hcb Hst; [lia|]. simpl.
  pose proof (loop_step_progress w Hinv Hl) as Hp.
  destruct (loop_step _ w) as [w'|] eqn:Hstep.
  - destruct Hp as (Hcb' & Hst' & Hreq & [[Hleft Hs]|[Hl' Hlt]]).
    + assert (loop_alone m w' = w') as ->.
      { destruct m; [done|]. simpl. unfold loop_step. by rewrite Hleft. }
      unfold settled. by rewrite Hreq, Hs.
    + apply IH; [lia|eauto using loop_step_inv|done|congruence..].
  - destruct Hp as [Hp Hz], Hinv as [_ _ Hi Hs]. unfold settled.
    destruct (stop_requested_ w); [destruct (Hs Hp eq_refl); lia|]. split_and!; [done..|].
    destruct (items_ (completions w)); [done|]. rewrite Hp in Hi. destruct (Hi eq_refl); [done|lia..].
Qed.

Lemma loop_alone_steps n w : rtc wake_step w (loop_alone n w).
Proof.
  revert w. induction n as [|n IH]; intros w; simpl; [done|].
  destruct (loop_step _ w) as [w'|] eqn:E; [|done]. eapply rtc_l; [by eapply WakeLoop|]. apply IH.
Qed.

(** Once a stop is requested the loop does not enter [epoll_wait] again. *)
Lemma stopped_no_poll w w' :
  stop_requested_ w = true → wake_step w w' → phase w' = Polling → phase w = Polling.
Proof.
  intros Hs Hstep. destruct Hstep as [x w w' Hp| | | |poll w w' Hl| |]; simpl; try done.
  - unfold push_completion in Hp. destruct (push x _) as [[[??]?]|]; simplify_eq/=. done.
  - unfold loop_step in Hl. destruct (phase w) eqn:Hph; rewrite ?Hs in Hl; repeat case_match; by simplify_eq/=.
Qed.

(** After the destructor the queue has no callback, so no push copies one. *)
Lemma destroyed_step w w' :
  wake_step w w' → phase w = Destroyed ∧ on_push_ (completions w) = None ∧ callbacks w = 0%nat →
  phase w' = Destroyed ∧ on_push_ (completions w') = None ∧ callbacks w' = 0%nat.
Proof.
  intros Hstep (Hph & Hcb & Hn). destruct Hstep as [x w w' Hp| | | |poll w w' Hl| |]; simpl; try done; try lia.
  - unfold push_completion, push in Hp. repeat case_match; simplify_eq/=; split_and!; try done; try lia.
    rewrite Hcb. lia.
  - unfold loop_step in Hl. by rewrite Hph in Hl.
  - congruence.
Qed.

(** ** Properties *)

(** C16. No wake-up of the event loop is missed.  In every state that any
    interleaving of the workers, the callers of [stop] and the loop reaches:
    if the loop sleeps in [epoll_wait] with an unreadable eventfd, then a
    completion in the queue is one whose worker is still to run the callback,
    and a requested stop is one whose [stop] is still to write the eventfd.
    When the other threads have done so, the loop by itself gets to a state in
    which it has left [run] if a stop was requested, and otherwise sleeps with
    the eventfd and the completion queue empty.  After a stop request the loop
    does not enter [epoll_wait] again. *)
Theorem no_missed_wakeup q w :
  items_ q = [] → rtc wake_step (wake_init q) w →
  (phase w = Polling → wake_counter w = 0 →
     (items_ (completions w) ≠ [] → (0 < callbacks w)%nat) ∧
     (stop_requested_ w = true → (0 < stoppers w)%nat)) ∧
  (live (phase w) → callbacks w = 0%nat → stoppers w = 0%nat → settled (loop_alone (S (rounds w)) w)) ∧
  (∀ w', stop_requested_ w = true → wake_step w w' → phase w' = Polling → phase w = Polling).
Proof.
  intros Hq Hr. apply wake_reach in Hr as Hinv; [|done]. split_and!.
  - intros Hp Hz. destruct Hinv as [_ _ Hi Hs]. rewrite Hp in Hi. split.
    + intros Hne. destruct (Hi eq_refl Hne); [lia|done].
    + intros Hst. destruct (Hs Hp Hst); [lia|done].
  - intros. apply loop_alone_settles; auto.
  - intros w'. apply stopped_no_poll.
Qed.

(** A queue, a completion, and a run that leaves a callback behind. *)
Definition wake_queue : BoundedQueue Completion unit := mkBoundedQueue [] 2 false None.
Definition wake_completion : Completion := mkCompletion 7 1 0 (lit "+OK" ++ crlf).

Definition pushed_asleep : WakeState :=
  mkWakeState Polling 0 false (mkBoundedQueue [wake_completion] 2 false (Some tt)) 1 0.

Lemma pushed_asleep_reached : rtc wake_step (wake_init wake_queue) pushed_asleep.
Proof.
  eapply rtc_l; [by eapply (WakeLoop PollInterrupted)|].
  eapply rtc_l; [by eapply (WakePush wake_completion)|]. apply rtc_refl.
Qed.

(** C40. Clearing the callback in [~EventLoop] does not make a push of another
    thread harmless: a worker that copied the callback before, and runs it
    after the destructor, calls [wake] on a destroyed object.  A loop that is
    destroyed when no push is under way, as in [main], where the pool is
    destroyed first, never has its callback run again. *)
Theorem callback_outlives_loop :
  (∃ w, rtc wake_step (wake_init wake_queue) w ∧ phase w = Destroyed ∧ (0 < callbacks w)%nat) ∧
  (∀ w w', phase w = Left → callbacks w = 0%nat → rtc wake_step (destroy_event_loop w) w' →
     phase w' = Destroyed ∧ callbacks w' = 0%nat).
Proof.
  split.
  - exists (destroy_event_loop (loop_alone 9 (stop_wake (stop_store pushed_asleep)))).
    split; [|split; [done|vm_compute; lia]].
    eapply rtc_r; [|apply WakeDestroy; vm_compute; reflexivity].
    etrans; [|apply loop_alone_steps]. eapply rtc_r; [|apply WakeStopWrite; simpl; lia].
    eapply rtc_r; [apply pushed_asleep_reached|apply WakeStop].
  - intros w w' _ Hn Hr.
    assert (phase w' = Destroyed ∧ on_push_ (completions w') = None ∧ callbacks w' = 0%nat); [|naive_solver].
    revert w' Hr. apply rtc_ind_r; [done|]. eauto using destroyed_step.
Qed.

(** ** Witness *)
Lemma no_missed_wakeup_witness :
  settled (loop_alone 9 (run_callback pushed_asleep)) ∧
  loop_alone 9 (run_callback pushed_asleep) =
    mkWakeState Polling 0 false (mkBoundedQueue [] 2 false (Some tt)) 0 0.
Proof.
  split; [|vm_compute; reflexivity].
  apply (no_missed_wakeup wake_queue (run_callback pushed_asleep));
    [reflexivity| |split; discriminate|reflexivity|reflexivity].
  eapply rtc_r; [apply pushed_asleep_reached|]. apply WakeCallback. simpl. lia.
Defined.
