(* ===== verification/Io.v ===== *)
(** * Non-blocking reads and writes

    Models [src/src/net/io.cpp] and [src/include/kvstore/net/io.hpp]: one
    [recv] into the room of a buffer, one [send] of a buffer's bytes. *)
From S2P Require Import Prelude Parser BoundedQueue BoundedBuffer World.

Inductive ReadStatus := ReadSome | ReadWouldBlock | ReadClosed | ReadBufferFull | ReadError.
Record ReadOutcome := mkReadOutcome {
  read_status : ReadStatus;
  bytes_read : Z;
  read_error_number : Z;
}.

Inductive WriteStatus := WroteSome | WriteWouldBlock | WriteClosed | WriteError.
Record WriteOutcome := mkWriteOutcome {
  write_status : WriteStatus;
  bytes_written : Z;
  write_error_number : Z;
}.

#[export] Instance ReadStatus_eq_dec : EqDecision ReadStatus.
Proof. solve_decision. Defined.
#[export] Instance WriteStatus_eq_dec : EqDecision WriteStatus.
Proof. solve_decision. Defined.
#[export] Instance ReadOutcome_eq_dec : EqDecision ReadOutcome.
Proof. solve_decision. Defined.
#[export] Instance WriteOutcome_eq_dec : EqDecision WriteOutcome.
Proof. solve_decision. Defined.

Definition kReadChunkSize : Z := 64 * 1024.

(** EAGAIN, EWOULDBLOCK or EINTR. *)
Definition transient (e : Z) : bool :=
  bool_decide (e = EAGAIN) || bool_decide (e = EWOULDBLOCK) || bool_decide (e = EINTR).

Section Io.
Context {W : Type} `{!World W}.

Definition read_into (fd : Z) (buffer : BoundedBuffer) (w : W) : W * BoundedBuffer * ReadOutcome :=
  let available := u64 (buffer_capacity buffer - buffer_size buffer) in
  if bool_decide (available = 0) then (w, buffer, mkReadOutcome ReadBufferFull 0 0) else
  let attempt := Z.min available kReadChunkSize in
  let '(w, n) := sys_recv fd attempt w in
  match n with
  | inl ((_ :: _) as chunk) =>
      let '(buffer, _) := buffer_append chunk buffer in
      (w, buffer, mkReadOutcome ReadSome (len chunk) 0)
  | inl [] => (w, buffer, mkReadOutcome ReadClosed 0 0)
  | inr errno =>
      if transient errno then (w, buffer, mkReadOutcome ReadWouldBlock 0 0)
      else (w, buffer, mkReadOutcome ReadError 0 errno)
  end.

Definition write_from (fd : Z) (buffer : BoundedBuffer) (w : W) : W * BoundedBuffer * WriteOutcome :=
  if buffer_empty buffer then (w, buffer, mkWriteOutcome WroteSome 0 0) else
  let '(w, n) := sys_send fd (buffer_view buffer) w in
  match n with
  | inl n =>
      if bool_decide (n > 0) then
        (w, buffer_consume n buffer, mkWriteOutcome WroteSome n 0)
      else (w, buffer, mkWriteOutcome WriteWouldBlock 0 0)
  | inr errno =>
      if transient errno then (w, buffer, mkWriteOutcome WriteWouldBlock 0 0)
      else if bool_decide (errno = EPIPE) || bool_decide (errno = ECONNRESET) then
        (w, buffer, mkWriteOutcome WriteClosed 0 errno)
      else (w, buffer, mkWriteOutcome WriteError 0 errno)
  end.
End Io.

(** ** What reads and writes do to the streams of a socket *)
Section Specs.
Context {W : Type} `{!World W, !WorldView W, !WorldLaws W} (w0 : W).
#[local] Abbreviation world_ok := (world_ok w0).

(** A read moves the delivered bytes into the buffer and nothing is lost. *)
Lemma read_into_spec fd b (w w' : W) b' out i o :
  world_ok w → socks w !! fd = Some (i, o) → buffer_wf b →
  read_into fd b w = (w', b', out) →
  ∃ d, world_ok w' ∧ accepts w' = accepts w ∧ ledger w' ≡ₚ ledger w ∧
    socks w' = <[fd := (i ++ d, o)]> (socks w) ∧
    data_ b' = data_ b ++ d ∧ capacity_ b' = capacity_ b ∧ buffer_wf b' ∧
    (read_status out = ReadSome ↔ d ≠ []) ∧
    (read_status out = ReadBufferFull ↔ len (data_ b) = capacity_ b) ∧ bytes_read out = len d.
Proof.
  intros Hok Hs Hwf. unfold read_into, buffer_capacity, buffer_size. rewrite buffer_room by done.
  assert (Hnil : ∀ w' : W, socks w' = socks w → socks w' = <[fd := (i ++ [], o)]> (socks w)).
  { intros w1 ->. by rewrite app_nil_r, insert_id. }
  case_bool_decide as Hfull.
  { intros [= <- <- <-]. exists []. rewrite !app_nil_r. split_and!; simpl; auto; try done.
    - by rewrite insert_id.
    - split; [intros _; lia|done]. }
  destruct (sys_recv _ _ w) as [w1 r] eqn:Er.
  pose proof Hwf as [Hb1 Hb2].
  eapply recv_law in Er as (Hok' & Hac & How & Hr); [|done..|unfold kReadChunkSize; lia].
  destruct r as [[|x d]|e].
  - destruct Hr as [_ Hsk]. intros [= <- <- <-]. exists []. rewrite !app_nil_r in *.
    split_and!; simpl; auto; try done. split; [done|lia].
  - destruct Hr as [Hlen Hsk]. rewrite buffer_append_spec by done. rewrite bool_decide_true by lia.
    intros [= <- <- <-]. exists (x :: d). simpl. split_and!; auto; try done.
    + split; simpl; len_lia.
    + split; [done|lia].
  - destruct (transient e); intros [= <- <- <-]; exists []; rewrite ?app_nil_r; split_and!; simpl; auto; try done;
      (rewrite ?insert_id; done) || (split; [done|lia]).
Qed.

(** A write takes a prefix of the buffer to the socket, and the buffer keeps
    exactly the rest. *)
Lemma write_from_spec fd b (w w' : W) b' out i o :
  world_ok w → socks w !! fd = Some (i, o) → buffer_wf b →
  write_from fd b w = (w', b', out) →
  ∃ d, world_ok w' ∧ accepts w' = accepts w ∧ ledger w' ≡ₚ ledger w ∧
    socks w' = <[fd := (i, o ++ d)]> (socks w) ∧
    data_ b = d ++ data_ b' ∧ capacity_ b' = capacity_ b ∧ buffer_wf b' ∧
    bytes_written out = len d ∧
    (data_ b ≠ [] → write_status out = WroteSome → d ≠ []) ∧
    (write_status out ≠ WroteSome → d = []).
Proof.
  intros Hok Hs Hwf. unfold write_from, buffer_empty, buffer_view. case_bool_decide as He.
  { intros [= <- <- <-]. exists []. rewrite app_nil_r, insert_id by done. simpl. split_and!; auto; done. }
  destruct (sys_send fd (data_ b) w) as [w1 r] eqn:Es.
  eapply send_law in Es as (Hok' & Hac & How & Hr); [|done..]. destruct r as [n|e].
  - destruct Hr as [Hn Hsk]. case_bool_decide as Hpos.
    + intros [= <- <- <-]. exists (take (Z.to_nat n) (data_ b)).
      rewrite buffer_consume_data, buffer_consume_capacity by lia.
      split_and!; simpl; auto; try done.
      * by rewrite take_drop.
      * apply buffer_consume_wf; [lia|done].
      * rewrite len_take by lia. lia.
      * intros _ _ Ht. apply (f_equal len) in Ht. rewrite len_take, len_nil in Ht by lia. lia.
    + intros [= <- <- <-]. exists []. assert (n = 0) as -> by lia.
      split_and!; simpl; auto; done.
  - assert (socks w1 = <[fd:=(i, o ++ [])]> (socks w)) by (by rewrite app_nil_r, insert_id).
    destruct (transient e); [|destruct (_ || _)]; intros [= <- <- <-]; exists [];
      split_and!; simpl; auto; done.
Qed.

End Specs.

Section Streams.
Context {W : Type} `{!World W, !WorldView W, !WorldLaws W}.

(** One non-blocking read or write of a connection.  Whatever the
    kernel answers, the bytes [recv] delivers are appended to the buffer
    unchanged and complete (the append never fails, because the read was
    limited to the room left), the bytes [send] takes are removed from the
    front and no others, and the cap holds; a read or write that is not
    reported as [kReadSome] or [kWroteSome] moves no byte.  A full buffer is
    reported as [kBufferFull] without a system call, end of stream as
    [kClosed], EAGAIN/EINTR as [kWouldBlock], and every other errno as
    [kClosed] or [kError] with that number. *)
Theorem io_preserves_streams fd b (w : W) i o :
  world_inv w → socks w !! fd = Some (i, o) → buffer_wf b →
  (∀ w' b' out, read_into fd b w = (w', b', out) →
    ∃ d, socks w' = <[fd := (i ++ d, o)]> (socks w) ∧ data_ b' = data_ b ++ d ∧
      buffer_size b' ≤ buffer_capacity b ∧ bytes_read out = len d ∧
      (read_status out = ReadSome ↔ d ≠ []) ∧
      (read_status out = ReadBufferFull ↔ len (data_ b) = capacity_ b) ∧
      (len (data_ b) < capacity_ b →
        read_status out =
          match (sys_recv fd (Z.min (capacity_ b - len (data_ b)) kReadChunkSize) w).2 with
          | inl [] => ReadClosed
          | inl _ => ReadSome
          | inr e => if transient e then ReadWouldBlock else ReadError
          end)) ∧
  (∀ w' b' out, write_from fd b w = (w', b', out) →
    ∃ d, socks w' = <[fd := (i, o ++ d)]> (socks w) ∧ data_ b = d ++ data_ b' ∧
      buffer_size b' ≤ buffer_capacity b ∧ bytes_written out = len d ∧
      (write_status out ≠ WroteSome → d = []) ∧
      (write_status out = WroteSome → d = [] → data_ b = [])).
Proof.
  intros Hok Hs Hwf. assert (world_ok w w) by (by split). split; intros w' b' out Heq.
  - pose proof Heq as Hst.
    eapply read_into_spec in Heq as (d & _ & _ & _ & ? & ? & Hc & [? ?] & ? & ? & ?); [|done..].
    exists d. unfold buffer_size, buffer_capacity.
    split_and!; try done; [lia|]. intros Hlt. unfold read_into, buffer_capacity, buffer_size in Hst.
    rewrite buffer_room, bool_decide_false in Hst by (done || lia).
    destruct (sys_recv _ _ w) as [w1 [[|x l]|e]]; cases_in Hst; done.
  - eapply write_from_spec in Heq as (d & _ & _ & _ & ? & ? & Hc & [? ?] & ? & Hn & ?); [|done..].
    exists d. unfold buffer_size, buffer_capacity. rewrite <-Hc. split_and!; try done.
    intros Hst ->. destruct (data_ b); [done|]. by destruct Hn.
Qed.
End Streams.
