(* ===== verification/Registry.v ===== *)
(** * Connections and their registry

    Models [src/src/net/connection.cpp], [src/src/net/connection_registry.cpp]
    and their headers.  A connection is named by its descriptor, which the
    kernel reuses, and a generation, which the registry never reuses.  The
    [FileDescriptor] member of a connection closes the descriptor when the
    connection is erased; the operations return the descriptors they close. *)
From S2P Require Import Prelude BoundedBuffer Sequencer.

Record Connection := mkConnection {
  conn_id : Z;
  conn_generation : Z;
  conn_fd : Z;
  peer_address : bytes;
  input_ : BoundedBuffer;
  output_ : BoundedBuffer;
  sequencer_ : ResponseSequencer;
}.

Definition with_input (b : BoundedBuffer) (c : Connection) : Connection :=
  mkConnection (conn_id c) (conn_generation c) (conn_fd c) (peer_address c) b (output_ c) (sequencer_ c).
Definition with_output (b : BoundedBuffer) (c : Connection) : Connection :=
  mkConnection (conn_id c) (conn_generation c) (conn_fd c) (peer_address c) (input_ c) b (sequencer_ c).
Definition with_sequencer (s : ResponseSequencer) (c : Connection) : Connection :=
  mkConnection (conn_id c) (conn_generation c) (conn_fd c) (peer_address c) (input_ c) (output_ c) s.

Definition make_connection (id gen fd : Z) (peer : bytes) (max_input_bytes max_output_bytes : Z)
    : result Connection :=
  input ← make_buffer max_input_bytes;
  output ← make_buffer max_output_bytes;
  mret (mkConnection id gen fd peer input output make_sequencer).

Record ConnectionRegistry := mkConnectionRegistry {
  next_generation_ : Z;
  connections_ : gmap Z Connection;
}.

Definition make_registry : ConnectionRegistry := mkConnectionRegistry 1 ∅.

Definition put (c : Connection) (r : ConnectionRegistry) : ConnectionRegistry :=
  mkConnectionRegistry (next_generation_ r) (<[conn_id c := c]> (connections_ r)).

(** The descriptor a live entry at [id] closes when it is erased. *)
Definition erased (id : Z) (r : ConnectionRegistry) : list Z :=
  match connections_ r !! id with Some c => [conn_fd c] | None => [] end.

(** [add]: the new registry, the descriptors closed, and the connection.  The
    [try_emplace] constructs the connection, whose buffers may throw; by then
    the generation is taken and a previous entry erased, and the exception
    closes the descriptor the connection was to own. *)
Definition add (fd : Z) (peer : bytes) (max_input_bytes max_output_bytes : Z) (r : ConnectionRegistry)
    : ConnectionRegistry * list Z * result Connection :=
  let id := fd in
  let gen := next_generation_ r in
  let r' := mkConnectionRegistry (u64 (gen + 1)) (delete id (connections_ r)) in
  match make_connection id gen fd peer max_input_bytes max_output_bytes with
  | Ok c => (mkConnectionRegistry (next_generation_ r') (<[id := c]> (connections_ r')), erased id r, Ok c)
  | Throw e => (r', erased id r ++ [fd], Throw e)
  end.

Definition find_current (id : Z) (r : ConnectionRegistry) : option Connection :=
  connections_ r !! id.

Definition find (id gen : Z) (r : ConnectionRegistry) : option Connection :=
  match connections_ r !! id with
  | None => None
  | Some c => if bool_decide (conn_generation c ≠ gen) then None else Some c
  end.

Definition registry_close (id gen : Z) (r : ConnectionRegistry) : ConnectionRegistry * bool * list Z :=
  match connections_ r !! id with
  | None => (r, false, [])
  | Some c =>
      if bool_decide (conn_generation c ≠ gen) then (r, false, [])
      else (mkConnectionRegistry (next_generation_ r) (delete id (connections_ r)), true, erased id r)
  end.

Definition registry_size (r : ConnectionRegistry) : Z := Z.of_nat (size (connections_ r)).

(** ** Invariant *)
Record registry_wf (r : ConnectionRegistry) : Prop := {
  reg_range : 1 ≤ next_generation_ r ≤ UINT64_MAX;
  reg_conn : ∀ id c, connections_ r !! id = Some c →
    conn_id c = id ∧ conn_fd c = id ∧ 1 ≤ conn_generation c < next_generation_ r;
}.

Lemma make_registry_wf : registry_wf make_registry.
Proof. constructor; simpl; [unfold UINT64_MAX; lia|done]. Qed.

Lemma make_connection_Ok id gen fd peer mi mo :
  mi ≠ 0 → mo ≠ 0 →
  make_connection id gen fd peer mi mo =
    Ok (mkConnection id gen fd peer (mkBoundedBuffer [] mi) (mkBoundedBuffer [] mo) make_sequencer).
Proof.
  intros Hi Ho. unfold make_connection, make_buffer. simpl.
  by rewrite !bool_decide_false.
Qed.

(** Without a connection only the generation and the old entry are gone. *)
Lemma add_spec fd peer mi mo r :
  let r' := mkConnectionRegistry (u64 (next_generation_ r + 1)) (delete fd (connections_ r)) in
  let c := mkConnection fd (next_generation_ r) fd peer (mkBoundedBuffer [] mi) (mkBoundedBuffer [] mo)
             make_sequencer in
  (mi ≠ 0 ∧ mo ≠ 0 ∧ add fd peer mi mo r = (put c r', erased fd r, Ok c)) ∨
  ((mi = 0 ∨ mo = 0) ∧ ∃ e, add fd peer mi mo r = (r', erased fd r ++ [fd], Throw e)).
Proof.
  unfold add, make_connection, make_buffer. simpl.
  destruct (decide (mi = 0)) as [Hi|Hi]; [rewrite (bool_decide_true _ Hi); right; split; [auto|by eexists]|].
  rewrite (bool_decide_false _ Hi). simpl.
  destruct (decide (mo = 0)) as [Ho|Ho]; [rewrite (bool_decide_true _ Ho); right; split; [auto|by eexists]|].
  rewrite (bool_decide_false _ Ho). by left.
Qed.

Lemma find_Some id gen r c :
  find id gen r = Some c ↔ connections_ r !! id = Some c ∧ conn_generation c = gen.
Proof.
  unfold find. destruct (connections_ r !! id); [|naive_solver].
  case_bool_decide; naive_solver.
Qed.

Lemma registry_close_spec id gen r :
  registry_close id gen r =
    match find id gen r with
    | Some c => (mkConnectionRegistry (next_generation_ r) (delete id (connections_ r)), true, [conn_fd c])
    | None => (r, false, [])
    end.
Proof.
  unfold registry_close, find, erased. destruct (connections_ r !! id); [|done].
  by case_bool_decide.
Qed.

Lemma add_wf fd peer mi mo r :
  registry_wf r → next_generation_ r < UINT64_MAX → registry_wf (add fd peer mi mo r).1.1.
Proof.
  intros [Hr Hc] Hlt. destruct (add_spec fd peer mi mo r) as [(_ & _ & ->)|(_ & e & ->)]; simpl;
    rewrite u64_small by (unfold in_u64; lia); (constructor; simpl; [lia|]).
  - intros id c' [[<- <-]|[_ [_ Hl]%lookup_delete_Some]]%lookup_insert_Some; simpl; [lia|]. apply Hc in Hl. lia.
  - intros id c' [_ Hl]%lookup_delete_Some. apply Hc in Hl. lia.
Qed.

Lemma put_wf c r : registry_wf r → connections_ r !! conn_id c ≠ None →
  conn_fd c = conn_id c → 1 ≤ conn_generation c < next_generation_ r → registry_wf (put c r).
Proof.
  intros [Hr Hc] _ Hfd Hg. constructor; simpl; [done|].
  intros id c' [[<- <-]|[_ Hl]]%lookup_insert_Some; [done|]. by apply Hc in Hl.
Qed.

Lemma registry_close_wf id gen r : registry_wf r → registry_wf (registry_close id gen r).1.1.
Proof.
  intros [Hr Hc]. rewrite registry_close_spec. destruct (find id gen r); simpl; [|done].
  constructor; simpl; [done|]. intros i c' [_ Hl]%lookup_delete_Some. by apply Hc in Hl.
Qed.

(** ** Histories of the registry *)
Inductive RegistryOp :=
  | RegAdd (fd : Z) (peer : bytes)
  | RegClose (id gen : Z).

Definition registry_step (mi mo : Z) (op : RegistryOp) (r : ConnectionRegistry) : ConnectionRegistry :=
  match op with
  | RegAdd fd peer => (add fd peer mi mo r).1.1
  | RegClose id gen => (registry_close id gen r).1.1
  end.

Definition registry_run (mi mo : Z) (ops : list RegistryOp) (r : ConnectionRegistry)
    : ConnectionRegistry :=
  foldl (λ r op, registry_step mi mo op r) r ops.

Lemma registry_step_old mi mo op r id gen :
  registry_wf r → next_generation_ r < UINT64_MAX →
  gen < next_generation_ r → find id gen r = None →
  let r' := registry_step mi mo op r in
  registry_wf r' ∧ next_generation_ r ≤ next_generation_ r' ≤ next_generation_ r + 1 ∧ find id gen r' = None.
Proof.
  intros Hwf Hb Hg Hf. destruct op as [fd peer|id' gen']; simpl.
  - split; [by apply add_wf|].
    destruct (add_spec fd peer mi mo r) as [(_ & _ & ->)|(_ & e & ->)]; simpl;
      rewrite u64_small by (unfold in_u64; destruct Hwf; lia); (split; [lia|]);
      unfold find in *; simpl; destruct (decide (id = fd)) as [->|].
    + rewrite lookup_insert_eq, bool_decide_true; [done|]. simpl. lia.
    + by rewrite lookup_insert_ne, lookup_delete_ne by done.
    + by rewrite lookup_delete_eq.
    + by rewrite lookup_delete_ne by done.
  - split; [by apply registry_close_wf|]. rewrite registry_close_spec.
    destruct (find id' gen' r) as [c|] eqn:E; simpl; [|split; [lia|done]]. split; [lia|].
    unfold find in *. simpl. destruct (decide (id = id')) as [->|].
    + by rewrite lookup_delete_eq.
    + by rewrite lookup_delete_ne by done.
Qed.

Lemma registry_run_old mi mo ops r id gen :
  registry_wf r → next_generation_ r + len ops ≤ UINT64_MAX →
  gen < next_generation_ r → find id gen r = None →
  registry_wf (registry_run mi mo ops r) ∧ find id gen (registry_run mi mo ops r) = None.
Proof.
  revert r. induction ops as [|op ops IH]; intros r Hwf Hb Hg Hf; simpl; [done|].
  rewrite len_cons in Hb. pose proof (len_nonneg ops).
  destruct (registry_step_old mi mo op r id gen) as (Hwf' & Hn & Hf'); [done|lia|done|done|].
  apply IH; [done|lia|lia|done].
Qed.

(** C23. A stale name never finds the new owner of a reused descriptor.
    Once the connection [(id, gen)] has been closed, no sequence of accepts
    (those whose connection cannot be constructed included) and closes,
    whatever descriptors the kernel hands out again, makes
    [find id gen] or [close id gen] succeed: a late completion for it is
    discarded and closes nothing.  (Fewer than 2^64 connections.) *)
Theorem stale_generation_never_found mi mo r id gen c ops :
  registry_wf r → next_generation_ r + len ops ≤ UINT64_MAX →
  find id gen r = Some c →
  let r1 := registry_run mi mo ops (registry_close id gen r).1.1 in
  registry_wf r1 ∧ find id gen r1 = None ∧ registry_close id gen r1 = (r1, false, []).
Proof.
  intros Hwf Hb Hf r1.
  assert (gen < next_generation_ r) as Hg.
  { apply find_Some in Hf as [Hl <-]. apply Hwf in Hl. lia. }
  destruct (registry_run_old mi mo ops (registry_close id gen r).1.1 id gen) as [Hwf1 Hf1];
    [by apply registry_close_wf|..].
  - rewrite registry_close_spec, Hf. done.
  - rewrite registry_close_spec, Hf. done.
  - rewrite registry_close_spec, Hf. unfold find. simpl. by rewrite lookup_delete_eq.
  - fold r1 in Hwf1, Hf1. split_and!; [done..|]. by rewrite registry_close_spec, Hf1.
Qed.

(** Descriptor 7 is accepted, closed and accepted again. *)
Lemma stale_generation_never_found_witness :
  let r := registry_run 16 16 [RegAdd 7 []] make_registry in
  let r1 := registry_run 16 16 [RegAdd 7 []] (registry_close 7 1 r).1.1 in
  (conn_generation <$> find_current 7 r1) = Some 2 ∧ find 7 1 r1 = None.
Proof.
  split; [by vm_compute|].
  apply (stale_generation_never_found 16 16 (registry_run 16 16 [RegAdd 7 []] make_registry) 7 1
    (mkConnection 7 1 7 [] (mkBoundedBuffer [] 16) (mkBoundedBuffer [] 16) make_sequencer)
    [RegAdd 7 []]); [|by vm_compute|by vm_compute].
  unfold registry_run. simpl. constructor; simpl; [by vm_compute|].
  intros id c [[<- <-]|[_ Hl]]%lookup_insert_Some; [|done]. simpl. by vm_compute.
Defined.
