(* ===== verification/EventLoop.v ===== *)
(** * The event loop

    Models [src/src/net/event_loop.cpp] with [Listener::accept_one] of
    [src/src/net/listener.cpp].  Every handler is a function of the connection
    registry and the world; loops that the kernel or the peers drive run on
    fuel, and [EventLoopProps.v] proves how much fuel is enough.  A connection
    is mutated through a pointer into the registry: the model carries the
    connection and puts it back before the registry is used again. *)
From S2P Require Import Prelude Decimal Parser Serializer BoundedBuffer Sequencer BoundedQueue.
From S2P Require Import World Io Registry.

Record EventLoopConfig := mkEventLoopConfig {
  max_input_bytes : Z;
  max_output_bytes : Z;
  max_in_flight_per_connection : Z;
  logger : bool;  (* a logger is configured *)
}.

Definition kDefaultMaxInputBufferBytes : Z := 2 * 1024 * 1024.
Definition kDefaultMaxOutputBufferBytes : Z := 2 * 1024 * 1024.

(** The configuration [main] uses. *)
Definition default_config : EventLoopConfig :=
  mkEventLoopConfig kDefaultMaxInputBufferBytes kDefaultMaxOutputBufferBytes 64 true.

Section Handlers.
Context {W : Type} `{!World W}.
Context (config_ : EventLoopConfig) (wakeup_fd_ listener_fd_ : Z).
Implicit Types (w : W) (r : ConnectionRegistry) (c : Connection).

Definition warn (text : string) w : W :=
  if logger config_ then log_warn (lit text) w else w.

(** ** Listener::accept_one *)
Inductive AcceptResult :=
  | Accepted (fd : Z) (peer : bytes)
  | NoneAccepted
  | AcceptThrow (e : exn).

Fixpoint accept_one (fuel : nat) w : option (W * AcceptResult) :=
  match fuel with
  | O => None
  | S fuel =>
      let '(w, res) := sys_accept4 w in
      match res with
      | inl (client_fd, address, port) =>
          Some (w, Accepted client_fd (address ++ lit ":" ++ to_string port))
      | inr errno =>
          if bool_decide (errno = EAGAIN) || bool_decide (errno = EWOULDBLOCK) then
            Some (w, NoneAccepted)
          else if bool_decide (errno = EINTR) || bool_decide (errno = ECONNABORTED) then
            accept_one fuel w
          else Some (w, AcceptThrow (SystemError errno (lit "Listener: accept4() failed")))
      end
  end.

(** ** Output *)
Fixpoint push_responses c (ready : list bytes) w : Connection * W * bool :=
  match ready with
  | [] => (c, w, true)
  | response :: ready =>
      let '(output, ok) := buffer_append response (output_ c) in
      let c := with_output output c in
      if negb ok then
        (c, warn "resource limit: connection output buffer cap exceeded, closing connection" w, false)
      else push_responses c ready w
  end.

Definition update_epoll_interest c w : W :=
  (sys_epoll_ctl EPOLL_CTL_MOD (conn_fd c)
    (Z.lor EPOLLIN (if buffer_empty (output_ c) then 0 else EPOLLOUT)) w).1.

(** Closes the descriptors of erased connections. *)
Definition close_fds (fds : list Z) w : W := foldl (λ w fd, sys_close fd w) w fds.

Definition close_connection (id gen : Z) r w : ConnectionRegistry * W :=
  match find id gen r with
  | None => (r, w)
  | Some c =>
      let '(w, output) :=
        if negb (buffer_empty (output_ c)) then
          let '(w, output, _) := write_from (conn_fd c) (output_ c) w in (w, output)
        else (w, output_ c) in
      let r := put (with_output output c) r in
      let '(w, _) := sys_epoll_ctl EPOLL_CTL_DEL id 0 w in
      let '(r, _, fds) := registry_close id gen r in
      (r, close_fds fds w)
  end.

(** [handle_connection_writable], the loop; [false] when the connection has to
    be closed. *)
Fixpoint write_loop (fuel : nat) c w : option (Connection * W * bool) :=
  match fuel with
  | O => None
  | S fuel =>
      if buffer_empty (output_ c) then Some (c, w, true) else
      let '(w, output, outcome) := write_from (conn_fd c) (output_ c) w in
      let c := with_output output c in
      match write_status outcome with
      | WroteSome => write_loop fuel c w
      | WriteWouldBlock => Some (c, w, true)
      | _ => Some (c, w, false)
      end
  end.

Definition handle_connection_writable (id : Z) r w : option (ConnectionRegistry * W) :=
  match find_current id r with
  | None => Some (r, w)
  | Some c =>
      let gen := conn_generation c in
      '(c, w, ok) ← write_loop (S (length (data_ (output_ c)))) c w;
      let r := put c r in
      if (ok : bool) then Some (r, update_epoll_interest c w)
      else Some (close_connection id gen r w)
  end.

(** ** Input *)

(** Records [response] for [sequence] and appends what is released. *)
Definition respond (sequence : Z) (response : bytes) c w : option (Connection * W * bool) :=
  '(s, ready) ← record sequence response (sequencer_ c);
  Some (push_responses (with_sequencer s c) ready w).

(** [process_input]; an iteration that continues consumes input. *)
Fixpoint process_input_loop (fuel : nat) c w : option (Connection * W * bool) :=
  match fuel with
  | O => None
  | S fuel =>
      if bool_decide (in_flight_count (sequencer_ c) >= max_in_flight_per_connection config_) then
        Some (c, w, true)
      else
      result ← parse_command (buffer_view (input_ c));
      match result with
      | NeedMoreData => Some (c, w, true)
      | ParsedCommand command consumed_bytes =>
          let c := with_input (buffer_consume consumed_bytes (input_ c)) c in
          let '(s, sequence) := next_request_sequence (sequencer_ c) in
          let c := with_sequencer s c in
          let item := mkWorkItem (conn_id c) (conn_generation c) sequence command in
          let '(w, push_status) := work_try_push item w in
          if bool_decide (push_status = PushOk) then process_input_loop fuel c w
          else
            let busy_response :=
              if bool_decide (push_status = PushClosed) then encode_error (lit "ERR server shutting down")
              else encode_error (lit "ERR server busy, try again") in
            let w := if bool_decide (push_status = PushFull)
                     then warn "resource limit: work queue full, replying busy" w else w in
            '(c, w, ok) ← respond sequence busy_response c w;
            if negb ok then Some (c, w, false) else process_input_loop fuel c w
      | ParseError error =>
          if recoverable error then
            let c := with_input (buffer_consume (err_consumed_bytes error) (input_ c)) c in
            let '(s, sequence) := next_request_sequence (sequencer_ c) in
            '(c, w, ok) ← respond sequence (encode_error (message error)) (with_sequencer s c) w;
            if negb ok then Some (c, w, false) else process_input_loop fuel c w
          else
            let w := warn "malformed request: closing connection" w in
            let '(s, sequence) := next_request_sequence (sequencer_ c) in
            '(c, w, _) ← respond sequence (encode_error (message error)) (with_sequencer s c) w;
            Some (c, w, false)
      end
  end.

Definition process_input c w : option (Connection * W * bool) :=
  process_input_loop (S (length (data_ (input_ c)))) c w.

(** The loop of [handle_connection_readable]: [true] when the reads have
    stopped with EAGAIN, [false] when the connection has to be closed. *)
Fixpoint read_loop (fuel : nat) c w : option (Connection * W * bool) :=
  match fuel with
  | O => None
  | S fuel =>
      let '(w, input, outcome) := read_into (conn_fd c) (input_ c) w in
      let c := with_input input c in
      match read_status outcome with
      | ReadSome =>
          '(c, w, ok) ← process_input c w;
          if negb ok then Some (c, w, false) else read_loop fuel c w
      | ReadWouldBlock => Some (c, w, true)
      | status =>
          let w := if bool_decide (status = ReadBufferFull) then
              warn "resource limit: connection input buffer cap exceeded, closing connection" w
            else w in
          Some (c, w, false)
      end
  end.

Definition handle_connection_readable (fuel : nat) (id : Z) r w : option (ConnectionRegistry * W) :=
  match find_current id r with
  | None => Some (r, w)
  | Some c =>
      let gen := conn_generation c in
      '(c, w, ok) ← read_loop fuel c w;
      let r := put c r in
      if negb ok then Some (close_connection id gen r w)
      else handle_connection_writable id r w
  end.

(** ** Completions *)
Definition handle_completion (completion : Completion) r w : option (ConnectionRegistry * W) :=
  let id := co_connection_id completion in
  let gen := co_connection_generation completion in
  match find id gen r with
  | None => Some (r, w)  (* stale; discard *)
  | Some c =>
      '(c, w, ok) ← respond (co_sequence completion) (co_response completion) c w;
      if negb ok then Some (close_connection id gen (put c r) w)
      else
        '(c, w, ok) ← process_input c w;
        if negb ok then Some (close_connection id gen (put c r) w)
        else handle_connection_writable id (put c r) w
  end.

Fixpoint drain_completions (fuel : nat) r w : option (ConnectionRegistry * W) :=
  match fuel with
  | O => None
  | S fuel =>
      let '(w, completion) := completion_try_pop w in
      match completion with
      | None => Some (r, w)
      | Some completion =>
          '(r, w) ← handle_completion completion r w;
          drain_completions fuel r w
      end
  end.

Fixpoint drain_eventfd (fuel : nat) w : option W :=
  match fuel with
  | O => None
  | S fuel => let '(w, more) := wakeup_read w in if (more : bool) then drain_eventfd fuel w else Some w
  end.

Definition drain_wakeup (fuel : nat) r w : option (ConnectionRegistry * W) :=
  w ← drain_eventfd fuel w;
  drain_completions fuel r w.

(** ** New connections *)
Fixpoint handle_listener_readable (fuel : nat) r w : option (result ConnectionRegistry * W) :=
  match fuel with
  | O => None
  | S fuel =>
      '(w, accepted) ← accept_one (S fuel) w;
      match accepted with
      | NoneAccepted => Some (Ok r, w)
      | AcceptThrow e => Some (Throw e, w)
      | Accepted client_fd peer =>
          let '(r, fds, added) := add client_fd peer (max_input_bytes config_) (max_output_bytes config_) r in
          let w := close_fds fds w in
          match added with
          | Throw e => Some (Throw e, w)
          | Ok c =>
              let '(w, ok) := sys_epoll_ctl EPOLL_CTL_ADD client_fd EPOLLIN w in
              if (ok : bool) then handle_listener_readable fuel r w
              else
                let w := warn
                  "resource limit: epoll_ctl(ADD) failed for a new connection, dropping it" w in
                let '(r, _, fds) := registry_close (conn_id c) (conn_generation c) r in
                handle_listener_readable fuel r (close_fds fds w)
          end
      end
  end.

(** ** One event, one batch, the loop *)
Definition handle_event (fuel : nat) (fd flags : Z) r w : option (result ConnectionRegistry * W) :=
  if bool_decide (fd = wakeup_fd_) then
    '(r, w) ← drain_wakeup fuel r w; Some (Ok r, w)
  else if bool_decide (fd = listener_fd_) then handle_listener_readable fuel r w
  else if bool_decide (Z.land flags (Z.lor EPOLLHUP EPOLLERR) ≠ 0) then
    match find_current fd r with
    | Some c => let '(r, w) := close_connection fd (conn_generation c) r w in Some (Ok r, w)
    | None => Some (Ok r, w)
    end
  else
    '(r, w) ← (if bool_decide (Z.land flags EPOLLIN ≠ 0)
                then handle_connection_readable fuel fd r w else Some (r, w));
    '(r, w) ← (if bool_decide (Z.land flags EPOLLOUT ≠ 0 ∧ find_current fd r ≠ None)
                then handle_connection_writable fd r w else Some (r, w));
    Some (Ok r, w).

Fixpoint handle_events (fuel : nat) (events : list (Z * Z)) r w : option (result ConnectionRegistry * W) :=
  match events with
  | [] => Some (Ok r, w)
  | (fd, flags) :: events =>
      '(res, w) ← handle_event fuel fd flags r w;
      match res with
      | Ok r => handle_events fuel events r w
      | Throw e => Some (Throw e, w)
      end
  end.

(** The state of [run()] after one iteration. *)
Inductive RunState :=
  | Running (r : ConnectionRegistry)
  | Returned (r : ConnectionRegistry)
  | Failed (e : exn).

Definition run_iteration (fuel : nat) r w : option (RunState * W) :=
  let '(w, stop) := stop_requested w in
  if (stop : bool) then Some (Returned r, w) else
  let '(w, n) := sys_epoll_wait w in
  match n with
  | inr errno =>
      if bool_decide (errno = EINTR) then Some (Running r, w)
      else Some (Failed (SystemError errno (lit "EventLoop: epoll_wait() failed")), w)
  | inl events =>
      '(res, w) ← handle_events fuel events r w;
      match res with
      | Ok r => Some (Running r, w)
      | Throw e => Some (Failed e, w)
      end
  end.

(** A failing [accept4] ends the server.  If [accept4] fails with an
    errno such as EMFILE while a client connects, the exception leaves [run]:
    clients already connected are dropped with it. *)
Theorem accept_failure_stops_run r w w1 w2 w3 errno fuel events :
  stop_requested w = (w1, false) → sys_epoll_wait w1 = (w2, inl ((listener_fd_, EPOLLIN) :: events)) →
  listener_fd_ ≠ wakeup_fd_ → sys_accept4 w2 = (w3, inr errno) →
  errno ≠ EAGAIN → errno ≠ EINTR → errno ≠ ECONNABORTED →
  run_iteration (S fuel) r w =
    Some (Failed (SystemError errno (lit "Listener: accept4() failed")), w3).
Proof.
  intros Hstop Hwait Hne Hacc H1 H2 H3. unfold run_iteration. rewrite Hstop, Hwait. cbn [handle_events].
  unfold handle_event. rewrite bool_decide_false, bool_decide_true by done. simpl. rewrite Hacc.
  by rewrite !bool_decide_false.
Qed.
End Handlers.
