(* ===== verification/EventLoopInv.v ===== *)
(** * The invariant of a connection

    For a connection whose socket has delivered the bytes [i] and taken the
    bytes [o]: the input consumed so far is a sequence of frames, each of them
    one request; every request has a response that is recorded, or is
    pending with the workers, never both and never neither; the bytes sent
    and those waiting in the output buffer are the recorded responses in
    request order, up to the first gap.  The handlers preserve it. *)
From S2P Require Import Prelude Decimal Parser Serializer BoundedBuffer Sequencer BoundedQueue.
From S2P Require Import World Io Registry EventLoop.

(** What one frame of the input asks for. *)
Inductive Request :=
  | ReqCommand (command : Command)
  | ReqError (message : bytes).

Definition frame_request (f : bytes) (q : Request) : Prop :=
  match q with
  | ReqCommand cmd => parse_command f = Some (ParsedCommand cmd (len f))
  | ReqError msg => ∃ e, parse_command f = Some (ParseError e) ∧ recoverable e = true ∧
      err_consumed_bytes e = len f ∧ message e = msg
  end.

Definition busy_reply : bytes := encode_error (lit "ERR server busy, try again").
Definition shutdown_reply : bytes := encode_error (lit "ERR server shutting down").

Section Inv.
Context (answers : WorkItem → bytes → Prop) (cfg : EventLoopConfig).

(** The responses the server may give to request [k] of a connection. *)
Definition req_answer (c : Connection) (k : Z) (q : Request) (resp : bytes) : Prop :=
  match q with
  | ReqCommand cmd =>
      answers (mkWorkItem (conn_id c) (conn_generation c) k cmd) resp ∨
      resp = busy_reply ∨ resp = shutdown_reply
  | ReqError msg => resp = encode_error msg
  end.

(** The invariant with its ghost values: the frames consumed, their requests,
    the responses recorded and the responses released.  [past] are the
    sequence numbers the work queue has ever accepted. *)
Record conn_ghost (past : list Z) (c : Connection) (i o : bytes) (pend : list (Z * Request))
    (fs : list bytes) (reqs : list Request) (g : gmap Z bytes) (outs : list bytes) : Prop := {
  cg_input : i = concat fs ++ data_ (input_ c);
  cg_frames : Forall2 frame_request fs reqs;
  cg_count : len reqs = next_request_sequence_ (sequencer_ c);
  cg_seq : seq_inv (sequencer_ c) g outs;
  cg_answers : ∀ k resp, g !! k = Some resp →
    ∃ q, reqs !! Z.to_nat k = Some q ∧ req_answer c k q resp;
  cg_output : o ++ data_ (output_ c) = concat outs;
  cg_pend_nodup : NoDup pend;
  cg_pend : ∀ k q, (k, q) ∈ pend ↔ 0 ≤ k ∧ reqs !! Z.to_nat k = Some q ∧ g !! k = None;
  cg_in_flight : len reqs - len outs ≤ max_in_flight_per_connection cfg;
  cg_past : Forall (λ k, k < len reqs) past;
}.

Record conn_bufs (c : Connection) : Prop := {
  cb_input : buffer_wf (input_ c);
  cb_output : buffer_wf (output_ c);
  cb_input_cap : capacity_ (input_ c) = max_input_bytes cfg;
  cb_output_cap : capacity_ (output_ c) = max_output_bytes cfg;
}.

Definition conn_core (past : list Z) (c : Connection) (i o : bytes) (pend : list (Z * Request)) : Prop :=
  conn_bufs c ∧ ∃ fs reqs g outs, conn_ghost past c i o pend fs reqs g outs.

(** The items of a list that belong to a connection. *)
Definition is_mine (c : Connection) (it : WorkItem) : Prop :=
  wi_connection_id it = conn_id c ∧ wi_connection_generation it = conn_generation c.
#[export] Instance is_mine_dec c it : Decision (is_mine c it).
Proof. unfold is_mine. apply _. Defined.

Definition item_request (it : WorkItem) : Z * Request := (wi_sequence it, ReqCommand (wi_command it)).
(** The requests of a connection that a ledger owes, and the numbers of all
    those it has recorded. *)
Definition mine (c : Connection) (l : list (WorkItem * bool)) : list (Z * Request) :=
  item_request <$> filter (is_mine c) (unpaid l).
Definition past_of (c : Connection) (l : list (WorkItem * bool)) : list Z :=
  wi_sequence <$> filter (is_mine c) l.*1.

Definition conn_inv (c : Connection) (i o : bytes) (l : list (WorkItem * bool)) : Prop :=
  conn_core (past_of c l) c i o (mine c l).

(** The pending requests matter only as a set. *)
#[export] Instance conn_core_proper : Proper ((≡ₚ) ==> (=) ==> (=) ==> (=) ==> (≡ₚ) ==> iff) conn_core.
Proof.
  assert (∀ c i o l l' p p', l ≡ₚ l' → p ≡ₚ p' → conn_core l c i o p → conn_core l' c i o p') as H.
  { intros c i o l l' p p' Hl Hp [Hb (fs & reqs & g & outs & [])]. split; [done|]. exists fs, reqs, g, outs.
    constructor; try done; [by rewrite <-Hp| |by rewrite <-Hl]. intros k q. rewrite <-Hp. done. }
  intros l l' Hl c ? <- i ? <- o ? <- p p' Hp. split; apply H; done || by symmetry.
Qed.
#[export] Instance unpaid_proper : Proper ((≡ₚ) ==> (≡ₚ)) unpaid.
Proof. intros l l' Hl. unfold unpaid. by rewrite Hl. Qed.
#[export] Instance mine_proper c : Proper ((≡ₚ) ==> (≡ₚ)) (mine c).
Proof. intros l l' Hl. unfold mine. by rewrite Hl. Qed.
#[export] Instance past_of_proper c : Proper ((≡ₚ) ==> (≡ₚ)) (past_of c).
Proof. intros l l' Hl. unfold past_of. by rewrite Hl. Qed.
#[export] Instance conn_inv_proper c i o : Proper ((≡ₚ) ==> iff) (conn_inv c i o).
Proof. intros l l' Hl. unfold conn_inv. by rewrite Hl. Qed.

(** Same identity: what the handlers never change in a connection. *)
Definition same_conn (c c' : Connection) : Prop :=
  conn_id c' = conn_id c ∧ conn_generation c' = conn_generation c ∧ conn_fd c' = conn_fd c.
#[export] Instance same_conn_preorder : PreOrder same_conn.
Proof.
  unfold same_conn. split; [by intros ?|].
  intros ??? (? & ? & ?) (? & ? & ?). split_and!; congruence.
Qed.

Lemma is_mine_same c c' it : same_conn c c' → is_mine c' it → is_mine c it.
Proof. intros (H1 & H2 & _) [? ?]. split; congruence. Qed.

Lemma mine_same c c' l : same_conn c c' → mine c' l = mine c l ∧ past_of c' l = past_of c l.
Proof.
  intros (H1 & H2 & _). unfold mine, past_of.
  split; f_equal; apply list_filter_iff; intros it; unfold is_mine; by rewrite H1, H2.
Qed.

Lemma unpaid_owing items l : unpaid (owing items ++ l) = items ++ unpaid l.
Proof.
  unfold unpaid, owing. rewrite filter_app, fmap_app. f_equal.
  induction items as [|it items IH]; [done|]. rewrite fmap_cons, filter_cons_True by done. by rewrite fmap_cons, IH.
Qed.

Lemma issued_owing items l : (owing items ++ l).*1 = items ++ l.*1.
Proof. unfold owing. rewrite fmap_app, <-list_fmap_compose. simpl. by rewrite list_fmap_id. Qed.

Lemma filter_mine_none c items : Forall (λ it, ¬ is_mine c it) items → filter (is_mine c) items = [].
Proof. induction 1 as [|it ow Hn _ IH]; [done|]. by rewrite filter_cons_False. Qed.

Lemma filter_mine_all c items : Forall (is_mine c) items → filter (is_mine c) items = items.
Proof. induction 1 as [|it ow Hn _ IH]; [done|]. by rewrite filter_cons_True, IH. Qed.

Lemma mine_others c items l :
  Forall (λ it, ¬ is_mine c it) items → mine c (owing items ++ l) = mine c l ∧ past_of c (owing items ++ l) = past_of c l.
Proof.
  intros Hf. unfold mine, past_of. rewrite unpaid_owing, issued_owing, !filter_app, (filter_mine_none c) by done.
  done.
Qed.

Lemma mine_all c items l :
  Forall (is_mine c) items →
  mine c (owing items ++ l) = (item_request <$> items) ++ mine c l ∧
  past_of c (owing items ++ l) = (wi_sequence <$> items) ++ past_of c l.
Proof.
  intros Hf. unfold mine, past_of. rewrite unpaid_owing, issued_owing, !filter_app, (filter_mine_all c) by done.
  by rewrite !fmap_app.
Qed.

(** A handler took [c] to [c'] and gave the numbers in between to [items],
    whose commands are within the limits of the protocol. *)
Definition next_of (c : Connection) : Z := next_request_sequence_ (sequencer_ c).
Definition fresh_items (c c' : Connection) (items : list WorkItem) : Prop :=
  next_of c ≤ next_of c' ∧
  Forall (λ it, next_of c ≤ wi_sequence it < next_of c' ∧ valid_command (wi_command it)) items ∧ NoDup items.

Lemma fresh_items_nil c c' : next_of c ≤ next_of c' → fresh_items c c' [].
Proof. intros. split_and!; [done|constructor..]. Qed.

Lemma fresh_items_app c c1 c' items1 items :
  fresh_items c c1 items1 → fresh_items c1 c' items → fresh_items c c' (items ++ items1).
Proof.
  intros (H1 & F1 & N1) (H2 & F2 & N2). split_and!; [lia| |].
  - apply Forall_app. split; (eapply Forall_impl; [done|]); simpl; intros it [? ?]; (split; [lia|done]).
  - apply NoDup_app. split_and!; try done. intros it Hit Hit1.
    eapply Forall_forall in F1; [|done]. eapply Forall_forall in F2; [|done]. simpl in *. lia.
Qed.

Lemma fresh_items_valid c c' items : fresh_items c c' items → Forall (λ it, valid_command (wi_command it)) items.
Proof. intros (_ & H & _). eapply Forall_impl; [done|]. by intros it [_ ?]. Qed.

(** The completion of an item is popped. *)
Lemma past_settled c item l : past_of c ((item, false) :: l) = past_of c ((item, true) :: l).
Proof. done. Qed.

Lemma mine_settled c item l : mine c ((item, false) :: l) = mine c l.
Proof. unfold mine, unpaid. by rewrite filter_cons_False. Qed.

Lemma mine_owing c item l :
  mine c ((item, true) :: l) = (if decide (is_mine c item) then [item_request item] else []) ++ mine c l.
Proof.
  unfold mine, unpaid. rewrite filter_cons_True by done. rewrite fmap_cons, filter_cons. by destruct (decide _).
Qed.

(** New items are not in the ledger yet. *)
Lemma nodup_issue c c' i o l pend items :
  conn_core (past_of c l) c i o pend → fresh_items c c' items → Forall (is_mine c) items →
  NoDup l.*1 → NoDup (items ++ l.*1).
Proof.
  intros [_ (fs & reqs & g & outs & [])] (_ & Hf & Hn) Hm Hl. apply NoDup_app. split_and!; try done.
  intros it Hit Hin. eapply Forall_forall in Hf; [|done]. eapply Forall_forall in Hm; [|done].
  assert (wi_sequence it ∈ past_of c l) as Hp.
  { apply list_elem_of_fmap. exists it. split; [done|]. by apply list_elem_of_filter. }
  eapply Forall_forall in cg_past0; [|done]. unfold next_of in *. simpl in *. lia.
Qed.

(** Accepted items are requests of the connection. *)
Lemma conn_core_issue past c i o items pend :
  conn_core past c i o ((item_request <$> items) ++ pend) →
  conn_core ((wi_sequence <$> items) ++ past) c i o ((item_request <$> items) ++ pend).
Proof.
  intros [Hb (fs & reqs & g & outs & [])]. split; [done|]. exists fs, reqs, g, outs. constructor; try done.
  apply Forall_app. split; [|done]. apply Forall_fmap, Forall_forall. intros it Hit. simpl.
  destruct (cg_pend0 (wi_sequence it) (ReqCommand (wi_command it))) as [(Hk & Hl & _) _].
  { apply elem_of_app. left. by apply (list_elem_of_fmap_2 item_request). }
  apply lookup_lt_Some in Hl. unfold len. lia.
Qed.

(** ** Frames *)
Lemma parse_frame input res :
  parse_command input = Some res →
  match res with
  | ParsedCommand cmd n => ∃ f rest, input = f ++ rest ∧ n = len f ∧ 0 < n ∧ frame_request f (ReqCommand cmd)
  | NeedMoreData => True
  | ParseError e => recoverable e = true → ∃ f rest, input = f ++ rest ∧
      err_consumed_bytes e = len f ∧ 0 < len f ∧ frame_request f (ReqError (message e))
  end.
Proof.
  unfold parse_command. pose proof (read_frame_outcome input) as Hout.
  destruct (read_multibulk_frame input) as [[args used| |e]|]; cbn [mbind option_bind]; [| | |done].
  - destruct Hout as (f & rest & -> & Hf & ->).
    assert (0 < len f) by (destruct Hf as (h & gs & _ & _ & _ & ->); change (lit "*") with ["*"%char]; len_lia).
    pose proof (read_frame_intro args f [] Hf) as Hrd. rewrite app_nil_r in Hrd.
    destruct (build_command args) as [cmd|err] eqn:E; intros [= <-]; simpl.
    + exists f, rest. split_and!; try done. unfold parse_command. rewrite Hrd. simpl. by rewrite E.
    + intros _. exists f, rest. split_and!; try done. eexists.
      unfold parse_command. rewrite Hrd. simpl. rewrite E. split_and!; done.
  - by intros [= <-].
  - intros [= <-] Hr. destruct Hout as [Hr' _]. congruence.
Qed.

Lemma parse_command_total input : is_Some (parse_command input).
Proof.
  unfold parse_command. pose proof (read_frame_outcome input) as Hout.
  destruct (read_multibulk_frame input) as [[args used| |e]|]; simpl; [|by eexists..|done].
  destruct (build_command args); by eexists.
Qed.

Lemma frame_nonempty f q : frame_request f q → 0 < len f.
Proof.
  intros Hf. assert (f ≠ []) as Hne.
  { intros ->. destruct q as [cmd|msg]; simpl in Hf; [by vm_compute in Hf|].
    destruct Hf as (e & Hp & _). by vm_compute in Hp. }
  destruct f; [done|]. len_lia.
Qed.

Lemma frame_valid f cmd : frame_request f (ReqCommand cmd) → valid_command cmd.
Proof.
  simpl. unfold parse_command. destruct (read_multibulk_frame f) as [[args used| |e]|]; simpl; try done.
  destruct (build_command args) as [c|err] eqn:E; [|done]. intros [= <- _]. by eapply build_command_valid.
Qed.

Lemma frames_count fs reqs : Forall2 frame_request fs reqs → len reqs ≤ len (concat fs).
Proof.
  induction 1 as [|f q fs reqs Hf _ IH]; simpl; [done|]. apply frame_nonempty in Hf. len_lia.
Qed.

(** ** A new request *)
Lemma assign_core past c i o pend f rest q :
  conn_core past c i o pend → len i < UINT64_MAX →
  in_flight_count (sequencer_ c) < max_in_flight_per_connection cfg →
  data_ (input_ c) = f ++ rest → frame_request f q →
  conn_core past
    (with_sequencer (next_request_sequence (sequencer_ c)).1
       (with_input (buffer_consume (len f) (input_ c)) c))
    i o ((next_request_sequence_ (sequencer_ c), q) :: pend).
Proof.
  intros [[Hb1 Hb2 Hb3 Hb4] (fs & reqs & g & outs & [Hi Hfs Hcnt Hseq Hans Ho Hnd Hp Hif Hpast])] Hlen Hcap Hin Hf.
  assert (data_ (buffer_consume (len f) (input_ c)) = rest) as Hdata.
  { rewrite buffer_consume_data, Hin by apply len_nonneg. apply drop_app_len. }
  split; [constructor; simpl; auto using buffer_consume_wf, len_nonneg|].
  { by rewrite buffer_consume_capacity. }
  rewrite (seq_inv_in_flight _ _ _ Hseq) in Hcap. pose proof (frames_count _ _ Hfs).
  assert (next_request_sequence_ (sequencer_ c) < UINT64_MAX) as Hlt.
  { rewrite <-Hcnt. rewrite Hi in Hlen. len_lia. }
  destruct (assign_inv _ _ _ Hseq Hlt) as [Hseq' Hn]. pose proof (len_nonneg reqs) as Hpos.
  assert (Z.to_nat (len reqs) = length reqs) as Hnat by (unfold len; lia).
  exists (fs ++ [f]), (reqs ++ [q]), g, outs. constructor; cbn [with_sequencer with_input input_ output_ sequencer_].
  - rewrite Hdata, concat_app, <-app_assoc. simpl. by rewrite app_nil_r, <-Hin.
  - apply Forall2_app; [done|]. by constructor.
  - rewrite Hn, <-Hcnt. len_lia.
  - done.
  - intros k resp Hk. destruct (Hans k resp Hk) as (q' & Hq' & Ha). exists q'. split; [|done].
    by apply lookup_app_l_Some.
  - done.
  - constructor; [|done]. rewrite Hp, <-Hcnt, Hnat. intros (_ & Hl & _).
    apply lookup_lt_Some in Hl. lia.
  - intros k q'. rewrite elem_of_cons, Hp, <-Hcnt. split.
    + intros [[= -> ->]|(Hk & Hl & Hg)].
      * rewrite Hnat. split_and!; [done|by apply list_lookup_middle|].
        destruct (g !! len reqs) as [resp|] eqn:E; [|done]. destruct (Hans _ _ E) as (q' & Hl & _).
        rewrite Hnat in Hl. apply lookup_lt_Some in Hl. lia.
      * split_and!; [done|by apply lookup_app_l_Some|done].
    + intros (Hk & Hl & Hg). apply lookup_app_Some in Hl as [Hl|[Hge Hl]]; [by right|left].
      apply list_lookup_singleton_Some in Hl as [Hz ->]. f_equal. unfold len. lia.
  - rewrite len_app, len_cons, len_nil. lia.
  - eapply Forall_impl; [done|]. simpl. intros k Hk. len_lia.
Qed.

Lemma assigned_next past c i o pend :
  conn_core past c i o pend → len i < UINT64_MAX →
  next_request_sequence_ (next_request_sequence (sequencer_ c)).1 = next_of c + 1.
Proof.
  intros [_ (fs & reqs & g & outs & [Hi Hfs Hcnt Hseq _ _ _ _ _ _])] Hlen. pose proof (frames_count _ _ Hfs).
  apply (assign_inv _ _ _ Hseq). rewrite <-Hcnt. rewrite Hi in Hlen. len_lia.
Qed.

(** ** A response *)
Lemma record_core past c i o pend k q resp :
  conn_core past c i o ((k, q) :: pend) → req_answer c k q resp →
  ∃ s ready, record k resp (sequencer_ c) = Some (s, ready) ∧ next_request_sequence_ s = next_of c ∧
    ∀ c', same_conn c c' → conn_bufs c' → input_ c' = input_ c → sequencer_ c' = s →
      data_ (output_ c') = data_ (output_ c) ++ concat ready → conn_core past c' i o pend.
Proof.
  intros [_ (fs & reqs & g & outs & [Hi Hfs Hcnt Hseq Hans Ho Hnd Hp Hif Hpast])] Ha.
  destruct (proj1 (Hp k q) (list_elem_of_here _ _)) as (Hk & Hl & Hg).
  assert (0 ≤ k < next_request_sequence_ (sequencer_ c)) as Hrange.
  { rewrite <-Hcnt. apply lookup_lt_Some in Hl. unfold len. lia. }
  destruct (record_inv _ _ _ k resp Hseq Hrange Hg) as (s & ready & Hrec & Hseq' & Hn).
  exists s, ready. split; [done|]. split; [done|]. intros c' Hsame Hb Hin <- Hout. split; [done|].
  exists fs, reqs, (<[k := resp]> g), (outs ++ ready). apply NoDup_cons in Hnd as [Hnin Hnd].
  constructor; auto.
  - by rewrite Hin.
  - by rewrite Hn.
  - intros j r Hj. assert (∃ q, reqs !! Z.to_nat j = Some q ∧ req_answer c j q r) as (q' & Hq' & Ha').
    { apply lookup_insert_Some in Hj as [[<- <-]|[_ Hj]]; [by exists q|by apply Hans]. }
    exists q'. split; [done|]. destruct Hsame as (Hid & Hgn & _). unfold req_answer in *. by rewrite Hid, Hgn.
  - by rewrite Hout, app_assoc, Ho, concat_app.
  - intros j q'. rewrite lookup_insert_None. split.
    + intros Hin'. destruct (proj1 (Hp j q')) as (? & Hj & ?); [by right|]. split_and!; try done.
      intros <-. rewrite Hl in Hj. by injection Hj as <-.
    + intros (Hj & Hlj & Hgj & Hne). 
      assert ((j, q') ∈ (k, q) :: pend) as [Heq|?]%elem_of_cons by (by apply Hp); [congruence|done].
  - rewrite len_app. pose proof (len_nonneg ready). lia.
Qed.
End Inv.

(** More answers known. *)
Lemma conn_core_mono (answers answers' : WorkItem → bytes → Prop) cfg past c i o pend :
  (∀ it resp, answers it resp → answers' it resp) →
  conn_core answers cfg past c i o pend → conn_core answers' cfg past c i o pend.
Proof.
  intros Ha [Hb (fs & reqs & g & outs & [])]. split; [done|]. exists fs, reqs, g, outs. constructor; try done.
  intros k resp Hk. destruct (cg_answers0 k resp Hk) as (q & Hq & H). exists q. split; [done|].
  unfold req_answer in *. destruct q; naive_solver.
Qed.
