(* ===== verification/EventLoopProps.v ===== *)
(** * The handlers of the event loop preserve the invariant

    Proved against [WorldLaws]: for any kernel, any queue contents and any
    behaviour of the workers that satisfies the laws.  Every handler is shown
    to return (the fuel is enough) and to keep [loop_inv]. *)
From S2P Require Import Prelude Decimal Parser Serializer BoundedBuffer Sequencer BoundedQueue.
From S2P Require Import World Io Registry EventLoop EventLoopInv.

Section Props.
Context {W : Type} `{!World W, !WorldView W, !WorldLaws W} (w0 : W).
Context (cfg : EventLoopConfig) (past : list Z).
#[local] Abbreviation world_ok := (world_ok w0).
#[local] Abbreviation undisturbed := (undisturbed w0).
#[local] Abbreviation answers := (answered w0).
Implicit Types (w : W) (r : ConnectionRegistry) (c : Connection).

Lemma undisturbed_refl w : world_ok w → undisturbed w w.
Proof. unfold World.undisturbed. done. Qed.

Lemma undisturbed_trans w1 w2 w3 : undisturbed w1 w2 → undisturbed w2 w3 → undisturbed w1 w3.
Proof.
  unfold World.undisturbed. intros (? & H1 & H2 & H3) (? & H4 & H5 & H6).
  split_and!; [done|congruence..|by rewrite H6].
Qed.

Lemma warn_undisturbed text w : world_ok w → undisturbed w (warn cfg text w).
Proof. intros. unfold warn. destruct (logger cfg); [by apply log_law|by apply undisturbed_refl]. Qed.

(** ** Output *)
Lemma push_responses_spec ready c w c' w' ok :
  world_ok w → conn_bufs cfg c → push_responses cfg c ready w = (c', w', ok) →
  undisturbed w w' ∧ conn_bufs cfg c' ∧ same_conn c c' ∧ input_ c' = input_ c ∧
  sequencer_ c' = sequencer_ c ∧
  (ok = true → data_ (output_ c') = data_ (output_ c) ++ concat ready).
Proof.
  intros Hok. revert c. induction ready as [|resp ready IH]; intros c Hb; simpl.
  { intros [= <- <- <-]. rewrite app_nil_r. split_and!; auto using undisturbed_refl. done. }
  pose proof Hb as [Hi Ho Hci Hco]. rewrite buffer_append_spec by done. case_bool_decide as Hfit; simpl.
  - intros Heq. apply IH in Heq as (Hw & Hb' & Hs & Hin & Hseq & Hout).
    + split_and!; auto. intros Hk. rewrite Hout by done. simpl. by rewrite <-app_assoc.
    + constructor; simpl; auto. split; simpl; [len_lia|]. destruct Ho. lia.
  - intros [= <- <- <-]. split_and!; auto using warn_undisturbed; done.
Qed.

(** Recording the response of a pending request. *)
Lemma respond_spec k q resp c i o pend w :
  world_ok w → conn_core answers cfg past c i o ((k, q) :: pend) → req_answer answers c k q resp →
  ∃ c' w' ok, respond cfg k resp c w = Some (c', w', ok) ∧
    undisturbed w w' ∧ conn_bufs cfg c' ∧ same_conn c c' ∧ input_ c' = input_ c ∧ next_of c' = next_of c ∧
    (ok = true → conn_core answers cfg past c' i o pend).
Proof.
  intros Hok Hc Ha. destruct (record_core answers cfg past c i o pend k q resp Hc Ha) as (s & ready & Hrec & Hn & Hnext).
  unfold respond. rewrite Hrec. cbn [mbind option_bind].
  destruct (push_responses cfg (with_sequencer s c) ready w) as [[c' w'] ok] eqn:E.
  exists c', w', ok. split; [done|].
  apply push_responses_spec in E as (Hw & Hb & Hs & Hin & Hseq & Hout); [|done|].
  - split_and!; auto. unfold next_of in *. by rewrite Hseq.
  - destruct Hc as [[] _]. by constructor.
Qed.

(** ** Input *)

(** What [process_input] leaves behind: the items handed to the workers belong
    to the connection and were paid for with input bytes; unless the connection
    has to be closed, its invariant holds with them pending. *)
Record input_post c w i o (pend : list (Z * Request)) (c' : Connection) (w' : W) (ok : bool)
    (items : list WorkItem) : Prop := {
  ip_ok : world_ok w';
  ip_accepts : accepts w' = accepts w;
  ip_socks : socks w' = socks w;
  ip_owed : ledger w' ≡ₚ owing items ++ ledger w;
  ip_mine : Forall (is_mine c) items;
  ip_same : same_conn c c';
  ip_bufs : conn_bufs cfg c';
  ip_paid : (length items + length (data_ (input_ c')) ≤ length (data_ (input_ c)))%nat;
  ip_fresh : fresh_items c c' items;
  ip_inv : ok = true → conn_core answers cfg past c' i o ((item_request <$> items) ++ pend);
}.

Definition input_result (m : option (Connection * W * bool)) c w i o pend : Prop :=
  ∃ c' w' ok items, m = Some (c', w', ok) ∧ input_post c w i o pend c' w' ok items.

(** The rest of the loop after some items and input bytes. *)
Lemma input_post_after c w i o pend items1 c1 w1 c' w' ok items :
  accepts w1 = accepts w → socks w1 = socks w → ledger w1 ≡ₚ owing items1 ++ ledger w →
  Forall (is_mine c) items1 → same_conn c c1 → fresh_items c c1 items1 →
  (length items1 + length (data_ (input_ c1)) ≤ length (data_ (input_ c)))%nat →
  input_post c1 w1 i o ((item_request <$> items1) ++ pend) c' w' ok items →
  input_post c w i o pend c' w' ok (items ++ items1).
Proof.
  intros Ha Hs How Hm Hsame Hf Hpaid [Hok Ha' Hs' How' Hm' Hsame' Hb Hpaid' Hf' Hinv].
  constructor; auto; try congruence.
  - by rewrite How', How, owing_app, <-app_assoc.
  - apply Forall_app. split; [|done]. eapply Forall_impl; [done|]. intros it. by apply is_mine_same.
  - by transitivity c1.
  - rewrite length_app. lia.
  - by eapply fresh_items_app.
  - rewrite fmap_app, <-app_assoc. done.
Qed.

(** Record a response, then continue unless the output cap is exceeded. *)
Lemma respond_continue loop k q resp c w c1 w1 i o pend :
  undisturbed w w1 → same_conn c c1 → next_of c ≤ next_of c1 →
  (length (data_ (input_ c1)) ≤ length (data_ (input_ c)))%nat →
  conn_core answers cfg past c1 i o ((k, q) :: pend) → req_answer answers c1 k q resp →
  (∀ c2 w2, undisturbed w w2 → same_conn c c2 → input_ c2 = input_ c1 →
     conn_core answers cfg past c2 i o pend → input_result (loop c2 w2) c2 w2 i o pend) →
  input_result
    ('(c, w, ok) ← respond cfg k resp c1 w1;
     if negb ok then Some (c, w, false) else loop c w) c w i o pend.
Proof.
  intros Hw Hsame Hnx Hlen Hc Ha Hloop. pose proof Hw as (Hok1 & Hs1 & Ha1 & How1).
  destruct (respond_spec k q resp c1 i o pend w1 Hok1 Hc Ha) as (c2 & w2 & ok & Heq & Hw2 & Hb2 & Hs2 & Hin2 & Hnx2 & Hinv).
  pose proof (undisturbed_trans _ _ _ Hw Hw2) as Hw'. unfold input_result. rewrite Heq. cbn [mbind option_bind].
  destruct ok; simpl.
  - destruct (Hloop c2 w2) as (c' & w' & ok & items & Hrun & Hpost); auto; [by transitivity c1|].
    exists c', w', ok, items. split; [done|]. destruct Hw' as (? & ? & ? & How).
    rewrite <-(app_nil_r items). apply (input_post_after c w i o pend [] c2 w2); auto.
    + by transitivity c1.
    + apply fresh_items_nil. lia.
    + rewrite Hin2. simpl. lia.
  - exists c2, w2, false, []. split; [done|]. destruct Hw' as (? & ? & ? & ?).
    constructor; auto; [by transitivity c1|rewrite Hin2; simpl; lia|apply fresh_items_nil; lia].
Qed.

(** The connection after a frame of [n] bytes got its sequence number. *)
Definition assigned_conn (n : Z) c : Connection :=
  with_sequencer (next_request_sequence (sequencer_ c)).1 (with_input (buffer_consume n (input_ c)) c).

(** One unrolling of the loop, by the result of the parser. *)
Lemma process_input_unroll fuel c w res :
  in_flight_count (sequencer_ c) < max_in_flight_per_connection cfg →
  parse_command (data_ (input_ c)) = Some res →
  process_input_loop cfg (S fuel) c w =
    let sequence := next_request_sequence_ (sequencer_ c) in
    match res with
    | NeedMoreData => Some (c, w, true)
    | ParsedCommand cmd n =>
        let '(w1, st) := work_try_push (mkWorkItem (conn_id c) (conn_generation c) sequence cmd) w in
        if bool_decide (st = PushOk) then process_input_loop cfg fuel (assigned_conn n c) w1
        else
          '(c, w, ok) ← respond cfg sequence
            (if bool_decide (st = PushClosed) then shutdown_reply else busy_reply) (assigned_conn n c)
            (if bool_decide (st = PushFull)
             then warn cfg "resource limit: work queue full, replying busy" w1 else w1);
          if negb ok then Some (c, w, false) else process_input_loop cfg fuel c w
    | ParseError e =>
        if recoverable e then
          '(c, w, ok) ← respond cfg sequence (encode_error (message e))
            (assigned_conn (err_consumed_bytes e) c) w;
          if negb ok then Some (c, w, false) else process_input_loop cfg fuel c w
        else
          '(c, w, _) ← respond cfg sequence (encode_error (message e))
            (with_sequencer (next_request_sequence (sequencer_ c)).1 c)
            (warn cfg "malformed request: closing connection" w);
          Some (c, w, false)
    end.
Proof.
  intros Hcap Hres. cbn [process_input_loop]. rewrite bool_decide_false by lia.
  unfold buffer_view. rewrite Hres. cbn [mbind option_bind]. destruct res as [cmd n| |e]; [|done|].
  - simpl. destruct (work_try_push _ w) as [w1 st]. done.
  - done.
Qed.

(** The last, best-effort reply before a connection is closed. *)
Lemma respond_fatal c w i o pend resp :
  world_ok w → conn_core answers cfg past c i o pend → len i < UINT64_MAX →
  ∃ c' w' ok, respond cfg (next_request_sequence_ (sequencer_ c)) resp
      (with_sequencer (next_request_sequence (sequencer_ c)).1 c)
      (warn cfg "malformed request: closing connection" w) = Some (c', w', ok) ∧
    undisturbed w w' ∧ conn_bufs cfg c' ∧ same_conn c c' ∧ input_ c' = input_ c ∧ next_of c ≤ next_of c'.
Proof.
  intros Hok [[Hb1 Hb2 Hb3 Hb4] (fs & reqs & g & outs & [Hi Hfs Hcnt Hseq Hans Ho Hnd Hp Hif _])] Hlen.
  pose proof (frames_count _ _ Hfs). pose proof (len_nonneg reqs).
  destruct (assign_inv _ _ _ Hseq) as [Hseq' Hn]; [rewrite <-Hcnt; rewrite Hi in Hlen; len_lia|].
  destruct (record_inv _ _ _ (next_request_sequence_ (sequencer_ c)) resp Hseq') as (s & ready & Hrec & _ & Hn'); [lia| |].
  { destruct (g !! _) as [r|] eqn:E; [|done]. apply Hseq in E. lia. }
  pose proof (warn_undisturbed "malformed request: closing connection" w Hok) as Hw.
  unfold respond. cbn [with_sequencer sequencer_]. rewrite Hrec. cbn [mbind option_bind].
  destruct (push_responses cfg _ ready _) as [[c' w'] ok] eqn:E. exists c', w', ok. split; [done|].
  apply push_responses_spec in E as (Hw' & Hb & Hs & Hin & Hsq & _); [|by destruct Hw|by constructor].
  split_and!; auto; [by eapply undisturbed_trans|]. unfold next_of in *. rewrite Hsq. simpl in *. lia.
Qed.

Lemma process_input_loop_spec fuel c w i o pend :
  world_ok w → socks w !! conn_fd c = Some (i, o) → conn_core answers cfg past c i o pend →
  (length (data_ (input_ c)) < fuel)%nat →
  input_result (process_input_loop cfg fuel c w) c w i o pend.
Proof.
  revert c w pend. induction fuel as [|fuel IH]; intros c w pend Hok Hsk Hc Hf; [lia|].
  assert (Hstop : input_result (Some (c, w, true)) c w i o pend).
  { exists c, w, true, []. split; [done|]. constructor; auto using fresh_items_nil; done || (by destruct Hc) || by apply fresh_items_nil. }
  assert (Hcont : ∀ c1 c2 w2, undisturbed w w2 → same_conn c c2 → input_ c2 = input_ c1 →
    (length (data_ (input_ c1)) < length (data_ (input_ c)))%nat →
    conn_core answers cfg past c2 i o pend → input_result (process_input_loop cfg fuel c2 w2) c2 w2 i o pend).
  { intros c1 c2 w3 (Hok3 & Hsk3 & _ & _) (_ & _ & Hfd2) Hin2 Hlt Hc2.
    apply IH; [done|by rewrite Hsk3, Hfd2|done|]. rewrite Hin2. lia. }
  destruct (decide (in_flight_count (sequencer_ c) < max_in_flight_per_connection cfg)) as [Hcap|Hcap].
  2: { cbn [process_input_loop]. rewrite bool_decide_true by lia. apply Hstop. }
  destruct (parse_command_total (data_ (input_ c))) as [res Hres].
  pose proof (stream_bound w _ i o Hok Hsk) as Hbound. apply parse_frame in Hres as Hfr.
  rewrite (process_input_unroll fuel c w res Hcap Hres).
  assert (Hstep : ∀ f rest q, data_ (input_ c) = f ++ rest → 0 < len f → frame_request f q →
    conn_core answers cfg past (assigned_conn (len f) c) i o ((next_request_sequence_ (sequencer_ c), q) :: pend) ∧
    same_conn c (assigned_conn (len f) c) ∧ next_of (assigned_conn (len f) c) = next_of c + 1 ∧
    (length (data_ (input_ (assigned_conn (len f) c))) < length (data_ (input_ c)))%nat).
  { intros f rest q Hin Hpos Hq. split_and!; [by eapply assign_core|done|by eapply assigned_next|].
    simpl. rewrite buffer_consume_data, Hin, drop_app_len by lia. rewrite length_app. unfold len in Hpos. lia. }
  cbv zeta. destruct res as [cmd n| |e]; [|apply Hstop|].
  - destruct Hfr as (f & rest & Hin & -> & Hpos & Hq).
    destruct (Hstep f rest _ Hin Hpos Hq) as (Hc1 & Hs1 & Hn1 & Hl1). clear Hstep.
    set (c1 := assigned_conn (len f) c) in *. set (item := mkWorkItem _ _ _ cmd).
    destruct (work_try_push item w) as [w1 st] eqn:Ep.
    eapply push_law in Ep as (Hok1 & Hsk1 & Ha1 & How1); [|done].
    case_bool_decide as Hst.
    + destruct (IH c1 w1 ((item_request <$> [item]) ++ pend)) as (c' & w' & ok & items & Hrun & Hpost);
        [done|by rewrite Hsk1|done|lia|].
      exists c', w', ok, (items ++ [item]). split; [done|].
      apply (input_post_after c w i o pend [item] c1 w1); try done; [by apply Forall_singleton|].
      split_and!; [lia|apply Forall_singleton; change (wi_sequence item) with (next_of c); split; [lia|by eapply frame_valid]|apply NoDup_singleton].
    + assert (undisturbed w w1) as Hw1 by (by split_and!).
      eapply (respond_continue (process_input_loop cfg fuel) _ (ReqCommand cmd) _ c w c1);
        [|done|lia|lia|done| |by eauto].
      * case_bool_decide; [|done]. eapply undisturbed_trans; [done|by apply warn_undisturbed].
      * simpl. case_bool_decide; auto.
  - destruct (recoverable e) eqn:Hrec.
    + destruct (Hfr eq_refl) as (f & rest & Hin & Hn & Hpos & Hq). rewrite Hn.
      destruct (Hstep f rest _ Hin Hpos Hq) as (Hc1 & Hs1 & Hn1 & Hl1). clear Hstep.
      eapply (respond_continue (process_input_loop cfg fuel) _ (ReqError (message e)) _ c w);
        [by apply undisturbed_refl|done|lia|lia|done|done|by eauto].
    + destruct (respond_fatal c w i o pend (encode_error (message e))) as (c' & w' & ok & Heq & Hw & Hb & Hs & Hin & Hnx);
        [done..|]. rewrite Heq. exists c', w', false, []. split; [done|]. destruct Hw as (? & ? & ? & ?).
      constructor; auto using fresh_items_nil; [by rewrite Hin|done].
Qed.

(** ** Writing *)
Lemma write_loop_spec fuel c w i o :
  world_ok w → socks w !! conn_fd c = Some (i, o) → conn_bufs cfg c →
  (length (data_ (output_ c)) < fuel)%nat →
  ∃ b' w' ok o', write_loop fuel c w = Some (with_output b' c, w', ok) ∧
    world_ok w' ∧ accepts w' = accepts w ∧ ledger w' ≡ₚ ledger w ∧
    socks w' = <[conn_fd c := (i, o')]> (socks w) ∧ o' ++ data_ b' = o ++ data_ (output_ c) ∧
    conn_bufs cfg (with_output b' c).
Proof.
  revert c w o. induction fuel as [|fuel IH]; intros c w o Hok Hsk Hb Hf; [lia|].
  cbn [write_loop]. unfold buffer_empty. case_bool_decide as Hemp.
  { exists (output_ c), w, true, o. assert (with_output (output_ c) c = c) as -> by by destruct c.
    split_and!; auto. by rewrite insert_id. }
  destruct (write_from (conn_fd c) (output_ c) w) as [[w1 b1] out] eqn:E.
  pose proof Hb as [Hb1 Hb2 Hb3 Hb4].
  eapply write_from_spec in E as (d & Hok1 & Ha1 & How1 & Hsk1 & Hd & Hcap & Hwf & _ & Hpos & Hnone); [|done..].
  assert (conn_bufs cfg (with_output b1 c)) as Hbufs by (constructor; simpl; congruence || done).
  destruct (write_status out) eqn:Hst.
  - specialize (Hpos Hemp eq_refl).
    destruct (IH (with_output b1 c) w1 (o ++ d)) as (b' & w' & ok & o' & Hrun & Hok' & Ha' & How' & Hsk' & Heq & Hbufs');
      [done|rewrite Hsk1; apply lookup_insert_eq|done| |].
    { simpl. rewrite Hd, length_app in Hf. destruct d; [done|]. simpl in Hf. lia. }
    exists b', w', ok, o'. split_and!; auto; try congruence.
    + by rewrite How'.
    + by rewrite Hsk', Hsk1, insert_insert_eq.
    + rewrite Heq. simpl. by rewrite Hd, <-app_assoc.
  - exists b1, w1, true, o. rewrite Hnone in * by done. rewrite app_nil_r in Hsk1. rewrite Hd. by split_and!.
  - exists b1, w1, false, o. rewrite Hnone in * by done. rewrite app_nil_r in Hsk1. rewrite Hd. by split_and!.
  - exists b1, w1, false, o. rewrite Hnone in * by done. rewrite app_nil_r in Hsk1. rewrite Hd. by split_and!.
Qed.

(** Moving bytes from the output buffer to the socket keeps the invariant. *)
Lemma conn_core_output c i o pend b' o' :
  conn_core answers cfg past c i o pend → o' ++ data_ b' = o ++ data_ (output_ c) →
  conn_bufs cfg (with_output b' c) → conn_core answers cfg past (with_output b' c) i o' pend.
Proof.
  intros [_ (fs & reqs & g & outs & [])] Heq Hb. split; [done|]. exists fs, reqs, g, outs.
  constructor; auto. simpl. congruence.
Qed.

(** ** Reading *)
Lemma conn_core_input c i o pend d b' :
  conn_core answers cfg past c i o pend → data_ b' = data_ (input_ c) ++ d →
  conn_bufs cfg (with_input b' c) → conn_core answers cfg past (with_input b' c) (i ++ d) o pend.
Proof.
  intros [_ (fs & reqs & g & outs & [])] Heq Hb. split; [done|]. exists fs, reqs, g, outs.
  constructor; auto. simpl. by rewrite Heq, app_assoc, <-cg_input.
Qed.

Lemma read_loop_spec fuel c w i o pend :
  world_ok w → socks w !! conn_fd c = Some (i, o) → conn_core answers cfg past c i o pend →
  (Z.to_nat (UINT64_MAX - len i) < fuel)%nat →
  ∃ c' w' ok items i', read_loop cfg fuel c w = Some (c', w', ok) ∧
    world_ok w' ∧ accepts w' = accepts w ∧ socks w' = <[conn_fd c := (i', o)]> (socks w) ∧
    ledger w' ≡ₚ owing items ++ ledger w ∧ Forall (is_mine c) items ∧ fresh_items c c' items ∧ same_conn c c' ∧ conn_bufs cfg c' ∧
    (ok = true → conn_core answers cfg past c' i' o ((item_request <$> items) ++ pend)).
Proof.
  revert c w i pend. induction fuel as [|fuel IH]; intros c w i pend Hok Hsk Hc Hf; [lia|].
  cbn [read_loop]. destruct (read_into (conn_fd c) (input_ c) w) as [[w1 b1] out] eqn:E.
  pose proof Hc as [[Hb1 Hb2 Hb3 Hb4] _].
  eapply read_into_spec in E as (d & Hok1 & Ha1 & How1 & Hsk1 & Hd & Hcap & Hwf & Hsome & _ & _); [|done..].
  assert (conn_bufs cfg (with_input b1 c)) as Hbufs by (constructor; simpl; congruence || done).
  pose proof (conn_core_input c i o pend d b1 Hc Hd Hbufs) as Hc1.
  assert (Hsk1' : socks w1 !! conn_fd c = Some (i ++ d, o)) by (rewrite Hsk1; apply lookup_insert_eq).
  assert (Hend : ∀ w2 ok, undisturbed w1 w2 → ∃ c' w' ok' items i',
    Some (with_input b1 c, w2, ok) = Some (c', w', ok') ∧
    world_ok w' ∧ accepts w' = accepts w ∧ socks w' = <[conn_fd c := (i', o)]> (socks w) ∧
    ledger w' ≡ₚ owing items ++ ledger w ∧ Forall (is_mine c) items ∧ fresh_items c c' items ∧ same_conn c c' ∧ conn_bufs cfg c' ∧
    (ok' = true → conn_core answers cfg past c' i' o ((item_request <$> items) ++ pend))).
  { intros w2 ok (? & Hs2 & Ha2 & How2). eexists _, _, _, [], (i ++ d).
    split_and!; [done|done|congruence|congruence|by rewrite How2, How1|done|by apply fresh_items_nil|done..]. }
  destruct (read_status out) eqn:Hst; try apply Hend.
  2-5: try (case_bool_decide; [by apply warn_undisturbed|]); by apply undisturbed_refl.
  assert (d ≠ []) as Hne by (by apply Hsome). clear Hend.
  destruct (process_input_loop_spec (S (length (data_ (input_ (with_input b1 c))))) (with_input b1 c) w1 (i ++ d) o pend)
    as (c2 & w2 & ok & items & Hrun & [Hok2 Ha2 Hsk2 How2 Hm2 Hs2 Hbufs2 _ Hf2 Hinv2]); [done..|lia|].
  unfold process_input. rewrite Hrun. cbn [mbind option_bind]. destruct ok; simpl.
  - assert (Hfd2 : conn_fd c2 = conn_fd c) by apply Hs2.
    pose proof (stream_bound w1 _ _ _ Hok1 Hsk1'). destruct d as [|x d]; [done|].
    destruct (IH c2 w2 (i ++ x :: d) ((item_request <$> items) ++ pend))
      as (c' & w' & ok & items' & i' & Hrun' & Hok' & Ha' & Hsk' & How' & Hm' & Hf' & Hs' & Hb' & Hinv');
      [done|by rewrite Hsk2, Hfd2|by apply Hinv2|rewrite len_app, len_cons in *; len_lia|].
    exists c', w', ok, (items' ++ items), i'. split_and!; auto; try congruence.
    + by rewrite Hsk', Hsk2, Hsk1, Hfd2, insert_insert_eq.
    + by rewrite How', How2, How1, owing_app, <-app_assoc.
    + apply Forall_app. split; [|done]. eapply Forall_impl; [done|]. intros it. by apply is_mine_same.
    + by eapply (fresh_items_app (with_input b1 c)).
    + by transitivity c2.
    + rewrite fmap_app, <-app_assoc. done.
  - exists c2, w2, false, items, (i ++ d). split_and!; auto; try congruence. by rewrite How2, How1.
Qed.
End Props.
