(* ===== verification/EventLoopMain.v ===== *)
(** * The invariant of the whole event loop

    [loop_inv] holds between any two handler calls; every event, every batch
    and any number of iterations of [run] preserve it. *)
From stdpp Require Import relations.
From S2P Require Import Prelude Decimal Parser Serializer BoundedBuffer Sequencer BoundedQueue.
From S2P Require Import World Io Registry EventLoop EventLoopInv EventLoopProps.

(** ** Handlers

    Relative to a world [w0] in the past, whose answers are the ones known. *)
Section Handlers.
Context {W : Type} `{!World W, !WorldView W, !WorldLaws W} (w0 : W).
Context (cfg : EventLoopConfig).
Implicit Types (w : W) (r : ConnectionRegistry) (c : Connection) (ow : list (WorkItem * bool)).
#[local] Abbreviation world_ok := (world_ok w0).
#[local] Abbreviation undisturbed := (undisturbed w0).
#[local] Abbreviation answers := (answered w0).

(** The registry and the world agree, with [ow] the items still owed; the
    connections in [skip] are about to be closed and only their buffers are
    known to be well-formed. *)
Record loop_pre (skip : Z → Prop) ow r w : Prop := {
  lp_ok : world_ok w;
  lp_reg : registry_wf r;
  lp_gen : next_generation_ r = 1 + accepts w;
  lp_conn : ∀ id c, connections_ r !! id = Some c →
    ∃ i o, socks w !! id = Some (i, o) ∧ conn_bufs cfg c ∧ (¬ skip id → conn_inv answers cfg c i o ow);
  lp_socks : ∀ fd, is_Some (socks w !! fd) → is_Some (connections_ r !! fd);
  lp_owed : Forall (λ it, wi_connection_generation it < next_generation_ r ∧ valid_command (wi_command it)) ow.*1;
  lp_nodup : NoDup ow.*1;
}.

Definition loop_inv r w : Prop := loop_pre (λ _, False) (ledger w) r w.

Lemma loop_pre_mono (skip skip' : Z → Prop) ow ow' r w :
  ow ≡ₚ ow' → (∀ id, skip id → skip' id) → loop_pre skip ow r w → loop_pre skip' ow' r w.
Proof.
  intros How Hs [Hok Hreg Hgen Hc Hsk Hge Hnd]. constructor; auto.
  - intros id c Hl. destruct (Hc id c Hl) as (i & o & ? & ? & Hinv). exists i, o.
    split_and!; auto. rewrite <-How. auto.
  - by rewrite <-How.
  - by rewrite <-How.
Qed.

Lemma loop_pre_undisturbed skip ow r w w' :
  undisturbed w w' → loop_pre skip ow r w → loop_pre skip ow r w'.
Proof.
  intros (Hok' & Hs & Ha & How) [Hok Hreg Hgen Hc Hsk Hge Hnd]. constructor; auto; rewrite ?Hs, ?Ha; auto.
Qed.

Lemma loop_inv_undisturbed r w w' : undisturbed w w' → loop_inv r w → loop_inv r w'.
Proof.
  intros Hu Hinv. unfold loop_inv in *. eapply loop_pre_undisturbed in Hinv; [|done].
  eapply loop_pre_mono; [| |exact Hinv]; [|done]. destruct Hu as (_ & _ & _ & How). by symmetry.
Qed.

(** A handler worked on the connection at [id] and hands it back. *)
Lemma put_pre (skip skip' : Z → Prop) ow r w id c c' w' i' o' items :
  loop_pre skip ow r w → (∀ x, x ≠ id → skip x → skip' x) → connections_ r !! id = Some c →
  world_ok w' → accepts w' = accepts w → socks w' = <[id := (i', o')]> (socks w) →
  Forall (is_mine c) items → Forall (λ it, valid_command (wi_command it)) items → NoDup (items ++ ow.*1) →
  same_conn c c' → conn_bufs cfg c' →
  (¬ skip' id → conn_inv answers cfg c' i' o' (owing items ++ ow)) →
  loop_pre skip' (owing items ++ ow) (put c' r) w'.
Proof.
  intros [Hok Hreg Hgen Hc Hsk Hge Hnd] Hskip Hl Hok' Ha Hs Hm Hval Hnd' (Hid & Hgn & Hfd) Hb Hinv.
  pose proof (reg_conn r Hreg id c Hl) as (Hcid & Hcfd & Hcg).
  assert (conn_id c' = id) as Hid' by congruence. unfold put. rewrite Hid'.
  constructor; simpl; auto.
  - pose proof (put_wf c' r Hreg) as Hput. unfold put in Hput. rewrite Hid' in Hput.
    apply Hput; [by rewrite Hl|congruence|lia].
  - congruence.
  - intros id2 c2 [[<- <-]|[Hne Hl2]]%lookup_insert_Some.
    + exists i', o'. rewrite Hs, lookup_insert_eq. done.
    + destruct (Hc id2 c2 Hl2) as (i2 & o2 & Hs2 & Hb2 & Hinv2). exists i2, o2.
      rewrite Hs, lookup_insert_ne by done. split_and!; auto. intros Hsk2.
      unfold conn_inv. destruct (mine_others c2 items ow) as [-> ->]; [|apply Hinv2; naive_solver].
      eapply Forall_impl; [exact Hm|]. intros it [Hit _] [Hit2 _].
      apply (reg_conn r Hreg) in Hl2 as (? & _). congruence.
  - intros fd Hfd'. rewrite lookup_insert_is_Some. destruct (decide (id = fd)); [by left|right].
    split; [done|]. apply Hsk. rewrite Hs, lookup_insert_ne in Hfd' by done. done.
  - rewrite issued_owing. apply Forall_app. split; [|done].
    eapply Forall_impl; [apply Forall_and; split; [exact Hm|exact Hval]|]. intros it [[_ ->] ?]. split; [lia|done].
  - by rewrite issued_owing.
Qed.

Lemma find_current_Some id r c :
  registry_wf r → find_current id r = Some c → conn_id c = id ∧ conn_fd c = id ∧ find id (conn_generation c) r = Some c.
Proof.
  intros Hreg Hl. destruct (reg_conn r Hreg id c Hl) as (? & ? & _). split_and!; auto.
  by apply find_Some.
Qed.

(** ** Closing *)

(** A connection is erased and its descriptor closed. *)
Lemma erase_inv id r w ow :
  loop_pre (λ x, x = id) ow r w →
  loop_pre (λ _, False) ow (mkConnectionRegistry (next_generation_ r) (delete id (connections_ r)))
    (sys_close id w) ∧ ledger (sys_close id w) ≡ₚ ledger w ∧ (backlog (sys_close id w) ≤ backlog w)%nat.
Proof.
  intros [Hok Hreg Hgen Hc Hsk Hge Hnd]. destruct (close_law w id Hok) as (Hok' & Hs & Ha & How & Hb).
  split_and!; [|done|done]. constructor; simpl; auto.
  - destruct Hreg as [Hr Hcs]. constructor; simpl; [done|].
    intros i c' [_ Hl]%lookup_delete_Some. by apply Hcs in Hl.
  - congruence.
  - intros id2 c2 [Hne Hl2]%lookup_delete_Some. destruct (Hc id2 c2 Hl2) as (i2 & o2 & ? & ? & ?).
    exists i2, o2. rewrite Hs, lookup_delete_ne by done. auto.
  - intros fd. rewrite Hs, !lookup_delete_is_Some. naive_solver.
Qed.

Lemma close_connection_inv id gen c r w ow :
  loop_pre (λ x, x = id) ow r w → ledger w ≡ₚ ow → find id gen r = Some c →
  ∃ r' w', close_connection id gen r w = (r', w') ∧ loop_inv r' w' ∧ ledger w' ≡ₚ ow ∧
    connections_ r' = delete id (connections_ r).
Proof.
  intros Hpre How Hf. pose proof Hf as [Hl Hg]%find_Some.
  destruct (reg_conn r (lp_reg _ _ _ _ Hpre) id c Hl) as (Hcid & Hcfd & _).
  destruct (lp_conn _ _ _ _ Hpre id c Hl) as (i & o & Hs & [Hb1 Hb2 Hb3 Hb4] & _).
  unfold close_connection. rewrite Hf.
  assert (∃ w1 b1 o1, (if negb (buffer_empty (output_ c))
      then let '(w, output, _) := write_from (conn_fd c) (output_ c) w in (w, output)
      else (w, output_ c)) = (w1, b1) ∧ world_ok w1 ∧ accepts w1 = accepts w ∧ ledger w1 ≡ₚ ow ∧
      socks w1 = <[id := (i, o1)]> (socks w) ∧ conn_bufs cfg (with_output b1 c))
    as (w1 & b1 & o1 & -> & Hok1 & Ha1 & How1 & Hs1 & Hbufs).
  { pose proof (lp_ok _ _ _ _ Hpre) as Hok. destruct (negb _).
    - destruct (write_from _ _ w) as [[w1 b1] out] eqn:E. rewrite Hcfd in E.
      eapply write_from_spec in E as (d & ? & ? & How1 & ? & ? & ? & ? & _); [|done..].
      exists w1, b1, (o ++ d). split_and!; auto; [by rewrite How1|]. constructor; simpl; congruence || done.
    - exists w, (output_ c), o. split_and!; auto; [by rewrite insert_id|by constructor]. }
  destruct (sys_epoll_ctl EPOLL_CTL_DEL id 0 w1) as [w2 ok] eqn:E. eapply epoll_law in E as [Hu _]; [|done].
  assert (loop_pre (λ x, x = id) ow (put (with_output b1 c) r) w2) as Hpre2.
  { apply (loop_pre_undisturbed _ _ _ w1); [done|].
    eapply (put_pre _ _ ow r w id c _ _ i o1 []); eauto; try done. apply Hpre. }
  rewrite registry_close_spec.
  assert (find id gen (put (with_output b1 c) r) = Some (with_output b1 c)) as ->.
  { apply find_Some. simpl. rewrite Hcid, lookup_insert_eq. done. }
  destruct (erase_inv _ _ _ _ Hpre2) as (Hfin & How3 & _). simpl in *. rewrite Hcid, Hcfd, delete_insert_eq in *.
  destruct Hu as (_ & _ & _ & How2).
  assert (ledger (sys_close id w2) ≡ₚ ow) as Hw by (by rewrite How3, How2, How1).
  eexists _, _. split_and!; [done| |done|done]. by apply (loop_pre_mono (λ _, False) _ ow).
Qed.

(** ** Bytes waiting in the input buffers *)
Definition input_bytes r : nat :=
  sum_list_with (λ p, length (data_ (input_ p.2))) (map_to_list (connections_ r)).

Lemma sum_list_with_perm {A} (f : A → nat) l l' : l ≡ₚ l' → sum_list_with f l = sum_list_with f l'.
Proof. induction 1; simpl; lia. Qed.

Lemma input_bytes_delete r id c n :
  connections_ r !! id = Some c →
  (input_bytes (mkConnectionRegistry n (delete id (connections_ r))) + length (data_ (input_ c)) = input_bytes r)%nat.
Proof.
  intros Hl. unfold input_bytes. simpl.
  rewrite <-(sum_list_with_perm _ _ _ (map_to_list_delete _ _ _ Hl)). simpl. lia.
Qed.

Lemma input_bytes_put r id c c' :
  connections_ r !! id = Some c → conn_id c' = id →
  (input_bytes (put c' r) + length (data_ (input_ c)) = input_bytes r + length (data_ (input_ c')))%nat.
Proof.
  intros Hl <-. rewrite <-(input_bytes_delete r _ c 0 Hl). unfold input_bytes, put. simpl.
  rewrite <-insert_delete_eq.
  rewrite (sum_list_with_perm _ _ _ (map_to_list_insert _ _ c' (lookup_delete_eq _ _))). simpl. lia.
Qed.

(** A handler worked on a connection and then has to close it. *)
Lemma put_close_inv skip ow r w id c c' w' i' o' items :
  loop_pre skip ow r w → (∀ x, skip x → x = id) → connections_ r !! id = Some c →
  world_ok w' → accepts w' = accepts w → socks w' = <[id := (i', o')]> (socks w) →
  ledger w' ≡ₚ owing items ++ ow → Forall (is_mine c) items →
  Forall (λ it, valid_command (wi_command it)) items → NoDup (items ++ ow.*1) → same_conn c c' → conn_bufs cfg c' →
  ∃ r' w'', close_connection id (conn_generation c) (put c' r) w' = (r', w'') ∧ loop_inv r' w'' ∧
    ledger w'' ≡ₚ owing items ++ ow ∧ find_current id r' = None ∧
    (input_bytes r' + length (data_ (input_ c)) = input_bytes r)%nat.
Proof.
  intros Hpre Hskip Hl Hok' Ha Hs How Hm Hval Hnd Hsame Hb.
  destruct (reg_conn r (lp_reg _ _ _ _ Hpre) id c Hl) as (Hcid & _ & _).
  pose proof Hsame as (Hid & Hg & _).
  assert (loop_pre (λ x, x = id) (owing items ++ ow) (put c' r) w') as Hpre'.
  { eapply put_pre; [exact Hpre| |exact Hl|done..]. naive_solver. }
  destruct (close_connection_inv id (conn_generation c) c' (put c' r) w' (owing items ++ ow))
    as (r' & w'' & Heq & Hinv & How' & Hdel); [done|done| |].
  { apply find_Some. simpl. rewrite Hid, Hcid, lookup_insert_eq. done. }
  exists r', w''. destruct r' as [n' m']. simpl in Hdel. subst m'.
  rewrite Hid, Hcid, delete_insert_eq in *. split_and!; auto; [apply lookup_delete_eq|].
  by apply input_bytes_delete.
Qed.

(** The invariant of a connection whose new items are entered in the ledger. *)
Lemma issue_inv c c' i o ow items :
  same_conn c c' → Forall (is_mine c) items →
  conn_core answers cfg (past_of c ow) c' i o ((item_request <$> items) ++ mine c ow) →
  conn_inv answers cfg c' i o (owing items ++ ow).
Proof.
  intros Hsame Hm Hc. unfold conn_inv. destruct (mine_same c c' (owing items ++ ow) Hsame) as [-> ->].
  destruct (mine_all c items ow Hm) as [-> ->]. by apply conn_core_issue.
Qed.

(** ** Writable *)
Lemma handle_connection_writable_inv id r w :
  loop_inv r w →
  ∃ r' w', handle_connection_writable id r w = Some (r', w') ∧ loop_inv r' w' ∧
    ledger w' ≡ₚ ledger w ∧ (input_bytes r' ≤ input_bytes r)%nat.
Proof.
  intros Hinv. unfold handle_connection_writable.
  destruct (find_current id r) as [c|] eqn:Hfc; [|by exists r, w].
  pose proof (lp_reg _ _ _ _ Hinv) as Hreg.
  destruct (find_current_Some id r c Hreg Hfc) as (Hid & Hfd & Hf).
  destruct (lp_conn _ _ _ _ Hinv id c Hfc) as (i & o & Hs & Hb & Hc). specialize (Hc (λ f, f)).
  destruct (write_loop_spec w0 cfg (S (length (data_ (output_ c)))) c w i o)
    as (b' & w1 & ok & o' & Hrun & Hok1 & Ha1 & How1 & Hs1 & Hout & Hbufs);
    [apply Hinv|by rewrite Hfd|done|lia|].
  rewrite Hrun. cbn [mbind option_bind]. rewrite Hfd in Hs1.
  assert (Hpre : loop_pre (λ _, False) (owing [] ++ ledger w) (put (with_output b' c) r) w1).
  { eapply put_pre; [exact Hinv|done|exact Hfc|done..|apply Hinv|done|done|]. intros _.
    eapply conn_core_output; [exact Hc|done..]. }
  assert (Hin : input_bytes (put (with_output b' c) r) = input_bytes r).
  { pose proof (input_bytes_put r id c (with_output b' c) Hfc Hid) as H. cbn [with_output input_] in H. lia. }
  destruct ok.
  - unfold update_epoll_interest. destruct (sys_epoll_ctl _ _ _ w1) as [w2 b] eqn:E.
    eapply epoll_law in E as [Hu _]; [|done]. eexists _, _. split; [done|]. simpl.
    destruct Hu as (Hok2 & Hs2 & Ha2 & How2). split_and!; [|by rewrite How2|lia].
    apply (loop_pre_mono (λ _, False) _ (ledger w)); [by rewrite How2, How1|done|].
    apply (loop_pre_undisturbed _ _ _ w1); [|done]. by split_and!.
  - destruct (put_close_inv _ _ r w id c (with_output b' c) w1 i o' [] Hinv)
      as (r' & w' & -> & Hinv' & How' & _ & Hdel); [done..|apply Hinv|done|done|]. exists r', w'. split_and!; [done..|lia].
Qed.

(** ** Readable *)
Lemma handle_connection_readable_inv id r w :
  loop_inv r w →
  ∃ n, ∀ fuel, (n ≤ fuel)%nat →
  ∃ r' w', handle_connection_readable cfg fuel id r w = Some (r', w') ∧ loop_inv r' w'.
Proof.
  intros Hinv. unfold handle_connection_readable.
  destruct (find_current id r) as [c|] eqn:Hfc; [|exists 0%nat; intros; by exists r, w].
  pose proof (lp_reg _ _ _ _ Hinv) as Hreg.
  destruct (find_current_Some id r c Hreg Hfc) as (Hid & Hfd & Hf).
  destruct (lp_conn _ _ _ _ Hinv id c Hfc) as (i & o & Hs & Hb & Hc). specialize (Hc (λ f, f)).
  exists (S (Z.to_nat (UINT64_MAX - len i))). intros fuel Hfuel.
  destruct (read_loop_spec w0 cfg (past_of c (ledger w)) fuel c w i o (mine c (ledger w)))
    as (c' & w1 & ok & items & i' & Hrun & Hok1 & Ha1 & Hs1 & How1 & Hm & Hfr & Hsame & Hbufs & Hinv1);
    [apply Hinv|by rewrite Hfd|done|lia|].
  pose proof (nodup_issue _ _ _ _ _ _ _ _ _ Hc Hfr Hm (lp_nodup _ _ _ _ Hinv)) as Hnd.
  pose proof (fresh_items_valid _ _ _ Hfr) as Hval. rewrite Hrun. cbn [mbind option_bind]. rewrite Hfd in Hs1. destruct ok; simpl.
  - destruct (handle_connection_writable_inv id (put c' r) w1) as (r' & w' & Heq & Hinv' & _); [|by exists r', w'].
    apply (loop_pre_mono (λ _, False) _ (owing items ++ ledger w)); [done|done|].
    eapply put_pre; [exact Hinv|done|exact Hfc|done..|]. intros _. apply (issue_inv c); [done..|]. by apply Hinv1.
  - destruct (put_close_inv _ _ r w id c c' w1 i' o items Hinv)
      as (r' & w' & -> & Hinv' & _); [done..|]. by exists r', w'.
Qed.

(** ** Completions *)

(** The completion of an item that no connection outside [skip] owns is of no
    consequence. *)
Lemma loop_pre_settle skip item ow r w :
  loop_pre (λ _, False) ((item, true) :: ow) r w →
  (∀ id c, connections_ r !! id = Some c → is_mine c item → skip id) → loop_pre skip ((item, false) :: ow) r w.
Proof.
  intros [Hok Hreg Hgen Hc Hsk Hge Hnd] Hown. constructor; auto.
  intros id c Hl. destruct (Hc id c Hl) as (i & o & ? & ? & Hinv). exists i, o. split_and!; auto.
  intros Hn. specialize (Hinv (λ f, f)). unfold conn_inv in *.
  rewrite mine_owing, decide_False in Hinv by naive_solver. by rewrite mine_settled, past_settled.
Qed.

Lemma is_mine_find r c id item :
  registry_wf r → connections_ r !! id = Some c → is_mine c item →
  id = wi_connection_id item ∧ find (wi_connection_id item) (wi_connection_generation item) r = Some c.
Proof.
  intros Hreg Hl [Hm1 Hm2]. destruct (reg_conn r Hreg id c Hl) as (Hr & _ & _).
  assert (id = wi_connection_id item) as -> by congruence. split; [done|]. by apply find_Some.
Qed.

(** The part of the handler after the response was recorded. *)
Lemma resume_input_inv id c c1 r w w1 i o :
  loop_pre (λ x, x = id) (ledger w) r w → connections_ r !! id = Some c → conn_fd c = id →
  socks w !! id = Some (i, o) → undisturbed w w1 → same_conn c c1 → input_ c1 = input_ c →
  conn_core answers cfg (past_of c (ledger w)) c1 i o (mine c (ledger w)) →
  ∃ r' w', ('(c, w, ok) ← process_input cfg c1 w1;
     if negb ok then Some (close_connection id (conn_generation c1) (put c r) w)
     else handle_connection_writable id (put c r) w) = Some (r', w') ∧ loop_inv r' w' ∧
    (length (owed w') + input_bytes r' ≤ length (owed w) + input_bytes r)%nat.
Proof.
  intros Hpre Hl Hcfd Hs (Hok1 & Hs1 & Ha1 & How1) Hsame1 Hin1 Hinv1.
  destruct (reg_conn r (lp_reg _ _ _ _ Hpre) id c Hl) as (Hcid & _ & _).
  destruct (process_input_loop_spec w0 cfg (past_of c (ledger w)) (S (length (data_ (input_ c1)))) c1 w1 i o
    (mine c (ledger w)))
    as (c2 & w2 & ok2 & items & Hrun2 & [Hok2 Ha2 Hs2 How2 Hm2 Hsame2 Hb2 Hpaid Hfr Hinv2]);
    [done|destruct Hsame1 as (_ & _ & ->); by rewrite Hs1, Hcfd|done|lia|].
  unfold process_input. rewrite Hrun2. cbn [mbind option_bind].
  assert (Hsame : same_conn c c2) by (by transitivity c1).
  assert (Hmine : Forall (is_mine c) items).
  { eapply Forall_impl; [done|]. intros it. by apply is_mine_same. }
  assert (ledger w2 ≡ₚ owing items ++ ledger w) as How by (by rewrite How2, How1).
  assert (socks w2 = <[id := (i, o)]> (socks w)) as Hsk2 by (by rewrite Hs2, Hs1, insert_id).
  assert (NoDup (items ++ (ledger w).*1)) as Hnd.
  { eapply (nodup_issue _ _ c1 c2); [|exact Hfr|done|apply Hpre].
    destruct (mine_same c c1 (ledger w) Hsame1) as [_ ->]. exact Hinv1. }
  pose proof (fresh_items_valid _ _ _ Hfr) as Hval.
  assert (length (owed w2) = length items + length (owed w))%nat as Hlen.
  { unfold owed. by rewrite How, unpaid_owing, length_app. }
  rewrite Hin1 in Hpaid. assert (accepts w2 = accepts w) as Hac by congruence. destruct ok2; simpl.
  - destruct (handle_connection_writable_inv id (put c2 r) w2) as (r' & w' & Heq & Hinv' & How' & Hn).
    { apply (loop_pre_mono (λ _, False) _ (owing items ++ ledger w)); [done|done|].
      eapply put_pre; [exact Hpre|naive_solver|exact Hl|done..|]. intros _. apply (issue_inv c); [done..|]. by apply Hinv2. }
    exists r', w'. split_and!; [done..|]. unfold owed in *. rewrite How'.
    pose proof (input_bytes_put r id c c2 Hl). destruct Hsame as (? & _). lia.
  - destruct Hsame1 as (_ & -> & _).
    destruct (put_close_inv _ _ r w id c c2 w2 i o items Hpre) as (r' & w' & -> & Hinv' & How' & _ & Hn); [done..|].
    exists r', w'. split_and!; [done..|]. unfold owed in *. rewrite How', <-How. lia.
Qed.

Lemma handle_completion_inv item co l r w :
  ledger w ≡ₚ (item, false) :: l → loop_pre (λ _, False) ((item, true) :: l) r w → completes item co →
  answers item (co_response co) →
  ∃ r' w', handle_completion cfg co r w = Some (r', w') ∧ loop_inv r' w' ∧
    (length (owed w') + input_bytes r' ≤ length (owed w) + input_bytes r)%nat.
Proof.
  intros Hled Hpre (Hid & Hg & Hseq) Ha. unfold handle_completion. rewrite Hid, Hg, Hseq.
  pose proof (lp_reg _ _ _ _ Hpre) as Hreg.
  assert (Hpre0 : ∀ skip : Z → Prop, (∀ id c, connections_ r !! id = Some c → is_mine c item → skip id) →
    loop_pre skip (ledger w) r w).
  { intros skip Hown. apply (loop_pre_mono skip _ ((item, false) :: l)); [done|done|]. by apply loop_pre_settle. }
  destruct (find _ _ r) as [c|] eqn:Hf.
  2: { exists r, w. split_and!; [done| |done]. apply Hpre0.
       intros id c Hl Hm. destruct (is_mine_find r c id item) as [_ ?]; [done..|congruence]. }
  apply find_Some in Hf as [Hl Hgc]. set (id := wi_connection_id item) in *.
  destruct (reg_conn r Hreg id c Hl) as (Hcid & Hcfd & _).
  destruct (lp_conn _ _ _ _ Hpre id c Hl) as (i & o & Hs & Hb & Hc). specialize (Hc (λ f, f)).
  assert (is_mine c item) as Hmi by (by split).
  specialize (Hpre0 (λ x, x = id) ltac:(intros id2 c2 Hl2 Hm; by apply (is_mine_find r c2))).
  unfold conn_inv in Hc. rewrite mine_owing, decide_True, <-past_settled, <-(mine_settled c item) in Hc by done.
  rewrite <-Hled in Hc.
  assert (req_answer answers c (wi_sequence item) (ReqCommand (wi_command item)) (co_response co)) as Hans.
  { left. rewrite Hcid, Hgc. by destruct item. }
  destruct (respond_spec w0 cfg (past_of c (ledger w)) (wi_sequence item) (ReqCommand (wi_command item)) (co_response co) c i o
    (mine c (ledger w)) w)
    as (c1 & w1 & ok1 & Hrun1 & Hu1 & Hb1 & Hsame1 & Hin1 & _ & Hinv1); [apply Hpre|exact Hc|done|].
  rewrite Hrun1. cbn [mbind option_bind]. rewrite <-Hgc. destruct ok1; simpl.
  - assert (conn_generation c = conn_generation c1) as -> by (symmetry; apply Hsame1).
    eapply resume_input_inv; eauto.
  - destruct Hu1 as (Hok1 & Hs1 & Ha1 & How1).
    destruct (put_close_inv _ _ r w id c c1 w1 i o [] Hpre0) as (r' & w' & -> & Hinv' & How' & _ & Hn);
      try done; [by rewrite Hs1, insert_id|apply Hpre0|].
    exists r', w'. split_and!; [done..|]. unfold owed. rewrite How'. simpl. lia.
Qed.

Lemma drain_eventfd_spec fuel w :
  world_ok w → (wakeups w < fuel)%nat → ∃ w', drain_eventfd fuel w = Some w' ∧ undisturbed w w'.
Proof.
  revert w. induction fuel as [|fuel IH]; intros w Hok Hf; [lia|]. simpl.
  destruct (wakeup_read w) as [w1 more] eqn:E. eapply wakeup_law in E as [Hu Hn]; [|done].
  destruct more; [|by exists w1]. destruct (IH w1) as (w' & Hrun & Hu'); [apply Hu|specialize (Hn eq_refl); lia|].
  exists w'. split; [done|]. by eapply undisturbed_trans.
Qed.

(** ** New connections *)

(** Since [w0] a call of [accept4], the one that led to [w'], has failed for a
    reason other than an empty backlog or a transient one. *)
Definition accept_failed (e : exn) (w' : W) : Prop :=
  ∃ w errno, world_ok w ∧ sys_accept4 w = (w', inr errno) ∧
    errno ≠ EAGAIN ∧ errno ≠ EINTR ∧ errno ≠ ECONNABORTED ∧
    e = SystemError errno (lit "Listener: accept4() failed").

Lemma accept_one_spec fuel w :
  world_ok w → (backlog w < fuel)%nat →
  ∃ w' res, accept_one fuel w = Some (w', res) ∧ world_ok w' ∧ ledger w' ≡ₚ ledger w ∧
    match res with
    | Accepted fd _ => 0 ≤ fd ∧ socks w !! fd = None ∧ socks w' = <[fd := ([], [])]> (socks w) ∧
        accepts w' = accepts w + 1 ∧ (backlog w' < backlog w)%nat
    | NoneAccepted => socks w' = socks w ∧ accepts w' = accepts w
    | AcceptThrow e => accept_failed e w'
    end.
Proof.
  revert w. induction fuel as [|fuel IH]; intros w Hok Hf; [lia|]. cbn [accept_one].
  destruct (sys_accept4 w) as [w1 res] eqn:E. pose proof E as (Hok1 & How1 & Hres)%(accept_law (w0 := w0)); [|done].
  destruct res as [[[fd addr] port]|e].
  { eexists _, _. split; [done|]. by destruct Hres as (? & ? & ? & ? & ?). }
  destruct Hres as (Hs1 & Ha1 & Hn). destruct (bool_decide (e = EAGAIN) || _) eqn:Ea.
  { eexists _, _. split; [done|]. by split_and!. }
  apply orb_false_iff in Ea as [Ea%bool_decide_eq_false _].
  destruct (bool_decide (e = EINTR) || bool_decide (e = ECONNABORTED)) eqn:Ee.
  2: { apply orb_false_iff in Ee as [?%bool_decide_eq_false ?%bool_decide_eq_false].
       eexists _, _. split; [done|]. split_and!; [done..|]. by exists w, e. }
  apply orb_true_iff in Ee. rewrite !bool_decide_eq_true in Ee. specialize (Hn Ee).
  destruct (IH w1) as (w' & res & Hrun & Hok' & How' & Hres); [done|lia|].
  exists w', res. rewrite Hrun. split_and!; auto; [by rewrite How'|].
  destruct res; rewrite ?Hs1, ?Ha1 in Hres; [|done..]. split_and!; try apply Hres.
  destruct Hres as (_ & _ & _ & _ & ?). lia.
Qed.

(** ** A connection just accepted *)
Definition config_ok : Prop :=
  0 < max_input_bytes cfg ≤ UINT64_MAX ∧ 0 < max_output_bytes cfg ≤ UINT64_MAX ∧
  0 ≤ max_in_flight_per_connection cfg.

Lemma fresh_conn_inv fd gen peer ow :
  config_ok → Forall (λ it, wi_connection_generation it < gen ∧ valid_command (wi_command it)) ow.*1 →
  let c := mkConnection fd gen fd peer (mkBoundedBuffer [] (max_input_bytes cfg))
             (mkBoundedBuffer [] (max_output_bytes cfg)) make_sequencer in
  conn_bufs cfg c ∧ conn_inv answers cfg c [] [] ow.
Proof.
  intros (Hi & Ho & Hm) How c.
  assert (conn_bufs cfg c) as Hb by (constructor; simpl; try done; split; simpl; len_lia).
  split; [done|]. split; [done|]. exists [], [], ∅, []. unfold conn_inv.
  assert (Forall (λ it, ¬ is_mine c it) ow.*1) as Hno.
  { eapply Forall_impl; [done|]. simpl. intros it [Hlt _] [_ Hg]. simpl in Hg. lia. }
  assert (Forall (λ it, ¬ is_mine c it) (unpaid ow)) as Hno'.
  { apply Forall_forall. intros it (e & -> & [_ He]%list_elem_of_filter)%list_elem_of_fmap.
    eapply Forall_forall in Hno; [done|]. by apply list_elem_of_fmap_2. }
  unfold mine, past_of. rewrite !(filter_mine_none c) by done.
  constructor; auto using make_sequencer_inv; try done.
  - constructor.
  - intros k q. split; [by intros ?%elem_of_nil|]. by intros (_ & ? & _).
Qed.

(** Registering it. *)
Lemma add_inv fd peer r w w' :
  config_ok → loop_inv r w → world_ok w' → ledger w' ≡ₚ ledger w → socks w !! fd = None →
  socks w' = <[fd := ([], [])]> (socks w) → accepts w' = accepts w + 1 →
  ∃ r' c, add fd peer (max_input_bytes cfg) (max_output_bytes cfg) r = (r', [], Ok c) ∧
    loop_inv r' w' ∧ connections_ r' !! fd = Some c ∧ conn_id c = fd.
Proof.
  intros Hcfg [Hok Hreg Hgen Hc Hsk Hge Hnd] Hok' How Hfd Hs Ha. pose proof Hcfg as (Hi & Ho & _).
  assert (connections_ r !! fd = None) as Hnone.
  { destruct (connections_ r !! fd) eqn:E; [|done]. destruct (Hc _ _ E) as (? & ? & ? & _). congruence. }
  pose proof (accepts_bound w' Hok') as Hab.
  pose proof (add_wf fd peer (max_input_bytes cfg) (max_output_bytes cfg) r Hreg ltac:(lia)) as Hwf.
  destruct (add_spec fd peer (max_input_bytes cfg) (max_output_bytes cfg) r) as [(_ & _ & E)|[? _]]; [|lia].
  rewrite E in Hwf |- *. unfold erased, put in *. rewrite Hnone. simpl in *. rewrite insert_delete_eq in *.
  set (c := mkConnection fd (next_generation_ r) fd peer _ _ _) in *.
  assert (c = mkConnection fd (next_generation_ r) fd peer (mkBoundedBuffer [] (max_input_bytes cfg))
    (mkBoundedBuffer [] (max_output_bytes cfg)) make_sequencer) as Hcv by done. clearbody c.
  eexists _, c. split; [done|].
  rewrite u64_small in * by (unfold in_u64; lia).
  destruct (fresh_conn_inv fd (next_generation_ r) peer (ledger w) Hcfg Hge) as [Hb Hinv]. rewrite <-Hcv in Hb, Hinv.
  assert (ledger w ≡ₚ ledger w') as How' by (by symmetry).
  split_and!; [|simpl; apply lookup_insert_eq|by rewrite Hcv].
  apply (loop_pre_mono (λ _, False) _ (ledger w)); [done|done|]. constructor; simpl; auto.
  - lia.
  - intros id c2 [[<- <-]|[Hne Hl]]%lookup_insert_Some; rewrite Hs.
    + exists [], []. rewrite lookup_insert_eq. done.
    + destruct (Hc id c2 Hl) as (i & o & ? & ? & ?). exists i, o. by rewrite lookup_insert_ne.
  - intros fd2. rewrite Hs, !lookup_insert_is_Some. naive_solver.
  - eapply Forall_impl; [done|]. simpl. intros it [? ?]. split; [lia|done].
Qed.

Lemma handle_listener_inv fuel r w :
  config_ok → loop_inv r w → (backlog w < fuel)%nat →
  ∃ res w', handle_listener_readable cfg fuel r w = Some (res, w') ∧
    match res with
    | Ok r' => loop_inv r' w'
    | Throw e => world_ok w' ∧ accept_failed e w'
    end.
Proof.
  intros Hcfg. revert r w. induction fuel as [|fuel IH]; intros r w Hinv Hf; [lia|].
  cbn [handle_listener_readable].
  destruct (accept_one_spec (S fuel) w) as (w1 & res & -> & Hok1 & How1 & Hres); [apply Hinv|lia|].
  cbn [mbind option_bind]. destruct res as [fd peer| |e].
  - destruct Hres as (_ & Hfd & Hs1 & Ha1 & Hlt).
    destruct (add_inv fd peer r w w1) as (r1 & c & -> & Hinv1 & Hl & Hid); [done..|]. simpl.
    destruct (sys_epoll_ctl EPOLL_CTL_ADD fd EPOLLIN w1) as [w2 ok] eqn:Ee.
    eapply epoll_law in Ee as [Hu Hb2]; [|done].
    pose proof (loop_inv_undisturbed _ _ _ Hu Hinv1) as Hinv2. destruct ok; [apply IH; [done|lia]|].
    set (text := "resource limit: epoll_ctl(ADD) failed for a new connection, dropping it"%string).
    assert (Hw3 : undisturbed w2 (warn cfg text w2) ∧ (backlog (warn cfg text w2) ≤ backlog w2)%nat).
    { unfold warn. destruct (logger cfg); [apply log_law, Hu|]. split; [apply undisturbed_refl, Hu|done]. }
    destruct Hw3 as [Hu3 Hb3]. set (w3 := warn cfg text w2) in *.
    rewrite registry_close_spec, Hid.
    assert (find fd (conn_generation c) r1 = Some c) as -> by (by apply find_Some).
    destruct (reg_conn r1 (lp_reg _ _ _ _ Hinv1) fd c Hl) as (_ & Hcfd & _).
    destruct (erase_inv fd r1 w3 (ledger w3)) as (Hpre & How & Hb4).
    { apply (loop_pre_mono (λ _, False) _ (ledger w3)); [done|done|]. by eapply loop_inv_undisturbed. }
    simpl. rewrite Hcfd. apply IH; [|lia]. by apply (loop_pre_mono (λ _, False) _ (ledger w3)).
  - exists (Ok r), w1. split; [done|]. eapply loop_inv_undisturbed; [|exact Hinv]. destruct Hres. by split_and!.
  - by exists (Throw e), w1.
Qed.

End Handlers.

(** ** The event loop *)
Section Main.
Context {W : Type} `{!World W, !WorldView W, !WorldLaws W}.
Context (cfg : EventLoopConfig) (wakeup_fd_ listener_fd_ : Z).
Implicit Types (w : W) (r : ConnectionRegistry) (c : Connection).

(** The invariant between handlers: everything answered so far is known. *)
Definition loop_ok r w : Prop := loop_inv w cfg r w.

(** Learning the answers given since [w0]. *)
Lemma loop_pre_rebase w0 skip ow r w : loop_pre w0 cfg skip ow r w → loop_pre w cfg skip ow r w.
Proof.
  intros [[Hok Hext] Hreg Hgen Hc Hsk Hge Hnd]. constructor; auto; [by split|].
  intros id c Hl. destruct (Hc id c Hl) as (i & o & ? & ? & Hinv). exists i, o. split_and!; auto.
  intros Hn. eapply conn_core_mono; [|by apply Hinv]. intros it resp. by apply answered_mono.
Qed.

Lemma loop_inv_ok w0 r w : loop_inv w0 cfg r w → loop_ok r w ∧ extends w0 w.
Proof. intros Hinv. split; [by eapply loop_pre_rebase|apply Hinv]. Qed.

Lemma owed_pop w w1 item l :
  ledger w ≡ₚ (item, true) :: l → ledger w1 ≡ₚ (item, false) :: l → length (owed w) = S (length (owed w1)).
Proof.
  intros H H1. unfold owed. rewrite H, H1. unfold unpaid.
  by rewrite filter_cons_True, filter_cons_False.
Qed.

Lemma drain_completions_inv fuel r w :
  loop_ok r w → (length (owed w) + input_bytes r < fuel)%nat →
  ∃ r' w', drain_completions cfg fuel r w = Some (r', w') ∧ loop_ok r' w' ∧ extends w w'.
Proof.
  revert r w. induction fuel as [|fuel IH]; intros r w Hinv Hf; [lia|]. cbn [drain_completions].
  destruct (completion_try_pop w) as [w1 res] eqn:E.
  eapply pop_law in E as (Hok1 & Hs1 & Ha1 & Hres); [|apply Hinv].
  destruct res as [co|].
  - destruct Hres as (item & l & Hco & Hans & How & How1).
    destruct (handle_completion_inv w1 cfg item co l r w1) as (r2 & w2 & -> & Hinv2 & Hm); [done| |done..|].
    { apply (loop_pre_rebase w), (loop_pre_mono w cfg (λ _, False) _ (ledger w)); [done|done|].
      destruct Hinv as [Hok Hreg Hgen Hc Hsk Hge Hnd]. constructor; auto; rewrite ?Ha1, ?Hs1; done. }
    apply loop_inv_ok in Hinv2 as [Hinv2 Hx2]. cbn [mbind option_bind].
    destruct (IH r2 w2) as (r' & w' & Hrun & Hinv' & Hx'); [done| |].
    { pose proof (owed_pop _ _ _ _ How How1). lia. }
    exists r', w'. split_and!; [done..|]. destruct Hok1 as [_ Hx1]. by do 2 (etrans; [done|]).
  - exists r, w1. split; [done|]. apply loop_inv_ok. eapply loop_inv_undisturbed; [|exact Hinv]. by split_and!.
Qed.

Lemma drain_wakeup_inv r w :
  loop_ok r w →
  ∃ n, ∀ fuel, (n ≤ fuel)%nat →
    ∃ r' w', drain_wakeup cfg fuel r w = Some (r', w') ∧ loop_ok r' w' ∧ extends w w'.
Proof.
  intros Hinv. exists (S (wakeups w + (length (owed w) + input_bytes r))). intros fuel Hf.
  destruct (drain_eventfd_spec w fuel w) as (w1 & Hrun & Hu); [apply Hinv|lia|].
  unfold drain_wakeup. rewrite Hrun. cbn [mbind option_bind].
  destruct (loop_inv_ok w r w1) as [Hinv1 Hx1]; [by eapply loop_inv_undisturbed|].
  destruct (drain_completions_inv fuel r w1 Hinv1) as (r' & w' & ? & ? & Hx').
  { destruct Hu as (_ & _ & _ & How). unfold owed in *. rewrite How. lia. }
  exists r', w'. split_and!; [done..|]. by etrans.
Qed.

(** ** More fuel does not change a result *)
Lemma read_loop_mono fuel fuel' c w x :
  (fuel ≤ fuel')%nat → read_loop cfg fuel c w = Some x → read_loop cfg fuel' c w = Some x.
Proof.
  revert fuel' c w. induction fuel as [|fuel IH]; intros [|fuel'] c w Hle; try done; [lia|]. cbn [read_loop].
  destruct (read_into _ _ w) as [[w1 b] out]. destruct (read_status out); try done.
  destruct (process_input cfg _ w1) as [[[c2 w2] ok]|]; simpl; [|done].
  destruct ok; simpl; [|done]. apply IH. lia.
Qed.

Lemma drain_completions_mono fuel fuel' r w x :
  (fuel ≤ fuel')%nat → drain_completions cfg fuel r w = Some x → drain_completions cfg fuel' r w = Some x.
Proof.
  revert fuel' r w. induction fuel as [|fuel IH]; intros [|fuel'] r w Hle; try done; [lia|].
  cbn [drain_completions]. destruct (completion_try_pop w) as [w1 [co|]]; [|done].
  destruct (handle_completion cfg co r w1) as [[r2 w2]|]; simpl; [|done]. apply IH. lia.
Qed.

Lemma drain_eventfd_mono fuel fuel' w x :
  (fuel ≤ fuel')%nat → drain_eventfd fuel w = Some x → drain_eventfd fuel' w = Some x.
Proof.
  revert fuel' w. induction fuel as [|fuel IH]; intros [|fuel'] w Hle; try done; [lia|].
  cbn [drain_eventfd]. destruct (wakeup_read w) as [w1 [|]]; [|done]. apply IH. lia.
Qed.

Lemma accept_one_mono fuel fuel' w x :
  (fuel ≤ fuel')%nat → accept_one fuel w = Some x → accept_one fuel' w = Some x.
Proof.
  revert fuel' w. induction fuel as [|fuel IH]; intros [|fuel'] w Hle; try done; [lia|].
  cbn [accept_one]. destruct (sys_accept4 w) as [w1 [[[fd a] p]|e]]; [done|].
  destruct (_ || _); [done|]. destruct (_ || _); [|done]. apply IH. lia.
Qed.

Lemma handle_listener_mono fuel fuel' r w x :
  (fuel ≤ fuel')%nat → handle_listener_readable cfg fuel r w = Some x →
  handle_listener_readable cfg fuel' r w = Some x.
Proof.
  revert fuel' r w. induction fuel as [|fuel IH]; intros [|fuel'] r w Hle; try done; [lia|].
  cbn [handle_listener_readable].
  destruct (accept_one (S fuel) w) as [[w1 res]|] eqn:E; [|done].
  rewrite (accept_one_mono (S fuel) (S fuel') _ _ ltac:(lia) E). simpl. destruct res as [fd p| |e]; [|done..].
  destruct (add _ _ _ _ r) as [[r1 fds] [c|e]]; [|done].
  destruct (sys_epoll_ctl _ _ _ _) as [w2 [|]]; [apply IH; lia|].
  destruct (registry_close _ _ r1) as [[r2 b] fds2]. apply IH. lia.
Qed.

Lemma handle_connection_readable_mono fuel fuel' id r w x :
  (fuel ≤ fuel')%nat → handle_connection_readable cfg fuel id r w = Some x →
  handle_connection_readable cfg fuel' id r w = Some x.
Proof.
  intros Hle. unfold handle_connection_readable. destruct (find_current id r); [|done].
  destruct (read_loop cfg fuel _ w) eqn:E; [|done]. by rewrite (read_loop_mono fuel fuel' _ _ _ Hle E).
Qed.

Lemma drain_wakeup_mono fuel fuel' r w x :
  (fuel ≤ fuel')%nat → drain_wakeup cfg fuel r w = Some x → drain_wakeup cfg fuel' r w = Some x.
Proof.
  intros Hle. unfold drain_wakeup. destruct (drain_eventfd fuel w) eqn:E; [|done].
  rewrite (drain_eventfd_mono fuel fuel' _ _ Hle E). simpl. by apply drain_completions_mono.
Qed.

Lemma handle_event_mono fuel fuel' fd flags r w x :
  (fuel ≤ fuel')%nat → handle_event cfg wakeup_fd_ listener_fd_ fuel fd flags r w = Some x →
  handle_event cfg wakeup_fd_ listener_fd_ fuel' fd flags r w = Some x.
Proof.
  intros Hle. unfold handle_event. case_bool_decide.
  { destruct (drain_wakeup cfg fuel r w) eqn:E; [|done]. by rewrite (drain_wakeup_mono fuel fuel' _ _ _ Hle E). }
  case_bool_decide; [by apply handle_listener_mono|]. case_bool_decide; [done|].
  destruct (bool_decide (Z.land flags EPOLLIN ≠ 0)); [|done].
  destruct (handle_connection_readable cfg fuel fd r w) eqn:E; [|done].
  by rewrite (handle_connection_readable_mono fuel fuel' _ _ _ _ Hle E).
Qed.

Lemma run_iteration_mono fuel fuel' r w x :
  (fuel ≤ fuel')%nat → run_iteration cfg wakeup_fd_ listener_fd_ fuel r w = Some x →
  run_iteration cfg wakeup_fd_ listener_fd_ fuel' r w = Some x.
Proof.
  intros Hle. unfold run_iteration. destruct (stop_requested w) as [w1 [|]]; [done|].
  destruct (sys_epoll_wait w1) as [w2 [events|e]]; [|done].
  assert (∀ events r w y, handle_events cfg wakeup_fd_ listener_fd_ fuel events r w = Some y →
    handle_events cfg wakeup_fd_ listener_fd_ fuel' events r w = Some y) as Hmono.
  { clear -Hle. induction events as [|[fd flags] events IH]; intros r w y; simpl; [done|].
    destruct (handle_event _ _ _ fuel fd flags r w) as [[res w1]|] eqn:E; [|done].
    rewrite (handle_event_mono fuel fuel' _ _ _ _ _ Hle E). simpl. destruct res; [apply IH|done]. }
  destruct (handle_events _ _ _ fuel events r w2) eqn:E; [|done]. by rewrite (Hmono _ _ _ _ E).
Qed.

(** ** One event, one batch, one iteration *)

(** What a handler may end with. *)
Definition handled w (res : result ConnectionRegistry) w' : Prop :=
  match res with
  | Ok r => loop_ok r w' ∧ extends w w'
  | Throw e => world_ok w w' ∧ accept_failed w e w'
  end.

Lemma accept_failed_mono w w1 e w' : extends w w1 → accept_failed w1 e w' → accept_failed w e w'.
Proof.
  intros Hx (wa & errno & [? ?] & ?). exists wa, errno. split; [|done]. split; [done|by etrans].
Qed.

Lemma handled_mono w w1 res w' : extends w w1 → handled w1 res w' → handled w res w'.
Proof.
  intros Hx. destruct res as [r|e]; simpl; [intros [? ?]; split; [done|by etrans]|].
  intros [[? ?] Hf]. split; [split; [done|by etrans]|by eapply accept_failed_mono].
Qed.

Lemma handle_event_inv fd flags r w :
  config_ok cfg → loop_ok r w →
  ∃ n res w', handled w res w' ∧
    ∀ fuel, (n ≤ fuel)%nat → handle_event cfg wakeup_fd_ listener_fd_ fuel fd flags r w = Some (res, w').
Proof.
  intros Hcfg Hinv. unfold handle_event. case_bool_decide.
  { destruct (drain_wakeup_inv r w Hinv) as [n Hn]. destruct (Hn n ltac:(done)) as (r' & w' & Hrun & Hinv' & Hx).
    exists n, (Ok r'), w'. split; [done|]. intros fuel Hle. by rewrite (drain_wakeup_mono n fuel _ _ _ Hle Hrun). }
  case_bool_decide.
  { destruct (handle_listener_inv w cfg (S (backlog w)) r w Hcfg Hinv) as (res & w' & Hrun & Hres); [lia|].
    exists (S (backlog w)), res, w'. split; [destruct res; [by apply loop_inv_ok|done]|]. intros fuel Hle. by eapply handle_listener_mono. }
  case_bool_decide.
  { exists 0%nat. destruct (find_current fd r) as [c|] eqn:Hfc; [|exists (Ok r), w; split; [by apply (loop_inv_ok w)|done]].
    destruct (find_current_Some fd r c (lp_reg _ _ _ _ _ _ Hinv) Hfc) as (_ & _ & Hf).
    destruct (close_connection_inv w cfg fd (conn_generation c) c r w (ledger w)) as (r' & w' & -> & Hinv' & _); [|done..|].
    - by apply (loop_pre_mono _ _ (λ _, False) _ (ledger w)).
    - exists (Ok r'), w'. split; [by apply loop_inv_ok|done]. }
  assert (∃ n r1 w1, loop_inv w cfg r1 w1 ∧ ∀ fuel, (n ≤ fuel)%nat →
    (if bool_decide (Z.land flags EPOLLIN ≠ 0) then handle_connection_readable cfg fuel fd r w
     else Some (r, w)) = Some (r1, w1)) as (n & r1 & w1 & Hinv1 & Hrun).
  { case_bool_decide; [|by exists 0%nat, r, w].
    destruct (handle_connection_readable_inv w cfg fd r w Hinv) as [n Hn].
    destruct (Hn n ltac:(done)) as (r1 & w1 & Hrun & Hinv1). exists n, r1, w1. split; [done|].
    intros fuel Hle. by eapply handle_connection_readable_mono. }
  assert (∃ r2 w2, loop_inv w cfg r2 w2 ∧
    (if bool_decide (Z.land flags EPOLLOUT ≠ 0 ∧ find_current fd r1 ≠ None)
     then handle_connection_writable fd r1 w1 else Some (r1, w1)) = Some (r2, w2)) as (r2 & w2 & Hinv2 & Hrun2).
  { clear Hrun. case_bool_decide; [|by exists r1, w1].
    destruct (handle_connection_writable_inv w cfg fd r1 w1 Hinv1) as (r2 & w2 & ? & ? & _). by exists r2, w2. }
  exists n, (Ok r2), w2. split; [by apply loop_inv_ok|]. intros fuel Hle. rewrite (Hrun fuel Hle). simpl. by rewrite Hrun2.
Qed.

Lemma handle_events_inv events r w :
  config_ok cfg → loop_ok r w →
  ∃ n res w', handled w res w' ∧
    ∀ fuel, (n ≤ fuel)%nat → handle_events cfg wakeup_fd_ listener_fd_ fuel events r w = Some (res, w').
Proof.
  intros Hcfg. revert r w. induction events as [|[fd flags] events IH]; intros r w Hinv.
  { exists 0%nat, (Ok r), w. split; [by apply (loop_inv_ok w)|done]. }
  destruct (handle_event_inv fd flags r w Hcfg Hinv) as (n & res & w1 & Hh & Hrun). destruct res as [r1|e].
  - destruct Hh as [Hok1 Hx1]. destruct (IH r1 w1 Hok1) as (n' & res & w' & Hh' & Hrun').
    exists (Nat.max n n'), res, w'. split.
    { by eapply handled_mono. }
    intros fuel Hle. simpl. rewrite Hrun by lia. simpl. apply Hrun'. lia.
  - exists n, (Throw e), w1. split; [done|]. intros fuel Hle. simpl. by rewrite Hrun.
Qed.

(** The wait of the iteration that starts in [w] has failed, and not because a
    signal interrupted it. *)
Definition epoll_wait_failed w (e : exn) w' : Prop :=
  ∃ w1 errno, stop_requested w = (w1, false) ∧ sys_epoll_wait w1 = (w', inr errno) ∧ errno ≠ EINTR ∧
    e = SystemError errno (lit "EventLoop: epoll_wait() failed").

(** What [run] may come to. *)
Definition run_state_ok w (st : RunState) w' : Prop :=
  match st with
  | Running r | Returned r => loop_ok r w' ∧ extends w w'
  | Failed e => world_ok w w' ∧ (epoll_wait_failed w e w' ∨ accept_failed w e w')
  end.

Lemma run_iteration_inv r w :
  config_ok cfg → loop_ok r w →
  ∃ n st w', run_state_ok w st w' ∧
    ∀ fuel, (n ≤ fuel)%nat → run_iteration cfg wakeup_fd_ listener_fd_ fuel r w = Some (st, w').
Proof.
  intros Hcfg Hinv. unfold run_iteration. destruct (stop_requested w) as [w1 stop] eqn:Es.
  pose proof Es as Hu1%(stop_law (w0 := w)); [|apply Hinv].
  pose proof (loop_inv_undisturbed _ _ _ _ _ Hu1 Hinv) as Hinv1.
  destruct stop; [exists 0%nat, (Returned r), w1; split; [by apply loop_inv_ok|done]|].
  destruct (sys_epoll_wait w1) as [w2 n] eqn:Ew. pose proof Ew as Hu2%(epoll_wait_law (w0 := w)); [|apply Hinv1].
  pose proof (loop_inv_undisturbed _ _ _ _ _ Hu2 Hinv1) as Hinv2.
  apply loop_inv_ok in Hinv2 as [Hinv2 Hx2]. destruct n as [events|errno].
  - destruct (handle_events_inv events r w2 Hcfg Hinv2) as (n & res & w' & Hh & Hrun).
    exists n, (match res with Ok r => Running r | Throw e => Failed e end), w'. split.
    + apply (handled_mono w) in Hh; [|done]. destruct res; [done|]. destruct Hh. split; [done|by right].
    + intros fuel Hle. rewrite Hrun by done. simpl. by destruct res.
  - case_bool_decide; [by exists 0%nat, (Running r), w2|].
    eexists 0%nat, (Failed _), w2. split; [|done]. split; [split; [apply Hinv2|done]|]. left. by exists w1, errno.
Qed.

(** [run] returns only at the test of the stop flag. *)
Lemma run_returned fuel r w r' w' :
  run_iteration cfg wakeup_fd_ listener_fd_ fuel r w = Some (Returned r', w') → r' = r ∧ stop_requested w = (w', true).
Proof.
  unfold run_iteration. destruct (stop_requested w) as [w1 [|]]; [by intros [= <- <-]|].
  destruct (sys_epoll_wait w1) as [w2 [events|e]]; [|by case_bool_decide].
  destruct (handle_events _ _ _ fuel events r w2) as [[[] ?]|]; done.
Qed.

(** ** Runs of the event loop *)
Definition iterates (s s' : ConnectionRegistry * W) : Prop :=
  ∃ fuel, run_iteration cfg wakeup_fd_ listener_fd_ fuel s.1 s.2 = Some (Running s'.1, s'.2).

(** The world when [run] is called: no client, no work. *)
Definition world_fresh w : Prop :=
  world_inv w ∧ socks w = ∅ ∧ accepts w = 0 ∧ ledger w = [].

Definition reachable r w : Prop :=
  ∃ w0, world_fresh w0 ∧ rtc iterates (make_registry, w0) (r, w).

Lemma fresh_inv w : world_fresh w → loop_ok make_registry w.
Proof.
  intros (Hok & Hs & Ha & How). constructor; simpl; auto using make_registry_wf; try lia.
  - by split.
  - done.
  - rewrite Hs. by intros fd [? ?].
  - rewrite How. constructor.
  - rewrite How. constructor.
Qed.

Lemma iterates_inv s s' : config_ok cfg → iterates s s' → loop_ok s.1 s.2 → loop_ok s'.1 s'.2 ∧ extends s.2 s'.2.
Proof.
  intros Hcfg [fuel Hrun] Hinv. destruct (run_iteration_inv s.1 s.2 Hcfg Hinv) as (n & st & w' & Hst & Hn).
  specialize (Hn (Nat.max n fuel) ltac:(lia)).
  apply (run_iteration_mono fuel (Nat.max n fuel)) in Hrun; [|lia]. rewrite Hrun in Hn.
  by injection Hn as <- <-.
Qed.

Lemma iterates_steps s s' :
  config_ok cfg → rtc iterates s s' → loop_ok s.1 s.2 → loop_ok s'.1 s'.2 ∧ extends s.2 s'.2.
Proof.
  intros Hcfg. induction 1 as [s|s s1 s' H1 _ IH]; intros Hinv; [by split|].
  apply iterates_inv in H1 as [Hinv1 Hx1]; [|done..]. apply IH in Hinv1 as [Hinv' Hx']. split; [done|]. by etrans.
Qed.

Lemma reachable_inv r w : config_ok cfg → reachable r w → loop_ok r w.
Proof.
  intros Hcfg (w0 & Hfresh%fresh_inv & Hsteps). by apply iterates_steps in Hsteps as [? _].
Qed.

(** ** Properties *)

(** C2. End-to-end correctness of a connection.  In every reachable state of
    the event loop, for every connection: the bytes the socket has delivered
    are a sequence of complete frames, each of them one request, followed by
    the bytes waiting in the input buffer; the bytes sent to the client
    followed by those in the output buffer are exactly the responses to the
    first requests, each complete, in request order, and the k-th response
    answers the k-th request (the worker's answer to its command, the
    busy/shutdown error, or the protocol error it deserves).  At most
    [max_in_flight_per_connection] requests are unanswered and both buffers
    are within their caps. *)
Theorem responses_match_requests r w id c :
  config_ok cfg → reachable r w → find_current id r = Some c →
  ∃ i o fs reqs outs, socks w !! id = Some (i, o) ∧
    i = concat fs ++ data_ (input_ c) ∧ Forall2 frame_request fs reqs ∧
    o ++ data_ (output_ c) = concat outs ∧
    (∀ k resp, outs !! k = Some resp → ∃ q, reqs !! k = Some q ∧ req_answer (answered w) c (Z.of_nat k) q resp) ∧
    len outs ≤ len reqs ≤ len outs + max_in_flight_per_connection cfg ∧
    buffer_size (input_ c) ≤ max_input_bytes cfg ∧ buffer_size (output_ c) ≤ max_output_bytes cfg.
Proof.
  intros Hcfg Hr Hl. apply reachable_inv in Hr; [|done].
  destruct (lp_conn _ _ _ _ _ _ Hr id c Hl) as (i & o & Hs & _ & Hinv). specialize (Hinv (λ f, f)).
  destruct Hinv as [[[? _] [? _] <- <-] (fs & reqs & g & outs & [Hi Hfs Hcnt Hseq Hans Ho _ _ Hif])].
  exists i, o, fs, reqs, outs. pose proof (seq_inv_released _ _ _ Hseq). split_and!; auto; [|lia..].
  intros k resp Hk. destruct (inv_run _ _ _ Hseq) as [Hrun _]. apply Hrun in Hk.
  apply Hans in Hk. by rewrite Z.add_0_l, Nat2Z.id in Hk.
Qed.

(** The requests of a connection that are owed, by sequence number: the
    items are distinct, each is the command of its frame, and they are those
    that are neither released nor waiting in the sequencer. *)
Lemma owed_requests A past c i o ow fs reqs g outs :
  conn_ghost A cfg past c i o (mine c ow) fs reqs g outs →
  let own := filter (is_mine c) (unpaid ow) in
  NoDup (wi_sequence <$> own) ∧
  (∀ it, it ∈ own → reqs !! Z.to_nat (wi_sequence it) = Some (ReqCommand (wi_command it))) ∧
  (∀ k, k ∈ wi_sequence <$> own ↔ len outs ≤ k < len reqs ∧ pending_ (sequencer_ c) !! k = None).
Proof.
  intros [_ _ Hcnt Hseq _ _ Hnd Hp _] own. change (mine c ow) with (item_request <$> own) in *.
  assert (Hit : ∀ it, it ∈ own → 0 ≤ wi_sequence it ∧
    reqs !! Z.to_nat (wi_sequence it) = Some (ReqCommand (wi_command it)) ∧ g !! wi_sequence it = None).
  { intros it Hin. apply Hp. by apply (list_elem_of_fmap_2 item_request). }
  split_and!.
  - apply NoDup_fmap_1 in Hnd as Hown. apply NoDup_fmap_2_strong; [|done]. intros it it' H1 H2 Heq.
    apply Hit in H1 as H1', H2 as H2'. destruct H1' as (_ & Hq & _), H2' as (_ & Hq' & _).
    apply list_elem_of_filter in H1 as [[] _], H2 as [[] _]. rewrite Heq in Hq.
    destruct it, it'; simpl in *. congruence.
  - intros it Hin. by apply Hit.
  - intros k. rewrite (inv_pending _ _ _ Hseq). destruct (inv_run _ _ _ Hseq) as [Hrun _]. split.
    + intros (it & -> & Hin)%list_elem_of_fmap. apply Hit in Hin as (Hk & Hq & Hg).
      assert (len outs ≤ wi_sequence it).
      { destruct (decide (len outs ≤ wi_sequence it)) as [|Hlt]; [done|].
        destruct (lookup_lt_is_Some_2 outs (Z.to_nat (wi_sequence it))) as [resp Hr]; [unfold len in *; lia|].
        apply Hrun in Hr. rewrite Z.add_0_l, Z2Nat.id in Hr by done. congruence. }
      apply lookup_lt_Some in Hq. case_bool_decide; split; try done; unfold len in *; lia.
    + intros [Hk Hn]. rewrite bool_decide_false in Hn by lia. pose proof (len_nonneg outs).
      destruct (lookup_lt_is_Some_2 reqs (Z.to_nat k)) as [q Hq]; [unfold len in *; lia|].
      assert ((k, q) ∈ item_request <$> own) as (it & [= -> _] & Hin)%list_elem_of_fmap.
      { apply Hp. split_and!; [lia|done|done]. }
      by apply (list_elem_of_fmap_2 wi_sequence).
Qed.

(** C10. No request is lost.  In every reachable state the bytes delivered on
    a connection are frames [fs] with their requests [reqs] and the bytes
    still buffered; the requests without a response, that is those neither
    released in order nor recorded out of order, are exactly those the
    workers owe an answer to: each is owed once, as the command of its frame.
    While requests are in flight the next response to release is one of them,
    so a connection for which nothing is owed has every request answered. *)
Theorem no_request_lost r w id c :
  config_ok cfg → reachable r w → find_current id r = Some c →
  let own := filter (is_mine c) (owed w) in
  ∃ i o fs reqs, socks w !! id = Some (i, o) ∧ i = concat fs ++ data_ (input_ c) ∧
    Forall2 frame_request fs reqs ∧
    NoDup (wi_sequence <$> own) ∧
    (∀ it, it ∈ own → reqs !! Z.to_nat (wi_sequence it) = Some (ReqCommand (wi_command it))) ∧
    (∀ k, k ∈ wi_sequence <$> own ↔
       next_expected_ (sequencer_ c) ≤ k < len reqs ∧ pending_ (sequencer_ c) !! k = None) ∧
    in_flight_count (sequencer_ c) = len reqs - next_expected_ (sequencer_ c) ∧
    (0 < in_flight_count (sequencer_ c) → next_expected_ (sequencer_ c) ∈ wi_sequence <$> own).
Proof.
  intros Hcfg Hr Hl own. apply reachable_inv in Hr; [|done].
  destruct (lp_conn _ _ _ _ _ _ Hr id c Hl) as (i & o & Hs & _ & Hinv). specialize (Hinv (λ f, f)).
  destruct Hinv as [_ (fs & reqs & g & outs & Hg)]. destruct (owed_requests _ _ _ _ _ _ _ _ _ _ Hg) as (Hnd & Hit & Hk).
  destruct Hg as [Hi Hfs Hcnt Hseq _ _ _ _ _]. destruct (inv_run _ _ _ Hseq) as [_ Hend].
  rewrite (seq_inv_in_flight _ _ _ Hseq), <-Hcnt, (inv_expected _ _ _ Hseq).
  exists i, o, fs, reqs. split_and!; auto. intros Hlt. apply Hk. rewrite (inv_pending _ _ _ Hseq).
  rewrite Z.add_0_l in Hend. rewrite bool_decide_false by lia. split; [lia|done].
Qed.

(** C15. The event loop keeps running.  From every reachable state an
    iteration of [run] returns (every loop of every handler ends, with an
    amount of fuel that depends only on the state), provided that only
    finitely many connections and wake-ups arrive while one handler drains
    them, as the laws of the world ask.  It goes on; or it returns because
    [stop] was requested; or it throws the system error of its own
    [epoll_wait], which failed with an errno other than EINTR, or of an
    [accept4] it made, which failed with one other than EAGAIN, EINTR and
    ECONNABORTED.  Nothing else ends it: no byte a client sends and no error of
    a client's socket. *)
Theorem iteration_returns r w :
  config_ok cfg → reachable r w →
  ∃ n st w', (∀ fuel, (n ≤ fuel)%nat → run_iteration cfg wakeup_fd_ listener_fd_ fuel r w = Some (st, w')) ∧
    match st with
    | Running r' => reachable r' w'
    | Returned r' => r' = r ∧ (stop_requested w).2 = true
    | Failed e => epoll_wait_failed w e w' ∨ accept_failed w e w'
    end.
Proof.
  intros Hcfg Hr. pose proof (reachable_inv r w Hcfg Hr) as Hinv.
  destruct (run_iteration_inv r w Hcfg Hinv) as (n & st & w' & Hst & Hrun).
  exists n, st, w'. split; [done|]. destruct st as [r'|r'|e]; [| |apply Hst].
  - destruct Hr as (w0 & Hf & Hsteps). exists w0. split; [done|]. eapply rtc_r; [done|].
    exists n. by apply Hrun.
  - specialize (Hrun n ltac:(done)). by apply run_returned in Hrun as [-> ->].
Qed.

(** C28. Descriptors do not leak and work is not handed out twice.  In every
    reachable state the open client sockets are exactly those of the
    registered connections, each under its own descriptor and with a
    generation that was never used before; and the items the work queue ever
    accepted are all different, hold commands within the protocol's limits and
    belong to generations already given out. *)
Theorem no_descriptor_leak r w :
  config_ok cfg → reachable r w →
  dom (socks w) = dom (connections_ r) ∧ registry_wf r ∧ next_generation_ r = 1 + accepts w ∧
  Forall (λ it, wi_connection_generation it < next_generation_ r ∧ valid_command (wi_command it)) (issued w) ∧ NoDup (issued w).
Proof.
  intros Hcfg Hr. apply reachable_inv in Hr as [Hok Hreg Hgen Hc Hsk Hge Hnd]; [|done].
  split_and!; auto. apply set_eq. intros fd. rewrite !elem_of_dom. split; [apply Hsk|].
  intros [c Hl]. destruct (Hc fd c Hl) as (i & o & Hs & _). eauto.
Qed.

(** C38. Backpressure at the in-flight cap ends in a close.  A connection at
    its cap of unanswered requests is still read: its bytes stay unparsed in
    the input buffer, and when they fill it the connection is closed, with the
    responses it was waiting for, instead of being left unread until one of
    them is released. *)
Theorem full_input_closes r w id c w1 d fuel :
  config_ok cfg → reachable r w → find_current id r = Some c →
  in_flight_count (sequencer_ c) = max_in_flight_per_connection cfg →
  buffer_size (input_ c) + len d = max_input_bytes cfg → d ≠ [] →
  sys_recv id (Z.min (len d) kReadChunkSize) w = (w1, inl d) →
  ∃ r' w', handle_connection_readable cfg (S (S fuel)) id r w = Some (r', w') ∧ find_current id r' = None.
Proof.
  intros Hcfg Hr Hl Hcap Hroom Hne Hrecv. apply reachable_inv in Hr as Hinv; [|done].
  destruct (find_current_Some id r c (lp_reg _ _ _ _ _ _ Hinv) Hl) as (Hid & Hfd & _).
  destruct (lp_conn _ _ _ _ _ _ Hinv id c Hl) as (i & o & Hs & Hb & _). pose proof Hb as [Hb1 Hb2 Hc1 Hc2].
  unfold buffer_size in Hroom. assert (0 < len d) by (destruct d; [done|len_lia]).
  assert (∃ b1, read_into id (input_ c) w = (w1, b1, mkReadOutcome ReadSome (len d) 0)) as [b1 Hread].
  { unfold read_into, buffer_capacity, buffer_size. rewrite buffer_room, bool_decide_false by (done || lia).
    replace (capacity_ (input_ c) - len (data_ (input_ c))) with (len d) by lia. rewrite Hrecv.
    destruct d; [done|]. destruct (buffer_append _ _) as [b1 ?]. by exists b1. }
  pose proof Hread as (d' & Hok1 & Ha1 & How1 & Hs1 & Hd & Hcap1 & Hwf1 & _ & _ & Hn)%(read_into_spec w id _ w _ _ _ i o);
    [|apply Hinv|done..]. simpl in Hn.
  assert (conn_bufs cfg (with_input b1 c)) as Hb' by (constructor; simpl; congruence || done).
  assert (read_into id b1 w1 = (w1, b1, mkReadOutcome ReadBufferFull 0 0)) as Hfull.
  { unfold read_into, buffer_capacity, buffer_size. rewrite buffer_room by done.
    rewrite bool_decide_true; [done|]. rewrite Hd, Hcap1, len_app. lia. }
  assert (∃ w2, read_loop cfg (S (S fuel)) c w = Some (with_input b1 c, w2, false) ∧ undisturbed w w1 w2)
    as (w2 & Hloop & Hu).
  { assert (process_input cfg (with_input b1 c) w1 = Some (with_input b1 c, w1, true)) as Hstop.
    { unfold process_input. cbn [process_input_loop].
      rewrite bool_decide_true; [done|]. cbn [with_input sequencer_]. lia. }
    cbn [read_loop]. rewrite Hfd, Hread. cbn [read_status]. rewrite Hstop. cbn [mbind option_bind negb].
    change (conn_fd (with_input b1 c)) with (conn_fd c). change (input_ (with_input b1 c)) with b1.
    rewrite Hfd, Hfull. eexists. split; [done|]. by apply warn_undisturbed. }
  unfold handle_connection_readable. rewrite Hl, Hloop. cbn [mbind option_bind negb].
  destruct Hu as (Hok2 & Hs2 & Ha2 & How2).
  destruct (put_close_inv w cfg _ _ r w id c (with_input b1 c) w2 (i ++ d') o [] Hinv)
    as (r' & w' & Hclose & _ & _ & Hgone & _); try done; try congruence; [by rewrite How2|apply Hinv|].
  exists r', w'. by rewrite Hclose.
Qed.
End Main.
