(* ===== verification/WorkerPool.v ===== *)
(** * Worker pool

    Models [src/src/worker/worker_pool.cpp].  A worker is a state machine that
    alternates between the blocking [pop] of the work queue, the dispatch of
    the command on the shared store and the blocking [push] of the completion.
    A step is a [pop], a [push], the beginning of a dispatch, which reads the
    clock, or one critical section of it; a worker without a step is blocked.
    Any interleaving of the workers is a list of steps. *)
From stdpp Require Import relations.
From S2P Require Import Prelude Decimal Parser Serializer Client BoundedQueue World.
From S2P Require Import PriorityQueue Storage StorageInv StorageSpec StorageConc StorageLin Dispatcher.

(** Where a worker is in [worker_main]; the local [item] stays alive until the
    end of the iteration. *)
Inductive WorkerState :=
  | Popping
  | Dispatching (item : WorkItem)
  | Executing (item : WorkItem) (ph : StorePhase)
  | Pushing (item : WorkItem) (completion : Completion)
  | Exited.

#[export] Instance WorkerState_eq_dec : EqDecision WorkerState.
Proof. solve_decision. Defined.

Section Pool.
Context {Q : Type} `{!PriorityQueue ExpirationCandidate ExpirationCandidateOrder Q}.
Context (hash : bytes → Z) {K : Type}.

(** The pool with the queues and the store it shares. *)
Record WorkerPool := mkWorkerPool {
  store_ : Store Q;
  work_queue_ : BoundedQueue WorkItem K;
  completion_queue_ : BoundedQueue Completion K;
  workers_ : list WorkerState;
}.

Definition make_pool (worker_count : Z) (store : Store Q) (work : BoundedQueue WorkItem K)
    (completion : BoundedQueue Completion K) : result WorkerPool :=
  if bool_decide (worker_count = 0) then
    Throw (InvalidArgument (lit "WorkerPool: worker_count must be greater than zero"))
  else Ok (mkWorkerPool store work completion (replicate (Z.to_nat worker_count) Popping)).

(** The destructor closes the work queue, then joins the workers. *)
Definition destroy_pool (p : WorkerPool) : WorkerPool :=
  mkWorkerPool (store_ p) (close (work_queue_ p)) (completion_queue_ p) (workers_ p).

Definition joined (p : WorkerPool) : Prop := Forall (λ s, s = Exited) (workers_ p).

(** The dispatch of [item] goes on, or its response is to be pushed. *)
Definition after_section (item : WorkItem) (st : StorePhase + bytes) : WorkerState :=
  match st with
  | inl ph => Executing item ph
  | inr response =>
      Pushing item (mkCompletion (wi_connection_id item) (wi_connection_generation item)
                      (wi_sequence item) response)
  end.

(** One step of [worker_main] by the worker in state [s]; [now] is the clock
    when a dispatch begins and [stop] the state of the worker's stop token. *)
Definition worker_main (now : Z) (stop : bool) (s : WorkerState) (p : WorkerPool)
    : option (WorkerPool * WorkerState * option K) :=
  match s with
  | Popping =>
      '(q, st, out) ← pop stop (work_queue_ p);
      Some (mkWorkerPool (store_ p) q (completion_queue_ p) (workers_ p),
            match st, out with PopOk, Some item => Dispatching item | _, _ => Exited end, None)
  | Dispatching item => Some (p, after_section item (dispatch_begin now (wi_command item)), None)
  | Executing item ph =>
      '(store, st) ← dispatch_section hash (wi_command item) ph (store_ p);
      Some (mkWorkerPool store (work_queue_ p) (completion_queue_ p) (workers_ p), after_section item st, None)
  | Pushing item completion =>
      '(q, st, callback) ← push completion (completion_queue_ p);
      Some (mkWorkerPool (store_ p) (work_queue_ p) q (workers_ p),
            if bool_decide (st = PushOk) then Popping else Exited, callback)
  | Exited => None
  end.

(** Which worker runs, at what time, with its stop token fired or not. *)
Definition Turn : Type := nat * Z * bool.

Definition pool_step (t : Turn) (p : WorkerPool) : option (WorkerPool * option K) :=
  let '(i, now, stop) := t in
  s ← workers_ p !! i;
  '(p, s, callback) ← worker_main now stop s p;
  Some (mkWorkerPool (store_ p) (work_queue_ p) (completion_queue_ p) (<[i := s]> (workers_ p)), callback).

(** A schedule: turns of blocked workers are lost. *)
Definition pool_run (ts : list Turn) (p : WorkerPool) : WorkerPool :=
  foldl (λ p t, match pool_step t p with Some (p', _) => p' | None => p end) p ts.

(** ** What the pool still has to do *)
Definition held (s : WorkerState) : list WorkItem :=
  match s with
  | Dispatching item | Executing item _ | Pushing item _ => [item]
  | _ => []
  end.

(** The items accepted but not yet completed. *)
Definition outstanding (p : WorkerPool) : list WorkItem :=
  items_ (work_queue_ p) ++ concat (held <$> workers_ p).

(** From one critical section of a dispatch to the next, which may find the
    store as other threads left it. *)
Definition section_next (cmd : Command) (ph ph' : StorePhase) : Prop :=
  ∃ store store' : Store Q, store_wf hash store ∧ dispatch_section hash cmd ph store = Some (store', inl ph').

(** A dispatch that began at [now] has got to [ph]. *)
Definition dispatched_to (cmd : Command) (ph : StorePhase) : Prop :=
  ∃ now ph0, dispatch_begin now cmd = inl ph0 ∧ rtc (section_next cmd) ph0 ph.

(** What a dispatch of [cmd] can answer. *)
Definition answers (cmd : Command) (resp : bytes) : Prop :=
  (∃ now, dispatch_begin now cmd = inr resp) ∨
  ∃ ph (store store' : Store Q), dispatched_to cmd ph ∧ store_wf hash store ∧
    dispatch_section hash cmd ph store = Some (store', inr resp).

(** [Executing] is inside a dispatch, [Pushing] holds the answer to its item. *)
Definition worker_ok (s : WorkerState) : Prop :=
  match s with
  | Executing item ph => executing (wi_command item) ph ∧ dispatched_to (wi_command item) ph
  | Pushing item co => completes item co ∧ answers (wi_command item) (co_response co)
  | _ => True
  end.

Lemma begin_ok now item : worker_ok (after_section item (dispatch_begin now (wi_command item))).
Proof.
  destruct (dispatch_begin now (wi_command item)) as [ph|resp] eqn:E; simpl.
  - split; [by eapply begin_executing|]. by exists now, ph.
  - split; [done|]. left. by exists now.
Qed.

Lemma section_ok item ph (store store' : Store Q) st :
  store_wf hash store → worker_ok (Executing item ph) →
  dispatch_section hash (wi_command item) ph store = Some (store', st) →
  store_wf hash store' ∧ worker_ok (after_section item st).
Proof.
  intros Hwf [Hex Hdis] Hsec.
  destruct (dispatch_section_total hash (wi_command item) ph store Hwf Hex) as (s1 & st1 & Hsec' & Hwf' & Hst).
  rewrite Hsec in Hsec'. injection Hsec' as <- <-. split; [done|]. destruct st as [ph'|resp]; simpl.
  - split; [by apply Hst|]. destruct Hdis as (now & ph0 & Hb & Hr). exists now, ph0. split; [done|].
    eapply rtc_r; [done|]. by exists store, store'.
  - split; [done|]. right. by exists ph, store, store'.
Qed.

Lemma held_after item st : held (after_section item st) = [item].
Proof. by destruct st. Qed.

Record pool_wf (p : WorkerPool) : Prop := {
  pool_store : store_wf hash (store_ p);
  pool_open : closed_ (completion_queue_ p) = false;
  pool_cap : queue_wf (completion_queue_ p);
  pool_workers : Forall worker_ok (workers_ p);
}.

(** The held items after worker [i] went from [s] to [s']. *)
Lemma held_insert ws i s s' :
  ws !! i = Some s → concat (held <$> ws) ++ held s' ≡ₚ concat (held <$> <[i := s']> ws) ++ held s.
Proof. apply concat_insert. Qed.

(** One step keeps the pool well-formed, and moves at most one item: its
    completion, the worker's answer to it, is appended to the queue. *)
Lemma pool_step_spec t p p' k :
  pool_wf p → pool_step t p = Some (p', k) →
  pool_wf p' ∧ length (workers_ p') = length (workers_ p) ∧
  closed_ (work_queue_ p') = closed_ (work_queue_ p) ∧
  queue_capacity_ (completion_queue_ p') = queue_capacity_ (completion_queue_ p) ∧
  ((outstanding p' ≡ₚ outstanding p ∧ items_ (completion_queue_ p') = items_ (completion_queue_ p) ∧
    ∀ item co, workers_ p !! t.1.1 ≠ Some (Pushing item co)) ∨
   ∃ item co, completes item co ∧ answers (wi_command item) (co_response co) ∧
     outstanding p ≡ₚ item :: outstanding p' ∧
     items_ (completion_queue_ p') = items_ (completion_queue_ p) ++ [co] ∧
     workers_ p !! t.1.1 = Some (Pushing item co)).
Proof.
  destruct t as [[i now] stop]. intros [Hst Hop Hcap Hws]. unfold pool_step.
  destruct (workers_ p !! i) as [s|] eqn:Hi; [|done]. cbn [mbind option_bind].
  assert (∀ s', worker_ok s' → Forall worker_ok (<[i := s']> (workers_ p))) as Hins by (intros; by apply Forall_insert).
  pose proof (λ s', held_insert (workers_ p) i s s' Hi) as Hheld.
  unfold outstanding. destruct s as [|item|item ph|item co|]; simpl; [| | | |done].
  - destruct (pop stop (work_queue_ p)) as [[[q st] out]|] eqn:Ep; [|done]. simpl. intros [= <- <-]. simpl.
    apply pop_inv in Ep as [(-> & _ & -> & _)|(x & rest & Hq & -> & -> & ->)].
    + assert (match st with PopOk => Exited | _ => Exited end = Exited) as Hs by by destruct st.
      split_and!; try done; [|by rewrite length_insert|].
      * constructor; simpl; try done. rewrite Hs. by apply Hins.
      * left. rewrite Hs, Hi. specialize (Hheld Exited). rewrite !app_nil_r in Hheld. by rewrite <-Hheld.
    + split_and!; try done; [|by rewrite length_insert|].
      * constructor; simpl; try done. by apply Hins.
      * left. rewrite Hi. split; [|done]. simpl. rewrite Hq. specialize (Hheld (Dispatching x)). simpl in Hheld.
        rewrite app_nil_r in Hheld. rewrite <-Hheld. simpl. rewrite (app_assoc rest).
        by rewrite <-Permutation_cons_append.
  - intros [= <- <-]. simpl. specialize (Hheld (after_section item (dispatch_begin now (wi_command item)))).
    rewrite held_after in Hheld. simpl in Hheld. apply Permutation_app_inv_r in Hheld.
    split_and!; try done; [|by rewrite length_insert|left; by rewrite Hheld, Hi].
    constructor; simpl; try done. apply Hins, begin_ok.
  - destruct (dispatch_section hash (wi_command item) ph (store_ p)) as [[store' st]|] eqn:Ed; [|done].
    simpl. intros [= <- <-]. simpl. specialize (Hheld (after_section item st)).
    rewrite held_after in Hheld. simpl in Hheld. apply Permutation_app_inv_r in Hheld.
    destruct (section_ok item ph _ _ _ Hst (Forall_lookup_1 _ _ _ _ Hws Hi) Ed) as [Hst' Hok].
    split_and!; try done; [|by rewrite length_insert|left; by rewrite Hheld, Hi].
    constructor; simpl; try done. by apply Hins.
  - destruct (push co (completion_queue_ p)) as [[[q st] cb]|] eqn:Ep; [|done]. simpl. intros [= <- <-]. simpl.
    apply push_inv in Ep as [(Hc & _)|(Hc & Hlt & -> & -> & _)]; [congruence|].
    pose proof (Forall_lookup_1 _ _ _ _ Hws Hi) as [Hco Ha]. split_and!; try done; [|by rewrite length_insert|].
    * constructor; simpl; try done; [unfold queue_wf; simpl; len_lia|by apply Hins].
    * right. exists item, co. split_and!; try done. specialize (Hheld Popping). simpl in Hheld.
      rewrite app_nil_r in Hheld. rewrite Hheld.
      by rewrite app_assoc, <-Permutation_cons_append.
Qed.

(** A schedule: what has been done, item by item. *)
Lemma pool_run_spec ts p :
  pool_wf p →
  ∃ done : list (WorkItem * Completion),
    pool_wf (pool_run ts p) ∧ length (workers_ (pool_run ts p)) = length (workers_ p) ∧
    closed_ (work_queue_ (pool_run ts p)) = closed_ (work_queue_ p) ∧
    queue_capacity_ (completion_queue_ (pool_run ts p)) = queue_capacity_ (completion_queue_ p) ∧
    outstanding p ≡ₚ done.*1 ++ outstanding (pool_run ts p) ∧
    items_ (completion_queue_ (pool_run ts p)) = items_ (completion_queue_ p) ++ done.*2 ∧
    Forall (λ d, completes d.1 d.2 ∧ answers (wi_command d.1) (co_response d.2)) done.
Proof.
  revert p. induction ts as [|t ts IH]; intros p Hwf; simpl.
  { exists []. rewrite app_nil_r. by split_and!. }
  fold (pool_run ts). destruct (pool_step t p) as [[p1 k]|] eqn:E; [|by apply IH].
  apply pool_step_spec in E as (Hwf1 & Hl1 & Hc1 & Hq1 & Hcase); [|done].
  destruct (IH p1 Hwf1) as (dn & Hwf' & Hl' & Hc' & Hq' & Ho' & Hi' & Hf').
  destruct Hcase as [(Ho & Hi & _)|(item & co & Hco & Ha & Ho & Hi & _)].
  - exists dn. split_and!; try congruence; try done. by rewrite <-Ho.
  - exists ((item, co) :: dn). split_and!; try congruence; try done.
    + rewrite Ho. simpl. by rewrite Ho'.
    + rewrite Hi', Hi. simpl. by rewrite <-app_assoc.
    + by constructor.
Qed.

(** C12. The pool answers every accepted item exactly once.  For every number
    of workers and every interleaving of their steps: the items outstanding at
    the start are those outstanding at the end and those completed, each once;
    the completions appended to the completion queue are, one for one, the
    answers the dispatcher gave to the completed items, addressed to the
    connection, generation and sequence number of the item; and the completion
    queue never exceeds its capacity. *)
Theorem pool_answers_each_item_once ts p :
  pool_wf p →
  ∃ done : list (WorkItem * Completion),
    outstanding p ≡ₚ done.*1 ++ outstanding (pool_run ts p) ∧
    items_ (completion_queue_ (pool_run ts p)) = items_ (completion_queue_ p) ++ done.*2 ∧
    Forall (λ d, completes d.1 d.2 ∧ answers (wi_command d.1) (co_response d.2)) done ∧
    queue_size (completion_queue_ (pool_run ts p)) ≤ queue_capacity_ (completion_queue_ p).
Proof.
  intros Hwf. destruct (pool_run_spec ts p Hwf) as (dn & Hwf' & _ & _ & Hq & ? & ? & ?).
  exists dn. split_and!; try done. rewrite <-Hq. apply Hwf'.
Qed.

(** ** Shutdown *)
Definition weight (s : WorkerState) : nat :=
  match s with
  | Popping => 1
  | Dispatching _ => 5
  | Executing _ ph => match linearizes ph with Some _ => 4 | None => 3 end
  | Pushing _ _ => 2
  | Exited => 0
  end.
Lemma weight_after item st : (weight (after_section item st) ≤ 4)%nat.
Proof. destruct st as [ph|]; simpl; [case_match; lia|lia]. Qed.

Definition pool_weight (p : WorkerPool) : nat :=
  5 * length (items_ (work_queue_ p)) + sum_list_with weight (workers_ p).

(** A worker leaves only when the closed work queue is empty. *)
Definition exits_late (p : WorkerPool) : Prop :=
  closed_ (work_queue_ p) = true ∧ (Exited ∈ workers_ p → items_ (work_queue_ p) = []).

Lemma weight_insert ws i s s' :
  ws !! i = Some s →
  (sum_list_with weight (<[i := s']> ws) + weight s = sum_list_with weight ws + weight s')%nat.
Proof.
  intros Hi. rewrite <-(take_drop_middle ws i s Hi) at 2. rewrite insert_take_drop by (by eapply lookup_lt_Some).
  rewrite !sum_list_with_app. simpl. lia.
Qed.

Lemma pool_step_shutdown t p p' k :
  pool_wf p → exits_late p → pool_step t p = Some (p', k) →
  exits_late p' ∧ (pool_weight p' < pool_weight p)%nat.
Proof.
  destruct t as [[i now] stop]. intros Hwf [Hcl Hex]. unfold pool_step.
  destruct (workers_ p !! i) as [s|] eqn:Hi; [|done]. cbn [mbind option_bind].
  pose proof (λ s', weight_insert (workers_ p) i s s' Hi) as Hw.
  assert (Hin : ∀ s', s' ≠ Exited → Exited ∈ <[i := s']> (workers_ p) → Exited ∈ workers_ p).
  { intros s' Hne (j & Hj)%list_elem_of_lookup. apply list_lookup_insert_Some in Hj as [(_ & ? & _)|[_ Hj]]; [done|].
    by eapply list_elem_of_lookup_2. }
  unfold exits_late, pool_weight. destruct s as [|item|item ph|item co|]; simpl; [| | | |done].
  - destruct (pop stop (work_queue_ p)) as [[[q st] out]|] eqn:Ep; [|done]. simpl. intros [= <- <-]. simpl.
    apply pop_inv in Ep as [(-> & Hq & -> & _)|(x & rest & Hq & -> & -> & ->)].
    + assert (match st with PopOk => Exited | _ => Exited end = Exited) as -> by by destruct st.
      specialize (Hw Exited). simpl in Hw. rewrite Hq. split; [done|]. simpl. lia.
    + specialize (Hw (Dispatching x)). simpl in *. rewrite Hq. simpl. split; [|lia]. split; [done|].
      intros Hx%Hin; [|done]. rewrite Hq in Hex. by specialize (Hex Hx).
  - intros [= <- <-]. simpl. specialize (Hw (after_section item (dispatch_begin now (wi_command item)))).
    pose proof (weight_after item (dispatch_begin now (wi_command item))). simpl in Hw. split; [|lia].
    split; [done|]. intros ?%Hin; [|by destruct (dispatch_begin now _)]. by apply Hex.
  - destruct (dispatch_section hash (wi_command item) ph (store_ p)) as [[store' st]|] eqn:Ed; [|done].
    simpl. intros [= <- <-]. simpl. specialize (Hw (after_section item st)). simpl in Hw.
    destruct (Forall_lookup_1 _ _ _ _ (pool_workers _ Hwf) Hi) as [Hxc _].
    destruct (dispatch_section_total hash (wi_command item) ph (store_ p) (pool_store _ Hwf) Hxc) as (s1 & st1 & Hsec & _ & Hst).
    rewrite Ed in Hsec. injection Hsec as <- <-. split.
    + split; [done|]. intros ?%Hin; [|by destruct st]. by apply Hex.
    + destruct st as [ph'|resp]; cbn [after_section weight] in *; [|case_match; lia].
      destruct Hst as (_ & Hl & [x Hx]). rewrite Hl, Hx in Hw. lia.
  - destruct (push co (completion_queue_ p)) as [[[q st] cb]|] eqn:Ep; [|done]. simpl. intros [= <- <-]. simpl.
    apply push_inv in Ep as [(Hc & _)|(Hc & Hlt & -> & -> & _)]; [destruct Hwf; congruence|]. simpl.
    specialize (Hw Popping). simpl in Hw. split; [|lia]. split; [done|]. intros ?%Hin; [|done]. by apply Hex.
Qed.

Lemma pool_run_exits ts p : pool_wf p → exits_late p → exits_late (pool_run ts p).
Proof.
  revert p. induction ts as [|t ts IH]; intros p Hwf Hex; [done|]. simpl. fold (pool_run ts).
  destruct (pool_step t p) as [[p1 k]|] eqn:E; [|by apply IH].
  apply IH; [by eapply pool_step_spec in E as [? _]|by eapply pool_step_shutdown in E as [? _]].
Qed.

(** Room for every completion. *)
Definition fits (p : WorkerPool) : Prop :=
  len (items_ (completion_queue_ p)) + len (outstanding p) ≤ queue_capacity_ (completion_queue_ p).

Lemma joined_outstanding p : exits_late p → workers_ p ≠ [] → joined p → outstanding p = [].
Proof.
  intros [_ Hex] Hne Hj. unfold outstanding, joined in *. rewrite Hex.
  - simpl. clear Hne Hex. induction Hj as [|s ws -> _ IH]; [done|]. done.
  - destruct (workers_ p) as [|s ws]; [done|]. apply Forall_cons in Hj as [-> _]. left.
Qed.

(** Somebody can run, unless everybody has left. *)
Lemma pool_progress p :
  pool_wf p → exits_late p → fits p → joined p ∨ ∃ i p' k, pool_step (i, 0, false) p = Some (p', k).
Proof.
  intros Hwf [Hcl _] Hfit. unfold joined.
  destruct (decide (Forall (λ s, s = Exited) (workers_ p))) as [|Hn]; [by left|right].
  apply not_Forall_Exists in Hn; [|apply _]. apply Exists_exists in Hn as (s & (i & Hi)%list_elem_of_lookup & Hs).
  exists i. unfold pool_step. rewrite Hi. simpl. destruct s as [|item|item ph|item co|]; simpl; [| | | |by destruct Hs].
  - destruct (pop false (work_queue_ p)) as [[[q st] out]|] eqn:Ep; [simpl; eauto|].
    apply pop_blocks in Ep as [? _]. congruence.
  - eauto.
  - destruct (Forall_lookup_1 _ _ _ _ (pool_workers _ Hwf) Hi) as [Hxc _].
    destruct (dispatch_section_total hash (wi_command item) ph (store_ p) (pool_store _ Hwf) Hxc) as (s1 & st1 & -> & _).
    simpl. eauto.
  - destruct (push co (completion_queue_ p)) as [[[q st] cb]|] eqn:Ep; [simpl; eauto|].
    apply push_blocks in Ep as [_ Hfull]. unfold fits, outstanding in Hfit.
    pose proof (held_insert (workers_ p) i _ Exited Hi) as Hh. simpl in Hh. rewrite app_nil_r in Hh.
    apply (Permutation_length) in Hh. rewrite length_app in Hh. simpl in Hh.
    rewrite len_app in Hfit. unfold len in *. lia.
Qed.

Lemma pool_step_fits t p p' k : pool_wf p → fits p → pool_step t p = Some (p', k) → fits p'.
Proof.
  intros Hwf Hfit Hs. apply pool_step_spec in Hs as (_ & _ & _ & Hq & Hcase); [|done]. unfold fits in *.
  rewrite Hq. destruct Hcase as [(Ho & -> & _)|(item & co & _ & _ & Ho & -> & _)]; apply Permutation_length in Ho.
  - unfold len in *. lia.
  - rewrite len_app, len_cons, len_nil. unfold len in *. simpl in Ho. lia.
Qed.

Lemma pool_run_fits ts p : pool_wf p → fits p → fits (pool_run ts p).
Proof.
  revert p. induction ts as [|t ts IH]; intros p Hwf Hfit; [done|].
  simpl. fold (pool_run ts). destruct (pool_step t p) as [[p1 k]|] eqn:E; [|by apply IH].
  apply IH; [by eapply pool_step_spec in E as [? _]|by eapply pool_step_fits].
Qed.

Lemma pool_drains n p :
  (pool_weight p ≤ n)%nat → pool_wf p → exits_late p → fits p → ∃ ts, joined (pool_run ts p).
Proof.
  revert p. induction n as [|n IH]; intros p Hn Hwf Hex Hfit.
  all: destruct (pool_progress p Hwf Hex Hfit) as [Hj|(i & p' & k & Hs)]; [by exists []|].
  all: pose proof (pool_step_shutdown _ _ _ _ Hwf Hex Hs) as [Hex' Hlt].
  { lia. }
  destruct (IH p') as [ts Hts]; [lia|by eapply pool_step_spec in Hs as [? _]|done|by eapply pool_step_fits|].
  exists ((i, 0, false) :: ts). unfold pool_run in *. cbn [foldl]. by rewrite Hs.
Qed.

(** The destructor of the pool returns if and only if the completion
    queue has room.  After [run] has returned nobody pops completions.  The
    destructor closes the work queue and joins: if the completions waiting and
    the items outstanding fit the completion queue together, no interleaving
    gets stuck before every worker has left, and the workers need at most
    [pool_weight] steps; otherwise no interleaving ever lets all workers leave,
    and the server hangs in its shutdown. *)
Theorem shutdown_joins_iff_room p0 :
  pool_wf p0 → workers_ p0 ≠ [] → Exited ∉ workers_ p0 →
  let p := destroy_pool p0 in
  ((∃ ts, joined (pool_run ts p)) ↔ fits p) ∧
  (fits p → ∀ ts, joined (pool_run ts p) ∨
    ∃ t p' k, pool_step t (pool_run ts p) = Some (p', k) ∧ (pool_weight p' < pool_weight (pool_run ts p))%nat).
Proof.
  intros Hwf0 Hne Hnin p.
  assert (pool_wf p) as Hwf by (destruct Hwf0; by constructor).
  assert (exits_late p) as Hex by (split; [done|]; intros ?; done).
  split; [split|].
  - intros [ts Hj]. destruct (pool_run_spec ts p Hwf) as (dn & Hwf' & Hl & _ & Hq & Ho & Hi & _).
    rewrite (joined_outstanding (pool_run ts p)), app_nil_r in Ho; [|by apply pool_run_exits| |done].
    + apply Permutation_length in Ho. pose proof (pool_cap _ Hwf') as Hcap. unfold queue_wf in Hcap.
      rewrite Hi, Hq, len_app in Hcap. rewrite length_fmap in Ho.
      unfold fits. unfold len in *. rewrite length_fmap in Hcap. lia.
    + intros Hnil. rewrite Hnil in Hl. simpl in Hl. by destruct (workers_ p0).
  - intros Hfit. by eapply pool_drains.
  - intros Hfit ts.
    assert (fits (pool_run ts p)) as Hfit' by (by apply pool_run_fits).
    destruct (pool_run_spec ts p Hwf) as (_ & Hwf' & _).
    destruct (pool_progress (pool_run ts p)) as [|(i & p' & k & Hs)]; [done|by apply pool_run_exits|done|by left|].
    right. exists (i, 0, false), p', k. split; [done|].
    by eapply pool_step_shutdown in Hs as [_ ?]; [|done|apply pool_run_exits].
Qed.
End Pool.

(** One worker, queues of capacity one: a completion waits, an item is queued. *)
Definition demo_pool : @WorkerPool candidate_queue unit :=
  mkWorkerPool demo_store
    (mkBoundedQueue [mkWorkItem 7 1 1 (mkCommand kPing [] [] 0)] 1 false None)
    (mkBoundedQueue [mkCompletion 7 1 0 (lit "+PONG" ++ crlf)] 1 false None) [Popping].

Lemma demo_pool_wf : pool_wf sum_hash demo_pool.
Proof.
  constructor; simpl; [apply demo_store_wf|done|by vm_compute|by repeat constructor].
Qed.

(** Two workers with room: a SET and a PING. *)
Definition busy_pool : @WorkerPool candidate_queue unit :=
  mkWorkerPool demo_store
    (mkBoundedQueue [mkWorkItem 7 1 0 (mkCommand kSet (lit "k") (lit "v") 0);
                     mkWorkItem 8 2 0 (mkCommand kPing [] [] 0)] 4 false None)
    (mkBoundedQueue [] 4 false None) [Popping; Popping].

(** Both take an item; the second is done first. *)
Definition busy_schedule : list (nat * Z * bool) :=
  [(0%nat, 5, false); (1%nat, 5, false); (1%nat, 6, false); (1%nat, 6, false); (0%nat, 7, false);
   (0%nat, 7, false); (0%nat, 8, false)].

Lemma busy_pool_wf : pool_wf sum_hash busy_pool.
Proof.
  constructor; simpl; [apply demo_store_wf|done|by vm_compute|by repeat constructor].
Qed.

Lemma pool_answers_each_item_once_witness :
  ∃ done : list (WorkItem * Completion),
    outstanding busy_pool ≡ₚ done.*1 ∧ items_ (completion_queue_ (pool_run sum_hash busy_schedule busy_pool)) = done.*2 ∧
    done.*2 = [mkCompletion 8 2 0 (lit "+PONG" ++ crlf); mkCompletion 7 1 0 (lit "+OK" ++ crlf)].
Proof.
  destruct (pool_answers_each_item_once sum_hash busy_schedule busy_pool busy_pool_wf) as (dn & Ho & Hi & _).
  assert (outstanding (pool_run sum_hash busy_schedule busy_pool) = []) as Hz by (vm_compute; reflexivity).
  assert (items_ (completion_queue_ (pool_run sum_hash busy_schedule busy_pool)) =
    [mkCompletion 8 2 0 (lit "+PONG" ++ crlf); mkCompletion 7 1 0 (lit "+OK" ++ crlf)]) as Hd by (vm_compute; reflexivity).
  exists dn. rewrite Hz, app_nil_r in Ho. rewrite Hd in Hi |- *. simpl in Hi. split_and!; [exact Ho|exact Hi|symmetry; exact Hi].
Defined.

(** The hang: the last worker waits for room in the completion queue. *)
Lemma shutdown_joins_iff_room_witness :
  ¬ fits (destroy_pool demo_pool) ∧ ¬ ∃ ts, joined (pool_run sum_hash ts (destroy_pool demo_pool)).
Proof.
  assert (¬ fits (destroy_pool demo_pool)) as Hn by (unfold fits; simpl; vm_compute; intros H; by apply H).
  split; [exact Hn|]. intros H. apply Hn.
  destruct (shutdown_joins_iff_room sum_hash demo_pool demo_pool_wf) as [Hiff _]; [done| |by apply Hiff].
  by intros [?|?%elem_of_nil]%elem_of_cons.
Defined.
