(* ===== verification/Logger.v ===== *)
(** * Logger

    Models [src/src/util/logger.cpp].  A log line goes to [std::cerr] under
    the logger's mutex; the model appends it to the list of lines written.
    The formatted wall clock is an argument; [Timestamp.v] models
    [timestamp_now]. *)
From S2P Require Import Prelude Decimal.

Inductive LogLevel := kDebug | kInfo | kWarn | kError.

#[export] Instance LogLevel_eq_dec : EqDecision LogLevel.
Proof. solve_decision. Defined.

(** The underlying value of the enumerator, by which levels compare. *)
Definition level_rank (l : LogLevel) : Z :=
  match l with kDebug => 0 | kInfo => 1 | kWarn => 2 | kError => 3 end.

Definition level_name (l : LogLevel) : bytes :=
  match l with
  | kDebug => lit "DEBUG" | kInfo => lit "INFO" | kWarn => lit "WARN" | kError => lit "ERROR"
  end.

(** [Logger::log]: [cerr] is what has been written so far. *)
Definition log (min_level level : LogLevel) (timestamp message : bytes) (cerr : list bytes) : list bytes :=
  if level_rank level <? level_rank min_level then cerr
  else cerr ++ [lit "[" ++ timestamp ++ lit "] [" ++ level_name level ++ lit "] " ++ message ++ [LF]].

Definition to_lower_ascii (name : bytes) : bytes :=
  (λ c, if (65 <=? code c) && (code c <=? 90) then chr (code c - 65 + 97) else c) <$> name.

Definition parse_level (name : bytes) : option LogLevel :=
  let lowered := to_lower_ascii name in
  if bool_decide (lowered = lit "debug") then Some kDebug
  else if bool_decide (lowered = lit "info") then Some kInfo
  else if bool_decide (lowered = lit "warn") || bool_decide (lowered = lit "warning") then Some kWarn
  else if bool_decide (lowered = lit "error") then Some kError
  else None.

(** Log levels are read case-insensitively and round-trip: a name is
    accepted exactly when its lower-case form is one of debug, info, warn,
    warning and error; the name a level is printed with is read back as that
    level; and a message is written exactly when its level is at least the
    configured one. *)
Theorem parse_level_correct name l :
  (parse_level name = Some l ↔
    to_lower_ascii name = to_lower_ascii (level_name l) ∨ (l = kWarn ∧ to_lower_ascii name = lit "warning")) ∧
  parse_level (level_name l) = Some l ∧
  (∀ min ts msg cerr, log min l ts msg cerr ≠ cerr ↔ level_rank min ≤ level_rank l).
Proof.
  split_and!.
  - unfold parse_level.
    assert (∀ l, to_lower_ascii (level_name l) = match l with
      | kDebug => lit "debug" | kInfo => lit "info" | kWarn => lit "warn" | kError => lit "error" end) as ->
      by (intros []; by vm_compute).
    repeat case_bool_decide; simpl; destruct l; split; intros; simplify_eq; try naive_solver;
      repeat match goal with H : to_lower_ascii name = _ |- _ => rewrite H in * end; naive_solver.
  - destruct l; by vm_compute.
  - intros min ts msg cerr. unfold log. destruct (Z.ltb_spec (level_rank l) (level_rank min)).
    + split; [done|lia].
    + split; [done|]. intros _ Heq%(f_equal length). rewrite length_app in Heq. simpl in Heq. lia.
Qed.
