(* ===== verification/Timestamp.v ===== *)
(** * Time stamps of the log

    Models [timestamp_now] of [src/src/util/logger.cpp]: [std::time] (an
    argument), [gmtime_r] and [std::strftime] into a buffer of 32 bytes.
    [gmtime_r] is the proleptic Gregorian calendar, computed from the number of
    days since 1970-01-01; the reference it is compared with counts the days
    one by one. *)
From S2P Require Import Prelude Decimal Logger.

(** ** [struct tm] *)
Record tm := mkTm {
  tm_year : Z;   (** years since 1900 *)
  tm_mon : Z;    (** months since January *)
  tm_mday : Z;
  tm_hour : Z;
  tm_min : Z;
  tm_sec : Z;
}.

(** A date: year, month from 1, day of the month from 1. *)
Definition Date : Type := Z * Z * Z.

Definition kDaysPerEra : Z := 146097.   (** 400 years *)
Definition kSecondsPerDay : Z := 86400.

Definition add_years (n : Z) (d : Date) : Date := let '(year, month, day) := d in (year + n, month, day).

(** An era begins on March 1st of a year that 400 divides.  The day on which
    its [y]-th year begins, the year of a day, and the date of a day of such a
    year, which ends in February of the next. *)
Definition year_start (y : Z) : Z := 365 * y + y / 4 - y / 100.
Definition year_of_day (doe : Z) : Z := (doe - doe / 1460 + doe / 36524 - doe / 146096) / 365.
Definition date_in_year (doy : Z) : Date :=
  let mp := (5 * doy + 2) / 153 in
  let month := if mp <? 10 then mp + 3 else mp - 9 in
  (if month <=? 2 then 1 else 0, month, doy - (153 * mp + 2) / 5 + 1).

Definition date_of_era_day (doe : Z) : Date :=
  let yoe := year_of_day doe in
  add_years yoe (date_in_year (doe - year_start yoe)).

(** The date of a day counted from 1970-01-01. *)
Definition date_of_day (z : Z) : Date :=
  let z := z + 719468 in
  add_years (400 * (z / kDaysPerEra)) (date_of_era_day (z mod kDaysPerEra)).

(** [gmtime_r]; it fails (EOVERFLOW) when the year does not fit an [int]. *)
Definition gmtime_r (now : Z) : option tm :=
  let '(year, month, day) := date_of_day (now / kSecondsPerDay) in
  let second := now mod kSecondsPerDay in
  if bool_decide (- 2 ^ 31 ≤ year - 1900 < 2 ^ 31) then
    Some (mkTm (year - 1900) (month - 1) day (second / 3600) (second / 60 mod 60) (second mod 60))
  else None.

(** [%m], [%d], [%H], [%M], [%S]: two digits. *)
Definition two_digits (z : Z) : bytes := (if z <? 10 then lit "0" else []) ++ to_string z.

(** [std::strftime(buf, max, "%Y-%m-%dT%H:%M:%SZ", &utc)] and the text it
    leaves: none if it does not fit with its terminating null. *)
Definition strftime (max : Z) (utc : tm) : bytes :=
  let text :=
    to_string (tm_year utc + 1900) ++ lit "-" ++ two_digits (tm_mon utc + 1) ++ lit "-" ++ two_digits (tm_mday utc) ++
    lit "T" ++ two_digits (tm_hour utc) ++ lit ":" ++ two_digits (tm_min utc) ++ lit ":" ++
    two_digits (tm_sec utc) ++ lit "Z" in
  if len text <? max then text else [].

(** [None] where the broken-down time is unspecified. *)
Definition timestamp_now (now : Z) : option bytes :=
  utc ← gmtime_r now;
  Some (strftime 32 utc).

(** ** The calendar, day by day *)
Definition leap (year : Z) : bool := (year mod 4 =? 0) && (negb (year mod 100 =? 0) || (year mod 400 =? 0)).

Definition month_length (leap_year : bool) (month : Z) : Z :=
  if month =? 2 then (if leap_year then 29 else 28)
  else if (month =? 4) || (month =? 6) || (month =? 9) || (month =? 11) then 30 else 31.

Definition days_in_month (year month : Z) : Z := month_length (leap year) month.

(** The day after, when the current month has [length] days. *)
Definition next_within (length : Z) (d : Date) : Date :=
  let '(year, month, day) := d in
  if day <? length then (year, month, day + 1)
  else if month <? 12 then (year, month + 1, 1)
  else (year + 1, 1, 1).

Definition next_date (d : Date) : Date := next_within (days_in_month d.1.1 d.1.2) d.

Definition valid_date (d : Date) : bool :=
  let '(year, month, day) := d in
  (1 <=? month) && (month <=? 12) && (1 <=? day) && (day <=? days_in_month year month).

(** The number of a day in its year. *)
Definition day_in_year (month day : Z) : Z :=
  (153 * (if month <=? 2 then month + 9 else month - 3) + 2) / 5 + day - 1.

(** The day of a date, as the reader of a log computes it. *)
Definition day_of_date (d : Date) : Z :=
  let '(year, month, day) := d in
  let y := if month <=? 2 then year - 1 else year in
  kDaysPerEra * (y / 400) + year_start (y mod 400) + day_in_year month day - 719468.

(** ** The years of an era and the days of a year, by computation *)
Fixpoint for_all (check : Z → bool) (n : nat) : bool :=
  match n with O => true | S n => check (Z.of_nat n) && for_all check n end.

Lemma for_all_spec check n z : for_all check n = true → 0 ≤ z < Z.of_nat n → check z = true.
Proof.
  induction n as [|n IH]; simpl; [lia|]. intros [H Hn]%andb_prop Hz.
  destruct (decide (z = Z.of_nat n)) as [->|]; [done|]. apply IH; [done|lia].
Qed.

(** Where the next year begins. *)
Definition year_end (y : Z) : Z := year_start y + 365 + (if leap (y + 1) then 1 else 0).

Definition check_year (y : Z) : bool :=
  (year_of_day (year_start y) =? y) && (year_of_day (year_end y - 1) =? y) &&
  (if y =? 399 then year_end y =? kDaysPerEra else year_end y =? year_start (y + 1)).

(** A day of a year whose February is long or short, and the day after. *)
Definition check_day (leap_year : bool) (doy : Z) : bool :=
  let d := date_in_year doy in
  let '(offset, month, day) := d in
  let next := if doy + 1 <? 365 + (if leap_year then 1 else 0) then date_in_year (doy + 1) else (1, 3, 1) in
  (1 <=? month) && (month <=? 12) && (1 <=? day) && (day <=? month_length leap_year month) &&
  (offset =? if month <=? 2 then 1 else 0) && (day_in_year month day =? doy) &&
  bool_decide (next_within (month_length leap_year month) d = next).

Lemma years_checked : for_all check_year 400 = true.
Proof. vm_compute. reflexivity. Qed.

Lemma days_checked : for_all (check_day true) 366 && for_all (check_day false) 365 = true.
Proof. vm_compute. reflexivity. Qed.

(** ** The year of a day *)
Lemma year_of_day_step doe : 0 ≤ doe → doe + 1 < kDaysPerEra → year_of_day doe ≤ year_of_day (doe + 1).
Proof.
  intros Hd Hlt. unfold year_of_day, kDaysPerEra in *. apply Z.div_le_mono; [lia|].
  destruct (decide (doe + 1 = 146096)) as [E|]; [|Z.to_euclidean_division_equations; lia].
  assert (doe = 146095) as -> by lia. done.
Qed.

Lemma year_of_day_mono doe doe' : 0 ≤ doe ≤ doe' → doe' < kDaysPerEra → year_of_day doe ≤ year_of_day doe'.
Proof.
  intros Hd Hlt. replace doe' with (doe + Z.of_nat (Z.to_nat (doe' - doe))) in * by lia.
  revert Hlt. generalize (Z.to_nat (doe' - doe)). intros n. induction n as [|n IH]; intros Hlt.
  { by rewrite Z.add_0_r. }
  etrans; [apply IH; lia|]. rewrite Nat2Z.inj_succ in *. rewrite <-Z.add_1_r, Z.add_assoc in *.
  apply year_of_day_step; lia.
Qed.

Lemma year_of_day_spec doe :
  0 ≤ doe < kDaysPerEra →
  let y := year_of_day doe in 0 ≤ y < 400 ∧ year_start y ≤ doe < year_end y ∧
    (if y =? 399 then year_end y = kDaysPerEra else year_end y = year_start (y + 1)).
Proof.
  intros Hd. cbv zeta. remember (year_of_day doe) as y eqn:Ey.
  assert (Hr : 0 ≤ y < 400).
  { pose proof (year_of_day_mono 0 doe ltac:(lia) ltac:(lia)) as H0.
    pose proof (year_of_day_mono doe (kDaysPerEra - 1) ltac:(lia) ltac:(lia)) as H1.
    vm_compute (year_of_day 0) in H0. vm_compute (year_of_day (kDaysPerEra - 1)) in H1. lia. }
  assert (Hy : ∀ z, 0 ≤ z < 400 → year_of_day (year_start z) = z ∧ year_of_day (year_end z - 1) = z ∧
    (if z =? 399 then year_end z = kDaysPerEra else year_end z = year_start (z + 1))).
  { intros z Hz. pose proof (for_all_spec _ _ z years_checked Hz) as H. unfold check_year in H.
    destruct (z =? 399); lia. }
  destruct (Hy y Hr) as (H1 & H2 & H3). split; [done|]. split; [|done].
  assert (Hle : ∀ z, 0 ≤ z < 400 → 0 ≤ year_start z ∧ year_start z < year_end z ≤ kDaysPerEra).
  { intros z Hz. unfold year_end, year_start, kDaysPerEra. destruct (leap (z + 1)); Z.to_euclidean_division_equations; lia. }
  pose proof (Hle y Hr). split.
  - destruct (decide (year_start y ≤ doe)) as [|Hlt]; [done|]. exfalso.
    destruct (decide (y = 0)) as [E|]; [rewrite E in Hlt; change (year_start 0) with 0 in Hlt; lia|].
    destruct (Hy (y - 1) ltac:(lia)) as (_ & H2' & H3'). replace (y - 1 =? 399) with false in H3' by lia.
    replace (y - 1 + 1) with y in H3' by lia. rewrite H3' in H2'.
    pose proof (year_of_day_mono doe (year_start y - 1) ltac:(lia) ltac:(lia)). lia.
  - destruct (decide (doe < year_end y)) as [|Hge]; [done|]. exfalso.
    destruct (decide (y = 399)) as [E|]; [rewrite E in H3, Hge; rewrite Z.eqb_refl in H3; lia|].
    replace (y =? 399) with false in H3 by lia. destruct (Hy (y + 1) ltac:(lia)) as (H1' & _ & _).
    pose proof (year_of_day_mono (year_start (y + 1)) doe) as Hm. rewrite <-H3 in *.
    rewrite H1' in Hm. lia.
Qed.

Lemma year_end_gt y : year_start y < year_end y.
Proof. unfold year_end. destruct (leap (y + 1)); lia. Qed.

Lemma year_of_day_unique y doe : 0 ≤ y < 400 → year_start y ≤ doe < year_end y → year_of_day doe = y.
Proof.
  intros Hy Hd. pose proof (for_all_spec _ _ y years_checked Hy) as H. unfold check_year in H.
  assert (0 ≤ year_start y ∧ year_end y ≤ kDaysPerEra) as [H0 H1].
  { unfold year_end, year_start, kDaysPerEra. destruct (leap (y + 1)); Z.to_euclidean_division_equations; lia. }
  pose proof (year_of_day_mono (year_start y) doe ltac:(lia) ltac:(lia)).
  pose proof (year_of_day_mono doe (year_end y - 1) ltac:(lia) ltac:(lia)). lia.
Qed.

Lemma date_in_year_spec (leap_year : bool) doy :
  0 ≤ doy < 365 + (if leap_year then 1 else 0) → check_day leap_year doy = true.
Proof.
  intros H. pose proof days_checked as [Ht Hf]%andb_prop.
  destruct leap_year; [apply (for_all_spec _ _ _ Ht)|apply (for_all_spec _ _ _ Hf)]; lia.
Qed.

(** ** The calendar of an era *)
Lemma era_day_spec doe :
  0 ≤ doe < kDaysPerEra →
  valid_date (date_of_era_day doe) = true ∧ day_of_date (date_of_era_day doe) = doe - 719468 ∧
  0 ≤ (date_of_era_day doe).1.1 ≤ 400 ∧
  next_date (date_of_era_day doe) =
    if doe + 1 <? kDaysPerEra then date_of_era_day (doe + 1) else add_years 400 (date_of_era_day 0).
Proof.
  intros Hd. destruct (year_of_day_spec doe Hd) as (Hy & Hs & He). unfold date_of_era_day at 1 2 3 4 5.
  set (y := year_of_day doe) in *. set (doy := doe - year_start y).
  assert (0 ≤ doy < 365 + (if leap (y + 1) then 1 else 0)) as Hdoy by (unfold year_end, doy in *; lia).
  pose proof (date_in_year_spec _ _ Hdoy) as H. unfold check_day in H.
  destruct (date_in_year doy) as [[o m] n] eqn:E.
  repeat apply andb_prop in H as [H ?]. apply bool_decide_eq_true in H0.
  assert (o = if m <=? 2 then 1 else 0) as -> by (destruct (m <=? 2); lia).
  assert (Hlen : days_in_month ((if m <=? 2 then 1 else 0) + y) m = month_length (leap (y + 1)) m).
  { unfold days_in_month, month_length. destruct (Z.eqb_spec m 2) as [->|]; [|done]. simpl. by rewrite Z.add_comm. }
  split_and!.
  - unfold add_years, valid_date. rewrite Hlen. lia.
  - unfold add_years, day_of_date.
    replace (if m <=? 2 then _ - 1 else _) with y by (destruct (m <=? 2); lia).
    rewrite Z.div_small, Z.mod_small by lia. unfold doy in *. lia.
  - simpl. destruct (m <=? 2); lia.
  - simpl. destruct (m <=? 2); lia.
  - assert (next_date (add_years y (if m <=? 2 then 1 else 0, m, n)) =
      add_years y (next_within (month_length (leap (y + 1)) m) (if m <=? 2 then 1 else 0, m, n))) as ->.
    { unfold next_date. simpl. rewrite Hlen. destruct (n <? _); [done|]. destruct (m <? 12); [done|]. simpl. by rewrite <-!Z.add_assoc, (Z.add_comm y). }
    rewrite H0. destruct (Z.ltb_spec (doy + 1) (365 + (if leap (y + 1) then 1 else 0))) as [Hin|Hout].
    + assert (doe + 1 < year_end y) as Hin' by (unfold year_end, doy in *; lia).
      assert (year_end y ≤ kDaysPerEra) as Hk.
      { unfold year_end, year_start, kDaysPerEra. destruct (leap (y + 1)); Z.to_euclidean_division_equations; lia. }
      replace (doe + 1 <? kDaysPerEra) with true by lia. unfold date_of_era_day.
      rewrite (year_of_day_unique y) by lia. do 2 f_equal. unfold doy. lia.
    + assert (doe + 1 = year_end y) as Heq by (unfold year_end, doy in *; lia).
      destruct (Z.eqb_spec y 399) as [E9|].
      * replace (doe + 1 <? kDaysPerEra) with false by lia. by rewrite E9.
      * pose proof (year_end_gt (y + 1)).
        assert (year_of_day (doe + 1) = y + 1) as Hy1 by (apply year_of_day_unique; lia).
        assert (doe + 1 < kDaysPerEra) as Hk.
        { rewrite Heq, He. unfold year_start, kDaysPerEra. Z.to_euclidean_division_equations; lia. }
        replace (doe + 1 <? kDaysPerEra) with true by lia. unfold date_of_era_day. rewrite Hy1, Heq, He, Z.sub_diag.
        change (date_in_year 0) with (0, 3, 1). unfold add_years. by rewrite Z.add_0_l, (Z.add_comm 1).
Qed.

(** ** All days *)
Lemma leap_400 y k : leap (y + 400 * k) = leap y.
Proof.
  unfold leap. replace (y + 400 * k) with (y + (100 * k) * 4) at 1 by lia.
  replace (y + 400 * k) with (y + (4 * k) * 100) at 1 by lia. rewrite (Z.mul_comm 400).
  by rewrite !Z.mod_add.
Qed.

Lemma next_date_add k d : next_date (add_years (400 * k) d) = add_years (400 * k) (next_date d).
Proof.
  destruct d as [[y m] n]. unfold next_date, add_years, next_within, days_in_month. simpl. rewrite leap_400.
  destruct (n <? _); [done|]. destruct (m <? 12); [done|]. by rewrite <-!Z.add_assoc, (Z.add_comm (400 * k)).
Qed.

Lemma valid_date_add k d : valid_date (add_years (400 * k) d) = valid_date d.
Proof. destruct d as [[y m] n]. unfold valid_date, add_years, days_in_month. by rewrite leap_400. Qed.

Lemma day_of_date_add k d : day_of_date (add_years (400 * k) d) = day_of_date d + kDaysPerEra * k.
Proof.
  destruct d as [[y m] n]. unfold day_of_date, add_years.
  replace (if m <=? 2 then y + 400 * k - 1 else y + 400 * k)
    with ((if m <=? 2 then y - 1 else y) + k * 400) by (destruct (m <=? 2); lia).
  rewrite Z.div_add, Z.mod_add by done. lia.
Qed.

Lemma date_of_day_spec z :
  valid_date (date_of_day z) = true ∧ day_of_date (date_of_day z) = z ∧
  date_of_day (z + 1) = next_date (date_of_day z).
Proof.
  unfold date_of_day. set (x := z + 719468). assert (kDaysPerEra ≠ 0) as Hne by done.
  pose proof (Z.mod_pos_bound x kDaysPerEra ltac:(done)) as Hb. pose proof (Z.div_mod x kDaysPerEra Hne) as Hx.
  destruct (era_day_spec _ Hb) as (Hv & Hd & _ & Hn). split_and!.
  - by rewrite valid_date_add.
  - rewrite day_of_date_add, Hd. lia.
  - rewrite next_date_add, Hn. replace (z + 1 + 719468) with (x + 1) by lia.
    set (e := x / kDaysPerEra) in *. set (doe := x mod kDaysPerEra) in *.
    destruct (Z.ltb_spec (doe + 1) kDaysPerEra) as [Hlt|Hge].
    + by rewrite <-(Z.div_unique (x + 1) kDaysPerEra e (doe + 1)), <-(Z.mod_unique (x + 1) kDaysPerEra e (doe + 1)) by lia.
    + rewrite <-(Z.div_unique (x + 1) kDaysPerEra (e + 1) 0), <-(Z.mod_unique (x + 1) kDaysPerEra (e + 1) 0) by lia.
      destruct (date_of_era_day 0) as [[y m] n]. unfold add_years. do 2 f_equal. lia.
Qed.

Lemma date_of_day_iter n : date_of_day (Z.of_nat n) = Nat.iter n next_date (1970, 1, 1).
Proof.
  induction n as [|n IH]; [done|]. rewrite Nat2Z.inj_succ, <-Z.add_1_r. simpl. rewrite <-IH.
  by apply date_of_day_spec.
Qed.

Lemma valid_day y m n : valid_date (y, m, n) = true → n ≤ 31.
Proof.
  unfold valid_date, days_in_month, month_length.
  destruct (leap y), (m =? 2), ((m =? 4) || (m =? 6) || (m =? 9) || (m =? 11)); lia.
Qed.

(** The years a four-digit year can name. *)
Lemma date_year_range z : 0 ≤ z < 2932897 → 1970 ≤ (date_of_day z).1.1 ≤ 9999.
Proof.
  intros Hz. destruct (date_of_day_spec z) as (Hv & Hd & _). destruct (date_of_day z) as [[y m] n]. simpl.
  pose proof (valid_day _ _ _ Hv). unfold valid_date in Hv. unfold day_of_date in Hd.
  unfold day_in_year, kDaysPerEra, year_start in Hd.
  destruct (Z.leb_spec m 2); Z.to_euclidean_division_equations; lia.
Qed.

(** ** The text *)
Definition read_timestamp (s : bytes) : option Z :=
  let field start length := dec_value (take length (drop start s)) in
  if bool_decide (len s = 20) then
    Some (kSecondsPerDay * day_of_date (field 0%nat 4%nat, field 5%nat 2%nat, field 8%nat 2%nat) +
          3600 * field 11%nat 2%nat + 60 * field 14%nat 2%nat + field 17%nat 2%nat)
  else None.

Lemma two_digits_spec z : 0 ≤ z < 100 → ∃ a b, two_digits z = [a; b] ∧ dec_value [a; b] = z.
Proof.
  intros Hz. exists (digit_char (z / 10)), (digit_char (z mod 10)).
  assert (0 ≤ z / 10 < 10 ∧ 0 ≤ z mod 10 < 10 ∧ z = 10 * (z / 10) + z mod 10) as (H1 & H2 & H3)
    by (Z.to_euclidean_division_equations; lia).
  split.
  - assert (for_all (λ z, bool_decide (two_digits z = [digit_char (z / 10); digit_char (z mod 10)])) 100 = true) as H
      by (vm_compute; reflexivity).
    by apply (for_all_spec _ _ z) in H; [apply bool_decide_eq_true in H|].
  - unfold dec_value, dec_from. simpl. rewrite !digit_value_char by done. lia.
Qed.

Lemma dec_value_bound l : forallb is_digit l = true → 0 ≤ dec_value l < 10 ^ len l.
Proof.
  induction l as [|c l IH] using rev_ind; [done|]. rewrite forallb_app. intros [Hl Hc]%andb_prop.
  apply IH in Hl. simpl in Hc. rewrite andb_true_r in Hc. apply is_digit_value in Hc.
  unfold dec_value in *. rewrite dec_from_app, len_app, Z.pow_add_r by (apply len_nonneg || done).
  unfold dec_from at 1 3. simpl. change (10 ^ len [c]) with 10. lia.
Qed.

(** A four-digit year. *)
Lemma year_digits y : 1000 ≤ y ≤ 9999 → ∃ a b c d, to_string y = [a; b; c; d] ∧ dec_value [a; b; c; d] = y.
Proof.
  intros Hy. rewrite to_string_nonneg by lia. pose proof (digits_value y ltac:(lia)) as Hv.
  pose proof (digits_digits y ltac:(lia)) as Hd. pose proof (digits_len y 4 ltac:(lia) ltac:(simpl; lia)) as Hl.
  destruct (digits y) as [|a [|b [|c [|d [|]]]]] eqn:E; unfold len in Hl; simpl in Hl; try lia;
    try (apply dec_value_bound in Hd; rewrite Hv in Hd; unfold len in Hd; simpl in Hd; lia).
  by exists a, b, c, d.
Qed.

(** The fields [gmtime_r] computes. *)
Lemma gmtime_r_fields now utc :
  gmtime_r now = Some utc →
  ∃ year month day, date_of_day (now / kSecondsPerDay) = (year, month, day) ∧
    tm_year utc = year - 1900 ∧ tm_mon utc = month - 1 ∧ tm_mday utc = day ∧ 1 ≤ month ≤ 12 ∧ 1 ≤ day ≤ 31 ∧
    - 2 ^ 31 ≤ year - 1900 < 2 ^ 31 ∧
    0 ≤ tm_hour utc < 24 ∧ 0 ≤ tm_min utc < 60 ∧ 0 ≤ tm_sec utc < 60 ∧
    3600 * tm_hour utc + 60 * tm_min utc + tm_sec utc = now mod kSecondsPerDay.
Proof.
  unfold gmtime_r. destruct (date_of_day_spec (now / kSecondsPerDay)) as (Hv & _ & _).
  destruct (date_of_day _) as [[y m] n]. case_bool_decide as Hr; [|done]. intros [= <-]. exists y, m, n. simpl.
  pose proof (valid_day _ _ _ Hv). unfold valid_date in Hv.
  unfold kSecondsPerDay. split_and!; try done; try lia; Z.to_euclidean_division_equations; lia.
Qed.

(** The length of the text, whatever the year. *)
Lemma strftime_length now utc :
  gmtime_r now = Some utc → 17 ≤ len (strftime 32 utc) ≤ 27.
Proof.
  intros (y & m & n & _ & Hy & Hm & Hn & Hmr & Hnr & Hyr & Hh & Hmi & Hs & _)%gmtime_r_fields.
  unfold strftime. rewrite Hy, Hm, Hn. replace (y - 1900 + 1900) with y by lia. replace (m - 1 + 1) with m by lia.
  destruct (two_digits_spec m ltac:(lia)) as (? & ? & -> & _), (two_digits_spec n ltac:(lia)) as (? & ? & -> & _),
    (two_digits_spec (tm_hour utc) ltac:(lia)) as (? & ? & -> & _), (two_digits_spec (tm_min utc) ltac:(lia)) as (? & ? & -> & _),
    (two_digits_spec (tm_sec utc) ltac:(lia)) as (? & ? & -> & _).
  assert (1 ≤ len (to_string y) ≤ 11) as Hly.
  { unfold to_string. assert (1 ≤ len (digits (Z.abs y)) ≤ 10).
    { pose proof (digits_nonempty (Z.abs y)). pose proof (digits_len (Z.abs y) 10 ltac:(lia) ltac:(simpl; lia)).
      destruct (digits (Z.abs y)); [done|]. len_lia. }
    destruct (Z.ltb_spec y 0).
    - replace (- y) with (Z.abs y) by lia. change (lit "-") with ["-"%char]. len_lia.
    - replace y with (Z.abs y) at 1 2 by lia. lia. }
  cbv zeta. match goal with |- context [len ?l <? 32] => assert (len l = len (to_string y) + 16) as Hlen end.
  { rewrite len_app. f_equal. }
  rewrite Hlen. replace (len (to_string y) + 16 <? 32) with true by lia. lia.
Qed.

(** C34. The time stamp of a log line.  The date is the Gregorian one, day by
    day from 1970-01-01; the text is never cut off by the buffer of 32 bytes,
    whatever the clock reads; and up to the year 9999 it has the form
    [YYYY-MM-DDTHH:MM:SSZ] of 20 bytes, from which a reader recovers the very
    second: two seconds never have the same stamp. *)
Theorem timestamp_correct :
  (∀ n, date_of_day (Z.of_nat n) = Nat.iter n next_date (1970, 1, 1)) ∧
  (∀ now s, timestamp_now now = Some s → 17 ≤ len s ≤ 27) ∧
  (∀ now, 0 ≤ now < 253402300800 →
    ∃ s, timestamp_now now = Some s ∧ len s = 20 ∧ read_timestamp s = Some now).
Proof.
  split; [apply date_of_day_iter|]. split.
  { intros now s. unfold timestamp_now. destruct (gmtime_r now) as [utc|] eqn:E; simpl; [|done].
    intros [= <-]. by eapply strftime_length. }
  intros now Hnow. assert (0 ≤ now / kSecondsPerDay < 2932897) as Hday
    by (unfold kSecondsPerDay; Z.to_euclidean_division_equations; lia).
  pose proof (date_year_range _ Hday) as Hyr. destruct (date_of_day_spec (now / kSecondsPerDay)) as (_ & Hd & _).
  assert (∃ utc, gmtime_r now = Some utc) as [utc Hg].
  { unfold gmtime_r. destruct (date_of_day _) as [[y m] n]. simpl in Hyr. rewrite bool_decide_true by lia. eauto. }
  unfold timestamp_now. rewrite Hg. simpl. eexists. split; [done|].
  apply gmtime_r_fields in Hg as (y & m & n & Hdate & Hy & Hm & Hn & Hmr & Hnr & _ & Hh & Hmi & Hs & Hsum).
  rewrite Hdate in Hd, Hyr. simpl in Hyr. unfold strftime. rewrite Hy, Hm, Hn.
  replace (y - 1900 + 1900) with y by lia. replace (m - 1 + 1) with m by lia.
  destruct (year_digits y ltac:(lia)) as (y1 & y2 & y3 & y4 & -> & Ey), (two_digits_spec m ltac:(lia)) as (m1 & m2 & -> & Em),
    (two_digits_spec n ltac:(lia)) as (n1 & n2 & -> & En), (two_digits_spec (tm_hour utc) ltac:(lia)) as (h1 & h2 & -> & Eh),
    (two_digits_spec (tm_min utc) ltac:(lia)) as (i1 & i2 & -> & Ei), (two_digits_spec (tm_sec utc) ltac:(lia)) as (s1 & s2 & -> & Es).
  simpl. split; [done|]. unfold read_timestamp. rewrite bool_decide_true by done.
  cbn -[day_of_date dec_value kSecondsPerDay Z.mul Z.add].
  rewrite Ey, Em, En, Eh, Ei, Es, Hd. f_equal. pose proof (Z.div_mod now kSecondsPerDay ltac:(done)). lia.
Qed.

Example timestamp_example : timestamp_now 1709164800 = Some (lit "2024-02-29T00:00:00Z").
Proof. vm_compute. reflexivity. Qed.
