(* ===== verification/Cli.v ===== *)
(** * Command-line options

    Models [src/src/cli/options.cpp] and
    [src/include/kvstore/cli/options.hpp]. *)
From S2P Require Import Prelude Decimal Client Logger.

Record ServerOptions := mkServerOptions {
  bind_address : bytes;
  port : Z;               (* std::uint16_t *)
  worker_count : Z;       (* std::size_t *)
  shard_count : Z;
  queue_capacity : Z;
  log_level : bytes;
  show_help : bool;
  show_version : bool;
}.

#[export] Instance ServerOptions_eq_dec : EqDecision ServerOptions.
Proof. solve_decision. Defined.

Definition default_options : ServerOptions :=
  mkServerOptions (lit "0.0.0.0") 6380 4 32 1024 (lit "info") false false.

(** [std::from_chars] for an unsigned type with the largest value [max]: the
    longest digit string, no sign and no space; the value and the rest. *)
Definition from_chars (max : Z) (value : bytes) : option (Z * bytes) :=
  match take_digits value with
  | [] => None
  | ds => if bool_decide (dec_value ds ≤ max) then Some (dec_value ds, drop (length ds) value) else None
  end.

Definition parse_unsigned (max : Z) (flag value : bytes) : result Z :=
  match from_chars max value with
  | Some (z, []) => Ok z
  | _ => Throw (InvalidArgument (lit "invalid value for " ++ flag ++ lit ": '" ++ value ++ lit "'"))
  end.

(** [next_value]: the argument after the flag and the arguments after that. *)
Definition next_value (rest : list bytes) (flag : bytes) : result (bytes * list bytes) :=
  match rest with
  | [] => Throw (InvalidArgument (lit "missing value for " ++ flag))
  | v :: rest => Ok (v, rest)
  end.

Definition UINT16_MAX : Z := 2 ^ 16 - 1.

(** The options that take a value. *)
Inductive ValueFlag := FBind | FPort | FWorkers | FShards | FQueueCapacity | FLogLevel.

Definition value_flag (arg : bytes) : option ValueFlag :=
  if bool_decide (arg = lit "--bind") then Some FBind
  else if bool_decide (arg = lit "--port") then Some FPort
  else if bool_decide (arg = lit "--workers") then Some FWorkers
  else if bool_decide (arg = lit "--shards") then Some FShards
  else if bool_decide (arg = lit "--queue-capacity") then Some FQueueCapacity
  else if bool_decide (arg = lit "--log-level") then Some FLogLevel
  else None.

Definition set_value (f : ValueFlag) (arg value : bytes) (o : ServerOptions) : result ServerOptions :=
  match f with
  | FBind =>
      mret (mkServerOptions value (port o) (worker_count o) (shard_count o) (queue_capacity o)
              (log_level o) (show_help o) (show_version o))
  | FPort =>
      p ← parse_unsigned UINT16_MAX arg value;
      mret (mkServerOptions (bind_address o) p (worker_count o) (shard_count o) (queue_capacity o)
              (log_level o) (show_help o) (show_version o))
  | FWorkers =>
      n ← parse_unsigned UINT64_MAX arg value;
      mret (mkServerOptions (bind_address o) (port o) n (shard_count o) (queue_capacity o)
              (log_level o) (show_help o) (show_version o))
  | FShards =>
      n ← parse_unsigned UINT64_MAX arg value;
      mret (mkServerOptions (bind_address o) (port o) (worker_count o) n (queue_capacity o)
              (log_level o) (show_help o) (show_version o))
  | FQueueCapacity =>
      n ← parse_unsigned UINT64_MAX arg value;
      mret (mkServerOptions (bind_address o) (port o) (worker_count o) (shard_count o) n
              (log_level o) (show_help o) (show_version o))
  | FLogLevel =>
      match parse_level value with
      | None => Throw (InvalidArgument (lit "invalid value for --log-level: '" ++ value ++ lit "'"))
      | Some _ =>
          mret (mkServerOptions (bind_address o) (port o) (worker_count o) (shard_count o)
                  (queue_capacity o) value (show_help o) (show_version o))
      end
  end.

Definition set_help (o : ServerOptions) : ServerOptions :=
  mkServerOptions (bind_address o) (port o) (worker_count o) (shard_count o) (queue_capacity o)
    (log_level o) true (show_version o).
Definition set_version (o : ServerOptions) : ServerOptions :=
  mkServerOptions (bind_address o) (port o) (worker_count o) (shard_count o) (queue_capacity o)
    (log_level o) (show_help o) true.

(** The loop of [parse_args] over the arguments left. *)
Fixpoint parse_options (fuel : nat) (args : list bytes) (o : ServerOptions) : option (result ServerOptions) :=
  match fuel with
  | O => None
  | S fuel =>
      match args with
      | [] => Some (Ok o)
      | arg :: rest =>
          if bool_decide (arg = lit "--help") || bool_decide (arg = lit "-h") then
            parse_options fuel rest (set_help o)
          else if bool_decide (arg = lit "--version") || bool_decide (arg = lit "-v") then
            parse_options fuel rest (set_version o)
          else
            match value_flag arg with
            | None => Some (Throw (InvalidArgument (lit "unknown option: '" ++ arg ++ lit "'")))
            | Some f =>
                match next_value rest arg with
                | Throw e => Some (Throw e)
                | Ok (v, rest) =>
                    match set_value f arg v o with
                    | Throw e => Some (Throw e)
                    | Ok o => parse_options fuel rest o
                    end
                end
            end
      end
  end.

Definition parse_args (args : list bytes) : option (result ServerOptions) :=
  parse_options (S (length args)) args default_options.

(** ** What the options satisfy *)
Record options_wf (o : ServerOptions) : Prop := {
  opt_port : 0 ≤ port o ≤ UINT16_MAX;
  opt_workers : in_u64 (worker_count o);
  opt_shards : in_u64 (shard_count o);
  opt_capacity : in_u64 (queue_capacity o);
  opt_level : is_Some (parse_level (log_level o));
}.

Lemma take_digits_digits s : forallb is_digit (take_digits s) = true.
Proof. induction s as [|c s IH]; simpl; [done|]. destruct (is_digit c) eqn:E; simpl; [by rewrite E|done]. Qed.

Lemma take_digits_split s : s = take_digits s ++ drop (length (take_digits s)) s.
Proof. induction s as [|c s IH]; simpl; [done|]. destruct (is_digit c); simpl; [by f_equal|done]. Qed.

Lemma take_digits_all s : forallb is_digit s = true → take_digits s = s.
Proof. induction s as [|c s IH]; simpl; [done|]. intros [-> ?]%andb_prop. f_equal. auto. Qed.

Lemma parse_unsigned_spec max flag value z :
  parse_unsigned max flag value = Ok z ↔
  value ≠ [] ∧ forallb is_digit value = true ∧ dec_value value = z ∧ z ≤ max.
Proof.
  unfold parse_unsigned, from_chars. pose proof (take_digits_digits value) as Hd.
  pose proof (take_digits_split value) as Hs. split.
  - destruct (take_digits value) as [|c ds] eqn:E; [done|]. case_bool_decide; [|done].
    destruct (drop _ value) as [|x l]; [|done]. intros [= <-]. rewrite app_nil_r in Hs.
    rewrite <-Hs in *. subst. by split_and!.
  - intros (Hne & Hall & <- & Hle). rewrite take_digits_all by done.
    destruct value; [done|]. by rewrite bool_decide_true, drop_all.
Qed.

Lemma dec_value_nonneg l : forallb is_digit l = true → 0 ≤ dec_value l.
Proof. intros. by apply dec_from_ge. Qed.

Lemma parse_unsigned_range max flag value z : parse_unsigned max flag value = Ok z → 0 ≤ z ≤ max.
Proof. intros (_ & Hd & <- & ?)%parse_unsigned_spec. by apply dec_value_nonneg in Hd. Qed.

Lemma default_options_wf : options_wf default_options.
Proof. constructor; [by vm_compute..|]. eexists. vm_compute. reflexivity. Qed.

Lemma set_value_wf f arg value o o' : options_wf o → set_value f arg value o = Ok o' → options_wf o'.
Proof.
  intros [] Hs. destruct f; unfold set_value in Hs; simpl in Hs.
  1: injection Hs as <-; by constructor.
  5: destruct (parse_level value) eqn:E; [|done]; injection Hs as <-; constructor; simpl; eauto.
  all: destruct (parse_unsigned _ arg value) as [n|] eqn:E; simpl in Hs; [|done]; injection Hs as <-;
    apply parse_unsigned_range in E; by constructor.
Qed.

Lemma parse_options_total fuel args o :
  (length args < fuel)%nat → options_wf o →
  ∃ res, parse_options fuel args o = Some res ∧
    match res with
    | Ok o' => options_wf o'
    | Throw e => ∃ what, e = InvalidArgument what
    end.
Proof.
  revert args o. induction fuel as [|fuel IH]; intros [|arg rest] o Hf Hwf; simpl in *; try lia; [by eexists|].
  destruct (_ || _); [apply IH; [lia|by destruct Hwf]|]. destruct (_ || _); [apply IH; [lia|by destruct Hwf]|].
  destruct (value_flag arg) as [f|]; [|eexists; split; [done|]; simpl; eauto].
  destruct rest as [|v rest]; simpl in *; [eexists; split; [done|]; simpl; eauto|].
  destruct (set_value f arg v o) as [o'|e] eqn:E.
  - apply IH; [lia|by eapply set_value_wf].
  - eexists. split; [done|]. simpl. unfold set_value, parse_unsigned in E. destruct f; simpl in E; cases_in E; eauto.
Qed.

(** A command line that asks for given options. *)
Definition render_args (o : ServerOptions) : list bytes :=
  [lit "--bind"; bind_address o; lit "--port"; to_string (port o); lit "--workers"; to_string (worker_count o);
   lit "--shards"; to_string (shard_count o); lit "--queue-capacity"; to_string (queue_capacity o);
   lit "--log-level"; log_level o] ++
  (if show_help o then [lit "--help"] else []) ++ (if show_version o then [lit "-v"] else []).

Lemma parse_unsigned_to_string max flag z : 0 ≤ z ≤ max → parse_unsigned max flag (to_string z) = Ok z.
Proof.
  intros Hz. apply parse_unsigned_spec. rewrite to_string_nonneg by lia.
  split_and!; [apply digits_nonempty|apply digits_digits; lia|apply digits_value; lia|lia].
Qed.

(** One option with its value. *)
Lemma parse_options_value fuel f flag v rest o o' :
  value_flag flag = Some f → flag ≠ lit "--help" → flag ≠ lit "-h" → flag ≠ lit "--version" → flag ≠ lit "-v" →
  set_value f flag v o = Ok o' →
  parse_options (S fuel) (flag :: v :: rest) o = parse_options fuel rest o'.
Proof.
  intros Hf H1 H2 H3 H4 Hs. cbn [parse_options]. rewrite !bool_decide_false by done. simpl.
  by rewrite Hf, Hs.
Qed.

(** C35. The command line.  [parse_args] always returns, and either throws
    [std::invalid_argument] or yields options in range: a 16-bit port, 64-bit
    counts and a log level the logger knows, so that [main] can dereference
    [parse_level(options.log_level)].  Every such set of options is the result
    of a command line. *)
Theorem parse_args_correct :
  (∀ args, ∃ res, parse_args args = Some res ∧
    match res with
    | Ok o => options_wf o
    | Throw e => ∃ what, e = InvalidArgument what
    end) ∧
  (∀ o, options_wf o → parse_args (render_args o) = Some (Ok o)).
Proof.
  split.
  - intros args. apply parse_options_total; [lia|apply default_options_wf].
  - intros [b p w s q l h v] [Hp Hw Hs Hq [lv Hl]]; simpl in *. unfold parse_args, render_args.
    cbn [bind_address port worker_count shard_count queue_capacity log_level show_help show_version].
    unfold in_u64 in *. rewrite length_app. cbn [length Nat.add app].
    do 6 (erewrite parse_options_value; [|by vm_compute|by vm_compute..|
      unfold set_value; rewrite ?parse_unsigned_to_string, ?Hl by done; reflexivity]).
    destruct h, v; by vm_compute.
Qed.

Lemma parse_args_correct_witness :
  parse_args (render_args (mkServerOptions (lit "127.0.0.1") 0 1 7 65536 (lit "Warning") false true)) =
    Some (Ok (mkServerOptions (lit "127.0.0.1") 0 1 7 65536 (lit "Warning") false true)).
Proof.
  apply parse_args_correct. constructor; [by vm_compute..|]. eexists. vm_compute. reflexivity.
Defined.
