(* ===== verification/FileDescriptor.v ===== *)
(** * Owned file descriptors

    Models [src/src/net/file_descriptor.cpp].  The listener and the
    connections rely on it to close their sockets.  The heap holds the [fd_]
    member of every [FileDescriptor] object by its index; [::close] is logged. *)
From S2P Require Import Prelude.

Record FdHeap := mkFdHeap {
  objects : list Z;   (** [fd_] of each object; -1 owns nothing *)
  closes : list Z;    (** calls of [::close], in order *)
}.

(** [reset(new_fd)] of object [i]. *)
Definition fd_reset (i : nat) (new_fd : Z) (h : FdHeap) : option FdHeap :=
  fd ← objects h !! i;
  Some (mkFdHeap (<[i := new_fd]> (objects h)) (closes h ++ if bool_decide (fd >= 0) then [fd] else [])).

(** [release()]. *)
Definition fd_release (i : nat) (h : FdHeap) : option (FdHeap * Z) :=
  fd ← objects h !! i;
  Some (mkFdHeap (<[i := -1]> (objects h)) (closes h), fd).

Definition fd_construct (fd : Z) (h : FdHeap) : FdHeap := mkFdHeap (objects h ++ [fd]) (closes h).

(** The move constructor. *)
Definition fd_move_construct (j : nat) (h : FdHeap) : option FdHeap :=
  '(h, fd) ← fd_release j h; Some (fd_construct fd h).

(** The move assignment, with its test for self-assignment. *)
Definition fd_move_assign (i j : nat) (h : FdHeap) : option FdHeap :=
  if bool_decide (i = j) then match objects h !! i with Some _ => Some h | None => None end
  else '(h, fd) ← fd_release j h; fd_reset i fd h.

(** The destructor; the object is gone afterwards and owns nothing. *)
Definition fd_destroy (i : nat) (h : FdHeap) : option FdHeap := fd_reset i (-1) h.

Definition fd_valid (i : nat) (h : FdHeap) : option bool :=
  fd ← objects h !! i; Some (bool_decide (fd >= 0)).

(** ** Programs that own descriptors *)
Inductive FdOp :=
  | FdConstruct (fd : Z)
  | FdMoveConstruct (j : nat)
  | FdMoveAssign (i j : nat)
  | FdReset (i : nat) (fd : Z)
  | FdRelease (i : nat)
  | FdDestroy (i : nat).

(** One operation: the heap and the descriptor handed out, if any. *)
Definition fd_step (op : FdOp) (h : FdHeap) : option (FdHeap * list Z) :=
  match op with
  | FdConstruct fd => Some (fd_construct fd h, [])
  | FdMoveConstruct j => h ← fd_move_construct j h; Some (h, [])
  | FdMoveAssign i j => h ← fd_move_assign i j h; Some (h, [])
  | FdReset i fd => h ← fd_reset i fd h; Some (h, [])
  | FdRelease i => '(h, fd) ← fd_release i h; Some (h, [fd])
  | FdDestroy i => h ← fd_destroy i h; Some (h, [])
  end.

Fixpoint fd_run (ops : list FdOp) (h : FdHeap) : option (FdHeap * list Z) :=
  match ops with
  | [] => Some (h, [])
  | op :: ops =>
      '(h, out) ← fd_step op h;
      '(h, rest) ← fd_run ops h;
      Some (h, out ++ rest)
  end.

(** The real descriptors of a list: an object without one has -1. *)
Definition real (l : list Z) : list Z := filter (λ fd, 0 ≤ fd) l.

(** The descriptors a program brings under ownership. *)
Definition acquires (op : FdOp) : list Z :=
  match op with FdConstruct fd | FdReset _ fd => real [fd] | _ => [] end.

Lemma real_app l l' : real (l ++ l') = real l ++ real l'.
Proof. apply filter_app. Qed.

Lemma real_insert l i fd fd' :
  l !! i = Some fd → real l ++ real [fd'] ≡ₚ real (<[i := fd']> l) ++ real [fd].
Proof.
  intros Hi. rewrite <-(take_drop_middle l i fd Hi) at 1. rewrite insert_take_drop by (by eapply lookup_lt_Some).
  unfold real. change (fd :: drop (S i) l) with ([fd] ++ drop (S i) l).
  change (fd' :: drop (S i) l) with ([fd'] ++ drop (S i) l). rewrite !filter_app, <-!app_assoc.
  apply Permutation_app_head. generalize (filter (λ x, 0 ≤ x) [fd]) (filter (λ x, 0 ≤ x) [fd']).
  generalize (filter (λ x, 0 ≤ x) (drop (S i) l)). intros D a b.
  by rewrite (Permutation_app_comm a (D ++ b)), (Permutation_app_comm D b), <-app_assoc.
Qed.

Lemma real_closed fd : (if bool_decide (fd >= 0) then [fd] else []) = real [fd].
Proof.
  unfold real. destruct (decide (0 ≤ fd)).
  - by rewrite bool_decide_true, filter_cons_True by lia.
  - by rewrite bool_decide_false, filter_cons_False by lia.
Qed.

Lemma fd_reset_spec i new_fd h h' :
  fd_reset i new_fd h = Some h' →
  real (objects h') ++ closes h' ≡ₚ real [new_fd] ++ real (objects h) ++ closes h.
Proof.
  intros (fd & Hi & [= <-])%bind_Some. simpl. rewrite real_closed.
  rewrite (Permutation_app_comm (closes h)), app_assoc, <-(real_insert _ _ _ _ Hi).
  by rewrite (Permutation_app_comm (real (objects h))), <-app_assoc.
Qed.

Lemma fd_release_spec i h h' fd :
  fd_release i h = Some (h', fd) → closes h' = closes h ∧ real [fd] ++ real (objects h') ≡ₚ real (objects h).
Proof.
  intros (fd' & Hi & [= <- <-])%bind_Some. simpl. split; [done|].
  rewrite (Permutation_app_comm (real [fd'])), <-(real_insert _ _ _ (-1) Hi). by rewrite app_nil_r.
Qed.

Lemma fd_step_spec op h h' out :
  fd_step op h = Some (h', out) →
  real out ++ real (objects h') ++ closes h' ≡ₚ acquires op ++ real (objects h) ++ closes h.
Proof.
  destruct op as [fd|j|i j|i fd|i|i]; simpl.
  - intros [= <- <-]. cbn [objects closes fd_construct]. rewrite real_app.
    by rewrite (Permutation_app_comm (real (objects h))), <-app_assoc.
  - intros (h1 & ([h2 fd] & Hr & [= <-])%bind_Some & [= <- <-])%bind_Some.
    apply fd_release_spec in Hr as [Hc Hp]. cbn [objects closes fd_construct]. rewrite Hc, real_app.
    by rewrite (Permutation_app_comm (real (objects h2))), Hp.
  - intros (h1 & Hm & [= <- <-])%bind_Some. unfold fd_move_assign in Hm. case_bool_decide.
    + destruct (objects h !! i); [|done]. by injection Hm as <-.
    + apply bind_Some in Hm as ([h2 fd] & Hr & Hs). apply fd_release_spec in Hr as [Hc Hp].
      apply fd_reset_spec in Hs. simpl. by rewrite Hs, Hc, app_assoc, Hp.
  - intros (h1 & Hs & [= <- <-])%bind_Some. by apply fd_reset_spec in Hs.
  - intros ([h1 fd] & Hr & [= <- <-])%bind_Some. apply fd_release_spec in Hr as [-> Hp].
    by rewrite app_assoc, Hp.
  - intros (h1 & Hs & [= <- <-])%bind_Some. by apply fd_reset_spec in Hs.
Qed.

(** C29. Ownership of descriptors.  For every program of constructions, moves,
    self-moves, resets, releases and destructions: the descriptors brought
    under ownership are, each exactly once, still held by one object, closed,
    or handed back by [release].  So if the program acquires distinct
    descriptors none is closed twice or used after its close, and when every
    object has been destroyed all of them have been closed or handed back. *)
Theorem descriptors_owned_once ops h out :
  fd_run ops (mkFdHeap [] []) = Some (h, out) →
  real out ++ real (objects h) ++ closes h ≡ₚ concat (acquires <$> ops) ∧
  (NoDup (concat (acquires <$> ops)) → NoDup (real (objects h) ++ closes h)) ∧
  (Forall (λ fd, fd = -1) (objects h) → real out ++ closes h ≡ₚ concat (acquires <$> ops)).
Proof.
  intros Hrun.
  assert (∀ ops h0 h out, fd_run ops h0 = Some (h, out) →
    real out ++ real (objects h) ++ closes h ≡ₚ concat (acquires <$> ops) ++ real (objects h0) ++ closes h0) as Hgen.
  { clear. induction ops as [|op ops IH]; intros h0 h out; simpl; [by intros [= <- <-]|].
    intros ([h1 o1] & Hs & ([h2 o2] & Hr & [= <- <-])%bind_Some)%bind_Some.
    apply fd_step_spec in Hs. apply IH in Hr. rewrite real_app, <-app_assoc, Hr, (app_assoc (real o1)), (Permutation_app_comm (real o1)), <-app_assoc, Hs.
    rewrite !app_assoc. by rewrite (Permutation_app_comm (concat _)). }
  apply Hgen in Hrun as Hp. simpl in Hp. rewrite app_nil_r in Hp. split_and!; [done|..].
  - rewrite <-Hp. by intros (_ & _ & ?)%NoDup_app.
  - intros Hall. rewrite <-Hp. assert (real (objects h) = []) as ->; [|done].
    clear -Hall. induction Hall as [|fd l -> _ IH]; [done|]. unfold real in *. by rewrite filter_cons_False by lia.
Qed.

Lemma descriptors_owned_once_witness :
  ∃ h out, fd_run [FdConstruct 3; FdMoveConstruct 0; FdConstruct 4; FdMoveAssign 2 1; FdDestroy 2] (mkFdHeap [] []) =
    Some (h, out) ∧ closes h = [4; 3] ∧ real out ++ real (objects h) ++ closes h ≡ₚ [3; 4].
Proof.
  exists (mkFdHeap [-1; -1; -1] [4; 3]), [].
  assert (fd_run [FdConstruct 3; FdMoveConstruct 0; FdConstruct 4; FdMoveAssign 2 1; FdDestroy 2] (mkFdHeap [] []) =
    Some (mkFdHeap [-1; -1; -1] [4; 3], [])) as E by (vm_compute; reflexivity).
  split; [exact E|]. split; [reflexivity|]. exact (proj1 (descriptors_owned_once _ _ _ E)).
Defined.
