(* ===== verification/Listener.v ===== *)
(** * The listening socket and the descriptors of the event loop

    Models the constructor of [src/src/net/listener.cpp] with its [port]
    accessor ([accept_one] is in [EventLoop.v]), and what the constructor of
    [src/src/net/event_loop.cpp] does with descriptors.  A constructor is a
    program of a small monad over the state the kernel keeps for the process:
    it may throw, and the [FileDescriptor] objects it owns are destroyed by
    the scopes that own them, on an exception as well as on a normal exit. *)
From S2P Require Import Prelude FileDescriptor.

Record ListenerConfig := mkListenerConfig {
  lc_bind_address : bytes;
  lc_port : Z;
  lc_backlog : Z;
}.

Definition default_listener : ListenerConfig := mkListenerConfig (lit "0.0.0.0") 6380 128.

(** What the system answers: a descriptor or an errno, and for calls without a
    value the errno of a failure.  [inet_pton] reads a dotted address;
    [ephemeral_port] is the port the kernel picks when asked for port 0. *)
Record EventLoopCalls := mkEventLoopCalls {
  socket_result : Z + Z;
  setsockopt_errno : option Z;
  inet_pton : bytes → option Z;
  bind_errno : option Z;
  ephemeral_port : Z;
  listen_errno : option Z;
  epoll_create_result : Z + Z;
  eventfd_result : Z + Z;
  listener_add_errno : option Z;
  wakeup_add_errno : option Z;
  getsockname_errno : option Z;
}.

(** ** What the kernel keeps *)
Record Socket := mkSocket {
  so_reuseaddr : bool;
  so_name : option (Z * Z);    (** the address and [sin_port] it is bound to *)
  so_backlog : option Z;       (** of a socket that listens *)
}.

Record Net := mkNet {
  net_fds : FdHeap;
  net_sockets : gmap Z Socket;
  net_watched : list Z;        (** registered with the epoll instance *)
  net_errno : Z;
}.

Definition empty_net : Net := mkNet (mkFdHeap [] []) ∅ [] 0.

Definition with_fds (h : FdHeap) (n : Net) : Net := mkNet h (net_sockets n) (net_watched n) (net_errno n).
Definition with_sockets (m : gmap Z Socket) (n : Net) : Net := mkNet (net_fds n) m (net_watched n) (net_errno n).
Definition with_watched (l : list Z) (n : Net) : Net := mkNet (net_fds n) (net_sockets n) l (net_errno n).
Definition with_errno (e : Z) (n : Net) : Net := mkNet (net_fds n) (net_sockets n) (net_watched n) e.

(** ** Programs that throw and own descriptors *)
Definition NetM (A : Type) : Type := Net → option (Net * result A).

#[export] Instance netm_ret : MRet NetM := λ A x n, Some (n, Ok x).
#[export] Instance netm_bind : MBind NetM := λ A B f m n,
  match m n with
  | Some (n', Ok x) => f x n'
  | Some (n', Throw e) => Some (n', Throw e)
  | None => None
  end.

Definition throw {A} (e : exn) : NetM A := λ n, Some (n, Throw e).
Definition throw_errno {A} (what : string) : NetM A :=
  λ n, Some (n, Throw (SystemError (net_errno n) (lit what))).
Definition require (b : bool) (otherwise : NetM unit) : NetM unit := if b then mret tt else otherwise.

(** An operation on [FileDescriptor] objects; the kernel forgets a socket that
    is closed. *)
Definition fd_op (f : FdHeap → option FdHeap) : NetM unit := λ n,
  match f (net_fds n) with
  | Some h =>
      let gone := drop (length (closes (net_fds n))) (closes h) in
      Some (with_sockets (foldr delete (net_sockets n) gone) (with_fds h n), Ok tt)
  | None => None
  end.

Definition fd_get (i : nat) : NetM Z := λ n,
  match objects (net_fds n) !! i with Some fd => Some (n, Ok fd) | None => None end.

(** Constructs an object that holds [fd], runs the body, and destroys the
    object: always at the end of the scope of a local, and only if the body
    throws for a member of the object under construction. *)
Definition own {A} (member : bool) (fd : Z) (body : nat → NetM A) : NetM A := λ n,
  let i := length (objects (net_fds n)) in
  match body i (with_fds (fd_construct fd (net_fds n)) n) with
  | Some (n', Ok x) =>
      if member then Some (n', Ok x)
      else match fd_op (fd_destroy i) n' with Some (n'', _) => Some (n'', Ok x) | None => None end
  | Some (n', Throw e) =>
      match fd_op (fd_destroy i) n' with Some (n'', _) => Some (n'', Throw e) | None => None end
  | None => None
  end.
Abbreviation local_fd := (own false).
Abbreviation member_fd := (own true).

(** ** System calls *)
Definition set_errno (e : Z) : NetM unit := λ n, Some (with_errno e n, Ok tt).
Definition in_kernel (f : Net → Net) : NetM unit := λ n, Some (f n, Ok tt).

(** A call that yields a descriptor, or -1 and an errno. *)
Definition returns_fd (res : Z + Z) (f : Z → Net → Net) : NetM Z :=
  match res with
  | inl fd => _ ← in_kernel (f fd); mret fd
  | inr e => _ ← set_errno e; mret (-1)
  end.
(** A call that yields 0, or -1 and an errno. *)
Definition returns_status (errno : option Z) (f : Net → Net) : NetM Z :=
  match errno with
  | None => _ ← in_kernel f; mret 0
  | Some e => _ ← set_errno e; mret (-1)
  end.

Definition on_socket (fd : Z) (f : Socket → Socket) (n : Net) : Net := with_sockets (alter f fd (net_sockets n)) n.

(** [htons] and [ntohs] on a little-endian machine: swap the two bytes. *)
Definition htons (p : Z) : Z := Z.lor (Z.shiftl (Z.land p 255) 8) (Z.shiftr p 8).

Section Calls.
Context (calls : EventLoopCalls).

Definition sys_socket : NetM Z :=
  returns_fd (socket_result calls) (λ fd n, with_sockets (<[fd := mkSocket false None None]> (net_sockets n)) n).
Definition sys_setsockopt (fd : Z) : NetM Z :=
  returns_status (setsockopt_errno calls) (on_socket fd (λ s, mkSocket true (so_name s) (so_backlog s))).
Definition sys_bind (fd sin_addr sin_port : Z) : NetM Z :=
  returns_status (bind_errno calls) (on_socket fd (λ s, mkSocket (so_reuseaddr s)
    (Some (sin_addr, if bool_decide (sin_port = 0) then htons (ephemeral_port calls) else sin_port)) (so_backlog s))).
Definition sys_listen (fd backlog : Z) : NetM Z :=
  returns_status (listen_errno calls) (on_socket fd (λ s, mkSocket (so_reuseaddr s) (so_name s) (Some backlog))).
Definition sys_epoll_create1 : NetM Z := returns_fd (epoll_create_result calls) (λ _ n, n).
Definition sys_eventfd : NetM Z := returns_fd (eventfd_result calls) (λ _ n, n).
Definition sys_epoll_add (errno : option Z) (fd : Z) : NetM Z :=
  returns_status errno (λ n, with_watched (net_watched n ++ [fd]) n).

(** [getsockname] fills in the name of a bound socket. *)
Definition sys_getsockname (fd : Z) : NetM (option Z) := λ n,
  match getsockname_errno calls with
  | Some e => Some (with_errno e n, Ok None)
  | None =>
      match net_sockets n !! fd ≫= so_name with
      | Some (_, sin_port) => Some (n, Ok (Some sin_port))
      | None => Some (n, Ok (Some 0))
      end
  end.

(** ** Listener *)

(** [c_str] ends at the first NUL. *)
Fixpoint c_str (s : bytes) : bytes :=
  match s with
  | [] => []
  | c :: s => if bool_decide (c = ascii_of_N 0) then [] else c :: c_str s
  end.

(** The body of the constructor; [fd_] is the member. *)
Definition listener_body (config : ListenerConfig) (fd_ : nat) : NetM unit :=
  fd ← sys_socket;
  local_fd fd (λ sock,
    fd ← fd_get sock;
    _ ← require (bool_decide (fd >= 0)) (throw_errno "Listener: socket() failed");
    r ← sys_setsockopt fd;
    _ ← require (bool_decide (r = 0)) (throw_errno "Listener: setsockopt(SO_REUSEADDR) failed");
    let sin_port := htons (lc_port config) in
    match inet_pton calls (c_str (lc_bind_address config)) with
    | None => throw (InvalidArgument (lit "Listener: invalid IPv4 bind address '" ++ lc_bind_address config ++ lit "'"))
    | Some sin_addr =>
        r ← sys_bind fd sin_addr sin_port;
        _ ← require (bool_decide (r = 0)) (throw_errno "Listener: bind() failed");
        _ ← require (negb (bool_decide (lc_backlog config <= 0)))
              (throw (InvalidArgument (lit "Listener: backlog must be positive")));
        r ← sys_listen fd (lc_backlog config);
        _ ← require (bool_decide (r = 0)) (throw_errno "Listener: listen() failed");
        fd_op (fd_move_assign fd_ sock)
    end).

Definition make_listener (config : ListenerConfig) : NetM unit := member_fd (-1) (listener_body config).

(** [port], of the listener whose member is [fd_]. *)
Definition listener_port (fd_ : nat) : NetM Z :=
  fd ← fd_get fd_;
  name ← sys_getsockname fd;
  match name with
  | None => throw_errno "Listener: getsockname() failed"
  | Some sin_port => mret (htons sin_port)
  end.

(** ** The members of the event loop *)
Definition epoll_add (errno : option Z) (fd : Z) : NetM unit :=
  r ← sys_epoll_add errno fd;
  require (bool_decide (r = 0)) (throw_errno "EventLoop: epoll_ctl(ADD) failed").

(** The constructor of [EventLoop] up to the callback: its listener, the epoll
    instance and the eventfd are members. *)
Definition event_loop_init (config : ListenerConfig) : NetM unit :=
  member_fd (-1) (λ listener_,
    _ ← listener_body config listener_;
    fd ← sys_epoll_create1;
    member_fd fd (λ epoll_fd_,
      fd ← sys_eventfd;
      member_fd fd (λ wakeup_fd_,
        epoll_fd ← fd_get epoll_fd_;
        _ ← require (bool_decide (epoll_fd >= 0)) (throw_errno "EventLoop: epoll_create1() failed");
        wakeup_fd ← fd_get wakeup_fd_;
        _ ← require (bool_decide (wakeup_fd >= 0)) (throw_errno "EventLoop: eventfd() failed");
        listener_fd ← fd_get listener_;
        _ ← epoll_add (listener_add_errno calls) listener_fd;
        epoll_add (wakeup_add_errno calls) wakeup_fd))).

(** ** What may fail, in order *)
Definition failure (errno : option Z) (what : string) : option exn := (λ e, SystemError e (lit what)) <$> errno.
Definition errno_of (res : Z + Z) : option Z := match res with inl _ => None | inr e => Some e end.

Definition listener_steps (config : ListenerConfig) : list (option exn) :=
  [failure (errno_of (socket_result calls)) "Listener: socket() failed";
   failure (setsockopt_errno calls) "Listener: setsockopt(SO_REUSEADDR) failed";
   match inet_pton calls (c_str (lc_bind_address config)) with
   | None => Some (InvalidArgument (lit "Listener: invalid IPv4 bind address '" ++ lc_bind_address config ++ lit "'"))
   | Some _ => None
   end;
   failure (bind_errno calls) "Listener: bind() failed";
   if bool_decide (0 < lc_backlog config) then None
   else Some (InvalidArgument (lit "Listener: backlog must be positive"));
   failure (listen_errno calls) "Listener: listen() failed"].

(** Both [epoll_create1] and [eventfd] run before the first test, so the errno
    of the second covers that of the first. *)
Definition event_loop_steps (config : ListenerConfig) : list (option exn) :=
  listener_steps config ++
  [failure (e ← errno_of (epoll_create_result calls); Some (default e (errno_of (eventfd_result calls))))
     "EventLoop: epoll_create1() failed";
   failure (errno_of (eventfd_result calls)) "EventLoop: eventfd() failed";
   failure (listener_add_errno calls) "EventLoop: epoll_ctl(ADD) failed";
   failure (wakeup_add_errno calls) "EventLoop: epoll_ctl(ADD) failed"].

(** The exception of the first step that fails. *)
Definition outcome (steps : list (option exn)) : result unit :=
  match head (omap id steps) with Some e => Throw e | None => Ok tt end.

Definition bound_port (config : ListenerConfig) : Z :=
  if bool_decide (lc_port config = 0) then ephemeral_port calls else lc_port config.
End Calls.

(** ** Network byte order *)
Lemma htons_sum p : 0 ≤ p ≤ 65535 → htons p = p mod 256 * 256 + p / 256.
Proof.
  intros Hp. unfold htons. change 255 with (Z.ones 8). rewrite Z.land_ones by lia. change (2 ^ 8) with 256.
  rewrite Z.shiftl_mul_pow2, Z.shiftr_div_pow2 by lia. change (2 ^ 8) with 256.
  pose proof (Z.add_lor_land (p mod 256 * 256) (p / 256)) as H.
  assert (Z.land (p mod 256 * 256) (p / 256) = 0) as Hz; [|lia].
  rewrite <-(Z.mod_small (p / 256) 256) by (pose proof (Z.div_mod p 256); pose proof (Z.mod_pos_bound p 256); lia).
  change 256 with (2 ^ 8). apply Z.bits_inj'. intros i Hi. rewrite Z.land_spec, Z.bits_0.
  destruct (decide (i < 8)).
  - by rewrite Z.mul_pow2_bits_low by lia.
  - rewrite (Z.mod_pow2_bits_high (p / 2 ^ 8)) by lia. apply andb_false_r.
Qed.

Lemma htons_range p : 0 ≤ p ≤ 65535 → 0 ≤ htons p ≤ 65535.
Proof.
  intros Hp. rewrite htons_sum by done. pose proof (Z.mod_pos_bound p 256). pose proof (Z.div_mod p 256). lia.
Qed.

Lemma htons_htons p : 0 ≤ p ≤ 65535 → htons (htons p) = p.
Proof.
  intros Hp. rewrite (htons_sum (htons p)) by (by apply htons_range). rewrite htons_sum by done.
  pose proof (Z.mod_pos_bound p 256). pose proof (Z.div_mod p 256).
  rewrite (Z.add_comm (p mod 256 * 256)), Z_mod_plus_full, Z_div_plus_full, (Z.mod_small (p / 256)), (Z.div_small (p / 256)) by lia. lia.
Qed.

Lemma htons_zero p : 0 ≤ p ≤ 65535 → htons p = 0 ↔ p = 0.
Proof.
  intros Hp. split; [|by intros ->]. intros H. by rewrite <-(htons_htons p Hp), H.
Qed.

(** ** The descriptors *)

(** The socket after the body of the constructor. *)
Definition bound_socket (calls : EventLoopCalls) (config : ListenerConfig) (addr : Z) : Socket :=
  mkSocket true (Some (addr, htons (bound_port calls config))) (Some (lc_backlog config)).

Definition opened (res : Z + Z) : list Z := match res with inl fd => [fd] | inr _ => [] end.
Definition descriptor (res : Z + Z) : Prop := match res with inl fd => 0 ≤ fd | inr _ => True end.

Lemma name_port calls config :
  0 ≤ lc_port config ≤ 65535 →
  (if bool_decide (htons (lc_port config) = 0) then htons (ephemeral_port calls) else htons (lc_port config)) =
  htons (bound_port calls config).
Proof.
  intros Hp. unfold bound_port. rewrite (bool_decide_ext _ _ (htons_zero _ Hp)). by case_bool_decide.
Qed.

#[local] Arguments lit : simpl never.
#[local] Arguments htons : simpl never.
Ltac net_eval :=
  cbv beta iota zeta delta [mbind netm_bind mret netm_ret own fd_get require returns_fd returns_status in_kernel
    set_errno throw throw_errno fd_op fd_destroy fd_reset fd_move_assign fd_release fd_construct epoll_add
    sys_epoll_add on_socket]; simpl;
  repeat match goal with H : bool_decide _ = _ |- _ => rewrite H; simpl end.

(** The end of a run: what is left of the sockets. *)
Ltac net_done :=
  eexists; split; [reflexivity|]; simpl; split_and!; try done;
  by rewrite ?alter_insert_eq, ?delete_insert_eq, ?delete_empty.

Lemma listener_body_spec calls config :
  descriptor (socket_result calls) → 0 ≤ lc_port config ≤ 65535 →
  ∃ n, listener_body calls config 0 (mkNet (mkFdHeap [-1] []) ∅ [] 0) = Some (n, outcome (listener_steps calls config)) ∧
    net_watched n = [] ∧
    match outcome (listener_steps calls config) with
    | Ok _ => ∃ fd addr, socket_result calls = inl fd ∧ inet_pton calls (c_str (lc_bind_address config)) = Some addr ∧
        net_fds n = mkFdHeap [fd; -1] [] ∧ net_sockets n = {[fd := bound_socket calls config addr]}
    | Throw _ => net_fds n = mkFdHeap [-1; -1] (opened (socket_result calls)) ∧ net_sockets n = ∅
    end.
Proof.
  intros Hfd Hp. unfold outcome, listener_steps, listener_body, sys_socket, sys_setsockopt, sys_bind, sys_listen.
  pose proof (name_port calls config Hp) as Hname.
  destruct (socket_result calls) as [fd|e] eqn:Es; [|net_eval; by eexists].
  simpl in Hfd. assert (bool_decide (fd >= 0) = true) as Hge by (apply bool_decide_true; lia).
  destruct (setsockopt_errno calls) as [e|]; [net_eval; net_done|].
  destruct (inet_pton calls _) as [addr|] eqn:Ea; [|net_eval; net_done].
  destruct (bind_errno calls) as [e|]; [net_eval; net_done|].
  destruct (decide (0 < lc_backlog config)) as [Hb|Hb].
  2: { rewrite (bool_decide_false _ Hb). rewrite (bool_decide_true (_ <= 0)) by lia. net_eval. net_done. }
  rewrite (bool_decide_true _ Hb), (bool_decide_false (_ <= 0)) by lia.
  destruct (listen_errno calls) as [e|]; [net_eval; net_done|].
  net_eval. eexists. split; [reflexivity|]. split; [done|]. exists fd, addr. split_and!; try done. simpl.
  rewrite !alter_insert_eq. unfold bound_socket. by rewrite <-Hname.
Qed.

(** The descriptors an event loop whose construction failed has opened: none
    after the listener if the listener failed. *)
Definition loop_opened (calls : EventLoopCalls) (config : ListenerConfig) : list Z :=
  match outcome (listener_steps calls config) with
  | Ok _ => opened (eventfd_result calls) ++ opened (epoll_create_result calls)
  | Throw _ => []
  end ++ opened (socket_result calls).

Lemma outcome_app steps steps' :
  outcome (steps ++ steps') = match outcome steps with Ok _ => outcome steps' | Throw e => Throw e end.
Proof. unfold outcome. rewrite omap_app. by destruct (omap id steps). Qed.

(** The end of a run that failed: nothing is held and no socket is left. *)
Ltac loop_undone :=
  eexists; split; [reflexivity|]; split_and!; [simpl; by rewrite !Forall_cons, Forall_nil| |done];
  apply map_empty; intros k; simpl; rewrite !lookup_delete_None, lookup_singleton_None;
  match goal with |- context [?i ≠ k] => destruct (decide (i = k)); tauto end.

Lemma event_loop_init_spec calls config :
  descriptor (socket_result calls) → descriptor (epoll_create_result calls) → descriptor (eventfd_result calls) →
  0 ≤ lc_port config ≤ 65535 →
  ∃ n, event_loop_init calls config empty_net = Some (n, outcome (event_loop_steps calls config)) ∧
    match outcome (event_loop_steps calls config) with
    | Ok _ => ∃ listener epoll wakeup addr, socket_result calls = inl listener ∧
        epoll_create_result calls = inl epoll ∧ eventfd_result calls = inl wakeup ∧
        inet_pton calls (c_str (lc_bind_address config)) = Some addr ∧
        net_fds n = mkFdHeap [listener; -1; epoll; wakeup] [] ∧
        net_sockets n = {[listener := bound_socket calls config addr]} ∧ net_watched n = [listener; wakeup]
    | Throw _ => Forall (λ fd, fd = -1) (objects (net_fds n)) ∧ net_sockets n = ∅ ∧
        closes (net_fds n) = loop_opened calls config
    end.
Proof.
  intros Hl He Hw Hp. destruct (listener_body_spec calls config Hl Hp) as (n & Hrun & Hwatch & Hn).
  unfold event_loop_steps, loop_opened. rewrite outcome_app. unfold event_loop_init, sys_epoll_create1, sys_eventfd.
  unfold own at 1. cbn [length objects net_fds empty_net]. cbv beta.
  unfold mbind at 1, netm_bind at 1.
  change (with_fds _ empty_net) with (mkNet (mkFdHeap [-1] []) ∅ [] 0). rewrite Hrun.
  destruct (outcome (listener_steps calls config)) as [[]|e].
  2: { destruct n as [h m l er]. simpl in Hn. destruct Hn as [-> ->]. destruct (socket_result calls); net_eval;
         (eexists; split; [reflexivity|]); split_and!; try done; simpl; by rewrite !Forall_cons, Forall_nil. }
  destruct Hn as (fd & addr & Es & Ea & Hf & Hs). destruct n as [h m l er]. simpl in Hf, Hs, Hwatch. subst h m l.
  rewrite Es in Hl |- *. simpl in Hl.
  assert (bool_decide (fd >= 0) = true) as Hge by (apply bool_decide_true; lia).
  destruct (epoll_create_result calls) as [ep|e]; simpl in He;
    [assert (bool_decide (ep >= 0) = true) as Hgep by (apply bool_decide_true; lia)|];
    (destruct (eventfd_result calls) as [wk|e']; simpl in Hw;
      [assert (bool_decide (wk >= 0) = true) as Hgw by (apply bool_decide_true; lia)|]);
    [|net_eval; loop_undone..].
  destruct (listener_add_errno calls) as [e|]; [net_eval; loop_undone|].
  destruct (wakeup_add_errno calls) as [e|]; [net_eval; loop_undone|].
  net_eval. eexists. split; [reflexivity|]. by exists fd, ep, wk, addr.
Qed.

(** ** When the system and the configuration allow a listener and a loop *)
Definition listener_allowed (calls : EventLoopCalls) (config : ListenerConfig) : Prop :=
  errno_of (socket_result calls) = None ∧ setsockopt_errno calls = None ∧
  is_Some (inet_pton calls (c_str (lc_bind_address config))) ∧ bind_errno calls = None ∧
  0 < lc_backlog config ∧ listen_errno calls = None.

Definition event_loop_allowed (calls : EventLoopCalls) (config : ListenerConfig) : Prop :=
  listener_allowed calls config ∧
  errno_of (epoll_create_result calls) = None ∧ errno_of (eventfd_result calls) = None ∧
  listener_add_errno calls = None ∧ wakeup_add_errno calls = None.

Lemma outcome_ok steps : outcome steps = Ok tt ↔ Forall (λ s, s = None) steps.
Proof.
  unfold outcome. induction steps as [|[e|] steps IH]; simpl; [done|..].
  - split; [done|]. by intros [? _]%Forall_cons.
  - rewrite IH, Forall_cons. naive_solver.
Qed.

Lemma failure_none errno what : failure errno what = None ↔ errno = None.
Proof. by destruct errno. Qed.

Lemma listener_allowed_ok calls config :
  outcome (listener_steps calls config) = Ok tt ↔ listener_allowed calls config.
Proof.
  rewrite outcome_ok. unfold listener_steps, listener_allowed.
  rewrite !Forall_cons, Forall_nil, !failure_none.
  destruct (inet_pton calls _); [|naive_solver]. case_bool_decide; naive_solver.
Qed.

Lemma event_loop_allowed_ok calls config :
  outcome (event_loop_steps calls config) = Ok tt ↔ event_loop_allowed calls config.
Proof.
  unfold event_loop_allowed, event_loop_steps. rewrite outcome_ok, Forall_app, <-outcome_ok, listener_allowed_ok.
  rewrite !Forall_cons, Forall_nil, !failure_none.
  destruct (errno_of (epoll_create_result calls)); naive_solver.
Qed.

(** [port] of a listener that is bound. *)
Lemma listener_port_spec calls config n fd addr i :
  0 ≤ lc_port config ≤ 65535 → 0 ≤ ephemeral_port calls ≤ 65535 →
  objects (net_fds n) !! i = Some fd → net_sockets n !! fd = Some (bound_socket calls config addr) →
  listener_port calls i n =
    match getsockname_errno calls with
    | None => Some (n, Ok (bound_port calls config))
    | Some e => Some (with_errno e n, Throw (SystemError e (lit "Listener: getsockname() failed")))
    end.
Proof.
  intros Hp He Hi Hs. unfold listener_port, sys_getsockname. net_eval. rewrite Hi. simpl.
  destruct (getsockname_errno calls); [done|]. rewrite Hs. simpl. rewrite htons_htons; [done|].
  unfold bound_port. by case_bool_decide.
Qed.

(** C36. The listener and the event loop own their descriptors or nothing.  The
    constructor of the listener succeeds exactly when every system call does,
    the address parses and the backlog is positive; then the listener holds a
    socket with SO_REUSEADDR set, bound to the configured address and port (or
    the port the kernel picked for 0) and listening with the configured
    backlog, nothing has been closed, and [port] is that port.  Otherwise the
    exception is that of the first step that failed, the socket, if there was
    one, has been closed exactly once, and no object holds it.  The same for
    the constructor of the event loop: it ends with the three descriptors held
    and the listener and the eventfd watched, or with everything it opened
    closed exactly once, the last one first.  (The descriptors the system hands
    out are not negative, and ports have 16 bits.) *)
Theorem listener_owns_socket calls config :
  descriptor (socket_result calls) → descriptor (epoll_create_result calls) → descriptor (eventfd_result calls) →
  0 ≤ lc_port config ≤ 65535 → 0 ≤ ephemeral_port calls ≤ 65535 →
  (∃ n res, make_listener calls config empty_net = Some (n, res) ∧
    res = outcome (listener_steps calls config) ∧ (res = Ok tt ↔ listener_allowed calls config) ∧
    match res with
    | Ok _ => ∃ fd addr, socket_result calls = inl fd ∧ inet_pton calls (c_str (lc_bind_address config)) = Some addr ∧
        net_fds n = mkFdHeap [fd; -1] [] ∧
        net_sockets n = {[fd := mkSocket true (Some (addr, htons (bound_port calls config))) (Some (lc_backlog config))]} ∧
        (getsockname_errno calls = None → listener_port calls 0 n = Some (n, Ok (bound_port calls config)))
    | Throw _ => net_fds n = mkFdHeap [-1; -1] (opened (socket_result calls)) ∧ net_sockets n = ∅
    end) ∧
  (∃ n res, event_loop_init calls config empty_net = Some (n, res) ∧
    res = outcome (event_loop_steps calls config) ∧ (res = Ok tt ↔ event_loop_allowed calls config) ∧
    match res with
    | Ok _ => ∃ listener epoll wakeup, socket_result calls = inl listener ∧ epoll_create_result calls = inl epoll ∧
        eventfd_result calls = inl wakeup ∧ net_fds n = mkFdHeap [listener; -1; epoll; wakeup] [] ∧
        net_watched n = [listener; wakeup]
    | Throw _ => Forall (λ fd, fd = -1) (objects (net_fds n)) ∧ net_sockets n = ∅ ∧
        closes (net_fds n) = loop_opened calls config
    end).
Proof.
  intros Hl He Hw Hp Hep. split.
  - destruct (listener_body_spec calls config Hl Hp) as (n & Hrun & _ & Hn). unfold make_listener, own.
    change (with_fds _ empty_net) with (mkNet (mkFdHeap [-1] []) ∅ [] 0). cbn [length objects net_fds empty_net].
    rewrite Hrun. pose proof (listener_allowed_ok calls config) as Hok. destruct (outcome (listener_steps calls config)) as [[]|e].
    + destruct Hn as (fd & addr & Es & Ea & Hf & Hs). eexists _, _. split_and!; [done..|]. exists fd, addr.
      split_and!; try done. intros Hg. erewrite listener_port_spec; [by rewrite Hg|done|done|by rewrite Hf|].
      rewrite Hs. apply lookup_singleton_eq.
    + destruct n as [h m l er]. simpl in Hn. destruct Hn as [-> ->].
      destruct (socket_result calls); net_eval; (eexists _, _; split; [reflexivity|]); done.
  - destruct (event_loop_init_spec calls config Hl He Hw Hp) as (n & Hrun & Hn). exists n. eexists.
    split; [done|]. rewrite <-event_loop_allowed_ok.
    destruct (outcome (event_loop_steps calls config)) as [[]|e]; [|done]. split_and!; [done..|].
    destruct Hn as (l & ep & wk & addr & ? & ? & ? & _ & ? & _ & ?). by exists l, ep, wk.
Qed.

(** A system that hands out the descriptors 3, 4 and 5. *)
Definition demo_inet_pton (s : bytes) : option Z := if bool_decide (s = lit "0.0.0.0") then Some 0 else None.
Definition demo_calls : EventLoopCalls :=
  mkEventLoopCalls (inl 3) None demo_inet_pton None 49152 None (inl 4) (inl 5) None None None.

(** It works for the default configuration; with the port taken, the socket is
    closed. *)
Lemma listener_owns_socket_witness :
  (∃ n, make_listener demo_calls default_listener empty_net = Some (n, Ok tt) ∧
    net_sockets n = {[3 := mkSocket true (Some (0, htons 6380)) (Some 128)]}) ∧
  ∃ n, event_loop_init (mkEventLoopCalls (inl 3) None demo_inet_pton (Some 98) 49152 None (inl 4) (inl 5) None None None)
    default_listener empty_net = Some (n, Throw (SystemError 98 (lit "Listener: bind() failed"))) ∧
    closes (net_fds n) = [3].
Proof.
  split.
  - destruct (listener_owns_socket demo_calls default_listener) as [(n & res & Hrun & -> & _ & H) _];
      [simpl; lia..|]. exists n. split; [exact Hrun|]. destruct H as (fd & addr & [= <-] & [= <-] & _ & Hs & _). exact Hs.
  - destruct (listener_owns_socket (mkEventLoopCalls (inl 3) None demo_inet_pton (Some 98) 49152 None (inl 4) (inl 5)
      None None None) default_listener) as [_ (n & res & Hrun & -> & _ & _ & _ & Hc)]; [simpl; lia..|].
    exists n. split; [exact Hrun|]. rewrite Hc. reflexivity.
Defined.
