(* ===== verification/Main.v ===== *)
(** * Program start

    Models [src/src/main.cpp], the constructor of [EventLoop] and
    [src/src/version.cpp]: how the options become a store, two queues, an
    event loop and a worker pool, in the order of the source, and which exit
    code a failed start gives.  The threads, the signals and the end of the
    process are the subject of [Process.v]. *)
From S2P Require Import Prelude Decimal Client BoundedQueue World.
From S2P Require Import PriorityQueue Storage StorageInv StorageSpec Dispatcher WorkerPool Logger Cli.
From S2P Require Import FileDescriptor Listener.

Definition version : bytes := lit "0.1.0".

Definition usage_text : bytes :=
  lit "Usage: kvstore_server [options]" ++ [LF; LF] ++ lit "Options:" ++ [LF] ++
  lit "  --bind <address>        Bind address (default: 0.0.0.0)" ++ [LF] ++
  lit "  --port <port>           Listen port (default: 6380)" ++ [LF] ++
  lit "  --workers <count>       Worker thread count (default: 4)" ++ [LF] ++
  lit "  --shards <count>        Storage shard count, rounded up to a power of two (default: 32)" ++ [LF] ++
  lit "  --queue-capacity <n>    Work/completion queue capacity (default: 1024)" ++ [LF] ++
  lit "  --log-level <level>     debug | info | warn | error (default: info)" ++ [LF] ++
  lit "  --help                  Print this message and exit" ++ [LF] ++
  lit "  --version               Print the version and exit" ++ [LF].

Definition describe_options (o : ServerOptions) (bound_port : Z) : bytes :=
  lit "bind=" ++ bind_address o ++ lit " port=" ++ to_string bound_port ++
  lit " workers=" ++ to_string (worker_count o) ++ lit " shards=" ++ to_string (shard_count o) ++
  lit " queue_capacity=" ++ to_string (queue_capacity o) ++ lit " log_level=" ++ log_level o.

(** ** Steps that may throw or have no defined result *)
Definition fallible (A : Type) : Type := option (result A).

#[export] Instance fallible_ret : MRet fallible := λ A x, Some (Ok x).
#[export] Instance fallible_bind : MBind fallible := λ A B f m,
  match m with Some (Ok x) => f x | Some (Throw e) => Some (Throw e) | None => None end.

Definition lift {A} (r : result A) : fallible A := Some r.

(** ** The event loop

    [main] sets the address and the port of the listener and leaves the
    backlog at its default. *)
Definition listener_config (o : ServerOptions) : ListenerConfig :=
  mkListenerConfig (bind_address o) (port o) (lc_backlog default_listener).

(** The constructor: the completion queue gets the wake-up callback last. *)
Definition make_event_loop {T} (o : ServerOptions) (calls : EventLoopCalls) (completion : BoundedQueue T unit)
    : fallible (BoundedQueue T unit) :=
  match event_loop_init calls (listener_config o) empty_net with
  | Some (_, Ok _) => mret (set_on_push (Some tt) completion)
  | Some (_, Throw e) => Some (Throw e)
  | None => None
  end.

(** [port] of the loop, whose member [listener_] is object 0; the sockets are as
    the constructor has left them. *)
Definition loop_port (o : ServerOptions) (calls : EventLoopCalls) : fallible Z :=
  match event_loop_init calls (listener_config o) empty_net with
  | Some (net, _) => snd <$> listener_port calls 0 net
  | None => None
  end.

(** What the system may answer: real descriptors and a 16-bit port. *)
Record calls_ok (calls : EventLoopCalls) : Prop := {
  calls_socket : descriptor (socket_result calls);
  calls_epoll : descriptor (epoll_create_result calls);
  calls_eventfd : descriptor (eventfd_result calls);
  calls_port : 0 ≤ ephemeral_port calls ≤ 65535;
}.

Lemma make_event_loop_spec {T} o calls (q : BoundedQueue T unit) :
  calls_ok calls → 0 ≤ port o ≤ 65535 →
  ∃ res, make_event_loop o calls q = Some res ∧
    match res with
    | Ok q' => event_loop_allowed calls (listener_config o) ∧ q' = set_on_push (Some tt) q
    | Throw _ => ¬ event_loop_allowed calls (listener_config o)
    end.
Proof.
  intros [Hs He Hw _] Hp. unfold make_event_loop.
  destruct (event_loop_init_spec calls (listener_config o) Hs He Hw Hp) as (n & -> & _).
  pose proof (event_loop_allowed_ok calls (listener_config o)) as Hok.
  destruct (outcome _) as [[]|e]; eexists; (split; [reflexivity|]); [|intros ?; by apply Hok in H].
  split; [by apply Hok|done].
Qed.

(** A loop that was constructed reports the port it was asked to bind, or the
    one the kernel has picked. *)
Lemma loop_port_spec o calls :
  calls_ok calls → 0 ≤ port o ≤ 65535 → event_loop_allowed calls (listener_config o) →
  loop_port o calls = Some match getsockname_errno calls with
    | None => Ok (bound_port calls (listener_config o))
    | Some e => Throw (SystemError e (lit "Listener: getsockname() failed"))
    end.
Proof.
  intros [Hs He Hw Hep] Hp Hok%event_loop_allowed_ok. unfold loop_port.
  destruct (event_loop_init_spec calls (listener_config o) Hs He Hw Hp) as (n & -> & Hn). rewrite Hok in Hn.
  destruct Hn as (l & ep & wk & addr & _ & _ & _ & _ & Hf & Hso & _).
  erewrite listener_port_spec; [by destruct (getsockname_errno calls)|done|done|by rewrite Hf|].
  rewrite Hso. apply lookup_singleton_eq.
Qed.

Section Main.
Context {Q : Type} `{!PriorityQueue ExpirationCandidate ExpirationCandidateOrder Q}.
Context (hash : bytes → Z).

(** The [try] block of [main] up to [run]; the configuration line asks the loop
    for its port. *)
Definition startup (o : ServerOptions) (calls : EventLoopCalls) : fallible (@WorkerPool Q unit) :=
  store ← lift (make_store (shard_count o));
  work ← lift (make_queue (queue_capacity o));
  completion ← lift (make_queue (queue_capacity o));
  completion ← make_event_loop o calls completion;
  pool ← lift (make_pool (worker_count o) store work completion);
  _ ← loop_port o calls;
  mret pool.

Inductive Outcome :=
  | Exits (code : Z) (cout cerr : list bytes)
  | Serves (level : LogLevel) (pool : @WorkerPool Q unit).

Definition exn_what (e : exn) : bytes :=
  match e with InvalidArgument what | OutOfRange what | RuntimeError what | SystemError _ what => what end.

(** [timestamp n] is the time of the [n]-th line logged; [None] stands for the
    dereference of an empty optional or a use of a descriptor that is not there. *)
Definition main (args : list bytes) (timestamp : nat → bytes) (calls : EventLoopCalls) : option Outcome :=
  parsed ← parse_args args;
  match parsed with
  | Throw e => Some (Exits 1 [] [lit "error: " ++ exn_what e ++ [LF; LF] ++ usage_text])
  | Ok o =>
      if show_help o then Some (Exits 0 [usage_text] [])
      else if show_version o then Some (Exits 0 [lit "cpp-kv-store " ++ version ++ [LF]] [])
      else
        level ← parse_level (log_level o);
        let cerr := log level kInfo (timestamp 0%nat) (lit "starting cpp-kv-store " ++ version) [] in
        match startup o calls with
        | Some (Throw e) => Some (Exits 1 [] (log level kError (timestamp 1%nat) (lit "fatal error: " ++ exn_what e) cerr))
        | Some (Ok pool) => Some (Serves level pool)
        | None => None
        end
  end.

(** What [startup] leaves to the event loop and the workers. *)
Definition pool_ready (o : ServerOptions) (p : @WorkerPool Q unit) : Prop :=
  pool_wf hash p ∧ items_ (work_queue_ p) = [] ∧ items_ (completion_queue_ p) = [] ∧
  closed_ (work_queue_ p) = false ∧ on_push_ (completion_queue_ p) = Some tt ∧
  queue_capacity_ (work_queue_ p) = queue_capacity o ∧
  queue_capacity_ (completion_queue_ p) = queue_capacity o ∧
  shard_count_ (store_ p) = bit_ceil (shard_count o) ∧
  workers_ p = replicate (Z.to_nat (worker_count o)) Popping.

(** The options and the system allow the server to start. *)
Record startable (o : ServerOptions) (calls : EventLoopCalls) : Prop := {
  start_shards : shard_count o ≠ 0;
  start_capacity : queue_capacity o ≠ 0;
  start_workers : worker_count o ≠ 0;
  start_loop : event_loop_allowed calls (listener_config o);
  start_port : getsockname_errno calls = None;
}.

Lemma startup_spec o calls :
  options_wf o → shard_count o ≤ 2 ^ 63 → calls_ok calls →
  ∃ res, startup o calls = Some res ∧
    match res with
    | Ok p => startable o calls ∧ pool_ready o p
    | Throw _ => ¬ startable o calls
    end.
Proof.
  intros [Hport Hw Hs Hq _] Hbig Hcalls. unfold startup, in_u64 in *.
  destruct (decide (shard_count o = 0)) as [H0|H0].
  { unfold make_store, normalize_shard_count. rewrite bool_decide_true by done. eexists. split; [done|]. by intros []. }
  destruct (make_store_wf (Q := Q) hash (shard_count o)) as (store & -> & Hwf & Hcount & _); [lia|]. simpl.
  unfold make_queue. case_bool_decide as Hq0; simpl; [eexists; split; [done|]; by intros []|].
  destruct (make_event_loop_spec o calls (mkBoundedQueue [] (queue_capacity o) false None : BoundedQueue Completion unit))
    as ([c|e] & -> & Hloop); [done|done| |]; simpl; [|eexists; split; [done|]; by intros []].
  destruct Hloop as [Hloop ->].
  unfold make_pool. case_bool_decide as Hw0; simpl; [eexists; split; [done|]; by intros []|].
  rewrite loop_port_spec by done. destruct (getsockname_errno calls) as [e|] eqn:Eg; simpl.
  { eexists. split; [done|]. intros []. congruence. }
  eexists. split; [done|]. split; [done|].
  unfold pool_ready. split_and!; try done. constructor; simpl; try done.
  - unfold queue_wf. simpl. len_lia.
  - by apply Forall_replicate.
Qed.

(** C31. Program start.  On every command line, with at most 2^63 shards asked
    for, [main] serves or exits; it never dereferences an empty log level.  It
    serves exactly when the options parse, ask for neither the usage nor the
    version, have a positive shard count, queue capacity and worker count,
    every system call of the event loop's set-up succeeds, the bind address
    parses, and the port can be read back; then the workers, the
    store and the two empty, open queues are in the state from which the
    guarantees of the pool and the event loop hold, with the callback in
    place.  It exits with 0 exactly when the options parse and ask for the
    usage, which it then prints, or else the version; in every other case it
    exits with 1, prints nothing to the standard output and reports the error.
    (The descriptors the system hands out are not negative, and ports have 16
    bits.) *)
Theorem main_starts args timestamp calls :
  calls_ok calls → (∀ o, parse_args args = Some (Ok o) → shard_count o ≤ 2 ^ 63) →
  ∃ out, main args timestamp calls = Some out ∧
    ((∃ level p, out = Serves level p) ↔
      ∃ o, parse_args args = Some (Ok o) ∧ show_help o = false ∧ show_version o = false ∧ startable o calls) ∧
    (∀ cout cerr, out = Exits 0 cout cerr ↔
      cerr = [] ∧ ∃ o, parse_args args = Some (Ok o) ∧
        ((show_help o = true ∧ cout = [usage_text]) ∨
         (show_help o = false ∧ show_version o = true ∧ cout = [lit "cpp-kv-store " ++ version ++ [LF]]))) ∧
    match out with
    | Exits code cout cerr => code = 0 ∨ (code = 1 ∧ cout = [] ∧ cerr ≠ [])
    | Serves level p => ∃ o, parse_args args = Some (Ok o) ∧ parse_level (log_level o) = Some level ∧ pool_ready o p
    end.
Proof.
  intros Hcalls Hbig. unfold main.
  destruct (parse_options_total (S (length args)) args default_options) as (res & Hres & Hwf);
    [lia|apply default_options_wf|]. change (parse_args args = Some res) in Hres. rewrite Hres. simpl.
  destruct res as [o|e].
  2: { eexists. split; [done|]. split_and!; [|intros cout cerr|by right]; split.
       - by intros (? & ? & ?).
       - by intros (? & ? & _).
       - by intros [= ?].
       - by intros (_ & ? & ? & _). }
  specialize (Hbig o Hres). pose proof (opt_level o Hwf) as [level Hl].
  destruct (startup_spec o calls Hwf Hbig Hcalls) as (res & Hst & Hok).
  destruct (show_help o) eqn:Hh; [|destruct (show_version o) eqn:Hv].
  1, 2: eexists; split; [done|]; split_and!; [|intros cout cerr|by left]; split;
    [by intros (? & ? & ?)|intros (? & [= <-] & ? & ? & _); congruence|intros [= <- <-]; eauto 10|].
  1, 2: intros (-> & ? & [= <-] & [(? & ->)|(? & ? & ->)]); congruence.
  rewrite Hl. simpl. rewrite Hst.
  assert (∀ cout cerr : list bytes, (cerr = [] ∧ ∃ o', Some (Ok o) = Some (Ok o') ∧ ((show_help o' = true ∧ cout = [usage_text]) ∨
      (show_help o' = false ∧ show_version o' = true ∧ cout = [lit "cpp-kv-store " ++ version ++ [LF]]))) → False) as Hno.
  { intros cout cerr (_ & o' & [= <-] & [[? _]|(_ & ? & _)]); congruence. }
  destruct res as [p|e]; (eexists; split; [done|]); (split_and!; [|intros cout cerr|]).
  - split; [intros _; exists o; naive_solver|eauto].
  - split; [done|]. by intros ?%Hno.
  - exists o. naive_solver.
  - split; [by intros (? & ? & ?)|]. by intros (o' & [= <-] & _ & _ & ?).
  - split; [by intros [= ?]|]. by intros ?%Hno.
  - right. split_and!; [done..|]. unfold log at 1. rewrite (proj2 (Z.ltb_ge _ _)); [intros Hz; by apply (app_cons_not_nil _ _ _ (eq_sym Hz))|].
    by destruct level.
Qed.
End Main.

(** A server with two workers starts; asked for its version it does not. *)
Lemma main_starts_witness :
  (∃ out, main (Q := candidate_queue) [lit "--workers"; lit "2"; lit "--shards"; lit "3"] (λ _, lit "now") demo_calls = Some out ∧
    ∃ level p, out = Serves level p) ∧
  ∃ out, main (Q := candidate_queue) [lit "--version"] (λ _, lit "now") demo_calls = Some out ∧
    out = Exits 0 [lit "cpp-kv-store " ++ version ++ [LF]] [].
Proof.
  assert (calls_ok demo_calls) as Hcalls by (constructor; simpl; lia). split.
  - assert (parse_args [lit "--workers"; lit "2"; lit "--shards"; lit "3"] =
      Some (Ok (mkServerOptions (lit "0.0.0.0") 6380 2 3 1024 (lit "info") false false))) as Hp
      by (vm_compute; reflexivity).
    destruct (main_starts (Q := candidate_queue) sum_hash [lit "--workers"; lit "2"; lit "--shards"; lit "3"]
      (λ _, lit "now") demo_calls Hcalls) as (out & Hm & [_ Hs] & _).
    + rewrite Hp. intros o [= <-]. simpl. lia.
    + exists out. split; [exact Hm|]. apply Hs. eexists. split_and!; [exact Hp|reflexivity|reflexivity|].
      by constructor.
  - assert (parse_args [lit "--version"] =
      Some (Ok (mkServerOptions (lit "0.0.0.0") 6380 4 32 1024 (lit "info") false true))) as Hp
      by (vm_compute; reflexivity).
    destruct (main_starts (Q := candidate_queue) sum_hash [lit "--version"] (λ _, lit "now") demo_calls Hcalls)
      as (out & Hm & _ & Hz & _).
    + rewrite Hp. intros o [= <-]. simpl. lia.
    + exists out. split; [exact Hm|]. apply Hz. split; [reflexivity|]. eexists. split; [exact Hp|]. by right.
Defined.
