(* ===== verification/Process.v ===== *)
(** * The life of the server process

    Models [main] of [src/src/main.cpp] from the construction of the first
    object to the exit of the process, with all its threads: the main thread
    constructs the locals of the [try] block, runs the event loop and destroys
    the locals in reverse order; the signal thread waits for SIGINT or
    SIGTERM and stops the loop; the sweeper ([src/src/storage/ttl_sweeper.cpp])
    and the workers run on their own.  One transition is one construction or
    destruction, one critical section or one blocking call of one thread, and
    the threads interleave freely.  Of the event loop the process sees its use
    of the two queues and its warnings; [System.v] puts the loop itself in
    their place.  That [run] returns once [stop] was called is the subject of
    [Wakeup.v]. *)
From stdpp Require Import relations.
From S2P Require Import Prelude Decimal Client BoundedQueue World PriorityQueue Storage StorageInv StorageSpec.
From S2P Require Import StorageConc StorageLin Dispatcher WorkerPool Sweeper Logger Cli FileDescriptor Listener Main.

Definition SIGINT : Z := 2.
Definition SIGTERM : Z := 15.

(** [block_shutdown_signals]: the mask of the calling thread, which every
    thread it creates inherits. *)
Definition block_shutdown_signals (mask : gset Z) : gset Z := mask ∪ {[SIGINT; SIGTERM]}.

(** The locals of the [try] block, in the order of their declaration. *)
Inductive Local := LStore | LSweeper | LWorkQueue | LCompletionQueue | LLoop | LPool | LSignalThread.
Definition locals : list Local :=
  [LStore; LSweeper; LWorkQueue; LCompletionQueue; LLoop; LPool; LSignalThread].

#[export] Instance Local_eq_dec : EqDecision Local.
Proof. solve_decision. Defined.

(** Where the main thread is.  [Unwinding e] leaves the block, by an exception
    if [e] is one. *)
Inductive MainPhase :=
  | Constructing
  | Running
  | JoiningSignal
  | Unwinding (e : option exn)
  | JoiningWorkers (e : option exn)
  | JoiningSweeper (e : option exn)
  | Finished (e : option exn)   (** [main] has returned *)
  | Terminated                  (** [std::terminate] *)
  | Killed.                     (** by the default action of a signal *)

(** The sweeper: before the test of its stop token, before a pass, in a pass
    before its section of the shard [next], asleep, returned. *)
Inductive SweeperPhase :=
  | SweeperNone
  | SweeperTest
  | SweeperSweep
  | SweeperPass (now : Z) (next : nat) (removed : Z)
  | SweeperSleep
  | SweeperDone.

(** The signal thread: in [sigwait], before the log line, before the store of
    the stop flag, before the wake-up, returned. *)
Inductive SignalPhase :=
  | SignalNone
  | SignalWait
  | SignalLog (n : Z)
  | SignalStore (n : Z)
  | SignalWake (n : Z)
  | SignalDone (n : Z).

#[export] Instance MainPhase_eq_dec : EqDecision MainPhase.
Proof. solve_decision. Defined.
#[export] Instance SweeperPhase_eq_dec : EqDecision SweeperPhase.
Proof. solve_decision. Defined.
#[export] Instance SignalPhase_eq_dec : EqDecision SignalPhase.
Proof. solve_decision. Defined.

Section Process.
Context {Q : Type} `{!PriorityQueue ExpirationCandidate ExpirationCandidateOrder Q}.
Context (hash : bytes → Z).
(** The options, what the system answers to the event loop's constructor and
    the log level.  A step that may log takes the formatted
    time as an argument. *)
Context (o : ServerOptions) (calls : EventLoopCalls) (level : LogLevel).
(** The signal mask the process was started with. *)
Context (mask : gset Z).

(** [pr_built] locals are constructed; [pr_pool] holds the store, the queues
    and the workers. *)
Record Process := mkProcess {
  pr_main : MainPhase;
  pr_built : nat;
  pr_pool : @WorkerPool Q unit;
  pr_sweeper : SweeperPhase;
  pr_sweeper_stop : bool;
  pr_signal : SignalPhase;
  pr_signal_joined : bool;
  pr_pending : gset Z;        (** the signals sent to the process and not taken *)
  pr_stop : bool;             (** [EventLoop::stop_requested_] *)
  pr_cerr : list bytes;
}.

Definition info (timestamp msg : bytes) : list bytes → list bytes := log level kInfo timestamp msg.

Definition no_queue {T} : BoundedQueue T unit := mkBoundedQueue [] 0 false None.

(** After [block_shutdown_signals], at the start of the block. *)
Definition process_start (timestamp : bytes) : Process :=
  mkProcess Constructing 0 (mkWorkerPool (mkStore 0 [] 0) no_queue no_queue []) SweeperNone false
    SignalNone false ∅ false (info timestamp (lit "starting cpp-kv-store " ++ version) []).

Definition with_main (m : MainPhase) (p : Process) : Process :=
  mkProcess m (pr_built p) (pr_pool p) (pr_sweeper p) (pr_sweeper_stop p) (pr_signal p)
    (pr_signal_joined p) (pr_pending p) (pr_stop p) (pr_cerr p).
Definition with_built (n : nat) (p : Process) : Process :=
  mkProcess (pr_main p) n (pr_pool p) (pr_sweeper p) (pr_sweeper_stop p) (pr_signal p)
    (pr_signal_joined p) (pr_pending p) (pr_stop p) (pr_cerr p).
Definition with_pool (w : @WorkerPool Q unit) (p : Process) : Process :=
  mkProcess (pr_main p) (pr_built p) w (pr_sweeper p) (pr_sweeper_stop p) (pr_signal p)
    (pr_signal_joined p) (pr_pending p) (pr_stop p) (pr_cerr p).
Definition with_sweeper (s : SweeperPhase) (stop : bool) (p : Process) : Process :=
  mkProcess (pr_main p) (pr_built p) (pr_pool p) s stop (pr_signal p)
    (pr_signal_joined p) (pr_pending p) (pr_stop p) (pr_cerr p).
Definition with_signal (s : SignalPhase) (p : Process) : Process :=
  mkProcess (pr_main p) (pr_built p) (pr_pool p) (pr_sweeper p) (pr_sweeper_stop p) s
    (pr_signal_joined p) (pr_pending p) (pr_stop p) (pr_cerr p).
Definition with_cerr (cerr : list bytes) (p : Process) : Process :=
  mkProcess (pr_main p) (pr_built p) (pr_pool p) (pr_sweeper p) (pr_sweeper_stop p) (pr_signal p)
    (pr_signal_joined p) (pr_pending p) (pr_stop p) cerr.

Definition with_store (s : Store Q) (w : @WorkerPool Q unit) : @WorkerPool Q unit :=
  mkWorkerPool s (work_queue_ w) (completion_queue_ w) (workers_ w).
Definition with_work (q : BoundedQueue WorkItem unit) (w : @WorkerPool Q unit) : @WorkerPool Q unit :=
  mkWorkerPool (store_ w) q (completion_queue_ w) (workers_ w).
Definition with_completion (q : BoundedQueue Completion unit) (w : @WorkerPool Q unit) : @WorkerPool Q unit :=
  mkWorkerPool (store_ w) (work_queue_ w) q (workers_ w).

(** The constructor of one local.  Before the signal thread starts, the
    configuration is logged, with the port the loop reports. *)
Definition construct (timestamp : bytes) (x : Local) (p : Process) : fallible Process :=
  let w := pr_pool p in
  match x with
  | LStore => s ← lift (make_store (shard_count o)); mret (with_pool (with_store s w) p)
  | LSweeper => mret (with_sweeper SweeperTest false p)
  | LWorkQueue => q ← lift (make_queue (queue_capacity o)); mret (with_pool (with_work q w) p)
  | LCompletionQueue => q ← lift (make_queue (queue_capacity o)); mret (with_pool (with_completion q w) p)
  | LLoop => q ← make_event_loop o calls (completion_queue_ w); mret (with_pool (with_completion q w) p)
  | LPool =>
      w ← lift (make_pool (worker_count o) (store_ w) (work_queue_ w) (completion_queue_ w));
      mret (with_pool w p)
  | LSignalThread =>
      port ← loop_port o calls;
      let cerr := info timestamp (lit "startup configuration: " ++ describe_options o port) (pr_cerr p) in
      mret (with_main Running (with_signal SignalWait (with_cerr cerr p)))
  end.

(** The destructor of one local; those of the pool and the sweeper go on to
    join their threads. *)
Definition destroy (x : Local) (e : option exn) (p : Process) : Process :=
  let gone := with_built (pred (pr_built p)) p in
  match x with
  | LSignalThread => if pr_signal_joined p then gone else with_main Terminated p
  | LPool => with_main (JoiningWorkers e) (with_pool (destroy_pool (pr_pool p)) p)
  | LLoop => with_pool (with_completion (set_on_push None (completion_queue_ (pr_pool p))) (pr_pool p)) gone
  | LSweeper => with_main (JoiningSweeper e) (with_sweeper (pr_sweeper p) true p)
  | _ => gone
  end.

Definition fatal (timestamp : bytes) (e : exn) : list bytes → list bytes :=
  log level kError timestamp (lit "fatal error: " ++ exn_what e).

(** The next step of the main thread outside [run]; [None] while it blocks. *)
Definition main_step (timestamp : bytes) (p : Process) : option Process :=
  match pr_main p with
  | Constructing =>
      x ← locals !! pr_built p;
      match construct timestamp x p with
      | Some (Ok p') => Some (with_built (S (pr_built p)) p')
      | Some (Throw e) => Some (with_main (Unwinding (Some e)) p)
      | None => None
      end
  | JoiningSignal =>
      match pr_signal p with
      | SignalDone _ =>
          Some (with_main (Unwinding None)
            (mkProcess (pr_main p) (pr_built p) (pr_pool p) (pr_sweeper p) (pr_sweeper_stop p) (pr_signal p)
               true (pr_pending p) (pr_stop p) (pr_cerr p)))
      | _ => None
      end
  | Unwinding e =>
      match pr_built p with
      | S n => x ← locals !! n; Some (destroy x e p)
      | O => Some (with_main (Finished e)
          (with_cerr (match e with Some e => fatal timestamp e (pr_cerr p) | None => info timestamp (lit "shutdown completion") (pr_cerr p) end) p))
      end
  | JoiningWorkers e =>
      if decide (joined (pr_pool p)) then Some (with_main (Unwinding e) (with_built (pred (pr_built p)) p)) else None
  | JoiningSweeper e =>
      if decide (pr_sweeper p = SweeperDone) then Some (with_main (Unwinding e) (with_built (pred (pr_built p)) p))
      else None
  | Running | Finished _ | Terminated | Killed => None
  end.

Definition exit_code (m : MainPhase) : option Z :=
  match m with Finished None => Some 0 | Finished (Some _) => Some 1 | _ => None end.

(** [TtlSweeper::run]; a pass takes one step for each shard, under the lock of
    that shard; the wait ends by its timeout or by the stop request. *)
Definition sweeper_step (now : Z) (p : Process) : option Process :=
  match pr_sweeper p with
  | SweeperTest =>
      Some (with_sweeper (if pr_sweeper_stop p then SweeperDone else SweeperSweep) (pr_sweeper_stop p) p)
  | SweeperSweep => Some (with_sweeper (SweeperPass now 0 0) (pr_sweeper_stop p) p)
  | SweeperPass now next removed =>
      '(s, ph, _) ← store_section hash (Sweeping now (max_items_per_shard default_sweeper) next removed) (store_ (pr_pool p));
      Some (with_sweeper match ph with Sweeping now _ next removed => SweeperPass now next removed | At _ => SweeperSleep end
              (pr_sweeper_stop p) (with_pool (with_store s (pr_pool p)) p))
  | SweeperSleep => Some (with_sweeper SweeperTest (pr_sweeper_stop p) p)
  | SweeperNone | SweeperDone => None
  end.

(** [sigwait] takes one of the pending signals, [choice] if it is one. *)
Definition take_pending (choice : Z) (pending : gset Z) : option Z :=
  if decide (choice ∈ pending) then Some choice else None.

(** The lambda of [signal_thread]. *)
Definition signal_step (timestamp : bytes) (choice : Z) (p : Process) : option Process :=
  match pr_signal p with
  | SignalWait =>
      n ← take_pending choice (pr_pending p);
      Some (mkProcess (pr_main p) (pr_built p) (pr_pool p) (pr_sweeper p) (pr_sweeper_stop p) (SignalLog n)
              (pr_signal_joined p) (pr_pending p ∖ {[n]}) (pr_stop p) (pr_cerr p))
  | SignalLog n =>
      Some (with_signal (SignalStore n)
              (with_cerr (info timestamp (lit "shutdown start: received signal " ++ to_string n) (pr_cerr p)) p))
  | SignalStore n =>
      Some (mkProcess (pr_main p) (pr_built p) (pr_pool p) (pr_sweeper p) (pr_sweeper_stop p) (SignalWake n)
              (pr_signal_joined p) (pr_pending p) true (pr_cerr p))
  | SignalWake n => Some (with_signal (SignalDone n) p)
  | SignalNone | SignalDone _ => None
  end.

(** A worker; its stop token fires when the pool is destroyed. *)
Definition stop_fired (m : MainPhase) : bool := match m with JoiningWorkers _ => true | _ => false end.

Definition worker_step (i : nat) (now : Z) (p : Process) : option Process :=
  '(w, _) ← pool_step hash (i, now, stop_fired (pr_main p)) (pr_pool p);
  Some (with_pool w p).

(** The event loop's use of the queues. *)
Definition loop_push (item : WorkItem) (p : Process) : Process :=
  let '(q, _, _) := try_push item (work_queue_ (pr_pool p)) in with_pool (with_work q (pr_pool p)) p.
Definition loop_pop (p : Process) : Process :=
  let '(q, _) := try_pop (completion_queue_ (pr_pool p)) in with_pool (with_completion q (pr_pool p)) p.

(** A warning of the event loop. *)
Definition loop_warn (timestamp text : bytes) (p : Process) : Process :=
  with_cerr (log level kWarn timestamp text (pr_cerr p)) p.

(** A signal: every thread has the mask of the main thread, so a blocked one
    stays pending until [sigwait] takes it. *)
Definition kill (n : Z) (p : Process) : Process :=
  if decide (n ∈ block_shutdown_signals mask) then
    mkProcess (pr_main p) (pr_built p) (pr_pool p) (pr_sweeper p) (pr_sweeper_stop p) (pr_signal p)
      (pr_signal_joined p) (pr_pending p ∪ {[n]}) (pr_stop p) (pr_cerr p)
  else with_main Killed p.

(** Who moves. *)
Inductive Thread := TMain | TSignal | TSweeper | TWorker (i : nat) | TSystem.

#[export] Instance Thread_eq_dec : EqDecision Thread.
Proof. solve_decision. Defined.

Inductive proc_step : Thread → relation Process :=
  | StepMain ts p p' : main_step ts p = Some p' → proc_step TMain p p'
  | StepLoopPush item p : pr_main p = Running → proc_step TMain p (loop_push item p)
  | StepLoopPop p : pr_main p = Running → proc_step TMain p (loop_pop p)
  | StepLoopWarn ts text p : pr_main p = Running → proc_step TMain p (loop_warn ts text p)
  | StepRunReturns p : pr_main p = Running → pr_stop p = true → proc_step TMain p (with_main JoiningSignal p)
  | StepRunThrows e p : pr_main p = Running → proc_step TMain p (with_main (Unwinding (Some e)) p)
  | StepSignal ts choice p p' : signal_step ts choice p = Some p' → proc_step TSignal p p'
  | StepSweeper now p p' : sweeper_step now p = Some p' → proc_step TSweeper p p'
  | StepWorker i now p p' : worker_step i now p = Some p' → proc_step (TWorker i) p p'
  | StepKill n p : n = SIGINT ∨ n = SIGTERM → proc_step TSystem p (kill n p).

Definition steps : relation Process := rtc (λ p p', ∃ t, proc_step t p p').

(** The objects a constructor is given a reference to, or reads. *)
Definition refers_to (x : Local) : list Local :=
  match x with
  | LStore | LWorkQueue | LCompletionQueue => []
  | LSweeper => [LStore]
  | LLoop => [LWorkQueue; LCompletionQueue]
  | LPool => [LStore; LWorkQueue; LCompletionQueue]
  | LSignalThread => [LLoop]
  end.

(** Those a destructor touches: it stops or closes what the object refers to. *)
Definition destructor_uses (x : Local) : list Local :=
  match x with
  | LLoop => [LLoop; LCompletionQueue]
  | LPool => [LPool; LWorkQueue]
  | _ => [x]
  end.

(** The objects a step of a thread touches. *)
Definition uses (t : Thread) (p : Process) : list Local :=
  match t with
  | TSystem => []
  | TMain =>
      match pr_main p with
      | Constructing => match locals !! pr_built p with Some x => refers_to x | None => [] end
      | Running => [LLoop; LWorkQueue; LCompletionQueue]
      | JoiningSignal => [LSignalThread]
      | Unwinding _ => match pr_built p with S n => default [] (destructor_uses <$> locals !! n) | O => [] end
      | JoiningWorkers _ => [LPool]
      | JoiningSweeper _ => [LSweeper]
      | Finished _ | Terminated | Killed => []
      end
  | TSignal => [LLoop; LSignalThread]
  | TSweeper => [LStore; LSweeper]
  | TWorker _ => [LStore; LWorkQueue; LCompletionQueue; LLoop; LPool]
  end.

Definition alive (x : Local) (p : Process) : Prop := x ∈ take (pr_built p) locals.

(** ** Invariant *)

(** The messages the main and the signal thread have logged. *)
Definition start_log : list (LogLevel * bytes) := [(kInfo, lit "starting cpp-kv-store " ++ version)].
(** The port the loop reports, if it does. *)
Definition reported_port : Z := match loop_port o calls with Some (Ok n) => n | _ => 0 end.
Definition config_log : list (LogLevel * bytes) :=
  start_log ++ [(kInfo, lit "startup configuration: " ++ describe_options o reported_port)].
Definition signal_log (n : Z) : list (LogLevel * bytes) :=
  config_log ++ [(kInfo, lit "shutdown start: received signal " ++ to_string n)].
Definition completion_log (n : Z) : list (LogLevel * bytes) := signal_log n ++ [(kInfo, lit "shutdown completion")].
Definition fatal_message (e : exn) : LogLevel * bytes := (kError, lit "fatal error: " ++ exn_what e).

Definition log_before (p : Process) : list (LogLevel * bytes) :=
  match pr_signal p with
  | SignalNone => start_log
  | SignalWait | SignalLog _ => config_log
  | SignalStore n | SignalWake n | SignalDone n => signal_log n
  end.

Definition log_now (p : Process) : list (LogLevel * bytes) :=
  match pr_main p with
  | Finished None => log_before p ++ [(kInfo, lit "shutdown completion")]
  | Finished (Some e) => log_before p ++ [fatal_message e]
  | _ => log_before p
  end.

(** [cerr] has the lines of these messages, each with its time, in this order;
    once the server serves also warnings of the event loop in between. *)
Inductive written (serves : bool) : list (LogLevel * bytes) → list bytes → Prop :=
  | written_nil : written serves [] []
  | written_own lvl ts msg own cerr :
      written serves own cerr → written serves (own ++ [(lvl, msg)]) (log level lvl ts msg cerr)
  | written_warn ts text own cerr :
      serves = true → written serves own cerr → written serves own (log level kWarn ts text cerr).

Definition has_served (sg : SignalPhase) : bool := match sg with SignalNone => false | _ => true end.

(** How the block is being left: after a stop, by an exception of a
    constructor, or by one of [run]. *)
Definition leaving (e : option exn) (p : Process) : Prop :=
  match e with
  | None => pr_signal_joined p = true ∧ ∃ n, pr_signal p = SignalDone n
  | Some _ => pr_signal_joined p = false ∧
      (pr_signal p = SignalNone ∧ (pr_built p ≤ 6)%nat ∨ pr_signal p ≠ SignalNone ∧ pr_built p = 7%nat)
  end.

Definition main_phase_ok (p : Process) : Prop :=
  match pr_main p with
  | Constructing => (pr_built p ≤ 6)%nat ∧ pr_signal p = SignalNone ∧ pr_signal_joined p = false
  | Running => pr_built p = 7%nat ∧ pr_signal p ≠ SignalNone ∧ pr_signal_joined p = false
  | JoiningSignal => pr_built p = 7%nat ∧ pr_stop p = true ∧ pr_signal_joined p = false
  | Unwinding e => (pr_built p ≤ 7)%nat ∧ leaving e p
  | JoiningWorkers e => pr_built p = 6%nat ∧ leaving e p
  | JoiningSweeper e => pr_built p = 2%nat ∧ pr_sweeper_stop p = true ∧ leaving e p
  | Finished e => pr_built p = 0%nat ∧ leaving e p
  | Terminated => pr_built p = 7%nat
  | Killed => False
  end.

(** The workers leave only while the pool is destroyed. *)
Definition workers_inv (p : Process) : Prop :=
  if decide (pr_built p < 6)%nat then joined (pr_pool p)
  else workers_ (pr_pool p) ≠ [] ∧
    match pr_main p with
    | JoiningWorkers _ => exits_late (pr_pool p)
    | _ => closed_ (work_queue_ (pr_pool p)) = false ∧ Exited ∉ workers_ (pr_pool p)
    end.

Record proc_inv (p : Process) : Prop := {
  pi_phase : main_phase_ok p;
  pi_sweeper : (pr_built p < 2)%nat → pr_sweeper p = SweeperNone ∨ pr_sweeper p = SweeperDone;
  pi_sweeper_stop : pr_sweeper p = SweeperNone → (pr_built p < 2)%nat;
  pi_signal : pr_stop p = true → ∃ n, pr_signal p = SignalWake n ∨ pr_signal p = SignalDone n;
  pi_store : (0 < pr_built p)%nat → store_wf hash (store_ (pr_pool p));
  pi_queue : (3 < pr_built p)%nat →
    closed_ (completion_queue_ (pr_pool p)) = false ∧ queue_wf (completion_queue_ (pr_pool p));
  pi_work : (2 < pr_built p < 6)%nat → pr_main p = Constructing → closed_ (work_queue_ (pr_pool p)) = false;
  pi_ok : Forall (worker_ok hash) (workers_ (pr_pool p));
  pi_workers : workers_inv p;
  pi_log : written (has_served (pr_signal p)) (log_now p) (pr_cerr p);
}.

Lemma written_serves own cerr : written false own cerr → written true own cerr.
Proof. induction 1; by constructor. Qed.

Lemma proc_pool_wf p : proc_inv p → (3 < pr_built p)%nat → pool_wf hash (pr_pool p).
Proof. intros [] ?. constructor; [apply pi_store0; lia|by apply pi_queue0..|done]. Qed.

Lemma process_start_inv ts : proc_inv (process_start ts).
Proof.
  constructor; simpl; try done; try (intros; exfalso; lia); try (intros; lia).
  - split_and!; [simpl; lia|done..].
  - by left.
  - unfold workers_inv. rewrite decide_True by (simpl; lia). constructor.
  - apply (written_own false kInfo ts _ [] []), written_nil.
Qed.

#[local] Arguments lit : simpl never.
#[local] Arguments log_now : simpl never.

(** *** The other threads *)
Lemma signal_step_inv ts choice p p' : proc_inv p → signal_step ts choice p = Some p' → proc_inv p'.
Proof.
  intros [Hph Hsw Hss Hsig Hst Hq Hwk Hok Hwi Hlog] Hstep. unfold signal_step in Hstep.
  destruct p as [m b w sw sst sg j pd st ce]; simpl in *.
  assert (Hne : sg ≠ SignalNone) by (by intros ->).
  assert (Hph' : ∀ sg' pd' st' ce', sg' ≠ SignalNone → (st = true → st' = true) →
    (∀ n, sg ≠ SignalDone n) → main_phase_ok (mkProcess m b w sw sst sg' j pd' st' ce')).
  { intros sg' pd' st' ce' H1 H2 Hnd. unfold main_phase_ok, leaving in *. simpl in *.
    destruct m as [| | |[]|[]|[]|[]| |]; naive_solver. }
  assert (Hlog' : ∀ sg' pd' st' ce', (∀ n, sg ≠ SignalDone n) →
     log_now (mkProcess m b w sw sst sg' j pd' st' ce') = log_before (mkProcess m b w sw sst sg' j pd' st' ce')).
  { intros sg' pd' st' ce' Hnd. unfold main_phase_ok, leaving, log_now in *. simpl in *.
    destruct m as [| | |[]|[]|[]|[]| |]; try done; destruct Hph as (_ & _ & Hx); naive_solver. }
  destruct sg as [| |n|n|n|n]; try done; [apply bind_Some in Hstep as (n & _ & [= <-])|injection Hstep as <-..].
  all: unfold with_signal, with_cerr; constructor; simpl; auto.
  all: try by apply Hph'. all: try by eauto.
  all: try (intros Hs; by destruct (Hsig Hs) as [? [?|?]]).
  all: rewrite Hlog' in Hlog |- * by done; unfold log_before in Hlog; cbn [pr_signal] in Hlog; try done.
  by apply written_own.
Qed.

(** Steps that leave the main thread, the signal thread and the log alone. *)
Lemma frame_inv p p' :
  proc_inv p → pr_main p' = pr_main p → pr_built p' = pr_built p → pr_signal p' = pr_signal p →
  pr_signal_joined p' = pr_signal_joined p → pr_stop p' = pr_stop p → pr_cerr p' = pr_cerr p →
  pr_sweeper_stop p' = pr_sweeper_stop p →
  ((pr_built p < 2)%nat → pr_sweeper p' = SweeperNone ∨ pr_sweeper p' = SweeperDone) →
  (pr_sweeper p' = SweeperNone → pr_sweeper p = SweeperNone) →
  ((0 < pr_built p)%nat → store_wf hash (store_ (pr_pool p'))) →
  ((3 < pr_built p)%nat →
    closed_ (completion_queue_ (pr_pool p')) = false ∧ queue_wf (completion_queue_ (pr_pool p'))) →
  closed_ (work_queue_ (pr_pool p')) = closed_ (work_queue_ (pr_pool p)) →
  Forall (worker_ok hash) (workers_ (pr_pool p')) → workers_inv p' → proc_inv p'.
Proof.
  intros [Hph Hsw Hss Hsig Hst Hq Hwk Hok Hwi Hlog] Em Eb Es Ej Et Ec Ess Hsw' Hnone Hst' Hq' Hcl Hok' Hwi'.
  constructor; rewrite ?Em, ?Eb, ?Es, ?Ej, ?Et, ?Ec, ?Hcl; auto.
  - unfold main_phase_ok, leaving in *. by rewrite Em, Eb, Es, Ej, Et, Ess.
  - revert Hlog. unfold log_now, log_before. by rewrite Em, Es.
Qed.

Lemma sweeper_step_inv now p p' : proc_inv p → sweeper_step now p = Some p' → proc_inv p'.
Proof.
  intros Hinv Hstep. pose proof Hinv as [_ Hsw Hss _ Hst Hq _ Hok Hwi _]. unfold sweeper_step in Hstep.
  assert (Hrun : pr_sweeper p ≠ SweeperNone → pr_sweeper p ≠ SweeperDone → (2 ≤ pr_built p)%nat).
  { intros H1 H2. destruct (decide (pr_built p < 2)%nat); [|lia]. by destruct Hsw. }
  destruct (pr_sweeper p) eqn:Esw; try done.
  - injection Hstep as <-. apply (frame_inv p); simpl; auto; [|by destruct (pr_sweeper_stop p)].
    intros. assert (2 ≤ pr_built p)%nat by auto. lia.
  - injection Hstep as <-. apply (frame_inv p); simpl; auto; try done. intros. assert (2 ≤ pr_built p)%nat by auto. lia.
  - apply bind_Some in Hstep as ([[s ph] r] & Hsweep & [= <-]). assert (2 ≤ pr_built p)%nat by auto.
    apply (frame_inv p); simpl; auto; try done; [lia|by destruct ph|]. intros _.
    destruct (store_section_total hash (store_ (pr_pool p)) (Sweeping now0 (max_items_per_shard default_sweeper) next removed))
      as (s' & ph' & r' & Heq & Hwf); [apply Hst; lia|done|]. congruence.
  - injection Hstep as <-. apply (frame_inv p); simpl; auto; try done. intros. assert (2 ≤ pr_built p)%nat by auto. lia.
Qed.

Lemma kill_inv n p : n = SIGINT ∨ n = SIGTERM → proc_inv p → proc_inv (kill n p).
Proof.
  intros Hn Hinv. unfold kill. rewrite decide_True by (unfold block_shutdown_signals; set_solver).
  pose proof Hinv as [_ Hsw Hss _ Hst Hq _ Hok Hwi _]. by apply (frame_inv p).
Qed.

(** While the work queue is open no worker leaves. *)
Lemma pool_step_open i now (w w' : @WorkerPool Q unit) k :
  pool_wf hash w → closed_ (work_queue_ w) = false → Exited ∉ workers_ w →
  pool_step hash (i, now, false) w = Some (w', k) → Exited ∉ workers_ w'.
Proof.
  intros Hwf Hcl Hnin. unfold pool_step. destruct (workers_ w !! i) as [s|] eqn:Hi; [|done]. cbn [mbind option_bind].
  intros ([[w1 s'] k'] & Hm & [= <- _])%bind_Some. simpl.
  assert (workers_ w1 = workers_ w ∧ s' ≠ Exited) as [-> Hs'].
  { destruct s as [|item|item ph|item co|]; simpl in Hm; [..|done].
    - apply bind_Some in Hm as ([[q st] out] & Hp & [= <- <- _]).
      apply pop_inv in Hp as [(_ & _ & _ & [[_ Hst]|(_ & Hst & _)])|(x & rest & _ & -> & -> & _)];
        [congruence|done|done].
    - injection Hm as <- <- _. by destruct (dispatch_begin now _).
    - apply bind_Some in Hm as ([st r] & _ & [= <- <- _]). by destruct r.
    - apply bind_Some in Hm as ([[q st] out] & Hp & [= <- <- _]).
      apply push_inv in Hp as [(Hc & _)|(Hc & Hlt & -> & -> & _)]; [destruct Hwf; congruence|]. done. }
  intros (j & Hj)%list_elem_of_lookup. apply list_lookup_insert_Some in Hj as [(_ & ? & _)|[_ Hj]]; [done|].
  apply Hnin. by eapply list_elem_of_lookup_2.
Qed.

Lemma worker_step_built i now p p' : proc_inv p → worker_step i now p = Some p' → (6 ≤ pr_built p)%nat.
Proof.
  intros [_ _ _ _ _ _ _ _ Hwi _] ([w k] & Hp & _)%bind_Some.
  destruct (decide (pr_built p < 6)%nat) as [Hlt|]; [|lia]. unfold workers_inv in Hwi. rewrite decide_True in Hwi by done.
  unfold pool_step in Hp. destruct (workers_ (pr_pool p) !! i) as [s|] eqn:Hi; [|done].
  apply (Forall_lookup_1 _ _ _ _ Hwi) in Hi as ->. done.
Qed.

Lemma worker_step_inv i now p p' : proc_inv p → worker_step i now p = Some p' → proc_inv p'.
Proof.
  intros Hinv Hstep. pose proof (worker_step_built _ _ _ _ Hinv Hstep) as Hb.
  pose proof (proc_pool_wf p Hinv ltac:(lia)) as Hwf. pose proof Hinv as [_ Hsw Hss _ _ _ _ _ Hwi _].
  apply bind_Some in Hstep as ([w k] & Hp & [= <-]).
  pose proof (pool_step_spec hash _ _ _ _ Hwf Hp) as (Hwf' & Hlen & Hcl & _ & _).
  apply (frame_inv p); simpl; auto; try (intros; apply Hwf'); [intros; split; apply Hwf'|].
  unfold workers_inv in *. simpl. rewrite decide_False in Hwi |- * by lia. destruct Hwi as [Hne Hrest].
  split; [intros Hnil; rewrite Hnil in Hlen; by destruct (workers_ (pr_pool p))|].
  revert Hp Hrest. destruct (pr_main p); intros Hp Hrest; rewrite ?Hcl;
    try (destruct Hrest as [Ho Hx]; split; [done|]; by apply (pool_step_open i now (pr_pool p) w k)).
  by eapply (pool_step_shutdown hash _ (pr_pool p)).
Qed.

(** *** The main thread *)
Lemma loop_queue_inv p p' :
  proc_inv p → pr_main p = Running → (∃ item, p' = loop_push item p) ∨ p' = loop_pop p → proc_inv p'.
Proof.
  intros Hinv Hm Hp'. pose proof Hinv as [Hph Hsw Hss _ Hst Hq _ Hok Hwi _].
  unfold main_phase_ok in Hph. rewrite Hm in Hph. destruct Hph as (Hb & _).
  unfold workers_inv in Hwi. rewrite decide_False, Hm in Hwi by lia. destruct Hwi as (Hne & Ho & Hx).
  destruct Hp' as [[item ->]| ->].
  - unfold loop_push, try_push. rewrite Ho. destruct (bool_decide _).
    all: apply (frame_inv p); simpl; auto; unfold workers_inv; simpl; rewrite decide_False, Hm by lia; done.
  - unfold loop_pop, try_pop, pop_front. destruct (items_ (completion_queue_ (pr_pool p))) as [|x rest] eqn:Hi.
    all: apply (frame_inv p); simpl; auto; try (unfold workers_inv; simpl; rewrite decide_False, Hm by lia; done).
    intros H3. destruct (Hq H3) as [Hc Hwf]. split; [done|]. unfold queue_wf in *. rewrite Hi in Hwf. simpl. len_lia.
Qed.

Lemma make_event_loop_queue (q q' : BoundedQueue Completion unit) :
  make_event_loop o calls q = Some (Ok q') → q' = set_on_push (Some tt) q.
Proof.
  unfold make_event_loop. destruct (event_loop_init _ _ _) as [[n [u|e]]|]; [|done..]. by intros [= <-].
Qed.

Ltac proc_fields :=
  constructor; simpl; auto; try done; try (intros; lia); try (unfold workers_inv; simpl; done);
  try (intros; exfalso; lia); try (unfold main_phase_ok, leaving; simpl; split_and!; first [done|lia]);
  try match goal with H : ?s = SweeperNone → _ |- ?s = SweeperNone → _ => intros ?%H; lia end;
  try match goal with H : (2 < _ < 6)%nat → _ |- (2 < _ < 6)%nat → _ => intros; apply H; [lia|done] end;
  try (intros; match goal with H : (_ < _)%nat → ?G |- ?G => apply H; lia end).

Lemma construct_inv ts x p p' :
  options_wf o → shard_count o ≤ 2 ^ 63 →
  proc_inv p → pr_main p = Constructing → locals !! pr_built p = Some x → construct ts x p = Some (Ok p') →
  proc_inv (with_built (S (pr_built p)) p').
Proof.
  intros Hopt Hshards Hinv Hm Hx Hc. destruct Hinv as [Hph Hsw Hss Hsig Hst Hq Hwk Hok Hwi Hlog].
  destruct p as [m b w sw sst sg j pd st ce]; simpl in *. subst m.
  destruct Hph as (_ & Hsg & Hj). simpl in Hsg, Hj. subst sg j.
  unfold workers_inv in Hwi. simpl in Hwi. unfold log_now, log_before in Hlog. simpl in Hlog.
  destruct b as [|[|[|[|[|[|[|]]]]]]]; try done; injection Hx as <-; simpl in Hc.
  - destruct (make_store (shard_count o)) as [s0|e] eqn:Es; simpl in Hc; [|done]. injection Hc as <-.
    assert (store_wf hash s0).
    { destruct (decide (shard_count o = 0)) as [Hz|Hz].
      - unfold make_store, normalize_shard_count in Es. by rewrite bool_decide_true in Es.
      - destruct Hopt as [_ _ Hsh _ _]. unfold in_u64 in Hsh.
        destruct (make_store_wf (Q := Q) hash (shard_count o)) as (s1 & Hs1 & Hwf & _); [lia|]. congruence. }
    proc_fields.
  - injection Hc as <-. proc_fields.
  - unfold make_queue in Hc. case_bool_decide; simpl in Hc; [done|]. injection Hc as <-. proc_fields.
  - unfold make_queue in Hc. case_bool_decide; simpl in Hc; [done|]. injection Hc as <-. proc_fields.
    intros _. split; [done|]. unfold queue_wf. destruct Hopt as [_ _ _ Hcap _]. unfold in_u64 in Hcap. simpl. len_lia.
  - destruct (make_event_loop o calls _) as [[q|e]|] eqn:Eq; simpl in Hc; [|done..]. injection Hc as <-.
    apply make_event_loop_queue in Eq as ->. proc_fields.
  - unfold make_pool in Hc. case_bool_decide as Hw0; simpl in Hc; [done|]. injection Hc as <-. proc_fields.
    + by apply Forall_replicate.
    + unfold workers_inv. simpl. destruct Hopt as [_ Hcount _ _ _]. unfold in_u64 in Hcount. split_and!.
      * destruct (Z.to_nat (worker_count o)) eqn:E; [lia|done].
      * apply Hwk; [lia|done].
      * by intros [? _]%elem_of_replicate.
  - destruct (loop_port o calls) as [[n|e]|] eqn:Ep; simpl in Hc; [|done..]. injection Hc as <-.
    proc_fields; [intros Hs; by destruct (Hsig Hs) as [? [?|?]]|].
    apply written_serves. unfold log_now, log_before. cbn [pr_main pr_signal with_built with_main with_signal with_cerr].
    unfold config_log, reported_port. rewrite Ep. by apply written_own.
Qed.

(** Leaving the block: the fields that do not depend on the phase. *)
Lemma destroy_inv x e n p :
  proc_inv p → pr_main p = Unwinding e → pr_built p = S n → locals !! n = Some x →
  proc_inv (destroy x e p).
Proof.
  intros [Hph Hsw Hss Hsig Hst Hq Hwk Hok Hwi Hlog] Hm Hb Hx.
  destruct p as [m b w sw sst sg j pd st ce]; simpl in *. subst m b.
  destruct Hph as (_ & Hl). unfold leaving in Hl. simpl in Hl. unfold workers_inv in Hwi. simpl in Hwi.
  assert (Hlog' : ∀ m b w' sw' sst', m ≠ Constructing → (∀ e, m ≠ Finished e) →
    written (has_served sg) (log_now (mkProcess m b w' sw' sst' sg j pd st ce)) ce).
  { intros m b w' sw' sst' H1 H2. revert Hlog. unfold log_now, log_before. simpl.
    destruct m; try done; try (by destruct (H2 _ eq_refl)); destruct sg; try done; repeat case_decide; naive_solver. }
  assert (Hl' : ∀ m b w' sw' sst', (n < 6)%nat ∨ j = true → (b ≤ 6)%nat →
    leaving e (mkProcess m b w' sw' sst' sg j pd st ce)).
  { intros m b w' sw' sst' Hn Hb6. unfold leaving. simpl. destruct e; [|done]. destruct Hl as [Hj Hs].
    split; [done|]. left. destruct Hn as [Hn|]; [|congruence]. destruct Hs as [[]|[]]; [done|lia]. }
  destruct n as [|[|[|[|[|[|[|]]]]]]]; try done; injection Hx as <-; unfold destroy; simpl.
  all: unfold with_built, with_main, with_pool, with_sweeper, with_completion; simpl.
  7: destruct j; simpl.
  all: proc_fields.
  all: try (unfold main_phase_ok; simpl; split_and!; try done; try lia; apply Hl'; first [by right|left; lia|lia]).
  unfold workers_inv. simpl in *. destruct Hwi as (Hne & _ & Hx). split; [done|]. by split.
Qed.

(** The phases of the main thread after [Constructing] that move without the
    other threads' state. *)
Lemma rephase_inv m' b' j' cerr' p :
  proc_inv p →
  let p' := mkProcess m' b' (pr_pool p) (pr_sweeper p) (pr_sweeper_stop p) (pr_signal p) j' (pr_pending p)
              (pr_stop p) cerr' in
  m' ≠ Constructing → (b' ≤ pr_built p)%nat → main_phase_ok p' → workers_inv p' →
  (pr_sweeper p = SweeperNone → (b' < 2)%nat) →
  ((b' < 2)%nat → pr_sweeper p = SweeperNone ∨ pr_sweeper p = SweeperDone) →
  written (has_served (pr_signal p)) (log_now p') cerr' → proc_inv p'.
Proof.
  intros [Hph Hsw Hss Hsig Hst Hq Hwk Hok Hwi Hlog] p' Hm Hb Hph' Hwi' Hn Hd Hl.
  constructor; simpl; auto; try done; intros; [apply Hst|apply Hq]; lia.
Qed.

Lemma log_rephase m' b' w' sw' sst' j' pd' st' ce' p :
  pr_main p ≠ Constructing → (∀ e, pr_main p ≠ Finished e) → m' ≠ Constructing →
  let p' := mkProcess m' b' w' sw' sst' (pr_signal p) j' pd' st' ce' in
  log_now p' = match m' with
    | Finished None => log_now p ++ [(kInfo, lit "shutdown completion")]
    | Finished (Some e) => log_now p ++ [fatal_message e]
    | _ => log_now p
    end.
Proof.
  intros H1 H2 H3 p'. assert (log_before p' = log_before p) as Hb.
  { unfold log_before, p'. simpl. by destruct (pr_signal p). }
  unfold log_now. simpl. rewrite Hb.
  destruct (pr_main p); try done; by destruct (H2 _ eq_refl).
Qed.

Lemma throw_inv ts e p x :
  proc_inv p → pr_main p = Constructing → locals !! pr_built p = Some x → construct ts x p = Some (Throw e) →
  proc_inv (with_main (Unwinding (Some e)) p).
Proof.
  intros Hinv Hm Hx Hc. pose proof Hinv as [Hph Hsw Hss _ _ _ _ _ Hwi Hlog].
  unfold main_phase_ok in Hph. rewrite Hm in Hph. destruct Hph as (Hb & Hsg & Hj).
  apply rephase_inv; simpl; auto; try done.
  - unfold main_phase_ok. simpl. split; [lia|]. split; [done|]. left. split; [done|]. simpl. lia.
  - unfold workers_inv in *. simpl. by rewrite Hm in Hwi.
  - revert Hlog. unfold log_now, log_before. simpl. by rewrite Hm, Hsg.
Qed.

Lemma workers_inv_joined p : (pr_built p < 6)%nat → joined (pr_pool p) → workers_inv p.
Proof. intros Hb Hj. unfold workers_inv. by rewrite decide_True. Qed.

Lemma leaving_smaller e p m b w sw sst pd st ce :
  (pr_built p ≤ 6)%nat → (b ≤ pr_built p)%nat → leaving e p →
  leaving e (mkProcess m b w sw sst (pr_signal p) (pr_signal_joined p) pd st ce).
Proof.
  intros Hp Hb. unfold leaving. simpl. destruct e; [|done]. intros [Hj [[Hs _]|[_ H7]]]; [|lia].
  split; [done|]. left. split; [done|lia].
Qed.

Lemma main_step_inv ts p p' :
  options_wf o → shard_count o ≤ 2 ^ 63 → proc_inv p → main_step ts p = Some p' → proc_inv p'.
Proof.
  intros Hopt Hsh Hinv Hstep. unfold main_step in Hstep. pose proof Hinv as [Hph Hsw Hss _ _ _ _ _ Hwi Hlog].
  unfold main_phase_ok in Hph. destruct (pr_main p) as [| | |e|e|e|e| |] eqn:Hm; try done.
  - apply bind_Some in Hstep as (x & Hx & Hstep).
    destruct (construct ts x p) as [[p1|e]|] eqn:Hc; [injection Hstep as <-..|done].
    + by eapply construct_inv.
    + by eapply throw_inv.
  - destruct (pr_signal p) eqn:Hs; try done. injection Hstep as <-. destruct Hph as (Hb & _).
    unfold with_main. simpl. rewrite <-Hs. apply rephase_inv; auto; try done; try lia.
    + unfold main_phase_ok, leaving. simpl. rewrite Hs. split; [lia|]. eauto.
    + unfold workers_inv in *. simpl. by rewrite Hm in Hwi.
    + rewrite log_rephase; [by rewrite Hs|congruence..|done].
  - destruct (pr_built p) as [|n] eqn:Hb.
    + injection Hstep as <-. destruct Hph as [_ Hl]. unfold with_main, with_cerr. simpl. apply rephase_inv; auto; try done; try lia.
      * apply workers_inv_joined; simpl; [lia|]. unfold workers_inv in Hwi. by rewrite decide_True in Hwi by lia.
      * rewrite log_rephase by congruence. by destruct e; apply written_own.
    + apply bind_Some in Hstep as (x & Hx & [= <-]). by eapply destroy_inv.
  - case_decide as Hj; [|done]. injection Hstep as <-. destruct Hph as [Hb Hl]. unfold with_main, with_built. simpl.
    rewrite Hb. simpl. apply rephase_inv; auto; try done; try lia.
    + unfold main_phase_ok. simpl. split; [lia|]. apply leaving_smaller; [lia|lia|done].
    + intros Hn. specialize (Hss Hn). lia.
    + rewrite log_rephase; [done|congruence..|done].
  - case_decide as Hj; [|done]. injection Hstep as <-. destruct Hph as (Hb & _ & Hl). unfold with_main, with_built. simpl.
    rewrite Hb. simpl. apply rephase_inv; auto; try done; try lia.
    + unfold main_phase_ok. simpl. split; [lia|]. apply leaving_smaller; [lia|lia|done].
    + apply workers_inv_joined; simpl; [lia|]. unfold workers_inv in Hwi. by rewrite decide_True in Hwi by lia.
    + rewrite log_rephase; [done|congruence..|done].
Qed.

Lemma warn_inv ts text p : proc_inv p → pr_main p = Running → proc_inv (loop_warn ts text p).
Proof.
  intros [Hph Hsw Hss Hsig Hst Hq Hwk Hok Hwi Hlog] Hm. constructor; try done.
  unfold main_phase_ok in Hph. rewrite Hm in Hph. destruct Hph as (_ & Hsg & _). cbn [loop_warn with_cerr pr_signal pr_cerr].
  change (log_now (loop_warn ts text p)) with (log_now p). destruct (pr_signal p); [done|by constructor..].
Qed.

Lemma proc_step_inv t p p' :
  options_wf o → shard_count o ≤ 2 ^ 63 → proc_inv p → proc_step t p p' → proc_inv p'.
Proof.
  intros Hopt Hsh Hinv Hstep. destruct Hstep as [ts p p' Hs|item p Hm|p Hm|ts text p Hm|p Hm Hs|e p Hm|ts choice p p' Hs|now p p' Hs|i now p p' Hs|n p Hn].
  - by eapply main_step_inv.
  - eapply loop_queue_inv; eauto.
  - eapply loop_queue_inv; eauto.
  - by apply warn_inv.
  - pose proof Hinv as [Hph Hsw Hss Hsig _ _ _ _ Hwi Hlog]. unfold main_phase_ok in Hph. rewrite Hm in Hph.
    apply rephase_inv; auto; try done; [by destruct Hph as (? & _ & ?)| |].
    + unfold workers_inv in *. simpl. by rewrite Hm in Hwi.
    + rewrite log_rephase; [done|congruence..|done].
  - pose proof Hinv as [Hph Hsw Hss Hsig _ _ _ _ Hwi Hlog]. unfold main_phase_ok in Hph. rewrite Hm in Hph.
    destruct Hph as (Hb & Hne & Hj). apply rephase_inv; auto; try done; try lia.
    + unfold main_phase_ok, leaving. simpl. split; [lia|]. split; [done|]. by right.
    + unfold workers_inv in *. simpl. by rewrite Hm in Hwi.
    + rewrite log_rephase; [done|congruence..|done].
  - by eapply signal_step_inv.
  - by eapply sweeper_step_inv.
  - by eapply worker_step_inv.
  - by apply kill_inv.
Qed.

Lemma steps_inv p p' :
  options_wf o → shard_count o ≤ 2 ^ 63 → proc_inv p → steps p p' → proc_inv p'.
Proof.
  intros Hopt Hsh Hinv Hsteps. revert Hinv. induction Hsteps as [|p p1 p2 [t Hs] _ IH]; [done|].
  intros. apply IH. by eapply proc_step_inv.
Qed.

(** ** Consequences *)
Lemma signal_running_built ts choice p p' : proc_inv p → signal_step ts choice p = Some p' → pr_built p = 7%nat.
Proof.
  intros [Hph _ _ Hsig _ _ _ _ _ _] Hs. unfold signal_step in Hs. unfold main_phase_ok, leaving in Hph.
  destruct (pr_signal p) eqn:E; try done; destruct (pr_main p) as [| | |[]|[]|[]|[]| |]; try (naive_solver lia).
Qed.

(** A shutdown signal, and those a process and its signal thread carry. *)
Definition shutdown_signal (n : Z) : Prop := n = SIGINT ∨ n = SIGTERM.

Definition signal_number (s : SignalPhase) : option Z :=
  match s with
  | SignalNone | SignalWait => None
  | SignalLog n | SignalStore n | SignalWake n | SignalDone n => Some n
  end.

Definition signals_ok (p : Process) : Prop :=
  (∀ n, n ∈ pr_pending p → shutdown_signal n) ∧
  (∀ n, signal_number (pr_signal p) = Some n → shutdown_signal n).

Lemma construct_signals ts x p p' :
  construct ts x p = Some (Ok p') → pr_pending p' = pr_pending p ∧ (pr_signal p' = pr_signal p ∨ pr_signal p' = SignalWait).
Proof.
  destruct x; cbn [construct].
  - destruct (make_store _); simpl; [|done]. intros [= <-]. auto.
  - intros [= <-]. auto.
  - destruct (make_queue _); simpl; [|done]. intros [= <-]. auto.
  - destruct (make_queue _); simpl; [|done]. intros [= <-]. auto.
  - destruct (make_event_loop _ _ _) as [[]|]; simpl; [|done..]. intros [= <-]. auto.
  - destruct (make_pool _ _ _ _); simpl; [|done]. intros [= <-]. auto.
  - destruct (loop_port _ _) as [[]|]; simpl; [|done..]. intros [= <-]. auto.
Qed.

Lemma main_step_signals ts p p' : signals_ok p → main_step ts p = Some p' → signals_ok p'.
Proof.
  unfold signals_ok, main_step. intros [Hp Hs] Hstep.
  destruct (pr_main p); try done; repeat case_decide; simplify_eq/=; auto.
  - apply bind_Some in Hstep as (x & _ & Hstep).
    destruct (construct ts x p) as [[p1|e]|] eqn:Hc; [injection Hstep as <-..|done]; [|done].
    apply construct_signals in Hc as [Hpd Hsg]. simpl. rewrite Hpd. split; [done|]. by destruct Hsg as [->| ->].
  - destruct (pr_signal p); try done. by injection Hstep as <-.
  - destruct (pr_built p); [by injection Hstep as <-|]. apply bind_Some in Hstep as (x & _ & [= <-]).
    destruct x; simpl; try done. by destruct (pr_signal_joined p).
Qed.

Lemma signal_step_signals ts choice p p' : signals_ok p → signal_step ts choice p = Some p' → signals_ok p'.
Proof.
  intros [Hp Hs] Hstep. unfold signal_step in Hstep.
  destruct (pr_signal p); simpl in *; try done; [apply bind_Some in Hstep as (n & Hn & [= <-])|injection Hstep as <-..].
  - unfold take_pending in Hn. case_decide; [injection Hn as ->|done]. split; simpl; [set_solver|]. intros m [= <-]. auto.
  - by split.
  - by split.
  - by split.
Qed.

(** A step of the sweeper writes its own place and the store. *)
Lemma sweeper_step_frame now p p' :
  sweeper_step now p = Some p' →
  ∃ ph s, p' = with_sweeper ph (pr_sweeper_stop p) (with_pool (with_store s (pr_pool p)) p).
Proof.
  assert (Hid : with_pool (with_store (store_ (pr_pool p)) (pr_pool p)) p = p) by (by destruct p as [?? []]).
  unfold sweeper_step. destruct (pr_sweeper p); try done.
  3: intros Hs; apply bind_Some in Hs as ([[s ph] r] & _ & [= <-]); by do 2 eexists.
  all: intros [= <-]; eexists _, (store_ (pr_pool p)); by rewrite Hid.
Qed.

(** A step of the signal thread leaves the other threads alone. *)
Lemma signal_step_frame ts choice p p' :
  signal_step ts choice p = Some p' → pr_pool p' = pr_pool p ∧ pr_sweeper p' = pr_sweeper p.
Proof.
  unfold signal_step. destruct (pr_signal p); try done; [|by intros [= <-]..].
  intros (n & _ & [= <-])%bind_Some. done.
Qed.

Lemma steps_signals p p' : signals_ok p → steps p p' → signals_ok p'.
Proof.
  intros Hok Hsteps. revert Hok. induction Hsteps as [|p p1 p2 [t Hs] _ IH]; [done|]. intros Hok. apply IH. clear IH.
  destruct Hs as [ts p p' Hs|item p Hm|p Hm|ts text p Hm|p Hm Hs|e p Hm|ts choice p p' Hs|now p p' Hs|i now p p' Hs|n p Hn].
  - by eapply main_step_signals.
  - unfold loop_push. by destruct (try_push _ _) as [[??]?].
  - unfold loop_pop. by destruct (try_pop _).
  - done.
  - done.
  - done.
  - by eapply signal_step_signals.
  - by destruct (sweeper_step_frame _ _ _ Hs) as (ph & s & ->).
  - by apply bind_Some in Hs as ([??] & _ & [= <-]).
  - unfold kill. case_decide; [|done]. destruct Hok as [Hpd Hok]. split; simpl; [|done].
    intros m [?| ->%elem_of_singleton]%elem_of_union; auto.
Qed.

(** The other threads leave the main thread where it is. *)
Lemma others_keep t p p' :
  proc_step t p p' → t ≠ TMain →
  pr_main p' = pr_main p ∧ pr_built p' = pr_built p ∧ pr_signal_joined p' = pr_signal_joined p.
Proof.
  intros Hs Ht. destruct Hs as [ts p p' Hs|item p Hm|p Hm|ts text p Hm|p Hm Hs|e' p Hm|ts choice p p' Hs|now p p' Hs|i now p p' Hs|n p Hn]; try done.
  - unfold signal_step in Hs.
    destruct (pr_signal p); try done; [apply bind_Some in Hs as (n & Hn & [= <-])|injection Hs as <-..]; done.
  - by destruct (sweeper_step_frame _ _ _ Hs) as (ph & s & ->).
  - by apply bind_Some in Hs as ([??] & _ & [= <-]).
  - unfold kill. rewrite decide_True; [done|]. unfold block_shutdown_signals. set_solver.
Qed.

Lemma terminated_step t p p' : proc_step t p p' → pr_main p = Terminated → pr_main p' = Terminated.
Proof.
  intros Hs Hm. destruct (decide (t = TMain)) as [->|Ht].
  - inversion Hs; subst; try congruence. unfold main_step in *. rewrite Hm in *. done.
  - by destruct (others_keep t p p' Hs Ht) as (-> & _).
Qed.

(** An exception of [run] stays in the block: the signal thread is joinable. *)
Lemma throws_step t e p p' :
  proc_step t p p' → pr_main p = Unwinding (Some e) → pr_built p = 7%nat → pr_signal_joined p = false →
  (pr_main p' = Unwinding (Some e) ∧ pr_built p' = 7%nat ∧ pr_signal_joined p' = false) ∨ pr_main p' = Terminated.
Proof.
  intros Hs Hm Hb Hj. destruct (decide (t = TMain)) as [->|Ht].
  - inversion Hs as [? ? ? Hst| | | | | | | | |]; subst; try congruence. unfold main_step in Hst. rewrite Hm, Hb in Hst.
    injection Hst as <-. unfold destroy. rewrite Hj. by right.
  - left. destruct (others_keep t p p' Hs Ht) as (-> & -> & ->). done.
Qed.

(** *** Room for the completions *)
#[local] Instance fits_dec (w : @WorkerPool Q unit) : Decision (fits w).
Proof. unfold fits. apply _. Defined.

Definition backlog_of (w : @WorkerPool Q unit) : Z :=
  len (items_ (completion_queue_ w)) + len (outstanding w).

Lemma pool_step_backlog t (w w' : @WorkerPool Q unit) k :
  pool_wf hash w → pool_step hash t w = Some (w', k) →
  backlog_of w' = backlog_of w ∧ queue_capacity_ (completion_queue_ w') = queue_capacity_ (completion_queue_ w).
Proof.
  intros Hwf Hs. apply (pool_step_spec hash _ _ _ _ Hwf) in Hs as (_ & _ & _ & Hcap & Hout).
  split; [|done]. unfold backlog_of, len. destruct Hout as [(Ho & -> & _)|(item & co & _ & _ & Ho & -> & _)].
  - apply Permutation_length in Ho. lia.
  - apply Permutation_length in Ho. rewrite length_app. simpl in *. lia.
Qed.

(** The process is between the end of [run] and the end of the pool, with more
    completions to come than fit. *)
Definition overfull (p : Process) : Prop :=
  ¬ fits (pr_pool p) ∧ (6 ≤ pr_built p)%nat ∧
  (pr_main p = JoiningSignal ∨ ∃ e, pr_main p = Unwinding e ∨ pr_main p = JoiningWorkers e).

Lemma overfull_step t p p' :
  proc_inv p → proc_step t p p' → overfull p → overfull p' ∨ pr_main p' = Terminated.
Proof.
  intros Hinv Hs (Hn & Hb & Hm). pose proof Hinv as [Hph _ _ _ _ _ _ _ Hwi _].
  destruct Hs as [ts p p' Hs|item p Hr|p Hr|ts text p Hr|p Hr Hs|e' p Hr|ts choice p p' Hs|now p p' Hs|i now p p' Hs|n p Hsig];
    try (destruct Hm as [Hm|(e & [Hm|Hm])]; congruence).
  - unfold main_step in Hs. destruct Hm as [Hm|(e & [Hm|Hm])]; rewrite Hm in Hs.
    + destruct (pr_signal p); try done. injection Hs as <-. left. split; [done|]. split; [done|]. right. eexists. by left.
    + unfold main_phase_ok in Hph. rewrite Hm in Hph. destruct Hph as [Hb7 _].
      destruct (pr_built p) as [|n] eqn:E; [lia|]. destruct (decide (n = 6%nat)) as [->|].
      * injection Hs as <-. unfold destroy. destruct (pr_signal_joined p); [|by right].
        left. split; [done|]. simpl. rewrite E. split; [simpl; lia|]. right. exists e. by left.
      * assert (n = 5%nat) as -> by lia. injection Hs as <-. left. simpl. split; [done|]. simpl.
        rewrite E. split; [lia|]. right. exists e. by right.
    + case_decide as Hj; [|done]. exfalso. apply Hn.
      pose proof (proc_pool_wf p Hinv ltac:(lia)) as Hwf. unfold workers_inv in Hwi.
      rewrite decide_False, Hm in Hwi by lia. destruct Hwi as [Hne Hex].
      unfold fits. rewrite (joined_outstanding (pr_pool p)) by done. pose proof (pool_cap _ _ Hwf) as Hc.
      unfold queue_wf in Hc. rewrite len_nil. lia.
  - left. unfold signal_step in Hs.
    destruct (pr_signal p); try done; [apply bind_Some in Hs as (n & _ & [= <-])|injection Hs as <-..]; done.
  - left. by destruct (sweeper_step_frame _ _ _ Hs) as (ph & s & ->).
  - left. apply bind_Some in Hs as ([w k] & Hp & [= <-]). split; [|done]. simpl.
    pose proof (proc_pool_wf p Hinv ltac:(lia)) as Hwf.
    destruct (pool_step_backlog _ _ _ _ Hwf Hp) as [Hbl Hcap]. unfold fits in *. unfold backlog_of in Hbl. lia.
  - left. unfold kill. rewrite decide_True; [done|]. unfold block_shutdown_signals. set_solver.
Qed.

(** *** A way out *)
Lemma main_steps ts p p' p'' : main_step ts p = Some p' → steps p' p'' → steps p p''.
Proof. intros H. apply rtc_l. exists TMain. by apply (StepMain ts). Qed.

(** Stop tokens do not matter once the work queue is closed. *)
Lemma pool_step_token i now s s' (w : @WorkerPool Q unit) :
  closed_ (work_queue_ w) = true → pool_step hash (i, now, s) w = pool_step hash (i, now, s') w.
Proof.
  intros Hc. unfold pool_step. destruct (workers_ w !! i) as [[]|]; try done. simpl.
  unfold pop, can_pop. by rewrite Hc.
Qed.

Lemma workers_drain ts p e :
  proc_inv p → pr_main p = JoiningWorkers e → closed_ (work_queue_ (pr_pool p)) = true →
  steps p (with_pool (pool_run hash ts (pr_pool p)) p).
Proof.
  revert p. induction ts as [|[[i now] s] ts IH]; intros p Hinv Hm Hc.
  { destruct p. apply rtc_refl. }
  change (pool_run hash ((i, now, s) :: ts) (pr_pool p)) with (pool_run hash ts
    match pool_step hash (i, now, s) (pr_pool p) with Some (w, _) => w | None => pr_pool p end).
  rewrite (pool_step_token i now s (stop_fired (pr_main p))) by done.
  destruct (pool_step hash (i, now, stop_fired (pr_main p)) (pr_pool p)) as [[w k]|] eqn:Hs; [|by apply IH].
  assert (worker_step i now p = Some (with_pool w p)) as Hw by (unfold worker_step; by rewrite Hs).
  pose proof (worker_step_inv _ _ _ _ Hinv Hw) as Hinv'.
  eapply rtc_l; [exists (TWorker i); by eapply StepWorker|].
  change (with_pool (pool_run hash ts w) p) with (with_pool (pool_run hash ts (pr_pool (with_pool w p))) (with_pool w p)).
  apply IH; [done|done|]. simpl.
  pose proof (worker_step_built _ _ _ _ Hinv Hw).
  eapply (pool_step_spec hash) in Hs as (_ & _ & -> & _); [done|]. apply proc_pool_wf; [done|lia].
Qed.

(** *** The sweeper returns once it has been asked to stop *)
Lemma sweeper_steps now q q' : sweeper_step now q = Some q' → steps q q'.
Proof. intros H. eapply rtc_l; [exists TSweeper; by apply (StepSweeper now)|apply rtc_refl]. Qed.

Lemma sweeper_tests q :
  pr_sweeper q = SweeperTest → pr_sweeper_stop q = true → steps q (with_sweeper SweeperDone true q).
Proof. intros Hq Hs. apply (sweeper_steps 0). unfold sweeper_step. by rewrite Hq, Hs. Qed.

Lemma sweeper_wakes q :
  pr_sweeper q = SweeperSleep → pr_sweeper_stop q = true → steps q (with_sweeper SweeperDone true q).
Proof.
  intros Hq Hs. etrans; [apply (sweeper_steps 0); unfold sweeper_step; by rewrite Hq|].
  rewrite Hs. by apply (sweeper_tests (with_sweeper SweeperTest true q)).
Qed.

(** A pass under way is finished, one section for each shard left. *)
Lemma sweeper_finishes_pass k q now next removed :
  pr_sweeper q = SweeperPass now next removed → pr_sweeper_stop q = true → store_wf hash (store_ (pr_pool q)) →
  (length (shards_ (store_ (pr_pool q))) - next ≤ k)%nat →
  ∃ w, steps q (with_pool w (with_sweeper SweeperDone true q)).
Proof.
  revert q next removed. induction k as [|k IH]; intros q next removed Hq Hst Hwf Hk.
  all: destruct (store_section_total hash (store_ (pr_pool q)) (Sweeping now (max_items_per_shard default_sweeper) next removed))
    as (s & ph & r & Heq & Hwf'); [done|done|].
  all: set (q1 := with_sweeper match ph with Sweeping now _ next removed => SweeperPass now next removed | At _ => SweeperSleep end
    (pr_sweeper_stop q) (with_pool (with_store s (pr_pool q)) q)).
  all: assert (Hstep : steps q q1) by (apply (sweeper_steps 0); unfold sweeper_step; by rewrite Hq, Heq).
  all: simpl in Heq; destruct (shards_ (store_ (pr_pool q)) !! next) as [shard|] eqn:Hsh.
  1: apply lookup_lt_Some in Hsh; lia.
  1, 3: injection Heq as Hs Hph _; subst ph; exists (with_store s (pr_pool q));
    etrans; [exact Hstep|]; by apply (sweeper_wakes q1).
  apply lookup_lt_Some in Hsh. apply bind_Some in Heq as ([sh n] & _ & Heq). injection Heq as Hs Hph _. subst ph.
  destruct (IH q1 (S next) (removed + n)) as [w Hw]; [done..| |].
  - subst q1 s. simpl. rewrite length_insert. lia.
  - exists w. etrans; [exact Hstep|exact Hw].
Qed.

Lemma sweeper_leaves p :
  proc_inv p → (2 ≤ pr_built p)%nat → pr_sweeper_stop p = true →
  ∃ w, steps p (with_pool w (with_sweeper SweeperDone true p)).
Proof.
  intros Hinv Hb Hst. pose proof Hinv as [_ _ Hss _ Hsto _ _ _ _ _].
  assert (Hwf : store_wf hash (store_ (pr_pool p))) by (apply Hsto; lia).
  destruct (pr_sweeper p) eqn:Hsw.
  - specialize (Hss eq_refl). lia.
  - exists (pr_pool p). by apply sweeper_tests.
  - destruct (sweeper_finishes_pass _ (with_sweeper (SweeperPass 0 0 0) (pr_sweeper_stop p) p) 0 0 0 eq_refl Hst Hwf (le_n _))
      as [w Hw]. exists w. etrans; [apply (sweeper_steps 0); unfold sweeper_step; by rewrite Hsw|exact Hw].
  - by eapply sweeper_finishes_pass.
  - exists (pr_pool p). by apply sweeper_wakes.
  - exists (pr_pool p). destruct p. simpl in *. subst. apply rtc_refl.
Qed.

(** From the end of the pool to the end of [main]. *)
Lemma block_ends p :
  options_wf o → shard_count o ≤ 2 ^ 63 →
  proc_inv p → pr_main p = Unwinding None → pr_built p = 5%nat →
  ∃ p', steps p p' ∧ pr_main p' = Finished None.
Proof.
  intros Hopt Hsh Hinv Hm Hb.
  assert (∃ p1, steps p p1 ∧ pr_main p1 = JoiningSweeper None ∧ pr_built p1 = 2%nat ∧ pr_sweeper_stop p1 = true)
    as (p1 & Hs1 & Hm1 & Hb1 & Hst1).
  { destruct p as [m b w sw sst sg j pd st ce]. simpl in *. subst m b. eexists. split.
    - do 4 (eapply (main_steps []); [reflexivity|]). apply rtc_refl.
    - done. }
  pose proof (steps_inv p p1 Hopt Hsh Hinv Hs1) as Hinv1.
  destruct (sweeper_leaves p1 Hinv1) as [w Hs2]; [lia|done|].
  destruct p1 as [m b w1 sw sst sg j pd st ce]. simpl in *. subst m b sst. eexists. split.
  - etrans; [exact Hs1|]. etrans; [exact Hs2|]. do 3 (eapply (main_steps []); [reflexivity|]). apply rtc_refl.
  - done.
Qed.

Lemma shutdown_possible p :
  options_wf o → shard_count o ≤ 2 ^ 63 →
  proc_inv p → pr_main p = JoiningSignal → fits (pr_pool p) →
  ∃ p', steps p p' ∧ pr_main p' = Finished None.
Proof.
  intros Hopt Hsh Hinv Hm Hfit. pose proof Hinv as [Hph _ _ Hsig _ _ _ _ Hwi _]. unfold main_phase_ok in Hph.
  rewrite Hm in Hph. destruct Hph as (Hb & Hst & Hj). unfold workers_inv in Hwi.
  rewrite decide_False, Hm in Hwi by lia. destruct Hwi as (Hne & Hopen & Hx).
  assert (∃ p1, steps p p1 ∧ pr_main p1 = JoiningWorkers None ∧ pr_built p1 = 6%nat ∧
    pr_pool p1 = destroy_pool (pr_pool p)) as (p1 & Hs1 & Hm1 & Hb1 & Hp1).
  { destruct (Hsig Hst) as [n Hn]. assert (∃ p0, steps p p0 ∧ pr_signal p0 = SignalDone n ∧ pr_main p0 = JoiningSignal ∧
      pr_built p0 = 7%nat ∧ pr_pool p0 = pr_pool p) as (p0 & Hs0 & Hsg & Hm0 & Hb0 & Hp0).
    { destruct Hn as [Hn|Hn]; [|exists p; by split_and!].
      exists (with_signal (SignalDone n) p). split; [|done]. eapply rtc_l; [|apply rtc_refl]. exists TSignal.
      apply (StepSignal [] 0). unfold signal_step. by rewrite Hn. }
    destruct p0 as [m b w sw sst sg j pd st ce]. simpl in *. subst m b w sg. eexists. split.
    - etrans; [exact Hs0|]. do 3 (eapply (main_steps []); [reflexivity|]). apply rtc_refl.
    - done. }
  pose proof (steps_inv p p1 Hopt Hsh Hinv Hs1) as Hinv1.
  pose proof (proc_pool_wf p1 Hinv1 ltac:(lia)) as Hwf1.
  assert (exits_late (pr_pool p1)) as Hex by (rewrite Hp1; by split).
  destruct (pool_drains hash _ (pr_pool p1) (le_n _) Hwf1 Hex) as [ts Hjoin]; [by rewrite Hp1|].
  pose proof (workers_drain ts p1 None Hinv1 Hm1 (proj1 Hex)) as Hs2.
  set (p2 := with_pool (pool_run hash ts (pr_pool p1)) p1) in *.
  assert (main_step [] p2 = Some (with_main (Unwinding None) (with_built 5 p2))) as Hs3.
  { unfold main_step, p2. simpl. rewrite Hm1, Hb1. by rewrite decide_True. }
  pose proof (steps_inv p1 p2 Hopt Hsh Hinv1 Hs2) as Hinv2.
  destruct (block_ends (with_main (Unwinding None) (with_built 5 p2))) as (p' & Hs4 & Hend); [done..| |done|done|].
  { by eapply main_step_inv. }
  exists p'. split; [|done]. etrans; [exact Hs1|]. etrans; [exact Hs2|]. by eapply main_steps.
Qed.

(** Once the completions do not fit, [main] never returns. *)
Lemma shutdown_stuck p p' e :
  options_wf o → shard_count o ≤ 2 ^ 63 → proc_inv p → pr_main p = JoiningSignal → ¬ fits (pr_pool p) →
  steps p p' → pr_main p' ≠ Finished e.
Proof.
  intros Hopt Hsh Hinv Hm Hn Hs.
  assert (∀ q, steps q p' → proc_inv q → overfull q ∨ pr_main q = Terminated → pr_main p' ≠ Finished e) as H.
  { clear Hs. intros q Hq. induction Hq as [q|q q1 q2 [t Ht] _ IH]; intros Hi Hov.
    - destruct Hov as [(_ & _ & [?|(? & [?|?])])|?]; congruence.
    - apply IH; [by eapply proc_step_inv|]. destruct Hov as [Hov|Hterm]; [by eapply overfull_step|].
      right. by eapply terminated_step. }
  apply (H p Hs Hinv). left. split; [done|]. destruct Hinv as [Hph _ _ _ _ _ _ _ _ _]. unfold main_phase_ok in Hph.
  rewrite Hm in Hph. destruct Hph as (Hb & _). split; [lia|by left].
Qed.

(** An exception out of [run] can only end in [std::terminate]. *)
Lemma throw_terminates e p p' :
  proc_inv p → pr_main p = Running → steps (with_main (Unwinding (Some e)) p) p' →
  pr_main p' = Unwinding (Some e) ∨ pr_main p' = Terminated.
Proof.
  intros [Hph _ _ _ _ _ _ _ _ _] Hm Hs. unfold main_phase_ok in Hph. rewrite Hm in Hph. destruct Hph as (Hb & _ & Hj).
  assert (∀ q, steps q p' → (pr_main q = Unwinding (Some e) ∧ pr_built q = 7%nat ∧ pr_signal_joined q = false) ∨
    pr_main q = Terminated → pr_main p' = Unwinding (Some e) ∨ pr_main p' = Terminated) as H.
  { clear Hs. intros q Hq. induction Hq as [q|q q1 q2 [t Ht] _ IH]; [naive_solver|]. intros Hq. apply IH.
    destruct Hq as [(H1 & H2 & H3)|H1]; [by eapply throws_step|right; by eapply terminated_step]. }
  by apply (H _ Hs); left.
Qed.

(** ** Properties *)

(** What the main thread touches in any phase is alive. *)
Lemma main_uses_alive p : proc_inv p → Forall (λ x, alive x p) (uses TMain p).
Proof.
  intros [Hph _ _ _ _ _ _ _ _ _]. unfold main_phase_ok in Hph. unfold alive, uses.
  assert (Hdec : ∀ l : list Local, bool_decide (Forall (λ x, x ∈ take (pr_built p) locals) l) = true →
    Forall (λ x, x ∈ take (pr_built p) locals) l) by (intros l; apply bool_decide_eq_true_1).
  destruct (pr_main p) as [| | |e|e|e|e| |]; try by constructor.
  - apply Hdec. destruct Hph as [Hb _]. by destruct (pr_built p) as [|[|[|[|[|[|[|]]]]]]]; [..|lia].
  - apply Hdec. destruct Hph as [-> _]. reflexivity.
  - apply Hdec. destruct Hph as [-> _]. reflexivity.
  - apply Hdec. destruct Hph as [Hb _]. by destruct (pr_built p) as [|[|[|[|[|[|[|[|]]]]]]]]; [..|lia].
  - apply Hdec. destruct Hph as [-> _]. reflexivity.
  - apply Hdec. destruct Hph as [-> _]. reflexivity.
Qed.

(** C17. No thread touches an object before its construction or after its
    destruction.  In every state the process can reach from the start of the
    [try] block, by any interleaving of all its threads and signals, a step of
    a worker, the sweeper, the signal thread or the main thread is taken while
    every object the step refers to is alive: a constructor is given only
    objects that exist, [run] uses the loop and the queues, a destructor only
    its own object and those it stops or closes, and the locals are destroyed
    only after the threads that use them have been joined, also when a
    constructor throws. *)
Theorem no_use_after_free ts0 t p p' :
  options_wf o → shard_count o ≤ 2 ^ 63 → steps (process_start ts0) p → proc_step t p p' →
  Forall (λ x, alive x p) (uses t p).
Proof.
  intros Hopt Hsh Hr Hs. pose proof (steps_inv _ _ Hopt Hsh (process_start_inv _) Hr) as Hinv.
  assert (Htake : ∀ i x, locals !! i = Some x → (i < pr_built p)%nat → alive x p).
  { intros i x Hi Hlt. unfold alive. apply elem_of_take. eauto. }
  pose proof (main_uses_alive p Hinv) as Hmain.
  destruct Hs as [ts p p' Hs|item p Hm|p Hm|ts text p Hm|p Hm Hs|e p Hm|ts choice p p' Hs|now p p' Hs|i now p p' Hs|n p Hn];
    try exact Hmain; simpl; try by constructor.
  - pose proof (signal_running_built _ _ _ _ Hinv Hs) as Hb.
    repeat constructor; [apply (Htake 4%nat)|apply (Htake 6%nat)]; first [done|lia].
  - assert (2 ≤ pr_built p)%nat as Hb.
    { destruct (decide (pr_built p < 2)%nat) as [Hlt|]; [|lia]. unfold sweeper_step in Hs.
      by destruct (pi_sweeper _ Hinv Hlt) as [Hz|Hz]; rewrite Hz in Hs. }
    repeat constructor; [apply (Htake 0%nat)|apply (Htake 1%nat)]; first [done|lia].
  - pose proof (worker_step_built _ _ _ _ Hinv Hs) as Hb.
    repeat constructor; [apply (Htake 0%nat)|apply (Htake 2%nat)|apply (Htake 3%nat)|apply (Htake 4%nat)|apply (Htake 5%nat)];
      first [done|lia].
Qed.

(** C18. How the process ends.  In every reachable state: if [main] has
    returned 0, a SIGINT or SIGTERM was received, every worker, the sweeper and
    the signal thread have ended and the log is the start, the configuration,
    the signal and the completion of the shutdown, in this order, with the
    warnings of the event loop in between; if it has returned 1, a constructor
    or the reading of the port failed, no client was ever served, no thread is
    left and the log ends with the error.  No signal kills the process.  An
    exception that leaves [run] never reaches the handler of [main]: the
    process can only be terminated. *)
Theorem process_exit ts p :
  options_wf o → shard_count o ≤ 2 ^ 63 → steps (process_start ts) p →
  match pr_main p with
  | Finished None => exit_code (pr_main p) = Some 0 ∧
      joined (pr_pool p) ∧ (pr_sweeper p = SweeperNone ∨ pr_sweeper p = SweeperDone) ∧
      ∃ n, (n = SIGINT ∨ n = SIGTERM) ∧ pr_signal p = SignalDone n ∧
        written true (completion_log n) (pr_cerr p)
  | Finished (Some e) => exit_code (pr_main p) = Some 1 ∧
      joined (pr_pool p) ∧ (pr_sweeper p = SweeperNone ∨ pr_sweeper p = SweeperDone) ∧
      pr_signal p = SignalNone ∧ written false (start_log ++ [fatal_message e]) (pr_cerr p)
  | Running => ∀ e p', steps (with_main (Unwinding (Some e)) p) p' →
      pr_main p' = Unwinding (Some e) ∨ pr_main p' = Terminated
  | m => m ≠ Killed
  end.
Proof.
  intros Hopt Hsh Hr. pose proof (steps_inv _ _ Hopt Hsh (process_start_inv _) Hr) as Hinv.
  pose proof Hinv as [Hph Hsw _ _ _ _ _ _ Hwi Hlog].
  assert (signals_ok p) as [_ Hnum] by (apply (steps_signals (process_start ts)); [by split|done]).
  unfold main_phase_ok, workers_inv, log_now, log_before in *.
  destruct (pr_main p) as [| | |e|e|e|[e|]| |] eqn:Hm; try done.
  - intros e p'. by apply throw_terminates.
  - destruct Hph as (Hb & Hj & Hs). rewrite Hb in *. destruct Hs as [[Hs _]|[_ ?]]; [|done].
    rewrite Hs in *. split_and!; auto. 
  - destruct Hph as (Hb & Hj & n & Hn). rewrite Hb in *. rewrite Hn in *. split_and!; auto.
    exists n. split_and!; auto. by apply Hnum.
Qed.

(** The shutdown completes exactly when the completions fit.  In every
    reachable state in which [run] has returned, the process can go on to exit
    with 0 if and only if the completions waiting in the queue and those the
    workers still owe fit the completion queue together; if they do not, no
    interleaving of the threads ever lets [main] return. *)
Theorem process_exits_iff_room ts p :
  options_wf o → shard_count o ≤ 2 ^ 63 → steps (process_start ts) p → pr_main p = JoiningSignal →
  (fits (pr_pool p) ↔ ∃ p', steps p p' ∧ pr_main p' = Finished None) ∧
  (¬ fits (pr_pool p) → ∀ p' e, steps p p' → pr_main p' ≠ Finished e).
Proof.
  intros Hopt Hsh Hr Hm. pose proof (steps_inv _ _ Hopt Hsh (process_start_inv _) Hr) as Hinv.
  assert (Hno : ¬ fits (pr_pool p) → ∀ p' e, steps p p' → pr_main p' ≠ Finished e)
    by (intros Hn p' e; by apply shutdown_stuck).
  split; [|done]. split; [by apply shutdown_possible|]. intros (p' & Hs & Hend).
  destruct (decide (fits (pr_pool p))) as [|Hn]; [done|]. by destruct (Hno Hn p' None Hs).
Qed.
End Process.

(** ** Witnesses *)
Definition demo_options : ServerOptions := mkServerOptions (lit "0.0.0.0") 6380 2 3 1024 (lit "info") false false.

Lemma demo_options_wf : options_wf demo_options.
Proof. constructor; simpl; unfold in_u64, UINT16_MAX, UINT64_MAX; try lia. by eexists. Qed.

Abbreviation demo_start := (process_start (Q := candidate_queue) kInfo (lit "now")).
Abbreviation demo_main := (main_step (Q := candidate_queue) demo_options demo_calls kInfo (lit "now")).
Abbreviation demo_steps := (steps (Q := candidate_queue) sum_hash demo_options demo_calls kInfo ∅).

(** The process after [n] steps of its main thread alone. *)
Fixpoint main_alone (n : nat) (p : @Process candidate_queue) : @Process candidate_queue :=
  match n with O => p | S n => match demo_main p with Some p' => main_alone n p' | None => p end end.

Lemma main_alone_steps n p : demo_steps p (main_alone n p).
Proof.
  revert p. induction n as [|n IH]; intros p; cbn [main_alone]; [apply rtc_refl|].
  destruct (demo_main p) as [p'|] eqn:E; [|apply rtc_refl]. eapply main_steps; [exact E|apply IH].
Qed.

(** The server runs, SIGTERM arrives and [run] returns. *)
Definition demo_running : @Process candidate_queue := main_alone 7 demo_start.
Definition demo_signal (p : @Process candidate_queue) : @Process candidate_queue :=
  default p (signal_step kInfo (lit "now") SIGTERM p).
Definition demo_signalled : @Process candidate_queue :=
  demo_signal (demo_signal (demo_signal (kill ∅ SIGTERM demo_running))).
Definition demo_returned : @Process candidate_queue := with_main JoiningSignal demo_signalled.

Lemma demo_running_reached : demo_steps demo_start demo_running.
Proof. apply main_alone_steps. Qed.

Lemma demo_returned_reached : demo_steps demo_start demo_returned.
Proof.
  etrans; [apply demo_running_reached|].
  eapply rtc_l; [exists TSystem; apply (StepKill _ _ _ _ _ SIGTERM); by right|].
  do 3 (eapply rtc_l; [exists TSignal; apply (StepSignal _ _ _ _ _ (lit "now") SIGTERM); reflexivity|]).
  eapply rtc_l; [exists TMain; apply StepRunReturns; reflexivity|]. apply rtc_refl.
Qed.

(** The sweeper beside a running server, and the main thread destroying the
    loop, which writes to the completion queue. *)
Lemma no_use_after_free_witness :
  (alive LStore demo_running ∧ alive LSweeper demo_running) ∧
  let p := main_alone 5 demo_start in let q := with_main (Unwinding (Some (InvalidArgument []))) p in
  Forall (λ x, alive x p) (uses TMain p) ∧ uses TMain p = [LStore; LWorkQueue; LCompletionQueue] ∧
  uses TMain q = [LLoop; LCompletionQueue].
Proof.
  split.
  - assert (Forall (λ x, alive x demo_running) (uses TSweeper demo_running)) as H.
    { apply (no_use_after_free sum_hash demo_options demo_calls kInfo ∅ (lit "now") TSweeper demo_running
        (with_sweeper SweeperSweep false demo_running));
        [apply demo_options_wf|simpl; lia|apply demo_running_reached|].
      apply (StepSweeper _ _ _ _ _ 0). reflexivity. }
    simpl in H. apply Forall_cons in H as [H1 H2]. apply Forall_cons in H2 as [H2 _]. by split.
  - intros p q. split; [|split; vm_compute; reflexivity].
    apply (no_use_after_free sum_hash demo_options demo_calls kInfo ∅ (lit "now") TMain p (main_alone 6 demo_start));
      [apply demo_options_wf|simpl; lia|apply main_alone_steps|].
    apply (StepMain _ _ _ _ _ (lit "now")). vm_compute; reflexivity.
Defined.

Lemma process_exit_witness :
  pr_main demo_running = Running ∧
  ∀ e p', demo_steps (with_main (Unwinding (Some e)) demo_running) p' →
    pr_main p' = Unwinding (Some e) ∨ pr_main p' = Terminated.
Proof.
  assert (pr_main demo_running = Running) as Hm by (vm_compute; reflexivity). split; [exact Hm|].
  pose proof (process_exit sum_hash demo_options demo_calls kInfo ∅ (lit "now") demo_running
    demo_options_wf) as H. rewrite Hm in H. apply H; [simpl; lia|apply demo_running_reached].
Defined.

Lemma process_exits_iff_room_witness : ∃ p', demo_steps demo_returned p' ∧ pr_main p' = Finished None.
Proof.
  apply (process_exits_iff_room sum_hash demo_options demo_calls kInfo ∅ (lit "now") demo_returned);
    [apply demo_options_wf|simpl; lia|apply demo_returned_reached|reflexivity|].
  unfold fits. vm_compute. discriminate.
Defined.
