(* ===== verification/System.v ===== *)
(** * The server: the event loop inside its process

    An instance of [World] and [WorldLaws] whose world is the process of
    [Process.v]: the event loop uses the queues of the process and its stop
    flag, and the other threads of the process (the workers, the sweeper, the
    signal thread) and the signals sent to it run between its calls as a
    schedule says ([sy_sched], one list of moves per call that reads shared
    state; the theorems hold for every schedule).  A move is at most one
    critical section, so that the operations of several workers and of the
    sweeper overlap on the store.  Whatever the event loop and the other threads
    do is a run of [proc_step], which the laws carry along as [extends].  The
    kernel is a script of the results its calls return, so that whole runs of
    the server evaluate; any script satisfies the laws. *)
From stdpp Require Import relations.
From S2P Require Import Prelude Decimal Parser Serializer Client BoundedBuffer Sequencer BoundedQueue.
From S2P Require Import PriorityQueue Storage StorageInv StorageSpec StorageConc StorageLin Sweeper Dispatcher.
From S2P Require Import World WorkerPool Logger Cli FileDescriptor Listener Main Process.
From S2P Require Import Io Registry EventLoop EventLoopInv EventLoopProps EventLoopMain.

(** ** A scripted kernel *)
Record Os := mkOs {
  os_socks : gmap Z (bytes * bytes);    (** open client sockets: delivered, sent *)
  os_accepts : Z;
  os_incoming : list (Z * bytes * Z + Z);
  os_recv : list (bytes + Z);
  os_send : list (Z + Z);
  os_epoll : list bool;
  os_wait : list (list (Z * Z) + Z);
  os_wake : nat;                        (** the counter of the eventfd *)
  os_stamps : list bytes;               (** the time, formatted, at each warning *)
}.

Fixpoint script_bytes (l : list (bytes + Z)) : Z :=
  match l with
  | [] => 0
  | inl d :: l => len d + script_bytes l
  | inr _ :: l => script_bytes l
  end.

(** What a scripted call returns, with the rest of the script. *)
Definition next_result {A} (default : A) (l : list A) : A * list A :=
  match l with x :: l => (x, l) | [] => (default, []) end.

Definition os_do_recv (fd n : Z) (k : Os) : Os * (bytes + Z) :=
  let upd socks recv := mkOs socks (os_accepts k) (os_incoming k) recv (os_send k) (os_epoll k)
                          (os_wait k) (os_wake k) (os_stamps k) in
  match os_socks k !! fd, os_recv k with
  | Some (i, o), inl d :: rest =>
      let got := take (Z.to_nat n) d in
      let later := drop (Z.to_nat n) d in
      (upd (<[fd := (i ++ got, o)]> (os_socks k))
         (if bool_decide (later = []) then rest else inl later :: rest), inl got)
  | Some _, inr e :: rest => (upd (os_socks k) rest, inr e)
  | Some _, [] => (k, inr EAGAIN)
  | None, _ => (k, inr 9)  (* EBADF *)
  end.

Definition os_do_send (fd : Z) (d : bytes) (k : Os) : Os * (Z + Z) :=
  let '(r, rest) := next_result (inl (len d)) (os_send k) in
  let upd socks := mkOs socks (os_accepts k) (os_incoming k) (os_recv k) rest (os_epoll k)
                     (os_wait k) (os_wake k) (os_stamps k) in
  match os_socks k !! fd, r with
  | Some (i, o), inl n =>
      let n := Z.max 0 (Z.min n (len d)) in
      (upd (<[fd := (i, o ++ take (Z.to_nat n) d)]> (os_socks k)), inl n)
  | Some _, inr e => (upd (os_socks k), inr e)
  | None, _ => (k, inr 9)
  end.

Definition os_do_accept (k : Os) : Os * (Z * bytes * Z + Z) :=
  let '(r, rest) := next_result (inr EAGAIN) (os_incoming k) in
  let upd socks n := mkOs socks n rest (os_recv k) (os_send k) (os_epoll k)
                       (os_wait k) (os_wake k) (os_stamps k) in
  match r with
  | inl (fd, a, p) =>
      if bool_decide (0 ≤ fd ∧ os_socks k !! fd = None) then
        (upd (<[fd := ([], [])]> (os_socks k)) (os_accepts k + 1), inl (fd, a, p))
      else (upd (os_socks k) (os_accepts k), inr EAGAIN)
  | inr e => (upd (os_socks k) (os_accepts k), inr e)
  end.

Definition os_with_socks (socks : gmap Z (bytes * bytes)) (k : Os) : Os :=
  mkOs socks (os_accepts k) (os_incoming k) (os_recv k) (os_send k) (os_epoll k)
    (os_wait k) (os_wake k) (os_stamps k).
Definition os_with_misc (epoll : list bool) (wait : list (list (Z * Z) + Z))
    (wake : nat) (k : Os) : Os :=
  mkOs (os_socks k) (os_accepts k) (os_incoming k) (os_recv k) (os_send k) epoll wait wake (os_stamps k).

Record os_ok (k : Os) : Prop := {
  ok_accepts : 0 ≤ os_accepts k ∧ os_accepts k + len (os_incoming k) < UINT64_MAX;
  ok_script : script_bytes (os_recv k) < UINT64_MAX;
  ok_streams : ∀ fd i o, os_socks k !! fd = Some (i, o) → len i + script_bytes (os_recv k) < UINT64_MAX;
}.

(** ** The system *)

(** A command a worker executed, at its linearization point: the clock reading
    it applied, its item, and the response it will be given. *)
Record Served := mkServed { sv_now : Z; sv_item : WorkItem; sv_response : bytes }.

(** What takes effect on the store: a command, or a pass of the sweeper. *)
Inductive StoreEvent :=
  | Executed (e : Served)
  | Swept (now max_items : Z).

Definition executed (l : list StoreEvent) : list Served :=
  omap (λ x, match x with Executed e => Some e | Swept _ _ => None end) l.

(** The executed commands with their clock readings. *)
Definition timed (l : list Served) : list (Z * Command) := (λ e, (sv_now e, wi_command (sv_item e))) <$> l.

(** The operations of the store among the events. *)
Definition store_ops (l : list StoreEvent) : list (Z * Op) :=
  omap (λ x, match x with
    | Executed e => pair (sv_now e) <$> command_op (wi_command (sv_item e))
    | Swept now max_items => Some (now, OpSweep max_items)
    end) l.

(** A move of another thread, with the clock reading of an operation that
    begins, or a signal sent to the process. *)
Inductive Move :=
  | WorkerMove (i : nat) (now : Z)
  | SweeperMove (now : Z)
  | SignalMove (timestamp : bytes) (choice : Z)
  | KillMove (n : Z).

(** Where the sweeper is in its operation on the store. *)
Definition sweeper_phase (sw : SweeperPhase) : StorePhase :=
  match sw with
  | SweeperPass now next removed => Sweeping now (max_items_per_shard default_sweeper) next removed
  | _ => At Idle
  end.

Section System.
Context {Q : Type} `{!PriorityQueue ExpirationCandidate ExpirationCandidateOrder Q}.
Context (hash : bytes → Z).
(** As in [Process]. *)
Context (opts : ServerOptions) (calls : EventLoopCalls) (level : LogLevel).
Context (mask : gset Z).

(** What is recorded beside the program's state: the store at the start, what
    took effect on it so far in order, the items whose completions wait in the
    queue, and those whose completions were popped. *)
Record Ghost := mkGhost {
  gh_store0 : Store Q;
  gh_events : list StoreEvent;
  gh_origin : list WorkItem;
  gh_settled : list WorkItem;
}.

Record Sys := mkSys {
  sy_os : Os;
  sy_process : @Process Q;
  sy_ghost : Ghost;
  sy_sched : list (list Move);
}.

Definition sy_pool (s : Sys) : @WorkerPool Q unit := pr_pool (sy_process s).

Definition gh_history (g : Ghost) : list Served := executed (gh_events g).

Definition ghost_events (l : list StoreEvent) (g : Ghost) : Ghost :=
  mkGhost (gh_store0 g) (gh_events g ++ l) (gh_origin g) (gh_settled g).

(** The command a step of a worker executes: PING when its dispatch begins,
    another one in the section in which it linearizes. *)
Definition served_by (now : Z) (s : WorkerState) (store : Store Q) : option Served :=
  match s with
  | Dispatching item =>
      match dispatch_begin now (wi_command item) with
      | inr response => Some (mkServed now item response)
      | inl _ => None
      end
  | Executing item ph =>
      '(reading, _) ← linearizes ph;
      '(_, st) ← dispatch_section hash (wi_command item) ph store;
      response ← response_of (wi_command item) st;
      Some (mkServed reading item response)
  | _ => None
  end.

(** The record of one step of a worker. *)
Definition ghost_step (t : Turn) (p : @WorkerPool Q unit) (g : Ghost) : Ghost :=
  let '(i, now, _) := t in
  match workers_ p !! i with
  | Some (Pushing item _) => mkGhost (gh_store0 g) (gh_events g) (gh_origin g ++ [item]) (gh_settled g)
  | Some s => ghost_events (Executed <$> option_list (served_by now s (store_ p))) g
  | None => g
  end.

Definition ghost_sweep (ph : StorePhase) (g : Ghost) : Ghost :=
  ghost_events (option_list ((λ '(now, op), match op with OpSweep n => Swept now n | _ => Swept now 0 end) <$> linearizes ph)) g.

(** One move: the process, the record, and the counter of the eventfd, which
    the completion queue's callback and [EventLoop::stop] increment.  A thread
    that cannot move lets it pass. *)
Definition move (m : Move) (x : @Process Q * Ghost * nat) : @Process Q * Ghost * nat :=
  let '(p, g, wakes) := x in
  match m with
  | WorkerMove i now =>
      let t := (i, now, stop_fired (pr_main p)) in
      match pool_step hash t (pr_pool p) with
      | Some (w, callback) =>
          (with_pool w p, ghost_step t (pr_pool p) g, match callback with Some _ => S wakes | None => wakes end)
      | None => x
      end
  | SweeperMove now =>
      match sweeper_step hash now p with
      | Some p' => (p', ghost_sweep (sweeper_phase (pr_sweeper p)) g, wakes)
      | None => x
      end
  | SignalMove timestamp choice =>
      match signal_step level timestamp choice p with
      | Some p' => (p', g, match pr_signal p with SignalWake _ => S wakes | _ => wakes end)
      | None => x
      end
  | KillMove n => if decide (n = SIGINT ∨ n = SIGTERM) then (kill mask n p, g, wakes) else x
  end.

(** A schedule. *)
Definition run_moves (ms : list Move) (x : @Process Q * Ghost * nat) : @Process Q * Ghost * nat :=
  fold_left (λ x m, move m x) ms x.

(** The other threads run before the event loop reads what it shares with
    them: a queue, the stop flag, the eventfd. *)
Definition interfere (s : Sys) : Sys :=
  let '(ms, rest) := next_result [] (sy_sched s) in
  let k := sy_os s in
  let '(p, g, wakes) := run_moves ms (sy_process s, sy_ghost s, os_wake k) in
  mkSys (os_with_misc (os_epoll k) (os_wait k) wakes k) p g rest.

Definition on_os {A} (f : Os → Os * A) (s : Sys) : Sys * A :=
  let '(k, r) := f (sy_os s) in (mkSys k (sy_process s) (sy_ghost s) (sy_sched s), r).

Definition sys_push (item : WorkItem) (s : Sys) : Sys * PushStatus :=
  let s := interfere s in
  let '(_, st, _) := try_push item (work_queue_ (sy_pool s)) in
  (mkSys (sy_os s) (loop_push item (sy_process s)) (sy_ghost s) (sy_sched s), st).

Definition sys_pop (s : Sys) : Sys * option Completion :=
  let s := interfere s in
  let '(_, out) := try_pop (completion_queue_ (sy_pool s)) in
  (mkSys (sy_os s) (loop_pop (sy_process s))
     (match out, gh_origin (sy_ghost s) with
      | Some _, item :: origin =>
          mkGhost (gh_store0 (sy_ghost s)) (gh_events (sy_ghost s)) origin (item :: gh_settled (sy_ghost s))
      | _, _ => sy_ghost s
      end) (sy_sched s), out).

#[export] Instance sys_world : World Sys := {
  sys_recv fd n := on_os (os_do_recv fd n);
  sys_send fd d := on_os (os_do_send fd d);
  sys_epoll_ctl _ _ _ := on_os (λ k,
    let '(ok, rest) := next_result true (os_epoll k) in
    (os_with_misc rest (os_wait k) (os_wake k) k, ok));
  sys_accept4 := on_os os_do_accept;
  sys_close fd s := (on_os (λ k, (os_with_socks (delete fd (os_socks k)) k, tt)) s).1;
  sys_epoll_wait := on_os (λ k,
    let '(r, rest) := next_result (inl []) (os_wait k) in
    (os_with_misc (os_epoll k) rest (os_wake k) k, r));
  wakeup_read s := on_os (λ k,
    (os_with_misc (os_epoll k) (os_wait k) 0 k, negb (os_wake k =? 0)%nat)) (interfere s);
  stop_requested s := let s := interfere s in (s, pr_stop (sy_process s));
  work_try_push := sys_push;
  completion_try_pop := sys_pop;
  log_warn text s :=
    let k := sy_os s in
    let '(timestamp, rest) := next_result [] (os_stamps k) in
    mkSys (mkOs (os_socks k) (os_accepts k) (os_incoming k) (os_recv k) (os_send k) (os_epoll k) (os_wait k) (os_wake k) rest)
      (loop_warn level timestamp text (sy_process s)) (sy_ghost s) (sy_sched s);
}.

(** ** The laws hold *)

Definition served (l : list Served) (item : WorkItem) (response : bytes) : Prop :=
  ∃ now, mkServed now item response ∈ l.

(** The item of a worker whose command has taken effect, and its response. *)
Definition promised (s : WorkerState) : option (WorkItem * bytes) :=
  match s with
  | Executing item ph => pair item <$> response_of (wi_command item) (inl ph)
  | Pushing item co => Some (item, co_response co)
  | _ => None
  end.
Definition pushing (s : WorkerState) : list WorkItem := fst <$> option_list (promised s).

(** The threads that may be inside an operation of the store. *)
Definition worker_phase (s : WorkerState) : StorePhase := match s with Executing _ ph => ph | _ => At Idle end.
Definition phases (p : @WorkerPool Q unit) (sw : StorePhase) : list StorePhase := sw :: (worker_phase <$> workers_ p).

(** The store and the responses are those of the abstract map, as long as no
    operation applied a clock reading older than one applied to its key. *)
Definition map_ok (store : Store Q) (phs : list StorePhase) (g : Ghost) : Prop :=
  let l := store_ops (gh_events g) in
  (∀ k, lookup_entry hash (gh_store0 g) k = None) → fresh_readings l → readings_ok l →
  store_core hash store l ∧ Forall (phase_applied l) phs ∧
  sv_response <$> gh_history g = encode_reply <$> spec_serve (timed (gh_history g)) ∅.

Record core_ok (p : @WorkerPool Q unit) (sw : StorePhase) (g : Ghost) : Prop := {
  co_pool : pool_wf hash p;
  co_sweeper : sw = At Idle ∨ ∃ now n next removed, sw = Sweeping now n next removed;
  co_pushing : Forall (λ s, ∀ item resp, promised s = Some (item, resp) → served (gh_history g) item resp) (workers_ p);
  co_origin : Forall2 (λ it co, completes it co ∧ served (gh_history g) it (co_response co))
    (gh_origin g) (items_ (completion_queue_ p));
  co_items : sv_item <$> gh_history g ≡ₚ concat (pushing <$> workers_ p) ++ gh_origin g ++ gh_settled g;
  co_map : map_ok (store_ p) (phases p sw) g;
}.

(** The process serves, in a state it can reach from its start. *)
Definition serving (p : @Process Q) : Prop :=
  pr_main p = Process.Running ∧ ∃ ts, steps hash opts calls level mask (process_start level ts) p.

Record sys_ok (s : Sys) : Prop := {
  so_os : os_ok (sy_os s);
  so_core : core_ok (sy_pool s) (sweeper_phase (pr_sweeper (sy_process s))) (sy_ghost s);
  so_serving : serving (sy_process s);
  so_store0 : make_store (shard_count opts) = Ok (gh_store0 (sy_ghost s));
}.

(** Only more has happened to the store. *)
Definition ghost_extends (g g' : Ghost) : Prop :=
  gh_store0 g' = gh_store0 g ∧ gh_events g `prefix_of` gh_events g'.

#[export] Instance ghost_extends_preorder : PreOrder ghost_extends.
Proof.
  split; [by intros ?|]. intros g1 g2 g3 [? ?] [? ?]. split; [congruence|]. by etrans.
Qed.

Definition sys_owed (s : Sys) : list WorkItem := outstanding (sy_pool s) ++ gh_origin (sy_ghost s).
Definition sys_ledger (s : Sys) : list (WorkItem * bool) :=
  owing (sys_owed s) ++ ((λ it, (it, false)) <$> gh_settled (sy_ghost s)).

Lemma served_app l l' it resp : served l it resp → served (l ++ l') it resp.
Proof. intros [now H]. exists now. apply elem_of_app. by left. Qed.

Lemma executed_app l l' : executed (l ++ l') = executed l ++ executed l'.
Proof. apply omap_app. Qed.

Lemma store_ops_app l l' : store_ops (l ++ l') = store_ops l ++ store_ops l'.
Proof. apply omap_app. Qed.

Lemma history_events l g : gh_history (ghost_events l g) = gh_history g ++ executed l.
Proof. apply executed_app. Qed.

(** The commands alone, without the sweeps, do the same to the map. *)
Lemma spec_run_commands l m : (spec_run (store_ops l) m).1 = spec_after (timed (executed l)) m.
Proof.
  revert m. induction l as [|[e|now n] l IH]; intros m; [done|..].
  - change (store_ops (Executed e :: l)) with
      (option_list (pair (sv_now e) <$> command_op (wi_command (sv_item e))) ++ store_ops l) || idtac.
    cbn [store_ops omap list_omap]. cbn [executed omap list_omap timed fmap list_fmap spec_after].
    unfold spec_dispatch. destruct (command_op (wi_command (sv_item e))) as [op|]; simpl; [|apply IH].
    fold (store_ops l). destruct (spec_exec (sv_now e) op m) as [m1 r]. simpl. specialize (IH m1).
    by destruct (spec_run (store_ops l) m1).
  - cbn [store_ops omap list_omap]. simpl. fold (store_ops l). specialize (IH m).
    by destruct (spec_run (store_ops l) m).
Qed.

(** *** The map *)

(** Threads come and go without a section. *)
Lemma map_ok_phases store phs phs' g :
  map_ok store phs g → (∀ l, Forall (phase_applied l) phs → Forall (phase_applied l) phs') → map_ok store phs' g.
Proof. intros Hm Hph He Hf Hr. destruct (Hm He Hf Hr) as (? & ? & ?). auto. Qed.

Lemma ghost_events_nil g : ghost_events [] g = g.
Proof. destruct g. unfold ghost_events. simpl. by rewrite app_nil_r. Qed.

Definition responses_ok (g : Ghost) : Prop :=
  sv_response <$> gh_history g = encode_reply <$> spec_serve (timed (gh_history g)) ∅.

(** Thread [j] goes from [ph] to [ph'], and the events [l] take effect. *)
Lemma map_ok_step store store' phs g j ph ph' l :
  map_ok store phs g → phs !! j = Some ph →
  (let past := store_ops (gh_events g) in
   store_core hash store past → phase_applied past ph → responses_ok g →
   fresh_readings (past ++ store_ops l) → readings_ok (store_ops l) →
   store_core hash store' (past ++ store_ops l) ∧ phase_applied (past ++ store_ops l) ph' ∧
   responses_ok (ghost_events l g)) →
  map_ok store' (<[j := ph']> phs) (ghost_events l g).
Proof.
  intros Hm Hj Hstep. unfold map_ok. simpl. rewrite store_ops_app. intros He Hf Hr.
  apply Forall_app in Hr as [Hr Hrl].
  destruct (Hm He (fresh_readings_app _ _ Hf) Hr) as (Hc & Hph & Hs).
  destruct (Hstep Hc (Forall_lookup_1 _ _ _ _ Hph Hj) Hs Hf Hrl) as (Hc' & Hph' & Hs').
  split_and!; try done. apply Forall_insert; [|done].
  eapply Forall_impl; [done|]. intros ph1. apply phase_applied_app.
Qed.

(** A command that takes effect gets the map's answer. *)
Lemma responses_snoc g e :
  responses_ok g →
  sv_response e = encode_reply (spec_dispatch (sv_now e) (wi_command (sv_item e)) (spec_run (store_ops (gh_events g)) ∅).1).2 →
  responses_ok (ghost_events [Executed e] g).
Proof.
  unfold responses_ok. intros Hs He. rewrite history_events. cbn [executed omap list_omap]. unfold timed in *.
  rewrite !fmap_app. cbn [fmap list_fmap]. rewrite spec_serve_snoc, fmap_app, Hs. f_equal. cbn [fmap list_fmap]. f_equal.
  rewrite He. by rewrite spec_run_commands.
Qed.

Lemma responses_sweep g now n : responses_ok g → responses_ok (ghost_events [Swept now n] g).
Proof. unfold responses_ok. rewrite history_events. simpl. by rewrite app_nil_r. Qed.

(** A section of a worker. *)
Lemma served_by_section now item ph (store store' : Store Q) st resp :
  dispatch_section hash (wi_command item) ph store = Some (store', st) → response_of (wi_command item) st = Some resp →
  served_by now (Executing item ph) store = (λ '(reading, _), mkServed reading item resp) <$> linearizes ph.
Proof.
  intros Hsec Hresp. simpl. destruct (linearizes ph) as [[reading op]|]; [|done]. simpl. rewrite Hsec. simpl. by rewrite Hresp.
Qed.

Lemma map_ok_section store store' phs g j item ph st now :
  store_wf hash store → executing (wi_command item) ph →
  map_ok store phs g → phs !! j = Some ph → dispatch_section hash (wi_command item) ph store = Some (store', st) →
  map_ok store' (<[j := worker_phase (after_section item st)]> phs)
    (ghost_events (Executed <$> option_list (served_by now (Executing item ph) store)) g).
Proof.
  intros Hwf Hex Hm Hj Hsec.
  destruct (dispatch_section_settles hash _ _ _ _ _ Hwf Hex Hsec) as [[resp Hresp] Hset].
  pose proof (served_by_section now item ph _ _ _ resp Hsec Hresp) as Hsv.
  rewrite Hsv. eapply map_ok_step; [done|done|]. intros past Hc Hph Hs.
  set (l := Executed <$> _). assert (store_ops l = option_list (linearizes ph)) as Hl.
  { unfold l. destruct (linearizes ph) as [[reading op]|]; [|done]. destruct Hset as [Hop _]. simpl. by rewrite Hop. }
  rewrite Hl. intros Hf Hr.
  destruct (dispatch_section_spec hash _ _ _ _ _ past Hc Hph Hex Hsec Hf Hr) as (Hc' & Hph' & Hrep).
  split_and!; [done|by destruct st|]. unfold l. destruct (linearizes ph) as [[reading op]|] eqn:Hlin.
  - apply (responses_snoc g (mkServed reading item resp)); [done|]. simpl.
    specialize (Hrep reading op eq_refl). rewrite Hresp in Hrep. by injection Hrep.
  - simpl. by rewrite ghost_events_nil.
Qed.

(** A section of the sweeper. *)
Lemma map_ok_sweep store store' phs g t m next removed ph' r :
  store_wf hash store → map_ok store (Sweeping t m next removed :: phs) g →
  store_section hash (Sweeping t m next removed) store = Some (store', ph', r) →
  store_wf hash store' ∧ (ph' = At Idle ∨ ∃ t m next removed, ph' = Sweeping t m next removed) ∧
  map_ok store' (ph' :: phs) (ghost_sweep (Sweeping t m next removed) g).
Proof.
  intros Hwf Hm Hsec. split_and!.
  - destruct (store_section_total hash store (Sweeping t m next removed) Hwf I) as (? & ? & ? & Heq & ?). congruence.
  - simpl in Hsec. destruct (shards_ store !! next); [|by injection Hsec as _ <- _; left].
    apply bind_Some in Hsec as ([sh k] & _ & [= _ <- _]). right. repeat eexists.
  - change (ph' :: phs) with (<[0%nat := ph']> (Sweeping t m next removed :: phs)).
    unfold ghost_sweep. eapply map_ok_step; [done|done|]. intros past Hc Hap Hs Hf Hr.
    assert (store_ops (option_list ((λ '(now0, op), match op with OpSweep n0 => Swept now0 n0 | _ => Swept now0 0 end)
      <$> linearizes (Sweeping t m next removed))) = option_list (linearizes (Sweeping t m next removed))) as Hl
      by (by destruct next).
    rewrite Hl in *. destruct (sweep_core hash store store' past t m next removed ph' r Hc Hap Hsec) as (Hc' & Hap' & _).
    split_and!; [done|done|]. destruct next; simpl; [by apply responses_sweep|by rewrite ghost_events_nil].
Qed.

(** *** The threads *)

(** A step of worker [i] that does not push: what it executes is promised from
    then on. *)
Lemma core_ok_worker p p' sw g i s s' new :
  core_ok p sw g → pool_wf hash p' → workers_ p !! i = Some s → workers_ p' = <[i := s']> (workers_ p) →
  items_ (completion_queue_ p') = items_ (completion_queue_ p) →
  promised s' = match new with Some e => Some (sv_item e, sv_response e) | None => promised s end →
  (is_Some new → promised s = None) →
  map_ok (store_ p') (phases p' sw) (ghost_events (Executed <$> option_list new) g) →
  core_ok p' sw (ghost_events (Executed <$> option_list new) g).
Proof.
  intros [Hwf Hsw Hpu Hor Hit _] Hwf' Hi Hw Hq Hs' Hs Hm. set (g' := ghost_events _ g) in *.
  assert (gh_history g' = gh_history g ++ option_list new) as Hg'.
  { unfold g'. rewrite history_events. by destruct new. }
  assert (∀ it resp, served (gh_history g) it resp → served (gh_history g') it resp) as Hmono.
  { intros it resp H. rewrite Hg'. by apply served_app. }
  constructor; [done|done| | | |done].
  - rewrite Hw. apply Forall_insert.
    + eapply Forall_impl; [done|]. simpl. eauto.
    + intros it resp H. rewrite Hs' in H. destruct new as [e|]; [|by eapply Hmono, (Forall_lookup_1 _ _ _ _ Hpu Hi)].
      injection H as <- <-. exists (sv_now e). rewrite Hg'. apply elem_of_app. right. destruct e.
      by apply list_elem_of_singleton.
  - rewrite Hq. eapply Forall2_impl; [done|]. naive_solver.
  - rewrite Hg', Hw, fmap_app, Hit. pose proof (concat_insert pushing (workers_ p) i s s' Hi) as H.
    unfold g'. simpl. unfold pushing in H at 2 4. rewrite Hs' in H. destruct new as [e|].
    + rewrite Hs in H by done. simpl in H. rewrite app_nil_r in H. rewrite <-H. simpl. rewrite <-!app_assoc.
      apply Permutation_app_head. by rewrite app_assoc, Permutation_app_comm.
    + apply Permutation_app_inv_r in H. simpl. rewrite app_nil_r. by rewrite H.
Qed.

Lemma phases_insert p p' sw i s' :
  workers_ p' = <[i := s']> (workers_ p) → phases p' sw = <[S i := worker_phase s']> (phases p sw).
Proof. intros Hw. unfold phases. rewrite Hw. by rewrite list_fmap_insert. Qed.

(** Outside of the store a worker has no clock reading to answer for. *)
Lemma map_ok_idle p p' sw g i s' :
  map_ok (store_ p) (phases p sw) g → store_ p' = store_ p → workers_ p' = <[i := s']> (workers_ p) →
  (∀ l, phase_applied l (worker_phase s')) → map_ok (store_ p') (phases p' sw) g.
Proof.
  intros Hm Hst Hw Hph. rewrite (phases_insert p p' sw i s'), Hst by done. eapply map_ok_phases; [done|].
  intros l Hl. by apply Forall_insert.
Qed.

(** A completion goes into the queue: its item is recorded with it. *)
Lemma core_ok_push i now stop p p' sw k g item co :
  core_ok p sw g → workers_ p !! i = Some (Pushing item co) → pool_step hash (i, now, stop) p = Some (p', k) →
  let g' := mkGhost (gh_store0 g) (gh_events g) (gh_origin g ++ [item]) (gh_settled g) in
  core_ok p' sw g' ∧ outstanding p' ++ gh_origin g' ≡ₚ outstanding p ++ gh_origin g.
Proof.
  intros Hco Hi Hs g'. pose proof Hco as [Hwf Hsw Hpu Hor Hit Hm].
  destruct (pool_step_spec hash _ p p' k Hwf Hs) as (Hwf' & _ & _ & _ & Hcase).
  unfold pool_step in Hs. simpl in Hcase. rewrite Hi in Hs, Hcase. cbn [mbind option_bind worker_main] in Hs.
  destruct (push co (completion_queue_ p)) as [[[q st] cb]|] eqn:Ep; [|done]. simpl in Hs. injection Hs as <- <-.
  destruct Hcase as [(_ & _ & Hno)|(item' & co' & Hcp & _ & Ho & Hq & [= <- <-])]; [by destruct (Hno item co)|].
  pose proof (Forall_lookup_1 _ _ _ _ Hpu Hi item _ eq_refl) as Hsv.
  set (s' := if bool_decide (st = PushOk) then Popping else Exited).
  assert (promised s' = None ∧ worker_phase s' = At Idle) as [Hs' Hwp] by (unfold s'; by case_bool_decide).
  split.
  - constructor; simpl; try done.
    + apply Forall_insert; [done|]. fold s'. by rewrite Hs'.
    + simpl in Hq. rewrite Hq. apply Forall2_app; [done|]. by constructor.
    + fold s'. pose proof (concat_insert pushing (workers_ p) i _ s' Hi) as H. unfold pushing in H at 2 4.
      rewrite Hs' in H. simpl in H. rewrite app_nil_r in H. unfold gh_history in *. simpl.
      rewrite Hit, H, <-!app_assoc. apply Permutation_app_head.
      by rewrite (app_assoc [item]), (Permutation_app_comm [item]), <-app_assoc.
    + apply (map_ok_idle p (mkWorkerPool (store_ p) (work_queue_ p) q (<[i := s']> (workers_ p))) sw g i s'); [done..|].
      by rewrite Hwp.
  - simpl. rewrite Ho. by rewrite app_assoc, <-Permutation_cons_append.
Qed.

(** Every step of a worker keeps the record true. *)
Lemma core_ok_step t p p' sw k g :
  core_ok p sw g → pool_step hash t p = Some (p', k) →
  core_ok p' sw (ghost_step t p g) ∧ ghost_extends g (ghost_step t p g) ∧
  gh_settled (ghost_step t p g) = gh_settled g ∧
  outstanding p' ++ gh_origin (ghost_step t p g) ≡ₚ outstanding p ++ gh_origin g.
Proof.
  intros Hco Hs. pose proof Hco as [Hwf Hsw Hpu Hor Hit Hm].
  destruct (pool_step_spec hash t p p' k Hwf Hs) as (Hwf' & _ & _ & _ & Hcase).
  destruct t as [[i now] stop]. unfold pool_step in Hs. unfold ghost_step. simpl in Hcase.
  destruct (workers_ p !! i) as [s|] eqn:Hi; [|done]. cbn [mbind option_bind] in Hs.
  assert (Hext : ∀ l, ghost_extends g (ghost_events l g)) by (intros l; split; [done|by apply prefix_app_r]).
  destruct s as [|item|item ph|item co|]; simpl in Hs; [| | | |done].
  1-3: destruct Hcase as [(Ho & Hq & _)|(item' & co & _ & _ & _ & _ & ?)]; [|done].
  1-3: split; [|split_and!; [apply Hext|done|by rewrite Ho]].
  - destruct (pop stop (work_queue_ p)) as [[[q st] out]|] eqn:Ep; [|done]. simpl in Hs. injection Hs as <- <-.
    eapply (core_ok_worker p _ sw g i _ _ None); [done|done|exact Hi|done|done|by destruct st, out|done|].
    cbn [option_list fmap list_fmap]. rewrite ghost_events_nil. eapply (map_ok_idle p); [done|done|done|]. by destruct st, out.
  - injection Hs as <- <-. destruct (dispatch_begin now (wi_command item)) as [ph|resp] eqn:E; cbn [after_section served_by] in *.
    + rewrite E. apply begin_started in E as (op & _ & ->).
      eapply (core_ok_worker p _ sw g i _ _ None); [done|done|exact Hi|done..|].
      cbn [option_list fmap list_fmap]. rewrite ghost_events_nil. by eapply (map_ok_idle p).
    + rewrite E. apply begin_replies in E as [Hop Hresp].
      eapply (core_ok_worker p _ sw g i _ _ (Some _)); [done|done|exact Hi|done..|].
      erewrite (phases_insert p _ sw i) by done. apply (map_ok_step (store_ p) _ _ _ _ (At Idle)); [done| |].
      { simpl. by rewrite list_lookup_fmap, Hi. }
      intros past Hc _ Hr. simpl. rewrite Hop. simpl. rewrite app_nil_r. intros _ _. split_and!; [done|done|].
      apply (responses_snoc g (mkServed now item resp)); [done|]. simpl. apply Hresp.
  - destruct (dispatch_section hash (wi_command item) ph (store_ p)) as [[store' st]|] eqn:Ed; [|done].
    simpl in Hs. injection Hs as <- <-.
    destruct (Forall_lookup_1 _ _ _ _ (pool_workers _ _ Hwf) Hi) as [Hxc _].
    destruct (dispatch_section_settles hash _ _ _ _ _ (pool_store _ _ Hwf) Hxc Ed) as [[resp Hresp] Hset].
    pose proof (served_by_section now item ph _ _ _ resp Ed Hresp) as Hsv.
    assert (promised (after_section item st) = Some (item, resp)) as Hpr.
    { destruct st as [ph'|resp']; cbn [after_section promised]; [by rewrite Hresp|]. by injection Hresp as ->. }
    eapply (core_ok_worker p _ sw g i); [done|done|exact Hi|done|done| | |].
    + rewrite Hsv, Hpr. destruct (linearizes ph) as [[reading op]|]; [done|]. cbn [fmap option_fmap option_map promised].
      by rewrite <-Hset, Hresp.
    + rewrite Hsv. destruct (linearizes ph) as [[reading op]|]; [|by intros [? ?]]. intros _. cbn [promised].
      by destruct Hset as [_ ->].
    + rewrite (phases_insert p _ sw i (after_section item st)) by done. cbn [store_].
      apply (map_ok_section (store_ p)); [apply Hwf|done|done| |done]. simpl. by rewrite list_lookup_fmap, Hi.
  - destruct (core_ok_push i now stop p p' sw k g item co) as [Hco' Hout']; [done|done| |by split_and!].
    unfold pool_step. rewrite Hi. exact Hs.
Qed.

(** A step of the sweeper on the map: only the record of a pass is new. *)
Lemma sweeper_step_map now p p' phs g :
  let g' := ghost_sweep (sweeper_phase (pr_sweeper p)) g in
  store_wf hash (store_ (pr_pool p)) → map_ok (store_ (pr_pool p)) (sweeper_phase (pr_sweeper p) :: phs) g →
  sweeper_step hash now p = Some p' →
  map_ok (store_ (pr_pool p')) (sweeper_phase (pr_sweeper p') :: phs) g' ∧ gh_history g' = gh_history g ∧
  store_wf hash (store_ (pr_pool p')).
Proof.
  intros g' Hwf Hm Hs. unfold g', sweeper_step in *.
  destruct (pr_sweeper p) as [| | |t next removed| |] eqn:Esw; try done.
  1, 2, 4: injection Hs as <-; unfold ghost_sweep; simpl in *; rewrite ghost_events_nil; split_and!; [|done|done].
  - by destruct (pr_sweeper_stop p).
  - eapply map_ok_phases; [exact Hm|]. intros l. rewrite !Forall_cons. by intros [_ ?].
  - done.
  - apply bind_Some in Hs as ([[store' ph'] r] & Hsec & [= <-]). cbn [sweeper_phase] in Hm.
    destruct (map_ok_sweep _ _ _ _ _ _ _ _ _ _ Hwf Hm Hsec) as (Hst' & Hsw' & Hm').
    assert (sweeper_phase match ph' with Sweeping now _ next removed => SweeperPass now next removed | At _ => SweeperSleep end = ph') as Hph.
    { simpl in Hsec. destruct (shards_ _ !! next); [|by injection Hsec as _ <- _].
      by apply bind_Some in Hsec as ([sh k] & _ & [= _ <- _]). }
    cbn [pr_sweeper with_sweeper]. rewrite Hph. split_and!; [done| |done].
    unfold ghost_sweep. rewrite history_events. destruct next; simpl; by rewrite app_nil_r.
Qed.

Lemma core_ok_sweep now p p' g :
  core_ok (pr_pool p) (sweeper_phase (pr_sweeper p)) g → sweeper_step hash now p = Some p' →
  core_ok (pr_pool p') (sweeper_phase (pr_sweeper p')) (ghost_sweep (sweeper_phase (pr_sweeper p)) g) ∧
  ghost_extends g (ghost_sweep (sweeper_phase (pr_sweeper p)) g) ∧ outstanding (pr_pool p') = outstanding (pr_pool p).
Proof.
  intros [[Hst Ho Hc Hw] _ Hpu Hor Hit Hm] Hs.
  destruct (sweeper_step_map now p p' _ g Hst Hm Hs) as (Hm' & Hg & Hst').
  destruct (sweeper_step_frame _ _ _ _ Hs) as (ph & s & ->).
  split_and!; [|by split; [|apply prefix_app_r]|done]. constructor; rewrite ?Hg; try done.
  simpl. destruct ph; simpl; [by left..| |by left|by left]. right. repeat eexists.
Qed.

(** *** A move is a step of the process *)
Abbreviation psteps := (steps hash opts calls level mask).

Lemma move_ok m p g n p' g' n' :
  core_ok (pr_pool p) (sweeper_phase (pr_sweeper p)) g → move m (p, g, n) = (p', g', n') →
  core_ok (pr_pool p') (sweeper_phase (pr_sweeper p')) g' ∧ ghost_extends g g' ∧ gh_settled g' = gh_settled g ∧
  outstanding (pr_pool p') ++ gh_origin g' ≡ₚ outstanding (pr_pool p) ++ gh_origin g ∧
  psteps p p' ∧ pr_main p' = pr_main p ∧ (n' ≤ S n)%nat.
Proof.
  intros Hco.
  assert (Hstep : ∀ t q, t ≠ TMain → proc_step hash opts calls level mask t p q →
    psteps p q ∧ pr_main q = pr_main p).
  { intros t q Ht Hq. split; [eapply rtc_once; by exists t|by destruct (others_keep _ _ _ _ _ _ _ _ Hq Ht)]. }
  destruct m as [i now|now|ts choice|sig]; cbn [move].
  - destruct (pool_step hash _ (pr_pool p)) as [[w cb]|] eqn:E; [|intros [= <- <- <-]; split_and!; try done; lia].
    intros [= <- <- <-]. destruct (core_ok_step _ _ _ _ _ _ Hco E) as (Hco1 & Hx1 & Hs1 & Ho1).
    destruct (Hstep (TWorker i) (with_pool w p)) as [Hst Hm]; [done| |].
    { apply (StepWorker _ _ _ _ _ i now). unfold worker_step. by rewrite E. }
    split_and!; try done. destruct cb; lia.
  - destruct (sweeper_step hash now p) as [q|] eqn:E; [|intros [= <- <- <-]; split_and!; try done; lia].
    intros [= <- <- <-]. destruct (core_ok_sweep _ _ _ _ Hco E) as (Hco1 & Hx1 & Ho1).
    destruct (Hstep TSweeper q) as [Hst Hm]; [done|by eapply StepSweeper|].
    split_and!; try done; [by rewrite Ho1|lia].
  - destruct (signal_step level ts choice p) as [q|] eqn:E; [|intros [= <- <- <-]; split_and!; try done; lia].
    intros [= <- <- <-]. destruct (Hstep TSignal q) as [Hst Hm]; [done|by eapply StepSignal|].
    assert (pr_pool q = pr_pool p ∧ pr_sweeper q = pr_sweeper p) as [Hp Hsw] by (by eapply signal_step_frame).
    rewrite Hp, Hsw. split_and!; try done. destruct (pr_signal p); lia.
  - case_decide as Hsig; [|intros [= <- <- <-]; split_and!; try done; lia]. intros [= <- <- <-].
    destruct (Hstep TSystem (kill mask sig p)) as [Hst Hm]; [done|by constructor|].
    assert (pr_pool (kill mask sig p) = pr_pool p ∧ pr_sweeper (kill mask sig p) = pr_sweeper p) as [Hp Hsw]
      by (unfold kill; by case_decide).
    rewrite Hp, Hsw. split_and!; try done. lia.
Qed.

Lemma run_moves_ok ms p g n p' g' n' :
  core_ok (pr_pool p) (sweeper_phase (pr_sweeper p)) g → run_moves ms (p, g, n) = (p', g', n') →
  core_ok (pr_pool p') (sweeper_phase (pr_sweeper p')) g' ∧ ghost_extends g g' ∧ gh_settled g' = gh_settled g ∧
  outstanding (pr_pool p') ++ gh_origin g' ≡ₚ outstanding (pr_pool p) ++ gh_origin g ∧
  psteps p p' ∧ pr_main p' = pr_main p ∧ (n' ≤ length ms + n)%nat.
Proof.
  revert p g n. induction ms as [|m ms IH]; intros p g n Hco; [intros [= <- <- <-]; by split_and!|].
  change (run_moves (m :: ms) (p, g, n)) with (run_moves ms (move m (p, g, n))).
  destruct (move m (p, g, n)) as [[p1 g1] n1] eqn:E. intros Hr. apply move_ok in E as (Hco1 & Hx1 & Hs1 & Ho1 & Hp1 & Hm1 & Hn1); [|done].
  apply IH in Hr as (Hco' & Hx' & Hs' & Ho' & Hp' & Hm' & Hn'); [|done].
  split_and!; [done|by etrans|congruence|by rewrite Ho'|by etrans|congruence|simpl; lia].
Qed.

(** The process and the record only move on. *)
Definition sys_extends (s s' : Sys) : Prop :=
  ghost_extends (sy_ghost s) (sy_ghost s') ∧ psteps (sy_process s) (sy_process s').

#[export] Instance sys_extends_preorder : PreOrder sys_extends.
Proof.
  split; [by intros s; split|]. intros s1 s2 s3 [? ?] [? ?]. split; by etrans.
Qed.

Lemma serving_steps p p' : serving p → psteps p p' → pr_main p' = pr_main p → serving p'.
Proof. intros [Hm [ts Hs]] Hp Heq. split; [congruence|]. exists ts. by etrans. Qed.

(** The wake-ups that may still arrive. *)
Definition sys_wakeups (s : Sys) : nat := os_wake (sy_os s) + length (concat (sy_sched s)).

Lemma interfere_spec s :
  sys_ok s → sys_ok (interfere s) ∧ sys_extends s (interfere s) ∧
    os_socks (sy_os (interfere s)) = os_socks (sy_os s) ∧
    os_accepts (sy_os (interfere s)) = os_accepts (sy_os s) ∧ sys_ledger (interfere s) ≡ₚ sys_ledger s ∧
    (sys_wakeups (interfere s) ≤ sys_wakeups s)%nat.
Proof.
  intros [Hos Hco Hsv Hs0]. unfold interfere, sys_wakeups.
  destruct (next_result [] (sy_sched s)) as [ms rest] eqn:En.
  destruct (run_moves ms _) as [[p g] n] eqn:E. apply run_moves_ok in E as (Hco' & Hx & Hs & Ho & Hp & Hm & Hn); [|done].
  split_and!; try done.
  - constructor; simpl; [by destruct Hos|done|by eapply serving_steps|]. by destruct Hx as [-> _].
  - unfold sys_ledger, sys_owed. simpl. rewrite Hs. unfold owing. by rewrite Ho.
  - simpl. destruct (sy_sched s) as [|ms' rest']; simpl in En; injection En as <- <-; simpl in *; [lia|].
    rewrite length_app. lia.
Qed.

(** A receive keeps the books: what is delivered leaves the script. *)
Lemma os_recv_spec k fd n i o k' r :
  os_ok k → os_socks k !! fd = Some (i, o) → 0 < n → os_do_recv fd n k = (k', r) →
  os_ok k' ∧ os_accepts k' = os_accepts k ∧
  match r with
  | inl d => len d ≤ n ∧ os_socks k' = <[fd := (i ++ d, o)]> (os_socks k)
  | inr _ => os_socks k' = os_socks k
  end.
Proof.
  intros [Ha Hs Hst] Hl Hn. unfold os_do_recv. rewrite Hl. destruct (os_recv k) as [|[d|e] rest] eqn:Er.
  - intros [= <- <-]. split_and!; try done. constructor; rewrite ?Er; done.
  - intros [= <- <-]. simpl.
    assert (Hb : script_bytes (if bool_decide (drop (Z.to_nat n) d = []) then rest else inl (drop (Z.to_nat n) d) :: rest)
      + len (take (Z.to_nat n) d) = script_bytes (inl d :: rest)).
    { assert (len d = len (take (Z.to_nat n) d) + len (drop (Z.to_nat n) d)) as Hd
        by (by rewrite <-len_app, take_drop).
      case_bool_decide as Hnil; cbn [script_bytes]; rewrite ?Hnil, ?len_nil in Hd; lia. }
    split_and!; [|done|rewrite len_take by lia; lia|done].
    pose proof (len_nonneg (take (Z.to_nat n) d)). constructor; simpl; [done|lia|].
    intros fd' i' o' [[<- [= <- <-]]|[_ Hl']]%lookup_insert_Some.
    + apply Hst in Hl. rewrite len_app. lia.
    + apply Hst in Hl'. lia.
  - intros [= <- <-]. simpl. by split_and!.
Qed.

Lemma os_send_spec k fd d i o k' r :
  os_ok k → os_socks k !! fd = Some (i, o) → os_do_send fd d k = (k', r) →
  os_ok k' ∧ os_accepts k' = os_accepts k ∧
  match r with
  | inl n => 0 ≤ n ≤ len d ∧ os_socks k' = <[fd := (i, o ++ take (Z.to_nat n) d)]> (os_socks k)
  | inr _ => os_socks k' = os_socks k
  end.
Proof.
  intros [Ha Hs Hst] Hl. unfold os_do_send. destruct (next_result _ (os_send k)) as [res rest]. rewrite Hl.
  destruct res as [n|e]; intros [= <- <-]; simpl; split_and!; try done; try len_lia.
  - constructor; simpl; [done..|]. intros fd' i' o' [[<- [= <- <-]]|[_ Hl']]%lookup_insert_Some; eauto.
Qed.

Lemma os_accept_spec k k' r :
  os_ok k → os_do_accept k = (k', r) →
  os_ok k' ∧
  match r with
  | inl (fd, _, _) => 0 ≤ fd ∧ os_socks k !! fd = None ∧ os_socks k' = <[fd := ([], [])]> (os_socks k) ∧
      os_accepts k' = os_accepts k + 1 ∧ (length (os_incoming k') < length (os_incoming k))%nat
  | inr e => os_socks k' = os_socks k ∧ os_accepts k' = os_accepts k ∧
      (e = EINTR ∨ e = ECONNABORTED → (length (os_incoming k') < length (os_incoming k))%nat)
  end.
Proof.
  intros [Ha Hs Hst]. unfold os_do_accept.
  destruct (os_incoming k) as [|[[[fd a] p]|e] rest] eqn:Ei; simpl; unfold EINTR, ECONNABORTED, EAGAIN.
  - intros [= <- <-]. split_and!; try done. intros [?|?]; lia.
  - rewrite len_cons in Ha. case_bool_decide as Hf; intros [= <- <-]; simpl.
    + destruct Hf. split_and!; try done; [|lia]. constructor; simpl; [len_lia|done|].
      intros fd' i' o' [[<- [= <- <-]]|[_ Hl']]%lookup_insert_Some; eauto.
    + split_and!; try done; [|lia]. constructor; simpl; [lia|done..].
  - rewrite len_cons in Ha. intros [= <- <-]; simpl. split_and!; try done; [|lia]. constructor; simpl; [lia|done..].
Qed.

(** The event loop's own steps of the process. *)
Lemma serving_push item p : serving p → psteps p (loop_push item p) ∧ serving (loop_push item p).
Proof.
  intros [Hm [ts Hs]]. assert (psteps p (loop_push item p)) as Hp
    by (eapply rtc_once; exists TMain; by apply StepLoopPush).
  split; [done|]. split; [|exists ts; by etrans]. unfold loop_push. by destruct (try_push _ _) as [[??]?].
Qed.

Lemma serving_pop p : serving p → psteps p (loop_pop p) ∧ serving (loop_pop p).
Proof.
  intros [Hm [ts Hs]]. assert (psteps p (loop_pop p)) as Hp by (eapply rtc_once; exists TMain; by apply StepLoopPop).
  split; [done|]. split; [|exists ts; by etrans]. unfold loop_pop. by destruct (try_pop _).
Qed.

Lemma serving_warn stamp text p : serving p → psteps p (loop_warn level stamp text p) ∧ serving (loop_warn level stamp text p).
Proof.
  intros [Hm [ts Hs]]. assert (psteps p (loop_warn level stamp text p)) as Hp
    by (eapply rtc_once; exists TMain; by apply StepLoopWarn).
  split; [done|]. split; [done|]. exists ts. by etrans.
Qed.

Lemma sys_push_spec item s s' st :
  sys_ok s → sys_push item s = (s', st) →
  sys_ok s' ∧ sys_extends s s' ∧
  os_socks (sy_os s') = os_socks (sy_os s) ∧ os_accepts (sy_os s') = os_accepts (sy_os s) ∧
  sys_ledger s' ≡ₚ owing (if bool_decide (st = PushOk) then [item] else []) ++ sys_ledger s.
Proof.
  intros (Hok & Hx & Hs & Ha & How & _)%interfere_spec. unfold sys_push.
  set (s1 := interfere s) in *. destruct Hok as [Hos [[Hp1 Hp2 Hp3 Hp4] ????] Hsv Hs0].
  destruct (serving_push item (sy_process s1) Hsv) as [Hst Hsv'].
  destruct (try_push item (work_queue_ (sy_pool s1))) as [[q st'] k] eqn:E. intros [= <- <-].
  assert (loop_push item (sy_process s1) = with_pool (with_work q (sy_pool s1)) (sy_process s1)) as Hpush.
  { unfold loop_push. fold (sy_pool s1). by rewrite E. }
  split_and!; try done.
  - constructor; [done| |done|done]. unfold sy_pool. simpl. rewrite Hpush. by constructor.
  - etrans; [exact Hx|]. by split.
  - unfold sys_ledger, sys_owed, outstanding in *. unfold sy_pool at 1 2 in How. unfold sy_pool in *.
    cbn [sy_process sy_ghost]. rewrite Hpush. cbn [pr_pool with_pool with_work work_queue_ workers_].
    apply try_push_inv in E as [(_ & -> & -> & _)|[(_ & _ & -> & -> & _)|(_ & _ & -> & -> & _)]]; simpl; try done.
    rewrite <-How. unfold owing. rewrite <-!app_assoc, !fmap_app. simpl. by rewrite <-Permutation_middle.
Qed.

Lemma sys_pop_spec s s' r :
  sys_ok s → sys_pop s = (s', r) →
  sys_ok s' ∧ sys_extends s s' ∧
  os_socks (sy_os s') = os_socks (sy_os s) ∧ os_accepts (sy_os s') = os_accepts (sy_os s) ∧
  match r with
  | None => sys_ledger s' ≡ₚ sys_ledger s
  | Some c => ∃ item l, completes item c ∧ served (gh_history (sy_ghost s')) item (co_response c) ∧
      sys_ledger s ≡ₚ (item, true) :: l ∧ sys_ledger s' ≡ₚ (item, false) :: l
  end.
Proof.
  intros (Hok & Hx & Hs & Ha & How & _)%interfere_spec. unfold sys_pop.
  set (s1 := interfere s) in *. destruct Hok as [Hos [[Hp1 Hp2 Hp3 Hp4] Hre Hpu Hor Hit] Hsv Hs0].
  destruct (serving_pop (sy_process s1) Hsv) as [Hst Hsv'].
  destruct (try_pop (completion_queue_ (sy_pool s1))) as [q out] eqn:E.
  assert (loop_pop (sy_process s1) = with_pool (with_completion q (sy_pool s1)) (sy_process s1)) as Hpop.
  { unfold loop_pop. fold (sy_pool s1). by rewrite E. }
  assert (sys_extends s1 (mkSys (sy_os s1) (loop_pop (sy_process s1)) (sy_ghost s1) (sy_sched s1))) as Hx1 by (by split).
  unfold try_pop, pop_front in E. unfold queue_wf in Hp3.
  destruct (items_ (completion_queue_ (sy_pool s1))) as [|co rest] eqn:Ei; injection E as <- <-; intros [= <- <-].
  - split_and!; [|by etrans|done|done|].
    + constructor; [done| |done|done]. unfold sy_pool. simpl. rewrite Hpop.
      constructor; simpl; try done; [|by rewrite Ei]. constructor; simpl; auto. unfold queue_wf. by rewrite Ei.
    + unfold sys_ledger, sys_owed, sy_pool at 1. simpl. by rewrite Hpop.
  - destruct (gh_origin (sy_ghost s1)) as [|item or] eqn:Ho; [by apply Forall2_nil_inv_l in Hor|].
    apply Forall2_cons in Hor as [[Hco Hans] Hor]. split_and!; [|by etrans|done|done|].
    + constructor; [done| |done|done]. unfold sy_pool. simpl. rewrite Hpop. constructor; simpl; try done.
      * constructor; simpl; try done. unfold queue_wf. simpl. len_lia.
      * rewrite Hit. apply Permutation_app_head. simpl. by rewrite Permutation_middle.
    + unfold sys_ledger, sys_owed, outstanding in *. rewrite Ho in How. unfold sy_pool at 1 2. cbn [sy_process sy_ghost gh_origin gh_settled].
      rewrite Hpop. cbn [pr_pool with_pool with_completion completion_queue_ work_queue_ workers_].
      set (O := items_ (work_queue_ (sy_pool s1)) ++ concat (held <$> workers_ (sy_pool s1))) in *.
      exists item, (owing (O ++ or) ++ ((λ it, (it, false)) <$> gh_settled (sy_ghost s1))).
      split_and!; [done|done| |by rewrite fmap_cons, <-Permutation_middle].
      rewrite <-How, !owing_app. cbn [owing fmap list_fmap]. by rewrite <-Permutation_middle.
Qed.

(** A call that only the scripts or the eventfd notice. *)
Lemma misc_ok s k :
  sys_ok s → os_socks k = os_socks (sy_os s) → os_accepts k = os_accepts (sy_os s) →
  os_incoming k = os_incoming (sy_os s) → os_recv k = os_recv (sy_os s) →
  sys_ok (mkSys k (sy_process s) (sy_ghost s) (sy_sched s)).
Proof.
  intros [[Ha Hs Hst] Hco] Es Ea Ei Er. constructor; simpl; [|done..].
  constructor; rewrite ?Es, ?Ea, ?Ei, ?Er; done.
Qed.

#[export] Instance sys_view : WorldView Sys := {
  world_inv := sys_ok;
  extends := sys_extends;
  answered s := served (gh_history (sy_ghost s));
  socks s := os_socks (sy_os s);
  accepts s := os_accepts (sy_os s);
  ledger := sys_ledger;
  backlog s := length (os_incoming (sy_os s));
  wakeups := sys_wakeups;
}.

Lemma misc_undisturbed s0 s k :
  world_ok s0 s → os_socks k = os_socks (sy_os s) → os_accepts k = os_accepts (sy_os s) →
  os_incoming k = os_incoming (sy_os s) → os_recv k = os_recv (sy_os s) →
  undisturbed s0 s (mkSys k (sy_process s) (sy_ghost s) (sy_sched s)).
Proof. intros [Hok Hx] ????. unfold undisturbed, world_ok. split_and!; try done. by apply misc_ok. Qed.

Lemma interfere_undisturbed s0 s : world_ok s0 s → undisturbed s0 s (interfere s).
Proof.
  intros [Hok Hx]. apply interfere_spec in Hok as (Hok' & Hx' & ? & ? & ? & _).
  split_and!; try done. split; [done|]. simpl in *. by etrans.
Qed.

Lemma script_bytes_nonneg l : 0 ≤ script_bytes l.
Proof. induction l as [|[d|e] l IH]; simpl; [done|len_lia|done]. Qed.

Lemma pushing_sublist ws : concat (pushing <$> ws) `sublist_of` concat (held <$> ws).
Proof.
  induction ws as [|w ws IH]; [done|]. rewrite !fmap_cons. cbn [concat]. apply sublist_app; [|done].
  unfold pushing. destruct w as [| |item ph| |]; cbn [promised held]; try apply sublist_nil_l; [|done].
  destruct (response_of _ _); [done|apply sublist_nil_l].
Qed.

#[export] Program Instance sys_laws : WorldLaws Sys.
Next Obligation.
  intros s s' it resp [[_ [l Hl]] _] [now H]. exists now. simpl in *. unfold gh_history. rewrite Hl, executed_app.
  apply elem_of_app. by left.
Qed.
Next Obligation.
  intros s it resp [_ [_ _ _ _ Hit _] _ _] [now H]. apply (list_elem_of_fmap_2 sv_item) in H. simpl in H.
  rewrite Hit in H. unfold issued. simpl. unfold sys_ledger, sys_owed, outstanding.
  rewrite issued_owing, <-list_fmap_compose. simpl. rewrite list_fmap_id. revert H. rewrite !elem_of_app.
  intros [H|[H|H]]; [|by auto..]. do 2 left. right. by eapply elem_of_sublist, pushing_sublist.
Qed.
Next Obligation.
  intros s0 s fd i o [[Hos _ _ _] _] Hl. apply (ok_streams _ Hos) in Hl.
  pose proof (script_bytes_nonneg (os_recv (sy_os s))). lia.
Qed.
Next Obligation. intros s0 s [[Hos _ _ _] _]. destruct (ok_accepts _ Hos). simpl. len_lia. Qed.
Next Obligation.
  intros s0 s s' fd n r i o [[Hos Hco Hsv Hs0] Hx] Hl Hn. simpl. unfold on_os.
  destruct (os_do_recv fd n (sy_os s)) as [k res] eqn:E. intros [= <- <-].
  apply (os_recv_spec _ _ _ i o) in E as (Hok & Ha & Hr); [|done..]. split_and!; try done.
Qed.
Next Obligation.
  intros s0 s s' fd d r i o [[Hos Hco Hsv Hs0] Hx] Hl Hn. simpl. unfold on_os.
  destruct (os_do_send fd d (sy_os s)) as [k res] eqn:E. intros [= <- <-].
  apply (os_send_spec _ _ _ i o) in E as (Hok & Ha & Hr); [|done..]. split_and!; try done.
Qed.
Next Obligation.
  intros s0 s s' r [[Hos Hco Hsv Hs0] Hx]. simpl. unfold on_os.
  destruct (os_do_accept (sy_os s)) as [k res] eqn:E. intros [= <- <-].
  apply os_accept_spec in E as (Hok & Hr); [|done]. split_and!; try done.
Qed.
Next Obligation.
  intros s0 s fd [[[Ha Hs Hst] Hco Hsv Hs0] Hx]. simpl. split_and!; try done. split; [|done]. constructor; simpl; [|done..].
  constructor; simpl; try done. intros fd' i o [_ Hl]%lookup_delete_Some. eauto.
Qed.
Next Obligation.
  intros s0 s s' op fd ev ok Hok. simpl. unfold on_os. destruct (next_result _ _) as [b rest].
  intros [= <- <-]. split; [by apply misc_undisturbed|done].
Qed.
Next Obligation.
  intros s0 s s' r Hok. simpl. unfold on_os. destruct (next_result _ _) as [b rest].
  intros [= <- <-]. by apply misc_undisturbed.
Qed.
Next Obligation.
  intros s0 s s' b Hok. simpl. unfold on_os. intros [= <- <-].
  pose proof (interfere_undisturbed s0 s Hok) as Hu. destruct Hok as [Hok _].
  apply interfere_spec in Hok as (_ & _ & _ & _ & _ & Hw). split.
  - destruct Hu as (Hok1 & Hs1 & Ha1 & Hl1). pose proof (misc_undisturbed s0 (interfere s)
      (os_with_misc (os_epoll (sy_os (interfere s))) (os_wait (sy_os (interfere s))) 0
         (sy_os (interfere s))) Hok1) as (Hok2 & Hs2 & Ha2 & Hl2); [done..|].
    split_and!; [done|congruence|congruence|by rewrite Hl2].
  - unfold sys_wakeups in *. simpl. destruct (os_wake (sy_os (interfere s))); simpl; [done|lia].
Qed.
Next Obligation.
  intros s0 s s' b Hok [= <- <-]. by apply interfere_undisturbed.
Qed.
Next Obligation.
  intros s0 s text [[Hos Hco Hsv Hs0] Hx]. simpl. destruct (next_result [] (os_stamps (sy_os s))) as [stamp rest].
  destruct (serving_warn stamp text (sy_process s) Hsv) as [Hst Hsv']. split; [|done].
  split_and!; try done. split; [constructor; simpl; try done; by destruct Hos|]. etrans; [exact Hx|]. by split.
Qed.
Next Obligation.
  intros s0 s s' item st [Hok Hx] E. apply sys_push_spec in E as (? & ? & ? & ? & ?); [|done].
  split_and!; try done. split; [done|]. simpl in *. by etrans.
Qed.
Next Obligation.
  intros s0 s s' r [Hok Hx] E. apply sys_pop_spec in E as (? & ? & ? & ? & ?); [|done].
  split_and!; try done. split; [done|]. simpl in *. by etrans.
Qed.

(** A server whose workers wait for work, with the sweeps so far. *)
Lemma idle_ok k p store0 events sched :
  os_ok k → serving p → pool_wf hash (pr_pool p) → make_store (shard_count opts) = Ok store0 →
  items_ (work_queue_ (pr_pool p)) = [] → items_ (completion_queue_ (pr_pool p)) = [] →
  Forall (λ s, s = Popping) (workers_ (pr_pool p)) →
  executed events = [] → map_ok (store_ (pr_pool p)) [sweeper_phase (pr_sweeper p)] (mkGhost store0 events [] []) →
  let s := mkSys k p (mkGhost store0 events [] []) sched in sys_ok s ∧ sys_ledger s = [].
Proof.
  intros Hk Hsv Hwf Hs0 Hwk Hcq Hws Hev Hm s.
  assert (concat (held <$> workers_ (pr_pool p)) = []) as Hheld.
  { clear -Hws. induction Hws as [|? ? -> _ IH]; [done|]. done. }
  split.
  - constructor; [done| |done|done]. constructor; [done| | | | |].
    + unfold s. simpl. destruct (pr_sweeper p); simpl; [by left..| |by left|by left]. right. repeat eexists.
    + eapply Forall_impl; [done|]. by intros ? -> ??.
    + unfold s, sy_pool. simpl. rewrite Hcq. constructor.
    + unfold gh_history. simpl. rewrite Hev. simpl. clear -Hws. unfold s, sy_pool. simpl.
      induction Hws as [|? ? -> _ IH]; [done|]. done.
    + eapply map_ok_phases; [exact Hm|]. intros l [Hph _]%Forall_cons. constructor; [done|]. apply Forall_fmap.
      eapply Forall_impl; [done|]. by intros ? ->.
  - unfold sys_ledger, sys_owed, outstanding, s, sy_pool. simpl. by rewrite Hwk, Hheld.
Qed.
End System.

(** ** A run

    One client connects, pipelines SET and GET, a worker answers both while
    the event loop drains the completions. *)
Definition demo_requests : bytes :=
  encode_command [lit "SET"; lit "k"; lit "v"] ++ encode_command [lit "GET"; lit "k"].

Definition demo_os : Os :=
  mkOs ∅ 0 [inl (7, lit "127.0.0.1", 40000)] [inl demo_requests] [inl 3] []
    [inl [(3, EPOLLIN)]; inl [(7, EPOLLIN)]; inl [(4, EPOLLIN)]] 0 [].

Definition worker_turns (now : Z) : list Move := replicate 4 (WorkerMove 0 now).

(** The process right after its start, with what the kernel will answer. *)
Definition demo_server (k : Os) (sched : list (list Move)) : @Sys candidate_queue :=
  mkSys k demo_running (mkGhost demo_store [] [] []) sched.

Definition demo_sys : @Sys candidate_queue :=
  demo_server demo_os (replicate 6 [] ++ [worker_turns 10; worker_turns 20]).

Abbreviation demo_world := (sys_world (Q := candidate_queue) sum_hash kInfo ∅).
Abbreviation demo_view :=
  (sys_view (Q := candidate_queue) sum_hash demo_options demo_calls kInfo ∅).
Abbreviation demo_laws :=
  (sys_laws (Q := candidate_queue) sum_hash demo_options demo_calls kInfo ∅).

Definition demo_config : EventLoopConfig := mkEventLoopConfig 4096 4096 64 true.

Definition demo_iteration (x : ConnectionRegistry * @Sys candidate_queue)
    : option (ConnectionRegistry * @Sys candidate_queue) :=
  match run_iteration (World0 := demo_world) demo_config 4 3 10 x.1 x.2 with
  | Some (Running r, s) => Some (r, s)
  | _ => None
  end.

Fixpoint demo_run (n : nat) (x : ConnectionRegistry * @Sys candidate_queue)
    : option (ConnectionRegistry * @Sys candidate_queue) :=
  match n with
  | O => Some x
  | S n => y ← demo_iteration x; demo_run n y
  end.

(** The state after the given number of iterations. *)
Definition demo_state (n : nat) : ConnectionRegistry * @Sys candidate_queue :=
  default (make_registry, demo_sys) (demo_run n (make_registry, demo_sys)).
#[global] Strategy 100 [demo_state].

Lemma demo_server_fresh k sched :
  os_ok k → os_socks k = ∅ → os_accepts k = 0 → world_fresh (WorldView0 := demo_view) (demo_server k sched).
Proof.
  intros Hk Hs Ha.
  destruct (idle_ok sum_hash demo_options demo_calls kInfo ∅ k demo_running demo_store [] sched) as [Hok Hl];
    [done| | |vm_compute; reflexivity|vm_compute; reflexivity|vm_compute; reflexivity| |done| |].
  - split; [vm_compute; reflexivity|eexists; apply demo_running_reached].
  - eapply (proc_pool_wf sum_hash demo_options demo_calls kInfo); [|vm_compute; lia].
    eapply steps_inv; [apply demo_options_wf|simpl; lia|apply process_start_inv|apply demo_running_reached].
  - by repeat constructor.
  - intros Hempty _ _. split_and!; [|by constructor|done].
    assert (store_ (pr_pool demo_running) = demo_store) as -> by (vm_compute; reflexivity).
    by apply store_core_start; [apply demo_store_wf|].
  - by split_and!.
Qed.

Lemma demo_run_steps n x y :
  demo_run n x = Some y → rtc (iterates (World0 := demo_world) demo_config 4 3) x y.
Proof.
  revert x. induction n as [|n IH]; intros x; simpl; [intros [= ->]; reflexivity|].
  destruct (demo_iteration x) as [z|] eqn:E; simpl; [|done]. intros Hr. eapply rtc_l; [|by apply IH].
  exists 10%nat. unfold demo_iteration in E.
  destruct (run_iteration _ _ _ _ _ _) as [[[r|r|e] s]|]; simplify_eq. done.
Qed.

Lemma demo_reachable n :
  demo_run n (make_registry, demo_sys) = Some (demo_state n) →
  reachable (World0 := demo_world) (WorldView0 := demo_view) demo_config 4 3 (demo_state n).1 (demo_state n).2.
Proof.
  intros H. exists demo_sys. split; [apply demo_server_fresh; [constructor; [by vm_compute..|]; done|done..]|]. apply demo_run_steps in H.
  by destruct (demo_state n).
Qed.

Lemma demo_config_ok : config_ok demo_config.
Proof. by vm_compute. Qed.

(** After three iterations the client has sent both requests and received
    both replies, the first of them in two pieces. *)
Lemma responses_match_requests_witness :
  ∃ c i o fs reqs outs, find_current 7 (demo_state 3).1 = Some c ∧
    socks (WorldView := demo_view) (demo_state 3).2 !! 7 = Some (i, o) ∧ i = demo_requests ∧
    o = lit "+OK" ++ crlf ++ lit "$1" ++ crlf ++ lit "v" ++ crlf ∧
    i = concat fs ++ data_ (input_ c) ∧ Forall2 frame_request fs reqs ∧
    o ++ data_ (output_ c) = concat outs.
Proof.
  assert (∃ c, find_current 7 (demo_state 3).1 = Some c) as [c Hc] by (eexists; vm_compute; reflexivity).
  destruct (responses_match_requests (WorldLaws0 := demo_laws) demo_config 4 3
    (demo_state 3).1 (demo_state 3).2 7 c) as (i & o & fs & reqs & outs & Hs & Hi & Hf & Ho & _);
    [apply demo_config_ok|apply demo_reachable; vm_compute; reflexivity|exact Hc|].
  exists c, i, o, fs, reqs, outs. assert (socks (WorldView := demo_view) (demo_state 3).2 !! 7 =
    Some (demo_requests, lit "+OK" ++ crlf ++ lit "$1" ++ crlf ++ lit "v" ++ crlf)) as E
    by (vm_compute; reflexivity).
  rewrite E in Hs. injection Hs as <- <-. split_and!; [exact Hc|exact E|reflexivity|reflexivity|exact Hi|exact Hf|exact Ho].
Defined.

Lemma no_request_lost_witness :
  ∃ c, find_current 7 (demo_state 2).1 = Some c ∧ in_flight_count (sequencer_ c) = 2 ∧
    0 ∈ wi_sequence <$> filter (is_mine c) (sys_owed (demo_state 2).2).
Proof.
  assert (∃ c, find_current 7 (demo_state 2).1 = Some c ∧ in_flight_count (sequencer_ c) = 2 ∧
    next_expected_ (sequencer_ c) = 0) as (c & Hc & Hif & Hne).
  { eexists. split; [vm_compute; reflexivity|]. split; vm_compute; reflexivity. }
  exists c. split; [exact Hc|]. split; [exact Hif|]. rewrite <-Hne.
  destruct (no_request_lost (WorldLaws0 := demo_laws) demo_config 4 3 (demo_state 2).1 (demo_state 2).2 7 c)
    as (i & o & fs & reqs & _ & _ & _ & _ & _ & _ & _ & H);
    [apply demo_config_ok|apply demo_reachable; vm_compute; reflexivity|exact Hc|].
  apply H. lia.
Defined.

Lemma iteration_returns_witness :
  ∃ n st w', ∀ fuel, (n ≤ fuel)%nat →
    run_iteration (World0 := demo_world) demo_config 4 3 fuel (demo_state 3).1 (demo_state 3).2 = Some (st, w').
Proof.
  destruct (iteration_returns (WorldLaws0 := demo_laws) demo_config 4 3 (demo_state 3).1 (demo_state 3).2)
    as (n & st & w' & H & _); [apply demo_config_ok|apply demo_reachable; vm_compute; reflexivity|].
  exists n, st, w'. exact H.
Defined.

Lemma no_descriptor_leak_witness :
  dom (socks (WorldView := demo_view) (demo_state 3).2) = dom (connections_ (demo_state 3).1).
Proof.
  destruct (no_descriptor_leak (WorldLaws0 := demo_laws) demo_config 4 3 (demo_state 3).1 (demo_state 3).2) as [H _];
    [apply demo_config_ok|apply demo_reachable; vm_compute; reflexivity|exact H].
Defined.

(** A connection at its cap of one request: 64 more bytes fill its buffer. *)
Definition slow_config : EventLoopConfig := mkEventLoopConfig 64 4096 1 true.
Definition slow_sys : @Sys candidate_queue :=
  demo_server (mkOs ∅ 0 [inl (7, lit "127.0.0.1", 40000)] [inl ping_frame; inr EAGAIN; inl (replicate 64 "x"%char)] []
      [] [inl [(3, EPOLLIN)]; inl [(7, EPOLLIN)]] 0 []) [].

Definition slow_iteration (x : ConnectionRegistry * @Sys candidate_queue)
    : ConnectionRegistry * @Sys candidate_queue :=
  match run_iteration (World0 := demo_world) slow_config 4 3 10 x.1 x.2 with
  | Some (Running r, s) => (r, s)
  | _ => x
  end.
Definition slow_state : ConnectionRegistry * @Sys candidate_queue :=
  slow_iteration (slow_iteration (make_registry, slow_sys)).

Lemma slow_reachable :
  reachable (World0 := demo_world) (WorldView0 := demo_view) slow_config 4 3 slow_state.1 slow_state.2.
Proof.
  exists slow_sys. split.
  - apply demo_server_fresh; [constructor; [by vm_compute..|]; done|done..].
  - assert ((slow_state.1, slow_state.2) = slow_state) as -> by by destruct slow_state.
    apply (rtc_l _ _ (slow_iteration (make_registry, slow_sys))); [exists 10%nat; by vm_compute|].
    apply (rtc_l _ _ slow_state); [exists 10%nat; by vm_compute|apply rtc_refl].
Qed.

Lemma slow_config_ok : config_ok slow_config.
Proof. by vm_compute. Qed.

Lemma full_input_closes_witness :
  ∃ r' w', handle_connection_readable (World0 := demo_world) slow_config 9 7 slow_state.1 slow_state.2 =
    Some (r', w') ∧ find_current 7 r' = None.
Proof.
  assert (∃ c, find_current 7 slow_state.1 = Some c ∧ in_flight_count (sequencer_ c) = 1 ∧
    buffer_size (input_ c) = 0) as (c & Hc & Hif & Hsz).
  { eexists. split; [vm_compute; reflexivity|]. split; vm_compute; reflexivity. }
  eapply (full_input_closes (WorldLaws0 := demo_laws) slow_config 4 3 slow_state.1 slow_state.2 7 c _
    (replicate 64 "x"%char) 7).
  - apply slow_config_ok.
  - apply slow_reachable.
  - exact Hc.
  - exact Hif.
  - rewrite Hsz. reflexivity.
  - done.
  - vm_compute. reflexivity.
Defined.

Lemma io_preserves_streams_witness :
  ∃ d, buffer_size (read_into (World0 := demo_world) 7 (mkBoundedBuffer [] 16) (demo_state 1).2).1.2 = 16 ∧
    data_ (read_into (World0 := demo_world) 7 (mkBoundedBuffer [] 16) (demo_state 1).2).1.2 = [] ++ d.
Proof.
  assert (Hr := reachable_inv (WorldLaws0 := demo_laws) demo_config 4 3 (demo_state 1).1 (demo_state 1).2
    demo_config_ok (demo_reachable 1 ltac:(vm_compute; reflexivity))).
  destruct (read_into (World0 := demo_world) 7 (mkBoundedBuffer [] 16) (demo_state 1).2) as [[w' b'] out] eqn:E.
  destruct (io_preserves_streams (WorldLaws0 := demo_laws) 7 (mkBoundedBuffer [] 16) (demo_state 1).2 [] [])
    as [Hread _].
  - apply (lp_ok _ _ _ _ _ _ Hr).
  - vm_compute. reflexivity.
  - by vm_compute.
  - destruct (Hread _ _ _ E) as (d & _ & Hd & _). exists d. split; [|exact Hd].
    assert (buffer_size (read_into (World0 := demo_world) 7 (mkBoundedBuffer [] 16) (demo_state 1).2).1.2 = 16)
      as H by (vm_compute; reflexivity). by rewrite E in H.
Defined.

(** The descriptor table is full when a client connects. *)
Definition full_server (incoming : list (Z * bytes * Z + Z)) (wait : list (list (Z * Z) + Z)) : @Sys candidate_queue :=
  demo_server (mkOs ∅ 0 incoming [] [] [] wait 0 []) [].

Lemma accept_failure_stops_run_witness :
  run_iteration (World0 := demo_world) demo_config 4 3 10 make_registry (full_server [inr EMFILE] [inl [(3, EPOLLIN)]]) =
    Some (Failed (SystemError EMFILE (lit "Listener: accept4() failed")), full_server [] []).
Proof.
  refine (accept_failure_stops_run (World0 := demo_world) demo_config 4 3 make_registry
    (full_server [inr EMFILE] [inl [(3, EPOLLIN)]]) (full_server [inr EMFILE] [inl [(3, EPOLLIN)]])
    (full_server [inr EMFILE] []) (full_server [] []) EMFILE 9 [] _ _ _ _ _ _ _).
  1, 2, 4: vm_compute; reflexivity.
  all: vm_compute; discriminate.
Defined.
