(* ===== verification/Framing.v ===== *)
(** * The byte stream and the machine integers of a connection

    [split_stream] is the reference for [EventLoop::process_input]: it cuts a
    whole byte stream into requests, with nothing buffered, queued or limited.
    The event loop reads the stream in pieces of any size, stops at the
    in-flight cap and resumes; the first theorem says that what it answers is
    nevertheless a function of the bytes alone.  The second says that the
    [uint64_t] counters and [size_t] sizes of reachable states are exact: no
    wrap-around of the model ever takes place. *)
From stdpp Require Import relations.
From S2P Require Import Prelude Decimal Parser Serializer Client BoundedBuffer Sequencer BoundedQueue.
From S2P Require Import PriorityQueue Storage StorageInv StorageSpec Dispatcher.
From S2P Require Import World WorkerPool Logger Cli Main Process.
From S2P Require Import Io Registry EventLoop EventLoopInv EventLoopProps EventLoopMain System.

(** The requests of a stream, and the bytes that are not a complete one. *)
Fixpoint split_stream (fuel : nat) (input : bytes) : list Request * bytes :=
  match fuel with
  | O => ([], input)
  | S fuel =>
      match parse_command input with
      | Some (ParsedCommand cmd n) =>
          let '(qs, rest) := split_stream fuel (drop (Z.to_nat n) input) in (ReqCommand cmd :: qs, rest)
      | Some (ParseError e) =>
          if recoverable e then
            let '(qs, rest) := split_stream fuel (drop (Z.to_nat (err_consumed_bytes e)) input) in
            (ReqError (message e) :: qs, rest)
          else ([], input)
      | _ => ([], input)
      end
  end.

(** Every round consumes bytes, so the length of the input is fuel enough. *)
Definition requests_of (input : bytes) : list Request := (split_stream (S (length input)) input).1.

(** A request is recognised whatever follows its frame. *)
Lemma frame_request_app f q more :
  frame_request f q →
  match q with
  | ReqCommand cmd => parse_command (f ++ more) = Some (ParsedCommand cmd (len f))
  | ReqError msg => ∃ e, parse_command (f ++ more) = Some (ParseError e) ∧ recoverable e = true ∧
      err_consumed_bytes e = len f ∧ message e = msg
  end.
Proof.
  assert (∀ r, parse_command f = Some r →
    match r with ParsedCommand _ _ => True | NeedMoreData => False | ParseError e => recoverable e = true end →
    parse_command (f ++ more) = Some r) as Hst.
  { intros r. unfold parse_command. pose proof (read_frame_outcome f) as Hout.
    destruct (read_multibulk_frame f) as [[args used| |e]|]; cbn [mbind option_bind]; [| | |done].
    - destruct Hout as (g & rest & -> & Hg & ->). rewrite <-app_assoc. by rewrite (read_frame_intro args).
    - by intros [= <-].
    - destruct Hout as [Hr _]. intros [= <-]. by rewrite Hr. }
  destruct q as [cmd|msg]; simpl; [by intros H; apply Hst|].
  intros (e & Hp & Hr & Hc & Hm). exists e. split_and!; try done. by apply Hst.
Qed.

(** One step of the reference: the frame in front, if there is one. *)
Lemma split_stream_frame fuel f q rest :
  frame_request f q →
  split_stream (S fuel) (f ++ rest) = (q :: (split_stream fuel rest).1, (split_stream fuel rest).2).
Proof.
  intros Hf%(λ H, frame_request_app f q rest H). destruct q as [cmd|msg]; cbn [split_stream].
  - rewrite Hf, drop_app_len. by destruct (split_stream fuel rest).
  - destruct Hf as (e & -> & -> & -> & <-). rewrite drop_app_len. by destruct (split_stream fuel rest).
Qed.

Lemma split_stream_step fuel input :
  (split_stream (S fuel) input = ([], input) ∧ ∀ fuel', split_stream fuel' input = ([], input)) ∨
  ∃ f q rest, input = f ++ rest ∧ frame_request f q.
Proof.
  destruct (parse_command_total input) as [res Hp]. pose proof (parse_frame input res Hp) as Hres.
  assert (Hstop : match res with ParsedCommand _ _ => False | NeedMoreData => True | ParseError e => recoverable e = false end →
    ∀ fuel', split_stream fuel' input = ([], input)).
  { intros H [|fuel']; [done|]. simpl. rewrite Hp. destruct res; try done. by rewrite H. }
  destruct res as [cmd n| |e].
  - right. destruct Hres as (f & rest & -> & _ & _ & Hf). eauto.
  - left. split; by apply Hstop.
  - destruct (recoverable e) eqn:Hr; [|left; split; by apply Hstop].
    right. destruct (Hres eq_refl) as (f & rest & -> & _ & _ & Hf). eauto.
Qed.

(** More fuel than bytes does not change the result. *)
Lemma split_stream_fuel fuel fuel' input :
  (length input < fuel)%nat → (length input < fuel')%nat → split_stream fuel input = split_stream fuel' input.
Proof.
  revert fuel' input. induction fuel as [|fuel IH]; intros [|fuel'] input H1 H2; try lia.
  destruct (split_stream_step fuel input) as [[_ Hstop]|(f & q & rest & -> & Hf)]; [by rewrite !Hstop|].
  rewrite !(split_stream_frame _ f q rest Hf). apply frame_nonempty in Hf. unfold len in Hf.
  rewrite length_app in *. by rewrite (IH fuel' rest) by lia.
Qed.

(** The reference reads frames one after the other. *)
Lemma requests_of_frames fs reqs rest :
  Forall2 frame_request fs reqs → requests_of (concat fs ++ rest) = reqs ++ requests_of rest.
Proof.
  intros Hall. unfold requests_of. induction Hall as [|f q fs reqs Hf _ IH]; [done|].
  cbn [concat]. rewrite <-app_assoc, (split_stream_frame _ f q) by done. cbn [fst app]. f_equal. rewrite <-IH. f_equal.
  apply split_stream_fuel; [|lia]. apply frame_nonempty in Hf. unfold len in Hf. rewrite !length_app. lia.
Qed.

Section Streams.
Context {W : Type} `{!World W, !WorldView W, !WorldLaws W}.
Context (cfg : EventLoopConfig) (wakeup_fd_ listener_fd_ : Z).
Implicit Types (w : W) (r : ConnectionRegistry) (c : Connection).

Lemma connection_stream r w id c :
  loop_ok cfg r w → find_current id r = Some c →
  ∃ i o outs n, socks w !! id = Some (i, o) ∧
    requests_of i = take n (requests_of i) ++ requests_of (data_ (input_ c)) ∧
    Z.of_nat n = next_of c ∧ (n ≤ length (requests_of i))%nat ∧
    o ++ data_ (output_ c) = concat outs ∧ (length outs ≤ n)%nat ∧
    ∀ k resp, outs !! k = Some resp →
      ∃ q, requests_of i !! k = Some q ∧ req_answer (answered w) c (Z.of_nat k) q resp.
Proof.
  intros Hr Hl.
  destruct (lp_conn _ _ _ _ _ _ Hr id c Hl) as (i & o & Hs & _ & Hinv). specialize (Hinv (λ f, f)).
  destruct Hinv as [_ (fs & reqs & g & outs & [Hi Hfs Hcnt Hseq Hans Ho _ _ Hif _])].
  pose proof (requests_of_frames fs reqs (data_ (input_ c)) Hfs) as Hreq. rewrite <-Hi in Hreq.
  pose proof (seq_inv_released _ _ _ Hseq) as Hle. rewrite <-Hcnt in Hle. unfold len in *.
  exists i, o, outs, (length reqs). split_and!; try done.
  - by rewrite Hreq, take_app_length.
  - rewrite Hreq, length_app. lia.
  - lia.
  - intros k resp Hk. destruct (inv_run _ _ _ Hseq) as [Hrun _]. apply Hrun, Hans in Hk as (q & Hq & Ha).
    rewrite Z.add_0_l, Nat2Z.id in Hq. exists q. split; [|done]. rewrite Hreq. by apply lookup_app_l_Some.
Qed.

(** C11. The answers of a connection are a function of the bytes it sent.  In
    every reachable state, however the stream was cut into reads and whenever
    the in-flight cap held the loop up: the requests taken so far, with those
    still in the input buffer, are the requests the reference splitter finds in
    the whole stream, and the k-th response answers the k-th of them. *)
Theorem responses_determined_by_bytes r w id c :
  config_ok cfg → reachable cfg wakeup_fd_ listener_fd_ r w → find_current id r = Some c →
  ∃ i o outs n, socks w !! id = Some (i, o) ∧
    requests_of i = take n (requests_of i) ++ requests_of (data_ (input_ c)) ∧
    Z.of_nat n = next_request_sequence_ (sequencer_ c) ∧ (n ≤ length (requests_of i))%nat ∧
    o ++ data_ (output_ c) = concat outs ∧ (length outs ≤ n)%nat ∧
    ∀ k resp, outs !! k = Some resp → ∃ q, requests_of i !! k = Some q ∧ req_answer (answered w) c (Z.of_nat k) q resp.
Proof.
  intros Hcfg Hr%reachable_inv Hl; [|done]. destruct (connection_stream r w id c Hr Hl) as (i & o & outs & n & H).
  by exists i, o, outs, n.
Qed.

(** The types of the fields: [ConnectionId] is the descriptor, generations and
    sequence numbers are [uint64_t], buffer sizes [size_t]. *)
Record connection_typed (c : Connection) : Prop := {
  ct_generation : in_u64 (conn_generation c);
  ct_request : in_u64 (next_request_sequence_ (sequencer_ c));
  ct_expected : in_u64 (next_expected_ (sequencer_ c));
  ct_pending : ∀ k resp, pending_ (sequencer_ c) !! k = Some resp →
    next_expected_ (sequencer_ c) < k < next_request_sequence_ (sequencer_ c);
  ct_in_flight : in_flight_count (sequencer_ c) =
    next_request_sequence_ (sequencer_ c) - next_expected_ (sequencer_ c);
  ct_input : len (data_ (input_ c)) ≤ capacity_ (input_ c) ∧ in_u64 (capacity_ (input_ c));
  ct_output : len (data_ (output_ c)) ≤ capacity_ (output_ c) ∧ in_u64 (capacity_ (output_ c));
}.

(** C24. The machine integers of the event loop are exact.  In every reachable
    state the generation counter has not wrapped and is above every
    connection's generation, connections are stored under their descriptor,
    and for each of them the sequence numbers are within [uint64_t], the
    [size_t] difference that counts the requests in flight is the mathematical
    one and at most the configured cap, the responses held back belong to
    requests after the next expected one, and no buffer exceeds its capacity. *)
Theorem loop_state_typed r w :
  config_ok cfg → reachable cfg wakeup_fd_ listener_fd_ r w →
  in_u64 (next_generation_ r) ∧
  ∀ id c, connections_ r !! id = Some c →
    connection_typed c ∧ conn_id c = id ∧ conn_fd c = id ∧ conn_generation c < next_generation_ r ∧
    in_flight_count (sequencer_ c) ≤ max_in_flight_per_connection cfg.
Proof.
  intros Hcfg Hr. apply reachable_inv in Hr; [|done]. pose proof (lp_reg _ _ _ _ _ _ Hr) as [Hrange Hconn].
  split; [unfold in_u64; lia|]. intros id c Hl. destruct (Hconn id c Hl) as (Hid & Hfd & Hgen).
  destruct (lp_conn _ _ _ _ _ _ Hr id c Hl) as (i & o & Hs & _ & Hinv). specialize (Hinv (λ f, f)).
  destruct Hinv as [[[Hi1 Hi2] [Ho1 Ho2] _ _] (fs & reqs & g & outs & [_ _ Hcnt Hseq _ _ _ _ Hif _])].
  pose proof (seq_inv_in_flight _ _ _ Hseq) as Hfl. pose proof (seq_inv_released _ _ _ Hseq) as Hle.
  destruct Hseq as [He [_ Hend] Hp Hrg Hbd]. pose proof (len_nonneg outs).
  pose proof (len_nonneg (data_ (input_ c))). pose proof (len_nonneg (data_ (output_ c))).
  split_and!; try done; [|lia|lia]. constructor; unfold in_u64; rewrite ?He; try lia.
  intros k resp. rewrite Hp. case_bool_decide; [done|]. intros Hk. apply Hrg in Hk as Hk'.
  destruct (decide (k = len outs)) as [->|]; [|lia]. rewrite Z.add_0_l in Hend. congruence.
Qed.
End Streams.

(** ** Witnesses *)
Lemma responses_determined_by_bytes_witness :
  requests_of demo_requests =
    [ReqCommand (mkCommand kSet (lit "k") (lit "v") 0); ReqCommand (mkCommand kGet (lit "k") [] 0)] ∧
  ∃ c i o outs n, find_current 7 (demo_state 3).1 = Some c ∧ socks (WorldView := demo_view) (demo_state 3).2 !! 7 = Some (i, o) ∧
    requests_of i = take n (requests_of i) ++ requests_of (data_ (input_ c)) ∧
    o ++ data_ (output_ c) = concat outs.
Proof.
  split; [vm_compute; reflexivity|].
  assert (∃ c, find_current 7 (demo_state 3).1 = Some c) as [c Hc] by (eexists; vm_compute; reflexivity).
  destruct (responses_determined_by_bytes (WorldLaws0 := demo_laws) demo_config 4 3
    (demo_state 3).1 (demo_state 3).2 7 c) as (i & o & outs & n & Hs & Hq & _ & _ & Ho & _);
    [apply demo_config_ok|apply demo_reachable; vm_compute; reflexivity|exact Hc|].
  exists c, i, o, outs, n. by split_and!.
Defined.

Lemma loop_state_typed_witness :
  ∃ c, connections_ (demo_state 2).1 !! 7 = Some c ∧ connection_typed c ∧ in_flight_count (sequencer_ c) = 2.
Proof.
  assert (∃ c, connections_ (demo_state 2).1 !! 7 = Some c ∧ in_flight_count (sequencer_ c) = 2) as (c & Hc & Hf)
    by (eexists; split; [vm_compute; reflexivity|vm_compute; reflexivity]).
  destruct (loop_state_typed (WorldLaws0 := demo_laws) demo_config 4 3 (demo_state 2).1 (demo_state 2).2)
    as [_ H]; [apply demo_config_ok|apply demo_reachable; vm_compute; reflexivity|].
  exists c. split; [exact Hc|]. split; [apply (H 7 c Hc)|exact Hf].
Defined.
