(* ===== verification/Server.v ===== *)
(** * The server as one map

    The theorems of the components put together on the whole server of
    [System.v]: event loop, queues, workers, sweeper and store inside their
    process.  The threads overlap on the store, one critical section at a time; the commands
    of all clients take effect in some order, recorded in [gh_history].  The
    first theorem says that this one order explains every byte sent to every
    client as the answers of the map with deadlines of [StorageSpec.v], and
    that no command is executed twice; the second that the order respects what
    a client can observe: a request the server has not yet taken is executed
    after everything executed so far, in particular after every request whose
    response has been sent. *)
From stdpp Require Import relations.
From S2P Require Import Prelude Decimal Parser Serializer Client BoundedBuffer Sequencer BoundedQueue.
From S2P Require Import PriorityQueue Storage StorageInv StorageSpec StorageConc StorageLin Dispatcher.
From S2P Require Import World WorkerPool Logger Cli FileDescriptor Listener Main Process.
From S2P Require Import Io Registry EventLoop EventLoopInv EventLoopProps EventLoopMain System Framing.

Section Server.
Context {Q : Type} `{!PriorityQueue ExpirationCandidate ExpirationCandidateOrder Q}.
Context (hash : bytes → Z).
Context (opts : ServerOptions) (calls : EventLoopCalls) (level : LogLevel).
Context (mask : gset Z).
Context (cfg : EventLoopConfig) (wakeup_fd_ listener_fd_ : Z).
#[local] Instance server_world : World (@Sys Q) := sys_world hash level mask.
#[local] Instance server_view : WorldView (@Sys Q) := sys_view hash opts calls level mask.
#[local] Instance server_laws : WorldLaws (@Sys Q) := sys_laws hash opts calls level mask.
Implicit Types (s : @Sys Q) (r : ConnectionRegistry) (c : Connection).

(** The commands that have taken effect so far. *)
Definition history s : list Served := gh_history (sy_ghost s).

(** A state [run] can reach, and one it can go on to. *)
Definition server_state r s : Prop := reachable cfg wakeup_fd_ listener_fd_ r s.
Definition server_later : relation (ConnectionRegistry * @Sys Q) := rtc (iterates cfg wakeup_fd_ listener_fd_).

(** The clock readings applied to the store: within the range of the clock,
    the deadlines computed from them too, and none older than one applied to the
    same key before. *)
Definition readings_sound s : Prop :=
  fresh_readings (store_ops (gh_events (sy_ghost s))) ∧ readings_ok (store_ops (gh_events (sy_ghost s))).

Lemma history_nodup r s :
  loop_ok cfg r s →
  NoDup (sv_item <$> history s).
Proof.
  intros Hok. pose proof (lp_nodup _ _ _ _ _ _ Hok) as Hn. pose proof (lp_ok _ _ _ _ _ _ Hok) as [[_ [_ _ _ _ Hit _] _ _] _].
  unfold history. rewrite Hit. cbn [ledger server_view sys_view] in Hn. unfold sys_ledger, sys_owed, outstanding in Hn.
  rewrite issued_owing, <-list_fmap_compose in Hn. simpl in Hn. rewrite list_fmap_id in Hn.
  rewrite <-!app_assoc in Hn. apply NoDup_app in Hn as (_ & _ & Hn). eapply sublist_NoDup; [exact Hn|].
  apply sublist_app; [|done]. apply pushing_sublist.
Qed.

(** The responses are those of the map. *)
Lemma history_replies r s j e :
  options_wf opts → shard_count opts ≤ 2 ^ 63 → loop_ok cfg r s → readings_sound s →
  history s !! j = Some e →
  ∃ reply, spec_serve (timed (history s)) ∅ !! j = Some reply ∧ sv_response e = encode_reply reply.
Proof.
  intros Hopt Hsh Hok [Hf Hr] Hj. destruct (lp_ok _ _ _ _ _ _ Hok) as [[_ [_ _ _ _ _ Hm] _ Hmk] _].
  assert (0 < shard_count opts ≤ 2 ^ 63) as Hn.
  { pose proof (opt_shards _ Hopt) as [? _]. destruct (decide (shard_count opts = 0)) as [H0|]; [|lia].
    by rewrite H0 in Hmk. }
  destruct (make_store_wf hash _ Hn) as (store & Hmk' & _ & _ & Hnone). rewrite Hmk in Hmk'. injection Hmk' as <-.
  destruct (Hm Hnone Hf Hr) as (_ & _ & Hresp). apply (f_equal (lookup j)) in Hresp.
  rewrite !list_lookup_fmap in Hresp. unfold history in Hj. rewrite Hj in Hresp. simpl in Hresp.
  symmetry in Hresp. apply fmap_Some in Hresp as (reply & Hrep & ->). by exists reply.
Qed.


(** C5. The order of execution is one a client can rely on.  Later states of the
    server only append to the order; and a request that the event loop has not
    taken from a connection's input yet, whether or not the client has sent it,
    will be executed after everything executed so far.  So a request that a
    client sends after it has seen the response to another one, its own or
    another client's, is executed after that one. *)
Theorem execution_order r s r' s' id c :
  config_ok cfg → server_state r s → server_later (r, s) (r', s') → find_current id r = Some c →
  history s `prefix_of` history s' ∧
  ∀ j e, history s' !! j = Some e → is_mine c (sv_item e) → next_of c ≤ wi_sequence (sv_item e) →
    (length (history s) ≤ j)%nat.
Proof.
  intros Hcfg Hr%reachable_inv Hl Hc; [|done].
  destruct (iterates_steps cfg wakeup_fd_ listener_fd_ _ _ Hcfg Hl Hr) as [_ [[_ [more Hmore]] _]].
  assert (history s `prefix_of` history s') as Hpre.
  { exists (executed more). simpl in Hmore. unfold history, gh_history. by rewrite Hmore, executed_app. }
  split; [done|]. intros j e Hj Hm Hseq. destruct (decide (length (history s) ≤ j)%nat) as [|Hlt]; [done|].
  exfalso. destruct Hpre as [l' Hl']. rewrite Hl', lookup_app_l in Hj by lia.
  pose proof (lp_ok _ _ _ _ _ _ Hr) as [Hinv _].
  assert (sv_item e ∈ issued s) as Hi.
  { apply (answered_issued s _ (sv_response e) Hinv). exists (sv_now e). destruct e. by eapply list_elem_of_lookup_2. }
  destruct (lp_conn _ _ _ _ _ _ Hr id c Hc) as (i & o & _ & _ & Hcv). specialize (Hcv (λ f, f)).
  destruct Hcv as [_ (fs & reqs & g & outs & Hg)]. pose proof (cg_past _ _ _ _ _ _ _ _ _ _ _ Hg) as Hp.
  pose proof (cg_count _ _ _ _ _ _ _ _ _ _ _ Hg) as Hcnt. unfold next_of in Hseq.
  eapply Forall_forall in Hp; [|]. 2: { apply list_elem_of_fmap. exists (sv_item e). split; [done|].
    by apply list_elem_of_filter. } simpl in Hp. lia.
Qed.
End Server.

(** ** A conversation

    A client sets a key, reads the reply, and then asks for the key while a pass
    of the sweeper is under way. *)
Definition talk_os : Os :=
  mkOs ∅ 0 [inl (7, lit "127.0.0.1", 40000)]
    [inl (encode_command [lit "SET"; lit "k"; lit "v"]); inr EAGAIN; inl (encode_command [lit "GET"; lit "k"])] [] []
    [inl [(3, EPOLLIN)]; inl [(7, EPOLLIN)]; inl [(4, EPOLLIN)]; inl [(7, EPOLLIN)]; inl [(4, EPOLLIN)]]
    0 [].

Definition talk_sys : @Sys candidate_queue :=
  demo_server talk_os
    (replicate 5 [] ++ [worker_turns 10] ++ replicate 5 [] ++
     [[SweeperMove 14; SweeperMove 15; WorkerMove 0 18; SweeperMove 16; WorkerMove 0 19; SweeperMove 17; SweeperMove 18] ++
      worker_turns 20]).

Definition talk (n : nat) : ConnectionRegistry * @Sys candidate_queue :=
  default (make_registry, talk_sys) (demo_run n (make_registry, talk_sys)).

#[global] Strategy 100 [talk].

Lemma talk_fresh : world_fresh (WorldView0 := demo_view) talk_sys.
Proof. apply demo_server_fresh; [constructor; [by vm_compute..|]; done|done..]. Qed.

Lemma talk_state n :
  demo_run n (make_registry, talk_sys) = Some (talk n) → server_state sum_hash demo_options demo_calls kInfo ∅ demo_config 4 3 (talk n).1 (talk n).2.
Proof.
  intros H. exists talk_sys. split; [apply talk_fresh|]. apply demo_run_steps in H. by destruct (talk n).
Qed.

Lemma talk_goes_on : server_later sum_hash kInfo ∅ demo_config 4 3 ((talk 3).1, (talk 3).2) ((talk 5).1, (talk 5).2).
Proof. rewrite <-!surjective_pairing. apply (demo_run_steps 2). vm_compute. reflexivity. Qed.


(** After three steps the reply to SET has been sent and GET is unknown. *)
Lemma execution_order_witness :
  ∃ e, history (talk 5).2 !! 1%nat = Some e ∧ wi_sequence (sv_item e) = 1 ∧ (length (history (talk 3).2) ≤ 1)%nat.
Proof.
  assert (∃ c, find_current 7 (talk 3).1 = Some c ∧ next_of c = 1 ∧ conn_id c = 7 ∧ conn_generation c = 1)
    as (c & Hc & Hn & Hid & Hg) by (eexists; split_and!; vm_compute; reflexivity).
  assert (∃ e, history (talk 5).2 !! 1%nat = Some e ∧ wi_sequence (sv_item e) = 1 ∧
    wi_connection_id (sv_item e) = 7 ∧ wi_connection_generation (sv_item e) = 1) as (e & He & Hs & Hi & Hge)
    by (eexists; split_and!; vm_compute; reflexivity).
  destruct (execution_order sum_hash demo_options demo_calls kInfo ∅ demo_config 4 3 (talk 3).1 (talk 3).2 (talk 5).1 (talk 5).2 7 c) as [_ H].
  - apply demo_config_ok.
  - apply talk_state. vm_compute. reflexivity.
  - apply talk_goes_on.
  - exact Hc.
  - exists e. split_and!; [exact He|exact Hs|]. apply (H 1%nat e He); [|rewrite Hn, Hs; reflexivity].
    split; [exact (eq_trans Hi (eq_sym Hid))|exact (eq_trans Hge (eq_sym Hg))].
Defined.
