(* ===== verification/Program.v ===== *)
(** * The whole program

    From the first constructor of [main] to the exit of the process, with the
    event loop of [EventLoop.v] running inside the process of [Process.v].
    [boots] are the steps of the process up to the call of [run]: every state
    in which the call is made is one from which the theorems on the server
    hold.  The states of [run] are those of [Server.v].  [run_outcome] says how
    each iteration of [run] ends and what becomes of the process then. *)
From stdpp Require Import relations.
From S2P Require Import Prelude Decimal Parser Serializer Client BoundedBuffer Sequencer BoundedQueue.
From S2P Require Import PriorityQueue Storage StorageInv StorageSpec StorageConc StorageLin Sweeper Dispatcher.
From S2P Require Import World WorkerPool Logger Cli FileDescriptor Listener Main Process.
From S2P Require Import Io Registry EventLoop EventLoopInv EventLoopProps EventLoopMain System Framing Server.

Section Program.
Context {Q : Type} `{!PriorityQueue ExpirationCandidate ExpirationCandidateOrder Q}.
Context (hash : bytes → Z).
Context (opts : ServerOptions) (calls : EventLoopCalls) (level : LogLevel).
Context (mask : gset Z).
Implicit Types (p : @Process Q) (w : @WorkerPool Q unit).

Abbreviation start := (process_start level).
Abbreviation pstep := (proc_step hash opts calls level mask).
Abbreviation psteps := (steps hash opts calls level mask).

(** ** Up to the call of [run] *)

(** The main thread has not entered [run]. *)
Definition boots : relation Process := rtc (λ p p', ∃ t, pstep t p p' ∧ (t = TMain → pr_main p ≠ Process.Running)).

Lemma boots_steps p p' : boots p p' → psteps p p'.
Proof. induction 1 as [|p p1 p2 (t & Hs & _) _ IH]; [apply rtc_refl|]. eapply rtc_l; [by exists t|done]. Qed.

(** Nobody has any work, and the sweeps so far are as recorded. *)
Record untouched p : Prop := {
  un_work : items_ (work_queue_ (pr_pool p)) = [];
  un_completion : items_ (completion_queue_ (pr_pool p)) = [];
  un_workers : Forall (λ s, s = Popping) (workers_ (pr_pool p));
  un_store : (0 < pr_built p)%nat → ∃ store0 events,
    make_store (shard_count opts) = Ok store0 ∧ executed events = [] ∧
    map_ok hash (store_ (pr_pool p)) [sweeper_phase (pr_sweeper p)] (mkGhost store0 events [] []);
}.

Lemma untouched_same p p' :
  untouched p → pr_pool p' = pr_pool p → pr_sweeper p' = pr_sweeper p → pr_built p' = pr_built p → untouched p'.
Proof. intros [H1 H2 H3 H4] Hp Hs Hb. by constructor; rewrite ?Hp, ?Hs, ?Hb. Qed.

(** A worker without work is blocked. *)
Lemma idle_worker i now p :
  proc_inv hash opts calls level p → untouched p → stop_fired (pr_main p) = false →
  worker_step hash i now p = None.
Proof.
  intros Hinv [Hw _ Hpop _] Hstop. unfold worker_step, pool_step.
  destruct (workers_ (pr_pool p) !! i) as [s|] eqn:Hi; [|done].
  pose proof (Forall_lookup_1 _ _ _ _ Hpop Hi) as ->. cbn [mbind option_bind worker_main].
  destruct Hinv as [_ _ _ _ _ _ _ _ Hwi _]. unfold workers_inv in Hwi.
  assert (closed_ (work_queue_ (pr_pool p)) = false) as Hcl.
  { case_decide; [by pose proof (Forall_lookup_1 _ _ _ _ Hwi Hi)|]. destruct Hwi as [_ Hwi].
    destruct (pr_main p); try done; by destruct Hwi. }
  assert (pop (stop_fired (pr_main p)) (work_queue_ (pr_pool p)) = None) as -> by (by apply pop_blocks). done.
Qed.

(** The constructors. *)
Lemma construct_untouched stamp x p p' :
  options_wf opts → shard_count opts ≤ 2 ^ 63 → proc_inv hash opts calls level p →
  untouched p → pr_main p = Constructing → locals !! pr_built p = Some x →
  construct opts calls level stamp x p = Some (Ok p') → untouched (with_built (S (pr_built p)) p').
Proof.
  intros Hopt Hsh Hinv [Hw Hc Hpop Hst] Hm Hx Hcon. pose proof Hinv as [Hph Hsw _ _ _ _ _ _ _ _].
  destruct p as [m b w sw sst sg j pd st ce]. simpl in *. subst m.
  destruct b as [|[|[|[|[|[|[|]]]]]]]; try done; injection Hx as <-; simpl in Hcon.
  - destruct (make_store (shard_count opts)) as [store0|e] eqn:Es; [|done]. injection Hcon as <-.
    constructor; try done. intros _. exists store0, []. split_and!; [done|done|]. simpl.
    assert (sweeper_phase sw = At Idle) as -> by (destruct Hsw as [->| ->]; [lia|done..]).
    intros Hnone _ _. split_and!; [|by constructor|done]. apply store_core_start; [|done].
    assert (0 < shard_count opts ≤ 2 ^ 63) as Hn.
    { pose proof (opt_shards _ Hopt) as [? _]. destruct (decide (shard_count opts = 0)) as [H0|]; [|lia].
      by rewrite H0 in Es. }
    destruct (make_store_wf hash _ Hn) as (s1 & Hs1 & Hwf & _). congruence.
  - injection Hcon as <-. constructor; try done. intros _. destruct (Hst ltac:(lia)) as (store0 & events & ? & ? & Hmap).
    exists store0, events. split_and!; [done..|].
    assert (sweeper_phase sw = At Idle) as Hz by (destruct Hsw as [->| ->]; [lia|done..]). by rewrite Hz in Hmap.
  - unfold make_queue in Hcon. case_bool_decide; simpl in Hcon; [done|]. injection Hcon as <-.
    constructor; try done. intros _. apply Hst. lia.
  - unfold make_queue in Hcon. case_bool_decide; simpl in Hcon; [done|]. injection Hcon as <-.
    constructor; try done. intros _. apply Hst. lia.
  - destruct (make_event_loop opts calls _) as [[q|e]|] eqn:Eq; simpl in Hcon; [|done..]. injection Hcon as <-.
    apply make_event_loop_queue in Eq as ->. constructor; try done. intros _. apply Hst. lia.
  - unfold make_pool in Hcon. case_bool_decide; simpl in Hcon; [done|]. injection Hcon as <-.
    constructor; try done; [by apply Forall_replicate|]. intros _. apply Hst. lia.
  - destruct (loop_port opts calls) as [[n|e]|]; simpl in Hcon; [|done..]. injection Hcon as <-.
    constructor; try done. intros _. apply Hst. lia.
Qed.

(** The sweeper, which runs while the other locals are constructed. *)
Lemma sweeper_untouched now p p' :
  proc_inv hash opts calls level p → untouched p → sweeper_step hash now p = Some p' → untouched p'.
Proof.
  intros Hinv [Hw Hc Hpop Hst] Hs. pose proof Hinv as [_ Hsw _ _ Hwf _ _ _ _ _].
  assert (0 < pr_built p)%nat as Hb.
  { destruct (decide (pr_built p < 2)%nat) as [Hlt|]; [|lia]. unfold sweeper_step in Hs.
    by destruct (Hsw Hlt) as [Hz|Hz]; rewrite Hz in Hs. }
  destruct (Hst Hb) as (store0 & events & Hmk & Hev & Hmap).
  destruct (sweeper_step_map hash now p p' [] _ (Hwf Hb) Hmap Hs) as (Hmap' & Hg & _).
  destruct (sweeper_step_frame _ _ _ _ Hs) as (ph & s & ->). constructor; try done. intros _.
  eexists store0, _. split_and!; [done| |exact Hmap']. etrans; [exact Hg|exact Hev].
Qed.

Lemma boot_untouched ts p :
  options_wf opts → shard_count opts ≤ 2 ^ 63 → boots (start ts) p →
  pr_main p = Constructing ∨ pr_main p = Process.Running → untouched p.
Proof.
  intros Hopt Hsh Hb. revert p Hb. refine (rtc_ind_r _ _ _ _); [intros _|intros p p' Hb (t & Hs & Hrun) IH Hm].
  { constructor; try done. simpl. lia. }
  pose proof (steps_inv _ _ _ _ _ _ _ Hopt Hsh (process_start_inv _ _ _ _ _) (boots_steps _ _ Hb)) as Hinv.
  destruct (decide (t = TMain)) as [->|Ht].
  - specialize (Hrun eq_refl). inversion Hs as [? ? ? Hst| | | | | | | | |]; subst; try congruence.
    unfold main_step in Hst. destruct (pr_main p) as [| | |e|e|e|e| |] eqn:Hmp; try done.
    + apply bind_Some in Hst as (x & Hx & Hst). specialize (IH (or_introl eq_refl)).
      destruct (construct _ _ _ _ x p) as [[p1|e]|] eqn:Hc; [injection Hst as <-..|done]; [by eapply construct_untouched|].
      simpl in Hm. by destruct Hm.
    + destruct (pr_signal p); try done. injection Hst as <-. simpl in Hm. by destruct Hm.
    + destruct (pr_built p) as [|n]; [injection Hst as <-; simpl in Hm; by destruct Hm|].
      apply bind_Some in Hst as (x & _ & [= <-]). exfalso.
      unfold destroy in Hm. destruct x; simpl in Hm; try (rewrite Hmp in Hm); try (destruct (pr_signal_joined p));
        simpl in Hm; try (rewrite Hmp in Hm); by destruct Hm.
    + case_decide; [|done]. injection Hst as <-. simpl in Hm. by destruct Hm.
    + case_decide; [|done]. injection Hst as <-. simpl in Hm. by destruct Hm.
  - destruct (others_keep _ _ _ _ _ _ _ _ Hs Ht) as (Em & Eb & _). rewrite Em in Hm. specialize (IH Hm).
    destruct Hs as [stamp p p' Hs|item p Hr|p Hr|stamp text p Hr|p Hr Hs|e p Hr|stamp choice p p' Hs|now p p' Hs|i now p p' Hs|n p Hn]; try done.
    + destruct (signal_step_frame _ _ _ _ _ Hs). by eapply untouched_same.
    + by eapply sweeper_untouched.
    + rewrite idle_worker in Hs; [done|done|done|]. destruct Hm as [-> | ->]; done.
    + by eapply untouched_same; [done|unfold kill; case_decide..].
Qed.

(** The constructors alone are [startup] of [Main.v]. *)
Lemma startup_boots ts w :
  startup opts calls = Some (Ok w) → ∃ p, boots (start ts) p ∧ pr_main p = Process.Running ∧ pr_pool p = w.
Proof.
  assert (Hnext : ∀ p p1 p2, main_step opts calls level [] p = Some p1 → pr_main p ≠ Process.Running →
    boots p1 p2 → boots p p2).
  { intros p p1 p2 Hs Hm. apply rtc_l. exists TMain. split; [by apply (StepMain _ _ _ _ _ [])|done]. }
  unfold startup. destruct (make_store (shard_count opts)) as [store|] eqn:E1; [simpl|done].
  destruct (make_queue (queue_capacity opts) : result (BoundedQueue WorkItem unit)) as [work|] eqn:E2; [simpl|done].
  destruct (make_queue (queue_capacity opts) : result (BoundedQueue Completion unit)) as [completion|] eqn:E3; [simpl|done].
  destruct (make_event_loop opts calls completion) as [[completion'|]|] eqn:E4; [simpl|done..].
  destruct (make_pool _ store work completion') as [pool|] eqn:E5; [simpl|done].
  destruct (loop_port opts calls) as [[n|]|] eqn:E6; [simpl|done..]. intros [= <-].
  eexists. split; [|split].
  - do 7 (eapply Hnext; [unfold main_step; cbn [process_start pr_main pr_built locals lookup list_lookup mbind option_bind
      with_built with_main with_pool with_sweeper with_signal with_cerr]; cbn; rewrite ?E1, ?E2, ?E3, ?E4, ?E5, ?E6; reflexivity|done|]).
    apply rtc_refl.
  - done.
  - done.
Qed.

(** ** The event loop in the process *)
Context (cfg : EventLoopConfig) (wakeup_fd_ listener_fd_ : Z).
#[local] Instance program_world : World (@Sys Q) := sys_world hash level mask.
#[local] Instance program_view : WorldView (@Sys Q) := sys_view hash opts calls level mask.
#[local] Instance program_laws : WorldLaws (@Sys Q) := sys_laws hash opts calls level mask.
Abbreviation state := (server_state hash opts calls level mask cfg wakeup_fd_ listener_fd_).
Abbreviation iteration := (run_iteration cfg wakeup_fd_ listener_fd_).

(** C6. The program comes to serve.  Every state in which [main] may call [run],
    whatever the sweeper, the signal thread and signals have done while it
    constructed its objects, and whatever clients, sockets and threads do next,
    is one from which the theorems on the server hold, with no command executed
    yet; and when [main] decides to serve, such a state is reached, with the
    pool it has built. *)
Theorem program_serves :
  options_wf opts → shard_count opts ≤ 2 ^ 63 →
  (∀ ts p k sched, boots (start ts) p → pr_main p = Process.Running → os_ok k → os_socks k = ∅ → os_accepts k = 0 →
    ∃ g, gh_history g = [] ∧ state make_registry (mkSys k p g sched)) ∧
  (∀ args timestamp w, parse_args args = Some (Ok opts) → main args timestamp calls = Some (Serves level w) →
    ∃ p, boots (start (timestamp 0%nat)) p ∧ pr_main p = Process.Running ∧ pr_pool p = w).
Proof.
  intros Hopt Hsh. split.
  - intros ts p k sched Hb Hm Hk Hs Ha.
    pose proof (steps_inv _ _ _ _ _ _ _ Hopt Hsh (process_start_inv _ _ _ _ _) (boots_steps _ _ Hb)) as Hinv.
    destruct (boot_untouched ts p Hopt Hsh Hb (or_intror Hm)) as [Hw Hc Hpop Hst].
    assert (pr_built p = 7%nat) as Hb7
      by (destruct Hinv as [Hph _ _ _ _ _ _ _ _ _]; unfold main_phase_ok in Hph; rewrite Hm in Hph; apply Hph).
    destruct Hst as (store0 & events & Hmk & Hev & Hmap); [lia|].
    destruct (idle_ok hash opts calls level mask k p store0 events sched) as [Hok Hl]; try done.
    + split; [done|]. exists ts. by apply boots_steps.
    + eapply proc_pool_wf; [done|lia].
    + exists (mkGhost store0 events [] []). split; [done|]. eexists. split; [|apply rtc_refl]. by split_and!.
  - intros args timestamp w Hp Hmain. unfold main in Hmain. rewrite Hp in Hmain. simpl in Hmain.
    destruct (show_help opts); [done|]. destruct (show_version opts); [done|].
    apply bind_Some in Hmain as (lvl & Hlvl & Hmain).
    destruct (startup opts calls) as [[w'|e]|] eqn:Est; [|done..]. injection Hmain as _ <-. by apply startup_boots.
Qed.

(** C19. How [run] ends, and the process with it.  From every state of [run] the
    next iteration returns.  It goes on serving; or it has seen the stop flag,
    which SIGINT or SIGTERM set through the signal thread, and then the
    process can exit with 0 if the completions to come fit the completion queue
    and otherwise never returns from [main]; or its [epoll_wait] failed with
    an errno other than EINTR, or an [accept4] of it with one other than EAGAIN,
    EINTR and ECONNABORTED, and then the process can only be terminated, without
    an exit code of [main].  (Only finitely many connections and wake-ups arrive
    while one handler drains them.) *)
Theorem run_outcome r s :
  options_wf opts → shard_count opts ≤ 2 ^ 63 → config_ok cfg → state r s →
  ∃ n st s', (∀ fuel, (n ≤ fuel)%nat → iteration fuel r s = Some (st, s')) ∧
    psteps (sy_process s) (sy_process s') ∧
    match st with
    | Running r' => state r' s'
    | Returned _ => let p := with_main JoiningSignal (sy_process s') in
        (∃ ts, psteps (start ts) p) ∧
        (∃ sig, (sig = SIGINT ∨ sig = SIGTERM) ∧ (pr_signal p = SignalWake sig ∨ pr_signal p = SignalDone sig)) ∧
        (fits (pr_pool p) → ∃ p', psteps p p' ∧ pr_main p' = Finished None) ∧
        (¬ fits (pr_pool p) → ∀ p' e, psteps p p' → pr_main p' ≠ Finished e)
    | Failed e => let p := with_main (Unwinding (Some e)) (sy_process s') in
        (epoll_wait_failed s e s' ∨ accept_failed s e s') ∧ (∃ ts, psteps (start ts) p) ∧
        ∀ p', psteps p p' → pr_main p' = Unwinding (Some e) ∨ pr_main p' = Terminated
    end.
Proof.
  intros Hopt Hsh Hcfg Hr. pose proof (reachable_inv _ _ _ r s Hcfg Hr) as Hinv.
  destruct (run_iteration_inv cfg wakeup_fd_ listener_fd_ r s Hcfg Hinv) as (n & st & s' & Hst & Hrun).
  exists n, st, s'. split; [done|].
  assert (world_ok s s') as [[_ _ [Hm [ts Hs']] _] [_ Hx]].
  { destruct st; simpl in Hst; [destruct Hst as [Hok ?]; split; [apply (lp_ok _ _ _ _ _ _ Hok)|done]..|apply Hst]. }
  split; [done|]. pose proof (steps_inv _ _ _ _ _ _ _ Hopt Hsh (process_start_inv _ _ _ _ _) Hs') as Hp'.
  destruct st as [r'|r'|e].
  - destruct Hr as (s0 & Hf & Hsteps). exists s0. split; [done|]. eapply rtc_r; [done|]. exists n. by apply Hrun.
  - assert (pr_stop (sy_process s') = true) as Hstop.
    { specialize (Hrun n ltac:(done)). apply run_returned in Hrun as [_ Hrun]. by injection Hrun as <-. }
    intros p. assert (psteps (start ts) p) as Hp by (eapply rtc_r; [exact Hs'|]; exists TMain; by apply StepRunReturns).
    pose proof (steps_inv _ _ _ _ _ _ _ Hopt Hsh (process_start_inv _ _ _ _ _) Hp) as Hpi.
    split_and!; [by exists ts| |by apply shutdown_possible|intros Hn p' e; by eapply shutdown_stuck].
    destruct (pi_signal _ _ _ _ _ Hpi Hstop) as [sig Hsig]. exists sig. split; [|done].
    assert (signals_ok p) as [_ Hnum] by (eapply (steps_signals); [|exact Hp]; by split). apply Hnum.
    by destruct Hsig as [-> | ->].
  - intros p. split; [apply Hst|]. split.
    + exists ts. eapply rtc_r; [exact Hs'|]. exists TMain. by apply StepRunThrows.
    + intros p'. by eapply throw_terminates.
Qed.
End Program.

(** ** Witnesses *)
Abbreviation demo_boots := (boots (Q := candidate_queue) sum_hash demo_options demo_calls kInfo ∅).
Abbreviation demo_server_state :=
  (server_state (Q := candidate_queue) sum_hash demo_options demo_calls kInfo ∅ demo_config 4 3).

Lemma main_alone_boots n p : demo_boots p (main_alone n p).
Proof.
  revert p. induction n as [|n IH]; intros p; cbn [main_alone]; [apply rtc_refl|].
  destruct (main_step _ _ _ _ p) as [p'|] eqn:E; [|apply rtc_refl].
  eapply rtc_l; [|apply IH]. exists TMain. split; [by apply (StepMain _ _ _ _ _ (lit "now"))|]. intros _ Hm. unfold main_step in E. by rewrite Hm in E.
Qed.

Lemma program_serves_witness :
  (∃ g, gh_history g = [] ∧ demo_server_state make_registry (mkSys demo_os demo_running g [])) ∧
  ∃ w p, main [lit "--workers"; lit "2"; lit "--shards"; lit "3"] (λ _, lit "now") demo_calls = Some (Serves kInfo w) ∧
    demo_boots (process_start kInfo (lit "now")) p ∧ pr_main p = Process.Running ∧ pr_pool p = w.
Proof.
  destruct (program_serves (Q := candidate_queue) sum_hash demo_options demo_calls kInfo ∅ demo_config 4 3)
    as [H1 H2]; [apply demo_options_wf|vm_compute; discriminate|]. split.
  - apply (H1 (lit "now")); [apply main_alone_boots|vm_compute; reflexivity|constructor; [by vm_compute..|]; done|reflexivity|reflexivity].
  - destruct (H2 [lit "--workers"; lit "2"; lit "--shards"; lit "3"] (λ _, lit "now") (pr_pool demo_running)) as (p & Hp);
      [vm_compute; reflexivity|vm_compute; reflexivity|].
    exists (pr_pool demo_running), p. split; [vm_compute; reflexivity|exact Hp].
Defined.

(** SIGTERM arrives before the first iteration. *)
Definition stopping_server : @Sys candidate_queue :=
  demo_server demo_os [[KillMove SIGTERM; SignalMove (lit "now") SIGTERM; SignalMove [] 0; SignalMove [] 0]].

Lemma run_outcome_witness :
  ∃ n s', (∀ fuel, (n ≤ fuel)%nat → run_iteration (World0 := demo_world) demo_config 4 3 fuel make_registry stopping_server =
      Some (Returned make_registry, s')) ∧
    ∃ p', steps sum_hash demo_options demo_calls kInfo ∅ (with_main JoiningSignal (sy_process s')) p' ∧
      exit_code (pr_main p') = Some 0.
Proof.
  destruct (run_outcome sum_hash demo_options demo_calls kInfo ∅ demo_config 4 3 make_registry stopping_server)
    as (n & st & s' & Hrun & _ & Hout).
  - apply demo_options_wf.
  - vm_compute. discriminate.
  - apply demo_config_ok.
  - exists stopping_server. split; [apply demo_server_fresh; [constructor; [by vm_compute..|]; done|done..]|apply rtc_refl].
  - assert (run_iteration (World0 := demo_world) demo_config 4 3 n make_registry stopping_server =
      Some (Returned make_registry, (stop_requested (World := demo_world) stopping_server).1)) as Heq
      by (vm_compute; reflexivity).
    pose proof (eq_trans (eq_sym Heq) (Hrun n (le_n n))) as Hn. injection Hn as Hst Hs'. subst st s'.
    destruct Hout as (_ & _ & Hfits & _). eexists n, _. split; [exact Hrun|].
    destruct Hfits as (p' & Hp' & Hend); [unfold fits; vm_compute; discriminate|].
    exists p'. split; [exact Hp'|]. rewrite Hend. reflexivity.
Defined.
