(* ===== verification/Bench.v ===== *)
(** * The benchmark client: options, sockets and pre-population

    Models [parse_args], [connect_blocking], [send_and_receive] and
    [populate_keyspace] of [src/benchmarks/client/kv_bench.cpp]; [Client.v] has
    the request encoder and the test for a complete reply, [BenchRun.v] the
    threads and [main], [BenchStats.v] the percentiles.  Sockets are a class of
    operations; [ServingNet] says what the client relies on, and [Peer], which
    runs the server's parser, dispatcher and store, provides it. *)
From S2P Require Import Prelude Decimal Parser Serializer Client.
From S2P Require Import PriorityQueue Storage StorageInv StorageSpec Dispatcher.

(** ** Options *)

(** The number [strtol] and [strtoul] find in base 10, if there is one. *)
Definition strto (s : bytes) : option Z :=
  let number t := match take_digits t with [] => None | ds => Some (dec_value ds) end in
  match skip_space s with
  | c :: t =>
      if bool_decide (c = "-"%char) then Z.opp <$> number t
      else if bool_decide (c = "+"%char) then number t
      else number (c :: t)
  | [] => None
  end.

(** [std::stoi] and [std::stoul]; characters after the number are ignored, and
    [stoul] takes a negative number modulo 2^64. *)
Definition stoi (s : bytes) : result Z :=
  match strto s with
  | None => Throw (InvalidArgument (lit "stoi"))
  | Some z => if bool_decide (- 2 ^ 31 ≤ z < 2 ^ 31) then Ok z else Throw (OutOfRange (lit "stoi"))
  end.
Definition stoul (s : bytes) : result Z :=
  match strto s with
  | None => Throw (InvalidArgument (lit "stoul"))
  | Some z => if bool_decide (Z.abs z ≤ UINT64_MAX) then Ok (u64 z) else Throw (OutOfRange (lit "stoul"))
  end.

Section Bench.
(** [double], of which only [std::stod] is used here. *)
Context {D : Type} (stod : bytes → result D).

Record Options := mkOptions {
  host : bytes;
  bench_port : Z;
  connections : Z;
  duration_seconds : D;
  workload : bytes;
  value_size : Z;
  keyspace : Z;
  csv : bool;
}.

Definition value_options : list bytes :=
  [lit "--host"; lit "--port"; lit "--connections"; lit "--duration"; lit "--workload"; lit "--value-size";
   lit "--keyspace"].

(** An option with its value. *)
Definition bench_set (arg value : bytes) (o : Options) : result Options :=
  let '(mkOptions h p c d w v k b) := o in
  if bool_decide (arg = lit "--host") then Ok (mkOptions value p c d w v k b)
  else if bool_decide (arg = lit "--port") then n ← stoi value; Ok (mkOptions h (n mod 2 ^ 16) c d w v k b)
  else if bool_decide (arg = lit "--connections") then n ← stoi value; Ok (mkOptions h p n d w v k b)
  else if bool_decide (arg = lit "--duration") then x ← stod value; Ok (mkOptions h p c x w v k b)
  else if bool_decide (arg = lit "--workload") then Ok (mkOptions h p c d value v k b)
  else if bool_decide (arg = lit "--value-size") then n ← stoul value; Ok (mkOptions h p c d w n k b)
  else n ← stoul value; Ok (mkOptions h p c d w v n b).

Fixpoint bench_options (args : list bytes) (o : Options) : result Options :=
  match args with
  | [] => Ok o
  | arg :: rest =>
      if bool_decide (arg = lit "--csv") then
        bench_options rest (mkOptions (host o) (bench_port o) (connections o) (duration_seconds o) (workload o)
          (value_size o) (keyspace o) true)
      else if bool_decide (arg ∈ value_options) then
        match rest with
        | [] => Throw (RuntimeError (lit "missing value for " ++ arg))
        | value :: rest => match bench_set arg value o with Ok o => bench_options rest o | Throw e => Throw e end
        end
      else Throw (RuntimeError (lit "unknown option: " ++ arg))
  end.

Definition workloads : list bytes := [lit "get"; lit "set"; lit "mixed8020"; lit "mixed5050"].

Definition bench_parse_args (five : D) (args : list bytes) : result Options :=
  o ← bench_options args (mkOptions (lit "127.0.0.1") 6380 50 five (lit "get") 64 10000 false);
  if bool_decide (connections o ≤ 0) then Throw (RuntimeError (lit "--connections must be positive"))
  else if negb (bool_decide (workload o ∈ workloads)) then
    Throw (RuntimeError (lit "--workload must be one of: get, set, mixed8020, mixed5050"))
  else Ok o.
End Bench.
Arguments Options : clear implicits.

(** ** The network *)

(** Blocking sockets: [send] and [recv] return [n <= 0] ([None]) on failure and
    at the end of the stream. *)
Class Net (N : Type) := {
  net_socket : N → N * Z;
  net_connect : Z → bytes → Z → N → N * bool;
  net_close : Z → N → N;
  net_send : Z → bytes → N → N * Z;
  net_recv : Z → Z → N → N * option bytes;
}.

Section Client.
Context {N : Type} `{!Net N} {D : Type}.
(** [inet_pton(AF_INET, ...)] accepts the text. *)
Context (inet_pton : bytes → bool).
Implicit Types (o : Options D) (n : N).

(** [connect_blocking] up to [::connect], and the rest of it. *)
Definition open_socket (hst : bytes) n : N * result Z :=
  let '(n, fd) := net_socket n in
  if bool_decide (fd < 0) then (n, Throw (RuntimeError (lit "socket() failed")))
  else if negb (inet_pton hst) then
    (net_close fd n, Throw (RuntimeError (lit "invalid --host address: " ++ hst)))
  else (n, Ok fd).

Definition connect_socket (fd : Z) (hst : bytes) (port : Z) n : N * result Z :=
  let '(n, ok) := net_connect fd hst port n in
  if negb ok then (net_close fd n, Throw (RuntimeError (lit "connect() to " ++ hst ++ lit " failed")))
  else (n, Ok fd).

Definition connect_blocking (hst : bytes) (port : Z) n : N * result Z :=
  let '(n, r) := open_socket hst n in
  match r with
  | Throw e => (n, Throw e)
  | Ok fd => connect_socket fd hst port n
  end.

(** One round of the send loop: what is left, or [None] for a failure. *)
Definition send_once (fd : Z) (left : bytes) n : N * option bytes :=
  let '(n, k) := net_send fd left n in
  (n, if bool_decide (k ≤ 0) then None else Some (drop (Z.to_nat k) left)).

(** One round of the receive loop: the buffer, and what it decides. *)
Definition recv_once (fd : Z) (buffer : bytes) n : N * bytes * Scan :=
  let '(n, r) := net_recv fd 4096 n in
  match r with
  | None => (n, buffer, ScanFail)
  | Some chunk => (n, buffer ++ chunk, scan_reply (buffer ++ chunk))
  end.

(** The loop that sends what is left of the request; every round but the last
    sends a byte, so its length plus one is fuel enough. *)
Fixpoint send_loop (fuel : nat) (fd : Z) (left : bytes) n : option (N * bool) :=
  match fuel with
  | O => None
  | S fuel =>
      if bool_decide (left = []) then Some (n, true)
      else
        let '(n, r) := send_once fd left n in
        match r with None => Some (n, false) | Some rest => send_loop fuel fd rest n end
  end.

(** The loop that waits for one complete reply; how often it runs is up to the
    peer. *)
Fixpoint recv_loop (fuel : nat) (fd : Z) (buffer : bytes) n : option (N * bool * bytes) :=
  match fuel with
  | O => None
  | S fuel =>
      let '(n, buffer, scan) := recv_once fd buffer n in
      match scan with
      | ScanDone => Some (n, true, buffer)
      | ScanFail => Some (n, false, buffer)
      | ScanContinue => recv_loop fuel fd buffer n
      end
  end.

Definition send_and_receive (fuel : nat) (fd : Z) (request : bytes) n : option (N * bool * bytes) :=
  '(n, sent) ← send_loop (S (length request)) fd request n;
  if negb sent then Some (n, false, []) else recv_loop fuel fd [] n.

Definition bench_value o : bytes := replicate (Z.to_nat (value_size o)) "x"%char.

(** The keys from [i] on, [count] of them. *)
Fixpoint populate_loop (fuel : nat) (fd : Z) (value : bytes) (count : nat) (i : Z) n : option (N * bool) :=
  match count with
  | O => Some (n, true)
  | S count =>
      '(n, ok, _) ← send_and_receive fuel fd (encode_command [lit "SET"; bench_key i; value]) n;
      if negb ok then Some (n, false) else populate_loop fuel fd value count (i + 1) n
  end.

Definition populate_keyspace (fuel : nat) o n : option (N * result unit) :=
  let '(n, r) := connect_blocking (host o) (bench_port o) n in
  match r with
  | Throw e => Some (n, Throw e)
  | Ok fd =>
      '(n, ok) ← populate_loop fuel fd (bench_value o) (Z.to_nat (keyspace o)) 0 n;
      Some (net_close fd n,
            if (ok : bool) then Ok tt else Throw (RuntimeError (lit "failed to pre-populate keyspace")))
  end.

(** Does the workload send a SET, given the draw from 0 to 99? *)
Definition do_set o (mix : Z) : bool :=
  if bool_decide (workload o = lit "set") then true
  else if bool_decide (workload o = lit "mixed8020") then mix <? 20
  else if bool_decide (workload o = lit "mixed5050") then mix <? 50
  else false.

Definition bench_request o (key mix : Z) : bytes :=
  if do_set o mix then encode_command [lit "SET"; bench_key key; bench_value o]
  else encode_command [lit "GET"; bench_key key].

End Client.

(** ** What the network promises *)

(** A connection as the peer sees it: a socket that is not connected yet, or
    the bytes it has of a request that is not complete and the bytes on their
    way to the client. *)
Abbreviation Conns := (gmap Z (option (bytes * bytes))).

(** [serving n m conns]: the peer serves the requests of the connections
    [conns] against a map [m].  Sends and receives may be cut anywhere. *)
Class ServingNet (N : Type) `{!Net N} := {
  serving : N → gmap bytes (bytes * option Z) → Conns → Prop;
  serving_socket n m conns : serving n m conns →
    ∃ n' fd, net_socket n = (n', fd) ∧ 0 ≤ fd ∧ conns !! fd = None ∧ serving n' m (<[fd := None]> conns);
  serving_connect n m conns fd hst port : serving n m conns → conns !! fd = Some None →
    ∃ n', net_connect fd hst port n = (n', true) ∧ serving n' m (<[fd := Some ([], [])]> conns);
  serving_send n m conns fd inp data c :
    serving n m conns → conns !! fd = Some (Some (inp, [])) → valid_command c → cmd_type c ≠ kExpire →
    inp ++ data = encode_command (request_args c) → data ≠ [] →
    ∃ n' k now, net_send fd data n = (n', k) ∧ 0 < k ≤ len data ∧
      if bool_decide (k = len data)
      then serving n' (spec_dispatch now c m).1 (<[fd := Some ([], encode_reply (spec_dispatch now c m).2)]> conns)
      else serving n' m (<[fd := Some (inp ++ take (Z.to_nat k) data, [])]> conns);
  serving_recv n m conns fd out :
    serving n m conns → conns !! fd = Some (Some ([], out)) → out ≠ [] →
    ∃ n' k, net_recv fd 4096 n = (n', Some (take k out)) ∧ (0 < k)%nat ∧
      serving n' m (<[fd := Some ([], drop k out)]> conns);
  serving_close n m conns fd : serving n m conns → serving (net_close fd n) m (delete fd conns);
}.

Section ClientFacts.
Context {N : Type} `{!Net N, !ServingNet N} {D : Type}.
Context (inet_pton : bytes → bool).
Implicit Types (o : Options D) (n : N).

Lemma connect_serving n m conns hst port :
  serving n m conns → inet_pton hst = true →
  ∃ n' fd, connect_blocking inet_pton hst port n = (n', Ok fd) ∧ conns !! fd = None ∧
    serving n' m (<[fd := Some ([], [])]> conns).
Proof.
  intros (n1 & fd & Hs & Hfd & Hnew & Hserv)%serving_socket Hp.
  destruct (serving_connect n1 m _ fd hst port Hserv) as (n2 & Hc & Hserv2); [by rewrite lookup_insert_eq|].
  rewrite insert_insert_eq in Hserv2. exists n2, fd. split_and!; [|done|done].
  unfold connect_blocking, open_socket, connect_socket. rewrite Hs, bool_decide_false by lia. rewrite Hp. simpl. by rewrite Hc.
Qed.

(** One round of sending brings the request nearer to its end; at the end it
    is executed and its reply is on its way. *)
Lemma send_once_serving n m conns fd inp left c :
  serving n m conns → conns !! fd = Some (Some (inp, [])) → valid_command c → cmd_type c ≠ kExpire →
  inp ++ left = encode_command (request_args c) → left ≠ [] →
  ∃ n' left', send_once fd left n = (n', Some left') ∧ (length left' < length left)%nat ∧
    ((left' = [] ∧ ∃ now, serving n' (spec_dispatch now c m).1
        (<[fd := Some ([], encode_reply (spec_dispatch now c m).2)]> conns)) ∨
     (left' ≠ [] ∧ ∃ inp', inp' ++ left' = encode_command (request_args c) ∧
        serving n' m (<[fd := Some (inp', [])]> conns))).
Proof.
  intros Hs Hfd Hc Ht Heq Hne.
  destruct (serving_send n m conns fd inp left c) as (n' & k & now & Hsend & Hk & Hs'); [done..|].
  exists n', (drop (Z.to_nat k) left). unfold send_once. rewrite Hsend, bool_decide_false by lia.
  split; [done|]. split; [rewrite length_drop; unfold len in *; lia|]. case_bool_decide as Hlen.
  - left. split; [apply drop_ge; unfold len in *; lia|eauto].
  - right. split.
    + intros E%(f_equal length). rewrite length_drop in E. unfold len in *. simpl in E. lia.
    + exists (inp ++ take (Z.to_nat k) left). by rewrite <-app_assoc, take_drop.
Qed.

Lemma recv_once_serving n m conns fd buffer out r :
  serving n m conns → conns !! fd = Some (Some ([], out)) → reply_fits r → buffer ++ out = encode_reply r → out ≠ [] →
  ∃ n' buffer' out', recv_once fd buffer n = (n', buffer', if decide (out' = []) then ScanDone else ScanContinue) ∧
    (length out' < length out)%nat ∧ buffer' ++ out' = encode_reply r ∧
    serving n' m (<[fd := Some ([], out')]> conns).
Proof.
  intros Hs Hfd Hr Heq Hne. destruct (serving_recv n m conns fd out Hs Hfd Hne) as (n' & k & Hrecv & Hk & Hs').
  exists n', (buffer ++ take k out), (drop k out).
  assert (Hsplit : (buffer ++ take k out) ++ drop k out = encode_reply r) by by rewrite <-app_assoc, take_drop.
  split_and!; [|rewrite length_drop; destruct out; [done|simpl in *; lia]|done|done].
  unfold recv_once. rewrite Hrecv. f_equal. case_decide as E.
  - rewrite E, app_nil_r in Hsplit. rewrite Hsplit. by apply scan_complete.
  - by eapply scan_prefix.
Qed.

Lemma send_loop_serving fuel n m conns fd inp left c :
  serving n m conns → conns !! fd = Some (Some (inp, [])) → valid_command c → cmd_type c ≠ kExpire →
  inp ++ left = encode_command (request_args c) → left ≠ [] → (length left < fuel)%nat →
  ∃ n' now, send_loop fuel fd left n = Some (n', true) ∧
    serving n' (spec_dispatch now c m).1 (<[fd := Some ([], encode_reply (spec_dispatch now c m).2)]> conns).
Proof.
  revert n conns inp left. induction fuel as [|fuel IH]; intros n conns inp left Hs Hfd Hc Ht Heq Hne Hfuel; [lia|].
  cbn [send_loop]. rewrite bool_decide_false by done.
  destruct (send_once_serving n m conns fd inp left c) as (n' & left' & -> & Hlen & [(-> & now & Hs')|(Hne' & inp' & Heq' & Hs')]); [done..| |].
  - exists n', now. split; [|done]. destruct fuel; [|done]. destruct left; simpl in *; [done|lia].
  - destruct (IH n' _ inp' left' Hs') as (n2 & now & Hl & Hs2); try done; [by rewrite lookup_insert_eq|lia|].
    rewrite insert_insert_eq in Hs2. eauto.
Qed.

Lemma recv_loop_serving fuel n m conns fd buffer out r :
  serving n m conns → conns !! fd = Some (Some ([], out)) → reply_fits r → buffer ++ out = encode_reply r → out ≠ [] →
  (length out < fuel)%nat →
  ∃ n', recv_loop fuel fd buffer n = Some (n', true, encode_reply r) ∧ serving n' m (<[fd := Some ([], [])]> conns).
Proof.
  revert n conns buffer out. induction fuel as [|fuel IH]; intros n conns buffer out Hs Hfd Hr Heq Hne Hfuel; [lia|].
  destruct (recv_once_serving n m conns fd buffer out r) as (n' & buffer' & out' & Hrecv & Hlen & Heq' & Hs'); [done..|].
  cbn [recv_loop]. rewrite Hrecv. case_decide as E.
  - subst out'. rewrite app_nil_r in Heq'. rewrite Heq'. eauto.
  - destruct (IH n' _ buffer' out' Hs') as (n2 & Hl & Hs2); try done; [by rewrite lookup_insert_eq|lia|].
    rewrite insert_insert_eq in Hs2. eauto.
Qed.

(** One exchange: the request is executed once, and its whole reply is read. *)
Lemma exchange_serving fuel n m conns fd c :
  serving n m conns → conns !! fd = Some (Some ([], [])) → valid_command c → cmd_type c ≠ kExpire →
  (∀ now, reply_fits (spec_dispatch now c m).2 ∧ (length (encode_reply (spec_dispatch now c m).2) < fuel)%nat) →
  ∃ n' now, send_and_receive fuel fd (encode_command (request_args c)) n =
      Some (n', true, encode_reply (spec_dispatch now c m).2) ∧
    serving n' (spec_dispatch now c m).1 conns.
Proof.
  intros Hs Hfd Hc Ht Hr.
  destruct (send_loop_serving (S (length (encode_command (request_args c)))) n m conns fd [] (encode_command (request_args c)) c)
    as (n1 & now & Hsend & Hs1); [done|done|done|done|done| |lia|].
  { rewrite encode_command_concat. done. }
  destruct (Hr now) as [Hfits Hlen].
  destruct (recv_loop_serving fuel n1 _ _ fd [] (encode_reply (spec_dispatch now c m).2) (spec_dispatch now c m).2 Hs1) as (n2 & Hrecv & Hs2);
    [by rewrite lookup_insert_eq|done|done| |done|].
  { by destruct (spec_dispatch now c m).2. }
  rewrite insert_insert_eq, insert_id in Hs2 by done.
  exists n2, now. split; [|done]. unfold send_and_receive. rewrite Hsend. done.
Qed.

(** The commands the client sends. *)
Definition set_of o (key : Z) : Command := mkCommand kSet (bench_key key) (bench_value o) 0.
Definition get_of (key : Z) : Command := mkCommand kGet (bench_key key) [] 0.

Lemma bench_key_len key : 0 ≤ key ≤ UINT64_MAX → len (bench_key key) ≤ 26.
Proof.
  intros Hk. unfold bench_key. rewrite to_string_nonneg by lia.
  pose proof (digits_len key 20 ltac:(lia)) as Hd. unfold UINT64_MAX in Hk.
  assert (len (digits key) ≤ 20) by (apply Hd; lia). unfold len in *. rewrite length_app. simpl. lia.
Qed.

Lemma bench_value_len o : 0 ≤ value_size o → len (bench_value o) = value_size o.
Proof. intros. unfold len, bench_value. rewrite length_replicate. lia. Qed.

Lemma bench_commands_valid o key :
  0 ≤ key ≤ UINT64_MAX → 0 ≤ value_size o ≤ kMaxValueLength →
  valid_command (set_of o key) ∧ valid_command (get_of key).
Proof.
  intros Hk%bench_key_len Hv. pose proof (bench_value_len o ltac:(lia)).
  unfold valid_command, kMaxKeyLength, INT64_MAX; simpl. split_and!; try done; lia.
Qed.

Lemma bulk_reply_fits o fuel :
  0 ≤ value_size o ≤ kMaxValueLength → value_size o + 16 < Z.of_nat fuel →
  reply_fits (BulkReply (bench_value o)) ∧ (length (encode_reply (BulkReply (bench_value o))) < fuel)%nat.
Proof.
  intros Hv Hf. pose proof (bench_value_len o ltac:(lia)) as Hl. unfold kMaxValueLength in Hv. split.
  { split; [done|]. unfold INT64_MAX. lia. }
  simpl. unfold encode_bulk_string. rewrite Hl, to_string_nonneg by lia.
  pose proof (digits_len (value_size o) 7 ltac:(lia) ltac:(lia)) as Hd. unfold len in *. simpl.
  rewrite !length_app. simpl. rewrite length_app. simpl. lia.
Qed.

(** The keyspace is there: every key has the value, and no deadline. *)
Definition populated o (count : Z) (m : gmap bytes (bytes * option Z)) : Prop :=
  ∀ i, 0 ≤ i < count → m !! bench_key i = Some (bench_value o, None).

Context (o : Options D) (fuel : nat).
Hypothesis Hvalue : 0 ≤ value_size o ≤ kMaxValueLength.
Hypothesis Hfuel : value_size o + 16 < Z.of_nat fuel.

Lemma set_reply_fits now key m :
  let r := (spec_dispatch now (set_of o key) m).2 in
  reply_fits r ∧ (length (encode_reply r) < fuel)%nat.
Proof. simpl. split; [|lia]. split; [|done]. apply (bool_decide_eq_true_1 _). by vm_compute. Qed.

Lemma get_populated now key count m :
  populated o count m → 0 ≤ key < count → spec_dispatch now (get_of key) m = (m, BulkReply (bench_value o)).
Proof. intros Hm Hk. unfold spec_dispatch. simpl. unfold spec_live. by rewrite (Hm key Hk). Qed.

Lemma set_exchange n m conns fd key :
  serving n m conns → conns !! fd = Some (Some ([], [])) → 0 ≤ key ≤ UINT64_MAX →
  ∃ n' r, send_and_receive fuel fd (encode_command [lit "SET"; bench_key key; bench_value o]) n = Some (n', true, r) ∧
    serving n' (<[bench_key key := (bench_value o, None)]> m) conns.
Proof.
  intros Hs Hfd Hk. destruct (bench_commands_valid o key Hk Hvalue) as [Hv _].
  destruct (exchange_serving fuel n m conns fd (set_of o key)) as (n' & now & Hx & Hs'); [done|done|done|done| |].
  - intros now. apply set_reply_fits.
  - eauto.
Qed.

Lemma bench_key_inj i j : 0 ≤ i → 0 ≤ j → bench_key i = bench_key j → i = j.
Proof.
  intros Hi Hj Heq%app_inv_head. rewrite !to_string_nonneg in Heq by lia.
  rewrite <-(digits_value i), <-(digits_value j) by lia. by rewrite Heq.
Qed.

Lemma populate_loop_serving count i n m conns fd :
  serving n m conns → conns !! fd = Some (Some ([], [])) → 0 ≤ i → i + Z.of_nat count ≤ UINT64_MAX → populated o i m →
  ∃ n' m', populate_loop fuel fd (bench_value o) count i n = Some (n', true) ∧
    serving n' m' conns ∧ populated o (i + Z.of_nat count) m' ∧
    ∀ k, (∀ j, 0 ≤ j → k ≠ bench_key j) → m' !! k = m !! k.
Proof.
  intros Hs Hfd. revert i n m Hs. induction count as [|count IH]; intros i n m Hs Hi Hmax Hpop.
  { exists n, m. by rewrite Z.add_0_r. }
  destruct (set_exchange n m conns fd i Hs Hfd) as (n1 & r & Hx & Hs1); [lia|].
  destruct (IH (i + 1) n1 (<[bench_key i := (bench_value o, None)]> m)) as (n2 & m2 & Hl & Hs2 & Hp2 & Hk2).
  - done.
  - lia.
  - lia.
  - intros j Hj. destruct (decide (j = i)) as [->|Hne]; [by rewrite lookup_insert_eq|].
    rewrite lookup_insert_ne; [apply Hpop; lia|]. intros ?%bench_key_inj; lia.
  - exists n2, m2. cbn [populate_loop]. rewrite Hx. cbn [mbind option_bind negb].
    replace (i + Z.of_nat (S count)) with (i + 1 + Z.of_nat count) by lia. split_and!; try done.
    intros k Hk. rewrite Hk2, lookup_insert_ne; [done| |done]. intros <-. by apply (Hk i).
Qed.

(** The pre-population succeeds. *)
Lemma populate_serving n m conns :
  serving n m conns → inet_pton (host o) = true → in_u64 (keyspace o) →
  ∃ n' m', populate_keyspace inet_pton fuel o n = Some (n', Ok tt) ∧ serving n' m' conns ∧
    populated o (keyspace o) m' ∧ ∀ k, (∀ j, 0 ≤ j → k ≠ bench_key j) → m' !! k = m !! k.
Proof.
  intros Hs Hp [Hk0 Hk].
  destruct (connect_serving n m conns (host o) (bench_port o) Hs Hp) as (na & fd & Hc & Hnew & Hs1).
  destruct (populate_loop_serving (Z.to_nat (keyspace o)) 0 na m _ fd Hs1) as (nb & m1 & Hl & Hs2 & Hpop & Hframe);
    [by rewrite lookup_insert_eq|done|lia|by intros i ?; lia|].
  rewrite Z2Nat.id, Z.add_0_l in Hpop by done. apply (serving_close _ _ _ fd) in Hs2.
  rewrite delete_insert_eq, delete_id in Hs2 by done. exists (net_close fd nb), m1. split_and!; [|done..].
  unfold populate_keyspace. by rewrite Hc, Hl.
Qed.
End ClientFacts.

(** ** Options in range *)
Section OptionFacts.
Context {D : Type} (stod : bytes → result D).

(** The types of the numeric members. *)
Definition options_typed (o : Options D) : Prop :=
  0 ≤ bench_port o < 2 ^ 16 ∧ - 2 ^ 31 ≤ connections o < 2 ^ 31 ∧ in_u64 (value_size o) ∧ in_u64 (keyspace o).

Lemma stoi_range s z : stoi s = Ok z → - 2 ^ 31 ≤ z < 2 ^ 31.
Proof. unfold stoi. destruct (strto s); [|done]. by case_bool_decide; intros [= <-]. Qed.

Lemma stoul_range s z : stoul s = Ok z → in_u64 z.
Proof. unfold stoul. destruct (strto s); [|done]. case_bool_decide; [|done]. intros [= <-]. apply u64_range. Qed.

Lemma bench_set_typed arg value o o' : options_typed o → bench_set stod arg value o = Ok o' → options_typed o'.
Proof.
  destruct o as [h p c d w v k b]. unfold options_typed, bench_set. intros (Hp & Hc & Hv & Hk). simpl in *.
  repeat case_bool_decide; intros Hset.
  all: try match type of Hset with context [mbind _ ?x] => destruct x as [z|] eqn:E; [|done] end.
  all: simplify_eq/=; try apply stoi_range in E; try apply stoul_range in E; unfold in_u64 in *.
  all: repeat split; try lia; apply Z.mod_pos_bound; lia.
Qed.

Lemma bench_options_typed args o o' : options_typed o → bench_options stod args o = Ok o' → options_typed o'.
Proof.
  remember (length args) as k eqn:Hk. revert args Hk o.
  induction k as [k IH] using lt_wf_ind; intros [|arg rest] -> o Ho; simpl; [by intros [= <-]|].
  case_bool_decide; [by apply (IH (length rest)); [simpl; lia|done|]|].
  case_bool_decide; [|done]. destruct rest as [|value rest]; [done|].
  destruct (bench_set stod arg value o) as [o1|] eqn:E; [|done].
  apply (IH (length rest)); [simpl; lia|done|]. by eapply bench_set_typed.
Qed.

Lemma bench_parse_args_typed five args o :
  bench_parse_args stod five args = Ok o → options_typed o ∧ 0 < connections o ∧ workload o ∈ workloads.
Proof.
  unfold bench_parse_args. destruct (bench_options _ _ _) as [o1|] eqn:E; simpl; [|done].
  case_bool_decide; [done|]. case_bool_decide; simpl; [|done]. intros [= <-]. split_and!; [|lia|done].
  eapply bench_options_typed; [|done]. by vm_compute.
Qed.
End OptionFacts.

(** ** A server behind the sockets

    The promise is kept by the server's own parser, dispatcher and store, on a
    network that cuts the bytes as a script says. *)
Section Peer.
Context {Q : Type} `{!PriorityQueue ExpirationCandidate ExpirationCandidateOrder Q}.
Context (hash : bytes → Z) (clock cut : nat → Z).

Record Peer := mkPeer { pe_store : Store Q; pe_conns : Conns; pe_next : Z; pe_tick : nat }.

(** From 1 to [most] bytes. *)
Definition cut_at (t : nat) (most : Z) : Z := Z.max 1 (Z.min (cut t) most).

Definition peer_send (fd : Z) (data : bytes) (p : Peer) : Peer * Z :=
  let t := S (pe_tick p) in
  let k := cut_at t (len data) in
  match pe_conns p !! fd with
  | Some (Some (inp, out)) =>
      let input := inp ++ take (Z.to_nat k) data in
      match parse_command input with
      | Some (ParsedCommand c used) =>
          match dispatch hash (clock t) (pe_store p) c with
          | Some (store, reply) =>
              (mkPeer store (<[fd := Some (drop (Z.to_nat used) input, out ++ reply)]> (pe_conns p)) (pe_next p) t, k)
          | None => (p, -1)
          end
      | Some NeedMoreData => (mkPeer (pe_store p) (<[fd := Some (input, out)]> (pe_conns p)) (pe_next p) t, k)
      | _ => (p, -1)
      end
  | _ => (p, -1)
  end.

Definition peer_recv (fd size : Z) (p : Peer) : Peer * option bytes :=
  let t := S (pe_tick p) in
  let k := Z.to_nat (cut_at t size) in
  match pe_conns p !! fd with
  | Some (Some (inp, out)) =>
      if bool_decide (out = []) then (p, None)
      else (mkPeer (pe_store p) (<[fd := Some (inp, drop k out)]> (pe_conns p)) (pe_next p) t, Some (take k out))
  | _ => (p, None)
  end.

Definition with_conns (conns : Conns) (p : Peer) : Peer := mkPeer (pe_store p) conns (pe_next p) (pe_tick p).

#[export] Instance peer_net : Net Peer := {
  net_socket p :=
    (mkPeer (pe_store p) (<[pe_next p := None]> (pe_conns p)) (pe_next p + 1) (pe_tick p), pe_next p);
  net_connect fd _ _ p := (with_conns (<[fd := Some ([], [])]> (pe_conns p)) p, true);
  net_close fd p := with_conns (delete fd (pe_conns p)) p;
  net_send := peer_send;
  net_recv := peer_recv;
}.

Hypothesis clock_in_range : ∀ t, clock_ok (clock t).
Hypothesis clock_steady : ∀ t, clock t ≤ clock (S t).

Record peer_serving (p : Peer) (m : gmap bytes (bytes * option Z)) (conns : Conns) : Prop := {
  ps_sim : sim hash (clock (pe_tick p)) (pe_store p) m;
  ps_conns : pe_conns p = conns;
  ps_next : 0 ≤ pe_next p ∧ ∀ fd, is_Some (conns !! fd) → fd < pe_next p;
}.

Lemma peer_serving_tick p m conns : peer_serving p m conns → sim hash (clock (S (pe_tick p))) (pe_store p) m.
Proof. intros [Hsim _ _]. eapply sim_later; [apply clock_steady|done]. Qed.

Lemma next_insert p m (conns : Conns) fd x :
  peer_serving p m conns → is_Some (conns !! fd) →
  0 ≤ pe_next p ∧ ∀ fd', is_Some ((<[fd := x]> conns : Conns) !! fd') → fd' < pe_next p.
Proof.
  intros [_ _ [H0 Hn]] Hfd. split; [done|]. intros fd' Hfd'. destruct (decide (fd' = fd)) as [->|Hne]; [by apply Hn|].
  rewrite lookup_insert_ne in Hfd' by done. by apply Hn.
Qed.

Lemma peer_send_serving p m conns fd inp data c :
  peer_serving p m conns → conns !! fd = Some (Some (inp, [])) → valid_command c → cmd_type c ≠ kExpire →
  inp ++ data = encode_command (request_args c) → data ≠ [] →
  ∃ p' k now, peer_send fd data p = (p', k) ∧ 0 < k ≤ len data ∧
    if bool_decide (k = len data)
    then peer_serving p' (spec_dispatch now c m).1 (<[fd := Some ([], encode_reply (spec_dispatch now c m).2)]> conns)
    else peer_serving p' m (<[fd := Some (inp ++ take (Z.to_nat k) data, [])]> conns).
Proof.
  intros Hst Hfd Hc Ht Heq Hne. pose proof (peer_serving_tick _ _ _ Hst) as Hsim.
  pose proof (λ x, next_insert p m conns fd x Hst (mk_is_Some _ _ Hfd)) as Hnext. destruct Hst as [_ Hcs _].
  set (t := S (pe_tick p)) in *. set (k := cut_at t (len data)).
  assert (Hk : 0 < k ≤ len data).
  { assert (len data ≠ 0) by (by rewrite len_zero_iff). pose proof (len_nonneg data). unfold k, cut_at. lia. }
  unfold peer_send. fold t. fold k. rewrite Hcs, Hfd. destruct (decide (k = len data)) as [Hall|Hall].
  - rewrite take_ge by (unfold len in *; lia). rewrite Heq. pose proof (request_parses c [] Hc) as Hp.
    rewrite app_nil_r in Hp. rewrite Hp.
    destruct (dispatch_sim hash (clock t) (pe_store p) m c) as (store & -> & Hsim'); [done|apply Hc| |done|].
    { intros E. by destruct (Ht E). }
    eexists _, k, (clock t). split; [done|]. split; [done|]. rewrite bool_decide_true by done.
    rewrite drop_ge by (unfold len; lia). by constructor.
  - assert (Hp : parse_command (inp ++ take (Z.to_nat k) data) = Some NeedMoreData).
    { destruct (request_args_fit c Hc) as [Hn Hpl].
      unfold parse_command. rewrite (read_frame_prefix (request_args c) (encode_command (request_args c)) _ (drop (Z.to_nat k) data)).
      - done.
      - by apply encode_command_frame.
      - by rewrite <-app_assoc, take_drop.
      - intros E%(f_equal length). rewrite length_drop in E. unfold len in *. simpl in E. lia. }
    rewrite Hp. eexists _, k, 0. split; [done|]. split; [done|]. rewrite bool_decide_false by done. by constructor.
Qed.

#[export] Instance peer_serves : ServingNet Peer.
Proof.
  refine (Build_ServingNet _ _ peer_serving _ _ _ _ _).
  - intros p m conns [Hsim Hcs [H0 Hn]]. eexists _, (pe_next p). split; [done|]. split; [done|]. split.
    { apply eq_None_not_Some. intros H%Hn. lia. }
    constructor; simpl; [done|by rewrite Hcs|]. split; [lia|]. intros fd Hfd.
    destruct (decide (fd = pe_next p)) as [->|Hne]; [lia|]. rewrite lookup_insert_ne in Hfd by done. apply Hn in Hfd. lia.
  - intros p m conns fd h port Hst Hfd. eexists. split; [done|].
    pose proof (next_insert p m conns fd (Some ([], [])) Hst (mk_is_Some _ _ Hfd)). destruct Hst as [Hsim Hcs _].
    constructor; simpl; [done|by rewrite Hcs|done].
  - apply peer_send_serving.
  - intros p m conns fd out Hst Hfd Hne. pose proof (peer_serving_tick _ _ _ Hst) as Hsim.
    pose proof (λ x, next_insert p m conns fd x Hst (mk_is_Some _ _ Hfd)) as Hnext. destruct Hst as [_ Hcs _].
    simpl. unfold peer_recv. rewrite Hcs, Hfd, bool_decide_false by done.
    eexists _, _. split; [done|]. split; [unfold cut_at; lia|]. by constructor.
  - intros p m conns fd [Hsim Hcs [H0 Hn]]. constructor; simpl; [done|by rewrite Hcs|]. split; [done|].
    intros fd' [x [_ Hx]%lookup_delete_Some]. by apply Hn.
Defined.
End Peer.
