(* ===== verification/BenchStats.v ===== *)
(** * The benchmark client's percentiles

    Models [percentile] of [src/benchmarks/client/kv_bench.cpp] and the sort
    before it.  A [double] that is not negative is an integer of 53 significant
    bits times a power of two; the product of two of them is the exact product
    rounded to the nearest such number, a tie to the even one.  The latencies
    are values of a totally ordered type. *)
From stdpp Require Import sorting.
From S2P Require Import Prelude.

(** The integer of 53 significant bits nearest to [z]. *)
Definition round53 (z : Z) : Z :=
  let b := Z.max 0 (Z.log2 z - 52) in
  let q := z / 2 ^ b in
  let r := z mod 2 ^ b in
  if (2 ^ b <? 2 * r) || ((2 * r =? 2 ^ b) && Z.odd q) then (q + 1) * 2 ^ b else q * 2 ^ b.

(** The literals 0.50, 0.95 and 0.99, in units of 2^-53. *)
Definition p50 : Z := 2 ^ 52.
Definition p95 : Z := 8556839292003942.
Definition p99 : Z := 8917127262193582.

(** [static_cast<std::size_t>(p * static_cast<double>(size - 1))]. *)
Definition percentile_index (p size : Z) : Z := round53 (p * round53 (size - 1)) / 2 ^ 53.

Section Percentile.
Context {A : Type}.

(** [None]: the index is out of range. *)
Definition percentile (zero : A) (sorted_latencies_us : list A) (p : Z) : option A :=
  if bool_decide (sorted_latencies_us = []) then Some zero
  else sorted_latencies_us !! Z.to_nat (percentile_index p (len sorted_latencies_us)).
End Percentile.

(** ** Rounding *)

(** The literals are the doubles nearest to the decimal fractions. *)
Lemma literals_nearest :
  Z.abs (100 * p50 - 50 * 2 ^ 53) ≤ 50 ∧ Z.abs (100 * p95 - 95 * 2 ^ 53) ≤ 50 ∧
  Z.abs (100 * p99 - 99 * 2 ^ 53) ≤ 50 ∧ round53 p50 = p50 ∧ round53 p95 = p95 ∧ round53 p99 = p99.
Proof. vm_compute. split_and!; done. Qed.

(** The exponent of the last bit kept. *)
Definition ulp (z : Z) : Z := Z.max 0 (Z.log2 z - 52).

Lemma ulp_le z z' : 0 ≤ z ≤ z' → ulp z ≤ ulp z'.
Proof. intros Hz. unfold ulp. pose proof (Z.log2_le_mono z z' ltac:(lia)). lia. Qed.

(** Down or up to the next multiple of the last bit. *)
Lemma round53_cases z :
  let u := 2 ^ ulp z in
  0 < u ∧ (round53 z = z / u * u ∨ (round53 z = (z / u + 1) * u ∧ 0 < z mod u)).
Proof.
  simpl. unfold round53. fold (ulp z). assert (0 < 2 ^ ulp z) by (apply Z.pow_pos_nonneg; unfold ulp; lia).
  split; [done|]. destruct (_ || _) eqn:E; [|by left]. right. split; [done|]. lia.
Qed.

Lemma round53_bounded z m : 0 ≤ z ≤ m → (2 ^ ulp z | m) → round53 z ≤ m.
Proof.
  intros Hz [c ->]. destruct (round53_cases z) as [Hu [-> |[-> Hr]]]; set (u := 2 ^ ulp z) in *.
  - pose proof (Z.mul_div_le z u). nia.
  - pose proof (Z.div_mod z u ltac:(lia)). assert (z / u < c) by nia. nia.
Qed.

Lemma round53_exact z : 0 ≤ z < 2 ^ 53 → round53 z = z.
Proof.
  intros Hz. assert (ulp z = 0) as Hu.
  { unfold ulp. destruct (decide (z = 0)) as [->|]; [done|]. assert (Z.log2 z < 53) by (apply Z.log2_lt_pow2; lia). lia. }
  destruct (round53_cases z) as [_ [H|[_ H]]]; rewrite Hu in H; change (2 ^ 0) with 1 in H.
  - rewrite Z.div_1_r in H. lia.
  - rewrite Z.mod_1_r in H. lia.
Qed.

(** A number lies in the binade its last bit says. *)
Lemma ulp_binade z : 0 ≤ z → z < 2 ^ (53 + ulp z) ∧ (0 < ulp z → 2 ^ (52 + ulp z) ≤ z).
Proof.
  intros Hz. destruct (decide (z = 0)) as [->|Hne]; [done|].
  pose proof (Z.log2_spec z ltac:(lia)) as [Hlo Hhi]. unfold ulp. split.
  - eapply Z.lt_le_trans; [done|]. apply Z.pow_le_mono_r; lia.
  - intros Hu. etrans; [|done]. apply Z.pow_le_mono_r; lia.
Qed.

Lemma round53_mono z z' : 0 ≤ z ≤ z' → round53 z ≤ round53 z'.
Proof.
  intros Hz. pose proof (ulp_le z z' Hz) as Hle. destruct (ulp_binade z ltac:(lia)) as [Hb _].
  destruct (ulp_binade z' ltac:(lia)) as [_ Hb'].
  assert (0 ≤ ulp z) by (unfold ulp; lia).
  destruct (decide (ulp z = ulp z')) as [Heq|Hne].
  - unfold round53. fold (ulp z). fold (ulp z'). rewrite <-Heq. set (u := 2 ^ ulp z).
    assert (0 < u) by (apply Z.pow_pos_nonneg; lia). pose proof (Z.div_le_mono z z' u ltac:(lia) ltac:(lia)) as Hq.
    destruct (decide (z / u = z' / u)) as [Hqq|Hqq].
    + pose proof (Z.div_mod z u ltac:(lia)). pose proof (Z.div_mod z' u ltac:(lia)). rewrite <-Hqq in *.
      destruct (u <? 2 * (z mod u)) eqn:E1, (2 * (z mod u) =? u) eqn:E2, (u <? 2 * (z' mod u)) eqn:E3,
        (2 * (z' mod u) =? u) eqn:E4, (Z.odd (z / u)); simpl; nia.
    + destruct (_ || _), (_ || _); nia.
  - etrans; [apply (round53_bounded z (2 ^ (53 + ulp z))); [lia|]|].
    { exists (2 ^ 53). rewrite <-Z.pow_add_r; [done|lia|lia]. }
    specialize (Hb' ltac:(lia)). destruct (round53_cases z') as [Hu' Hc]. set (u := 2 ^ ulp z') in *.
    assert (2 ^ (52 + ulp z') = 2 ^ 52 * u) as Hp by (apply Z.pow_add_r; lia).
    assert (2 ^ (53 + ulp z) ≤ 2 ^ (52 + ulp z')) by (apply Z.pow_le_mono_r; lia).
    assert (2 ^ 52 ≤ z' / u) by (apply Z.div_le_lower_bound; lia). destruct Hc as [-> |[-> _]]; nia.
Qed.

(** ** The index *)
Lemma percentile_index_range p size :
  0 ≤ p ≤ 2 ^ 53 → 0 < size ≤ 2 ^ 53 →
  let i := percentile_index p size in
  let rank := p * (size - 1) / 2 ^ 53 in
  0 ≤ i < size ∧ rank ≤ i ≤ rank + 1.
Proof.
  intros Hp Hs. simpl. unfold percentile_index. rewrite (round53_exact (size - 1)) by lia.
  set (k := size - 1). assert (0 ≤ k < 2 ^ 53) by lia. assert (0 ≤ p * k ≤ 2 ^ 53 * k) by nia.
  set (z := p * k) in *. assert (ulp z ≤ 53) as Hu.
  { unfold ulp. destruct (decide (z = 0)) as [->|]; [done|].
    assert (Z.log2 z < 106) by (apply Z.log2_lt_pow2; lia). lia. }
  assert (Hu0 : 0 ≤ ulp z) by (unfold ulp; lia).
  assert (Hdiv : 2 ^ 53 = 2 ^ ulp z * 2 ^ (53 - ulp z)) by (rewrite <-Z.pow_add_r by lia; f_equal; lia).
  assert (0 < 2 ^ (53 - ulp z)) by (apply Z.pow_pos_nonneg; lia).
  assert (Hbound : round53 z ≤ 2 ^ 53 * k).
  { apply round53_bounded; [lia|]. rewrite Hdiv. exists (2 ^ (53 - ulp z) * k). lia. }
  assert (Hrank : z / 2 ^ 53 ≤ round53 z / 2 ^ 53 ≤ z / 2 ^ 53 + 1).
  { destruct (round53_cases z) as [Hpos Hc]. rewrite Hdiv. set (u := 2 ^ ulp z) in *. set (c := 2 ^ (53 - ulp z)) in *.
    rewrite <-Z.div_div by lia. rewrite (Z.mul_comm u c).
    destruct Hc as [-> |[-> _]]; rewrite Z.div_mul_cancel_r by lia; [lia|].
    pose proof (Z.div_mod (z / u) c ltac:(lia)) as Hd. pose proof (Z.mod_pos_bound (z / u) c ltac:(lia)).
    split; [apply Z.div_le_mono; lia|].
    assert ((z / u + 1) / c < z / u / c + 2); [apply Z.div_lt_upper_bound; [lia|nia]|lia]. }
  assert (0 ≤ z / 2 ^ 53) by (apply Z.div_pos; lia).
  assert (round53 z / 2 ^ 53 < k + 1) by (apply Z.div_lt_upper_bound; lia). lia.
Qed.

Lemma percentile_index_mono p p' size :
  0 ≤ p ≤ p' → 0 < size → percentile_index p size ≤ percentile_index p' size.
Proof.
  intros Hp Hs. unfold percentile_index. apply Z.div_le_mono; [done|]. apply round53_mono.
  assert (0 ≤ round53 (size - 1)); [|nia]. rewrite <-(round53_exact 0) by done. apply round53_mono. lia.
Qed.

(** ** Ranks *)
Section Ranks.
Context {A : Type} (R : relation A) `{!RelDecision R, !Transitive R, !Total R}.
Implicit Types (l : list A) (zero : A).

(** [std::sort] of [main]. *)
Definition sort_latencies l : list A := merge_sort R l.

Lemma sorted_split l i x :
  StronglySorted R l → l !! i = Some x →
  Forall (λ y, R y x) (take (S i) l) ∧ Forall (λ y, R x y) (drop i l).
Proof.
  intros Hs Hi. pose proof (total R x x) as Hx. rewrite (take_S_r _ _ _ Hi), (drop_S _ _ _ Hi).
  rewrite <-(take_drop_middle l i x Hi) in Hs. apply StronglySorted_app in Hs as (Hlt & _ & Hs).
  apply StronglySorted_cons in Hs as [Hgt _]. split.
  - apply Forall_app. split; [|repeat constructor; tauto]. apply Forall_forall. intros y Hy. apply Hlt; [done|left].
  - constructor; [tauto|done].
Qed.

(** Every value of a sublist is counted. *)
Lemma filter_count (P : A → Prop) `{!∀ x, Decision (P x)} l l' :
  Forall P l' → l' `sublist_of` l → (length l' ≤ length (filter P l))%nat.
Proof.
  intros HP Hsub. induction Hsub as [|x l1 l2 _ IH|x l1 l2 _ IH]; [done|..].
  - apply Forall_cons in HP as [Hx HP]. rewrite (filter_cons_True P x l2) by done. simpl. specialize (IH HP). lia.
  - specialize (IH HP). rewrite (filter_cons P x l2). destruct (decide (P x)); simpl; lia.
Qed.

(** At position [i] of the sorted list more than [i] values are at most the one
    there, and all but [i] are at least the one there. *)
Lemma sorted_rank l i x :
  sort_latencies l !! i = Some x →
  x ∈ l ∧ (i < length (filter (λ y, R y x) l))%nat ∧ (length l - i ≤ length (filter (λ y, R x y) l))%nat.
Proof.
  intros Hi. pose proof (merge_sort_Permutation R l) as Hperm. unfold sort_latencies in *.
  destruct (sorted_split _ i x (StronglySorted_merge_sort R l) Hi) as [Hle Hge].
  apply lookup_lt_Some in Hi as Hlt. split_and!.
  - rewrite <-Hperm. by eapply list_elem_of_lookup_2.
  - rewrite <-Hperm. eapply Nat.lt_le_trans; [|apply (filter_count (λ y, R y x) _ _ Hle), sublist_take].
    rewrite length_take. lia.
  - rewrite <-Hperm. etrans; [|apply (filter_count (λ y, R x y) _ _ Hge), sublist_drop].
    rewrite length_drop. by rewrite Hperm.
Qed.

Lemma percentile_total zero l p :
  l ≠ [] → len l ≤ 2 ^ 53 → 0 ≤ p ≤ 2 ^ 53 →
  ∃ x, percentile zero (sort_latencies l) p = Some x ∧
    sort_latencies l !! Z.to_nat (percentile_index p (len l)) = Some x.
Proof.
  intros Hne Hlen Hp. pose proof (merge_sort_Permutation R l) as Hperm.
  assert (len (sort_latencies l) = len l) as Hl by (unfold len, sort_latencies; by rewrite Hperm).
  assert (0 < len l) by (pose proof (len_nonneg l); assert (len l ≠ 0) by (by rewrite len_zero_iff); lia).
  destruct (percentile_index_range p (len l) Hp ltac:(lia)) as [Hi _].
  destruct (lookup_lt_is_Some_2 (sort_latencies l) (Z.to_nat (percentile_index p (len l)))) as [x Hx].
  { unfold len in *. lia. }
  exists x. split; [|done]. unfold percentile. rewrite bool_decide_false; [by rewrite Hl|].
  intros E. rewrite E in Hl. rewrite len_nil in Hl. lia.
Qed.

(** C33. The reported percentiles are order statistics.  For a nonempty list
    of up to 2^53 latencies and a fraction [p] the access is in range and gives
    one of the latencies; with the rounding of the floating-point product its
    position is the exact rank of [p] among them, rounded down, or the next one:
    more latencies than that position are at most it, and all but as many are at
    least it.  Of two fractions the larger one gives the larger value, so that
    p50, p95 and p99 are in order. *)
Theorem percentile_correct zero l p p' :
  l ≠ [] → len l ≤ 2 ^ 53 → 0 ≤ p ≤ p' → p' ≤ 2 ^ 53 →
  ∃ x x' i, percentile zero (sort_latencies l) p = Some x ∧ percentile zero (sort_latencies l) p' = Some x' ∧
    x ∈ l ∧ p * (len l - 1) / 2 ^ 53 ≤ i ≤ p * (len l - 1) / 2 ^ 53 + 1 ∧ i < len l ∧
    i < len (filter (λ y, R y x) l) ∧ len l - i ≤ len (filter (λ y, R x y) l) ∧ R x x'.
Proof.
  intros Hne Hlen Hp Hp'.
  destruct (percentile_total zero l p Hne Hlen ltac:(lia)) as (x & Hx & Hi).
  destruct (percentile_total zero l p' Hne Hlen ltac:(lia)) as (x' & Hx' & Hi').
  assert (0 < len l) by (pose proof (len_nonneg l); assert (len l ≠ 0) by (by rewrite len_zero_iff); lia).
  destruct (percentile_index_range p (len l) ltac:(lia) ltac:(lia)) as [Hr Hrank].
  pose proof (percentile_index_mono p p' (len l) ltac:(lia) ltac:(lia)) as Hmono.
  destruct (sorted_rank l _ x Hi) as (Hin & Hle & Hge).
  exists x, x', (percentile_index p (len l)). split_and!; try done; try lia; try (unfold len in *; lia).
  destruct (sorted_split _ _ x (StronglySorted_merge_sort R l) Hi) as [_ Hd].
  eapply Forall_forall in Hd; [exact Hd|]. apply list_elem_of_lookup.
  exists (Z.to_nat (percentile_index p' (len l)) - Z.to_nat (percentile_index p (len l)))%nat.
  rewrite lookup_drop, <-Hi'. unfold sort_latencies. f_equal. lia.
Qed.
End Ranks.

(** ** Witness *)

(** Five latencies: the median is the third, p95 lands on rank 3. *)
Lemma percentile_correct_witness :
  percentile 0 (sort_latencies Z.le [40; 10; 30; 20; 50]) p50 = Some 30 ∧
  percentile 0 (sort_latencies Z.le [40; 10; 30; 20; 50]) p95 = Some 40 ∧ 30 ≤ 40.
Proof.
  destruct (percentile_correct Z.le 0 [40; 10; 30; 20; 50] p50 p95) as (x & x' & i & Hx & Hx' & _ & _ & _ & _ & _ & Hle).
  - discriminate.
  - vm_compute. discriminate.
  - split; vm_compute; discriminate.
  - vm_compute. discriminate.
  - assert (percentile 0 (sort_latencies Z.le [40; 10; 30; 20; 50]) p50 = Some 30) as E by (vm_compute; reflexivity).
    assert (percentile 0 (sort_latencies Z.le [40; 10; 30; 20; 50]) p95 = Some 40) as E' by (vm_compute; reflexivity).
    split; [exact E|]. split; [exact E'|]. rewrite E in Hx. rewrite E' in Hx'. injection Hx as <-. injection Hx' as <-.
    exact Hle.
Defined.
