(* ===== verification/BenchRun.v ===== *)
(** * The benchmark client: threads and [main]

    Models [run_connection] and [main] of
    [src/benchmarks/client/kv_bench.cpp] as a step relation.  A step of a
    connection's thread is one socket call or one test of the stop flag; the
    main thread starts the others, sleeps, sets the flag and joins.  The draws
    of the random number generators and the measured latencies are chosen by
    the step, within what their distributions allow. *)
From stdpp Require Import relations.
From S2P Require Import Prelude Decimal Parser Serializer Client.
From S2P Require Import PriorityQueue Storage StorageInv StorageSpec Dispatcher Bench BenchStats.

Section Run.
Context {N : Type} `{!Net N} {D L : Type}.
(** [inet_pton] as in [Bench.v]; latencies are [double]s with their order. *)
Context (inet_pton : bytes → bool) (zero : L) (le : relation L) `{!RelDecision le}.
Implicit Types (o : Options D) (n : N).

Record ThreadResult := mkThreadResult {
  requests : Z;
  errors : Z;
  latencies_us : list L;
}.

(** Where a thread is in [run_connection]. *)
Inductive ClientThread :=
  | Connecting
  | Opened (fd : Z)
  | Looping (fd : Z) (result : ThreadResult)
  | Sending (fd : Z) (rest : bytes) (result : ThreadResult)
  | Receiving (fd : Z) (buffer : bytes) (result : ThreadResult)
  | Closing (fd : Z) (result : ThreadResult)
  | Returned (result : ThreadResult)
  | Threw (e : exn).

Definition count_error (r : ThreadResult) : ThreadResult :=
  mkThreadResult (requests r) (u64 (errors r + 1)) (latencies_us r).
Definition count_request (latency : L) (r : ThreadResult) : ThreadResult :=
  mkThreadResult (u64 (requests r + 1)) (errors r) (latencies_us r ++ [latency]).

(** One step of [run_connection]; [None] when it has ended.  [stop] is the
    flag, [key] and [mix] are what the distributions give. *)
Definition connection_step o (stop : bool) (key mix : Z) (latency : L) (c : ClientThread) n : option (N * ClientThread) :=
  match c with
  | Connecting =>
      let '(n, r) := open_socket inet_pton (host o) n in
      Some (n, match r with Ok fd => Opened fd | Throw e => Threw e end)
  | Opened fd =>
      let '(n, r) := connect_socket fd (host o) (bench_port o) n in
      Some (n, match r with Ok fd => Looping fd (mkThreadResult 0 0 []) | Throw e => Threw e end)
  | Looping fd r =>
      Some (n, if stop then Closing fd r else Sending fd (bench_request o key mix) r)
  | Sending fd rest r =>
      if bool_decide (rest = []) then Some (n, Receiving fd [] r)
      else
        let '(n, sent) := send_once fd rest n in
        Some (n, match sent with Some rest => Sending fd rest r | None => Closing fd (count_error r) end)
  | Receiving fd buffer r =>
      let '(n, buffer, scan) := recv_once fd buffer n in
      Some (n, match scan with
        | ScanDone => Looping fd (count_request latency r)
        | ScanFail => Closing fd (count_error r)
        | ScanContinue => Receiving fd buffer r
        end)
  | Closing fd r => Some (net_close fd n, Returned r)
  | Returned _ | Threw _ => None
  end.

(** The ranges of [key_dist] and [mix_dist]; [keyspace - 1] is unsigned. *)
Definition draw_ok o (key mix : Z) : Prop := 0 ≤ key ≤ u64 (keyspace o - 1) ∧ 0 ≤ mix ≤ 99.

(** What [main] reports. *)
Record Report := mkReport {
  total_requests : Z;
  total_errors : Z;
  latency_p50 : option L;
  latency_p95 : option L;
  latency_p99 : option L;
}.

Definition report (results : list ThreadResult) : Report :=
  let all_latencies_us := sort_latencies le (concat (latencies_us <$> results)) in
  mkReport (foldl (λ t r, u64 (t + requests r)) 0 results) (foldl (λ t r, u64 (t + errors r)) 0 results)
    (percentile zero all_latencies_us p50) (percentile zero all_latencies_us p95)
    (percentile zero all_latencies_us p99).

(** What [main] returns after its report. *)
Definition exit_status (rep : Report) : Z := if bool_decide (total_errors rep > 0) then 2 else 0.

(** Where the main thread is; [Joining i] has joined [i] threads. *)
Inductive BenchPhase := Starting | Sleeping | Joining (i : nat).

Record Run := mkRun {
  ru_net : N;
  ru_stop : bool;
  ru_threads : list ClientThread;
  ru_main : BenchPhase;
}.

(** How the process ends: with an exit code after its report; with exit code 1
    after an exception that [main] catches and prints; or, when an exception
    leaves the function of a [std::thread], in [std::terminate]. *)
Inductive BenchOutcome :=
  | Live (run : Run)
  | ExitCode (code : Z) (rep : Report)
  | Caught (e : exn)
  | Terminated.

Definition result_of (c : ClientThread) : option ThreadResult := match c with Returned r => Some r | _ => None end.

Inductive bench_step o : BenchOutcome → BenchOutcome → Prop :=
  | StepStart n stop cs :
      len cs < connections o →
      bench_step o (Live (mkRun n stop cs Starting)) (Live (mkRun n stop (cs ++ [Connecting]) Starting))
  | StepSleep n stop cs :
      ¬ len cs < connections o →
      bench_step o (Live (mkRun n stop cs Starting)) (Live (mkRun n stop cs Sleeping))
  | StepStop n stop cs :
      bench_step o (Live (mkRun n stop cs Sleeping)) (Live (mkRun n true cs (Joining 0)))
  | StepJoin n stop cs i r :
      cs !! i = Some (Returned r) →
      bench_step o (Live (mkRun n stop cs (Joining i))) (Live (mkRun n stop cs (Joining (S i))))
  | StepExit n stop cs results :
      mapM result_of cs = Some results →
      let rep := report results in
      bench_step o (Live (mkRun n stop cs (Joining (length cs))))
        (ExitCode (exit_status rep) rep)
  | StepThread n stop cs main i c key mix latency n' c' :
      cs !! i = Some c → draw_ok o key mix →
      connection_step o stop key mix latency c n = Some (n', c') →
      bench_step o (Live (mkRun n stop cs main))
        match c' with Threw _ => Terminated | _ => Live (mkRun n' stop (<[i := c']> cs) main) end.

(** [main] up to the first thread; [fuel] bounds the rounds of each receive
    loop of the pre-population. *)
Definition bench_main (stod : bytes → result D) (five : D) (fuel : nat) (args : list bytes) n : option BenchOutcome :=
  match bench_parse_args stod five args with
  | Throw e => Some (Caught e)
  | Ok o =>
      '(n, r) ← populate_keyspace inet_pton fuel o n;
      Some match r with Throw e => Caught e | Ok _ => Live (mkRun n false [] Starting) end
  end.
End Run.
Arguments ClientThread : clear implicits.
Arguments ThreadResult : clear implicits.
Arguments BenchOutcome : clear implicits.
Arguments Run : clear implicits.

(** ** Threads against a network that serves *)
Section RunFacts.
Context {N : Type} `{!Net N, !ServingNet N} {D L : Type}.
Context (inet_pton : bytes → bool) (zero : L) (le : relation L) `{!RelDecision le}.
Context (o : Options D) (m : gmap bytes (bytes * option Z)).
Hypothesis Hvalue : 0 ≤ value_size o ≤ kMaxValueLength.
Hypothesis Hkeys : 0 < keyspace o ≤ UINT64_MAX.
Hypothesis Hhost : inet_pton (host o) = true.
Hypothesis Hpop : populated o (keyspace o) m.
Implicit Types (c : ClientThread L) (r : ThreadResult L) (conns : Conns) (n : N).

(** A bound on the length of a reply. *)
Definition reply_bound : nat := Z.to_nat (value_size o + 17).

Definition reply_ok (rep : Reply) : Prop := reply_fits rep ∧ (length (encode_reply rep) < reply_bound)%nat.

(** A request of the workload: it is answered, and leaves the data as it is. *)
Definition request_ok (cmd : Command) : Prop :=
  valid_command cmd ∧ cmd_type cmd ≠ kExpire ∧
  ∀ now, (spec_dispatch now cmd m).1 = m ∧ reply_ok (spec_dispatch now cmd m).2.

Definition result_ok r : Prop := errors r = 0 ∧ requests r = u64 (len (latencies_us r)).

Definition fd_of c : option Z :=
  match c with
  | Opened fd | Looping fd _ | Sending fd _ _ | Receiving fd _ _ | Closing fd _ => Some fd
  | Connecting | Returned _ | Threw _ => None
  end.

(** What the peer has of a thread's connection. *)
Definition connection_ok conns c : Prop :=
  match c with
  | Connecting => True
  | Opened fd => conns !! fd = Some None
  | Looping fd r | Closing fd r => conns !! fd = Some (Some ([], [])) ∧ result_ok r
  | Sending fd rest r =>
      result_ok r ∧
      if decide (rest = []) then ∃ rep, conns !! fd = Some (Some ([], encode_reply rep)) ∧ reply_ok rep
      else ∃ cmd inp, conns !! fd = Some (Some (inp, [])) ∧ request_ok cmd ∧ inp ++ rest = encode_command (request_args cmd)
  | Receiving fd buffer r =>
      result_ok r ∧ ∃ rep out, conns !! fd = Some (Some ([], out)) ∧ reply_ok rep ∧ buffer ++ out = encode_reply rep ∧ out ≠ []
  | Returned r => result_ok r
  | Threw _ => False
  end.

(** How far a thread is from its end once the stop flag is set. *)
Definition out_len conns (fd : Z) : nat :=
  match conns !! fd with Some (Some (_, out)) => length out | _ => 0 end.
Definition connection_weight conns c : nat :=
  match c with
  | Connecting => 4
  | Opened _ => 3
  | Looping _ _ => 2
  | Sending fd rest _ => 4 + if decide (rest = []) then out_len conns fd else length rest + reply_bound
  | Receiving fd _ _ => 3 + out_len conns fd
  | Closing _ _ => 1
  | Returned _ | Threw _ => 0
  end.

Lemma bench_request_ok key mix :
  draw_ok o key mix → ∃ cmd, request_ok cmd ∧ bench_request o key mix = encode_command (request_args cmd).
Proof.
  intros [Hk _]. rewrite u64_small in Hk by (unfold in_u64; lia).
  assert (value_size o + 16 < Z.of_nat reply_bound) as Hb by (unfold reply_bound; lia).
  destruct (bench_commands_valid o key ltac:(lia) Hvalue) as [Hs Hg].
  unfold bench_request. destruct (do_set o mix).
  - exists (set_of o key). split; [|done]. split_and!; [done|done|]. intros now. split; [|by apply (set_reply_fits o reply_bound)].
    simpl. apply insert_id, Hpop. lia.
  - exists (get_of key). split; [|done]. split_and!; [done|done|]. intros now.
    rewrite (get_populated o now key (keyspace o)) by (done || lia). split; [done|]. by apply bulk_reply_fits.
Qed.

(** A thread only depends on its own connection. *)
Lemma connection_frame conns conns' c :
  (∀ fd, fd_of c = Some fd → conns' !! fd = conns !! fd) → connection_ok conns c →
  connection_ok conns' c ∧ connection_weight conns' c = connection_weight conns c.
Proof.
  intros Heq. unfold connection_ok, connection_weight, out_len.
  destruct c; simpl in *; try done; rewrite (Heq fd eq_refl); done.
Qed.

Lemma count_request_ok latency r : result_ok r → result_ok (count_request latency r).
Proof.
  intros [He Hr]. split; [done|]. simpl. rewrite Hr, len_app, len_cons, len_nil. unfold u64.
  rewrite Zplus_mod_idemp_l. done.
Qed.

(** The peer's view after a step of the thread [c]. *)
Record step_post conns conns' c c' (stop : bool) n' : Prop := {
  st_serving : serving n' m conns';
  st_ok : connection_ok conns' c';
  st_fd : ∀ fd, fd_of c' = Some fd → fd_of c = Some fd ∨ conns !! fd = None;
  st_frame : ∀ fd, is_Some (conns !! fd) → fd_of c ≠ Some fd → conns' !! fd = conns !! fd;
  st_weight : stop = true → (connection_weight conns' c' < connection_weight conns c)%nat;
}.

(** The usual case: the thread keeps its descriptor. *)
Lemma step_post_same conns c c' stop n' fd x :
  serving n' m (<[fd := x]> conns) → fd_of c = Some fd → (fd_of c' = Some fd ∨ fd_of c' = None) →
  connection_ok (<[fd := x]> conns) c' →
  (stop = true → (connection_weight (<[fd := x]> conns) c' < connection_weight conns c)%nat) →
  step_post conns (<[fd := x]> conns) c c' stop n'.
Proof.
  intros Hs Hc Hc' Hok Hw. constructor; [done|done| | |done].
  - intros fd' Hfd'. left. destruct Hc'; congruence.
  - intros fd' _ Hne. rewrite lookup_insert_ne; [done|]. congruence.
Qed.

Lemma connection_step_ok conns stop key mix latency c n n' c' :
  serving n m conns → connection_ok conns c → draw_ok o key mix →
  connection_step inet_pton o stop key mix latency c n = Some (n', c') →
  ∃ conns', step_post conns conns' c c' stop n'.
Proof.
  intros Hs Hok Hd. destruct c as [|fd|fd r|fd rest r|fd buffer r|fd r|r|e]; simpl in *; try done.
  - destruct (serving_socket n m conns Hs) as (n1 & fd & Hsock & Hfd & Hnew & Hs1).
    unfold open_socket. rewrite Hsock, bool_decide_false, Hhost by lia. simpl. intros [= <- <-].
    exists (<[fd := None]> conns). constructor; simpl; [done|by rewrite lookup_insert_eq|naive_solver| |lia].
    intros fd' [x Hx] _. rewrite lookup_insert_ne; [done|]. congruence.
  - destruct (serving_connect n m conns fd (host o) (bench_port o) Hs Hok) as (n1 & Hc & Hs1).
    unfold connect_socket. rewrite Hc. simpl. intros [= <- <-]. eexists.
    eapply step_post_same; [done|done|by left| |simpl; lia]. simpl. by rewrite lookup_insert_eq.
  - destruct Hok as [Hfd Hr]. intros [= <- <-]. exists conns. rewrite <-(insert_id conns fd _ Hfd) at 2.
    eapply step_post_same; rewrite ?insert_id by done; [done|done|by destruct stop; left| |].
    + destruct stop; simpl; [done|]. split; [done|]. destruct (bench_request_ok key mix Hd) as (cmd & Hcmd & Hreq).
      rewrite decide_False; [by exists cmd, []|]. rewrite Hreq, encode_command_concat. done.
    + intros ->. simpl. lia.
  - destruct Hok as [Hr Hok]. case_bool_decide as Hrest.
    + rewrite decide_True in Hok by done. destruct Hok as (rep & Hfd & Hrep). intros [= <- <-].
      exists conns. rewrite <-(insert_id conns fd _ Hfd) at 2.
      eapply step_post_same; rewrite ?insert_id by done; [done|done|by left| |].
      * split; [done|]. exists rep, (encode_reply rep). split_and!; try done. by destruct rep.
      * intros _. simpl. rewrite decide_True by done. lia.
    + rewrite decide_False in Hok by done. destruct Hok as (cmd & inp & Hfd & (Hv & Ht & Hcmd) & Heq).
      destruct (send_once_serving n m conns fd inp rest cmd) as (n1 & rest' & -> & Hlen & Hcase); [done..|].
      intros [= <- <-]. destruct Hcase as [(-> & now & Hs1)|(Hne & inp' & Heq' & Hs1)].
      * destruct (Hcmd now) as [Hm Hrep]. rewrite Hm in Hs1. eexists. eapply step_post_same; [done|done|by left| |].
        -- split; [done|]. rewrite decide_True by done. eexists. by rewrite lookup_insert_eq.
        -- intros _. simpl. rewrite decide_False by done. destruct Hrep as [_ Hrep]. unfold out_len.
           rewrite lookup_insert_eq. lia.
      * eexists. eapply step_post_same; [done|done|by left| |].
        -- split; [done|]. rewrite decide_False by done. exists cmd, inp'. by rewrite lookup_insert_eq.
        -- intros _. simpl. rewrite !decide_False by done. lia.
  - destruct Hok as (Hr & rep & out & Hfd & [Hfit Hrep] & Heq & Hne).
    destruct (recv_once_serving n m conns fd buffer out rep) as (n1 & buffer' & out' & -> & Hlen & Heq' & Hs1); [done..|].
    intros [= <- <-]. eexists. eapply step_post_same; [done|done|by case_decide; left| |].
    + case_decide as E.
      * subst out'. simpl. rewrite lookup_insert_eq. split; [done|]. by apply count_request_ok.
      * split; [done|]. exists rep, out'. by rewrite lookup_insert_eq.
    + intros _. unfold connection_weight, out_len. rewrite Hfd. case_decide; [lia|]. rewrite lookup_insert_eq. lia.
  - destruct Hok as [Hfd Hr]. intros [= <- <-]. exists (delete fd conns).
    constructor; simpl; [by apply serving_close|done|done| |lia].
    intros fd' _ Hne. apply lookup_delete_ne. congruence.
Qed.

(** ** The process *)
Definition distinct_fds (cs : list (ClientThread L)) : Prop :=
  ∀ i j c c' fd, cs !! i = Some c → cs !! j = Some c' → fd_of c = Some fd → fd_of c' = Some fd → i = j.

Definition main_ok (stop : bool) (cs : list (ClientThread L)) (main : BenchPhase) : Prop :=
  match main with
  | Starting => stop = false ∧ len cs ≤ connections o
  | Sleeping => stop = false ∧ len cs = connections o
  | Joining i => stop = true ∧ len cs = connections o ∧ (i ≤ length cs)%nat ∧
      Forall (λ c, is_Some (result_of c)) (take i cs)
  end.

Record run_ok conns (run : Run N L) : Prop := {
  rk_serving : serving (ru_net run) m conns;
  rk_threads : Forall (connection_ok conns) (ru_threads run);
  rk_fds : distinct_fds (ru_threads run);
  rk_main : main_ok (ru_stop run) (ru_threads run) (ru_main run);
}.

Definition run_weight conns (run : Run N L) : nat :=
  sum_list_with (connection_weight conns) (ru_threads run) +
  match ru_main run with Joining i => length (ru_threads run) - i | _ => 0 end.

Lemma sum_insert_lt {A} (f f' : A → nat) l i x y :
  l !! i = Some x → (f' y < f x)%nat → (∀ j z, l !! j = Some z → j ≠ i → f' z = f z) →
  (sum_list_with f' (<[i := y]> l) < sum_list_with f l)%nat.
Proof.
  revert i. induction l as [|a l IH]; intros [|i] Hi Hlt Heq; simplify_eq/=.
  - assert (sum_list_with f' l = sum_list_with f l) as ->; [|lia].
    assert (∀ j z, l !! j = Some z → f' z = f z) as Hz by (intros j z Hj; by apply (Heq (S j))).
    clear -Hz. induction l as [|b l IH]; [done|]. simpl. rewrite (Hz 0%nat b eq_refl). f_equal. apply IH.
    intros j z Hj. by apply (Hz (S j)).
  - rewrite (Heq 0%nat a eq_refl) by done. assert (sum_list_with f' (<[i:=y]> l) < sum_list_with f l)%nat; [|lia].
    apply IH; [done|done|]. intros j z Hj Hne. apply (Heq (S j)); [done|lia].
Qed.

Lemma connection_ok_open conns c fd : connection_ok conns c → fd_of c = Some fd → is_Some (conns !! fd).
Proof.
  destruct c as [|f|f r|f rest r|f buffer r|f r|r|e]; simpl; intros H Hf; try done; injection Hf as ->.
  - by rewrite H.
  - by destruct H as [-> _].
  - destruct H as [_ H]. case_decide; [by destruct H as (rep & -> & _)|by destruct H as (cmd & inp & -> & _)].
  - by destruct H as (_ & rep & out & -> & _).
  - by destruct H as [-> _].
Qed.

(** A step of one thread keeps the others as they are. *)
Lemma thread_step_ok conns conns' stop n' (cs : list (ClientThread L)) i c c' :
  Forall (connection_ok conns) cs → distinct_fds cs → cs !! i = Some c → step_post conns conns' c c' stop n' →
  Forall (connection_ok conns') (<[i := c']> cs) ∧ distinct_fds (<[i := c']> cs) ∧
  (stop = true → (sum_list_with (connection_weight conns') (<[i := c']> cs) < sum_list_with (connection_weight conns) cs)%nat).
Proof.
  intros Hcs Hdis Hi [Hs Hok Hfd Hframe Hw]. pose proof (λ j x, Forall_lookup_1 _ cs j x Hcs) as Hall.
  assert (Hother : ∀ j x, cs !! j = Some x → j ≠ i →
    connection_ok conns' x ∧ connection_weight conns' x = connection_weight conns x).
  { intros j x Hj Hne. apply connection_frame; [|by eapply Hall]. intros fd Hx. apply Hframe.
    - eapply connection_ok_open; [by eapply Hall|done].
    - intros Hc. apply Hne. by eapply Hdis. }
  assert (Hnew : ∀ j x fd, cs !! j = Some x → j ≠ i → fd_of x = Some fd → fd_of c' ≠ Some fd).
  { intros j x fd Hj Hne Hx Hc'. destruct (Hfd fd Hc') as [Hc|Hn]; [apply Hne; by eapply Hdis|].
    destruct (connection_ok_open conns x fd) as [y Hy]; [by eapply Hall|done|congruence]. }
  split_and!.
  - apply Forall_lookup_2. intros j x Hj. apply list_lookup_insert_Some in Hj as [(<- & <- & _)|[Hne Hj]]; [done|].
    by apply Hother in Hj as [? _].
  - intros j k x y fd Hj Hk Hx Hy. apply list_lookup_insert_Some in Hj as [(<- & <- & _)|[Hj' Hj]];
      apply list_lookup_insert_Some in Hk as [(<- & <- & _)|[Hk' Hk]]; [done| | |by eapply Hdis].
    + destruct (Hnew k y fd); congruence.
    + destruct (Hnew j x fd); congruence.
  - intros Hst. apply (sum_insert_lt _ _ _ _ c); [done|by apply Hw|]. intros j z Hj Hne. by apply (Hother j).
Qed.

Lemma connection_step_returned stop key mix latency c n n' c' :
  connection_step inet_pton o stop key mix latency c n = Some (n', c') → result_of c = None.
Proof. by destruct c. Qed.

Lemma run_step_ok conns run out :
  run_ok conns run → bench_step inet_pton zero le o (Live run) out →
  (∃ conns' run', out = Live run' ∧ run_ok conns' run' ∧
    (ru_stop run = true → ru_stop run' = true ∧ (run_weight conns' run' < run_weight conns run)%nat)) ∨
  ∃ results, Forall result_ok results ∧ len results = connections o ∧
    out = ExitCode (exit_status (report zero le results)) (report zero le results).
Proof.
  intros [Hs Hcs Hdis Hmain] Hstep. inversion Hstep as [n stop cs Hlt|n stop cs Hge|n stop cs|n stop cs i r Hr
    |n stop cs results Hres rep|n stop cs main i c key mix latency n' c' Hi Hd Hc]; subst; simpl in *.
  - left. eexists conns, _. split; [done|]. destruct Hmain as [-> Hlen]. split; [|done]. constructor; simpl; [done| | |].
    + apply Forall_app. by repeat constructor.
    + intros i j c c' fd Hi Hj Hc Hc'. apply lookup_app_Some in Hi as [Hi|[_ Hi]].
      * apply lookup_app_Some in Hj as [Hj|[_ Hj]]; [by eapply Hdis|].
        apply list_lookup_singleton_Some in Hj as [_ <-]. done.
      * apply list_lookup_singleton_Some in Hi as [_ <-]. done.
    + split; [done|]. rewrite len_app, len_cons, len_nil. lia.
  - left. eexists conns, _. split; [done|]. destruct Hmain as [-> Hlen]. split; [|done]. constructor; simpl; try done. split; [done|lia].
  - left. eexists conns, _. split; [done|]. destruct Hmain as [-> Hlen]. split; [|done]. constructor; simpl; try done.
    split_and!; [done|done|lia|constructor].
  - left. eexists conns, _. split; [done|]. destruct Hmain as (-> & Hlen & Hi & Hret). apply lookup_lt_Some in Hr as Hlt.
    split; [constructor; simpl; try done|].
    + split_and!; [done|done|lia|]. rewrite (take_S_r _ _ _ Hr). apply Forall_app. split; [done|]. by repeat constructor.
    + intros _. split; [done|]. unfold run_weight. simpl. lia.
  - right. exists results. destruct Hmain as (_ & Hlen & _). apply mapM_Some in Hres. split_and!; [|..|done].
    + clear -Hcs Hres. induction Hres as [|c r cs results Hc Hres IH]; [constructor|].
      apply Forall_cons in Hcs as [Hok Hcs]. constructor; [|by apply IH]. by destruct c; simplify_eq/=.
    + apply Forall2_length in Hres. unfold len in *. lia.
  - left. destruct (connection_step_ok conns stop key mix latency c n n' c') as [conns' Hpost]; [done| |done|done|].
    { by eapply Forall_lookup_1 in Hcs. }
    destruct (thread_step_ok conns conns' stop n' cs i c c' Hcs Hdis Hi Hpost) as (Hcs' & Hdis' & Hw).
    exists conns', (mkRun n' stop (<[i := c']> cs) main). split.
    { pose proof (st_ok _ _ _ _ _ _ Hpost) as Hok. by destruct c'. }
    split; [constructor; simpl; [apply Hpost|done|done|]|].
    + destruct main as [| |k]; simpl in *; unfold len in *; rewrite ?length_insert; try done.
      destruct Hmain as (-> & Hlen & Hk & Hret). split_and!; try done. apply lookup_lt_Some in Hi as Hlt.
      destruct (decide (i < k)%nat) as [Hik|Hik]; [|by rewrite take_insert_ge by lia].
      assert (take k cs !! i = Some c) as Hi' by (by rewrite lookup_take_lt).
      apply connection_step_returned in Hc. eapply Forall_lookup_1 in Hret as [x Hx]; [|done]. congruence.
    + intros ->. split; [done|]. unfold run_weight. simpl. specialize (Hw eq_refl). rewrite length_insert. destruct main; lia.
Qed.

(** Nobody is ever stuck. *)
Lemma connection_step_total conns stop key mix latency c n :
  connection_ok conns c → result_of c = None → is_Some (connection_step inet_pton o stop key mix latency c n).
Proof.
  intros Hok Hr. destruct c as [|fd|fd r|fd rest r|fd buffer r|fd r|r|e]; simpl in *; try done.
  - by destruct (open_socket _ _ _).
  - by destruct (connect_socket _ _ _ _).
  - case_bool_decide; [done|]. by destruct (send_once _ _ _).
  - by destruct (recv_once _ _ _) as [[? ?] ?].
Qed.

Lemma run_progress conns run : run_ok conns run → ∃ out, bench_step inet_pton zero le o (Live run) out.
Proof.
  intros [_ Hcs _ Hmain]. destruct run as [n stop cs main]; simpl in *. destruct main as [| |i].
  - destruct (decide (len cs < connections o)); eexists; [by apply StepStart|by apply StepSleep].
  - eexists. by apply StepStop.
  - destruct Hmain as (_ & _ & Hi & Hret). destruct (cs !! i) as [c|] eqn:Hc.
    + destruct (result_of c) as [r|] eqn:Hr.
      * eexists. apply (StepJoin _ _ _ _ _ _ _ _ r). rewrite Hc. by destruct c; simplify_eq/=.
      * destruct (connection_step_total conns stop 0 0 zero c n) as [[n' c'] Hs]; [by eapply Forall_lookup_1 in Hcs|done|].
        eexists. eapply StepThread; [done| |done]. split; [|done]. split; [done|]. apply u64_range.
    + apply lookup_ge_None in Hc. assert (i = length cs) as -> by lia. rewrite take_ge in Hret by lia.
      apply mapM_is_Some_2 in Hret as [results Hres]. eexists. by apply StepExit.
Qed.

Lemma run_terminates conns run :
  run_ok conns run → ru_stop run = true → sn (bench_step inet_pton zero le o) (Live run).
Proof.
  remember (run_weight conns run) as k eqn:Hk. revert conns run Hk.
  induction k as [k IH] using lt_wf_ind. intros conns run -> Hok Hstop. constructor. intros out Hstep.
  destruct (run_step_ok conns run out Hok Hstep) as [(conns' & run' & -> & Hok' & Hw)|(results & _ & _ & ->)].
  - destruct (Hw Hstop) as [Hstop' Hlt]. by eapply (IH _ Hlt).
  - constructor. intros out Hs. inversion Hs.
Qed.

Lemma run_reachable conns run out :
  run_ok conns run → rtc (bench_step inet_pton zero le o) (Live run) out →
  (∃ conns' run', out = Live run' ∧ run_ok conns' run') ∨
  ∃ results, Forall result_ok results ∧ len results = connections o ∧
    out = ExitCode (exit_status (report zero le results)) (report zero le results).
Proof.
  intros Hok Hr. remember (Live run) as out0 eqn:Ho. revert conns run Hok Ho.
  induction Hr as [out|out0 out1 out2 Hs Hr IH]; intros conns run Hok ->; [left; eauto|].
  destruct (run_step_ok conns run out1 Hok Hs) as [(conns' & run' & -> & Hok' & _)|(results & H1 & H2 & ->)]; [by eapply IH|].
  right. exists results. split_and!; [done|done|]. inversion Hr as [|? ? ? Hs']; [done|inversion Hs'].
Qed.

(** The report of threads that made no error. *)
Lemma report_counts (results : list (ThreadResult L)) :
  Forall result_ok results →
  total_errors (report zero le results) = 0 ∧
  total_requests (report zero le results) = u64 (len (concat (latencies_us <$> results))).
Proof.
  intros Hall. simpl. assert (∀ t, foldl (λ t r, u64 (t + errors r)) (u64 t) results = u64 t ∧
    foldl (λ t r, u64 (t + requests r)) (u64 t) results = u64 (t + len (concat (latencies_us <$> results)))) as H.
  { induction Hall as [|r results [He Hr] _ IH]; intros t; rewrite ?fmap_cons; cbn [foldl concat];
      [simpl; by rewrite Z.add_0_r|].
    assert (u64 (u64 t + errors r) = u64 t) as -> by (rewrite He, Z.add_0_r; unfold u64; by rewrite Z.mod_mod).
    split; [apply IH|]. assert (u64 (u64 t + requests r) = u64 (t + len (latencies_us r))) as ->.
    { rewrite Hr. unfold u64. by rewrite <-Zplus_mod. }
    destruct (IH (t + len (latencies_us r))) as [_ ->]. rewrite len_app. by rewrite Z.add_assoc. }
  destruct (H 0) as [H1 H2]. split; [exact H1|exact H2].
Qed.
End RunFacts.

(** C32. The benchmark against a server that serves.  With options its parser
    accepts, values the protocol admits and a keyspace that is not empty, and
    however the network cuts the bytes: the pre-population succeeds, every key
    of the keyspace has its value and no other key has changed.  From there, for
    any number of connections and any interleaving of their socket calls, draws
    and the stop flag: the process is never stuck and never terminated by an
    exception; once the stop flag is set every run ends; it can only end with
    exit code 0, with a result from every connection, no error, and as many
    requests as latencies; and the data stay as the pre-population left them. *)
Theorem bench_succeeds {N D L} `{!Net N, !ServingNet N} inet_pton (zero : L) (le : relation L) `{!RelDecision le}
    (stod : bytes → result D) five args o fuel n m :
  bench_parse_args stod five args = Ok o → inet_pton (host o) = true →
  value_size o ≤ kMaxValueLength → 0 < keyspace o → value_size o + 16 < Z.of_nat fuel → serving n m ∅ →
  ∃ n1 m1, let start := Live (mkRun n1 false [] Starting) in
    bench_main (L := L) inet_pton stod five fuel args n = Some start ∧ populated o (keyspace o) m1 ∧
    (∀ k, (∀ j, 0 ≤ j → k ≠ bench_key j) → m1 !! k = m !! k) ∧
    ∀ out, rtc (bench_step inet_pton zero le o) start out →
      match out with
      | Live run => (∃ out', bench_step inet_pton zero le o out out') ∧
          (ru_stop run = true → sn (bench_step inet_pton zero le o) out) ∧ ∃ conns, serving (ru_net run) m1 conns
      | ExitCode code rep => code = 0 ∧ ∃ results, rep = report zero le results ∧ len results = connections o ∧
          total_errors rep = 0 ∧ total_requests rep = u64 (len (concat (latencies_us <$> results)))
      | Caught _ | Terminated => False
      end.
Proof.
  intros Hargs Hp Hv Hk0 Hf Hs.
  destruct (bench_parse_args_typed stod five args o Hargs) as ((_ & _ & [Hv0 _] & Hk) & Hc & _).
  destruct (populate_serving inet_pton o fuel (conj Hv0 Hv) Hf n m ∅ Hs Hp Hk) as (n1 & m1 & Hpk & Hs1 & Hpop & Hframe).
  exists n1, m1. simpl. split_and!; [unfold bench_main; rewrite Hargs; simpl; by rewrite Hpk|done|done|].
  assert (run_ok o m1 ∅ (mkRun (L := L) n1 false [] Starting)) as Hok.
  { constructor; simpl; [done|by apply Forall_nil_2|by intros i j c c' fd Hi|]. split; [done|]. rewrite len_nil. lia. }
  intros out Hr. destruct Hk as [_ Hk].
  destruct (run_reachable inet_pton zero le o m1 (conj Hv0 Hv) (conj Hk0 Hk) Hp Hpop ∅ _ out Hok Hr)
    as [(conns & run & -> & Hok')|(results & Hres & Hlen & ->)].
  - split_and!; [by eapply run_progress|by eapply run_terminates|]. exists conns. apply Hok'.
  - destruct (report_counts zero le results Hres) as [He Hrq]. unfold exit_status. rewrite bool_decide_false by lia.
    split; [done|]. by exists results.
Qed.

(** ** Witness *)

(** Two connections, two keys, three-byte values, a network that carries five
    bytes at a time. *)
Definition bench_args : list bytes :=
  [lit "--connections"; lit "2"; lit "--keyspace"; lit "2"; lit "--workload"; lit "mixed5050"; lit "--value-size"; lit "3"].
Definition bench_options_demo : Options Z := mkOptions (lit "127.0.0.1") 6380 2 5 (lit "mixed5050") 3 2 false.
Definition demo_peer : Peer (Q := candidate_queue) := mkPeer demo_store ∅ 3 0.

Lemma bench_succeeds_witness :
  let net := peer_net sum_hash (λ t, Z.of_nat (Nat.min t 1000)) (λ _, 5) in
  let stod := λ _ : bytes, Throw (InvalidArgument (lit "stod")) in
  ∃ n1, let start := Live (mkRun n1 false [] Starting) in
    bench_main (L := Z) (λ _, true) stod 5 30 bench_args demo_peer = Some start ∧
    (∃ out, bench_step (λ _, true) 0 Z.le bench_options_demo start out) ∧
    ∀ code rep, rtc (bench_step (λ _, true) 0 Z.le bench_options_demo) start (ExitCode code rep) → code = 0.
Proof.
  intros net stod. pose (now := λ t, Z.of_nat (Nat.min t 1000)).
  assert (Hrange : ∀ t, clock_ok (now t)) by (intros t; unfold clock_ok, INT64_MAX, now; lia).
  assert (Hsteady : ∀ t, now t ≤ now (S t)) by (intros t; unfold now; lia).
  destruct (bench_succeeds (ServingNet0 := peer_serves sum_hash now (λ _, 5) Hrange Hsteady) (λ _, true) 0 Z.le
      stod 5 bench_args bench_options_demo 30 demo_peer ∅) as (n1 & m1 & Hmain & _ & _ & Hall).
  - vm_compute. reflexivity.
  - reflexivity.
  - vm_compute. discriminate.
  - vm_compute. reflexivity.
  - vm_compute. reflexivity.
  - destruct (make_store_sim (Q := candidate_queue) sum_hash 3 0) as (store & Hmk & Hsim & _); [lia|].
    rewrite demo_store_made in Hmk. injection Hmk as <-. constructor; [exact Hsim|reflexivity|].
    split; [vm_compute; discriminate|]. intros fd [x Hx]. discriminate Hx.
  - exists n1. split; [exact Hmain|]. split.
    + apply (Hall (Live (mkRun n1 false [] Starting))). apply rtc_refl.
    + intros code rep Hr. apply (Hall (ExitCode code rep) Hr).
Defined.
